(* ===== verification/_CoqProject ===== *)
-Q . S2P
Prelude.v
Text.v
Object.v
Concrete.v
Ticket.v
Event.v
Graph.v
GraphSort.v
Reducer.v
Authority.v
Store.v
Engine.v
EngineRuns.v
Codec.v
Stream.v
Config.v
Shell.v
Session.v
Wordlist.v
Mnemonic.v
Wire.v
Sync.v
Peers.v
Admission.v
Transfer.v
Client.v
SyncRuns.v
ClientRuns.v
Node.v
NodeRuns.v
Service.v
ServiceRuns.v
Screen.v
Terminal.v
TerminalRuns.v
Desktop.v
Local.v
Window.v
WindowRuns.v
Cli.v
CliRuns.v
Machine.v
Address.v
Install.v
Startup.v
StartupRuns.v
Endpoint.v
Pty.v
WindowsService.v
Launch.v
LaunchRuns.v
