(* ===== verification/Prelude.v ===== *)
(** A model of FORTIQ, a remote administration system, and the theorems that make it
    correct.

    * The program

    A node keeps support tickets. Every change of a ticket is an event signed by a node and
    kept as an immutable object; the objects form a graph by their parents, and the state
    of the tickets is the reduction of that graph. Nodes exchange objects, tickets, messages
    and files over libp2p, and open remote shells on one another. What an operator may do
    on another node is proved by a certificate of the owner, whose key comes from a phrase
    of 24 words. A service runs the node and answers the local user over a socket; the
    command line and the desktop application are its clients, and the latter shows a remote
    shell on a terminal of its own.

    * The files, and the code they model

    Common:
    - Prelude: results, the state and error monad [StateM] with [let!], machine widths, byte
      strings, generic lemmas;
    - Text: strings, byte orders, sorting by a comparison, white space, B-tree lists;
    - Stream: readers, writers and JSON.

    [crates/fortiq-core]:
    - Object ([object/{id,signature,envelope}.rs]), Ticket ([ticket/{state,events}.rs]), Event
      ([event/{model,heads}.rs]): the data;
    - Graph and GraphSort ([event/graph.rs]): the graph, and Kahn's algorithm;
    - Reducer ([reducer/ticket.rs]): from the graph to tickets;
    - Store ([store/{object_store,fs}.rs]): the trait [ObjectStore] as a class with its laws,
      and the file system that implements it, with a fault possible at every write and when its
      directories are made;
    - Engine ([engine.rs]): the tickets of a node, over any [ObjectStore], and its outbox, where
      each call of the disk can fail and a file be skipped;
    - Authority ([authority/{policy,workspace}.rs]), Mnemonic and Wordlist
      ([authority/mnemonic.rs] and its word list): certificates, the genesis, the phrase;
    - Codec ([codec.rs]): bounded CBOR;
    - Config ([lib.rs], [ipc.rs], [self_support.rs]): configuration, paths, local requests.

    [crates/fortiq-shell/src/lib.rs]: Shell (handshakes and frames) and Session (the serving
    tasks and the client of a shell) and Pty (the process behind it, on Linux and on Windows).

    [crates/fortiq-p2p/src/node.rs]: Wire (messages and proofs), Sync (the handlers of ticket
    and chat requests), Peers (the registry of peers), Admission (granting a shell), Transfer
    (receiving a file), Client (the operator's side of a shell and of a file), Node (a turn of the
    event loop, which calls all of them) and Launch (how [run] sets up the swarm of a service
    that Startup started, and all the turns of its loop).

    [apps/fortiq-service/src/ipc_server.rs]: Service (the operator session, the local requests,
    staged files, the terminal bridge) and Endpoint (how the Unix sockets are opened; the
    descriptor and the instances of the Windows pipes).

    [apps/fortiq-service/src/main.rs], with the identities of [fortiq-p2p] and [fortiq-core] and
    [service_manager.rs]: Machine (system calls, programs that make them, and processes that
    run any number of programs in any order), Address (the address to listen on), Install (the
    systemd unit; also the settings and the lock of the desktop), WindowsService (the calls to the
    Windows service manager, and the run under it) and Startup (what a process does until the
    node runs).

    [apps/fortiq-desktop/src]: Screen ([terminal/{screen,parser,keymap}.rs]: the screen, its
    sequences, the keys), Terminal ([ipc.rs] and [terminal/session.rs]: a request to the
    service, the two tasks of a session), Desktop ([backend.rs] and its data: the actor and the
    shells it opens), Local (the desktop's requests run by Service) and Window ([main.rs]: what
    the window sends and shows).

    [apps/fortiq-cli/src]: Cli (the commands, and the shell).

    Concrete and the files whose names end in Runs (EngineRuns, SyncRuns, ClientRuns, NodeRuns,
    ServiceRuns, TerminalRuns, WindowRuns, CliRuns, StartupRuns, LaunchRuns) hold executable instances of
    the interfaces and runs on them: the witnesses that the hypotheses of the theorems can hold.

    Definitions keep the names of the code, a method with its type in front
    ([Genesis_verify]). Integers are [N] with their width written where it matters; a map is
    a [gmap]; a path is its list of components; an operation that can fail is a function to
    [result], and one that changes its object before it fails also gives the object it
    leaves. Concurrent parts (Session, Admission, Transfer, Node, Terminal, Desktop, the shell of
    Cli, the processes of Machine, the two sockets of Endpoint) are step functions over explicit events, and their theorems
    are about any sequence of them.

    * Interfaces

    Code outside the repository is a class of operations, with the documented behaviour the
    code relies on as a class of laws: [Crypto] (BLAKE3, Ed25519), [Hex], [Sha256], [Hkdf],
    [BodyCodec], [ObjectCodec] and [Cbor] (ciborium on the types encoded), [Json]
    (serde_json), [OutboxCodec], [Toml] and [SettingsToml], [Libp2p] (peer ids and addresses), [Keypairs]
    (its key files), [Uuid], [Vte] (the splitting of terminal sequences, of which nothing is assumed) and [UnicodeText]
    (upper case, quoting). [JsonText] adds that a JSON text is UTF-8 without line feeds. No law says that a hash or a signature cannot be
    forged: where that matters a theorem says what a collision or a signature would have to
    be. [ErrorText] is the text of an engine error. Clocks, random values and what the disk,
    the channels and the peers answer are arguments.

    Two more classes are interfaces between parts. [Daemon] (Desktop) is what the actor of the
    desktop calls, and [DaemonLaws] what it counts on: a ticket keeps its client. Desktop is
    proved against them, and Local discharges them for the service itself. [CliService] (Cli) is
    what a command asks; its instance [local_cli] is the service behind its socket.

    * The theorems

    - Data: signed objects bind their content; the graph is acyclic, its heads are exact, the
      sort is the order by clock; the reduction does not depend on the order of delivery
      and keeps stores well formed; the bounded decoder accepts the grammar of definite
      lengths and always ends; a phrase and its entropy correspond.
    - Engine and store: the file system implements the store; each mutation does what it
      says on every branch, with what is on the disk afterwards; remote objects; restarting
      gives the same tickets; two engines with the same events agree.
    - Authority: what makes a certificate, a proof or a signed change acceptable, on both
      sides; what peers may read and change; when a shell is granted, and that revoking it
      is final; when a file is taken, and that it is the file sent; who opened the operator
      session there is.
    - Protocols: frames, handshakes, offers and dialogues are read as they were written;
      sessions deliver in order and end when the peer is silent, but not while a frame that was
      read waits in a full channel; over any run of a node that was launched every caller of the
      event loop is answered once or still waits; a stored request stays until an answer settles
      it, and is sent on every connection of its peer on which the outbox can be read.
    - Terminal: the screen keeps its shape whatever a shell sends, and shows the text printed;
      a session shows its frames and sends what is typed, in order, as long as no size is taken in
      the middle of a frame.
    - Desktop and command line: client and service agree on each line; the desktop opens a
      shell to the client of the ticket only, its window shows what the service has after a
      refresh; a command that ends well did what it says and says what it did; and where they fall short (a shell
      that was replaced still speaks, a lock that was not done is reported).
    - Start: on a Unix services that share an identity file have one key, however they start, fail
      or are killed (elsewhere a race loses it), and no two hold one lock; a service goes by the
      genesis of its disk, which verifies; what a torn write or a race leaves; the unit installed, and
      what the Windows manager is asked and told; the sockets are never open to others while
      they are set up, and the pipes only to administrators and operators; which process a
      shell is.

    * Fuel

    Loops without a structural argument take fuel, and a theorem says the fuel chosen is
    enough: the number of events for Kahn's algorithm, the input's length for the CBOR
    scanner, the frames of a stream and the lines of a connection, the number of chunks of
    a file, the length of a line for its rows.

    * What is not modelled

    Locks inside a process: each operation of the engine or of the service is one step; the
    interleavings considered are those of operations, transfers, sessions, events of loops and
    system calls at the start. Texts of errors that format an error of another library are
    reduced to their prefix. On Windows, its paths, the lock and the settings there, the conversion
    of group names and descriptors by its API and the check of the handle of a staged file (how an
    identity is written there, and the shell, are modelled). What libp2p does with the behaviours it
    is given; the terminal driver behind the PTY, and the environment that [portable_pty] gives a
    child before the command adds to it; building the window; the parsing of arguments by clap, the runtime and the logs; the file picker.
    Arithmetic is that of a release build, which wraps. *)

From Stdlib Require Export Strings.Byte Lia ZifyN ZifyNat ZifyBool.
From stdpp Require Export base numbers gmap sorting strings list vector countable.
Export list_basics.list list_relations.list list_monad.list list_misc.list
  list_tactics.list list_numbers.list.

#[export] Set Warnings "-clear-no-such-hyp".

#[global] Open Scope N_scope.
#[global] Open Scope list_scope.

(** ** Results: the [Result<T, E>] of the code *)

Inductive result (E A : Type) : Type :=
| Ok (a : A)
| Err (e : E).
Arguments Ok {E A} a.
Arguments Err {E A} e.

Declare Scope fortiq_scope.
Delimit Scope fortiq_scope with fortiq.
#[global] Open Scope fortiq_scope.

(** The [?] operator of Rust. *)
Notation "'let?' x ':=' m 'in' k" :=
  (match m with Ok x => k | Err e => Err e end)
  (at level 10, x pattern, m at level 100, k at level 200,
   format "'[v' 'let?'  x  ':='  m  'in' '/' k ']'") : fortiq_scope.

Definition is_ok {E A} (r : result E A) : bool :=
  match r with Ok _ => true | Err _ => false end.

Definition map_err {E F A} (f : E → F) (r : result E A) : result F A :=
  match r with Ok a => Ok a | Err e => Err (f e) end.

Definition ok_or {E A} (o : option A) (e : E) : result E A :=
  match o with Some a => Ok a | None => Err e end.

(** ** Stateful and fallible code

    The state is threaded through; an error leaves the state the code left. *)

Definition StateM (S E A : Type) : Type := S → result E A * S.

Definition sret {S E A} (a : A) : StateM S E A := λ s, (Ok a, s).
Definition sfail {S E A} (e : E) : StateM S E A := λ s, (Err e, s).
Definition sbind {S E A B} (m : StateM S E A) (k : A → StateM S E B) : StateM S E B :=
  λ s, match m s with
       | (Ok a, s') => k a s'
       | (Err e, s') => (Err e, s')
       end.
Definition sget {S E A} (f : S → A) : StateM S E A := λ s, (Ok (f s), s).
Notation "'let!' x ':=' m 'in' k" := (sbind m (λ x, k))
  (at level 10, x pattern, m at level 100, k at level 200) : fortiq_scope.

Lemma is_ok_true {E A} (r : result E A) : is_ok r = true ↔ ∃ a, r = Ok a.
Proof. destruct r; naive_solver. Qed.

Lemma ok_or_Ok {E A} (o : option A) (e : E) a : ok_or o e = Ok a ↔ o = Some a.
Proof. destruct o; naive_solver. Qed.

(** Case analysis on every [match] of the goal or of the hypotheses. *)
Ltac case_matches :=
  repeat match goal with
  | |- context [match ?x with _ => _ end] => destruct x eqn:?; simplify_eq/=
  | H : context [match ?x with _ => _ end] |- _ => destruct x eqn:?; simplify_eq/=
  end.

Ltac bool_props :=
  repeat match goal with
  | H : andb _ _ = true |- _ => apply andb_true_iff in H as [? ?]
  | H : negb _ = true |- _ => apply negb_true_iff in H
  | H : negb _ = false |- _ => apply negb_false_iff in H
  | H : bool_decide _ = true |- _ => apply bool_decide_eq_true in H
  | H : bool_decide _ = false |- _ => apply bool_decide_eq_false in H
  | H : (_ <? _) = true |- _ => apply N.ltb_lt in H
  | H : (_ <? _) = false |- _ => apply N.ltb_ge in H
  | H : (_ <=? _) = true |- _ => apply N.leb_le in H
  | H : (_ <=? _) = false |- _ => apply N.leb_gt in H
  | H : (_ =? _) = true |- _ => apply N.eqb_eq in H
  | H : (_ =? _) = false |- _ => apply N.eqb_neq in H
  end.

(** ** Machine integers

    Unsigned integers of the code are [N]; the operations that can overflow
    write the wrap-around of a release build out. *)

Definition u8_modulus : N := 2 ^ 8.
Definition u16_modulus : N := 2 ^ 16.
Definition u32_modulus : N := 2 ^ 32.
Definition u64_modulus : N := 2 ^ 64.
Definition u64_max : N := u64_modulus - 1.

Definition wrapping_add_u64 (a b : N) : N := (a + b) mod u64_modulus.
Definition saturating_add_u64 (a b : N) : N := N.min (a + b) u64_max.
Definition saturating_sub (a b : N) : N := a - b.

Lemma wrapping_add_u64_small a b : a + b < u64_modulus → wrapping_add_u64 a b = a + b.
Proof. apply N.mod_small. Qed.

Lemma wrapping_add_u64_max : wrapping_add_u64 u64_max 1 = 0.
Proof. reflexivity. Qed.

(** ** Bytes *)

#[export] Instance byte_eq_dec : EqDecision byte.
Proof. exact Byte.byte_eq_dec. Defined.

#[export] Program Instance byte_countable : Countable byte :=
  inj_countable Byte.to_N Byte.of_N _.
Next Obligation. intros x. apply Byte.of_to_N. Qed.

Abbreviation bytes := (list byte).

Definition blen (l : bytes) : N := N.of_nat (length l).

Lemma blen_app a b : blen (a ++ b) = blen a + blen b.
Proof. unfold blen. rewrite length_app. lia. Qed.

(** The low byte of a number ([n as u8]). *)
Definition byte_of_N (n : N) : byte := default x00 (Byte.of_N (N.land n 255)).

Lemma land_255 n : N.land n 255 = n mod 256.
Proof. apply (N.land_ones n 8). Qed.

Lemma shiftr_8 n : N.shiftr n 8 = n / 256.
Proof. apply (N.shiftr_div_pow2 n 8). Qed.

Lemma to_N_lt b : Byte.to_N b < 256.
Proof. pose proof (Byte.to_N_bounded b). lia. Qed.

Lemma byte_to_of_N n : Byte.to_N (byte_of_N n) = n mod 256.
Proof.
  unfold byte_of_N. rewrite land_255. assert (n mod 256 < 256) as Hlt by (apply N.mod_lt; lia).
  destruct (Byte.of_N (n mod 256)) as [b|] eqn:E; simpl.
  - by apply Byte.to_of_N in E.
  - apply Byte.of_N_None_iff in E. lia.
Qed.

Lemma byte_of_to_N b : byte_of_N (Byte.to_N b) = b.
Proof.
  unfold byte_of_N. rewrite land_255, N.mod_small by apply to_N_lt. by rewrite Byte.of_to_N.
Qed.

Lemma to_N_inj a b : Byte.to_N a = Byte.to_N b → a = b.
Proof. intros H. by rewrite <- (byte_of_to_N a), H, byte_of_to_N. Qed.

Lemma byte_of_N_inj a b : a < 256 → b < 256 → byte_of_N a = byte_of_N b → a = b.
Proof.
  intros Ha Hb H. apply (f_equal Byte.to_N) in H.
  by rewrite !byte_to_of_N, !N.mod_small in H.
Qed.

(** Little- and big-endian encodings on [k] bytes ([to_le_bytes], [to_be_bytes],
    [from_be_bytes]). *)

Fixpoint le_bytes (k : nat) (n : N) : bytes :=
  match k with
  | O => []
  | S k => byte_of_N n :: le_bytes k (N.shiftr n 8)
  end.

Definition be_bytes (k : nat) (n : N) : bytes := reverse (le_bytes k n).

Fixpoint le_val (l : bytes) : N :=
  match l with
  | [] => 0
  | b :: l => Byte.to_N b + 256 * le_val l
  end.

Definition be_val (l : bytes) : N := le_val (reverse l).

Lemma length_le_bytes k n : length (le_bytes k n) = k.
Proof. revert n; induction k; intros n; simpl; auto. Qed.

Lemma length_be_bytes k n : length (be_bytes k n) = k.
Proof. unfold be_bytes. by rewrite length_reverse, length_le_bytes. Qed.

Lemma le_val_bytes k n : n < 256 ^ N.of_nat k → le_val (le_bytes k n) = n.
Proof.
  revert n; induction k as [|k IH]; intros n Hn.
  - simpl in *. lia.
  - rewrite Nat2N.inj_succ, N.pow_succ_r' in Hn. simpl.
    rewrite shiftr_8, IH by (apply N.Div0.div_lt_upper_bound; lia).
    rewrite byte_to_of_N. pose proof (N.div_mod n 256). lia.
Qed.

Lemma be_val_bytes k n : n < 256 ^ N.of_nat k → be_val (be_bytes k n) = n.
Proof. unfold be_val, be_bytes. rewrite reverse_involutive. apply le_val_bytes. Qed.

Lemma le_val_lt l : le_val l < 256 ^ N.of_nat (length l).
Proof.
  induction l as [|b l IH]; simpl length; [simpl; lia|].
  rewrite Nat2N.inj_succ, N.pow_succ_r'. simpl. pose proof (to_N_lt b). lia.
Qed.

Lemma be_val_lt l : be_val l < 256 ^ N.of_nat (length l).
Proof. unfold be_val. rewrite <- length_reverse. apply le_val_lt. Qed.

Lemma le_bytes_val l : le_bytes (length l) (le_val l) = l.
Proof.
  induction l as [|b l IH]; [done|]. simpl length. simpl le_bytes. f_equal.
  - apply to_N_inj. rewrite byte_to_of_N. simpl.
    rewrite N.mul_comm, N.Div0.mod_add. apply N.mod_small, to_N_lt.
  - etrans; [|exact IH]. f_equal. cbn [le_val]. rewrite shiftr_8, N.mul_comm, N.div_add by lia.
    rewrite N.div_small by apply to_N_lt. lia.
Qed.

Lemma be_bytes_val l : be_bytes (length l) (be_val l) = l.
Proof.
  unfold be_bytes, be_val. rewrite <- (length_reverse l), le_bytes_val.
  apply reverse_involutive.
Qed.

Lemma le_bytes_inj k a b :
  a < 256 ^ N.of_nat k → b < 256 ^ N.of_nat k → le_bytes k a = le_bytes k b → a = b.
Proof. intros Ha Hb H. by rewrite <- (le_val_bytes k a), H, le_val_bytes. Qed.

Lemma be_bytes_inj k a b :
  a < 256 ^ N.of_nat k → b < 256 ^ N.of_nat k → be_bytes k a = be_bytes k b → a = b.
Proof. intros Ha Hb H. by rewrite <- (be_val_bytes k a), H, be_val_bytes. Qed.

Lemma fun_to_vec_nth n (v : vec byte n) :
  fun_to_vec (λ i : fin n, nth (fin_to_nat i) (vec_to_list v) x00) = v.
Proof.
  apply vec_eq. intros i. rewrite lookup_fun_to_vec.
  apply nth_lookup_Some with (d := x00). apply vlookup_lookup. done.
Qed.

(** Fixed-size arrays as map keys: an array is encoded as the number it spells. *)
#[export] Program Instance bytes_vec_countable n : Countable (vec byte n) := {|
  encode v := N.succ_pos (le_val (vec_to_list v));
  decode p := Some (fun_to_vec (λ i : fin n, nth (fin_to_nat i) (le_bytes n (Pos.pred_N p)) x00))
|}.
Next Obligation.
  intros n v. simpl. rewrite N.pos_pred_succ. f_equal.
  assert (le_bytes n (le_val (vec_to_list v)) = vec_to_list v) as ->; [|apply fun_to_vec_nth].
  etrans; [|apply le_bytes_val]. by rewrite length_vec_to_list.
Qed.

Lemma le4_inj a b : a < 2 ^ 32 → b < 2 ^ 32 → le_bytes 4 a = le_bytes 4 b → a = b.
Proof. apply (le_bytes_inj 4). Qed.

Lemma le8_inj a b : a < u64_modulus → b < u64_modulus → le_bytes 8 a = le_bytes 8 b → a = b.
Proof. apply (le_bytes_inj 8). Qed.

(** Concatenations whose first parts have the same length split uniquely. *)
Lemma app_inj_length {A} (a1 a2 b1 b2 : list A) :
  length a1 = length a2 → a1 ++ b1 = a2 ++ b2 → a1 = a2 ∧ b1 = b2.
Proof. apply app_inj_1. Qed.

Lemma app_inj_length_r {A} (a1 a2 b1 b2 : list A) :
  length b1 = length b2 → a1 ++ b1 = a2 ++ b2 → a1 = a2 ∧ b1 = b2.
Proof. apply app_inj_2. Qed.
