(* ===== verification/Text.v ===== *)
(** Strings and orders of the Rust standard library that the code relies on.

    A [str] is the Rocq [string] of its UTF-8 bytes.  The file gives
    [str::as_bytes], the byte-wise order of [[u8]] and [str], [str::trim],
    [str::split_whitespace], [[&str]::join] and [slice::binary_search], with the
    lemmas the components share. *)

From S2P Require Import Prelude.

Definition as_bytes (s : string) : bytes := String.list_byte_of_string s.
Definition from_bytes (l : bytes) : string := String.string_of_list_byte l.
Definition str_len (s : string) : N := N.of_nat (length (as_bytes s)).

Lemma as_from_bytes l : as_bytes (from_bytes l) = l.
Proof. apply String.list_byte_of_string_of_list_byte. Qed.
Lemma from_as_bytes s : from_bytes (as_bytes s) = s.
Proof. apply String.string_of_list_byte_of_string. Qed.
Lemma as_bytes_inj s t : as_bytes s = as_bytes t → s = t.
Proof. intros H. by rewrite <- (from_as_bytes s), H, from_as_bytes. Qed.

Lemma string_app_nil s : s +:+ "" = s.
Proof. induction s as [|a s IH]; [done|]. exact (f_equal (String a) IH). Qed.

Lemma string_app_assoc s t u : (s +:+ t) +:+ u = s +:+ (t +:+ u).
Proof. induction s as [|a s IH]; [done|]. exact (f_equal (String a) IH). Qed.

Lemma as_bytes_app s t : as_bytes (s +:+ t) = as_bytes s ++ as_bytes t.
Proof.
  unfold as_bytes, String.list_byte_of_string.
  induction s as [|c s IH]; simpl; [done|]. by rewrite IH.
Qed.

(** ** The lexicographic order on byte slices *)

Fixpoint bytes_cmp (a b : bytes) : comparison :=
  match a, b with
  | [], [] => Eq
  | [], _ :: _ => Lt
  | _ :: _, [] => Gt
  | x :: a, y :: b =>
      match Byte.to_N x ?= Byte.to_N y with
      | Eq => bytes_cmp a b
      | c => c
      end
  end.

Lemma bytes_cmp_eq a b : bytes_cmp a b = Eq ↔ a = b.
Proof.
  revert b; induction a as [|x a IH]; intros [|y b]; simpl; try done.
  destruct (N.compare_spec (Byte.to_N x) (Byte.to_N y)) as [E|E|E].
  - apply to_N_inj in E as ->. rewrite IH. split; [by intros ->|by intros [= ->]].
  - split; [done|]. intros [= -> ->]. lia.
  - split; [done|]. intros [= -> ->]. lia.
Qed.

Lemma bytes_cmp_refl a : bytes_cmp a a = Eq.
Proof. by apply bytes_cmp_eq. Qed.

Lemma bytes_cmp_antisym a b : bytes_cmp b a = CompOpp (bytes_cmp a b).
Proof.
  revert b; induction a as [|x a IH]; intros [|y b]; simpl; try done.
  rewrite (N.compare_antisym (Byte.to_N x)).
  destruct (Byte.to_N x ?= Byte.to_N y); simpl; auto.
Qed.

Lemma bytes_cmp_lt_trans a b c :
  bytes_cmp a b = Lt → bytes_cmp b c = Lt → bytes_cmp a c = Lt.
Proof.
  revert b c; induction a as [|x a IH]; intros [|y b] [|z c]; simpl; try done.
  destruct (N.compare_spec (Byte.to_N x) (Byte.to_N y)) as [E|E|E];
    destruct (N.compare_spec (Byte.to_N y) (Byte.to_N z)) as [F|F|F];
    destruct (N.compare_spec (Byte.to_N x) (Byte.to_N z)) as [G|G|G];
    try done; try lia; eauto.
Qed.

(** A comparison function in the sense of Rust's [Ord]. *)
Class OrdCmp {A : Type} (cmp : A → A → comparison) := {
  cmp_eq : ∀ a b, cmp a b = Eq ↔ a = b;
  cmp_antisym : ∀ a b, cmp b a = CompOpp (cmp a b);
  cmp_lt_trans : ∀ a b c, cmp a b = Lt → cmp b c = Lt → cmp a c = Lt
}.

#[export] Instance bytes_cmp_ord : OrdCmp bytes_cmp.
Proof. split; [apply bytes_cmp_eq | apply bytes_cmp_antisym | apply bytes_cmp_lt_trans]. Qed.

#[export] Instance N_cmp_ord : OrdCmp N.compare.
Proof.
  split; [apply N.compare_eq_iff | intros; apply N.compare_antisym |].
  intros a b c. rewrite !N.compare_lt_iff. lia.
Qed.

Definition cmp_le {A} (cmp : A → A → comparison) (a b : A) : Prop := cmp a b ≠ Gt.

Section ord_cmp.
Context {A : Type} (cmp : A → A → comparison) `{!OrdCmp cmp}.

#[export] Instance cmp_le_dec : RelDecision (cmp_le cmp).
Proof. intros a b. unfold cmp_le. solve_decision. Defined.

Lemma cmp_refl a : cmp a a = Eq.
Proof. by apply cmp_eq. Qed.

#[export] Instance cmp_le_total : Total (cmp_le cmp).
Proof.
  intros a b. unfold cmp_le. rewrite (cmp_antisym (cmp:=cmp) a b).
  destruct (cmp a b); simpl; auto.
Qed.

#[export] Instance cmp_le_trans : Transitive (cmp_le cmp).
Proof.
  intros a b c. unfold cmp_le.
  destruct (cmp a b) eqn:E1; [apply cmp_eq in E1 as -> | | done]; [done|].
  intros _. destruct (cmp b c) eqn:E2; [apply cmp_eq in E2 as <- | | done].
  - by rewrite E1.
  - intros _. by rewrite (cmp_lt_trans _ _ _ E1 E2).
Qed.

#[export] Instance cmp_le_antisymm : AntiSymm (=) (cmp_le cmp).
Proof.
  intros a b. unfold cmp_le. rewrite (cmp_antisym (cmp:=cmp) a b).
  destruct (cmp a b) eqn:E; simpl; try done. by apply cmp_eq in E.
Qed.

Lemma cmp_lt_irrefl a : cmp a a ≠ Lt.
Proof. by rewrite cmp_refl. Qed.

Lemma cmp_gt_lt a b : cmp a b = Gt ↔ cmp b a = Lt.
Proof. rewrite (cmp_antisym (cmp:=cmp) a b). by destruct (cmp a b). Qed.
End ord_cmp.

(** [Ordering::then_with]. *)
Definition then_with (c d : comparison) : comparison :=
  match c with Eq => d | _ => c end.

(** Comparing a pair of keys is again an order. *)
Lemma then_with_ord {A B C} (f : A → B) (g : A → C) cmpB cmpC
    `{!OrdCmp cmpB, !OrdCmp cmpC} :
  (∀ a b, f a = f b → g a = g b → a = b) →
  OrdCmp (λ a b, then_with (cmpB (f a) (f b)) (cmpC (g a) (g b))).
Proof.
  intros Hinj. split.
  - intros a b. unfold then_with. destruct (cmpB (f a) (f b)) eqn:E.
    + apply cmp_eq in E. rewrite cmp_eq. split; [auto|by intros ->].
    + split; [done|intros ->]. by rewrite (cmp_refl cmpB) in E.
    + split; [done|intros ->]. by rewrite (cmp_refl cmpB) in E.
  - intros a b. rewrite (cmp_antisym (f a)), (cmp_antisym (g a)).
    by destruct (cmpB (f a) (f b)).
  - intros a b c. unfold then_with.
    destruct (cmpB (f a) (f b)) eqn:E1; try done;
      destruct (cmpB (f b) (f c)) eqn:E2; try done.
    + apply cmp_eq in E1, E2. rewrite E1, E2, (cmp_refl cmpB). apply cmp_lt_trans.
    + apply cmp_eq in E1. by rewrite E1, E2.
    + apply cmp_eq in E2. by rewrite <- E2, E1.
    + intros _ _. by rewrite (cmp_lt_trans _ _ _ E1 E2).
Qed.

(** The order of [str]. *)
Definition str_cmp (s t : string) : comparison := bytes_cmp (as_bytes s) (as_bytes t).

#[export] Instance str_cmp_ord : OrdCmp str_cmp.
Proof.
  unfold str_cmp. split.
  - intros s t. rewrite bytes_cmp_eq. split; [apply as_bytes_inj | by intros ->].
  - intros s t. apply bytes_cmp_antisym.
  - intros s t u. apply bytes_cmp_lt_trans.
Qed.

(** ** Sorting with a comparison function: [sort_by], [sort], [BTreeSet] iteration

    [slice::sort_by] is stable; [sort_by] below is the merge sort of the ordered
    relation, and the uniqueness lemma says that any sort by a total order on
    distinct elements gives the same list. *)
Definition sort_by {A} (cmp : A → A → comparison) (l : list A) : list A :=
  merge_sort (cmp_le cmp) l.

Section sort_by.
Context {A : Type} (cmp : A → A → comparison) `{!OrdCmp cmp}.

Lemma sort_by_perm l : sort_by cmp l ≡ₚ l.
Proof. apply merge_sort_Permutation. Qed.

Lemma sort_by_sorted l : StronglySorted (cmp_le cmp) (sort_by cmp l).
Proof. apply StronglySorted_merge_sort; apply _. Qed.

Lemma sort_by_unique l k :
  StronglySorted (cmp_le cmp) k → k ≡ₚ l → k = sort_by cmp l.
Proof.
  intros Hs Hp. apply (StronglySorted_unique (cmp_le cmp)); [done|apply sort_by_sorted|].
  by rewrite Hp, sort_by_perm.
Qed.

Lemma sort_by_perm_eq l k : l ≡ₚ k → sort_by cmp l = sort_by cmp k.
Proof. intros Hp. apply sort_by_unique; [apply sort_by_sorted|]. by rewrite sort_by_perm. Qed.

Lemma elem_of_sort_by x l : x ∈ sort_by cmp l ↔ x ∈ l.
Proof. by rewrite sort_by_perm. Qed.

Lemma NoDup_sort_by l : NoDup l → NoDup (sort_by cmp l).
Proof. by rewrite sort_by_perm. Qed.
End sort_by.

(** ** White space

    [char::is_whitespace] on the UTF-8 encoding of the White_Space code points:
    one byte (U+0009..U+000D, U+0020), two bytes (U+0085, U+00A0) and three bytes
    (U+1680, U+2000..U+200A, U+2028, U+2029, U+202F, U+205F, U+3000). *)
Definition is_ws1 (b : byte) : bool :=
  ((9 <=? Byte.to_N b) && (Byte.to_N b <=? 13)) || (Byte.to_N b =? 32).

Definition is_ws2 (b1 b2 : byte) : bool :=
  (Byte.to_N b1 =? 0xc2) && ((Byte.to_N b2 =? 0x85) || (Byte.to_N b2 =? 0xa0)).

Definition is_ws3 (b1 b2 b3 : byte) : bool :=
  let n1 := Byte.to_N b1 in let n2 := Byte.to_N b2 in let n3 := Byte.to_N b3 in
  ((n1 =? 0xe1) && (n2 =? 0x9a) && (n3 =? 0x80))
  || ((n1 =? 0xe2) && (n2 =? 0x80) &&
      (((0x80 <=? n3) && (n3 <=? 0x8a)) || (n3 =? 0xa8) || (n3 =? 0xa9) || (n3 =? 0xaf)))
  || ((n1 =? 0xe2) && (n2 =? 0x81) && (n3 =? 0x9f))
  || ((n1 =? 0xe3) && (n2 =? 0x80) && (n3 =? 0x80)).

Fixpoint trim_start_bytes (l : bytes) : bytes :=
  match l with
  | [] => []
  | b1 :: t1 =>
      if is_ws1 b1 then trim_start_bytes t1 else
      match t1 with
      | [] => l
      | b2 :: t2 =>
          if is_ws2 b1 b2 then trim_start_bytes t2 else
          match t2 with
          | [] => l
          | b3 :: t3 => if is_ws3 b1 b2 b3 then trim_start_bytes t3 else l
          end
      end
  end.

(** The same from the end, on the reversed bytes. *)
Fixpoint trim_end_rev (l : bytes) : bytes :=
  match l with
  | [] => []
  | b1 :: t1 =>
      if is_ws1 b1 then trim_end_rev t1 else
      match t1 with
      | [] => l
      | b2 :: t2 =>
          if is_ws2 b2 b1 then trim_end_rev t2 else
          match t2 with
          | [] => l
          | b3 :: t3 => if is_ws3 b3 b2 b1 then trim_end_rev t3 else l
          end
      end
  end.

Definition trim_bytes (l : bytes) : bytes :=
  reverse (trim_end_rev (reverse (trim_start_bytes l))).

Definition trim (s : string) : string := from_bytes (trim_bytes (as_bytes s)).

Definition flush_word (cur : bytes) : list bytes :=
  match cur with [] => [] | _ => [cur] end.

Fixpoint split_ws_bytes (l cur : bytes) : list bytes :=
  match l with
  | [] => flush_word cur
  | b1 :: t1 =>
      if is_ws1 b1 then flush_word cur ++ split_ws_bytes t1 [] else
      match t1 with
      | [] => flush_word (cur ++ [b1])
      | b2 :: t2 =>
          if is_ws2 b1 b2 then flush_word cur ++ split_ws_bytes t2 [] else
          match t2 with
          | [] => split_ws_bytes t1 (cur ++ [b1])
          | b3 :: t3 =>
              if is_ws3 b1 b2 b3 then flush_word cur ++ split_ws_bytes t3 []
              else split_ws_bytes t1 (cur ++ [b1])
          end
      end
  end.

Definition split_whitespace (s : string) : list string :=
  from_bytes <$> split_ws_bytes (as_bytes s) [].

(** Printable ASCII other than the space starts no white space. *)
Definition is_graph (b : byte) : bool := (33 <=? Byte.to_N b) && (Byte.to_N b <=? 126).

Lemma is_graph_not_ws1 b : is_graph b = true → is_ws1 b = false.
Proof. unfold is_graph, is_ws1. lia. Qed.
Lemma is_graph_not_ws2 b c : is_graph b = true → is_ws2 b c = false.
Proof. unfold is_graph, is_ws2. lia. Qed.
Lemma is_graph_not_ws3 b c d : is_graph b = true → is_ws3 b c d = false.
Proof. unfold is_graph, is_ws3. cbv zeta. lia. Qed.
Lemma is_graph_not_ws2_r b c : is_graph c = true → is_ws2 b c = false.
Proof. unfold is_graph, is_ws2. lia. Qed.
Lemma is_graph_not_ws3_r b c d : is_graph d = true → is_ws3 b c d = false.
Proof. unfold is_graph, is_ws3. cbv zeta. lia. Qed.

Create Rewrite HintDb text.
#[export] Hint Rewrite is_graph_not_ws1 is_graph_not_ws2 is_graph_not_ws3
  is_graph_not_ws2_r is_graph_not_ws3_r using (assumption || done) : text.

Lemma trim_start_graph b l : is_graph b = true → trim_start_bytes (b :: l) = b :: l.
Proof.
  intros Hb. simpl. autorewrite with text.
  destruct l as [|c [|d l]]; autorewrite with text; done.
Qed.

Lemma trim_end_graph b l : is_graph b = true → trim_end_rev (b :: l) = b :: l.
Proof.
  intros Hb. simpl. autorewrite with text.
  destruct l as [|c [|d l]]; autorewrite with text; done.
Qed.

Lemma trim_graph l : Forall (λ b, is_graph b = true) l → trim_bytes l = l.
Proof.
  intros Hl. unfold trim_bytes. destruct Hl as [|b l Hb Hl]; [done|].
  rewrite trim_start_graph by done.
  assert (Forall (λ b, is_graph b = true) (reverse (b :: l))) as Hr
    by (apply Forall_reverse; by constructor).
  destruct (reverse (b :: l)) as [|c k] eqn:E.
  - apply (f_equal reverse) in E. by rewrite reverse_involutive in E.
  - inversion Hr; subst. rewrite trim_end_graph by done. by rewrite <- E, reverse_involutive.
Qed.

Lemma split_ws_graph w cur l :
  Forall (λ b, is_graph b = true) w → split_ws_bytes (w ++ l) cur = split_ws_bytes l (cur ++ w).
Proof.
  intros Hw. revert cur. induction Hw as [|b w Hb Hw IH]; intros cur.
  - by rewrite app_nil_r.
  - replace (cur ++ b :: w) with ((cur ++ [b]) ++ w) by (by rewrite <- app_assoc).
    rewrite <- IH. cbn [app split_ws_bytes]. autorewrite with text.
    destruct (w ++ l) as [|c [|d k]]; autorewrite with text; done.
Qed.

(** [[&str]::join] with one separator byte. *)
Fixpoint join_bytes (sep : byte) (ws : list bytes) : bytes :=
  match ws with
  | [] => []
  | [w] => w
  | w :: ws => w ++ sep :: join_bytes sep ws
  end.

Definition join (sep : byte) (ws : list string) : string :=
  from_bytes (join_bytes sep (as_bytes <$> ws)).

Definition is_word (w : bytes) : Prop := w ≠ [] ∧ Forall (λ b, is_graph b = true) w.

Lemma split_join_bytes ws :
  Forall is_word ws → split_ws_bytes (join_bytes x20 ws) [] = ws.
Proof.
  induction 1 as [|w ws [Hne Hw] Hws IH]; [done|].
  destruct ws as [|v ws].
  - simpl. rewrite <- (app_nil_r w) at 1. rewrite split_ws_graph by done. simpl.
    by destruct w.
  - change (join_bytes x20 (w :: v :: ws)) with (w ++ x20 :: join_bytes x20 (v :: ws)).
    rewrite split_ws_graph by done. rewrite app_nil_l.
    cbn [split_ws_bytes]. change (is_ws1 x20) with true. cbv iota.
    rewrite IH. by destruct w.
Qed.

Lemma split_whitespace_join ws :
  Forall (λ w, is_word (as_bytes w)) ws → split_whitespace (join x20 ws) = ws.
Proof.
  intros Hws. unfold split_whitespace, join. rewrite as_from_bytes.
  rewrite split_join_bytes by (by apply Forall_fmap).
  rewrite <- list_fmap_compose. etrans; [|apply list_fmap_id].
  apply list_fmap_ext. intros i w _. apply from_as_bytes.
Qed.

(** ** [BTreeSet] as the list of its elements in order *)

Section btree.
Context {A : Type} (cmp : A → A → comparison).

(** [BTreeSet::insert]: an element that compares equal is kept as it is. *)
Fixpoint btree_insert (x : A) (l : list A) : list A :=
  match l with
  | [] => [x]
  | y :: l' =>
      match cmp x y with
      | Lt => x :: l
      | Eq => l
      | Gt => y :: btree_insert x l'
      end
  end.

(** [collect]. *)
Definition btree_collect (l : list A) : list A := foldl (λ s x, btree_insert x s) [] l.
End btree.

(** ** Comparing through a key

    The orders of the code compare structures by some of their fields; two
    elements of one collection with the same key are the same element. *)
Section key_order.
Context {A K : Type} (key : A → K) (kcmp : K → K → comparison) `{!OrdCmp kcmp}.
Let cmp (a b : A) : comparison := kcmp (key a) (key b).

#[export] Instance key_le_total : Total (cmp_le cmp).
Proof. intros a b. apply (cmp_le_total kcmp). Qed.

#[export] Instance key_le_trans : Transitive (cmp_le cmp).
Proof. intros a b c. apply (cmp_le_trans kcmp). Qed.

Definition key_inj (l : list A) : Prop :=
  ∀ x y, x ∈ l → y ∈ l → key x = key y → x = y.

Lemma key_sort_sorted l : StronglySorted (cmp_le cmp) (sort_by cmp l).
Proof. apply StronglySorted_merge_sort; apply _. Qed.

Lemma key_sort_unique l k :
  key_inj l → StronglySorted (cmp_le cmp) k → k ≡ₚ l → k = sort_by cmp l.
Proof.
  intros Hinj Hs Hp. apply (StronglySorted_unique_strong (cmp_le cmp)); [|done|apply key_sort_sorted|].
  - intros x y Hx Hy Hxy Hyx. apply Hinj.
    + by rewrite <- Hp.
    + by rewrite sort_by_perm in Hy.
    + by apply (cmp_le_antisymm kcmp).
  - by rewrite Hp, sort_by_perm.
Qed.

Lemma btree_insert_elem x l y :
  (∀ z, z ∈ l → key x = key z → x = z) →
  y ∈ btree_insert cmp x l ↔ y = x ∨ y ∈ l.
Proof.
  induction l as [|z l IH]; intros Hinj; simpl; [set_solver|].
  unfold cmp at 1. destruct (kcmp (key x) (key z)) eqn:E.
  - apply cmp_eq, Hinj in E as <-; [|set_solver]. set_solver.
  - set_solver.
  - rewrite !elem_of_cons, IH; [set_solver|]. intros; apply Hinj; set_solver.
Qed.

Lemma btree_insert_sorted x l :
  StronglySorted (λ a b, cmp a b = Lt) l →
  StronglySorted (λ a b, cmp a b = Lt) (btree_insert cmp x l).
Proof.
  induction 1 as [|z l Hs IH Hz]; simpl; [repeat constructor|].
  destruct (cmp x z) eqn:E.
  - by constructor.
  - constructor; [by constructor|]. constructor; [done|].
    eapply Forall_impl; [exact Hz|]. intros y Hy. by eapply (cmp_lt_trans (cmp:=kcmp)).
  - constructor; [done|]. apply (cmp_gt_lt kcmp) in E.
    clear -E Hz OrdCmp0. induction Hz as [|y l Hy Hz IH]; simpl; [by repeat constructor|].
    destruct (cmp x y); repeat constructor; auto.
Qed.

(** A strictly sorted list is below its tail. *)
Lemma sorted_head_lt e l y :
  StronglySorted (λ a b, cmp a b = Lt) (e :: l) → y ∈ l → cmp e y = Lt.
Proof. intros [Hf _]%StronglySorted_cons. rewrite Forall_forall in Hf. auto. Qed.
End key_order.

(** ** Counting occurrences *)

Fixpoint occ {A} `{EqDecision A} (x : A) (l : list A) : nat :=
  match l with
  | [] => 0
  | y :: l => if decide (y = x) then S (occ x l) else occ x l
  end.

Section occ.
Context {A : Type} `{EqDecision A}.
Implicit Types (x y : A) (l k : list A).

Lemma occ_app x l k : occ x (l ++ k) = (occ x l + occ x k)%nat.
Proof. induction l as [|y l IH]; simpl; [done|]. destruct (decide _); lia. Qed.

Lemma occ_pos x l : (0 < occ x l)%nat ↔ x ∈ l.
Proof.
  induction l as [|y l IH]; simpl; [set_solver by lia|].
  rewrite elem_of_cons, <- IH. destruct (decide (y = x)); naive_solver lia.
Qed.

Lemma occ_zero x l : occ x l = 0%nat ↔ x ∉ l.
Proof. rewrite <- occ_pos. lia. Qed.
End occ.
