(* ===== verification/Object.v ===== *)
(** Object identifiers, keys, signatures and signed objects
    ([crates/fortiq-core/src/object/{id,signature,envelope}.rs]).

    The hash, the signature scheme and the hex codec are third-party crates
    ([blake3], [ed25519-dalek], [hex]): they are the operations of the classes
    [Crypto] and [Hex], with their documented behaviour in [CryptoLaws] and
    [HexLaws]. *)

From S2P Require Import Prelude Text.

(** ** Third-party interfaces *)

Class Crypto := {
  (** [blake3::hash]; a [Hasher] hashes the concatenation of its updates. *)
  blake3_hash : bytes → vec byte 32;
  (** [SigningKey::from_bytes(seed).verifying_key().to_bytes()]. *)
  ed25519_public : vec byte 32 → vec byte 32;
  (** [SigningKey::sign]. *)
  ed25519_sign : vec byte 32 → bytes → vec byte 64;
  (** Whether [VerifyingKey::from_bytes] accepts the key. *)
  ed25519_key_valid : vec byte 32 → bool;
  (** [VerifyingKey::verify_strict]. *)
  ed25519_verify_strict : vec byte 32 → bytes → vec byte 64 → bool
}.

Class CryptoLaws `{Crypto} : Prop := {
  ed25519_public_valid seed : ed25519_key_valid (ed25519_public seed) = true;
  ed25519_sign_verify seed m :
    ed25519_verify_strict (ed25519_public seed) m (ed25519_sign seed m) = true
}.

Class Hex := {
  hex_error : Type;
  hex_encode : bytes → string;
  hex_decode_to_slice : ∀ n, string → result hex_error (vec byte n)
}.

Class HexLaws `{Hex} : Prop := {
  hex_decode_encode n (v : vec byte n) :
    hex_decode_to_slice n (hex_encode (vec_to_list v)) = Ok v;
  hex_encode_length l : length (as_bytes (hex_encode l)) = (2 * length l)%nat;
  hex_encode_graph l : Forall (λ b, is_graph b = true) (as_bytes (hex_encode l))
}.

(** ** [object/id.rs] *)

Record ObjectId := mkObjectId { oid : vec byte 32 }.

#[export] Instance ObjectId_eq_dec : EqDecision ObjectId.
Proof. solve_decision. Defined.
#[export] Program Instance ObjectId_countable : Countable ObjectId :=
  inj_countable' oid mkObjectId _.
Next Obligation. by intros []. Qed.

Abbreviation NetworkId := ObjectId.
Abbreviation EntityId := ObjectId.
Abbreviation OwnerId := ObjectId.
Abbreviation KeyId := ObjectId.

Definition ObjectId_from_bytes (v : vec byte 32) : ObjectId := mkObjectId v.
Definition ObjectId_as_bytes (i : ObjectId) : bytes := vec_to_list (oid i).
Definition ObjectId_ZERO : ObjectId := mkObjectId (vreplicate 32 x00).

(** The derived [Ord]: lexicographic on the array. *)
Definition ObjectId_cmp (a b : ObjectId) : comparison :=
  bytes_cmp (ObjectId_as_bytes a) (ObjectId_as_bytes b).

Lemma ObjectId_as_bytes_inj a b : ObjectId_as_bytes a = ObjectId_as_bytes b → a = b.
Proof. destruct a, b. intros H%vec_to_list_inj2. simpl in H. by subst. Qed.

#[export] Instance ObjectId_cmp_ord : OrdCmp ObjectId_cmp.
Proof.
  unfold ObjectId_cmp. split.
  - intros a b. rewrite bytes_cmp_eq. split; [apply ObjectId_as_bytes_inj | by intros ->].
  - intros a b. apply bytes_cmp_antisym.
  - intros a b c. apply bytes_cmp_lt_trans.
Qed.

Lemma length_ObjectId_as_bytes i : length (ObjectId_as_bytes i) = 32%nat.
Proof. apply length_vec_to_list. Qed.

(** What a [serde] format hands to a [Deserialize] implementation. *)
Inductive serde_data :=
| SdStr (s : string)
| SdBytes (b : bytes)
| SdSeq (l : bytes).

Definition colon : bytes := [x3a].

Section object_id.
Context `{CC : Crypto, HX : Hex}.

(** BLAKE3 over [domain ":" data]. *)
Definition ObjectId_derive (domain data : bytes) : ObjectId :=
  mkObjectId (blake3_hash (domain ++ colon ++ data)).

Definition ObjectId_to_hex (i : ObjectId) : string := hex_encode (ObjectId_as_bytes i).

Definition ObjectId_from_hex (s : string) : result hex_error ObjectId :=
  let? v := hex_decode_to_slice 32 (trim s) in Ok (mkObjectId v).

Definition ObjectId_serialize (human_readable : bool) (i : ObjectId) : serde_data :=
  if human_readable then SdStr (ObjectId_to_hex i) else SdBytes (ObjectId_as_bytes i).

Inductive de_error := DeHex (e : hex_error) | DeLength (n : nat) | DeType.

Definition vec32_of (l : bytes) : vec byte 32 :=
  fun_to_vec (λ i : fin 32, nth (fin_to_nat i) l x00).

(** [BytesVisitor::visit_bytes] wants exactly 32 bytes; [visit_seq] fills the
    array from the first 32 elements. *)
Definition ObjectId_deserialize (human_readable : bool) (d : serde_data)
    : result de_error ObjectId :=
  if human_readable then
  match d with
  | SdStr s => map_err DeHex (ObjectId_from_hex s)
  | _ => Err DeType
  end
  else
  match d with
  | SdBytes v =>
      if (length v =? 32)%nat then Ok (mkObjectId (vec32_of v)) else Err (DeLength (length v))
  | SdSeq l =>
      if (length l <? 32)%nat then Err (DeLength (length l)) else Ok (mkObjectId (vec32_of l))
  | SdStr _ => Err DeType
  end.
End object_id.

(** ** [object/signature.rs] *)

Definition OBJECT_SIG_DOMAIN : bytes := as_bytes "FORTIQ-OBJECT-SIG-V5".
Definition KEY_ID_DOMAIN : bytes := as_bytes "FORTIQ-KEY-ID-V5".

Record PublicKey := mkPublicKey { pk : vec byte 32 }.
Record Signature := mkSignature { sig : vec byte 64 }.

#[export] Instance PublicKey_eq_dec : EqDecision PublicKey.
Proof. solve_decision. Defined.
#[export] Instance Signature_eq_dec : EqDecision Signature.
Proof. solve_decision. Defined.

Definition PublicKey_as_bytes (k : PublicKey) : bytes := vec_to_list (pk k).
Definition Signature_as_bytes (s : Signature) : bytes := vec_to_list (sig s).
Definition Signature_default : Signature := mkSignature (vreplicate 64 x00).

Lemma PublicKey_as_bytes_inj a b : PublicKey_as_bytes a = PublicKey_as_bytes b → a = b.
Proof. destruct a, b. intros H%vec_to_list_inj2. simpl in H. by subst. Qed.
Lemma length_PublicKey_as_bytes k : length (PublicKey_as_bytes k) = 32%nat.
Proof. apply length_vec_to_list. Qed.
Lemma length_Signature_as_bytes s : length (Signature_as_bytes s) = 64%nat.
Proof. apply length_vec_to_list. Qed.

(** [SigningError]: the only error the code builds. *)
Inductive SigningError := InvalidSignatureLength | VerificationFailed.

(** Errors of [Ed25519Verifier]. *)
Inductive VerifyError := InvalidPublicKey | SignatureVerificationFailed.

Definition vec64_of (l : bytes) : vec byte 64 :=
  fun_to_vec (λ i : fin 64, nth (fin_to_nat i) l x00).

(** The array read back from the bytes of an array is the array. *)
Lemma vec32_of_vec v : vec32_of (vec_to_list v) = v.
Proof. apply fun_to_vec_nth. Qed.
Lemma vec64_of_vec v : vec64_of (vec_to_list v) = v.
Proof. apply fun_to_vec_nth. Qed.

Section signature.
Context `{CC : Crypto, HX : Hex}.

(** What every [sign_domain] and [verify_domain] hashes. *)
Definition domain_digest (domain payload : bytes) : bytes :=
  vec_to_list (blake3_hash (domain ++ colon ++ payload)).

Definition PublicKey_to_hex (k : PublicKey) : string := hex_encode (PublicKey_as_bytes k).
Definition PublicKey_from_hex (s : string) : result hex_error PublicKey :=
  let? v := hex_decode_to_slice 32 (trim s) in Ok (mkPublicKey v).
Definition PublicKey_derive_id (k : PublicKey) : ObjectId :=
  ObjectId_derive KEY_ID_DOMAIN (PublicKey_as_bytes k).
Definition derive_signing_key_id (k : PublicKey) : ObjectId := PublicKey_derive_id k.

Definition PublicKey_serialize (human_readable : bool) (k : PublicKey) : serde_data :=
  if human_readable then SdStr (PublicKey_to_hex k) else SdBytes (PublicKey_as_bytes k).

(** [Vec<u8>::deserialize] takes a byte string or a sequence of bytes. *)
Definition vec_u8_deserialize (d : serde_data) : result de_error bytes :=
  match d with SdBytes b | SdSeq b => Ok b | SdStr _ => Err DeType end.

Definition PublicKey_deserialize (human_readable : bool) (d : serde_data)
    : result de_error PublicKey :=
  if human_readable then
  match d with
  | SdStr s => map_err DeHex (PublicKey_from_hex s)
  | _ => Err DeType
  end
  else
  let? b := vec_u8_deserialize d in
  if (length b =? 32)%nat then Ok (mkPublicKey (vec32_of b)) else Err (DeLength (length b)).

Definition Signature_to_hex (s : Signature) : string := hex_encode (Signature_as_bytes s).
Definition Signature_from_hex (s : string) : result hex_error Signature :=
  let? v := hex_decode_to_slice 64 (trim s) in Ok (mkSignature v).

Definition Signature_serialize (human_readable : bool) (s : Signature) : serde_data :=
  if human_readable then SdStr (Signature_to_hex s) else SdBytes (Signature_as_bytes s).

Definition Signature_deserialize (human_readable : bool) (d : serde_data)
    : result de_error Signature :=
  if human_readable then
  match d with
  | SdStr s => map_err DeHex (Signature_from_hex s)
  | _ => Err DeType
  end
  else
  let? b := vec_u8_deserialize d in
  if (length b =? 64)%nat then Ok (mkSignature (vec64_of b)) else Err (DeLength (length b)).

(** The trait [Signer], as a record of its two methods. *)
Record Signer := mkSigner {
  signer_sign : bytes → result SigningError bytes;
  signer_sign_domain : bytes → bytes → result SigningError Signature
}.

(** The default body of [Signer::sign_domain]. *)
Definition Signer_default_sign_domain (sign : bytes → result SigningError bytes)
  (domain payload : bytes) : result SigningError Signature :=
  let? s := sign (domain_digest domain payload) in
  if negb (length s =? 64)%nat then Err InvalidSignatureLength
  else Ok (mkSignature (vec64_of s)).

Record Ed25519Signer := mkEd25519Signer {
  signing_key : vec byte 32;
  signer_public_key : PublicKey
}.

Definition Ed25519Signer_from_bytes (seed : vec byte 32) : Ed25519Signer :=
  mkEd25519Signer seed (mkPublicKey (ed25519_public seed)).
Definition Ed25519Signer_from_seed (seed : vec byte 32) : Ed25519Signer :=
  Ed25519Signer_from_bytes seed.
(** [generate] with the bytes the operating system's generator returned. *)
Definition Ed25519Signer_generate (random : vec byte 32) : Ed25519Signer :=
  mkEd25519Signer random (mkPublicKey (ed25519_public random)).
Definition Ed25519Signer_to_bytes (s : Ed25519Signer) : vec byte 32 := signing_key s.
Definition Ed25519Signer_public_key (s : Ed25519Signer) : PublicKey := signer_public_key s.
Definition Ed25519Signer_key_id (s : Ed25519Signer) : ObjectId :=
  PublicKey_derive_id (signer_public_key s).

Definition Ed25519Signer_sign_domain (s : Ed25519Signer) (domain payload : bytes) : Signature :=
  mkSignature (ed25519_sign (signing_key s) (domain_digest domain payload)).

(** [impl Signer for Ed25519Signer]: both methods are overridden. *)
Definition Ed25519Signer_Signer (s : Ed25519Signer) : Signer := {|
  signer_sign payload :=
  Ok (Signature_as_bytes (Ed25519Signer_sign_domain s OBJECT_SIG_DOMAIN payload));
  signer_sign_domain domain payload := Ok (Ed25519Signer_sign_domain s domain payload)
  |}.

Record Ed25519Verifier := mkEd25519Verifier {
  verifying_key : vec byte 32;
  verifier_public_key : PublicKey
}.

Definition Ed25519Verifier_from_public_key (k : PublicKey)
  : result VerifyError Ed25519Verifier :=
  if ed25519_key_valid (pk k) then Ok (mkEd25519Verifier (pk k) k) else Err InvalidPublicKey.

Definition Ed25519Verifier_verify_domain (v : Ed25519Verifier)
  (domain payload : bytes) (s : Signature) : result VerifyError unit :=
  if ed25519_verify_strict (verifying_key v) (domain_digest domain payload) (sig s)
  then Ok tt else Err SignatureVerificationFailed.

(** [impl Verifier for Ed25519Verifier]. *)
Definition Ed25519Verifier_verify (v : Ed25519Verifier) (payload signature : bytes)
  : result SigningError unit :=
  if negb (length signature =? 64)%nat then Err InvalidSignatureLength
  else map_err (λ _, VerificationFailed)
       (Ed25519Verifier_verify_domain v OBJECT_SIG_DOMAIN payload
          (mkSignature (vec64_of signature))).

(** The public key stored in a signer is the one of its signing key: every
    constructor establishes it and no method changes it. *)
Definition signer_wf (s : Ed25519Signer) : Prop :=
  pk (signer_public_key s) = ed25519_public (signing_key s).

Lemma signer_wf_from_bytes seed : signer_wf (Ed25519Signer_from_bytes seed).
Proof. done. Qed.
End signature.

(** ** [object/envelope.rs] *)

Definition OBJECT_ID_DOMAIN : bytes := as_bytes "FORTIQ-OBJECT-V5".

Record SignedObject := mkSignedObject {
  so_id : ObjectId;
  so_author : PublicKey;
  so_created_at : N;
  so_payload : bytes;
  so_signature : Signature
}.

#[export] Instance SignedObject_eq_dec : EqDecision SignedObject.
Proof. solve_decision. Defined.

Inductive ObjectError := IdMismatch | AuthorKeyInvalid | ObjectSignatureInvalid.

Section envelope.
Context `{CC : Crypto, HX : Hex}.

Definition SignedObject_compute_tbs_bytes
  (author : PublicKey) (created_at : N) (payload : bytes) : bytes :=
  PublicKey_as_bytes author ++ le_bytes 8 created_at ++ payload.

Definition SignedObject_compute_id
  (author : PublicKey) (created_at : N) (payload : bytes) : ObjectId :=
  ObjectId_derive OBJECT_ID_DOMAIN (SignedObject_compute_tbs_bytes author created_at payload).

Definition SignedObject_sign (signer : Ed25519Signer) (payload : bytes) (created_at : N)
  : SignedObject :=
  let author := Ed25519Signer_public_key signer in
  let tbs := SignedObject_compute_tbs_bytes author created_at payload in
  {| so_id := ObjectId_derive OBJECT_ID_DOMAIN tbs;
   so_author := author;
   so_created_at := created_at;
   so_payload := payload;
   so_signature := Ed25519Signer_sign_domain signer OBJECT_SIG_DOMAIN tbs |}.

Definition SignedObject_verify (o : SignedObject) : result ObjectError unit :=
  let expected_id :=
  SignedObject_compute_id (so_author o) (so_created_at o) (so_payload o) in
  if negb (bool_decide (so_id o = expected_id)) then Err IdMismatch else
  let tbs :=
  SignedObject_compute_tbs_bytes (so_author o) (so_created_at o) (so_payload o) in
  let? verifier := map_err (λ _, AuthorKeyInvalid)
                   (Ed25519Verifier_from_public_key (so_author o)) in
  let? _ := map_err (λ _, ObjectSignatureInvalid)
            (Ed25519Verifier_verify_domain verifier OBJECT_SIG_DOMAIN tbs (so_signature o)) in
  Ok tt.

(** *** Lemmas *)

Lemma verify_sign_domain `{!CryptoLaws} s domain payload :
  signer_wf s →
  ∃ v, Ed25519Verifier_from_public_key (signer_public_key s) = Ok v ∧
  Ed25519Verifier_verify_domain v domain payload
    (Ed25519Signer_sign_domain s domain payload) = Ok tt.
Proof.
  intros Hwf. unfold Ed25519Verifier_from_public_key. rewrite Hwf, ed25519_public_valid.
  eexists; split; [done|]. unfold Ed25519Verifier_verify_domain; simpl.
  by rewrite ed25519_sign_verify.
Qed.

Lemma verify_sign_trait `{!CryptoLaws} s payload signature :
  signer_wf s →
  signer_sign (Ed25519Signer_Signer s) payload = Ok signature →
  ∃ v, Ed25519Verifier_from_public_key (signer_public_key s) = Ok v ∧
  Ed25519Verifier_verify v payload signature = Ok tt.
Proof.
  intros Hwf [= <-]. destruct (verify_sign_domain s OBJECT_SIG_DOMAIN payload Hwf) as (v&Hv&Hs).
  exists v; split; [done|]. unfold Ed25519Verifier_verify.
  rewrite length_Signature_as_bytes. change (negb (64 =? 64)%nat) with false. cbv iota.
  unfold Signature_as_bytes. rewrite vec64_of_vec.
  change (mkSignature _) with (Ed25519Signer_sign_domain s OBJECT_SIG_DOMAIN payload).
  by rewrite Hs.
Qed.

Lemma SignedObject_sign_verify_ok `{!CryptoLaws} signer payload created_at :
  signer_wf signer →
  SignedObject_verify (SignedObject_sign signer payload created_at) = Ok tt.
Proof.
  intros Hwf. unfold SignedObject_verify. simpl. rewrite bool_decide_eq_true_2 by done.
  destruct (verify_sign_domain signer OBJECT_SIG_DOMAIN
    (SignedObject_compute_tbs_bytes (signer_public_key signer) created_at payload) Hwf)
    as (v & Hv & Hs).
  unfold Ed25519Signer_public_key. by rewrite Hv; simpl; rewrite Hs.
Qed.

Lemma SignedObject_verify_Ok o :
  SignedObject_verify o = Ok tt ↔
  so_id o = SignedObject_compute_id (so_author o) (so_created_at o) (so_payload o) ∧
  ed25519_key_valid (pk (so_author o)) = true ∧
  ed25519_verify_strict (pk (so_author o))
    (domain_digest OBJECT_SIG_DOMAIN
       (SignedObject_compute_tbs_bytes (so_author o) (so_created_at o) (so_payload o)))
    (sig (so_signature o)) = true.
Proof.
  unfold SignedObject_verify, Ed25519Verifier_from_public_key, Ed25519Verifier_verify_domain.
  case_bool_decide as Hid; simpl; [|naive_solver].
  destruct (ed25519_key_valid _); simpl; [|naive_solver].
  destruct (ed25519_verify_strict _ _ _); simpl; naive_solver.
Qed.

(** The to-be-signed bytes determine the three fields. *)
Lemma compute_tbs_bytes_inj a1 t1 p1 a2 t2 p2 :
  t1 < u64_modulus → t2 < u64_modulus →
  SignedObject_compute_tbs_bytes a1 t1 p1 = SignedObject_compute_tbs_bytes a2 t2 p2 →
  a1 = a2 ∧ t1 = t2 ∧ p1 = p2.
Proof.
  unfold SignedObject_compute_tbs_bytes. intros Ht1 Ht2 H.
  apply app_inj_length in H as [Ha H]; [|by rewrite !length_PublicKey_as_bytes].
  apply app_inj_length in H as [Ht Hp]; [|by rewrite !length_le_bytes].
  apply PublicKey_as_bytes_inj in Ha. by apply le_bytes_inj in Ht.
Qed.

(** These two hash inputs are a collision: an explicit pair, since some pair
    exists for every hash. *)
Definition collides (x y : bytes) : Prop := x ≠ y ∧ blake3_hash x = blake3_hash y.

(** What [ObjectId::derive] hashes. *)
Definition derive_input (domain data : bytes) : bytes := domain ++ colon ++ data.

Lemma ObjectId_derive_inj d1 x d2 y :
  ObjectId_derive d1 x = ObjectId_derive d2 y →
  derive_input d1 x = derive_input d2 y ∨ collides (derive_input d1 x) (derive_input d2 y).
Proof.
  intros [= Hh]. destruct (decide (derive_input d1 x = derive_input d2 y)); [by left|by right].
Qed.

Lemma derive_input_inj d x y : derive_input d x = derive_input d y → x = y.
Proof. by intros H%app_inv_head%app_inv_head. Qed.

(** Domains without [:] split off uniquely. *)
Lemma derive_input_domain_inj d1 x d2 y :
  x3a ∉ d1 → x3a ∉ d2 → derive_input d1 x = derive_input d2 y → d1 = d2 ∧ x = y.
Proof.
  unfold derive_input, colon. intros H1. revert d2.
  induction d1 as [|b d1 IH]; intros [|c d2] H2 He; simplify_eq/=; try done.
  - by destruct H2; left.
  - by destruct H1; left.
  - destruct (IH ltac:(set_solver) d2 ltac:(set_solver)) as [-> ->]; done.
Qed.

(** The hash input behind an object's id. *)
Definition object_preimage (o : SignedObject) : bytes :=
  derive_input OBJECT_ID_DOMAIN
  (SignedObject_compute_tbs_bytes (so_author o) (so_created_at o) (so_payload o)).

Lemma verified_same_id o1 o2 :
  SignedObject_verify o1 = Ok tt → SignedObject_verify o2 = Ok tt →
  so_id o1 = so_id o2 → ¬ collides (object_preimage o1) (object_preimage o2) →
  so_created_at o1 < u64_modulus → so_created_at o2 < u64_modulus →
  so_author o1 = so_author o2 ∧ so_created_at o1 = so_created_at o2 ∧
  so_payload o1 = so_payload o2.
Proof.
  intros (Hid1 & _)%SignedObject_verify_Ok (Hid2 & _)%SignedObject_verify_Ok Heq Hnc Ht1 Ht2.
  rewrite Hid1, Hid2 in Heq. apply ObjectId_derive_inj in Heq as [Htbs|Hc]; [|by destruct Hnc].
  by apply derive_input_inj, compute_tbs_bytes_inj in Htbs.
Qed.
End envelope.

(** *** Hex text of ids *)

Section hex_text.
Context `{HX : Hex, !HexLaws}.

Lemma trim_hex l : trim (hex_encode l) = hex_encode l.
Proof. unfold trim. rewrite trim_graph by apply hex_encode_graph. apply from_as_bytes. Qed.

Lemma ObjectId_from_to_hex i : ObjectId_from_hex (ObjectId_to_hex i) = Ok i.
Proof.
  unfold ObjectId_from_hex, ObjectId_to_hex. rewrite trim_hex.
  unfold ObjectId_as_bytes. rewrite hex_decode_encode. by destruct i.
Qed.

Lemma ObjectId_to_hex_inj i j : ObjectId_to_hex i = ObjectId_to_hex j → i = j.
Proof. intros Hij. pose proof (ObjectId_from_to_hex i) as E. rewrite Hij, ObjectId_from_to_hex in E. by injection E. Qed.

Lemma length_ObjectId_to_hex i : length (as_bytes (ObjectId_to_hex i)) = 64%nat.
Proof. unfold ObjectId_to_hex. by rewrite hex_encode_length, length_ObjectId_as_bytes. Qed.
End hex_text.

(** ** Properties *)

Section object_properties.
Context `{CC : Crypto, HX : Hex}.

(** Signing is sound for every signer the constructors build: an object of
    [SignedObject::sign] passes [verify]; a signature of the [Signer] trait passes
    [Verifier::verify] under the signer's key; an object whose id was replaced
    fails with the id mismatch error; and a signature of the wrong length is
    refused before any cryptography runs. *)
Theorem signing_sound `{!CryptoLaws} signer payload created_at :
  signer_wf signer →
  SignedObject_verify (SignedObject_sign signer payload created_at) = Ok tt ∧
  (∀ signature, signer_sign (Ed25519Signer_Signer signer) payload = Ok signature →
   ∃ v, Ed25519Verifier_from_public_key (signer_public_key signer) = Ok v ∧
     Ed25519Verifier_verify v payload signature = Ok tt) ∧
  (∀ o i, SignedObject_verify o = Ok tt → i ≠ so_id o →
   SignedObject_verify
     (mkSignedObject i (so_author o) (so_created_at o) (so_payload o) (so_signature o))
     = Err IdMismatch) ∧
  (∀ v signature, length signature ≠ 64%nat →
   Ed25519Verifier_verify v payload signature = Err InvalidSignatureLength).
Proof.
  intros Hwf. split; [by apply SignedObject_sign_verify_ok|].
  split; [intros signature Hs; by apply verify_sign_trait with (s := signer)|]. split.
  - intros o i (Hid & _)%SignedObject_verify_Ok Hne.
    unfold SignedObject_verify; simpl. rewrite bool_decide_eq_false_2; [done|].
    by rewrite <- Hid.
  - intros v signature Hl. unfold Ed25519Verifier_verify.
    by apply Nat.eqb_neq in Hl as ->.
Qed.

(** Content addressing: two verified objects with the same id carry the
    same author, time and payload, unless the two byte strings their ids hash
    are a BLAKE3 collision.  Any edit of a signed object changes its id. *)
Theorem SignedObject_verify_binds_content o1 o2 :
  SignedObject_verify o1 = Ok tt → SignedObject_verify o2 = Ok tt →
  so_id o1 = so_id o2 →
  so_created_at o1 < u64_modulus → so_created_at o2 < u64_modulus →
  (so_author o1 = so_author o2 ∧ so_created_at o1 = so_created_at o2 ∧
  so_payload o1 = so_payload o2) ∨
  collides (object_preimage o1) (object_preimage o2).
Proof.
  intros (Hid1 & _)%SignedObject_verify_Ok (Hid2 & _)%SignedObject_verify_Ok Heq Ht1 Ht2.
  rewrite Hid1, Hid2 in Heq. apply ObjectId_derive_inj in Heq as [Htbs|Hc]; [left|by right].
  by apply derive_input_inj, compute_tbs_bytes_inj in Htbs.
Qed.

(** Domain separation: for domains without the byte [:], as all domains of
    the code are, equal digests under two (domain, payload) pairs mean equal
    pairs, unless the two hashed strings are a BLAKE3 collision; a signature made
    for one purpose cannot be presented for another. *)
Theorem domain_digest_separates d1 p1 d2 p2 :
  x3a ∉ d1 → x3a ∉ d2 →
  domain_digest d1 p1 = domain_digest d2 p2 →
  (d1 = d2 ∧ p1 = p2) ∨ collides (derive_input d1 p1) (derive_input d2 p2).
Proof.
  intros H1 H2 Hd%vec_to_list_inj2.
  destruct (decide (derive_input d1 p1 = derive_input d2 p2)) as [He|Hne]; [left|by right].
  by apply derive_input_domain_inj.
Qed.

(** Both serde encodings of an [ObjectId], a [PublicKey] and a [Signature]
    read back as the value, whether the format is human readable (hex, with
    [from_hex] trimming its input) or binary. *)
Theorem serde_roundtrip `{!HexLaws} human i k s :
  ObjectId_deserialize human (ObjectId_serialize human i) = Ok i ∧
  PublicKey_deserialize human (PublicKey_serialize human k) = Ok k ∧
  Signature_deserialize human (Signature_serialize human s) = Ok s.
Proof.
  destruct i as [vi], k as [vk], s as [vs], human; simpl.
  - unfold ObjectId_from_hex, PublicKey_from_hex, Signature_from_hex, ObjectId_to_hex,
      PublicKey_to_hex, Signature_to_hex. rewrite !trim_hex.
    unfold ObjectId_as_bytes, PublicKey_as_bytes, Signature_as_bytes; simpl.
    by rewrite !hex_decode_encode.
  - rewrite length_ObjectId_as_bytes, length_PublicKey_as_bytes, length_Signature_as_bytes.
    cbv [ObjectId_as_bytes PublicKey_as_bytes Signature_as_bytes oid pk sig].
    by rewrite !Nat.eqb_refl, !vec32_of_vec, vec64_of_vec.
Qed.
End object_properties.
