(* ===== verification/Concrete.v ===== *)
(** Concrete, executable instances of the third-party interfaces of [Object].

    They satisfy the laws the development relies on and evaluate with
    [vm_compute]; the examples of the other files run the code on them.  They
    are not the cryptography of the crates: the hash is a polynomial and a
    signature names its key. *)

From S2P Require Import Prelude Text Object.

Definition poly_hash (l : bytes) : N :=
  foldl (λ h b, N.land (h * 257 + Byte.to_N b + 1) (N.ones 256)) 7 l.

Definition toy_blake3 (l : bytes) : vec byte 32 := vec32_of (le_bytes 32 (poly_hash l)).

Definition toy_public (seed : vec byte 32) : vec byte 32 := toy_blake3 (x70 :: vec_to_list seed).

Definition toy_sign (seed : vec byte 32) (m : bytes) : vec byte 64 :=
  vapp (toy_public seed) (toy_blake3 m).

#[export] Instance toy_crypto : Crypto := {|
  blake3_hash := toy_blake3;
  ed25519_public := toy_public;
  ed25519_sign := toy_sign;
  ed25519_key_valid _ := true;
  ed25519_verify_strict k m s :=
    bool_decide (vec_to_list s = vec_to_list k ++ vec_to_list (toy_blake3 m))
|}.

#[export] Instance toy_crypto_laws : CryptoLaws.
Proof.
  split; [done|]. intros seed m.
  cbv [ed25519_verify_strict ed25519_public ed25519_sign toy_crypto].
  apply bool_decide_eq_true. unfold toy_sign. exact (vec_to_list_app (toy_public seed) (toy_blake3 m)).
Qed.

Definition hex_digit (n : N) : byte := byte_of_N (if n <? 10 then 48 + n else 87 + n).

Definition hex_value (b : byte) : option N :=
  let n := Byte.to_N b in
  if (48 <=? n) && (n <=? 57) then Some (n - 48)
  else if (97 <=? n) && (n <=? 102) then Some (n - 87)
  else if (65 <=? n) && (n <=? 70) then Some (n - 55)
  else None.

Fixpoint hex_encode_bytes (l : bytes) : bytes :=
  match l with
  | [] => []
  | b :: l => hex_digit (Byte.to_N b / 16) :: hex_digit (Byte.to_N b mod 16) :: hex_encode_bytes l
  end.

Fixpoint hex_decode_bytes (l : bytes) : option bytes :=
  match l with
  | [] => Some []
  | h :: l :: t =>
      match hex_value h, hex_value l, hex_decode_bytes t with
      | Some a, Some b, Some r => Some (byte_of_N (16 * a + b) :: r)
      | _, _, _ => None
      end
  | _ => None
  end.

Definition vec_of_bytes n (l : bytes) : vec byte n :=
  fun_to_vec (λ i : fin n, nth (fin_to_nat i) l x00).

#[export] Instance toy_hex : Hex := {|
  hex_error := unit;
  hex_encode l := from_bytes (hex_encode_bytes l);
  hex_decode_to_slice n s :=
    match hex_decode_bytes (as_bytes s) with
    | Some l => if (length l =? n)%nat then Ok (vec_of_bytes n l) else Err tt
    | None => Err tt
    end
|}.

Lemma hex_decode_encode_bytes l : hex_decode_bytes (hex_encode_bytes l) = Some l.
Proof.
  induction l as [|b l IH]; [done|]. cbn [hex_encode_bytes hex_decode_bytes].
  rewrite IH. clear IH. destruct b; reflexivity.
Qed.

#[export] Instance toy_hex_laws : HexLaws.
Proof.
  split.
  - intros n v. simpl. rewrite as_from_bytes, hex_decode_encode_bytes, length_vec_to_list.
    rewrite Nat.eqb_refl. f_equal. apply fun_to_vec_nth.
  - intros l. simpl. rewrite as_from_bytes. induction l as [|b l IH]; simpl; lia.
  - intros l. simpl. rewrite as_from_bytes. induction l as [|b l IH]; [constructor|].
    simpl. repeat constructor; try done; destruct b; reflexivity.
Qed.

Definition toy_seed (n : N) : vec byte 32 := vec32_of (le_bytes 32 n).
Definition toy_signer (n : N) : Ed25519Signer := Ed25519Signer_from_bytes (toy_seed n).
Definition toy_id (n : N) : ObjectId := mkObjectId (toy_seed n).

(** The bytes of a number, as many as it needs. *)
Definition spell (n : N) : bytes := le_bytes (S (N.to_nat (N.size n / 8))) n.

Lemma le_val_spell n : le_val (spell n) = n.
Proof.
  apply le_val_bytes. pose proof (N.size_gt n) as H. eapply N.lt_le_trans; [exact H|].
  change 256 with (2 ^ 8). rewrite <- N.pow_mul_r. apply N.pow_le_mono_r; [done|].
  pose proof (N.div_mod (N.size n) 8). pose proof (N.mod_lt (N.size n) 8). lia.
Qed.

(** ** The properties of [Object] on concrete values *)

Definition toy_object (n : N) : SignedObject := SignedObject_sign (toy_signer n) [x01; x02] 9.

Lemma signing_sound_witness :
  signer_wf (toy_signer 1) ∧ SignedObject_verify (toy_object 1) = Ok tt.
Proof.
  split; [apply signer_wf_from_bytes|].
  exact (proj1 (signing_sound (toy_signer 1) [x01; x02] 9 (signer_wf_from_bytes _))).
Defined.

Lemma SignedObject_verify_binds_content_witness :
  SignedObject_verify (toy_object 1) = Ok tt ∧
  so_payload (toy_object 1) = so_payload (toy_object 1).
Proof.
  assert (SignedObject_verify (toy_object 1) = Ok tt) as H by (vm_compute; reflexivity).
  split; [exact H|].
  destruct (SignedObject_verify_binds_content _ _ H H eq_refl) as [(_ & _ & E)|[Hne _]];
    [reflexivity..|exact E|]. by destruct Hne.
Defined.

Lemma domain_digest_separates_witness :
  domain_digest OBJECT_ID_DOMAIN [x01] = domain_digest OBJECT_ID_DOMAIN [x01] ∧
  (OBJECT_ID_DOMAIN = OBJECT_ID_DOMAIN ∧ [x01] = [x01] ∨
   collides (derive_input OBJECT_ID_DOMAIN [x01]) (derive_input OBJECT_ID_DOMAIN [x01])).
Proof.
  assert (x3a ∉ OBJECT_ID_DOMAIN) as H.
  { apply (bool_decide_eq_false_1 (x3a ∈ OBJECT_ID_DOMAIN)). vm_compute. reflexivity. }
  split; [reflexivity|].
  exact (domain_digest_separates _ [x01] _ [x01] H H eq_refl).
Defined.

Lemma serde_roundtrip_witness :
  ObjectId_deserialize true (ObjectId_serialize true (toy_id 5)) = Ok (toy_id 5).
Proof.
  exact (proj1 (serde_roundtrip true (toy_id 5) (mkPublicKey (toy_seed 1))
    (mkSignature (toy_sign (toy_seed 1) [])))).
Defined.
