(* ===== verification/Ticket.v ===== *)
(** Ticket data ([crates/fortiq-core/src/ticket/{state,events}.rs]): lifecycle
    states, priorities, the records the reducer builds and the ticket events. *)

From S2P Require Import Prelude Text.

#[local] Open Scope string_scope.

Inductive TicketState := Open | InProgress | Resolved | Closed.

#[export] Instance TicketState_eq_dec : EqDecision TicketState.
Proof. solve_decision. Defined.

Definition TicketState_as_str (s : TicketState) : string :=
  match s with
  | Open => "OPEN"
  | InProgress => "IN_PROGRESS"
  | Resolved => "RESOLVED"
  | Closed => "CLOSED"
  end.

(** [TicketState::from_str]; the error carries the unknown text. *)
Definition TicketState_from_str (s : string) : result string TicketState :=
  if bool_decide (s = "OPEN") then Ok Open
  else if bool_decide (s = "IN_PROGRESS") then Ok InProgress
  else if bool_decide (s = "RESOLVED") then Ok Resolved
  else if bool_decide (s = "CLOSED") then Ok Closed
  else Err s.

Definition TicketState_parse_str (s : string) : option TicketState :=
  match TicketState_from_str s with Ok t => Some t | Err _ => None end.

Definition permits_work (s : TicketState) : bool :=
  match s with Open | InProgress => true | _ => false end.

Definition can_transition_to (self next : TicketState) : bool :=
  bool_decide (self = next)
  || match self, next with
     | Open, (InProgress | Resolved | Closed) => true
     | InProgress, (Resolved | Closed) => true
     | Resolved, (InProgress | Closed) => true
     | _, _ => false
     end.

(** The discriminant [state as u8]. *)
Definition TicketState_as_u8 (s : TicketState) : N :=
  match s with Open => 0 | InProgress => 1 | Resolved => 2 | Closed => 3 end.

Inductive TicketPriority := Normal | High | Urgent.

#[export] Instance TicketPriority_eq_dec : EqDecision TicketPriority.
Proof. solve_decision. Defined.

Definition TicketPriority_as_str (p : TicketPriority) : string :=
  match p with Normal => "NORMAL" | High => "HIGH" | Urgent => "URGENT" end.

(** [TicketPriority::from_str] is infallible. *)
Definition TicketPriority_from_str (s : string) : TicketPriority :=
  if bool_decide (s = "HIGH") then High
  else if bool_decide (s = "URGENT") then Urgent
  else Normal.

Definition TicketPriority_parse_str (s : string) : TicketPriority := TicketPriority_from_str s.

Record TicketRecord := mkTicketRecord {
  tr_id : string;
  tr_title : string;
  tr_description : string;
  tr_state : TicketState;
  tr_priority : TicketPriority;
  tr_client_peer_id : string;
  tr_revision : N;
  tr_created_at : N;
  tr_updated_at : N;
  tr_closed_at : option N
}.

Record ChatMessage := mkChatMessage {
  cm_id : string;
  cm_ticket_id : string;
  cm_sender_peer_id : string;
  cm_body : string;
  cm_created_at : N;
  cm_delivery_state : string
}.

Record AttachmentRecord := mkAttachmentRecord {
  ar_id : string;
  ar_ticket_id : string;
  ar_sender_peer_id : string;
  ar_filename : string;
  ar_size_bytes : N;
  ar_sha256 : string;
  ar_local_path : string;
  ar_created_at : N;
  ar_state : string
}.

Record ShellSessionRecord := mkShellSessionRecord {
  ss_id : string;
  ss_ticket_id : string;
  ss_operator_peer_id : string;
  ss_started_at : N;
  ss_ended_at : option N;
  ss_transport : string;
  ss_result : option string
}.

Record TicketEventRecord := mkTicketEventRecord {
  er_id : string;
  er_ticket_id : string;
  er_kind : string;
  er_actor_peer_id : string;
  er_timestamp : N;
  er_metadata : option string
}.

Record TicketDetail := mkTicketDetail {
  td_ticket : TicketRecord;
  td_messages : list ChatMessage;
  td_attachments : list AttachmentRecord;
  td_shell_sessions : list ShellSessionRecord;
  td_events : list TicketEventRecord
}.

(** [ticket/events.rs] *)
Inductive TicketEvent :=
| Created (ticket_id title description : string) (priority : TicketPriority)
    (client_peer_id : string)
| StatusChanged (ticket_id : string) (new_state : TicketState) (actor_peer_id : string)
    (reason : option string)
| ChatMessageAdded (ticket_id message_id sender_peer_id body : string) (timestamp : N)
| AttachmentAdded (ticket_id attachment_id sender_peer_id filename : string)
    (size_bytes : N) (sha256 local_path : string) (timestamp : N)
| ShellSessionStarted (ticket_id session_id operator_peer_id transport : string) (started_at : N)
| ShellSessionEnded (ticket_id session_id : string) (ended_at : N) (session_result : option string)
| CustomAudit (ticket_id event_id kind actor_peer_id : string) (metadata : option string)
    (timestamp : N).

Definition TicketEvent_ticket_id (e : TicketEvent) : string :=
  match e with
  | Created t _ _ _ _
  | StatusChanged t _ _ _
  | ChatMessageAdded t _ _ _ _
  | AttachmentAdded t _ _ _ _ _ _ _
  | ShellSessionStarted t _ _ _ _
  | ShellSessionEnded t _ _ _
  | CustomAudit t _ _ _ _ _ => t
  end.

#[export] Instance TicketRecord_eq_dec : EqDecision TicketRecord.
Proof. solve_decision. Defined.
#[export] Instance ChatMessage_eq_dec : EqDecision ChatMessage.
Proof. solve_decision. Defined.
#[export] Instance AttachmentRecord_eq_dec : EqDecision AttachmentRecord.
Proof. solve_decision. Defined.
#[export] Instance ShellSessionRecord_eq_dec : EqDecision ShellSessionRecord.
Proof. solve_decision. Defined.
#[export] Instance TicketEventRecord_eq_dec : EqDecision TicketEventRecord.
Proof. solve_decision. Defined.
#[export] Instance TicketEvent_eq_dec : EqDecision TicketEvent.
Proof. solve_decision. Defined.

(** ** Lemmas *)

Lemma can_transition_refl s : can_transition_to s s = true.
Proof. by destruct s. Qed.

Lemma closed_only_to_closed s : can_transition_to Closed s = true → s = Closed.
Proof. by destruct s. Qed.

(** A lifecycle step, and the states a ticket can pass through. *)
Definition lifecycle_step (a b : TicketState) : Prop := can_transition_to a b = true.

Lemma closed_terminal s : rtc lifecycle_step Closed s → s = Closed.
Proof.
  intros H. remember Closed as c eqn:E. induction H as [|x y z Hs _ IH]; [done|].
  subst. apply closed_only_to_closed in Hs as ->. auto.
Qed.

(** ** Properties *)

(** The ticket lifecycle as a step relation: [Open] is never re-entered,
    [Closed] is terminal, every state that is not [Closed] can reach [Closed] in
    one step, and work resumes from [Resolved] through [InProgress]; besides,
    [TicketState::from_str] inverts [as_str] and accepts nothing else. *)
Theorem ticket_lifecycle_sound :
  (∀ s, rtc lifecycle_step Closed s → s = Closed) ∧
  (∀ s, lifecycle_step s Open → s = Open) ∧
  (∀ s, lifecycle_step s Closed) ∧
  (∀ s t, lifecycle_step s t → permits_work s = false → permits_work t = true →
     s = Resolved ∧ t = InProgress) ∧
  (∀ s t, TicketState_from_str s = Ok t ↔ s = TicketState_as_str t).
Proof.
  split; [apply closed_terminal|]. split; [by intros []|]. split; [by intros []|].
  split; [by intros [] []|].
  intros s t. unfold TicketState_from_str. repeat case_bool_decide; subst;
    destruct t; split; intros E; simplify_eq/=; try done; by subst.
Qed.
