(* ===== verification/Event.v ===== *)
(** Signed events and the heads of the event graph
    ([crates/fortiq-core/src/event/{model,heads}.rs]).

    CBOR is the third-party crate [ciborium] driven by serde derives: the
    encoding of an [EventBody] is the interface [BodyCodec]. *)

From S2P Require Import Prelude Text Object Concrete Ticket.

Inductive EventPayload :=
| PTicket (t : TicketEvent)
| PCustom (name : string) (data : bytes).

Record EventBody := mkEventBody {
  eb_parents : list ObjectId;
  eb_timestamp : N;
  eb_lamport : N;
  eb_payload : EventPayload
}.

Record Event := mkEvent {
  ev_id : ObjectId;
  ev_parents : list ObjectId;
  ev_author : PublicKey;
  ev_timestamp : N;
  ev_lamport : N;
  ev_payload : EventPayload
}.

#[export] Instance EventPayload_eq_dec : EqDecision EventPayload.
Proof. solve_decision. Defined.
#[export] Instance Event_eq_dec : EqDecision Event.
Proof. solve_decision. Defined.

(** [ciborium::into_writer] and [from_reader] at type [EventBody]. *)
Class BodyCodec := {
  encode_body : EventBody → option bytes;
  decode_body : bytes → option EventBody
}.

(** What [into_writer] writes, [from_reader] reads back; a [u64] field decodes to
    a 64-bit number. *)
Class BodyCodecLaws `{BodyCodec} : Prop := {
  decode_encode_body b p : encode_body b = Some p → decode_body p = Some b;
  decode_body_range p b : decode_body p = Some b →
    eb_timestamp b < u64_modulus ∧ eb_lamport b < u64_modulus
}.

Inductive EventError :=
| BodyEncodingFailed
| InvalidEnvelope (e : ObjectError)
| BodyDecodingFailed.

Section event.
Context `{CC : Crypto, HX : Hex, BC : BodyCodec}.

Definition Event_new (parents : list ObjectId) (timestamp lamport : N)
  (payload : EventPayload) (signer : Ed25519Signer)
  : result EventError (Event * SignedObject) :=
  let body := mkEventBody parents timestamp lamport payload in
  let? payload_bytes := ok_or (encode_body body) BodyEncodingFailed in
  let signed_obj := SignedObject_sign signer payload_bytes timestamp in
  let event := {|
  ev_id := so_id signed_obj;
  ev_parents := parents;
  ev_author := so_author signed_obj;
  ev_timestamp := timestamp;
  ev_lamport := lamport;
  ev_payload := payload |} in
  Ok (event, signed_obj).

Definition Event_from_signed_object (obj : SignedObject) : result EventError Event :=
  let? _ := map_err InvalidEnvelope (SignedObject_verify obj) in
  let? body := ok_or (decode_body (so_payload obj)) BodyDecodingFailed in
  Ok {| ev_id := so_id obj;
      ev_parents := eb_parents body;
      ev_author := so_author obj;
      ev_timestamp := eb_timestamp body;
      ev_lamport := eb_lamport body;
      ev_payload := eb_payload body |}.

Definition Event_to_signed_object (e : Event) (signer : Ed25519Signer)
  : result EventError SignedObject :=
  let body := mkEventBody (ev_parents e) (ev_timestamp e) (ev_lamport e) (ev_payload e) in
  let? payload_bytes := ok_or (encode_body body) BodyEncodingFailed in
  Ok (SignedObject_sign signer payload_bytes (ev_timestamp e)).

Definition Event_ticket_id (e : Event) : option string :=
  match ev_payload e with
  | PTicket t => Some (TicketEvent_ticket_id t)
  | PCustom _ _ => None
  end.

Lemma from_signed_object_Ok obj e :
  Event_from_signed_object obj = Ok e →
  SignedObject_verify obj = Ok tt ∧ ev_id e = so_id obj ∧ ev_author e = so_author obj.
Proof.
  unfold Event_from_signed_object. destruct (SignedObject_verify obj) as [[]|]; simpl; [|done].
  destruct (decode_body _); simpl; [|done]. by intros [= <-].
Qed.
End event.

(** ** [event/heads.rs]: a [BTreeSet] of ids *)

Record Heads := mkHeads { hd : gset ObjectId }.

Definition Heads_new : Heads := mkHeads ∅.
Definition Heads_from_set (s : gset ObjectId) : Heads := mkHeads s.

Definition Heads_apply_event (h : Heads) (event_id : ObjectId) (parents : list ObjectId) : Heads :=
  mkHeads ({[event_id]} ∪ foldl (λ s p, s ∖ {[p]}) (hd h) parents).

Definition Heads_contains (h : Heads) (i : ObjectId) : bool := bool_decide (i ∈ hd h).
Definition Heads_len (h : Heads) : nat := size (hd h).
Definition Heads_is_empty (h : Heads) : bool := (Heads_len h =? 0)%nat.

(** [iter] and [to_vec]: the set in ascending order. *)
Definition Heads_to_vec (h : Heads) : list ObjectId := sort_by ObjectId_cmp (elements (hd h)).

Lemma elem_of_Heads_to_vec i h : i ∈ Heads_to_vec h ↔ i ∈ hd h.
Proof. unfold Heads_to_vec. by rewrite elem_of_sort_by, elem_of_elements. Qed.

Lemma elem_of_foldl_remove (s : gset ObjectId) ps i :
  i ∈ foldl (λ s p, s ∖ {[p]}) s ps ↔ i ∈ s ∧ i ∉ ps.
Proof. revert s; induction ps as [|p ps IH]; intros s; simpl; [|rewrite IH]; set_solver. Qed.

(** ** A concrete codec

    An executable instance of [BodyCodec], for the examples: the body's number
    under a countable encoding, spelled in bytes. *)

Definition priority_num (p : TicketPriority) : N :=
  match p with Normal => 0 | High => 1 | Urgent => 2 end.
Definition num_priority (n : N) : TicketPriority :=
  match n with 0 => Normal | 1 => High | _ => Urgent end.
Definition num_state (n : N) : TicketState :=
  match n with 0 => Open | 1 => InProgress | 2 => Resolved | _ => Closed end.

(** A payload as a constructor number, its strings, numbers, optional text and raw data. *)
Definition payload_fields (p : EventPayload) : N * (list string * (list N * (option string * list N))) :=
  match p with
  | PTicket (Created t ti de pr cl) => (0, ([t; ti; de; cl], ([priority_num pr], (None, []))))
  | PTicket (StatusChanged t st ac re) => (1, ([t; ac], ([TicketState_as_u8 st], (re, []))))
  | PTicket (ChatMessageAdded t m se bo ts) => (2, ([t; m; se; bo], ([ts], (None, []))))
  | PTicket (AttachmentAdded t i se fi sz sh pa ts) =>
      (3, ([t; i; se; fi; sh; pa], ([sz; ts], (None, []))))
  | PTicket (ShellSessionStarted t i op tr st) => (4, ([t; i; op; tr], ([st], (None, []))))
  | PTicket (ShellSessionEnded t i en re) => (5, ([t; i], ([en], (re, []))))
  | PTicket (CustomAudit t i k ac me ts) => (6, ([t; i; k; ac], ([ts], (me, []))))
  | PCustom n d => (7, ([n], ([], (None, Byte.to_N <$> d))))
  end.

Definition payload_of_fields (f : N * (list string * (list N * (option string * list N))))
    : option EventPayload :=
  match f with
  | (0, ([t; ti; de; cl], ([pr], _))) => Some (PTicket (Created t ti de (num_priority pr) cl))
  | (1, ([t; ac], ([st], (re, _)))) => Some (PTicket (StatusChanged t (num_state st) ac re))
  | (2, ([t; m; se; bo], ([ts], _))) => Some (PTicket (ChatMessageAdded t m se bo ts))
  | (3, ([t; i; se; fi; sh; pa], ([sz; ts], _))) =>
      Some (PTicket (AttachmentAdded t i se fi sz sh pa ts))
  | (4, ([t; i; op; tr], ([st], _))) => Some (PTicket (ShellSessionStarted t i op tr st))
  | (5, ([t; i], ([en], (re, _)))) => Some (PTicket (ShellSessionEnded t i en re))
  | (6, ([t; i; k; ac], ([ts], (me, _)))) => Some (PTicket (CustomAudit t i k ac me ts))
  | (7, ([n], (_, (_, d)))) => Some (PCustom n (byte_of_N <$> d))
  | _ => None
  end.

Lemma payload_of_fields_ok p : payload_of_fields (payload_fields p) = Some p.
Proof.
  destruct p as [[]|n d]; try done.
  - by destruct priority.
  - by destruct new_state.
  - simpl. do 2 f_equal. rewrite <- list_fmap_compose. etrans; [|apply list_fmap_id].
    apply list_fmap_ext. intros i b _. apply byte_of_to_N.
Qed.

Definition body_in_range (b : EventBody) : bool :=
  (eb_timestamp b <? u64_modulus) && (eb_lamport b <? u64_modulus).

Definition body_positive (b : EventBody) : positive :=
  encode (eb_parents b, eb_timestamp b, eb_lamport b, payload_fields (eb_payload b)).

Definition positive_body (p : positive) : option EventBody :=
  match decode p with
  | Some (ps, ts, l, f) => (λ pl, mkEventBody ps ts l pl) <$> payload_of_fields f
  | None => None
  end.

Lemma positive_body_ok b : positive_body (body_positive b) = Some b.
Proof. unfold positive_body, body_positive. rewrite decode_encode, payload_of_fields_ok. by destruct b. Qed.

#[export] Instance toy_body_codec : BodyCodec := {|
  encode_body b :=
    if body_in_range b
    then Some (spell (Npos (body_positive b)))
    else None;
  decode_body l :=
    match le_val l with
    | Npos p =>
        match positive_body p with
        | Some b => if body_in_range b then Some b else None
        | None => None
        end
    | N0 => None
    end
|}.

#[export] Instance toy_body_codec_laws : BodyCodecLaws.
Proof.
  split.
  - intros b p. cbn [encode_body decode_body toy_body_codec].
    destruct (body_in_range b) eqn:Hr; [|done]. intros [= <-].
    rewrite le_val_spell, positive_body_ok. by rewrite Hr.
  - intros p b. cbn [decode_body toy_body_codec]. destruct (le_val p) as [|q]; [done|].
    destruct (positive_body q) as [b'|]; [|done]. destruct (body_in_range b') eqn:Hr; [|done].
    intros [= <-]. unfold body_in_range in Hr. lia.
Qed.

(** ** Properties *)

(** Round trip: the signed object [Event::new] returns decodes to the event
    [Event::new] returns, and signing that event again gives an object for the
    same content id. *)
Theorem event_new_roundtrip `{Crypto, !CryptoLaws, Hex, BodyCodec, !BodyCodecLaws}
    parents timestamp lamport payload signer e obj :
  signer_wf signer →
  Event_new parents timestamp lamport payload signer = Ok (e, obj) →
  Event_from_signed_object obj = Ok e ∧
  Event_to_signed_object e signer = Ok obj.
Proof.
  intros Hwf. unfold Event_new.
  destruct (encode_body _) as [p|] eqn:Henc; simpl; [|done]. intros [= <- <-].
  unfold Event_from_signed_object, Event_to_signed_object.
  rewrite SignedObject_sign_verify_ok by done. simpl.
  by rewrite (decode_encode_body _ _ Henc), Henc.
Qed.

Lemma event_new_roundtrip_witness :
  ∃ e obj, Event_new [toy_id 1] 5 2 (PCustom "x" [x01]) (toy_signer 3) = Ok (e, obj) ∧
    Event_from_signed_object obj = Ok e.
Proof.
  assert (is_ok (Event_new [toy_id 1] 5 2 (PCustom "x" [x01]) (toy_signer 3)) = true) as Hok
    by (vm_compute; reflexivity).
  destruct (Event_new [toy_id 1] 5 2 (PCustom "x" [x01]) (toy_signer 3)) as [[e obj]|] eqn:E;
    [|discriminate].
  exists e, obj. split; [reflexivity|].
  exact (proj1 (event_new_roundtrip _ _ _ _ (toy_signer 3) e obj (signer_wf_from_bytes _) E)).
Defined.
