(* ===== verification/Graph.v ===== *)
(** The causal event graph ([crates/fortiq-core/src/event/graph.rs]).

    A [HashMap] is a [gmap]; where the code iterates over one, the model uses
    [map_to_list], and every result that leaves the graph is sorted, a set, or
    proved independent of that order. *)

From S2P Require Import Prelude Text Object Ticket Event.

Record EventGraph := mkEventGraph {
  g_events : gmap ObjectId Event;
  g_children : gmap ObjectId (list ObjectId);
  g_heads : Heads
}.

(** The two [bail!]s of [insert]: which known parent, or which known child,
    breaks Lamport monotonicity. *)
Inductive GraphError :=
| ParentViolation (event parent : ObjectId)
| ChildViolation (child event : ObjectId).

Definition EventGraph_new : EventGraph := mkEventGraph ∅ ∅ Heads_new.

(** [HashMap::values]. *)
Definition graph_values (g : EventGraph) : list Event := (map_to_list (g_events g)).*2.

Definition graph_len (g : EventGraph) : nat := size (g_events g).
Definition graph_is_empty (g : EventGraph) : bool := (graph_len g =? 0)%nat.
Definition graph_contains (g : EventGraph) (i : ObjectId) : bool :=
  bool_decide (is_Some (g_events g !! i)).
Definition graph_get (g : EventGraph) (i : ObjectId) : option Event := g_events g !! i.

Definition children_of (g : EventGraph) (i : ObjectId) : list ObjectId :=
  default [] (g_children g !! i).

Definition of_ticket (ticket_id : string) (e : Event) : bool :=
  bool_decide (Event_ticket_id e = Some ticket_id).

Definition ticket_events (g : EventGraph) (ticket_id : string) : list Event :=
  List.filter (of_ticket ticket_id) (graph_values g).

Definition has_matching_child (g : EventGraph) (ticket_id : string) (e : Event) : bool :=
  existsb (λ c, match g_events g !! c with
                | Some ce => of_ticket ticket_id ce
                | None => false
                end) (children_of g (ev_id e)).

Definition ticket_heads (g : EventGraph) (ticket_id : string) : list ObjectId :=
  sort_by ObjectId_cmp
    (ev_id <$> List.filter (λ e, negb (has_matching_child g ticket_id e))
                 (ticket_events g ticket_id)).

Definition ticket_event_ids (g : EventGraph) (ticket_id : string) : list ObjectId :=
  sort_by ObjectId_cmp (ev_id <$> ticket_events g ticket_id).

(** The two monotonicity loops of [insert]. *)
Fixpoint check_parents (g : EventGraph) (e : Event) (ps : list ObjectId)
    : result GraphError unit :=
  match ps with
  | [] => Ok tt
  | p :: ps =>
      match g_events g !! p with
      | Some pe =>
          if ev_lamport e <=? ev_lamport pe then Err (ParentViolation (ev_id e) p)
          else check_parents g e ps
      | None => check_parents g e ps
      end
  end.

Fixpoint check_children (g : EventGraph) (e : Event) (cs : list ObjectId)
    : result GraphError unit :=
  match cs with
  | [] => Ok tt
  | c :: cs =>
      match g_events g !! c with
      | Some ce =>
          if ev_lamport ce <=? ev_lamport e then Err (ChildViolation c (ev_id e))
          else check_children g e cs
      | None => check_children g e cs
      end
  end.

(** [children.entry(parent).or_default().push(id)]. *)
Definition push_child (i : ObjectId) (m : gmap ObjectId (list ObjectId)) (p : ObjectId)
    : gmap ObjectId (list ObjectId) :=
  <[p := default [] (m !! p) ++ [i]]> m.

Definition graph_insert (g : EventGraph) (e : Event) : result GraphError EventGraph :=
  if graph_contains g (ev_id e) then Ok g else
  let? _ := check_parents g e (ev_parents e) in
  let? _ := check_children g e (children_of g (ev_id e)) in
  let children := foldl (push_child (ev_id e)) (g_children g) (ev_parents e) in
  let heads_set := foldl (λ s p, s ∖ {[p]}) (hd (g_heads g)) (ev_parents e) in
  let has_children := match children !! ev_id e with Some (_ :: _) => true | _ => false end in
  let heads_set := if has_children then heads_set else {[ev_id e]} ∪ heads_set in
  Ok (mkEventGraph (<[ev_id e := e]> (g_events g)) children (Heads_from_set heads_set)).

(** [missing_parents] returns its [HashSet] in no particular order. *)
Definition missing_parents_set (g : EventGraph) : gset ObjectId :=
  list_to_set (filter (λ p, g_events g !! p = None) (graph_values g ≫= ev_parents)).
Definition missing_parents (g : EventGraph) : list ObjectId := elements (missing_parents_set g).

Definition is_causally_complete (g : EventGraph) : bool :=
  match missing_parents g with [] => true | _ => false end.

(** The loop of [next_lamport]: the greatest clock of the known parents. *)
Definition max_lamport (g : EventGraph) (parents : list ObjectId) : N :=
  foldl (λ m p, match g_events g !! p with
                | Some pe => if m <? ev_lamport pe then ev_lamport pe else m
                | None => m
                end) 0 parents.

(** [max_lamport + 1] of a [u64]. *)
Definition next_lamport (g : EventGraph) (parents : list ObjectId) : N :=
  wrapping_add_u64 (max_lamport g parents) 1.

(** [SortKey::cmp]. *)
Definition event_key (e : Event) : N * (N * ObjectId) := (ev_lamport e, (ev_timestamp e, ev_id e)).

Definition key_cmp (a b : N * (N * ObjectId)) : comparison :=
  then_with (a.1 ?= b.1) (then_with (a.2.1 ?= b.2.1) (ObjectId_cmp a.2.2 b.2.2)).

Definition event_cmp (a b : Event) : comparison := key_cmp (event_key a) (event_key b).

Definition present_parents (g : EventGraph) (e : Event) : nat :=
  length (filter (λ p, is_Some (g_events g !! p)) (ev_parents e)).

Definition initial_in_degrees (g : EventGraph) : gmap ObjectId nat :=
  list_to_map ((λ e, (ev_id e, present_parents g e)) <$> graph_values g).

Definition initial_ready (g : EventGraph) : list Event :=
  btree_collect event_cmp
    (omap (λ kd : ObjectId * nat, if (kd.2 =? 0)%nat then g_events g !! kd.1 else None)
       (map_to_list (initial_in_degrees g))).

(** The body of the loop over the children of the emitted event. *)
Definition visit_child (g : EventGraph) (st : gmap ObjectId nat * list Event) (c : ObjectId)
    : gmap ObjectId nat * list Event :=
  match st.1 !! c with
  | Some d =>
      let d' := (d - 1)%nat in
      (<[c := d']> st.1,
       if (d' =? 0)%nat then
         match g_events g !! c with
         | Some ce => btree_insert event_cmp ce st.2
         | None => st.2
         end
       else st.2)
  | None => st
  end.

(** [while let Some(event) = ready.pop_first()]; every round emits one event, so
    the number of events is enough fuel ([kahn_terminates]). *)
Fixpoint kahn_loop (g : EventGraph) (fuel : nat) (in_degrees : gmap ObjectId nat)
    (ready result : list Event) : list Event * list Event :=
  match fuel with
  | O => (ready, result)
  | S fuel =>
      match ready with
      | [] => (ready, result)
      | e :: ready =>
          let st := foldl (visit_child g) (in_degrees, ready) (children_of g (ev_id e)) in
          kahn_loop g fuel st.1 st.2 (result ++ [e])
      end
  end.

Definition kahn_run (g : EventGraph) : list Event * list Event :=
  kahn_loop g (graph_len g) (initial_in_degrees g) (initial_ready g) [].

Definition topological_sort (g : EventGraph) : list Event :=
  let result := (kahn_run g).2 in
  if (length result <? graph_len g)%nat then
    let emitted := ev_id <$> result in
    result ++ sort_by event_cmp (filter (λ e, ev_id e ∉ emitted) (graph_values g))
  else result.

(** ** Well-formed graphs *)

Record graph_inv (g : EventGraph) : Prop := {
  gi_id i e : g_events g !! i = Some e → ev_id e = i;
  gi_children p c :
    occ c (children_of g p) =
      match g_events g !! c with Some ce => occ p (ev_parents ce) | None => 0%nat end;
  gi_lamport c ce p pe :
    g_events g !! c = Some ce → p ∈ ev_parents ce → g_events g !! p = Some pe →
    ev_lamport pe < ev_lamport ce;
  gi_heads i :
    i ∈ hd (g_heads g) ↔
      is_Some (g_events g !! i) ∧ ∀ c ce, g_events g !! c = Some ce → i ∉ ev_parents ce
}.

(** Lamport monotonicity over known edges: what [insert] demands of an event. *)
Definition causally_consistent (E : gmap ObjectId Event) (e : Event) : Prop :=
  (∀ p pe, p ∈ ev_parents e → E !! p = Some pe → ev_lamport pe < ev_lamport e) ∧
  (∀ c ce, E !! c = Some ce → ev_id e ∈ ev_parents ce → ev_lamport e < ev_lamport ce).

(** An event never lists itself: its id is the hash of its parents. *)
Definition no_self_parent (e : Event) : Prop := ev_id e ∉ ev_parents e.

Lemma graph_contains_true g i : graph_contains g i = true ↔ is_Some (g_events g !! i).
Proof. apply bool_decide_eq_true. Qed.

Lemma graph_contains_false g i : graph_contains g i = false ↔ g_events g !! i = None.
Proof. unfold graph_contains. rewrite bool_decide_eq_false, eq_None_not_Some. done. Qed.

Lemma elem_of_children g p c :
  graph_inv g →
  c ∈ children_of g p ↔ ∃ ce, g_events g !! c = Some ce ∧ p ∈ ev_parents ce.
Proof.
  intros Hg. rewrite <- occ_pos, (gi_children g Hg).
  destruct (g_events g !! c) as [ce|]; [rewrite occ_pos; naive_solver|naive_solver lia].
Qed.

Lemma check_parents_Ok g e ps :
  check_parents g e ps = Ok tt ↔
    ∀ p pe, p ∈ ps → g_events g !! p = Some pe → ev_lamport pe < ev_lamport e.
Proof.
  induction ps as [|p ps IH]; simpl; [set_solver|].
  destruct (g_events g !! p) as [pe|] eqn:Hp.
  - destruct (N.leb_spec (ev_lamport e) (ev_lamport pe)) as [Hle|Hlt].
    + split; [done|]. intros Hall. specialize (Hall p pe ltac:(left) Hp). lia.
    + rewrite IH. split; [intros Hall q qe [->|Hq]%elem_of_cons ?; [naive_solver|eauto]|].
      intros Hall q qe Hq. apply Hall. by right.
  - rewrite IH. split; [intros Hall q qe [->|Hq]%elem_of_cons ?; [congruence|eauto]|].
    intros Hall q qe Hq. apply Hall. by right.
Qed.

Lemma check_children_Ok g e cs :
  check_children g e cs = Ok tt ↔
    ∀ c ce, c ∈ cs → g_events g !! c = Some ce → ev_lamport e < ev_lamport ce.
Proof.
  induction cs as [|c cs IH]; simpl; [set_solver|].
  destruct (g_events g !! c) as [ce|] eqn:Hc.
  - destruct (N.leb_spec (ev_lamport ce) (ev_lamport e)) as [Hle|Hlt].
    + split; [done|]. intros Hall. specialize (Hall c ce ltac:(left) Hc). lia.
    + rewrite IH. split; [intros Hall q qe [->|Hq]%elem_of_cons ?; [naive_solver|eauto]|].
      intros Hall q qe Hq. apply Hall. by right.
  - rewrite IH. split; [intros Hall q qe [->|Hq]%elem_of_cons ?; [congruence|eauto]|].
    intros Hall q qe Hq. apply Hall. by right.
Qed.

(** A refused check names a concrete offender. *)
Lemma check_parents_Err g e ps err :
  check_parents g e ps = Err err →
  ∃ p pe, p ∈ ps ∧ g_events g !! p = Some pe ∧ ev_lamport e ≤ ev_lamport pe ∧
    err = ParentViolation (ev_id e) p.
Proof.
  induction ps as [|p ps IH]; simpl; [done|].
  destruct (g_events g !! p) as [pe|] eqn:Hp.
  - destruct (N.leb_spec (ev_lamport e) (ev_lamport pe)) as [Hle|Hlt].
    + intros [= <-]. exists p, pe. set_solver.
    + intros (q&qe&?&?)%IH. exists q, qe. set_solver.
  - intros (q&qe&?&?)%IH. exists q, qe. set_solver.
Qed.

Lemma check_children_Err g e cs err :
  check_children g e cs = Err err →
  ∃ c ce, c ∈ cs ∧ g_events g !! c = Some ce ∧ ev_lamport ce ≤ ev_lamport e ∧
    err = ChildViolation c (ev_id e).
Proof.
  induction cs as [|c cs IH]; simpl; [done|].
  destruct (g_events g !! c) as [ce|] eqn:Hc.
  - destruct (N.leb_spec (ev_lamport ce) (ev_lamport e)) as [Hle|Hlt].
    + intros [= <-]. exists c, ce. set_solver.
    + intros (q&qe&?&?)%IH. exists q, qe. set_solver.
  - intros (q&qe&?&?)%IH. exists q, qe. set_solver.
Qed.

(** [insert] succeeds exactly on known or causally consistent events. *)
Lemma graph_insert_is_ok g e :
  graph_inv g → g_events g !! ev_id e = None →
  is_ok (graph_insert g e) = true ↔ causally_consistent (g_events g) e.
Proof.
  intros Hg Hnew. unfold graph_insert. apply graph_contains_false in Hnew as ->.
  unfold causally_consistent.
  destruct (check_parents g e (ev_parents e)) as [[]|err] eqn:Hp.
  - rewrite check_parents_Ok in Hp.
    destruct (check_children g e (children_of g (ev_id e))) as [[]|err] eqn:Hc; simpl.
    + rewrite check_children_Ok in Hc. split; [intros _|done]. split; [naive_solver|].
      intros c ce Hce Hin. apply (Hc c ce); [|done]. rewrite elem_of_children; eauto.
    + split; [done|]. intros [_ Hall]. apply check_children_Err in Hc as (c&ce&Hin&Hce&Hle&_).
      apply elem_of_children in Hin as (ce'&Hce'&Hin); [|done].
      specialize (Hall c ce' Hce' Hin). simplify_eq. lia.
  - simpl. split; [done|]. intros [Hall _].
    apply check_parents_Err in Hp as (p&pe&Hin&Hpe&Hle&_). specialize (Hall p pe Hin Hpe). lia.
Qed.

(** What a successful insertion of a new event builds. *)
Lemma graph_insert_Ok_new g e g' :
  g_events g !! ev_id e = None → graph_insert g e = Ok g' →
  g_events g' = <[ev_id e := e]> (g_events g) ∧
  g_children g' = foldl (push_child (ev_id e)) (g_children g) (ev_parents e) ∧
  (∀ i, i ∈ hd (g_heads g') ↔
     (i ∈ hd (g_heads g) ∧ i ∉ ev_parents e) ∨ (i = ev_id e ∧ children_of g' i = [])).
Proof.
  intros Hnew. unfold graph_insert. apply graph_contains_false in Hnew as ->.
  destruct (check_parents _ _ _); simpl; [|done].
  destruct (check_children _ _ _); simpl; [|done]. intros [= <-]; simpl.
  split; [done|]. split; [done|]. intros i. unfold children_of; simpl.
  set (ch := foldl _ _ _). destruct (ch !! ev_id e) as [[|c cs]|] eqn:Hch; simpl;
    rewrite ?elem_of_union, ?elem_of_singleton, elem_of_foldl_remove.
  - split; [intros [->|?]; [right; by rewrite Hch|by left]|]. naive_solver.
  - split; [by left|]. intros [?|[-> Hcs]]; [done|]. by rewrite Hch in Hcs.
  - split; [intros [->|?]; [right; by rewrite Hch|by left]|]. naive_solver.
Qed.

Lemma push_child_children i (m : gmap ObjectId (list ObjectId)) ps p c :
  occ c (default [] (foldl (push_child i) m ps !! p)) =
    (occ c (default [] (m !! p)) + if decide (c = i) then occ p ps else 0)%nat.
Proof.
  revert m; induction ps as [|q ps IH]; intros m; simpl.
  { by destruct (decide _); rewrite Nat.add_0_r. }
  rewrite IH. unfold push_child. destruct (decide (q = p)) as [->|Hqp].
  - rewrite lookup_insert_eq. simpl. rewrite occ_app. simpl.
    destruct (decide (c = i)) as [->|]; [rewrite decide_True by done; lia|].
    rewrite decide_False by congruence. lia.
  - by rewrite lookup_insert_ne.
Qed.

Lemma graph_inv_new : graph_inv EventGraph_new.
Proof.
  split; unfold children_of; simpl.
  - intros i e. by rewrite lookup_empty.
  - intros p c. by rewrite !lookup_empty.
  - intros c ce p pe. by rewrite lookup_empty.
  - intros i. rewrite lookup_empty. split; [set_solver|]. intros [[? [=]] _].
Qed.

(** Every insertion, accepted or a no-op, keeps the graph well formed. *)
Lemma graph_insert_inv g e g' :
  graph_inv g → no_self_parent e → graph_insert g e = Ok g' → graph_inv g'.
Proof.
  intros Hg Hself Hins. destruct (g_events g !! ev_id e) as [e0|] eqn:Hnew.
  { unfold graph_insert in Hins. rewrite (proj2 (graph_contains_true _ _)) in Hins by eauto.
    congruence. }
  assert (causally_consistent (g_events g) e) as [Hpar Hchi].
  { apply graph_insert_is_ok; [done..|]. by rewrite Hins. }
  destruct (graph_insert_Ok_new _ _ _ Hnew Hins) as (HE & HC & HH).
  assert (∀ p c, occ c (children_of g' p) =
    match g_events g' !! c with Some ce => occ p (ev_parents ce) | None => 0%nat end) as HC'.
  { intros p c. unfold children_of. rewrite HC, push_child_children, HE.
    pose proof (gi_children g Hg p c) as Hold. unfold children_of in Hold.
    destruct (decide (c = ev_id e)) as [->|Hne].
    - rewrite Hold, Hnew, lookup_insert_eq. done.
    - rewrite lookup_insert_ne by done. rewrite Hold. lia. }
  split; [| exact HC' | |].
  - intros i x. rewrite HE, lookup_insert_Some. intros [[<- <-]|[_ Hx]]; [done|].
    by apply (gi_id g Hg).
  - intros c ce p pe. rewrite HE, !lookup_insert_Some.
    intros [[<- <-]|[Hc Hce]] Hin [[<- <-]|[Hp Hpe]]; try done; eauto.
    by apply (gi_lamport g Hg c ce p pe).
  - intros i. rewrite HH, (gi_heads g Hg), HE. split.
    + intros [[[Hi Hno] Hni]|[-> Hch]].
      * split; [destruct (decide (i = ev_id e)) as [->|]; simplify_map_eq; eauto|].
        intros c ce. rewrite lookup_insert_Some. intros [[<- <-]|[_ Hce]]; eauto.
      * split; [rewrite lookup_insert_eq; eauto|]. intros c ce Hce Hin.
        assert (0 < occ c (children_of g' (ev_id e)))%nat as Hpos.
        { rewrite HC', HE, Hce. by apply occ_pos. }
        rewrite Hch in Hpos. simpl in Hpos. lia.
    + intros [Hi Hno]. destruct (decide (i = ev_id e)) as [->|Hne].
      * right. split; [done|]. destruct (children_of g' (ev_id e)) as [|c cs] eqn:Hch; [done|].
        exfalso. assert (0 < occ c (children_of g' (ev_id e)))%nat as Hpos.
        { rewrite Hch. apply occ_pos. left. }
        rewrite HC', HE in Hpos. destruct (<[_:=_]> _ !! c) as [ce|] eqn:Hce; [|lia].
        apply occ_pos in Hpos. by apply (Hno c ce).
      * left. rewrite lookup_insert_ne in Hi by done. split; [split; [done|]|].
        -- intros c ce Hce. apply (Hno c ce). rewrite lookup_insert_ne; [done|]. congruence.
        -- apply (Hno (ev_id e) e). by rewrite lookup_insert_eq.
Qed.

Lemma graph_insert_known g e :
  is_Some (g_events g !! ev_id e) → graph_insert g e = Ok g.
Proof. intros H. unfold graph_insert. by apply graph_contains_true in H as ->. Qed.
