(* ===== verification/GraphSort.v ===== *)
(** Kahn's algorithm of [EventGraph::topological_sort]
    ([crates/fortiq-core/src/event/graph.rs]).

    On a well-formed graph the loop emits every event, in the order of
    [(lamport, timestamp, id)]: the routine is the plain sort of the events by
    that key, whatever the iteration order of the hash maps. *)

From S2P Require Import Prelude Text Object Concrete Ticket Event Graph.

#[local] Instance stamp_cmp_ord :
  OrdCmp (λ a b : N * ObjectId, then_with (a.1 ?= b.1) (ObjectId_cmp a.2 b.2)).
Proof. apply (then_with_ord fst snd); [apply _..|]. intros [] []; simpl; congruence. Qed.

#[export] Instance key_cmp_ord : OrdCmp key_cmp.
Proof. refine (then_with_ord fst snd N.compare
  (λ a b : N * ObjectId, then_with (a.1 ?= b.1) (ObjectId_cmp a.2 b.2)) _). intros [] []; simpl; congruence. Qed.

Definition event_lt (a b : Event) : Prop := event_cmp a b = Lt.

Lemma event_lt_trans a b c : event_lt a b → event_lt b c → event_lt a c.
Proof. apply (cmp_lt_trans (cmp:=key_cmp)). Qed.

Lemma event_lt_irrefl a : ¬ event_lt a a.
Proof. apply (cmp_lt_irrefl key_cmp). Qed.

(** A smaller Lamport clock is a smaller key. *)
Lemma event_lt_lamport a b : ev_lamport a < ev_lamport b → event_lt a b.
Proof.
  intros H. unfold event_lt, event_cmp, key_cmp, event_key; simpl.
  apply N.compare_lt_iff in H. by rewrite H.
Qed.

Lemma event_lt_lamport_le a b : event_lt a b → ev_lamport a ≤ ev_lamport b.
Proof.
  unfold event_lt, event_cmp, key_cmp, event_key; simpl.
  destruct (N.compare_spec (ev_lamport a) (ev_lamport b)); simpl; try done; lia.
Qed.

Lemma event_key_id a b : event_key a = event_key b → ev_id a = ev_id b.
Proof. by intros [=]. Qed.

Section kahn.
Context (g : EventGraph) (Hg : graph_inv g).
Abbreviation E := (g_events g).

(** [e] is an event of the graph. *)
Definition in_graph (e : Event) : Prop := E !! ev_id e = Some e.

Lemma in_graph_lookup i e : E !! i = Some e → in_graph e ∧ ev_id e = i.
Proof. intros H. pose proof (gi_id g Hg i e H). subst. done. Qed.

Lemma elem_of_graph_values e : e ∈ graph_values g ↔ in_graph e.
Proof.
  unfold graph_values. rewrite list_elem_of_fmap. split.
  - intros ([i x] & -> & Hx). apply elem_of_map_to_list in Hx. by apply in_graph_lookup in Hx as [].
  - intros H. exists (ev_id e, e). split; [done|]. by apply elem_of_map_to_list.
Qed.

Lemma in_graph_inj a b : in_graph a → in_graph b → ev_id a = ev_id b → a = b.
Proof. unfold in_graph. congruence. Qed.

Lemma NoDup_graph_values : NoDup (graph_values g).
Proof.
  apply (NoDup_fmap_1 ev_id). unfold graph_values. rewrite <- list_fmap_compose.
  rewrite (list_fmap_ext _ fst); [apply NoDup_fst_map_to_list|].
  intros k [i x] Hx. apply list_elem_of_lookup_2, elem_of_map_to_list in Hx.
  by apply in_graph_lookup in Hx as [].
Qed.

(** The parent edges still to be released, once the events of [ids] are out. *)
Definition pending (ids : list ObjectId) (e : Event) : nat :=
  length (filter (λ p, is_Some (E !! p) ∧ p ∉ ids) (ev_parents e)).

Lemma pending_snoc ids i e :
  is_Some (E !! i) → i ∉ ids →
  pending ids e = (pending (ids ++ [i]) e + occ i (ev_parents e))%nat.
Proof.
  intros Hi Hni. unfold pending. induction (ev_parents e) as [|p ps IH]; [done|].
  rewrite !filter_cons. simpl. destruct (decide (p = i)) as [->|Hpi].
  - rewrite decide_True by done. rewrite decide_False by set_solver. simpl. lia.
  - destruct (decide (is_Some (E !! p) ∧ p ∉ ids)).
    + rewrite decide_True by set_solver. simpl. lia.
    + rewrite decide_False by set_solver. done.
Qed.

Lemma pending_nil e : pending [] e = present_parents g e.
Proof.
  unfold pending, present_parents. f_equal. apply list_filter_iff. set_solver.
Qed.

Lemma pending_pos ids e :
  (0 < pending ids e)%nat →
  ∃ p pe, p ∈ ev_parents e ∧ E !! p = Some pe ∧ p ∉ ids.
Proof.
  unfold pending. destruct (filter _ _) as [|p l] eqn:Hf; simpl; [lia|]. intros _.
  assert (p ∈ p :: l) as Hp by left. rewrite <- Hf in Hp.
  apply list_elem_of_filter in Hp as [[[pe Hpe] Hni] Hp]. eauto.
Qed.

(** The state of the loop after the events of [result] were emitted. *)
Record kahn_inv (deg : gmap ObjectId nat) (ready result : list Event) : Prop := {
  ki_deg i : deg !! i = option_map (pending (ev_id <$> result)) (E !! i);
  ki_ready e : e ∈ ready ↔
  in_graph e ∧ (e ∉ result) ∧ pending (ev_id <$> result) e = 0%nat;
  ki_ready_sorted : StronglySorted event_lt ready;
  ki_result e : e ∈ result → in_graph e;
  ki_sorted : StronglySorted event_lt result;
  ki_below x y : x ∈ result → in_graph y → y ∉ result → event_lt x y
}.

Lemma emitted_ids (result : list Event) e :
  (∀ x, x ∈ result → in_graph x) → in_graph e → ev_id e ∈ ev_id <$> result ↔ e ∈ result.
Proof.
  intros Hr He. rewrite list_elem_of_fmap. split; [|eauto].
  intros (x & Hx & Hin). by rewrite (in_graph_inj e x He (Hr x Hin) Hx).
Qed.

(** Some ready event is at or below any event still to come: the reason why
    popping the least ready event emits the least remaining event. *)
Lemma ready_below deg ready result y :
  kahn_inv deg ready result → in_graph y → y ∉ result →
  ∃ r, r ∈ ready ∧ (r = y ∨ event_lt r y).
Proof.
  intros HK. remember (N.to_nat (ev_lamport y)) as n eqn:Hn. revert y Hn.
  induction n as [n IH] using lt_wf_ind. intros y Hn Hy Hout.
  destruct (pending (ev_id <$> result) y) as [|k] eqn:Hp.
  { exists y. split; [|by left]. by apply (ki_ready _ _ _ HK). }
  destruct (pending_pos (ev_id <$> result) y) as (p & pe & Hin & Hpe & Hni); [lia|].
  pose proof (gi_lamport g Hg _ y p pe Hy Hin Hpe) as Hlt.
  apply in_graph_lookup in Hpe as [Hpe <-].
  destruct (IH (N.to_nat (ev_lamport pe)) ltac:(lia) pe eq_refl Hpe) as (r & Hr & Hle).
  { rewrite <- emitted_ids; [done| |done]. apply (ki_result _ _ _ HK). }
  exists r. split; [done|]. right. apply event_lt_lamport in Hlt.
  destruct Hle as [->|Hle]; [done|]. by eapply event_lt_trans.
Qed.
(** ** One round of the loop *)

Definition ready_ok (ready : list Event) : Prop :=
  (∀ e, e ∈ ready → in_graph e) ∧ StronglySorted event_lt ready.

Lemma ready_insert ready e :
  ready_ok ready → in_graph e →
  ready_ok (btree_insert event_cmp e ready) ∧
  ∀ y, y ∈ btree_insert event_cmp e ready ↔ y = e ∨ y ∈ ready.
Proof.
  intros [Hin Hs] He.
  assert (∀ y, y ∈ btree_insert event_cmp e ready ↔ y = e ∨ y ∈ ready) as Hel.
  { intros y. apply (btree_insert_elem event_key key_cmp).
    intros z Hz Hk. apply in_graph_inj; [done|by apply Hin|by apply event_key_id]. }
  split; [|done]. split.
  - intros y [->|Hy]%Hel; auto.
  - by apply (btree_insert_sorted event_key key_cmp).
Qed.

(** Visiting the children of an event lowers each in-degree by the number of
    times the event is listed as a parent, and readies those that reach 0. *)
Lemma visit_children cs : ∀ deg ready,
  ready_ok ready →
  (∀ c, c ∈ cs → ∃ d ce, deg !! c = Some d ∧ E !! c = Some ce ∧ (occ c cs ≤ d)%nat) →
  let st := foldl (visit_child g) (deg, ready) cs in
  ready_ok st.2 ∧
  (∀ i, st.1 !! i = (λ d, (d - occ i cs)%nat) <$> deg !! i) ∧
  (∀ y, y ∈ st.2 ↔ y ∈ ready ∨ ∃ c, c ∈ cs ∧ E !! c = Some y ∧ deg !! c = Some (occ c cs)).
Proof.
  induction cs as [|c cs IH]; intros deg ready Hok Hcs; simpl.
  { split; [done|]. split; [|set_solver].
    intros i. destruct (deg !! i) as [d|]; simpl; [|done]. by rewrite Nat.sub_0_r. }
  destruct (Hcs c ltac:(left)) as (d & ce & Hd & Hce & Hocc).
  simpl in Hocc. rewrite decide_True in Hocc by done.
  set (ready1 := if (d - 1 =? 0)%nat then btree_insert event_cmp ce ready else ready).
  assert (visit_child g (deg, ready) c = (<[c := (d - 1)%nat]> deg, ready1)) as ->.
  { unfold visit_child. simpl. by rewrite Hd, Hce. }
  destruct (in_graph_lookup _ _ Hce) as [Hcin _].
  assert (ready_ok ready1 ∧ ∀ y, y ∈ ready1 ↔ y ∈ ready ∨ (y = ce ∧ d = 1%nat)) as [Hok1 Hel1].
  { subst ready1. destruct (Nat.eqb_spec (d - 1) 0).
    - destruct (ready_insert _ _ Hok Hcin) as [? Hel]. split; [done|].
      intros y. rewrite Hel. naive_solver lia.
    - split; [done|]. intros y. naive_solver lia. }
  destruct (IH (<[c := (d - 1)%nat]> deg) ready1 Hok1) as (H1 & H2 & H3).
  { intros c' Hc'. destruct (Hcs c' ltac:(by right)) as (d' & ce' & Hd' & Hce' & Ho).
    simpl in Ho. destruct (decide (c = c')) as [->|Hne].
    - exists (d - 1)%nat, ce'. rewrite lookup_insert_eq. split; [done|]. split; [done|]. lia.
    - exists d', ce'. rewrite lookup_insert_ne by done. done. }
  split; [done|]. split.
  - intros i. rewrite H2. destruct (decide (c = i)) as [->|Hne].
    + rewrite lookup_insert_eq, Hd. simpl. f_equal. lia.
    + by rewrite lookup_insert_ne.
  - intros y. rewrite H3, Hel1. split.
    + intros [[Hy|[-> Hd1]]|(c' & Hc' & Hy & Ho)]; [by left| |].
      * right. exists c. split; [left|]. split; [done|]. rewrite decide_True by done.
        rewrite Hd. f_equal. lia.
      * right. exists c'. split; [by right|]. split; [done|].
        destruct (decide (c = c')) as [->|Hne].
        -- rewrite lookup_insert_eq in Ho. rewrite Hd. simplify_eq. f_equal. lia.
        -- by rewrite lookup_insert_ne in Ho.
    + intros [Hy|(c' & Hc' & Hy & Ho)]; [by left; left|].
      destruct (decide (c = c')) as [->|Hne].
      * rewrite Hd in Ho. simplify_eq. destruct (decide (c' ∈ cs)) as [Hin|Hni].
        -- right. exists c'. split; [done|]. split; [done|].
           rewrite lookup_insert_eq. f_equal. lia.
        -- left; right. split; [done|]. apply occ_zero in Hni. lia.
      * apply elem_of_cons in Hc' as [->|Hc']; [done|].
        right. exists c'. by rewrite lookup_insert_ne.
Qed.

(** One turn: [e] leaves the queue and its children are visited. *)
Section step.
Variables (deg : gmap ObjectId nat) (e : Event) (ready result : list Event).
Hypothesis HK : kahn_inv deg (e :: ready) result.
Abbreviation ids := (ev_id <$> result).
Abbreviation visited := (foldl (visit_child g) (deg, ready) (children_of g (ev_id e))).

Lemma step_emitted : in_graph e ∧ (e ∉ result) ∧ pending ids e = 0%nat.
Proof. apply (ki_ready _ _ _ HK). left. Qed.

Lemma step_pending y : pending ids y = (pending (ids ++ [ev_id e]) y + occ (ev_id e) (ev_parents y))%nat.
Proof.
  destruct step_emitted as (He & Hout & _). apply pending_snoc; [by exists e|].
  rewrite emitted_ids; [done|apply (ki_result _ _ _ HK)|done].
Qed.

Lemma step_occ c ce :
  E !! c = Some ce → occ c (children_of g (ev_id e)) = occ (ev_id e) (ev_parents ce).
Proof. intros Hce. by rewrite (gi_children g Hg), Hce. Qed.

Lemma step_deg c ce : E !! c = Some ce → deg !! c = Some (pending ids ce).
Proof. intros Hce. by rewrite (ki_deg _ _ _ HK), Hce. Qed.

Lemma step_visited :
  ready_ok visited.2 ∧
  (∀ i, visited.1 !! i = (λ d, d - occ i (children_of g (ev_id e)))%nat <$> deg !! i) ∧
  ∀ y, y ∈ visited.2 ↔ y ∈ ready ∨ ∃ c, c ∈ children_of g (ev_id e) ∧ E !! c = Some y ∧
    deg !! c = Some (occ c (children_of g (ev_id e))).
Proof.
  pose proof (ki_ready_sorted _ _ _ HK) as Hsort. apply StronglySorted_cons in Hsort as [_ Hsort].
  apply visit_children.
  - split; [|done]. intros y Hy. apply (ki_ready _ _ _ HK). by right.
  - intros c Hc. apply elem_of_children in Hc as (ce & Hce & Hin); [|done].
    exists (pending ids ce), ce. rewrite (step_deg _ _ Hce), (step_occ _ _ Hce). split; [done|]. split; [done|].
    rewrite step_pending. lia.
Qed.

(** What waits is what is in the graph, not yet emitted, and has all its parents emitted. *)
Lemma step_ready y :
  y ∈ visited.2 ↔ in_graph y ∧ (y ∉ result ++ [e]) ∧ pending (ids ++ [ev_id e]) y = 0%nat.
Proof.
  destruct step_emitted as (He & Hout & Hpe). destruct step_visited as (_ & _ & Hel).
  pose proof (ki_ready_sorted _ _ _ HK) as Hsort.
  apply StronglySorted_cons in Hsort as [Hmin _]. rewrite Forall_forall in Hmin.
  rewrite Hel, elem_of_app, list_elem_of_singleton. split.
  - intros [Hy|(c & Hc & Hce & Hd)].
    + assert (in_graph y ∧ (y ∉ result) ∧ pending ids y = 0%nat) as (?&?&Hp0)
        by (apply (ki_ready _ _ _ HK); by right).
      rewrite step_pending in Hp0. split; [done|]. split; [|lia]. intros [?| ->]; [done|].
      by apply (event_lt_irrefl e), Hmin.
    + destruct (in_graph_lookup _ _ Hce) as [Hy <-].
      rewrite (step_deg _ _ Hce), (step_occ _ _ Hce), step_pending in Hd. injection Hd as Hd.
      apply occ_pos in Hc. rewrite (step_occ _ _ Hce) in Hc. split; [done|]. split; [|lia]. intros [Hy'| ->].
      * pose proof (ki_below _ _ _ HK y e Hy' He Hout) as Hlt. apply event_lt_lamport_le in Hlt. apply occ_pos in Hc.
        pose proof (gi_lamport g Hg _ _ _ _ Hce Hc He). lia.
      * rewrite step_pending in Hpe. lia.
  - intros (Hy & Hout' & Hp0). destruct (decide (occ (ev_id e) (ev_parents y) = 0%nat)) as [Ho|Ho].
    + left. assert (y ∈ e :: ready) as Hye; [|set_solver].
      apply (ki_ready _ _ _ HK). split; [done|]. split; [set_solver|]. rewrite step_pending. lia.
    + right. exists (ev_id y). split; [|split; [done|]].
      * apply elem_of_children; [done|]. exists y. split; [done|]. apply occ_pos. lia.
      * rewrite (step_deg _ _ Hy), (step_occ _ _ Hy), step_pending. f_equal. lia.
Qed.

Lemma kahn_step : kahn_inv visited.1 visited.2 (result ++ [e]).
Proof.
  destruct step_emitted as (He & Hout & _). destruct step_visited as ([Hrin Hrs] & Hdeg & _).
  assert (ev_id <$> (result ++ [e]) = ids ++ [ev_id e]) as Hids by (by rewrite fmap_app).
  pose proof (ki_ready_sorted _ _ _ HK) as Hsort.
  apply StronglySorted_cons in Hsort as [Hmin _]. rewrite Forall_forall in Hmin. split.
  - intros i. rewrite Hdeg, (ki_deg _ _ _ HK), Hids. destruct (E !! i) as [ce|] eqn:Hce; [|done].
    simpl. f_equal. rewrite (step_occ _ _ Hce), step_pending. lia.
  - intros y. rewrite Hids. apply step_ready.
  - done.
  - intros y [Hy|Hy%list_elem_of_singleton]%elem_of_app; [by apply (ki_result _ _ _ HK)|by subst].
  - apply StronglySorted_app_2; [|apply (ki_sorted _ _ _ HK)|repeat constructor].
    intros x y Hx Hy%list_elem_of_singleton. subst. by apply (ki_below _ _ _ HK).
  - intros x y Hx Hy Hny. apply elem_of_app in Hx as [Hx|Hx%list_elem_of_singleton].
    + apply (ki_below _ _ _ HK); [done..|set_solver].
    + subst x. destruct (ready_below deg (e :: ready) result y HK Hy) as (r & Hr & Hle); [set_solver|].
      assert (e ≠ y) by set_solver. apply elem_of_cons in Hr as [->|Hr]; [by destruct Hle|].
      destruct Hle as [->|Hle]; [by apply Hmin|]. eapply event_lt_trans; [by apply Hmin|done].
Qed.
End step.

(** ** The initial state and the whole loop *)

Lemma initial_in_degrees_lookup i :
  initial_in_degrees g !! i = present_parents g <$> (E !! i).
Proof.
  unfold initial_in_degrees. set (l := _ <$> graph_values g).
  assert (l.*1 = ev_id <$> graph_values g) as Hl1.
  { unfold l. rewrite <- list_fmap_compose. by apply list_fmap_ext. }
  assert (NoDup l.*1) as Hnd.
  { rewrite Hl1. apply NoDup_fmap_2_strong; [|apply NoDup_graph_values].
    intros x y Hx%elem_of_graph_values Hy%elem_of_graph_values. by apply in_graph_inj. }
  destruct (E !! i) as [e|] eqn:He; simpl.
  - apply elem_of_list_to_map_1; [done|]. apply list_elem_of_fmap. exists e.
    destruct (in_graph_lookup _ _ He) as [Hin <-]. split; [done|]. by apply elem_of_graph_values.
  - apply not_elem_of_list_to_map_1. rewrite Hl1. intros (x & -> & Hx)%list_elem_of_fmap.
    apply elem_of_graph_values in Hx. unfold in_graph in Hx. congruence.
Qed.

Lemma btree_collect_events l :
  (∀ e, e ∈ l → in_graph e) →
  ready_ok (btree_collect event_cmp l) ∧
  ∀ e, e ∈ btree_collect event_cmp l ↔ e ∈ l.
Proof.
  unfold btree_collect. intros Hl.
  enough (∀ acc, ready_ok acc →
    let r := foldl (λ s x, btree_insert event_cmp x s) acc l in
    ready_ok r ∧ ∀ e, e ∈ r ↔ e ∈ acc ∨ e ∈ l) as H.
  { destruct (H []) as [H1 H2]; [split; [set_solver|constructor]|]. split; [done|].
    intros e. rewrite H2. set_solver. }
  induction l as [|x l IH]; intros acc Hacc; simpl; [set_solver|].
  destruct (ready_insert acc x Hacc) as [Hok Hel]; [apply Hl; left|].
  destruct (IH ltac:(intros; apply Hl; by right) _ Hok) as [H1 H2]. split; [done|].
  intros e. rewrite H2, Hel. set_solver.
Qed.

Lemma kahn_init : kahn_inv (initial_in_degrees g) (initial_ready g) [].
Proof.
  assert (∀ e, e ∈ omap (λ kd : ObjectId * nat, if (kd.2 =? 0)%nat then E !! kd.1 else None)
    (map_to_list (initial_in_degrees g)) ↔ in_graph e ∧ present_parents g e = 0%nat) as Hel.
  { intros e. rewrite list_elem_of_omap. split.
    - intros ([i d] & Hin & Hd). simpl in Hd. apply elem_of_map_to_list in Hin.
      destruct (Nat.eqb_spec d 0) as [->|]; [|done].
      destruct (in_graph_lookup _ _ Hd) as [He <-]. split; [done|].
      rewrite initial_in_degrees_lookup, Hd in Hin. by injection Hin.
    - intros [He H0]. exists (ev_id e, 0%nat). split; [|done].
      apply elem_of_map_to_list. rewrite initial_in_degrees_lookup, He. simpl. by rewrite H0. }
  destruct (btree_collect_events (omap (λ kd : ObjectId * nat,
    if (kd.2 =? 0)%nat then E !! kd.1 else None) (map_to_list (initial_in_degrees g))))
    as [[Hin Hs] Hr]; [intros e He; by apply Hel in He as []|].
  unfold initial_ready. split.
  - intros i. rewrite initial_in_degrees_lookup. destruct (E !! i); simpl; [|done].
    by rewrite pending_nil.
  - intros e. rewrite Hr, Hel, pending_nil. set_solver.
  - done.
  - set_solver.
  - constructor.
  - set_solver.
Qed.

Lemma event_sorted_NoDup l : StronglySorted event_lt l → NoDup l.
Proof.
  induction 1 as [|x l _ IH Hx]; constructor; [|done].
  intros Hin. rewrite Forall_forall in Hx. by apply (event_lt_irrefl x), Hx.
Qed.

(** The events are all out exactly when no event is ready. *)
Lemma kahn_done deg ready result :
  kahn_inv deg ready result → (ready = [] ↔ result ≡ₚ graph_values g).
Proof.
  intros HK. split.
  - intros ->. apply NoDup_Permutation.
    + apply event_sorted_NoDup, (ki_sorted _ _ _ HK).
    + apply NoDup_graph_values.
    + intros e. rewrite elem_of_graph_values. split; [apply (ki_result _ _ _ HK)|].
      intros He. destruct (decide (e ∈ result)) as [|Hout]; [done|].
      destruct (ready_below deg [] result e HK He Hout) as (r & Hr & _). by apply not_elem_of_nil in Hr.
  - intros Hp. destruct ready as [|e ready]; [done|].
    assert (in_graph e ∧ (e ∉ result) ∧ pending (ev_id <$> result) e = 0%nat) as (He & Hout & _).
    { apply (ki_ready _ _ _ HK). left. }
    exfalso. apply Hout. rewrite Hp. by apply elem_of_graph_values.
Qed.

Lemma length_graph_values : length (graph_values g) = graph_len g.
Proof. unfold graph_values, graph_len. by rewrite length_fmap, length_map_to_list. Qed.

Lemma kahn_loop_inv fuel : ∀ deg ready result,
  kahn_inv deg ready result → (graph_len g ≤ fuel + length result)%nat →
  ∃ deg', (kahn_loop g fuel deg ready result).1 = [] ∧
  kahn_inv deg' [] (kahn_loop g fuel deg ready result).2.
Proof.
  induction fuel as [|fuel IH]; intros deg ready result HK Hlen; simpl.
  - assert (ready = []) as ->; [|by exists deg].
    apply (kahn_done _ _ _ HK), submseteq_length_Permutation;
      [|by rewrite length_graph_values; lia].
    apply NoDup_submseteq; [apply event_sorted_NoDup, (ki_sorted _ _ _ HK)|].
    intros e He. apply elem_of_graph_values. by apply (ki_result _ _ _ HK).
  - destruct ready as [|e ready]; [by exists deg|].
    apply IH; [by apply kahn_step|]. rewrite length_app. simpl. lia.
Qed.

(** The fuel is enough: nothing is left ready, every event is emitted. *)
Lemma kahn_run_spec :
  (kahn_run g).1 = [] ∧ (kahn_run g).2 ≡ₚ graph_values g ∧
  StronglySorted event_lt (kahn_run g).2.
Proof.
  destruct (kahn_loop_inv (graph_len g) _ _ _ kahn_init) as (deg & H1 & H2); [simpl; lia|].
  split; [done|]. split; [by apply (kahn_done _ _ _ H2)|apply (ki_sorted _ _ _ H2)].
Qed.

Lemma topological_sort_run : topological_sort g = (kahn_run g).2.
Proof.
  unfold topological_sort. destruct kahn_run_spec as (_ & Hp & _).
  rewrite Hp, length_graph_values at 1. by rewrite Nat.ltb_irrefl.
Qed.

Lemma topological_sort_perm : topological_sort g ≡ₚ graph_values g.
Proof. rewrite topological_sort_run. apply kahn_run_spec. Qed.

Lemma topological_sort_sorted : StronglySorted event_lt (topological_sort g).
Proof. rewrite topological_sort_run. apply kahn_run_spec. Qed.

Lemma topological_sort_eq l :
  StronglySorted event_lt l → l ≡ₚ graph_values g → topological_sort g = l.
Proof.
  intros Hl Hp. apply (StronglySorted_unique_strong event_lt).
  - intros x y _ _ Hxy Hyx. destruct (event_lt_irrefl x). by eapply event_lt_trans.
  - apply topological_sort_sorted.
  - done.
  - by rewrite topological_sort_perm.
Qed.
End kahn.

(** ** The graph as a value: only its events matter *)

Lemma graph_values_perm g h : g_events g = g_events h → graph_values g ≡ₚ graph_values h.
Proof. intros H. unfold graph_values. by rewrite H. Qed.

Lemma topological_sort_ext g h :
  graph_inv g → graph_inv h → g_events g = g_events h →
  topological_sort g = topological_sort h.
Proof.
  intros Hg Hh HE. apply topological_sort_eq; [done|by apply topological_sort_sorted|].
  rewrite topological_sort_perm by done. by apply graph_values_perm.
Qed.

Lemma graph_heads_ext g h :
  graph_inv g → graph_inv h → g_events g = g_events h → g_heads g = g_heads h.
Proof.
  intros Hg Hh HE. destruct (g_heads g) as [hg] eqn:E1, (g_heads h) as [hh] eqn:E2. f_equal.
  apply set_eq. intros i.
  pose proof (gi_heads g Hg i) as H1. pose proof (gi_heads h Hh i) as H2.
  rewrite E1 in H1. rewrite E2 in H2. simpl in *. by rewrite H1, H2, HE.
Qed.

(** Delivering a list of events; a refused event changes nothing. *)
Definition graph_deliver (g : EventGraph) (e : Event) : EventGraph :=
  match graph_insert g e with Ok g' => g' | Err _ => g end.

Definition graph_of (es : list Event) : EventGraph := foldl graph_deliver EventGraph_new es.

(** A set of events no two of which disagree: distinct events have distinct
    ids and every listed parent in the set has a smaller Lamport clock. *)
Record consistent_events (es : list Event) : Prop := {
  ce_ids a b : a ∈ es → b ∈ es → ev_id a = ev_id b → a = b;
  ce_lamport a p : a ∈ es → p ∈ es → ev_id p ∈ ev_parents a → ev_lamport p < ev_lamport a
}.

Lemma consistent_no_self es e : consistent_events es → e ∈ es → no_self_parent e.
Proof. intros H He Hin. pose proof (ce_lamport es H e e He He Hin). lia. Qed.

Lemma graph_of_consistent es0 es g :
  consistent_events es0 → (∀ e, e ∈ es → e ∈ es0) →
  graph_inv g → (∀ i e, g_events g !! i = Some e → e ∈ es0) →
  let g' := foldl graph_deliver g es in
  graph_inv g' ∧
  ∀ e, in_graph g' e ↔ in_graph g e ∨ e ∈ es.
Proof.
  intros Hcon. revert g. induction es as [|e es IH]; intros g Hes Hg Hsub; simpl; [set_solver|].
  assert (e ∈ es0) as He by (apply Hes; left).
  destruct (g_events g !! ev_id e) as [e0|] eqn:Hknown.
  - assert (graph_deliver g e = g) as ->.
    { unfold graph_deliver. by rewrite graph_insert_known by eauto. }
    destruct (IH g) as [H1 H2]; [set_solver|done|done|]. split; [done|].
    intros x. rewrite H2. rewrite elem_of_cons. split; [naive_solver|].
    intros [?|[->|?]]; [by left| |by right]. left. unfold in_graph.
    destruct (in_graph_lookup g Hg _ _ Hknown) as [_ Hid].
    rewrite Hknown. f_equal. apply (ce_ids es0 Hcon); [by eapply Hsub|done|done].
  - assert (is_ok (graph_insert g e) = true) as Hok.
    { apply graph_insert_is_ok; [done..|]. split.
      - intros p pe Hp Hpe. apply (ce_lamport es0 Hcon); [done|by eapply Hsub|].
        destruct (in_graph_lookup g Hg _ _ Hpe) as [_ ->]. done.
      - intros c ce Hce Hin. apply (ce_lamport es0 Hcon); [by eapply Hsub|done..]. }
    destruct (graph_insert g e) as [g1|] eqn:Hins; [|done].
    assert (graph_deliver g e = g1) as -> by (unfold graph_deliver; by rewrite Hins).
    destruct (graph_insert_Ok_new _ _ _ Hknown Hins) as (HE & _ & _).
    destruct (IH g1) as [H1 H2].
    + intros x Hx. apply Hes. by right.
    + eapply graph_insert_inv; [done|by eapply consistent_no_self|done].
    + intros i x. rewrite HE, lookup_insert_Some. intros [[_ <-]|[_ ?]]; eauto.
    + split; [done|]. intros x. rewrite H2, elem_of_cons. unfold in_graph.
      rewrite HE, lookup_insert_Some. split.
      * intros [[[_ <-]|[_ ?]]|?]; auto.
      * intros [Hx|[->|?]]; [|by left; left|by right].
        left. right. split; [|done]. intros Heq. rewrite <- Heq, Hknown in Hx. done.
Qed.

Lemma graph_of_spec es :
  consistent_events es →
  graph_inv (graph_of es) ∧ ∀ e, in_graph (graph_of es) e ↔ e ∈ es.
Proof.
  intros Hcon. destruct (graph_of_consistent es es EventGraph_new Hcon) as [H1 H2];
    [done|apply graph_inv_new|intros i e Hi; simpl in Hi; by rewrite lookup_empty in Hi|].
  split; [done|]. intros e. rewrite (H2 e). split; [|auto].
  intros [H|H]; [|done]. unfold in_graph in H. simpl in H. by rewrite lookup_empty in H.
Qed.

Lemma consistent_events_perm es es' : es ≡ₚ es' → consistent_events es → consistent_events es'.
Proof.
  intros Hp [H1 H2]. split.
  - intros a b Ha Hb. apply H1; by rewrite Hp.
  - intros a b Ha Hb. apply H2; by rewrite Hp.
Qed.

Lemma graph_events_ext g h :
  graph_inv g → graph_inv h → (∀ e, in_graph g e ↔ in_graph h e) → g_events g = g_events h.
Proof.
  intros Hg Hh H. apply map_eq. intros i. apply option_eq. intros e. split; intros He.
  - destruct (in_graph_lookup g Hg _ _ He) as [Hin <-]. by apply H.
  - destruct (in_graph_lookup h Hh _ _ He) as [Hin <-]. by apply H.
Qed.

Lemma graph_of_events_ext es es' :
  consistent_events es → es ≡ₚ es' → g_events (graph_of es) = g_events (graph_of es').
Proof.
  intros Hcon Hp. destruct (graph_of_spec es Hcon) as [H1 H2].
  destruct (graph_of_spec es') as [H3 H4]; [by eapply consistent_events_perm|].
  apply graph_events_ext; [done..|]. intros e. by rewrite H2, H4, Hp.
Qed.

(** Any sequence of deliveries builds a well-formed graph. *)
Lemma graph_deliver_inv g e : graph_inv g → no_self_parent e → graph_inv (graph_deliver g e).
Proof.
  intros Hg He. unfold graph_deliver. destruct (graph_insert g e) eqn:Hi; [|done].
  by eapply graph_insert_inv.
Qed.

Lemma graph_deliver_ok g e :
  is_ok (graph_insert g e) = true → graph_insert g e = Ok (graph_deliver g e).
Proof. unfold graph_deliver. by destruct (graph_insert g e). Qed.

Lemma graph_of_inv es : Forall no_self_parent es → graph_inv (graph_of es).
Proof.
  unfold graph_of. pose proof graph_inv_new as Hg. revert Hg.
  generalize EventGraph_new as g. induction es as [|e es IH]; intros g Hg; simpl; [done|].
  intros [He Hes]%Forall_cons. apply IH; [by apply graph_deliver_inv|done].
Qed.

(** A small history: a root, two concurrent replies, and their merge. *)
Definition sample_event (n : N) (parents : list N) (ts lamport : N) : Event :=
  mkEvent (toy_id n) (toy_id <$> parents) (mkPublicKey (toy_seed n)) ts lamport
    (PCustom "sample" []).

Definition sample_events : list Event :=
  [sample_event 1 [] 10 1; sample_event 2 [1] 20 2; sample_event 3 [1] 15 2;
   sample_event 4 [2; 3] 30 3].

(** The two conditions as a computation. *)
Definition consistent_pair (a b : Event) : bool :=
  (negb (bool_decide (ev_id a = ev_id b)) || bool_decide (a = b))
  && (negb (bool_decide (ev_id b ∈ ev_parents a)) || (ev_lamport b <? ev_lamport a)).

Lemma consistent_events_dec es :
  forallb (λ a, forallb (consistent_pair a) es) es = true → consistent_events es.
Proof.
  intros H. assert (∀ a b, a ∈ es → b ∈ es → consistent_pair a b = true) as Hp.
  { intros a b Ha Hb. rewrite forallb_forall in H. apply list_elem_of_In in Ha, Hb.
    specialize (H a Ha). simpl in H. rewrite forallb_forall in H. by apply H. }
  split; intros a b Ha Hb E; specialize (Hp a b Ha Hb); unfold consistent_pair in Hp;
    apply andb_true_iff in Hp as [H1 H2].
  - rewrite (bool_decide_eq_true_2 _ E) in H1. by apply bool_decide_eq_true in H1.
  - rewrite (bool_decide_eq_true_2 _ E) in H2. by apply N.ltb_lt.
Qed.

Lemma sample_consistent : consistent_events sample_events.
Proof. apply consistent_events_dec. vm_compute. reflexivity. Qed.

Lemma sample_no_self : Forall no_self_parent sample_events.
Proof. apply Forall_forall. intros e. by apply consistent_no_self, sample_consistent. Qed.

Lemma event_lt_cmp_le a b : event_lt a b → cmp_le event_cmp a b.
Proof. unfold event_lt, cmp_le. by intros ->. Qed.

Lemma topological_sort_is_sort g :
  graph_inv g → topological_sort g = sort_by event_cmp (graph_values g).
Proof.
  intros Hg. apply (key_sort_unique event_key key_cmp).
  - intros x y Hx Hy Hk. apply elem_of_graph_values in Hx, Hy; [|done..].
    apply (in_graph_inj g); [done..|by apply event_key_id].
  - pose proof (topological_sort_sorted g Hg) as Hs. induction Hs as [|x l _ IH Hx]; constructor; [done|].
    eapply Forall_impl; [exact Hx|]. apply event_lt_cmp_le.
  - by apply topological_sort_perm.
Qed.

Lemma sorted_index_lt l i j a b :
  StronglySorted event_lt l → l !! i = Some a → l !! j = Some b → event_lt a b → (i < j)%nat.
Proof.
  intros Hs. revert i j. induction Hs as [|x l Hs IH Hx]; intros i j; [done|].
  rewrite Forall_forall in Hx.
  destruct i as [|i], j as [|j]; simpl; intros Ha Hb Hlt; simplify_eq.
  - exfalso. by eapply event_lt_irrefl.
  - lia.
  - apply list_elem_of_lookup_2, Hx in Ha. exfalso. eapply event_lt_irrefl, event_lt_trans; eauto.
  - apply -> Nat.succ_lt_mono. by eapply IH.
Qed.

Lemma existsb_perm {A} (f : A → bool) l k : l ≡ₚ k → existsb f l = existsb f k.
Proof.
  intros Hp. apply eq_iff_eq_true. rewrite !existsb_exists.
  by setoid_rewrite <- list_elem_of_In; setoid_rewrite Hp.
Qed.

Lemma List_filter_perm {A} (f : A → bool) (l k : list A) :
  l ≡ₚ k → List.filter f l ≡ₚ List.filter f k.
Proof.
  induction 1; simpl; try done; repeat case_match; try constructor; try done.
  by etrans.
Qed.

(** "Some event of the ticket lists [e] as a parent". *)
Lemma has_matching_child_true g t e :
  graph_inv g →
  has_matching_child g t e = true ↔
    ∃ c, in_graph g c ∧ ev_id e ∈ ev_parents c ∧ Event_ticket_id c = Some t.
Proof.
  intros Hg. unfold has_matching_child. rewrite existsb_exists. split.
  - intros (c & Hc & Hm). apply list_elem_of_In, (elem_of_children g _ _ Hg) in Hc as (ce & Hce & Hin).
    rewrite Hce in Hm. apply bool_decide_eq_true in Hm.
    exists ce. destruct (in_graph_lookup g Hg _ _ Hce). done.
  - intros (c & Hc & Hin & Ht). exists (ev_id c). split.
    + apply list_elem_of_In, elem_of_children; eauto.
    + rewrite Hc. by apply bool_decide_eq_true.
Qed.

Lemma elem_of_ticket_events g t e :
  graph_inv g → e ∈ ticket_events g t ↔ in_graph g e ∧ Event_ticket_id e = Some t.
Proof.
  intros Hg. unfold ticket_events. rewrite list_elem_of_In, filter_In, <- list_elem_of_In.
  rewrite elem_of_graph_values by done. unfold of_ticket. by rewrite bool_decide_eq_true.
Qed.

Lemma ticket_heads_ext g h t :
  graph_inv g → graph_inv h → g_events g = g_events h → ticket_heads g t = ticket_heads h t.
Proof.
  intros Hg Hh HE. apply sort_by_perm_eq; [apply _|]. apply fmap_Permutation.
  assert (ticket_events g t ≡ₚ ticket_events h t) as Hp
    by (apply List_filter_perm; by apply graph_values_perm).
  rewrite (List_filter_perm _ _ _ Hp). rewrite (List.filter_ext _ (λ e, negb (has_matching_child h t e))); [done|].
  intros e. f_equal. apply eq_iff_eq_true. rewrite !has_matching_child_true by done.
  unfold in_graph. by rewrite HE.
Qed.

Lemma elem_of_missing_parents g p :
  graph_inv g →
  p ∈ missing_parents g ↔ g_events g !! p = None ∧ ∃ e, in_graph g e ∧ p ∈ ev_parents e.
Proof.
  intros Hg. unfold missing_parents, missing_parents_set.
  rewrite elem_of_elements, elem_of_list_to_set, list_elem_of_filter, list_elem_of_bind.
  setoid_rewrite elem_of_graph_values; [|done]. naive_solver.
Qed.

(** ** [next_lamport] *)

Lemma max_lamport_spec g ps :
  (∀ p pe, p ∈ ps → g_events g !! p = Some pe → ev_lamport pe ≤ max_lamport g ps) ∧
  (max_lamport g ps = 0 ∨
   ∃ p pe, p ∈ ps ∧ g_events g !! p = Some pe ∧ ev_lamport pe = max_lamport g ps).
Proof.
  unfold max_lamport. induction ps as [|p ps [IH1 IH2]] using rev_ind; simpl.
  { split; [set_solver|by left]. }
  rewrite foldl_snoc. set (m := foldl _ _ _) in *.
  destruct (g_events g !! p) as [pe|] eqn:Hp.
  - destruct (N.ltb_spec m (ev_lamport pe)).
    + split; [|right; exists p, pe; set_solver].
      intros q qe [Hq|Hq%list_elem_of_singleton]%elem_of_app Hqe; [|by simplify_eq].
      specialize (IH1 q qe Hq Hqe). lia.
    + split; [|destruct IH2 as [?|(q&qe&?&?&?)]; [by left|right; exists q, qe; set_solver]].
      intros q qe [Hq|Hq%list_elem_of_singleton]%elem_of_app Hqe; [by eapply IH1|by simplify_eq].
  - split; [|destruct IH2 as [?|(q&qe&?&?&?)]; [by left|right; exists q, qe; set_solver]].
    intros q qe [Hq|Hq%list_elem_of_singleton]%elem_of_app Hqe; [by eapply IH1|by simplify_eq].
Qed.

(** Without overflow the new clock is above every known parent's. *)
Lemma next_lamport_gt g ps p pe :
  max_lamport g ps < u64_max → p ∈ ps → g_events g !! p = Some pe →
  ev_lamport pe < next_lamport g ps.
Proof.
  intros Hm Hp Hpe. destruct (max_lamport_spec g ps) as [Hle _].
  specialize (Hle p pe Hp Hpe). unfold next_lamport.
  unfold wrapping_add_u64, u64_max, u64_modulus in *. rewrite N.mod_small; lia.
Qed.

(** Once a known parent has the greatest clock, the sum wraps to zero. *)
Lemma next_lamport_overflow g ps p pe :
  (∀ i x, g_events g !! i = Some x → ev_lamport x < u64_modulus) →
  p ∈ ps → g_events g !! p = Some pe → ev_lamport pe = u64_max → next_lamport g ps = 0.
Proof.
  intros Hw Hp Hpe Hpm. destruct (max_lamport_spec g ps) as [Hmax Hatt].
  specialize (Hmax p pe Hp Hpe).
  assert (max_lamport g ps = u64_max) as Hm.
  { destruct Hatt as [H0|(q&qe&_&Hqe&H0)].
    - rewrite H0 in *. rewrite Hpm in Hmax. by destruct Hmax.
    - specialize (Hw q qe Hqe). unfold u64_max in *. lia. }
  unfold next_lamport. rewrite Hm. apply wrapping_add_u64_max.
Qed.

(** Membership of an id in a concrete list, by computation. *)
Lemma listed (i : ObjectId) (l : list ObjectId) : bool_decide (i ∈ l) = true → i ∈ l.
Proof. apply bool_decide_eq_true_1. Qed.
Lemma not_listed (i : ObjectId) (l : list ObjectId) : bool_decide (i ∈ l) = false → i ∉ l.
Proof. apply bool_decide_eq_false_1. Qed.

(** ** Properties *)

(** C4. [topological_sort] refines the plain sort: on a well-formed graph Kahn's
    loop ends with nothing ready within its fuel, the "disconnected components"
    fallback is never taken, the result is the events sorted by
    [(lamport, timestamp, id)], and every known parent comes before its child. *)
Theorem topological_sort_correct g :
  graph_inv g →
  (kahn_run g).1 = [] ∧
  topological_sort g = (kahn_run g).2 ∧
  topological_sort g = sort_by event_cmp (graph_values g) ∧
  (∀ i j p e, topological_sort g !! i = Some p → topological_sort g !! j = Some e →
     ev_id p ∈ ev_parents e → (i < j)%nat).
Proof.
  intros Hg. split; [by apply kahn_run_spec|]. split; [by apply topological_sort_run|].
  split; [by apply topological_sort_is_sort|]. intros i j p e Hp He Hin.
  eapply sorted_index_lt; [by apply topological_sort_sorted|done..|].
  assert (∀ x k, topological_sort g !! k = Some x → in_graph g x) as Hgr.
  { intros x k Hx%list_elem_of_lookup_2. rewrite topological_sort_perm in Hx by done.
    by apply elem_of_graph_values. }
  apply event_lt_lamport. apply Hgr in Hp. apply Hgr in He. by eapply (gi_lamport g Hg).
Qed.

Lemma topological_sort_correct_witness :
  graph_inv (graph_of sample_events) ∧
  topological_sort (graph_of sample_events) =
    sort_by event_cmp (graph_values (graph_of sample_events)) ∧
  ev_timestamp <$> topological_sort (graph_of sample_events) = [10; 15; 20; 30].
Proof.
  assert (graph_inv (graph_of sample_events)) as H by apply graph_of_inv, sample_no_self.
  split; [exact H|]. destruct (topological_sort_correct _ H) as (_ & _ & E & _).
  split; [exact E|vm_compute; reflexivity].
Defined.

(** C12. [insert] on a well-formed graph: a known id changes nothing; a new event
    is accepted exactly when it is above its known parents and below its known
    children, and then the graph, its child index and its heads (the events no
    known event lists as a parent) are those of the extended event set; a
    refusal names the offending pair and leaves the graph as it was. *)
Theorem graph_insert_correct g e :
  graph_inv g → no_self_parent e →
  match graph_insert g e with
  | Ok g' =>
      graph_inv g' ∧
      (is_Some (g_events g !! ev_id e) → g' = g) ∧
      (g_events g !! ev_id e = None →
        causally_consistent (g_events g) e ∧ g_events g' = <[ev_id e := e]> (g_events g))
  | Err (ParentViolation i p) =>
      i = ev_id e ∧ g_events g !! i = None ∧
      ∃ pe, p ∈ ev_parents e ∧ g_events g !! p = Some pe ∧ ev_lamport e ≤ ev_lamport pe
  | Err (ChildViolation c i) =>
      i = ev_id e ∧ g_events g !! i = None ∧
      ∃ ce, g_events g !! c = Some ce ∧ i ∈ ev_parents ce ∧ ev_lamport ce ≤ ev_lamport e
  end.
Proof.
  intros Hg He. destruct (graph_insert g e) as [g'|err] eqn:Hins.
  - split; [by eapply graph_insert_inv|]. split.
    + intros Hk. rewrite graph_insert_known in Hins by done. congruence.
    + intros Hnew. split; [|by apply (graph_insert_Ok_new _ _ _ Hnew Hins)].
      apply graph_insert_is_ok; [done..|]. by rewrite Hins.
  - unfold graph_insert in Hins. destruct (graph_contains g (ev_id e)) eqn:Hc; [done|].
    apply graph_contains_false in Hc.
    destruct (check_parents _ _ _) as [[]|e1] eqn:Hp; simpl in Hins.
    + destruct (check_children _ _ _) as [[]|e2] eqn:Hch; simpl in Hins; [done|].
      injection Hins as <-. apply check_children_Err in Hch as (c&ce&Hin&Hce&Hle&->).
      apply elem_of_children in Hin as (ce'&Hce'&Hin); [|done]. naive_solver.
    + injection Hins as <-. apply check_parents_Err in Hp as (p&pe&Hin&Hpe&Hle&->). naive_solver.
Qed.

Lemma graph_insert_correct_witness :
  graph_inv (graph_of sample_events) ∧
  graph_insert (graph_of sample_events) (sample_event 5 [4] 40 3)
    = Err (ParentViolation (toy_id 5) (toy_id 4)) ∧
  ∃ pe, g_events (graph_of sample_events) !! toy_id 4 = Some pe ∧ 3 ≤ ev_lamport pe.
Proof.
  assert (graph_inv (graph_of sample_events)) as H by apply graph_of_inv, sample_no_self.
  split; [exact H|].
  pose proof (graph_insert_correct _ (sample_event 5 [4] 40 3) H) as C.
  assert (graph_insert (graph_of sample_events) (sample_event 5 [4] 40 3)
    = Err (ParentViolation (toy_id 5) (toy_id 4))) as E by (vm_compute; reflexivity).
  split; [exact E|]. rewrite E in C.
  destruct C as (_ & _ & pe & _ & Hpe & Hle).
  { apply not_listed. vm_compute. reflexivity. }
  exists pe. exact (conj Hpe Hle).
Defined.

(** Convergence: two replicas that received the same mutually consistent
    events, in whatever order, have the same events, heads, ticket heads and
    missing parents, and the same topological order. *)
Theorem graph_delivery_order_irrelevant es es' :
  consistent_events es → es ≡ₚ es' →
  g_events (graph_of es) = g_events (graph_of es') ∧
  g_heads (graph_of es) = g_heads (graph_of es') ∧
  (∀ t, ticket_heads (graph_of es) t = ticket_heads (graph_of es') t) ∧
  (∀ i, i ∈ missing_parents (graph_of es) ↔ i ∈ missing_parents (graph_of es')) ∧
  topological_sort (graph_of es) = topological_sort (graph_of es') ∧
  topological_sort (graph_of es) ≡ₚ remove_dups es.
Proof.
  intros Hc Hp. pose proof (consistent_events_perm _ _ Hp Hc) as Hc'.
  destruct (graph_of_spec es Hc) as [H1 H1'], (graph_of_spec es' Hc') as [H2 H2'].
  pose proof (graph_of_events_ext es es' Hc Hp) as HE.
  split; [done|]. split; [by apply graph_heads_ext|]. split; [intros t; by apply ticket_heads_ext|].
  split; [|split; [by apply topological_sort_ext|]].
  - intros i. rewrite !elem_of_missing_parents by done. unfold in_graph. by rewrite HE.
  - rewrite topological_sort_perm by done. apply NoDup_Permutation.
    + by apply NoDup_graph_values.
    + apply NoDup_remove_dups.
    + intros e. rewrite elem_of_graph_values, elem_of_remove_dups by done. apply H1'.
Qed.

Lemma graph_delivery_order_irrelevant_witness :
  consistent_events sample_events ∧ sample_events ≡ₚ reverse sample_events ∧
  topological_sort (graph_of sample_events) = topological_sort (graph_of (reverse sample_events)).
Proof.
  split; [exact sample_consistent|].
  assert (sample_events ≡ₚ reverse sample_events) as Hp by (symmetry; apply reverse_Permutation).
  split; [exact Hp|].
  destruct (graph_delivery_order_irrelevant _ _ sample_consistent Hp) as (_&_&_&_&H&_). exact H.
Defined.

(** The Lamport clock of a local event: as long as no known parent has the
    clock [u64::MAX], [next_lamport] is above every known parent and the graph
    accepts the event it stamps; once a known parent has that clock, the sum
    wraps to 0 and the graph refuses every event stamped from it. *)
Theorem next_lamport_admits g e :
  graph_inv g → no_self_parent e → g_events g !! ev_id e = None →
  (∀ c, in_graph g c → ev_id e ∉ ev_parents c) →
  (∀ i x, g_events g !! i = Some x → ev_lamport x < u64_modulus) →
  ev_lamport e = next_lamport g (ev_parents e) →
  ((∀ p pe, p ∈ ev_parents e → g_events g !! p = Some pe → ev_lamport pe < u64_max) →
     is_ok (graph_insert g e) = true) ∧
  (∀ p pe, p ∈ ev_parents e → g_events g !! p = Some pe → ev_lamport pe = u64_max →
     ev_lamport e = 0 ∧ is_ok (graph_insert g e) = false).
Proof.
  intros Hg Hself Hnew Hnoc Hw Hl.
  destruct (max_lamport_spec g (ev_parents e)) as [Hmax Hatt]. split.
  - intros Hlt. assert (max_lamport g (ev_parents e) < u64_max) as Hm.
    { destruct Hatt as [->|(p&pe&Hp&Hpe&<-)]; [done|by eapply Hlt]. }
    apply graph_insert_is_ok; [done..|]. split.
    + intros p pe Hp Hpe. rewrite Hl. by eapply next_lamport_gt.
    + intros c ce Hce Hin. destruct (in_graph_lookup g Hg _ _ Hce) as [Hc _].
      by destruct (Hnoc ce Hc).
  - intros p pe Hp Hpe Hpm.
    assert (ev_lamport e = 0) as H0 by (rewrite Hl; by eapply next_lamport_overflow).
    split; [done|]. destruct (is_ok (graph_insert g e)) eqn:Hok; [|done].
    apply graph_insert_is_ok in Hok as [Hpar _]; [|done..].
    specialize (Hpar p pe Hp Hpe). lia.
Qed.

Lemma next_lamport_admits_witness :
  let g := graph_of [sample_event 1 [] 10 u64_max] in
  let e := sample_event 2 [1] 20 (next_lamport g [toy_id 1]) in
  ev_lamport e = 0 ∧ is_ok (graph_insert g e) = false.
Proof.
  intros g e. unfold g, e.
  refine (proj2 (next_lamport_admits _ (sample_event 2 [1] 20 _) _ _ _ _ _ _)
    (toy_id 1) (sample_event 1 [] 10 u64_max) _ _ _).
  - apply graph_of_inv. constructor; [|constructor]. apply not_listed. vm_compute. reflexivity.
  - apply not_listed. vm_compute. reflexivity.
  - vm_compute. reflexivity.
  - intros c Hc. destruct (graph_of_spec [sample_event 1 [] 10 u64_max]) as [_ Hg].
    { apply consistent_events_dec. vm_compute. reflexivity. }
    apply Hg in Hc. apply list_elem_of_singleton in Hc. subst c.
    apply not_listed. vm_compute. reflexivity.
  - intros i x Hx. destruct (graph_of_spec [sample_event 1 [] 10 u64_max]) as [Hi Hg].
    { apply consistent_events_dec. vm_compute. reflexivity. }
    destruct (in_graph_lookup _ Hi _ _ Hx) as [Hin _]. apply Hg in Hin.
    apply list_elem_of_singleton in Hin. subst x. vm_compute. reflexivity.
  - reflexivity.
  - apply listed. vm_compute. reflexivity.
  - vm_compute. reflexivity.
  - reflexivity.
Defined.
