(* ===== verification/Reducer.v ===== *)
(** The ticket reducer ([crates/fortiq-core/src/reducer/ticket.rs]): the pure
    fold of the event graph into ticket aggregates.

    [HashMap<String, TicketAggregate>] is a [gmap string].  [apply_event] takes
    [&mut store] and leaves it untouched on every [bail!], so it is a function to
    a result: an error stands for "the store is as it was". *)

From S2P Require Import Prelude Text Object Concrete Ticket Event Graph GraphSort.

#[local] Open Scope string_scope.

Record TicketAggregate := mkTicketAggregate {
  agg_record : TicketRecord;
  agg_messages : list ChatMessage;
  agg_attachments : list AttachmentRecord;
  agg_shell_sessions : list ShellSessionRecord;
  agg_events : list TicketEventRecord
}.

#[export] Instance TicketAggregate_eq_dec : EqDecision TicketAggregate.
Proof. solve_decision. Defined.

Definition to_detail (a : TicketAggregate) : TicketDetail := {|
  td_ticket := agg_record a;
  td_messages := agg_messages a;
  td_attachments := agg_attachments a;
  td_shell_sessions := agg_shell_sessions a;
  td_events := agg_events a
|}.

Abbreviation TicketStateStore := (gmap string TicketAggregate).

Definition TicketStateStore_new : TicketStateStore := ∅.

Inductive ReducerError :=
| TicketExists (ticket_id : string)
| TicketNotFound (ticket_id : string)
| InvalidTransition (ticket_id : string) (from to : TicketState).

(** ** Queries *)

Definition ticket_values (s : TicketStateStore) : list TicketAggregate := (map_to_list s).*2.

(** The comparator of [list_tickets]: most recently updated first, then by id. *)
Definition listing_key (r : TicketRecord) : N * string := (tr_updated_at r, tr_id r).
Definition listing_key_cmp (a b : N * string) : comparison :=
  then_with (b.1 ?= a.1)%N (str_cmp a.2 b.2).
Definition listing_cmp (a b : TicketRecord) : comparison :=
  listing_key_cmp (listing_key a) (listing_key b).

Definition matches_filter (state_filter : option TicketState) (r : TicketRecord) : bool :=
  match state_filter with
  | None => true
  | Some f => bool_decide (tr_state r = f)
  end.

Definition list_tickets (s : TicketStateStore) (state_filter : option TicketState)
    : list TicketRecord :=
  sort_by listing_cmp (List.filter (matches_filter state_filter) (agg_record <$> ticket_values s)).

Definition get_ticket (s : TicketStateStore) (ticket_id : string) : option TicketRecord :=
  agg_record <$> (s !! ticket_id).
Definition get_ticket_detail (s : TicketStateStore) (ticket_id : string) : option TicketDetail :=
  to_detail <$> (s !! ticket_id).
Definition list_messages (s : TicketStateStore) (ticket_id : string) : list ChatMessage :=
  default [] (agg_messages <$> (s !! ticket_id)).
Definition list_attachments (s : TicketStateStore) (ticket_id : string) : list AttachmentRecord :=
  default [] (agg_attachments <$> (s !! ticket_id)).
Definition list_shell_sessions (s : TicketStateStore) (ticket_id : string)
    : list ShellSessionRecord :=
  default [] (agg_shell_sessions <$> (s !! ticket_id)).
Definition get_active_ticket (s : TicketStateStore) : option TicketRecord :=
  List.find (λ t, permits_work (tr_state t)) (list_tickets s None).

(** ** Applying one event *)

(** [agg.record.updated_at = …; agg.record.revision += 1]. *)
Definition touch (r : TicketRecord) (now : N) : TicketRecord := {|
  tr_id := tr_id r; tr_title := tr_title r; tr_description := tr_description r;
  tr_state := tr_state r; tr_priority := tr_priority r;
  tr_client_peer_id := tr_client_peer_id r;
  tr_revision := wrapping_add_u64 (tr_revision r) 1;
  tr_created_at := tr_created_at r; tr_updated_at := now; tr_closed_at := tr_closed_at r
|}.

(** The record part of [StatusChanged]. *)
Definition set_state (r : TicketRecord) (new_state : TicketState) (now : N) : TicketRecord := {|
  tr_id := tr_id r; tr_title := tr_title r; tr_description := tr_description r;
  tr_state := new_state; tr_priority := tr_priority r;
  tr_client_peer_id := tr_client_peer_id r;
  tr_revision := wrapping_add_u64 (tr_revision r) 1;
  tr_created_at := tr_created_at r; tr_updated_at := now;
  tr_closed_at := if bool_decide (new_state = Closed) then Some now else tr_closed_at r
|}.

(** [iter_mut().find(|s| s.id == id)] and the two assignments to what it finds. *)
Fixpoint end_session (session_id : string) (ended_at : N) (res : option string)
    (l : list ShellSessionRecord) : option (list ShellSessionRecord) :=
  match l with
  | [] => None
  | s :: l =>
      if bool_decide (ss_id s = session_id) then
        Some ({| ss_id := ss_id s; ss_ticket_id := ss_ticket_id s;
                 ss_operator_peer_id := ss_operator_peer_id s;
                 ss_started_at := ss_started_at s; ss_ended_at := Some ended_at;
                 ss_transport := ss_transport s; ss_result := res |} :: l)
      else (s ::.) <$> end_session session_id ended_at res l
  end.

(** What a ticket event other than [Created] does to the aggregate it finds. *)
Definition update_aggregate (now : N) (event_id actor_peer_id : string) (te : TicketEvent)
    (a : TicketAggregate) : result ReducerError TicketAggregate :=
  let '(mkTicketAggregate r ms ats ss evs) := a in
  match te with
  | Created t _ _ _ _ => Err (TicketExists t)
  | StatusChanged t new_state _ reason =>
      if can_transition_to (tr_state r) new_state then
        Ok (mkTicketAggregate (set_state r new_state now) ms ats ss
             (evs ++ [{| er_id := event_id; er_ticket_id := t;
                         er_kind := "STATUS_CHANGED_TO_" +:+ TicketState_as_str new_state;
                         er_actor_peer_id := actor_peer_id;
                         er_timestamp := now; er_metadata := reason |}]))
      else Err (InvalidTransition t (tr_state r) new_state)
  | ChatMessageAdded t m sender body ts =>
      if existsb (λ x, bool_decide (cm_id x = m)) ms then Ok a else
      Ok (mkTicketAggregate (touch r now)
           (ms ++ [{| cm_id := m; cm_ticket_id := t; cm_sender_peer_id := sender;
                      cm_body := body; cm_created_at := ts; cm_delivery_state := "DELIVERED" |}])
           ats ss evs)
  | AttachmentAdded t i sender filename size sha path ts =>
      if existsb (λ x, bool_decide (ar_id x = i)) ats then Ok a else
      Ok (mkTicketAggregate (touch r now) ms
           (ats ++ [{| ar_id := i; ar_ticket_id := t; ar_sender_peer_id := sender;
                       ar_filename := filename; ar_size_bytes := size; ar_sha256 := sha;
                       ar_local_path := path; ar_created_at := ts; ar_state := "AVAILABLE" |}])
           ss evs)
  | ShellSessionStarted t i op transport started =>
      if existsb (λ x, bool_decide (ss_id x = i)) ss then Ok a else
      Ok (mkTicketAggregate (touch r now) ms ats
           (ss ++ [{| ss_id := i; ss_ticket_id := t; ss_operator_peer_id := op;
                      ss_started_at := started; ss_ended_at := None;
                      ss_transport := transport; ss_result := None |}])
           evs)
  | ShellSessionEnded t i ended res =>
      match end_session i ended res ss with
      | Some ss' => Ok (mkTicketAggregate (touch r now) ms ats ss' evs)
      | None => Ok a
      end
  | CustomAudit t i kind actor metadata ts =>
      if existsb (λ x, bool_decide (er_id x = i)) evs then Ok a else
      Ok (mkTicketAggregate (touch r now) ms ats ss
           (evs ++ [{| er_id := i; er_ticket_id := t; er_kind := kind;
                       er_actor_peer_id := actor; er_timestamp := ts;
                       er_metadata := metadata |}]))
  end.

Definition created_aggregate (now : N) (event_id actor_peer_id : string)
    (t title description : string) (priority : TicketPriority) (client : string)
    : TicketAggregate := {|
  agg_record := {|
    tr_id := t; tr_title := title; tr_description := description; tr_state := Open;
    tr_priority := priority; tr_client_peer_id := client; tr_revision := 1;
    tr_created_at := now; tr_updated_at := now; tr_closed_at := None |};
  agg_messages := []; agg_attachments := []; agg_shell_sessions := [];
  agg_events := [{| er_id := event_id; er_ticket_id := t; er_kind := "CREATED";
                    er_actor_peer_id := actor_peer_id; er_timestamp := now;
                    er_metadata := None |}]
|}.

Section reducer.
Context `{CC : Crypto, HX : Hex}.

Definition apply_event (s : TicketStateStore) (e : Event)
    : result ReducerError TicketStateStore :=
  match ev_payload e with
  | PCustom _ _ => Ok s
  | PTicket te =>
      let actor_peer_id := ObjectId_to_hex (PublicKey_derive_id (ev_author e)) in
      let event_id := ObjectId_to_hex (ev_id e) in
      let ticket_id := TicketEvent_ticket_id te in
      match te with
      | Created t title description priority client =>
          if bool_decide (is_Some (s !! t)) then Err (TicketExists t) else
          Ok (<[t := created_aggregate (ev_timestamp e) event_id actor_peer_id
          t title description priority client]> s)
      | _ =>
          match s !! ticket_id with
          | None => Err (TicketNotFound ticket_id)
          | Some a =>
              let? a' := update_aggregate (ev_timestamp e) event_id actor_peer_id te a in
              Ok (<[ticket_id := a']> s)
          end
      end
  end.

(** [let _ = Self::apply_event(…)]: a refused event is skipped. *)
Definition apply_or_skip (s : TicketStateStore) (e : Event) : TicketStateStore :=
  match apply_event s e with Ok s' => s' | Err _ => s end.

Definition reduce_events (es : list Event) : TicketStateStore :=
  foldl apply_or_skip TicketStateStore_new es.

Definition reduce (g : EventGraph) : TicketStateStore := reduce_events (topological_sort g).
End reducer.

(** ** Well-formed stores *)

(** What holds of the aggregate stored under [t]. *)
Record agg_inv (t : string) (a : TicketAggregate) : Prop := {
  ai_id : tr_id (agg_record a) = t;
  ai_messages : Forall (λ m, cm_ticket_id m = t) (agg_messages a);
  ai_messages_nodup : NoDup (cm_id <$> agg_messages a);
  ai_attachments : Forall (λ x, ar_ticket_id x = t) (agg_attachments a);
  ai_attachments_nodup : NoDup (ar_id <$> agg_attachments a);
  ai_sessions : Forall (λ x, ss_ticket_id x = t ∧ (ss_ended_at x = None → ss_result x = None))
    (agg_shell_sessions a);
  ai_sessions_nodup : NoDup (ss_id <$> agg_shell_sessions a);
  ai_audit : Forall (λ x, er_ticket_id x = t) (agg_events a);
  ai_first : ∃ x l, agg_events a = x :: l ∧ er_kind x = "CREATED" ∧
    er_timestamp x = tr_created_at (agg_record a);
  ai_closed : is_Some (tr_closed_at (agg_record a)) ↔ tr_state (agg_record a) = Closed
}.

Definition store_inv (s : TicketStateStore) : Prop := map_Forall agg_inv s.

(** One step of the life of a ticket: what was said stays said. *)
Record agg_step (a b : TicketAggregate) : Prop := {
  as_id : tr_id (agg_record b) = tr_id (agg_record a);
  as_title : tr_title (agg_record b) = tr_title (agg_record a);
  as_description : tr_description (agg_record b) = tr_description (agg_record a);
  as_priority : tr_priority (agg_record b) = tr_priority (agg_record a);
  as_client : tr_client_peer_id (agg_record b) = tr_client_peer_id (agg_record a);
  as_created : tr_created_at (agg_record b) = tr_created_at (agg_record a);
  as_state : lifecycle_step (tr_state (agg_record a)) (tr_state (agg_record b));
  as_messages : agg_messages a `prefix_of` agg_messages b;
  as_attachments : agg_attachments a `prefix_of` agg_attachments b;
  as_sessions : (ss_id <$> agg_shell_sessions a) `prefix_of` (ss_id <$> agg_shell_sessions b);
  as_events : agg_events a `prefix_of` agg_events b
}.

Lemma agg_step_refl a : agg_step a a.
Proof. split; try done. apply can_transition_refl. Qed.

Lemma existsb_id_false {A} (f : A → string) i l :
  existsb (λ x, bool_decide (f x = i)) l = false → i ∉ f <$> l.
Proof.
  intros H (x & -> & Hx)%list_elem_of_fmap. apply not_true_iff_false in H. apply H.
  apply existsb_exists. exists x. split; [by apply list_elem_of_In|by apply bool_decide_eq_true].
Qed.

Lemma existsb_id_true {A} (f : A → string) i l :
  existsb (λ x, bool_decide (f x = i)) l = true ↔ i ∈ f <$> l.
Proof.
  rewrite existsb_exists, list_elem_of_fmap. split.
  - intros (x & Hx & E%bool_decide_eq_true). exists x. by rewrite list_elem_of_In.
  - intros (x & -> & Hx). exists x. rewrite <- list_elem_of_In, bool_decide_eq_true. done.
Qed.

Lemma NoDup_snoc {A} (x : A) l : NoDup l → x ∉ l → NoDup (l ++ [x]).
Proof.
  intros Hl Hx. apply NoDup_app. split; [done|]. split; [|apply NoDup_singleton].
  intros y Hy ->%list_elem_of_singleton. done.
Qed.

Lemma end_session_spec i ended res l l' :
  end_session i ended res l = Some l' →
  (ss_id <$> l') = (ss_id <$> l) ∧
  ∀ P : ShellSessionRecord → Prop, Forall P l →
    (∀ s s', P s → ss_ticket_id s' = ss_ticket_id s → ss_ended_at s' = Some ended → P s') →
    Forall P l'.
Proof.
  revert l'. induction l as [|s l IH]; intros l'; simpl; [done|].
  case_bool_decide as E.
  - intros [= <-]. split; [done|]. intros P [Hs Hl]%Forall_cons HP.
    constructor; [|done]. by eapply HP.
  - destruct (end_session i ended res l) as [k|]; simpl; [|done]. intros [= <-].
    destruct (IH k eq_refl) as [H1 H2]. split; [by rewrite !fmap_cons, H1|].
    intros P [Hs Hl]%Forall_cons HP. constructor; eauto.
Qed.

Lemma end_session_none i ended res l :
  end_session i ended res l = None ↔ i ∉ ss_id <$> l.
Proof.
  induction l as [|s l IH]; simpl; [set_solver|]. case_bool_decide as E.
  - set_solver.
  - destruct (end_session i ended res l); simpl; set_solver.
Qed.

Lemma prefix_snoc {A} (l k : list A) : l `prefix_of` (l ++ k)%list.
Proof. by exists k. Qed.

Lemma prefix_refl {A} (l : list A) : l `prefix_of` l.
Proof. done. Qed.

Create HintDb reducer.
#[export] Hint Resolve agg_step_refl can_transition_refl prefix_snoc prefix_refl : reducer.
#[export] Hint Unfold lifecycle_step : reducer.

Lemma created_aggregate_inv now i actor t title d p c :
  agg_inv t (created_aggregate now i actor t title d p c).
Proof.
  split; simpl; try done; try (by repeat constructor).
  by eexists _, _.
Qed.

Lemma update_aggregate_inv now i actor te a a' :
  let t := TicketEvent_ticket_id te in
  agg_inv t a → update_aggregate now i actor te a = Ok a' → agg_inv t a'.
Proof.
  destruct a as [r ms ats ss evs]. intros t [H1 H2 H3 H4 H5 H6 H7 H8 (x&l&H9&Hk&Ht) H10].
  simpl in *. subst evs. destruct te; simpl in *; try done.
  - destruct (can_transition_to _ _) eqn:Htr; [|done]. intros [= <-]. split; simpl; try done.
    + apply (Forall_app_2 _ (x :: l)); [done|by repeat constructor].
    + by eexists x, _.
    + case_bool_decide as E; [by split; eauto|]. rewrite H10.
      split; [|by intros ->]. intros Hc. rewrite Hc in Htr. by apply closed_only_to_closed in Htr.
  - destruct (existsb _ _) eqn:Hx; intros [= <-]; split; simpl; try done; try (by exists x, l).
    + apply Forall_app_2; [done|by repeat constructor].
    + rewrite fmap_app. apply NoDup_snoc; [done|by apply existsb_id_false].
  - destruct (existsb _ _) eqn:Hx; intros [= <-]; split; simpl; try done; try (by exists x, l).
    + apply Forall_app_2; [done|by repeat constructor].
    + rewrite fmap_app. apply NoDup_snoc; [done|by apply existsb_id_false].
  - destruct (existsb _ _) eqn:Hx; intros [= <-]; split; simpl; try done; try (by exists x, l).
    + apply Forall_app_2; [done|by repeat constructor].
    + rewrite fmap_app. apply NoDup_snoc; [done|by apply existsb_id_false].
  - destruct (end_session _ _ _ _) as [k|] eqn:Hx; intros [= <-]; split; simpl; try done;
      try (by exists x, l); apply end_session_spec in Hx as [E HF].
    + apply HF; [done|]. intros s s' [Hs _] -> ->. done.
    + by rewrite E.
  - destruct (_ || _) eqn:Hx; intros [= <-]; split; simpl; try done; try (by exists x, l).
    + apply (Forall_app_2 _ (x :: l)); [done|by repeat constructor].
    + by eexists x, _.
Qed.

Lemma update_aggregate_step now i actor te a a' :
  update_aggregate now i actor te a = Ok a' → agg_step a a'.
Proof.
  destruct a as [r ms ats ss evs]. destruct te; simpl; try done.
  - destruct (can_transition_to _ _) eqn:Htr; [|done]. intros [= <-].
    split; simpl; auto with reducer.
  - case_match; intros [= <-]; [auto with reducer|]. split; simpl; auto with reducer.
  - case_match; intros [= <-]; [auto with reducer|]. split; simpl; auto with reducer.
  - case_match; intros [= <-]; [auto with reducer|]. split; simpl; auto with reducer.
    rewrite fmap_app. auto with reducer.
  - case_match eqn:Hx; intros [= <-]; [|auto with reducer]. split; simpl; auto with reducer.
    apply end_session_spec in Hx as [-> _]. done.
  - case_match; intros [= <-]; [auto with reducer|]. split; simpl; auto with reducer.
Qed.

Section reducer_lemmas.
Context `{CC : Crypto, HX : Hex}.

Definition event_actor (e : Event) : string :=
  ObjectId_to_hex (PublicKey_derive_id (ev_author e)).

(** The effect of an event on the aggregate of its ticket. *)
Definition transform (e : Event) (oa : option TicketAggregate)
    : result ReducerError (option TicketAggregate) :=
  match ev_payload e, oa with
  | PCustom _ _, _ => Ok oa
  | PTicket (Created t title description priority client), None =>
      Ok (Some (created_aggregate (ev_timestamp e) (ObjectId_to_hex (ev_id e)) (event_actor e)
      t title description priority client))
  | PTicket (Created t _ _ _ _), Some _ => Err (TicketExists t)
  | PTicket te, None => Err (TicketNotFound (TicketEvent_ticket_id te))
  | PTicket te, Some a =>
      let? a' := update_aggregate (ev_timestamp e) (ObjectId_to_hex (ev_id e)) (event_actor e) te a in
      Ok (Some a')
  end.

#[local] Arguments update_aggregate : simpl never.

(** [apply_event] acts on one ticket only. *)
Lemma apply_event_transform s e t :
  Event_ticket_id e = Some t →
  apply_event s e = (let? oa := transform e (s !! t) in
                   match oa with Some a => Ok (<[t := a]> s) | None => Ok s end).
Proof.
  unfold apply_event, transform, Event_ticket_id. destruct (ev_payload e) as [te|]; [|done].
  intros [= <-]. destruct te; simpl; destruct (s !! _) as [a|] eqn:Ha; simpl; try done;
    try (rewrite bool_decide_eq_true_2 by eauto; done);
    try (rewrite bool_decide_eq_false_2 by (rewrite ?Ha; by intros [? [=]]); done);
    by destruct (update_aggregate _ _ _ _ _).
Qed.

Lemma apply_event_other s e : Event_ticket_id e = None → apply_event s e = Ok s.
Proof. unfold apply_event, Event_ticket_id. by destruct (ev_payload e). Qed.

Lemma transform_step e t a oa :
  Event_ticket_id e = Some t → transform e (Some a) = Ok oa → ∃ a', oa = Some a' ∧ agg_step a a'.
Proof.
  unfold transform, Event_ticket_id. destruct (ev_payload e) as [te|]; [|done]. intros [= Ht].
  destruct te; simpl; try done;
    (destruct (update_aggregate _ _ _ _ _) as [a'|] eqn:Hu; [|done]);
    intros [= <-]; exists a'; split; try done; by eapply update_aggregate_step.
Qed.

Lemma transform_inv e t oa a' :
  Event_ticket_id e = Some t → (∀ a, oa = Some a → agg_inv t a) →
  transform e oa = Ok (Some a') → agg_inv t a'.
Proof.
  unfold transform, Event_ticket_id. destruct (ev_payload e) as [te|]; [|done]. intros [= <-] Hoa.
  destruct oa as [a|]; [specialize (Hoa a eq_refl)|];
    destruct te; try done; cbn -[update_aggregate];
    try (destruct (update_aggregate _ _ _ _ _) as [b|] eqn:Hu; [|done]; intros [= <-];
    eapply (update_aggregate_inv _ _ _ _ _ _ Hoa Hu)).
  intros [= <-]. apply created_aggregate_inv.
Qed.

Lemma apply_event_Ok s e s' t :
  Event_ticket_id e = Some t → apply_event s e = Ok s' →
  ∃ a, transform e (s !! t) = Ok (Some a) ∧ s' = <[t := a]> s.
Proof.
  intros Ht. rewrite (apply_event_transform _ _ _ Ht).
  destruct (transform e (s !! t)) as [[a|]|] eqn:E; simpl; [naive_solver| |done].
  exfalso. destruct (s !! t) as [a|] eqn:Ha.
  - destruct (transform_step _ _ _ _ Ht E) as (? & ? & _). done.
  - unfold transform, Event_ticket_id in *. destruct (ev_payload e) as [[]|]; done.
Qed.

Lemma apply_event_inv s e s' : store_inv s → apply_event s e = Ok s' → store_inv s'.
Proof.
  intros Hs H. destruct (Event_ticket_id e) as [t|] eqn:Ht.
  - destruct (apply_event_Ok _ _ _ _ Ht H) as (a & Ha & ->).
    apply map_Forall_insert_2; [|done]. eapply transform_inv; [done| |done].
    intros b Hb. by apply Hs.
  - rewrite apply_event_other in H by done. by simplify_eq.
Qed.

Lemma apply_or_skip_inv s e : store_inv s → store_inv (apply_or_skip s e).
Proof.
  intros Hs. unfold apply_or_skip. destruct (apply_event s e) eqn:E; [|done].
  by eapply apply_event_inv.
Qed.

Lemma reduce_events_inv es : store_inv (reduce_events es).
Proof.
  unfold reduce_events. assert (store_inv TicketStateStore_new) as H by apply map_Forall_empty.
  revert H. generalize TicketStateStore_new as s.
  induction es as [|e es IH]; intros s Hs; simpl; [done|]. apply IH. by apply apply_or_skip_inv.
Qed.

(** [apply_or_skip] as an update at one key. *)
Lemma apply_or_skip_lookup s e k :
  apply_or_skip s e !! k =
  if decide (Event_ticket_id e = Some k) then
    match transform e (s !! k) with Ok oa => oa | Err _ => s !! k end
  else s !! k.
Proof.
  unfold apply_or_skip. destruct (Event_ticket_id e) as [t|] eqn:Ht.
  - rewrite (apply_event_transform _ _ _ Ht).
    destruct (decide (Some t = Some k)) as [[= ->]|Hne].
    + destruct (transform e (s !! k)) as [[a|]|] eqn:E; simpl; [by rewrite lookup_insert_eq| |done].
      destruct (s !! k) as [a|] eqn:Ha; [|done].
      destruct (transform_step _ _ _ _ Ht E) as (? & ? & _). done.
    + destruct (transform e (s !! t)) as [[a|]|]; simpl; [|done..].
      rewrite lookup_insert_ne; congruence.
  - rewrite apply_event_other by done. done.
Qed.

(** Events of different tickets commute. *)
Lemma apply_or_skip_comm s e1 e2 :
  Event_ticket_id e1 ≠ Event_ticket_id e2 →
  apply_or_skip (apply_or_skip s e1) e2 = apply_or_skip (apply_or_skip s e2) e1.
Proof.
  intros Hne. apply map_eq. intros k. rewrite !apply_or_skip_lookup.
  repeat case_decide; congruence.
Qed.

Lemma reduce_events_snoc es e : reduce_events (es ++ [e])%list = apply_or_skip (reduce_events es) e.
Proof. unfold reduce_events. by rewrite foldl_app. Qed.
End reducer_lemmas.

(** Inserting an event above every known one appends it to the order. *)
Lemma topological_sort_snoc g e g' :
  graph_inv g → no_self_parent e → graph_insert g e = Ok g' → g_events g !! ev_id e = None →
  (∀ x, in_graph g x → event_lt x e) →
  topological_sort g' = (topological_sort g ++ [e])%list.
Proof.
  intros Hg Hself Hins Hnew Habove.
  assert (graph_inv g') as Hg' by (by eapply graph_insert_inv).
  destruct (graph_insert_Ok_new _ _ _ Hnew Hins) as (HE & _ & _).
  apply topological_sort_eq; [done| |].
  - apply StronglySorted_app_2; [|by apply topological_sort_sorted|repeat constructor].
    intros x y Hx Hy%list_elem_of_singleton. subst y. apply Habove.
    rewrite topological_sort_perm in Hx by done. by apply elem_of_graph_values.
  - rewrite topological_sort_perm by done. apply NoDup_Permutation.
    + apply NoDup_snoc; [by apply NoDup_graph_values|].
      rewrite elem_of_graph_values by done. unfold in_graph. by rewrite Hnew.
    + by apply NoDup_graph_values.
    + intros x. rewrite elem_of_app, list_elem_of_singleton, !elem_of_graph_values by done.
      unfold in_graph. rewrite HE, lookup_insert_Some. split; [|naive_solver].
      intros [Hx| ->]; [|by left]. right. split; [congruence|done].
Qed.

(** ** Sorting the tickets *)

#[export] Instance listing_key_cmp_ord : OrdCmp listing_key_cmp.
Proof.
  assert (OrdCmp (λ a b : N, (b ?= a)%N)) as Hrev.
  { split.
    - intros a b. rewrite N.compare_eq_iff. done.
    - intros a b. apply N.compare_antisym.
    - intros a b c. rewrite !N.compare_lt_iff. lia. }
  refine (then_with_ord fst snd (λ a b : N, (b ?= a)%N) str_cmp _).
  intros [] []; simpl; congruence.
Qed.

Lemma elem_of_ticket_values s a : a ∈ ticket_values s ↔ ∃ t, s !! t = Some a.
Proof.
  unfold ticket_values. rewrite list_elem_of_fmap. split.
  - intros ([t x] & -> & H%elem_of_map_to_list). eauto.
  - intros [t H]. exists (t, a). by rewrite elem_of_map_to_list.
Qed.

Lemma elem_of_list_tickets s f r :
  r ∈ list_tickets s f ↔ ∃ t a, s !! t = Some a ∧ agg_record a = r ∧ matches_filter f r = true.
Proof.
  unfold list_tickets, sort_by. rewrite merge_sort_Permutation, list_elem_of_In, filter_In, <- list_elem_of_In.
  rewrite list_elem_of_fmap. setoid_rewrite elem_of_ticket_values. naive_solver.
Qed.

Lemma listing_sorted s f : StronglySorted (cmp_le listing_cmp) (list_tickets s f).
Proof. apply (key_sort_sorted listing_key listing_key_cmp). Qed.

Lemma NoDup_listed s f : store_inv s → NoDup (tr_id <$> list_tickets s f).
Proof.
  intros Hs. unfold list_tickets, sort_by. rewrite merge_sort_Permutation.
  assert (NoDup (tr_id <$> (agg_record <$> ticket_values s))) as Hn.
  { unfold ticket_values. rewrite <- !list_fmap_compose.
    rewrite (list_fmap_ext _ fst); [apply NoDup_fst_map_to_list|].
    intros k [t x] Hx. apply list_elem_of_lookup_2, elem_of_map_to_list in Hx. simpl.
    by apply (ai_id t x (Hs t x Hx)). }
  revert Hn. generalize (agg_record <$> ticket_values s) as l. clear.
  induction l as [|r l IH]; simpl; [done|]. intros [Hr Hl]%NoDup_cons.
  destruct (matches_filter f r); simpl; [|by apply IH]. constructor; [|by apply IH].
  intros (x & Hx & Hin)%list_elem_of_fmap. apply Hr. rewrite Hx.
  apply list_elem_of_fmap_2. apply list_elem_of_In, filter_In in Hin as [Hin _].
  by apply list_elem_of_In.
Qed.

Lemma find_split {A} (f : A → bool) l x :
  List.find f l = Some x →
  ∃ l1 l2, l = (l1 ++ x :: l2)%list ∧ f x = true ∧ Forall (λ y, f y = false) l1.
Proof.
  induction l as [|y l IH]; simpl; [done|]. destruct (f y) eqn:Hy.
  - intros [= <-]. by exists [], l.
  - intros (l1&l2&->&?&?)%IH. exists (y :: l1), l2. auto.
Qed.

Lemma listing_le_updated a b : cmp_le listing_cmp a b → (tr_updated_at b ≤ tr_updated_at a)%N.
Proof.
  unfold cmp_le, listing_cmp, listing_key_cmp, listing_key; simpl.
  destruct (N.compare_spec (tr_updated_at b) (tr_updated_at a)); simpl; try done; lia.
Qed.

(** ** Properties *)

(** A history of one ticket, for the witnesses. *)
Definition ticket_event (n : N) (parents : list N) (ts lamport : N) (t : TicketEvent) : Event :=
  mkEvent (toy_id n) (toy_id <$> parents) (mkPublicKey (toy_seed 7)) ts lamport (PTicket t).

Definition sample_history : list Event :=
  [ticket_event 1 [] 10 1 (Created "t" "title" "text" High "peer");
   ticket_event 2 [1] 20 2 (ChatMessageAdded "t" "m1" "peer" "hello" 20);
   ticket_event 3 [2] 30 3 (ShellSessionStarted "t" "s1" "op" "direct" 30);
   ticket_event 4 [3] 40 4 (ShellSessionEnded "t" "s1" 40 (Some "ok"));
   ticket_event 5 [4] 50 5 (StatusChanged "t" Closed "op" None)].

Lemma sample_history_consistent : consistent_events sample_history.
Proof. apply consistent_events_dec. vm_compute. reflexivity. Qed.

Definition sample_store : TicketStateStore := reduce_events (take 4 sample_history).
Definition sample_close : Event :=
  ticket_event 5 [4] 50 5 (StatusChanged "t" Closed "op" None).

(** C11. Every store the reducer builds is well formed, and [apply_event] keeps it
    so: a ticket is stored under its own id, its messages, attachments, sessions
    and audit records name it, ids within it are distinct, its audit trail starts
    with its creation, a session has a result only once ended, and it has a
    closing time exactly when it is closed. *)
Theorem apply_event_preserves_store `{Crypto, Hex} s e s' :
  store_inv s → apply_event s e = Ok s' →
  store_inv s' ∧ (∀ g, store_inv (reduce g)).
Proof.
  intros Hs He. split; [by eapply apply_event_inv|]. intros g. apply reduce_events_inv.
Qed.

Lemma apply_event_preserves_store_witness :
  apply_event sample_store sample_close = Ok (apply_or_skip sample_store sample_close) ∧
  store_inv (apply_or_skip sample_store sample_close).
Proof.
  assert (apply_event sample_store sample_close = Ok (apply_or_skip sample_store sample_close)) as E
    by (vm_compute; reflexivity).
  split; [exact E|].
  exact (proj1 (apply_event_preserves_store _ _ _ (reduce_events_inv _) E)).
Defined.

(** History only grows: an accepted event touches at most the ticket it
    names; that ticket either comes into being, or keeps its id, title,
    description, priority, client and creation time, moves along the lifecycle,
    and keeps every message, attachment, session and audit record it had, in
    order. No ticket ever disappears. *)
Theorem apply_event_monotone `{Crypto, Hex} s e s' :
  apply_event s e = Ok s' →
  ∀ t, match s !! t, s' !! t with
       | Some a, Some b => agg_step a b ∧ (a ≠ b → Event_ticket_id e = Some t)
       | Some _, None => False
       | None, Some b =>
           ∃ title description priority client,
             ev_payload e = PTicket (Created t title description priority client) ∧
             b = created_aggregate (ev_timestamp e) (ObjectId_to_hex (ev_id e)) (event_actor e)
                   t title description priority client
       | None, None => True
       end.
Proof.
  intros Hok t. assert (s' = apply_or_skip s e) as -> by (unfold apply_or_skip; by rewrite Hok).
  rewrite apply_or_skip_lookup. case_decide as Ht.
  - destruct (apply_event_Ok _ _ _ _ Ht Hok) as (b & Hb & _). rewrite Hb.
    destruct (s !! t) as [a|] eqn:Ha.
    + destruct (transform_step _ _ _ _ Ht Hb) as (b' & [= <-] & Hst). done.
    + unfold transform, Event_ticket_id in *. destruct (ev_payload e) as [[]|]; try done.
      injection Ht as <-. injection Hb as <-. eauto 10.
  - destruct (s !! t); [|done]. split; [apply agg_step_refl|done].
Qed.

Lemma apply_event_monotone_witness :
  match sample_store !! "t", apply_or_skip sample_store sample_close !! "t" with
  | Some a, Some b => agg_step a b
  | _, _ => False
  end.
Proof.
  assert (apply_event sample_store sample_close = Ok (apply_or_skip sample_store sample_close)) as E
    by (vm_compute; reflexivity).
  pose proof (apply_event_monotone _ _ _ E "t") as M.
  assert (is_Some (sample_store !! "t")) as [a Ha] by (vm_compute; eauto).
  rewrite Ha in *. destruct (apply_or_skip _ _ !! "t"); [exact (proj1 M)|exact M].
Defined.

(** The errors of [apply_event], exactly: creating a ticket that exists, any
    other ticket event for a ticket that does not, and a status change outside the
    lifecycle; everything else, custom payloads included, is accepted. *)
Theorem apply_event_errors `{Crypto, Hex} s e err :
  apply_event s e = Err err ↔
  ∃ te, ev_payload e = PTicket te ∧
    ((∃ t ti de pr cl, te = Created t ti de pr cl ∧ is_Some (s !! t) ∧ err = TicketExists t) ∨
     ((∀ t ti de pr cl, te ≠ Created t ti de pr cl) ∧ s !! TicketEvent_ticket_id te = None ∧
      err = TicketNotFound (TicketEvent_ticket_id te)) ∨
     (∃ t st ac re a, te = StatusChanged t st ac re ∧ s !! t = Some a ∧
        can_transition_to (tr_state (agg_record a)) st = false ∧
        err = InvalidTransition t (tr_state (agg_record a)) st)).
Proof.
  destruct (ev_payload e) as [te|] eqn:Hp.
  2:{ unfold apply_event. rewrite Hp. naive_solver. }
  assert (Event_ticket_id e = Some (TicketEvent_ticket_id te)) as Ht
    by (unfold Event_ticket_id; by rewrite Hp).
  rewrite (apply_event_transform _ _ _ Ht). unfold transform. rewrite Hp.
  split.
  - destruct (s !! _) as [[r ms ats ss evs]|] eqn:Ha; intros Herr; exists te; (split; [done|]).
    + destruct te; simpl in Herr; try (by repeat case_match; simplify_eq/=).
      * left. simplify_eq. eauto 10.
      * right; right. destruct (can_transition_to _ _) eqn:Htr; simplify_eq/=. eauto 10.
    + destruct te; simpl in Herr; simplify_eq; try (right; left; split; [done|split; done]).
  - intros (te' & [= <-] & [(t&ti&de&pr&cl&->&[a Ha]&->)|[(Hno&Ha&->)|(t&st&ac&re&a&->&Ha&Htr&->)]]).
    + simpl. by rewrite Ha.
    + rewrite Ha. destruct te; try done. by edestruct Hno.
    + simpl. rewrite Ha. destruct a; simpl in *. by rewrite Htr.
Qed.

Definition is_redeliverable (e : Event) : bool :=
  match ev_payload e with
  | PTicket (StatusChanged _ _ _ _ | ShellSessionEnded _ _ _ _) => false
  | _ => true
  end.

Lemma update_aggregate_again now i actor te a a' :
  (match te with StatusChanged _ _ _ _ | ShellSessionEnded _ _ _ _ => false | _ => true end) = true →
  update_aggregate now i actor te a = Ok a' → update_aggregate now i actor te a' = Ok a'.
Proof.
  destruct a as [r ms ats ss evs]. destruct te; simpl; try done; intros _;
    (case_match eqn:Hx; intros [= <-]; simpl; [by rewrite Hx|]);
    rewrite existsb_app; simpl; by rewrite bool_decide_eq_true_2, ?orb_true_r by done.
Qed.

(** Redelivery is harmless: an event that creates a ticket or adds a message,
    an attachment, a session or a custom audit record changes the store at most
    once, whatever store it is applied to. *)
Theorem redelivery_idempotent `{Crypto, Hex} s e :
  is_redeliverable e = true →
  apply_or_skip (apply_or_skip s e) e = apply_or_skip s e.
Proof.
  intros Hr. apply map_eq. intros k. rewrite !apply_or_skip_lookup.
  case_decide as Hk; [|done]. unfold transform, is_redeliverable in *.
  destruct (ev_payload e) as [te|] eqn:Hp; [|done].
  destruct (s !! k) as [a|].
  - destruct te; try done; simpl; try done;
      match goal with |- context [update_aggregate ?n ?i ?c ?t ?a] =>
      destruct (update_aggregate n i c t a) as [a'|] eqn:Hu end; simpl;
      try (by rewrite Hu); by (apply update_aggregate_again in Hu; [rewrite Hu|]).
  - by destruct te.
Qed.

Lemma redelivery_idempotent_witness :
  is_redeliverable (ticket_event 2 [1] 20 2 (ChatMessageAdded "t" "m1" "peer" "hello" 20)) = true ∧
  apply_or_skip (apply_or_skip sample_store (ticket_event 2 [1] 20 2 (ChatMessageAdded "t" "m1" "peer" "hello" 20)))
    (ticket_event 2 [1] 20 2 (ChatMessageAdded "t" "m1" "peer" "hello" 20))
  = apply_or_skip sample_store (ticket_event 2 [1] 20 2 (ChatMessageAdded "t" "m1" "peer" "hello" 20)).
Proof. split; [reflexivity|]. apply redelivery_idempotent. reflexivity. Defined.

(** C3. Convergence of the state: replicas that received the same consistent
    events in any order reduce to the same tickets; and between two such replicas
    the reduction is that of the events in key order. *)
Theorem reduce_converges `{Crypto, Hex} es es' :
  consistent_events es → es ≡ₚ es' →
  reduce (graph_of es) = reduce (graph_of es') ∧
  reduce (graph_of es) = reduce_events (sort_by event_cmp (remove_dups es)).
Proof.
  intros Hc Hp. pose proof (consistent_events_perm _ _ Hp Hc) as Hc'.
  destruct (graph_of_spec es Hc) as [H1 H1'], (graph_of_spec es' Hc') as [H2 _].
  unfold reduce. split.
  - f_equal. apply topological_sort_ext; [done..|]. by apply graph_of_events_ext.
  - rewrite topological_sort_is_sort by done. f_equal.
    apply (key_sort_unique event_key key_cmp).
    + intros x y Hx Hy Hk. rewrite elem_of_remove_dups in Hx, Hy.
      apply (ce_ids es Hc); [done..|by apply event_key_id].
    + apply (key_sort_sorted event_key key_cmp).
    + unfold sort_by. rewrite merge_sort_Permutation. apply NoDup_Permutation.
      * by apply NoDup_graph_values.
      * apply NoDup_remove_dups.
      * intros e. rewrite elem_of_graph_values, elem_of_remove_dups by done. apply H1'.
Qed.

Lemma reduce_converges_witness :
  consistent_events sample_history ∧
  reduce (graph_of sample_history) = reduce (graph_of (reverse sample_history)).
Proof.
  split; [exact sample_history_consistent|].
  refine (proj1 (reduce_converges _ _ sample_history_consistent _)).
  symmetry. apply reverse_Permutation.
Defined.

(** Incremental application agrees with full reduction: an event whose key is
    above every known event's, as the engine's clock makes local ones, updates the
    reduced state by one [apply_event]; and events about different tickets may be
    applied in either order. *)
Theorem reduce_incremental `{Crypto, Hex} g e g' :
  graph_inv g → no_self_parent e → g_events g !! ev_id e = None →
  (∀ x, in_graph g x → ev_lamport x < ev_lamport e)%N →
  graph_insert g e = Ok g' →
  reduce g' = apply_or_skip (reduce g) e ∧
  (∀ s e', Event_ticket_id e' ≠ Event_ticket_id e →
     apply_or_skip (apply_or_skip s e) e' = apply_or_skip (apply_or_skip s e') e).
Proof.
  intros Hg Hs Hn Hl Hi. split.
  - unfold reduce. erewrite topological_sort_snoc; [apply reduce_events_snoc|done..|].
    intros x Hx. by apply event_lt_lamport, Hl.
  - intros s e' Hne. by apply apply_or_skip_comm.
Qed.

Lemma reduce_incremental_witness :
  reduce (graph_deliver (graph_of (take 4 sample_history)) sample_close) =
    apply_or_skip (reduce (graph_of (take 4 sample_history))) sample_close.
Proof.
  assert (consistent_events (take 4 sample_history)) as Hc
    by (apply consistent_events_dec; vm_compute; reflexivity).
  destruct (graph_of_spec _ Hc) as [Hg Hin].
  refine (proj1 (reduce_incremental (graph_of (take 4 sample_history)) sample_close
    _ Hg _ _ _ _)).
  - apply not_listed. vm_compute. reflexivity.
  - vm_compute. reflexivity.
  - intros x Hx. apply Hin in Hx. change (x ∈ take 4 sample_history) in Hx.
    simpl in Hx. rewrite !elem_of_cons, elem_of_nil in Hx.
    destruct Hx as [-> | [-> | [-> | [-> | []]]]]; reflexivity.
  - apply graph_deliver_ok. vm_compute. reflexivity.
Defined.

(** [list_tickets] on a well-formed store returns the records that match the
    filter, each ticket once, most recently updated first and by id among equals,
    whatever order the hash map yields them in; [get_active_ticket] is the first
    of them that permits work, so no workable ticket was updated later. *)
Theorem list_tickets_correct s f :
  store_inv s →
  (∀ r, r ∈ list_tickets s f ↔ get_ticket s (tr_id r) = Some r ∧ matches_filter f r = true) ∧
  NoDup (tr_id <$> list_tickets s f) ∧
  StronglySorted (cmp_le listing_cmp) (list_tickets s f) ∧
  match get_active_ticket s with
  | Some r => get_ticket s (tr_id r) = Some r ∧ permits_work (tr_state r) = true ∧
      ∀ t x, get_ticket s t = Some x → permits_work (tr_state x) = true →
        (tr_updated_at x ≤ tr_updated_at r)%N
  | None => ∀ t x, get_ticket s t = Some x → permits_work (tr_state x) = false
  end.
Proof.
  intros Hs.
  assert (∀ t r, get_ticket s t = Some r ↔ ∃ a, s !! t = Some a ∧ agg_record a = r) as Hget.
  { intros t r. unfold get_ticket. rewrite fmap_Some. naive_solver. }
  assert (∀ f r, r ∈ list_tickets s f ↔ get_ticket s (tr_id r) = Some r ∧ matches_filter f r = true) as Hel.
  { intros f' r. rewrite elem_of_list_tickets, Hget. split.
    - intros (t & a & Ha & <- & Hf). split; [|done]. exists a.
      pose proof (ai_id _ _ (Hs t a Ha)) as E. by rewrite E.
    - naive_solver. }
  split; [apply Hel|]. split; [by apply NoDup_listed|]. split; [apply listing_sorted|].
  assert (∀ t x, get_ticket s t = Some x → x ∈ list_tickets s None) as Hall.
  { intros t x Hx. apply Hel. split; [|done]. apply Hget in Hx as (a & Ha & <-).
    apply Hget. exists a. pose proof (ai_id _ _ (Hs t a Ha)) as E. by rewrite E. }
  unfold get_active_ticket. destruct (List.find _ _) as [r|] eqn:Hf.
  - apply find_split in Hf as (l1 & l2 & El & Hr & Hl1).
    split; [apply (Hel None); rewrite El; set_solver|]. split; [done|].
    intros t x Hx Hw. apply Hall in Hx. pose proof (listing_sorted s None) as Hsort.
    rewrite El in Hx, Hsort. apply elem_of_app in Hx as [Hx|Hx].
    + rewrite Forall_forall in Hl1. by rewrite (Hl1 x Hx) in Hw.
    + apply StronglySorted_app in Hsort as (_ & _ & Hsort).
      apply StronglySorted_cons in Hsort as [Hlt _]. rewrite Forall_forall in Hlt.
      apply elem_of_cons in Hx as [->|Hx]; [done|]. by apply listing_le_updated, Hlt.
  - intros t x Hx. apply Hall, list_elem_of_In in Hx. by apply (List.find_none _ _ Hf).
Qed.

Lemma list_tickets_correct_witness :
  store_inv sample_store ∧ NoDup (tr_id <$> list_tickets sample_store None).
Proof.
  assert (store_inv sample_store) as Hs by apply reduce_events_inv.
  split; [exact Hs|]. exact (proj1 (proj2 (list_tickets_correct _ None Hs))).
Defined.
