(* ===== verification/Authority.v ===== *)
(** Operator authority ([crates/fortiq-core/src/authority/{policy,workspace}.rs]):
    capability bits, session certificates, the genesis record, session proofs,
    the authorization policy and the operator's in-memory workspace. *)

From S2P Require Import Prelude Text Object Concrete Ticket.

Definition OPERATOR_PROOF_DOMAIN : bytes := as_bytes "FORTIQ-OPERATOR-PROOF-V5".
Definition OPERATOR_CERT_DOMAIN : bytes := as_bytes "FORTIQ-OPERATOR-CERT-V5".
Definition GENESIS_SIG_DOMAIN : bytes := as_bytes "FORTIQ-GENESIS-V5".
Definition GENESIS_ID_DOMAIN : bytes := as_bytes "FORTIQ-GENESIS-ID-V5".

(** ** Capabilities *)

Record OperatorCapabilities := mkCaps { caps : N }.

#[export] Instance OperatorCapabilities_eq_dec : EqDecision OperatorCapabilities.
Proof. solve_decision. Defined.

Definition CAP_NONE : N := 0.
Definition CAP_READ : N := N.shiftl 1 0.
Definition CAP_WRITE : N := N.shiftl 1 1.
Definition CAP_SHELL_EXEC : N := N.shiftl 1 2.
Definition CAP_FILE_TRANSFER : N := N.shiftl 1 3.
Definition CAP_TICKET_MANAGE : N := N.shiftl 1 4.
Definition CAP_DIAGNOSTICS : N := N.shiftl 1 5.
Definition CAP_TICKET_READ : N := CAP_READ.
Definition CAP_ADMIN : N :=
  N.lor (N.lor (N.lor (N.lor (N.lor CAP_READ CAP_WRITE) CAP_SHELL_EXEC) CAP_FILE_TRANSFER)
    CAP_TICKET_MANAGE) CAP_DIAGNOSTICS.
Definition CAP_ALL : N := CAP_ADMIN.

Definition Capabilities_has (c : OperatorCapabilities) (required : N) : bool :=
  N.land (caps c) required =? required.

(** [str::to_lowercase] as far as a result made of ASCII goes: the ASCII capitals,
    and the Kelvin sign, the one other character whose lower case is ASCII.  Any
    other non-ASCII character keeps the result from being one of the names. *)
Fixpoint lowercase_bytes (l : bytes) : bytes :=
  match l with
  | [] => []
  | b :: t =>
      match b, t with
      | xe2, x84 :: xaa :: u => x6b :: lowercase_bytes u
      | _, _ =>
          let n := Byte.to_N b in
          (if (65 <=? n) && (n <=? 90) then byte_of_N (n + 32) else b) :: lowercase_bytes t
      end
  end.

Definition to_lowercase (s : string) : string := from_bytes (lowercase_bytes (as_bytes s)).

Definition name_bits (name : string) : N :=
  let n := to_lowercase name in
  if bool_decide (n = "admin"%string ∨ n = "all"%string) then CAP_ADMIN
  else if bool_decide (n = "read"%string) then CAP_READ
  else if bool_decide (n = "write"%string) then CAP_WRITE
  else if bool_decide (n = "shell"%string ∨ n = "shell_exec"%string) then CAP_SHELL_EXEC
  else if bool_decide (n = "file"%string ∨ n = "file_transfer"%string) then CAP_FILE_TRANSFER
  else if bool_decide (n = "ticket"%string ∨ n = "ticket_manage"%string) then CAP_TICKET_MANAGE
  else if bool_decide (n = "diagnostics"%string) then CAP_DIAGNOSTICS
  else 0.

Definition Capabilities_from_names (names : list string) : OperatorCapabilities :=
  mkCaps (foldl (λ bits name, N.lor bits (name_bits name)) 0 names).

Definition Capabilities_to_names (c : OperatorCapabilities) : list string :=
  (if Capabilities_has c CAP_READ then ["read"%string] else []) ++
  (if Capabilities_has c CAP_WRITE then ["write"%string] else []) ++
  (if Capabilities_has c CAP_SHELL_EXEC then ["shell"%string] else []) ++
  (if Capabilities_has c CAP_FILE_TRANSFER then ["file"%string] else []) ++
  (if Capabilities_has c CAP_TICKET_MANAGE then ["ticket"%string] else []) ++
  (if Capabilities_has c CAP_DIAGNOSTICS then ["diagnostics"%string] else []).

(** ** Certificates, genesis and proofs *)

Record OperatorSessionCertificate := mkCert {
  cert_network_id : NetworkId;
  cert_owner_id : OwnerId;
  cert_host_entity : EntityId;
  cert_operator_key_id : KeyId;
  cert_session_pubkey : PublicKey;
  cert_capabilities : OperatorCapabilities;
  cert_created_at : N;
  cert_expires_at : N;
  cert_signature : Signature
}.

Inductive AuthorityError :=
| CertExpired
| ProofExpired
| AuthSignature (e : VerifyError)
| AuthSigning (e : SigningError)
| GenesisPinMismatch (actual expected : ObjectId).

Record GenesisTbs := mkGenesisTbs {
  gt_network_id : NetworkId;
  gt_owner_id : OwnerId;
  gt_owner_root_signing_public_key : PublicKey;
  gt_created_at : N
}.

Record Genesis := mkGenesis { gen_tbs : GenesisTbs; gen_signature : Signature }.

Record OperatorSessionProof := mkProof {
  sp_operator_peer_id : string;
  sp_session_pubkey : PublicKey;
  sp_capabilities : OperatorCapabilities;
  sp_created_at : N;
  sp_expires_at : N;
  sp_signature : Signature
}.

#[export] Instance Certificate_eq_dec : EqDecision OperatorSessionCertificate.
Proof. solve_decision. Defined.
#[export] Instance OperatorSessionProof_eq_dec : EqDecision OperatorSessionProof.
Proof. solve_decision. Defined.

Record AuthorityPolicy := mkPolicy { root_owner_pubkey : option PublicKey }.
Definition AuthorityPolicy_default : AuthorityPolicy := mkPolicy None.

Section authority.
Context `{CC : Crypto, HX : Hex}.

Definition Certificate_compute_tbs_bytes (network_id : NetworkId) (owner_id : OwnerId)
  (host_entity : EntityId) (operator_key_id : KeyId) (session_pubkey : PublicKey)
  (capabilities : OperatorCapabilities) (created_at expires_at : N) : bytes :=
  ObjectId_as_bytes network_id ++ ObjectId_as_bytes owner_id ++
  ObjectId_as_bytes host_entity ++ ObjectId_as_bytes operator_key_id ++
  PublicKey_as_bytes session_pubkey ++ le_bytes 4 (caps capabilities) ++
  le_bytes 8 created_at ++ le_bytes 8 expires_at.

Definition Certificate_tbs (c : OperatorSessionCertificate) : bytes :=
  Certificate_compute_tbs_bytes (cert_network_id c) (cert_owner_id c) (cert_host_entity c)
  (cert_operator_key_id c) (cert_session_pubkey c) (cert_capabilities c)
  (cert_created_at c) (cert_expires_at c).

Definition Certificate_verify (c : OperatorSessionCertificate) (owner_verifier : Ed25519Verifier)
  (now : N) : result AuthorityError unit :=
  if cert_expires_at c <=? now then Err CertExpired else
  let tbs := Certificate_tbs c in
  let? _ := map_err AuthSignature
  (Ed25519Verifier_verify_domain owner_verifier OPERATOR_CERT_DOMAIN tbs (cert_signature c)) in
  Ok tt.

(** [issue]; the client entity and the nonce are accepted and unused. *)
Definition Certificate_issue (network_id : NetworkId) (owner_id : OwnerId)
  (host_entity _client_entity : EntityId) (operator_key_id : KeyId)
  (session_pubkey : PublicKey) (capabilities : OperatorCapabilities)
  (created_at expires_at : N) (_nonce : vec byte 16) (signer : Signer)
  : result AuthorityError OperatorSessionCertificate :=
  let tbs := Certificate_compute_tbs_bytes network_id owner_id host_entity operator_key_id
             session_pubkey capabilities created_at expires_at in
  let? signature := map_err AuthSigning (signer_sign_domain signer OPERATOR_CERT_DOMAIN tbs) in
  Ok (mkCert network_id owner_id host_entity operator_key_id session_pubkey capabilities
      created_at expires_at signature).

Definition Genesis_bytes (t : GenesisTbs) : bytes :=
  ObjectId_as_bytes (gt_network_id t) ++ ObjectId_as_bytes (gt_owner_id t) ++
  PublicKey_as_bytes (gt_owner_root_signing_public_key t) ++ le_bytes 8 (gt_created_at t).

Definition Genesis_create (tbs : GenesisTbs) (signer : Signer)
  : result AuthorityError Genesis :=
  let? signature := map_err AuthSigning
  (signer_sign_domain signer GENESIS_SIG_DOMAIN (Genesis_bytes tbs)) in
  Ok (mkGenesis tbs signature).

Definition derive_owner_id (k : PublicKey) : OwnerId := PublicKey_derive_id k.

Definition derive_genesis_id (network_id : NetworkId) (owner_id : OwnerId) : ObjectId :=
  ObjectId_derive GENESIS_ID_DOMAIN (ObjectId_as_bytes network_id ++ ObjectId_as_bytes owner_id).

Definition genesis_id (g : Genesis) : ObjectId :=
  derive_genesis_id (gt_network_id (gen_tbs g)) (gt_owner_id (gen_tbs g)).

Definition Genesis_verify (g : Genesis) : result AuthorityError unit :=
  let? verifier := map_err AuthSignature
  (Ed25519Verifier_from_public_key (gt_owner_root_signing_public_key (gen_tbs g))) in
  let? _ := map_err AuthSignature
  (Ed25519Verifier_verify_domain verifier GENESIS_SIG_DOMAIN (Genesis_bytes (gen_tbs g))
     (gen_signature g)) in
  Ok tt.

Definition Genesis_verify_pinned (g : Genesis) (expected_genesis_id : ObjectId)
  : result AuthorityError unit :=
  let? _ := Genesis_verify g in
  let actual_id := genesis_id g in
  if negb (bool_decide (actual_id = expected_genesis_id))
  then Err (GenesisPinMismatch actual_id expected_genesis_id)
  else Ok tt.

Definition Proof_compute_tbs_bytes (operator_peer_id : string) (session_pubkey : PublicKey)
  (capabilities : OperatorCapabilities) (created_at expires_at : N) : bytes :=
  as_bytes operator_peer_id ++ PublicKey_as_bytes session_pubkey ++
  le_bytes 4 (caps capabilities) ++ le_bytes 8 created_at ++ le_bytes 8 expires_at.

Definition Proof_tbs (p : OperatorSessionProof) : bytes :=
  Proof_compute_tbs_bytes (sp_operator_peer_id p) (sp_session_pubkey p) (sp_capabilities p)
  (sp_created_at p) (sp_expires_at p).

Definition Proof_verify (p : OperatorSessionProof) (owner_pubkey : PublicKey) (now : N)
  : result AuthorityError unit :=
  if sp_expires_at p <=? now then Err ProofExpired else
  let tbs := Proof_tbs p in
  let? verifier := map_err AuthSignature (Ed25519Verifier_from_public_key owner_pubkey) in
  let? _ := map_err AuthSignature
  (Ed25519Verifier_verify_domain verifier OPERATOR_PROOF_DOMAIN tbs (sp_signature p)) in
  Ok tt.

Definition can_transition_ticket (_ : AuthorityPolicy) (current_state new_state : TicketState)
  (_actor_peer_id : string) : bool :=
  can_transition_to current_state new_state.

Definition can_execute_shell (policy : AuthorityPolicy) (ticket_state : TicketState)
  (proof : option OperatorSessionProof) (now : N) : bool :=
  if negb (permits_work ticket_state) then false else
  match root_owner_pubkey policy with
  | None => true
  | Some owner_pk =>
      match proof with
      | Some p =>
          Capabilities_has (sp_capabilities p) CAP_SHELL_EXEC && is_ok (Proof_verify p owner_pk now)
      | None => false
      end
  end.
End authority.

(** ** [authority/workspace.rs] *)

(** [OwnerSegmentMasterSeed]: 32 bytes of key material. *)
Abbreviation OwnerSegmentMasterSeed := (vec byte 32).

Section workspace.

Record MemoryWorkspace := mkWorkspace {
  ws_network_id : option NetworkId;
  ws_owner_id : option OwnerId;
  ws_segment_master_seed : option OwnerSegmentMasterSeed;
  ws_unlocked : bool
}.

Definition MemoryWorkspace_new : MemoryWorkspace := mkWorkspace None None None false.

Definition workspace_lock (w : MemoryWorkspace) : MemoryWorkspace :=
  mkWorkspace None None None false.

Definition workspace_unlock (w : MemoryWorkspace) (n : NetworkId) (o : OwnerId)
  (seed : OwnerSegmentMasterSeed) : MemoryWorkspace :=
  let w := workspace_lock w in
  let w := mkWorkspace (Some n) (ws_owner_id w) (ws_segment_master_seed w) (ws_unlocked w) in
  let w := mkWorkspace (ws_network_id w) (Some o) (ws_segment_master_seed w) (ws_unlocked w) in
  let w := mkWorkspace (ws_network_id w) (ws_owner_id w) (Some seed) (ws_unlocked w) in
  mkWorkspace (ws_network_id w) (ws_owner_id w) (ws_segment_master_seed w) true.

Definition workspace_wipe (w : MemoryWorkspace) : MemoryWorkspace := workspace_lock w.
Definition is_unlocked (w : MemoryWorkspace) : bool := ws_unlocked w.
End workspace.

Inductive workspace_op :=
| OpUnlock (n : NetworkId) (o : OwnerId) (seed : vec byte 32)
| OpLock
| OpWipe.

Definition workspace_step (w : MemoryWorkspace) (op : workspace_op) : MemoryWorkspace :=
  match op with
  | OpUnlock n o seed => workspace_unlock w n o seed
  | OpLock => workspace_lock w
  | OpWipe => workspace_wipe w
  end.

(** ** Lemmas *)

Lemma Capabilities_has_bits c r :
  Capabilities_has c r = true ↔ ∀ i, N.testbit r i = true → N.testbit (caps c) i = true.
Proof.
  unfold Capabilities_has. rewrite N.eqb_eq. split.
  - intros E i Hi. rewrite <- E, N.land_spec in Hi. by apply andb_true_iff in Hi as [].
  - intros H. apply N.bits_inj. intros i. rewrite N.land_spec.
    destruct (N.testbit r i) eqn:Hr; [|by rewrite andb_false_r]. by rewrite (H i Hr).
Qed.

Lemma name_bits_admin name : N.land (name_bits name) CAP_ADMIN = name_bits name.
Proof. unfold name_bits. repeat case_match; reflexivity. Qed.

Lemma from_names_spec names :
  caps (Capabilities_from_names names) = foldr (λ n b, N.lor (name_bits n) b) 0 names.
Proof.
  unfold Capabilities_from_names. simpl.
  enough (∀ acc, foldl (λ bits name, N.lor bits (name_bits name)) acc names
    = N.lor acc (foldr (λ n b, N.lor (name_bits n) b) 0 names)) as H by (rewrite H; by rewrite N.lor_0_l).
  induction names as [|n ns IH]; intros acc; simpl; [by rewrite N.lor_0_r|].
  rewrite IH. symmetry. apply N.lor_assoc.
Qed.

Lemma from_names_testbit names i :
  N.testbit (caps (Capabilities_from_names names)) i = true ↔
    ∃ n, n ∈ names ∧ N.testbit (name_bits n) i = true.
Proof.
  rewrite from_names_spec. induction names as [|n ns IH]; cbn [foldr].
  - split; [by rewrite N.bits_0|set_solver].
  - rewrite N.lor_spec, orb_true_iff, IH. set_solver.
Qed.

Lemma from_names_app l k :
  caps (Capabilities_from_names (l ++ k)) =
    N.lor (caps (Capabilities_from_names l)) (caps (Capabilities_from_names k)).
Proof.
  rewrite !from_names_spec. induction l as [|n l IH]; simpl; [by rewrite N.lor_0_l|].
  by rewrite IH, N.lor_assoc.
Qed.

Lemma has_single c k :
  Capabilities_has c (N.shiftl 1 k) = N.testbit (caps c) k.
Proof.
  apply eq_iff_eq_true. rewrite Capabilities_has_bits. split.
  - intros H. apply H. rewrite N.shiftl_spec_high' by lia. by rewrite N.sub_diag.
  - intros H i Hi. destruct (decide (i = k)) as [->|Hne]; [done|].
    rewrite N.shiftl_1_l, N.pow2_bits_false in Hi by done. done.
Qed.

Lemma if_testbit_shiftl (b : bool) n k :
  name_bits n = N.shiftl 1 k →
  caps (Capabilities_from_names (if b then [n] else [])) = if b then N.shiftl 1 k else 0.
Proof. intros H. destruct b; rewrite from_names_spec; simpl; [by rewrite H, N.lor_0_r|done]. Qed.

Lemma cap_admin_bits i : N.testbit CAP_ADMIN i = (i <? 6).
Proof.
  change CAP_ADMIN with (N.ones 6). destruct (N.ltb_spec i 6).
  - by apply N.ones_spec_low.
  - by apply N.ones_spec_high.
Qed.

Section authority_lemmas.
Context `{CC : Crypto, HX : Hex}.

Definition cert_in_range (c : OperatorSessionCertificate) : Prop :=
  caps (cert_capabilities c) < 2 ^ 32 ∧ cert_created_at c < u64_modulus ∧
  cert_expires_at c < u64_modulus.

Lemma Certificate_tbs_inj c d :
  cert_in_range c → cert_in_range d → Certificate_tbs c = Certificate_tbs d →
  cert_network_id c = cert_network_id d ∧ cert_owner_id c = cert_owner_id d ∧
  cert_host_entity c = cert_host_entity d ∧ cert_operator_key_id c = cert_operator_key_id d ∧
  cert_session_pubkey c = cert_session_pubkey d ∧
  cert_capabilities c = cert_capabilities d ∧ cert_created_at c = cert_created_at d ∧
  cert_expires_at c = cert_expires_at d.
Proof.
  intros (H1&H2&H3) (G1&G2&G3). unfold Certificate_tbs, Certificate_compute_tbs_bytes. intros E.
  apply app_inj_length in E as [E1%ObjectId_as_bytes_inj E]; [|by rewrite !length_ObjectId_as_bytes].
  apply app_inj_length in E as [E2%ObjectId_as_bytes_inj E]; [|by rewrite !length_ObjectId_as_bytes].
  apply app_inj_length in E as [E3%ObjectId_as_bytes_inj E]; [|by rewrite !length_ObjectId_as_bytes].
  apply app_inj_length in E as [E4%ObjectId_as_bytes_inj E]; [|by rewrite !length_ObjectId_as_bytes].
  apply app_inj_length in E as [E5%PublicKey_as_bytes_inj E]; [|by rewrite !length_PublicKey_as_bytes].
  apply app_inj_length in E as [E6 E]; [|by rewrite !length_le_bytes].
  apply app_inj_length in E as [E7 E8]; [|by rewrite !length_le_bytes].
  apply (le4_inj _ _ H1 G1) in E6. apply (le8_inj _ _ H2 G2) in E7. apply (le8_inj _ _ H3 G3) in E8.
  destruct (cert_capabilities c), (cert_capabilities d); simpl in *. by subst.
Qed.

Lemma Proof_tbs_inj p q :
  caps (sp_capabilities p) < 2 ^ 32 → caps (sp_capabilities q) < 2 ^ 32 →
  sp_created_at p < u64_modulus → sp_created_at q < u64_modulus →
  sp_expires_at p < u64_modulus → sp_expires_at q < u64_modulus →
  Proof_tbs p = Proof_tbs q →
  sp_operator_peer_id p = sp_operator_peer_id q ∧ sp_session_pubkey p = sp_session_pubkey q ∧
  sp_capabilities p = sp_capabilities q ∧ sp_created_at p = sp_created_at q ∧
  sp_expires_at p = sp_expires_at q.
Proof.
  intros Hp Hq Hcp Hcq Hep Heq. unfold Proof_tbs, Proof_compute_tbs_bytes. intros E.
  apply app_inj_length_r in E as [Es E].
  2:{ rewrite !length_app, !length_PublicKey_as_bytes, !length_le_bytes. done. }
  apply app_inj_length in E as [Hk E]; [|by rewrite !length_PublicKey_as_bytes].
  apply app_inj_length in E as [Hc E]; [|by rewrite !length_le_bytes].
  apply app_inj_length in E as [Hcr He]; [|by rewrite !length_le_bytes].
  apply as_bytes_inj in Es. apply PublicKey_as_bytes_inj in Hk.
  apply le4_inj in Hc; [|exact Hp|exact Hq]. apply le8_inj in Hcr; [|exact Hcp|exact Hcq].
  apply le8_inj in He; [|exact Hep|exact Heq].
  destruct (sp_capabilities p), (sp_capabilities q); simpl in *. by subst.
Qed.

Lemma Certificate_verify_Ok c v now :
  Certificate_verify c v now = Ok tt ↔
  now < cert_expires_at c ∧
  Ed25519Verifier_verify_domain v OPERATOR_CERT_DOMAIN (Certificate_tbs c) (cert_signature c) = Ok tt.
Proof.
  unfold Certificate_verify. destruct (N.leb_spec (cert_expires_at c) now).
  - split; [done|]. intros [? _]. lia.
  - destruct (Ed25519Verifier_verify_domain _ _ _ _) as [[]|]; simpl; naive_solver.
Qed.

Lemma Proof_verify_Ok p k now :
  Proof_verify p k now = Ok tt ↔
  now < sp_expires_at p ∧ ed25519_key_valid (pk k) = true ∧
  ed25519_verify_strict (pk k) (domain_digest OPERATOR_PROOF_DOMAIN (Proof_tbs p))
    (sig (sp_signature p)) = true.
Proof.
  unfold Proof_verify, Ed25519Verifier_from_public_key, Ed25519Verifier_verify_domain.
  destruct (N.leb_spec (sp_expires_at p) now); [split; [done|]; intros [? _]; lia|].
  destruct (ed25519_key_valid _); simpl; [|naive_solver].
  destruct (ed25519_verify_strict _ _ _); simpl; naive_solver.
Qed.

Lemma Genesis_create_verify `{!CryptoLaws} t s :
  signer_wf s → gt_owner_root_signing_public_key t = signer_public_key s →
  ∃ g, Genesis_create t (Ed25519Signer_Signer s) = Ok g ∧ gen_tbs g = t ∧ Genesis_verify g = Ok tt.
Proof.
  intros Hwf Hk. eexists. split; [reflexivity|]. split; [done|].
  unfold Genesis_verify; simpl. rewrite Hk.
  destruct (verify_sign_domain s GENESIS_SIG_DOMAIN (Genesis_bytes t) Hwf) as (v & Hv & Hs).
  rewrite Hv. simpl. by rewrite Hs.
Qed.

(** What is issued verifies under the key of the issuer until it expires. *)
Lemma issued_verifies `{!CryptoLaws} n o h ce k sk cp cr ex nonce s c v now :
  signer_wf s → Certificate_issue n o h ce k sk cp cr ex nonce (Ed25519Signer_Signer s) = Ok c →
  Ed25519Verifier_from_public_key (signer_public_key s) = Ok v →
  Certificate_verify c v now = if ex <=? now then Err CertExpired else Ok tt.
Proof.
  intros Hwf [= <-] Hv. unfold Certificate_verify. cbn [cert_expires_at cert_signature].
  destruct (ex <=? now); [done|].
  destruct (verify_sign_domain s OPERATOR_CERT_DOMAIN
    (Certificate_compute_tbs_bytes n o h k sk cp cr ex) Hwf) as (v' & Hv' & Hs).
  assert (v' = v) as -> by congruence. unfold Certificate_tbs. cbn in *. by rewrite Hs.
Qed.
End authority_lemmas.

(** ** Properties *)

(** C18. Session certificates: what an owner's signer issues carries the requested
    fields and verifies under the owner's key exactly until it expires; and a
    certificate that verifies at all is unexpired and signed over its own eight
    fields, so that for two certificates with the same signed digest the network,
    owner, host, operator, session key, capabilities and times all agree, unless
    the digest inputs are a BLAKE3 collision. *)
Theorem certificate_sound `{Crypto, !CryptoLaws, Hex} n o h ce k sk cp cr ex nonce s :
  signer_wf s →
  ∃ c v,
    Certificate_issue n o h ce k sk cp cr ex nonce (Ed25519Signer_Signer s) = Ok c ∧
    Ed25519Verifier_from_public_key (signer_public_key s) = Ok v ∧
    Certificate_tbs c = Certificate_compute_tbs_bytes n o h k sk cp cr ex ∧
    (∀ now, Certificate_verify c v now = if ex <=? now then Err CertExpired else Ok tt) ∧
    (∀ d w now, Certificate_verify d w now = Ok tt → now < cert_expires_at d) ∧
    (∀ d, cert_in_range c → cert_in_range d →
       domain_digest OPERATOR_CERT_DOMAIN (Certificate_tbs c) =
       domain_digest OPERATOR_CERT_DOMAIN (Certificate_tbs d) →
       d = mkCert n o h k sk cp cr ex (cert_signature d) ∨
       collides (derive_input OPERATOR_CERT_DOMAIN (Certificate_tbs c))
                (derive_input OPERATOR_CERT_DOMAIN (Certificate_tbs d))).
Proof.
  intros Hwf. destruct (verify_sign_domain s [] [] Hwf) as (v & Hv & _).
  eexists _, v. split; [reflexivity|]. split; [done|]. split; [done|].
  split; [|split; [by intros d w now [? _]%Certificate_verify_Ok|]].
  - intros now. exact (issued_verifies n o h ce k sk cp cr ex nonce s _ v now Hwf eq_refl Hv).
  - intros d Hc Hd Hdig%vec_to_list_inj2. fold (derive_input OPERATOR_CERT_DOMAIN) in Hdig.
    match goal with |- _ ∨ collides ?x ?y => destruct (decide (x = y)) as [E|E] end; [left|by right].
    apply derive_input_inj, (Certificate_tbs_inj _ _ Hc Hd) in E. destruct d; simpl in *.
    destruct E as (?&?&?&?&?&?&?&?). by subst.
Qed.

Definition sample_caps : OperatorCapabilities := mkCaps 12.

Lemma certificate_sound_witness :
  ∃ c v, Certificate_issue (toy_id 1) (toy_id 2) (toy_id 3) (toy_id 4) (toy_id 5)
      (mkPublicKey (toy_seed 6)) sample_caps 100 200 (vreplicate 16 x00)
      (Ed25519Signer_Signer (toy_signer 7)) = Ok c ∧
    Certificate_verify c v 150 = Ok tt ∧ Certificate_verify c v 200 = Err CertExpired.
Proof.
  destruct (certificate_sound (toy_id 1) (toy_id 2) (toy_id 3) (toy_id 4) (toy_id 5)
    (mkPublicKey (toy_seed 6)) sample_caps 100 200 (vreplicate 16 x00) (toy_signer 7)
    (signer_wf_from_bytes _)) as (c & v & Hi & _ & _ & Hv & _).
  exists c, v. split; [exact Hi|]. split; [exact (Hv 150)|exact (Hv 200)].
Defined.

(** Shell authorization: a ticket that does not permit work never allows a
    shell; without a root owner every workable ticket does; with one, a proof is
    required that carries the shell capability, has not expired and is signed by
    the owner over exactly its peer id, session key, capabilities and times. *)
Theorem can_execute_shell_correct `{Crypto, Hex} policy st proof now :
  can_execute_shell policy st proof now = true ↔
    permits_work st = true ∧
    ∀ owner, root_owner_pubkey policy = Some owner →
      ∃ p, proof = Some p ∧ N.testbit (caps (sp_capabilities p)) 2 = true ∧
        now < sp_expires_at p ∧ ed25519_key_valid (pk owner) = true ∧
        ed25519_verify_strict (pk owner) (domain_digest OPERATOR_PROOF_DOMAIN (Proof_tbs p))
          (sig (sp_signature p)) = true.
Proof.
  unfold can_execute_shell. destruct (permits_work st); simpl; [|naive_solver].
  destruct (root_owner_pubkey policy) as [owner|]; [|naive_solver].
  assert (∀ p, Capabilities_has (sp_capabilities p) CAP_SHELL_EXEC = N.testbit (caps (sp_capabilities p)) 2)
    as Hc by (intros p; apply has_single).
  destruct proof as [p|]; [|naive_solver].
  rewrite Hc, andb_true_iff. split.
  - intros [Hb Hv]. split; [done|]. intros ? [= <-]. exists p.
    destruct (Proof_verify p owner now) as [[]|] eqn:E; [|done].
    apply Proof_verify_Ok in E as (?&?&?). done.
  - intros [_ Hp]. destruct (Hp owner eq_refl) as (q & [= <-] & Hb & Hv).
    split; [done|]. by apply Proof_verify_Ok in Hv as ->.
Qed.

(** Capability names: [from_names] sets exactly the bits some name stands for,
    whatever the order and repetition of the names, never a bit outside [ADMIN];
    [to_names] followed by [from_names] keeps exactly the known bits; and [has] is
    the inclusion of bit sets. *)
Theorem capabilities_names_correct c names :
  caps (Capabilities_from_names (Capabilities_to_names c)) = N.land (caps c) CAP_ADMIN ∧
  (∀ i, N.testbit (caps (Capabilities_from_names names)) i = true ↔
     ∃ n, n ∈ names ∧ N.testbit (name_bits n) i = true) ∧
  N.land (caps (Capabilities_from_names names)) CAP_ADMIN = caps (Capabilities_from_names names) ∧
  (∀ r, Capabilities_has c r = true ↔
     ∀ i, N.testbit r i = true → N.testbit (caps c) i = true).
Proof.
  split; [|split; [intros i; apply from_names_testbit|split; [|intros r; apply Capabilities_has_bits]]].
  - unfold Capabilities_to_names, CAP_READ, CAP_WRITE, CAP_SHELL_EXEC, CAP_FILE_TRANSFER,
      CAP_TICKET_MANAGE, CAP_DIAGNOSTICS.
    rewrite !from_names_app, !has_single.
    rewrite (if_testbit_shiftl _ "read" 0), (if_testbit_shiftl _ "write" 1),
      (if_testbit_shiftl _ "shell" 2), (if_testbit_shiftl _ "file" 3),
      (if_testbit_shiftl _ "ticket" 4), (if_testbit_shiftl _ "diagnostics" 5) by reflexivity.
    apply N.bits_inj. intros i. rewrite !N.lor_spec, N.land_spec, cap_admin_bits.
    assert (∀ (b : bool) k, N.testbit (if b then N.shiftl 1 k else 0) i = b && (i =? k)) as Hb.
    { intros [] k; [|by rewrite N.bits_0]. rewrite N.shiftl_1_l.
      destruct (N.eqb_spec i k) as [->|]; [apply N.pow2_bits_true|by apply N.pow2_bits_false]. }
    rewrite !Hb. destruct (N.ltb_spec i 6) as [Hlt|Hge].
    + assert (i = 0 ∨ i = 1 ∨ i = 2 ∨ i = 3 ∨ i = 4 ∨ i = 5) as Hi by lia.
      destruct Hi as [->|[->|[->|[->|[->| ->]]]]]; simpl;
        by rewrite ?andb_false_r, ?andb_true_r, ?orb_false_r, ?orb_false_l.
    + rewrite andb_false_r. rewrite !(proj2 (N.eqb_neq _ _)) by lia. by rewrite !andb_false_r.
  - rewrite from_names_spec. induction names as [|n ns IH]; cbn [foldr]; [done|].
    by rewrite N.land_lor_distr_l, IH, name_bits_admin.
Qed.

(** The genesis record: [create] by the owner's signer gives a record that
    verifies, and that [verify_pinned] accepts under its own genesis id and refuses
    under any other.  The pin covers the network and owner ids only: whoever holds
    any signing key can build, for the same network and owner ids, a record with
    that key as the owner's root key that the pin accepts. *)
Theorem genesis_pin_correct `{Crypto, !CryptoLaws, Hex} t s :
  signer_wf s → gt_owner_root_signing_public_key t = signer_public_key s →
  ∃ g, Genesis_create t (Ed25519Signer_Signer s) = Ok g ∧ gen_tbs g = t ∧
    Genesis_verify g = Ok tt ∧
    Genesis_verify_pinned g (genesis_id g) = Ok tt ∧
    (∀ i, i ≠ genesis_id g → Genesis_verify_pinned g i = Err (GenesisPinMismatch (genesis_id g) i)) ∧
    (∀ attacker, signer_wf attacker →
       ∃ forged, Genesis_verify_pinned forged (genesis_id g) = Ok tt ∧
         gt_network_id (gen_tbs forged) = gt_network_id t ∧
         gt_owner_id (gen_tbs forged) = gt_owner_id t ∧
         gt_owner_root_signing_public_key (gen_tbs forged) = signer_public_key attacker).
Proof.
  intros Hwf Hk. destruct (Genesis_create_verify t s Hwf Hk) as (g & Hc & Ht & Hv).
  exists g. split; [done|]. split; [done|]. split; [done|]. unfold Genesis_verify_pinned.
  rewrite Hv; simpl. rewrite bool_decide_eq_true_2 by done. split; [done|]. split.
  - intros i Hi. by rewrite bool_decide_eq_false_2 by congruence.
  - intros a Ha.
    set (t' := mkGenesisTbs (gt_network_id t) (gt_owner_id t) (signer_public_key a) (gt_created_at t)).
    destruct (Genesis_create_verify t' a Ha eq_refl) as (f & _ & Hf & Hfv).
    exists f. rewrite Hfv, Hf; simpl. rewrite bool_decide_eq_true_2; [done|].
    unfold genesis_id. by rewrite Hf, Ht.
Qed.

Lemma genesis_pin_correct_witness :
  ∃ g, Genesis_create (mkGenesisTbs (toy_id 1) (toy_id 2) (signer_public_key (toy_signer 3)) 7)
      (Ed25519Signer_Signer (toy_signer 3)) = Ok g ∧
    ∃ forged, Genesis_verify_pinned forged (genesis_id g) = Ok tt ∧
      gt_owner_root_signing_public_key (gen_tbs forged) = signer_public_key (toy_signer 4).
Proof.
  destruct (genesis_pin_correct (mkGenesisTbs (toy_id 1) (toy_id 2) (signer_public_key (toy_signer 3)) 7)
    (toy_signer 3) (signer_wf_from_bytes _) eq_refl) as (g & Hc & _ & _ & _ & _ & Hf).
  exists g. split; [exact Hc|].
  destruct (Hf (toy_signer 4) (signer_wf_from_bytes _)) as (f & Hp & _ & _ & Hk).
  exists f. exact (conj Hp Hk).
Defined.

(** The workspace is all or nothing: after any sequence of unlocks, locks and
    wipes it is either unlocked with the ids and the seed of the last unlock, or
    locked and empty; locking leaves no key material. *)
Theorem workspace_all_or_nothing ops :
  let w := foldl workspace_step MemoryWorkspace_new ops in
  (w = MemoryWorkspace_new ∧ is_unlocked w = false) ∨
  (∃ before n o seed, ops = before ++ [OpUnlock n o seed] ∧
     w = mkWorkspace (Some n) (Some o) (Some seed) true).
Proof.
  destruct ops as [|op ops _] using rev_ind; [by left|].
  intros w. subst w. rewrite foldl_snoc. destruct op; simpl; [right|by left..].
  eauto 10.
Qed.
