(* ===== verification/Store.v ===== *)
(** Content-addressed object storage
    ([crates/fortiq-core/src/store/{object_store,fs}.rs]).

    The trait [ObjectStore] is the class [ObjectStore]; [ObjectStoreLaws] is the
    contract the engine is proved against, and [FsObjectStore] implements it on a
    model of the directory tree.  Every write can fail: the place where it does
    is an argument. *)

From S2P Require Import Prelude Text Object Concrete.

(** [ciborium::into_writer] and [from_reader] at type [SignedObject]. *)
Class ObjectCodec := {
  encode_object : SignedObject → option bytes;
  decode_object : bytes → option SignedObject
}.

Class ObjectCodecLaws `{ObjectCodec} : Prop := {
  decode_encode_object o b : encode_object o = Some b → decode_object b = Some o;
  decode_object_range b o : decode_object b = Some o → so_created_at o < u64_modulus
}.

Inductive StoreError :=
| InvalidObject (e : ObjectError)
| CreateDirFailed
| CreateTempFailed
| SerializeFailed
| RenameFailed
| DecodeFailed
| StoredIdMismatch
| Corrupted (e : ObjectError).

(** Where the file system fails during [put].  [FlushFails n] is the failure of
    the last write, done when the [BufWriter] is dropped at the end of its block:
    [n] bytes reached the file and the error is not reported. *)
Inductive put_fault :=
| NoFault
| CreateDirFails
| CreateFileFails
| WriteFails (n : nat)
| FlushFails (n : nat)
| RenameFails.

(** The random name of the temporary file, and the fault. *)
Record put_io := mkPutIo { io_tmp : string; io_fault : put_fault }.

(** ** The trait *)

Class ObjectStore (St : Type) := {
  os_put : St → put_io → SignedObject → result StoreError ObjectId * St;
  os_get : St → ObjectId → result StoreError (option SignedObject);
  os_has : St → ObjectId → bool;
  os_list : St → list ObjectId;
  os_load : St → result StoreError (list SignedObject)
}.

(** ** The file-system store *)

Record FsObjectStore := mkFsObjectStore {
  fs_objects_dir : bool;                         (** [objects/] exists *)
  fs_shards : gset string;                       (** [objects/<xx>/] *)
  fs_files : gmap (string * string) bytes;       (** [objects/<xx>/<name>] *)
  fs_tmp : gmap string bytes                     (** [tmp/<name>] *)
}.

(** Splitting a file name at its last dot; [Path::extension], [Path::file_stem]. *)
Fixpoint split_last_dot (l : bytes) : option (bytes * bytes) :=
  match l with
  | [] => None
  | b :: t =>
      match split_last_dot t with
      | Some (x, y) => Some (b :: x, y)
      | None => if bool_decide (b = x2e) then Some ([], t) else None
      end
  end.

Definition path_extension (name : string) : option string :=
  match split_last_dot (as_bytes name) with
  | Some (_ :: _, e) => Some (from_bytes e)
  | _ => None
  end.

Definition path_file_stem (name : string) : string :=
  match split_last_dot (as_bytes name) with
  | Some (b :: x, _) => from_bytes (b :: x)
  | _ => name
  end.

Section fs.
Context `{CC : Crypto, HX : Hex, OC : ObjectCodec}.

(** [open] on a directory in the state [s]: the two directories are made, or one of them cannot be. *)
Definition FsObjectStore_open (makes_objects makes_tmp : bool) (s : FsObjectStore)
    : result StoreError unit * FsObjectStore :=
  if negb makes_objects then (Err CreateDirFailed, s) else
  let s := mkFsObjectStore true (fs_shards s) (fs_files s) (fs_tmp s) in
  (if makes_tmp then Ok tt else Err CreateDirFailed, s).

(** What opening makes of a place where nothing was. *)
Definition fs_new : FsObjectStore := (FsObjectStore_open true true (mkFsObjectStore false ∅ ∅ ∅)).2.

(** [&hex[..2]]. *)
Definition shard_of (hex : string) : string := from_bytes (take 2 (as_bytes hex)).

(** [format!("{hex}.cbor")]. *)
Definition object_file_name (i : ObjectId) : string :=
  from_bytes (as_bytes (ObjectId_to_hex i) ++ as_bytes ".cbor").

Definition object_path (i : ObjectId) : string * string :=
  (shard_of (ObjectId_to_hex i), object_file_name i).

Definition decode_verified (content : bytes) : result StoreError SignedObject :=
  let? obj := ok_or (decode_object content) DecodeFailed in
  let? _ := map_err Corrupted (SignedObject_verify obj) in
  Ok obj.

Fixpoint load_files (l : list ((string * string) * bytes)) : result StoreError (list SignedObject) :=
  match l with
  | [] => Ok []
  | ((_, name), content) :: l =>
      if negb (bool_decide (path_extension name = Some "cbor"%string)) then load_files l else
      let? obj := decode_verified content in
      let? objs := load_files l in
      Ok (obj :: objs)
  end.

Definition load_all_objects (s : FsObjectStore) : result StoreError (list SignedObject) :=
  if negb (fs_objects_dir s) then Ok [] else load_files (map_to_list (fs_files s)).

Definition with_tmp (s : FsObjectStore) (t : gmap string bytes) : FsObjectStore :=
  mkFsObjectStore (fs_objects_dir s) (fs_shards s) (fs_files s) t.

(** [fs::rename] of a temporary file onto the target. *)
Definition rename_into (s : FsObjectStore) (tmp : string) (target : string * string)
    : FsObjectStore :=
  match fs_tmp s !! tmp with
  | Some content =>
      mkFsObjectStore (fs_objects_dir s) (fs_shards s) (<[target := content]> (fs_files s))
      (delete tmp (fs_tmp s))
  | None => s
  end.

Definition fs_put (s : FsObjectStore) (io : put_io) (object : SignedObject)
    : result StoreError ObjectId * FsObjectStore :=
  match SignedObject_verify object with
  | Err e => (Err (InvalidObject e), s)
  | Ok _ =>
      let target_path := object_path (so_id object) in
      if bool_decide (is_Some (fs_files s !! target_path)) then (Ok (so_id object), s) else
      match io_fault io with
      | CreateDirFails => (Err CreateDirFailed, s)
      | fault =>
          let s := mkFsObjectStore true ({[target_path.1]} ∪ fs_shards s) (fs_files s) (fs_tmp s) in
          match fault with
          | CreateFileFails => (Err CreateTempFailed, s)
          | _ =>
              match encode_object object, fault with
              | None, _ => (Err SerializeFailed, with_tmp s (<[io_tmp io := []]> (fs_tmp s)))
              | Some b, WriteFails n =>
                  (Err SerializeFailed, with_tmp s (<[io_tmp io := take n b]> (fs_tmp s)))
              | Some b, RenameFails =>
                  (Err RenameFailed, with_tmp s (<[io_tmp io := b]> (fs_tmp s)))
              | Some b, FlushFails n =>
                  (Ok (so_id object),
                  rename_into (with_tmp s (<[io_tmp io := take n b]> (fs_tmp s))) (io_tmp io) target_path)
              | Some b, _ =>
                  (Ok (so_id object),
                  rename_into (with_tmp s (<[io_tmp io := b]> (fs_tmp s))) (io_tmp io) target_path)
              end
          end
      end
  end.

Definition fs_get (s : FsObjectStore) (i : ObjectId) : result StoreError (option SignedObject) :=
  match fs_files s !! object_path i with
  | None => Ok None
  | Some content =>
      let? obj := ok_or (decode_object content) DecodeFailed in
      if negb (bool_decide (so_id obj = i)) then Err StoredIdMismatch else
      let? _ := map_err Corrupted (SignedObject_verify obj) in
      Ok (Some obj)
  end.

Definition fs_has (s : FsObjectStore) (i : ObjectId) : bool :=
  bool_decide (is_Some (fs_files s !! object_path i)).

Definition fs_list (s : FsObjectStore) : list ObjectId :=
  if negb (fs_objects_dir s) then [] else
  omap (λ f : (string * string) * bytes,
  match ObjectId_from_hex (path_file_stem f.1.2) with Ok i => Some i | Err _ => None end)
  (map_to_list (fs_files s)).

#[export] Instance FsObjectStore_ObjectStore : ObjectStore FsObjectStore := {|
  os_put := fs_put;
  os_get := fs_get;
  os_has := fs_has;
  os_list := fs_list;
  os_load := load_all_objects
  |}.
End fs.

(** ** The contract *)

(** What the engine relies on: a partial map from ids to verified objects, only
    ever extended, exactly by successful [put]s, as long as no write error goes
    unreported ([os_io_ok]). *)
Class ObjectStoreLaws (St : Type) `{CC : Crypto, HX : Hex, OC : ObjectCodec, OS : !ObjectStore St} := {
  os_inv : St → Prop;
  os_lookup : St → ObjectId → option SignedObject;
  os_io_ok : put_io → Prop;
  os_lookup_verified s i o :
    os_inv s → os_lookup s i = Some o →
    SignedObject_verify o = Ok tt ∧ so_id o = i ∧ so_created_at o < u64_modulus;
  os_get_spec s i : os_inv s → os_get s i = Ok (os_lookup s i);
  os_has_spec s i : os_inv s → os_has s i = bool_decide (is_Some (os_lookup s i));
  os_list_spec s i : os_inv s → i ∈ os_list s ↔ is_Some (os_lookup s i);
  os_load_spec s : os_inv s →
    ∃ objs, os_load s = Ok objs ∧ NoDup (so_id <$> objs) ∧
      ∀ o, o ∈ objs ↔ os_lookup s (so_id o) = Some o;
  os_put_ok s io o i s' :
    os_inv s → os_io_ok io → so_created_at o < u64_modulus → os_put s io o = (Ok i, s') →
    os_inv s' ∧ i = so_id o ∧ SignedObject_verify o = Ok tt ∧
    ∀ j, os_lookup s' j =
      if decide (j = i) then Some (default o (os_lookup s i)) else os_lookup s j;
  os_put_err s io o e s' :
    os_inv s → os_io_ok io → os_put s io o = (Err e, s') →
    os_inv s' ∧ ∀ j, os_lookup s' j = os_lookup s j
}.

(** ** [FsObjectStore] meets the contract *)

Lemma split_last_dot_app x y :
  x2e ∉ y → split_last_dot (x ++ x2e :: y) = Some (x, y).
Proof.
  intros Hy. assert (split_last_dot y = None) as Hn.
  { clear x. induction y as [|b y IH]; [done|]. simpl. rewrite IH by set_solver.
    rewrite bool_decide_eq_false_2; [done|]. intros ->. apply Hy. left. }
  induction x as [|b x IH]; simpl; [by rewrite Hn|by rewrite IH].
Qed.

Section fs_lemmas.
Context `{CC : Crypto, HX : Hex, HL : !HexLaws, OC : ObjectCodec, OL : !ObjectCodecLaws}.
Implicit Types (s : FsObjectStore) (i : ObjectId) (o : SignedObject).

Lemma object_path_inj i j : object_path i = object_path j → i = j.
Proof.
  unfold object_path, object_file_name. intros [= _ H]. apply ObjectId_to_hex_inj, as_bytes_inj.
  apply (f_equal as_bytes) in H. rewrite !as_from_bytes in H. by apply app_inv_tail in H.
Qed.

Lemma split_object_name i :
  split_last_dot (as_bytes (object_file_name i)) = Some (as_bytes (ObjectId_to_hex i), as_bytes "cbor").
Proof.
  unfold object_file_name. rewrite as_from_bytes.
  apply split_last_dot_app. apply (bool_decide_eq_false_1 (_ ∈ _)). reflexivity.
Qed.

Lemma object_hex_cons i : ∃ b l, as_bytes (ObjectId_to_hex i) = b :: l.
Proof.
  pose proof (length_ObjectId_to_hex i) as H. destruct (as_bytes _) as [|b l]; [done|eauto].
Qed.

Lemma object_extension i : path_extension (object_file_name i) = Some "cbor"%string.
Proof.
  unfold path_extension. rewrite split_object_name.
  by destruct (object_hex_cons i) as (b & l & ->).
Qed.

Lemma object_stem i : path_file_stem (object_file_name i) = ObjectId_to_hex i.
Proof.
  unfold path_file_stem. rewrite split_object_name.
  destruct (object_hex_cons i) as (b & l & E). rewrite E. rewrite <- E. apply from_as_bytes.
Qed.

(** Every published file is the encoding of a verified object, under its id. *)
Record fs_entry_ok s (p : string * string) (content : bytes) : Prop := {
  fe_dir : fs_objects_dir s = true ∧ p.1 ∈ fs_shards s;
  fe_object : ∃ o, p = object_path (so_id o) ∧ decode_object content = Some o ∧
  SignedObject_verify o = Ok tt
}.

Definition fs_inv s : Prop := map_Forall (fs_entry_ok s) (fs_files s).

Definition fs_lookup s i : option SignedObject :=
  fs_files s !! object_path i ≫= decode_object.

Lemma fs_lookup_Some s i o :
  fs_inv s → fs_lookup s i = Some o →
  SignedObject_verify o = Ok tt ∧ so_id o = i ∧ so_created_at o < u64_modulus.
Proof.
  intros Hs. unfold fs_lookup. intros (c & Hc & Ho)%bind_Some.
  destruct (Hs _ _ Hc) as [_ (o' & Hp & Ho' & Hv)].
  assert (o' = o) as -> by congruence. apply object_path_inj in Hp as ->.
  split; [done|]. split; [done|by eapply decode_object_range].
Qed.

Lemma fs_files_lookup s i :
  fs_inv s → is_Some (fs_files s !! object_path i) ↔ is_Some (fs_lookup s i).
Proof.
  intros Hs. unfold fs_lookup. split.
  - intros [c Hc]. destruct (Hs _ _ Hc) as [_ (o & _ & Ho & _)]. rewrite Hc. simpl. eauto.
  - intros [o (c & Hc & _)%bind_Some]. eauto.
Qed.

Lemma fs_get_spec s i : fs_inv s → fs_get s i = Ok (fs_lookup s i).
Proof.
  intros Hs. unfold fs_get, fs_lookup. destruct (fs_files s !! object_path i) as [c|] eqn:Hc; [|done].
  destruct (Hs _ _ Hc) as [_ (o & Hp & Ho & Hv)]. apply object_path_inj in Hp as ->.
  simpl. rewrite Ho. simpl. rewrite bool_decide_eq_true_2 by done. simpl. by rewrite Hv.
Qed.

Lemma elem_of_fs_list s i : fs_inv s → i ∈ fs_list s ↔ is_Some (fs_lookup s i).
Proof.
  intros Hs. rewrite <- fs_files_lookup by done. unfold fs_list.
  destruct (fs_objects_dir s) eqn:Hd; simpl.
  - rewrite list_elem_of_omap. split.
    + intros ([p c] & Hin%elem_of_map_to_list & Hi).
      destruct (Hs _ _ Hin) as [_ (o & -> & _)]. simpl in Hi.
      rewrite object_stem, ObjectId_from_to_hex in Hi. injection Hi as <-. eauto.
    + intros [c Hc]. exists (object_path i, c). split; [by apply elem_of_map_to_list|].
      simpl. by rewrite object_stem, ObjectId_from_to_hex.
  - split; [by intros ?%not_elem_of_nil|]. intros [c Hc].
    destruct (Hs _ _ Hc) as [[Hd' _] _]. congruence.
Qed.

Lemma load_files_spec s l :
  (∀ p c, (p, c) ∈ l → fs_entry_ok s p c) → NoDup l.*1 →
  ∃ objs, load_files l = Ok objs ∧ NoDup (so_id <$> objs) ∧
  ∀ o, o ∈ objs ↔ ∃ c, (object_path (so_id o), c) ∈ l ∧ decode_object c = Some o.
Proof.
  induction l as [|[p c] l IH]; intros Hl Hnd; simpl.
  { exists []. split; [done|]. split; [constructor|]. intros o. split; [set_solver|]. intros (c & Hc & _). set_solver. }
  apply NoDup_cons in Hnd as [Hp Hnd].
  destruct IH as (objs & E & Hn & Hel); [intros p' c' Hin; apply Hl; by right|done|].
  destruct (Hl p c ltac:(left)) as [_ (o & -> & Ho & Hv)].
  simpl. rewrite bool_decide_eq_true_2 by apply object_extension. simpl.
  unfold decode_verified. rewrite Ho; simpl. rewrite Hv; simpl. rewrite E; simpl.
  exists (o :: objs). split; [done|]. split.
  - constructor; [|done]. intros (o' & Hid & Hin)%list_elem_of_fmap.
    apply Hel in Hin as (c' & Hin & _). apply Hp. apply list_elem_of_fmap.
    exists (object_path (so_id o'), c'). split; [|done]. simpl. by rewrite Hid.
  - intros x. rewrite elem_of_cons, Hel. split.
    + intros [->|(c' & ? & ?)]; [exists c; split; [left|done]|].
      exists c'. split; [by right|done].
    + intros (c' & [Heq|Hin]%elem_of_cons & Hx); [left|right; eauto].
      assert (c' = c) as -> by congruence. congruence.
Qed.

Lemma fs_load_spec s :
  fs_inv s → ∃ objs, load_all_objects s = Ok objs ∧ NoDup (so_id <$> objs) ∧
  ∀ o, o ∈ objs ↔ fs_lookup s (so_id o) = Some o.
Proof.
  intros Hs. unfold load_all_objects. destruct (fs_objects_dir s) eqn:Hd; simpl.
  - destruct (load_files_spec s (map_to_list (fs_files s))) as (objs & E & Hn & Hel).
    + intros p c Hin%elem_of_map_to_list. by apply Hs.
    + apply NoDup_fst_map_to_list.
    + exists objs. split; [done|]. split; [done|]. intros o. rewrite Hel.
      unfold fs_lookup. rewrite bind_Some. by setoid_rewrite elem_of_map_to_list.
  - exists []. split; [done|]. split; [constructor|]. intros o.
    split; [by intros ?%not_elem_of_nil|]. unfold fs_lookup. intros (c & Hc & _)%bind_Some.
    destruct (Hs _ _ Hc) as [[Hd' _] _]. congruence.
Qed.

(** A write error that nobody reports is the one thing [put] does not survive. *)
Definition fs_io_ok (io : put_io) : Prop :=
  match io_fault io with FlushFails _ => False | _ => True end.

Lemma fs_inv_grow s s' :
  fs_inv s → fs_files s' = fs_files s → fs_objects_dir s' = true →
  fs_shards s ⊆ fs_shards s' → fs_inv s'.
Proof.
  intros Hs Hf Hd Hsh p c Hc. rewrite Hf in Hc. destruct (Hs p c Hc) as [[_ ?] Ho].
  split; [split; [done|set_solver]|done].
Qed.

Lemma fs_inv_publish s o b t :
  fs_inv s → SignedObject_verify o = Ok tt → encode_object o = Some b →
  let path := object_path (so_id o) in
  fs_inv (mkFsObjectStore true ({[path.1]} ∪ fs_shards s) (<[path := b]> (fs_files s)) t).
Proof.
  intros Hs Hv Hb path. apply map_Forall_insert_2.
  - split; simpl; [split; [done|set_solver]|]. exists o. split; [done|].
    split; [by apply decode_encode_object|done].
  - intros p c Hc. destruct (Hs p c Hc) as [[_ ?] Ho].
    split; simpl; [split; [done|set_solver]|done].
Qed.

(** The outcomes of [put], whatever reported fault occurs. *)
Lemma fs_put_outcome s io o r s' :
  fs_inv s → fs_io_ok io → fs_put s io o = (r, s') →
  fs_inv s' ∧
  match r with
  | Err _ => fs_files s' = fs_files s
  | Ok i => i = so_id o ∧ SignedObject_verify o = Ok tt ∧
    if bool_decide (is_Some (fs_files s !! object_path (so_id o))) then s' = s
    else ∃ b, encode_object o = Some b ∧
      fs_files s' = <[object_path (so_id o) := b]> (fs_files s)
  end.
Proof.
  intros Hs Hio. unfold fs_put. destruct (SignedObject_verify o) as [[]|] eqn:Hv.
  2:{ by intros [= <- <-]. }
  case_bool_decide as Hk; [by intros [= <- <-]|].
  unfold fs_io_ok in Hio. destruct (io_fault io) eqn:Hf; try done;
    try (destruct (encode_object o) as [b|] eqn:Hb);
    intros [= <- <-]; (split; [|try done]); try done;
    try (by apply (fs_inv_grow s); simpl; [..|set_solver]).
  - unfold rename_into; simpl. rewrite lookup_insert_eq. by apply fs_inv_publish.
  - split; [done|]. split; [done|]. exists b. split; [done|].
    unfold rename_into; simpl. by rewrite lookup_insert_eq.
Qed.

Lemma fs_lookup_ext s s' j :
  fs_files s' !! object_path j = fs_files s !! object_path j → fs_lookup s' j = fs_lookup s j.
Proof. unfold fs_lookup. by intros ->. Qed.

Lemma fs_put_lookup s io o i s' :
  fs_inv s → fs_io_ok io → fs_put s io o = (Ok i, s') →
  fs_inv s' ∧ i = so_id o ∧ SignedObject_verify o = Ok tt ∧
  ∀ j, fs_lookup s' j = if decide (j = i) then Some (default o (fs_lookup s i)) else fs_lookup s j.
Proof.
  intros Hs Hio Hput. destruct (fs_put_outcome _ _ _ _ _ Hs Hio Hput) as (Hs' & -> & Hv & Hcase).
  split; [done|]. split; [done|]. split; [done|]. intros j. case_bool_decide as Hk.
  - subst s'. case_decide as Hj; [|done]. subst j.
    apply (fs_files_lookup s _ Hs) in Hk as [x Hx]. by rewrite Hx.
  - destruct Hcase as (b & Hb & Hf). case_decide as Hj.
    + subst j. assert (fs_lookup s (so_id o) = None) as ->.
      { unfold fs_lookup. destruct (fs_files s !! _) eqn:E; [|done]. by destruct Hk. }
      unfold fs_lookup. rewrite Hf, lookup_insert_eq. simpl. by apply decode_encode_object.
    + apply fs_lookup_ext. rewrite Hf, lookup_insert_ne; [done|].
      intros E. by apply object_path_inj in E.
Qed.

#[export] Program Instance FsObjectStore_laws : ObjectStoreLaws FsObjectStore := {|
  os_inv := fs_inv;
  os_lookup := fs_lookup;
  os_io_ok := fs_io_ok
  |}.
Next Obligation. intros s i o Hs Ho. by apply (fs_lookup_Some s). Qed.
Next Obligation. intros s i Hs. by apply fs_get_spec. Qed.
Next Obligation.
intros s i Hs. apply bool_decide_ext. by apply fs_files_lookup.
Qed.
Next Obligation. intros s i Hs. by apply elem_of_fs_list. Qed.
Next Obligation. intros s Hs. by apply fs_load_spec. Qed.
Next Obligation. intros s io o i s' Hs Hio _ Hput. by eapply fs_put_lookup. Qed.
Next Obligation.
intros s io o e s' Hs Hio Hput.
destruct (fs_put_outcome _ _ _ _ _ Hs Hio Hput) as [Hs' Hf]. split; [done|].
intros j. apply fs_lookup_ext. by rewrite Hf.
Qed.
End fs_lemmas.

(** ** A concrete codec *)

Definition object_positive (o : SignedObject) : positive :=
  encode (oid (so_id o), pk (so_author o), so_created_at o, so_payload o, sig (so_signature o)).

Definition positive_object (p : positive) : option SignedObject :=
  (λ f : vec byte 32 * vec byte 32 * N * bytes * vec byte 64,
    let '(i, a, c, l, s) := f in
    mkSignedObject (mkObjectId i) (mkPublicKey a) c l (mkSignature s)) <$> decode p.

Lemma positive_object_ok o : positive_object (object_positive o) = Some o.
Proof.
  unfold positive_object, object_positive. rewrite decode_encode. by destruct o as [[] [] ? ? []].
Qed.

#[export] Instance toy_object_codec : ObjectCodec := {|
  encode_object o :=
    if so_created_at o <? u64_modulus then Some (spell (Npos (object_positive o))) else None;
  decode_object l :=
    match le_val l with
    | Npos p =>
        match positive_object p with
        | Some o => if so_created_at o <? u64_modulus then Some o else None
        | None => None
        end
    | N0 => None
    end
|}.

#[export] Instance toy_object_codec_laws : ObjectCodecLaws.
Proof.
  split.
  - intros o b. cbn [encode_object decode_object toy_object_codec].
    destruct (so_created_at o <? u64_modulus) eqn:Hr; [|done]. intros [= <-].
    rewrite le_val_spell, positive_object_ok. by rewrite Hr.
  - intros b o. cbn [decode_object toy_object_codec]. destruct (le_val b) as [|q]; [done|].
    destruct (positive_object q) as [o'|]; [|done].
    destruct (so_created_at o' <? u64_modulus) eqn:Hr; [|done]. intros [= <-]. by apply N.ltb_lt.
Qed.

(** ** Properties *)

(** C5. [put] under every reported fault refines insertion into a map of verified
    objects: a success binds the object's id, to the object itself when the id was
    free and to what was there before otherwise, and no other id; a failure leaves
    every published file as it was; and a verified, encodable object is always
    stored when nothing fails. *)
Theorem fs_put_refines `{Crypto, Hex, !HexLaws, ObjectCodec, !ObjectCodecLaws} s io o :
  fs_inv s → fs_io_ok io →
  match fs_put s io o with
  | (Ok i, s') =>
      fs_inv s' ∧ i = so_id o ∧ SignedObject_verify o = Ok tt ∧
      fs_get s' i = Ok (Some (default o (fs_lookup s i))) ∧
      (∀ j, j ≠ i → fs_get s' j = fs_get s j)
  | (Err _, s') => fs_inv s' ∧ fs_files s' = fs_files s ∧
      (SignedObject_verify o = Ok tt → is_Some (encode_object o) → io_fault io ≠ NoFault)
  end.
Proof.
  intros Hs Hio. destruct (fs_put s io o) as [[i|e] s'] eqn:Hput.
  - destruct (fs_put_lookup _ _ _ _ _ Hs Hio Hput) as (Hs' & Hi & Hv & Hl).
    rewrite !fs_get_spec by done. split; [done|]. split; [done|]. split; [done|].
    rewrite Hl, decide_True by done. split; [done|]. intros j Hj.
    by rewrite !fs_get_spec, Hl, decide_False by done.
  - destruct (fs_put_outcome _ _ _ _ _ Hs Hio Hput) as [Hs' Hf]. split; [done|]. split; [done|].
    intros Hv [b Hb] Hno. unfold fs_put in Hput. rewrite Hv, Hb, Hno in Hput.
    by case_bool_decide.
Qed.

Definition toy_io : put_io := mkPutIo "t" NoFault.

Lemma fs_put_refines_witness :
  fs_inv fs_new ∧
  fs_get (fs_put fs_new toy_io (toy_object 1)).2 (so_id (toy_object 1))
    = Ok (Some (toy_object 1)).
Proof.
  assert (fs_inv fs_new) as Hs by apply map_Forall_empty.
  split; [exact Hs|].
  pose proof (fs_put_refines fs_new toy_io (toy_object 1) Hs I) as Hp.
  assert (is_ok (fs_put fs_new toy_io (toy_object 1)).1 = true) as Hok
    by (vm_compute; reflexivity).
  destruct (fs_put fs_new toy_io (toy_object 1)) as [[i|e] s']; [|discriminate].
  destruct Hp as (_ & -> & _ & Hg & _). exact Hg.
Defined.

(** The four queries agree on a store built by [put]: [has], [get] and [list]
    report the same ids, and [load_all_objects] succeeds with exactly the objects
    [get] returns, once each; whatever is on the disk, no query hands out an
    object that does not verify, and [get] none under another id. *)
Theorem fs_queries_agree `{Crypto, Hex, !HexLaws, ObjectCodec, !ObjectCodecLaws} s :
  (fs_inv s →
    (∀ i, fs_has s i = true ↔ i ∈ fs_list s) ∧
    (∀ i, i ∈ fs_list s ↔ ∃ o, fs_get s i = Ok (Some o)) ∧
    (∃ objs, load_all_objects s = Ok objs ∧ NoDup (so_id <$> objs) ∧
       ∀ o, o ∈ objs ↔ fs_get s (so_id o) = Ok (Some o))) ∧
  (∀ i o, fs_get s i = Ok (Some o) → SignedObject_verify o = Ok tt ∧ so_id o = i) ∧
  (∀ objs, load_all_objects s = Ok objs → Forall (λ o, SignedObject_verify o = Ok tt) objs).
Proof.
  split; [intros Hs; split; [|split]|split].
  - intros i. rewrite elem_of_fs_list by done. unfold fs_has. rewrite bool_decide_eq_true.
    by apply fs_files_lookup.
  - intros i. rewrite elem_of_fs_list, fs_get_spec by done.
    split; [intros [o ->]; eauto|intros [o [= ->]]; eauto].
  - destruct (fs_load_spec s Hs) as (objs & E & Hn & Hel). exists objs. split; [done|].
    split; [done|]. intros o. rewrite Hel, fs_get_spec by done. split; [by intros ->|by intros [= ->]].
  - intros i o. unfold fs_get. destruct (fs_files s !! _) as [c|]; [|done].
    destruct (decode_object c) as [x|]; simpl; [|done]. case_bool_decide; simpl; [|done].
    destruct (SignedObject_verify x) as [[]|] eqn:Hv; simpl; [|done]. by intros [= <-].
  - unfold load_all_objects. destruct (negb _); [by intros _ [= <-]; constructor|].
    induction (map_to_list (fs_files s)) as [|[[sh n] c] l IH]; simpl; [intros objs [= <-]; constructor|].
    case_bool_decide; simpl; [|done]. unfold decode_verified.
    destruct (decode_object c) as [x|]; simpl; [|done].
    destruct (SignedObject_verify x) as [[]|] eqn:Hv; simpl; [|done].
    destruct (load_files l) as [k|]; simpl; [|done]. intros objs [= <-]. constructor; [done|by apply IH].
Qed.

(** The failure [put] does not report: when the write made on dropping the
    [BufWriter] stops after [n] bytes, and those do not decode, [put] answers
    success, yet the object cannot be read back, the store no longer loads, so no
    engine opens on it, and a later fault-free [put] of the same object sees the
    file, answers success too and repairs nothing. *)
Theorem fs_put_unreported_flush `{Crypto, Hex, !HexLaws, ObjectCodec, !ObjectCodecLaws} s o b n tmp :
  fs_inv s → SignedObject_verify o = Ok tt → encode_object o = Some b →
  fs_lookup s (so_id o) = None → decode_object (take n b) = None →
  let '(r, s') := fs_put s (mkPutIo tmp (FlushFails n)) o in
  r = Ok (so_id o) ∧
  fs_has s' (so_id o) = true ∧ fs_get s' (so_id o) = Err DecodeFailed ∧
  is_ok (load_all_objects s') = false ∧
  (∀ io, fs_put s' io o = (Ok (so_id o), s')).
Proof.
  intros Hs Hv Hb Hnew Hbad.
  assert (fs_files s !! object_path (so_id o) = None) as Hfree.
  { apply eq_None_not_Some. rewrite fs_files_lookup, Hnew by done. by intros []. }
  unfold fs_put at 1. rewrite Hv, Hb, Hfree.
  rewrite (bool_decide_eq_false_2 (is_Some None)) by (by intros []).
  cbn [io_fault io_tmp]. unfold rename_into, with_tmp. cbn -[object_path].
  rewrite lookup_insert_eq. split; [done|].
  unfold fs_has, fs_get, fs_put, load_all_objects. cbn [fs_files fs_objects_dir].
  rewrite !lookup_insert_eq, Hbad, Hv. split; [done|]. split; [done|]. split.
  - cbn [negb]. destruct (load_files _) as [objs|] eqn:Hl; [|done]. exfalso.
    assert ((object_path (so_id o), take n b) ∈ map_to_list (<[object_path (so_id o) := take n b]> (fs_files s)))
      as Hin by (apply elem_of_map_to_list; by rewrite lookup_insert_eq).
    revert objs Hl Hin. generalize (map_to_list (<[object_path (so_id o) := take n b]> (fs_files s))) as l.
    induction l as [|[[sh nm] c] l IH]; intros objs; simpl; [set_solver|].
    intros Hl [Heq|Hin]%elem_of_cons.
    + injection Heq as <- <- <-. rewrite bool_decide_eq_true_2 in Hl by apply object_extension.
      simpl in Hl. unfold decode_verified in Hl. by rewrite Hbad in Hl.
    + case_bool_decide; simpl in Hl; [|by eapply IH].
      destruct (decode_verified c); simpl in Hl; [|done].
      destruct (load_files l) as [k|] eqn:Hk; [by eapply IH|done].
  - intros io. by rewrite bool_decide_eq_true_2 by eauto.
Qed.

Lemma fs_put_unreported_flush_witness :
  let s' := (fs_put fs_new (mkPutIo "t" (FlushFails 0)) (toy_object 1)).2 in
  fs_get s' (so_id (toy_object 1)) = Err DecodeFailed ∧ is_ok (load_all_objects s') = false.
Proof.
  assert (fs_inv fs_new) as Hs by apply map_Forall_empty.
  assert (is_Some (encode_object (toy_object 1))) as [b Hb] by (vm_compute; eauto).
  assert (SignedObject_verify (toy_object 1) = Ok tt) as Hv by (vm_compute; reflexivity).
  pose proof (fs_put_unreported_flush fs_new (toy_object 1) b 0 "t" Hs Hv Hb eq_refl eq_refl) as Hp.
  destruct (fs_put fs_new (mkPutIo "t" (FlushFails 0)) (toy_object 1)) as [r s'].
  destruct Hp as (_ & _ & Hg & Hl & _). exact (conj Hg Hl).
Defined.

Lemma fs_queries_agree_witness :
  let s := (fs_put fs_new toy_io (toy_object 1)).2 in
  fs_inv s ∧ ∃ objs, load_all_objects s = Ok objs ∧
    ∀ o, o ∈ objs ↔ fs_get s (so_id o) = Ok (Some o).
Proof.
  intros s.
  assert (fs_inv s) as Hs.
  { assert (fs_inv fs_new) as H0 by apply map_Forall_empty.
    unfold s. destruct (fs_put fs_new toy_io (toy_object 1)) as [r s'] eqn:E.
    exact (proj1 (fs_put_outcome _ toy_io _ _ _ H0 I E)). }
  split; [exact Hs|].
  destruct (proj1 (fs_queries_agree s) Hs) as (_ & _ & objs & E & _ & Hel).
  exists objs. exact (conj E Hel).
Defined.
