(* ===== verification/Engine.v ===== *)
(** The ticket engine ([crates/fortiq-core/src/engine.rs]): the object store, the
    event graph and the reduced state, and the operations that keep them in step.

    The engine is written against the interface [ObjectStore].  Its methods are
    functions from the engine to a result and the engine they leave behind, since
    several of them fail after part of their effects took place.  The clock, the
    random identifiers and the faults of the disk are arguments. *)

From S2P Require Import Prelude Text Object Concrete Ticket Event Graph GraphSort.
From S2P Require Import Reducer Authority Store.

Record OutboxRecord := mkOutboxRecord {
  ob_id : string;
  ob_peer_id : string;
  ob_kind : string;
  ob_payload : string;
  ob_created_at : N
}.

#[export] Instance OutboxRecord_eq_dec : EqDecision OutboxRecord.
Proof. solve_decision. Defined.

(** [serde_json::to_vec_pretty] and [from_slice] at type [OutboxRecord]. *)
Class OutboxCodec := {
  encode_outbox : OutboxRecord → option bytes;
  decode_outbox : bytes → option OutboxRecord
}.

Class OutboxCodecLaws `{OutboxCodec} : Prop := {
  decode_encode_outbox r b : encode_outbox r = Some b → decode_outbox b = Some r
}.

Inductive EngineError :=
| EEvent (e : EventError)
| EStore (e : StoreError)
| EGraph (e : GraphError)
| EReducer (e : ReducerError)
| EVerify (e : ObjectError)
| ETicketNotFound
| EBadTransition (from to : TicketState)
| ERetrieve
| EOutboxEncode
| EOutboxIo.

(** What the file system answers to the calls on the outbox: to the removal of a file that is
    there ([exists] says no of a file it cannot look at); to an [enqueue], where the directory
    cannot be made, the temporary file is not made or is written in part, or cannot be renamed; and to a
    listing, the names in the order in which the directory gives them, or an error, and
    the files that can be read. *)
Inductive remove_answer := RmRemoved | RmNotSeen | RmRefused.
Inductive enqueue_fault := EnqDir | EnqWrite (written : option nat) | EnqRename.
Record list_io := mkListIo {
  lo_dir_exists : bool;
  lo_read_dir : option (list string);
  lo_readable : string → bool
}.

(** A listing that reaches the file [name]. *)
Definition reads_file (io : list_io) (name : string) : Prop :=
  lo_dir_exists io = true ∧ (∃ names, lo_read_dir io = Some names ∧ name ∈ names) ∧
  lo_readable io name = true.

Record TicketEngine (St : Type) := mkEngine {
  en_store : St;
  en_graph : EventGraph;
  en_state : TicketStateStore;
  en_signer : Ed25519Signer;
  en_policy : AuthorityPolicy;
  en_outbox : gmap string bytes       (** [outbox/<name>] *)
}.
Arguments mkEngine {St}.
Arguments en_store {St}.
Arguments en_graph {St}.
Arguments en_state {St}.
Arguments en_signer {St}.
Arguments en_policy {St}.
Arguments en_outbox {St}.

Section setters.
Context {St : Type}.
Implicit Types en : TicketEngine St.
Definition with_store en s : TicketEngine St :=
  mkEngine s (en_graph en) (en_state en) (en_signer en) (en_policy en) (en_outbox en).
Definition with_graph en g : TicketEngine St :=
  mkEngine (en_store en) g (en_state en) (en_signer en) (en_policy en) (en_outbox en).
Definition with_state en st : TicketEngine St :=
  mkEngine (en_store en) (en_graph en) st (en_signer en) (en_policy en) (en_outbox en).
Definition with_outbox en o : TicketEngine St :=
  mkEngine (en_store en) (en_graph en) (en_state en) (en_signer en) (en_policy en) o.
End setters.

(** The methods that write. *)
Definition EngineM (St A : Type) : Type := StateM (TicketEngine St) EngineError A.

Section engine.
Context `{CC : Crypto, HX : Hex, BC : BodyCodec, OC : ObjectCodec}.
Context {St : Type} `{OS : !ObjectStore St}.
Implicit Types en : TicketEngine St.

(** ** Opening *)

(** The signer of [try_new], and what it writes to [node.key]. *)
Definition load_or_generate_key (key_file : option bytes) (random : vec byte 32)
    : Ed25519Signer * option bytes :=
  let generated :=
  let s := Ed25519Signer_generate random in
  (s, Some (vec_to_list (Ed25519Signer_to_bytes s))) in
  match key_file with
  | Some b =>
      if (32 <=? length b)%nat then (Ed25519Signer_from_bytes (vec32_of (take 32 b)), None)
      else generated
  | None => generated
  end.

Definition insert_loaded (g : EventGraph) (obj : SignedObject) : EventGraph :=
  match Event_from_signed_object obj with
  | Ok event => graph_deliver g event
  | Err _ => g
  end.

Definition engine_open (store : St) (outbox : gmap string bytes) (signer : Ed25519Signer)
  (policy : AuthorityPolicy) : result EngineError (TicketEngine St) :=
  let? objects := map_err EStore (os_load store) in
  let graph := foldl insert_loaded EventGraph_new objects in
  Ok (mkEngine store graph (reduce graph) signer policy outbox).

Definition try_new (store : St) (outbox : gmap string bytes) (key_file : option bytes)
  (random : vec byte 32) : result EngineError (TicketEngine St) :=
  engine_open store outbox (load_or_generate_key key_file random).1 AuthorityPolicy_default.

(** ** Appending a local event *)

Definition current_heads en : list ObjectId := Heads_to_vec (g_heads (en_graph en)).

(** The event and object [append_ticket_event] signs. *)
Definition prepare_event en (ticket_event : TicketEvent) (timestamp : N)
  : result EventError (Event * SignedObject) :=
  let parents := current_heads en in
  let lamport := next_lamport (en_graph en) parents in
  Event_new parents timestamp lamport (PTicket ticket_event) (en_signer en).

Definition append_ticket_event (io : put_io) (ticket_event : TicketEvent) (timestamp : N)
    : EngineM St (Event * SignedObject) := λ en,
  match prepare_event en ticket_event timestamp with
  | Err e => (Err (EEvent e), en)
  | Ok (event, signed_obj) =>
      let '(put, store) := os_put (en_store en) io signed_obj in
      let en := with_store en store in
      match put with
      | Err e => (Err (EStore e), en)
      | Ok _ =>
          match graph_insert (en_graph en) event with
          | Err e => (Err (EGraph e), en)
          | Ok g =>
              let en := with_graph en g in
              match apply_event (en_state en) event with
              | Err e => (Err (EReducer e), en)
              | Ok s => (Ok (event, signed_obj), with_state en s)
              end
          end
      end
  end.

(** ** Mutations *)

Definition engine_get_ticket en (ticket_id : string) : option TicketRecord :=
  get_ticket (en_state en) ticket_id.

Definition retrieve (ticket_id : string) : EngineM St TicketRecord := λ en,
  match engine_get_ticket en ticket_id with
  | Some t => (Ok t, en)
  | None => (Err ERetrieve, en)
  end.

(** [format!("T-{}", &uuid[..8])]. *)
Definition new_ticket_id (uuid : string) : string :=
  from_bytes (as_bytes "T-" ++ take 8 (as_bytes uuid)).

Definition create_ticket (io : put_io) (uuid : string) (now : N) (title description : string)
  (priority : TicketPriority) (client_peer_id : string) : EngineM St TicketRecord :=
  let ticket_id := new_ticket_id uuid in
  let! _ := append_ticket_event io (Created ticket_id title description priority client_peer_id) now in
  retrieve ticket_id.

Definition update_ticket_state (io : put_io) (now : N) (ticket_id : string)
  (new_state : TicketState) (actor_peer_id : string) : EngineM St TicketRecord := λ en,
  match engine_get_ticket en ticket_id with
  | None => (Err ETicketNotFound, en)
  | Some current =>
      if negb (can_transition_ticket (en_policy en) (tr_state current) new_state actor_peer_id)
      then (Err (EBadTransition (tr_state current) new_state), en)
      else (let! _ := append_ticket_event io (StatusChanged ticket_id new_state actor_peer_id None) now in
      retrieve ticket_id) en
  end.

(** A zero time stands for "now". *)
Definition time_or_now (created_at now : N) : N := if created_at =? 0 then now else created_at.

Definition add_chat_message (io : put_io) (now : N) (m : ChatMessage) : EngineM St unit :=
  let now := time_or_now (cm_created_at m) now in
  let! _ := append_ticket_event io
  (ChatMessageAdded (cm_ticket_id m) (cm_id m) (cm_sender_peer_id m) (cm_body m) now) now in
  sret tt.

Definition add_attachment (io : put_io) (now : N) (a : AttachmentRecord) : EngineM St unit :=
  let now := time_or_now (ar_created_at a) now in
  let! _ := append_ticket_event io
  (AttachmentAdded (ar_ticket_id a) (ar_id a) (ar_sender_peer_id a) (ar_filename a)
     (ar_size_bytes a) (ar_sha256 a) (ar_local_path a) now) now in
  sret tt.

Definition record_event (io : put_io) (uuid : string) (now : N) (ticket_id kind actor_peer_id : string)
  (metadata : option string) : EngineM St unit :=
  let! _ := append_ticket_event io (CustomAudit ticket_id uuid kind actor_peer_id metadata now) now in
  sret tt.

Definition start_shell_session (io : put_io) (now : N)
  (ticket_id session_id operator_peer_id transport : string) : EngineM St ShellSessionRecord :=
  let! _ := append_ticket_event io
  (ShellSessionStarted ticket_id session_id operator_peer_id transport now) now in
  sret {| ss_id := session_id; ss_ticket_id := ticket_id;
        ss_operator_peer_id := operator_peer_id; ss_started_at := now; ss_ended_at := None;
        ss_transport := transport; ss_result := None |}.

Definition end_shell_session (io : put_io) (now : N) (ticket_id session_id : string)
  (res : option string) : EngineM St unit :=
  let! _ := append_ticket_event io (ShellSessionEnded ticket_id session_id now res) now in
  sret tt.

Definition record_shell_session_start (io : put_io) (now : N)
  (ticket_id session_id operator_peer_id transport : string) : EngineM St unit :=
  let! _ := start_shell_session io now ticket_id session_id operator_peer_id transport in
  sret tt.

(** The ticket [record_shell_session_end] finds in the hash map. *)
Definition session_ticket (session_id : string) (s : TicketStateStore) : option string :=
  (λ a, tr_id (agg_record a)) <$>
  List.find (λ a, existsb (λ x, bool_decide (ss_id x = session_id)) (agg_shell_sessions a))
    (ticket_values s).

Definition record_shell_session_end (io : put_io) (now : N) (session_id : string)
  (res : option string) : EngineM St unit :=
  let! ticket_id := sget (λ en, session_ticket session_id (en_state en)) in
  match ticket_id with
  | Some ticket_id => end_shell_session io now ticket_id session_id res
  | None => sret tt
  end.

Definition import_canonical_ticket (io1 io2 : put_io) (ticket : TicketRecord) : EngineM St unit :=
  let! existing := sget (λ en, engine_get_ticket en (tr_id ticket)) in
  let status_event := StatusChanged (tr_id ticket) (tr_state ticket) (tr_client_peer_id ticket) None in
  match existing with
  | None =>
      let! _ := append_ticket_event io1
      (Created (tr_id ticket) (tr_title ticket) (tr_description ticket) (tr_priority ticket)
      (tr_client_peer_id ticket)) (tr_created_at ticket) in
      if bool_decide (tr_state ticket = Open) then sret tt else
      let! _ := append_ticket_event io2 status_event (tr_updated_at ticket) in sret tt
  | Some curr =>
      if (tr_revision curr <? tr_revision ticket) && negb (bool_decide (tr_state ticket = tr_state curr))
      then let! _ := append_ticket_event io2 status_event (tr_updated_at ticket) in sret tt
      else sret tt
  end.

Definition import_ticket := import_canonical_ticket.

(** ** Remote objects *)

Definition reduce_state en : TicketEngine St := with_state en (reduce (en_graph en)).

Definition apply_remote_object (io : put_io) (obj : SignedObject) : EngineM St unit := λ en,
  match SignedObject_verify obj with
  | Err e => (Err (EVerify e), en)
  | Ok _ =>
      match Event_from_signed_object obj with
      | Err e => (Err (EEvent e), en)
      | Ok event =>
          let '(put, store) := os_put (en_store en) io obj in
          let en := with_store en store in
          match put with
          | Err e => (Err (EStore e), en)
          | Ok _ =>
              match graph_insert (en_graph en) event with
              | Err e => (Err (EGraph e), en)
              | Ok g => (Ok tt, reduce_state (with_graph en g))
              end
          end
      end
  end.

(** One object of a batch, and whether it counts. *)
Definition ingest_one en (io : put_io) (obj : SignedObject) : TicketEngine St * bool :=
  match SignedObject_verify obj, Event_from_signed_object obj with
  | Ok _, Ok event =>
      let '(put, store) := os_put (en_store en) io obj in
      let en := with_store en store in
      match put with
      | Err _ => (en, false)
      | Ok _ =>
          match graph_insert (en_graph en) event with
          | Err _ => (en, false)
          | Ok g => (with_graph en g, true)
          end
      end
  | _, _ => (en, false)
  end.

Fixpoint ingest_all en (count : nat) (objects : list (put_io * SignedObject))
    : TicketEngine St * nat :=
  match objects with
  | [] => (en, count)
  | (io, obj) :: objects =>
      let '(en, ok) := ingest_one en io obj in
      ingest_all en (if ok : bool then S count else count) objects
  end.

Definition apply_remote_objects (objects : list (put_io * SignedObject)) : EngineM St nat := λ en,
  let '(en, count) := ingest_all en 0 objects in
  (Ok count, if (0 <? count)%nat then reduce_state en else en).

(** ** Queries *)

Definition get_object en (i : ObjectId) : result EngineError (option SignedObject) :=
  map_err EStore (os_get (en_store en) i).

Fixpoint get_objects en (ids : list ObjectId) : result EngineError (list SignedObject) :=
  match ids with
  | [] => Ok []
  | i :: ids =>
      let? o := map_err EStore (os_get (en_store en) i) in
      let? objs := get_objects en ids in
      Ok (match o with Some obj => obj :: objs | None => objs end)
  end.

Definition get_ticket_objects en (ticket_id : string) : result EngineError (list SignedObject) :=
  get_objects en (ticket_event_ids (en_graph en) ticket_id).

Definition engine_ticket_heads en (ticket_id : string) : list ObjectId :=
  ticket_heads (en_graph en) ticket_id.
Definition engine_missing_parents en : list ObjectId := missing_parents (en_graph en).
Definition engine_list_tickets en f : list TicketRecord := list_tickets (en_state en) f.
Definition engine_get_active_ticket en : option TicketRecord := get_active_ticket (en_state en).

(** [TicketEngine::get]: the active ticket, or else the first of the list. *)
Definition engine_get en : option (string * TicketState) :=
  match engine_get_active_ticket en with
  | Some t => Some (tr_id t, tr_state t)
  | None => (λ t, (tr_id t, tr_state t)) <$> head (engine_list_tickets en None)
  end.

(** ** The outbox *)

Context `{OBC : OutboxCodec}.

Definition outbox_name (i : string) : string := from_bytes (as_bytes i ++ as_bytes ".json").
Definition outbox_tmp (i : string) : string := from_bytes (as_bytes i ++ as_bytes ".tmp").

(** [remove_outbox] on a disk that answers [answer] about a file that is there. *)
Definition remove_outbox (answer : remove_answer) (outbox_id : string) : EngineM St unit := λ en,
  match en_outbox en !! outbox_name outbox_id with
  | None => (Ok tt, en)
  | Some _ =>
      match answer with
      | RmRemoved => (Ok tt, with_outbox en (delete (outbox_name outbox_id) (en_outbox en)))
      | RmNotSeen => (Ok tt, en)
      | RmRefused => (Err EOutboxIo, en)
      end
  end.

(** [enqueue_outbox]: the record is written to a temporary file, then renamed. What a call
    that fails has written stays. *)
Definition enqueue_outbox (fault : option enqueue_fault) (uuid : string) (now : N)
    (peer_id kind payload : string) : EngineM St string := λ en,
  let rec := mkOutboxRecord uuid peer_id kind payload now in
  match fault with
  | Some EnqDir => (Err EOutboxIo, en)
  | _ =>
      match encode_outbox rec with
      | None => (Err EOutboxEncode, en)
      | Some b =>
          let written part := with_outbox en (<[outbox_tmp uuid := part]> (en_outbox en)) in
          match fault with
          | None =>
              (Ok uuid, with_outbox en (<[outbox_name uuid := b]> (delete (outbox_tmp uuid) (en_outbox en))))
          | Some EnqRename => (Err EOutboxIo, written b)
          | Some (EnqWrite (Some n)) => (Err EOutboxIo, written (take n b))
          | Some _ => (Err EOutboxIo, en)
          end
      end
  end.

(** One turn of the loop of [list_outbox_for_peer]: a file that cannot be read or decoded is
    passed over. *)
Definition outbox_file_record (io : list_io) en (peer_id name : string) : option OutboxRecord :=
  if bool_decide (path_extension name = Some "json"%string) then
  match (if lo_readable io name then en_outbox en !! name else None) ≫= decode_outbox with
  | Some rec => if bool_decide (ob_peer_id rec = peer_id) then Some rec else None
  | None => None
  end
  else None.

(** [sort_by_key(|r| r.created_at)], stable on the order of the directory. *)
Definition outbox_le (a b : OutboxRecord) : Prop := ob_created_at a ≤ ob_created_at b.
#[export] Instance outbox_le_dec : RelDecision outbox_le.
Proof. intros a b. unfold outbox_le. apply _. Defined.

Definition list_outbox_for_peer (io : list_io) en (peer_id : string)
    : result EngineError (list OutboxRecord) :=
  if negb (lo_dir_exists io) then Ok [] else
  match lo_read_dir io with
  | None => Err EOutboxIo
  | Some names => Ok (merge_sort outbox_le (omap (outbox_file_record io en peer_id) names))
  end.
End engine.

(** ** The engine invariant *)

(** Every event of a well-formed graph is at or below some head. *)
Lemma heads_dominate g x :
  graph_inv g → (∀ e, in_graph g e → ev_lamport e < u64_modulus) → in_graph g x →
  ∃ h, ev_id h ∈ hd (g_heads g) ∧ in_graph g h ∧ ev_lamport x ≤ ev_lamport h.
Proof.
  intros Hg Hr. remember (N.to_nat (u64_modulus - ev_lamport x)) as n eqn:Hn. revert x Hn.
  induction n as [n IH] using lt_wf_ind. intros x Hn Hx.
  destruct (decide (ev_id x ∈ hd (g_heads g))) as [Hh|Hh]; [by exists x|].
  assert (∃ c, c ∈ children_of g (ev_id x)) as [c Hc].
  { destruct (children_of g (ev_id x)) as [|c cs] eqn:E; [|exists c; left].
    destruct Hh. apply (gi_heads g Hg). split; [by exists x|]. intros c ce Hce Hin.
    assert (c ∈ children_of g (ev_id x)) as H by (apply elem_of_children; eauto).
    rewrite E in H. by apply not_elem_of_nil in H. }
  apply elem_of_children in Hc as (ce & Hce & Hin); [|done].
  pose proof (gi_lamport g Hg _ _ _ _ Hce Hin Hx) as Hlt.
  destruct (in_graph_lookup g Hg _ _ Hce) as [Hc _]. pose proof (Hr ce Hc).
  destruct (IH (N.to_nat (u64_modulus - ev_lamport ce)) ltac:(lia) ce eq_refl Hc) as (h & ? & ? & ?).
  exists h. split; [done|]. split; [done|]. lia.
Qed.

Section engine_lemmas.
Context `{CC : Crypto, HX : Hex, BC : BodyCodec, BL : !BodyCodecLaws, OC : ObjectCodec}.
Context {St : Type} `{OS : !ObjectStore St, OL : !ObjectStoreLaws St}.
Implicit Types en : TicketEngine St.

(** The graph's events are decoded from stored objects, and the state is the
    reduction of the graph. *)
Record engine_inv en : Prop := {
  ei_store : os_inv (en_store en);
  ei_graph : graph_inv (en_graph en);
  ei_backed e : in_graph (en_graph en) e →
  ∃ o, os_lookup (en_store en) (ev_id e) = Some o ∧ Event_from_signed_object o = Ok e;
  ei_state : en_state en = reduce (en_graph en)
}.

(** The id of [o], should the store hold it already, is not a hash collision. *)
Definition digest_fresh en (o : SignedObject) : Prop :=
  ∀ o', os_lookup (en_store en) (so_id o) = Some o' →
  ¬ collides (object_preimage o) (object_preimage o').

Lemma from_signed_object_decode o e :
  Event_from_signed_object o = Ok e →
  ∃ b, decode_body (so_payload o) = Some b ∧
  e = mkEvent (so_id o) (eb_parents b) (so_author o) (eb_timestamp b) (eb_lamport b) (eb_payload b).
Proof.
  unfold Event_from_signed_object. destruct (SignedObject_verify o) as [[]|]; simpl; [|done].
  destruct (decode_body (so_payload o)) as [b|]; simpl; [|done]. intros [= <-]. eauto.
Qed.

Lemma event_in_range o e :
  Event_from_signed_object o = Ok e → ev_lamport e < u64_modulus.
Proof.
  intros (b & Hb & ->)%from_signed_object_decode. simpl. by apply decode_body_range in Hb as [].
Qed.

(** Two verified objects with one id and no collision carry the same event. *)
Lemma same_id_same_event en o o' e :
  engine_inv en → Event_from_signed_object o = Ok e → so_created_at o < u64_modulus →
  digest_fresh en o → os_lookup (en_store en) (so_id o) = Some o' →
  Event_from_signed_object o' = Ok e.
Proof.
  intros He Ho Hr Hf Hl. pose proof (from_signed_object_Ok _ _ Ho) as (Hv & _ & _).
  destruct (os_lookup_verified _ _ _ (ei_store en He) Hl) as (Hv' & Hid & Hr').
  destruct (verified_same_id o o' Hv Hv') as (Ha & _ & Hp); [done|by apply Hf|done..|].
  apply from_signed_object_decode in Ho as (b & Hb & ->).
  unfold Event_from_signed_object. rewrite Hv'. simpl. rewrite <- Hp, Hb. simpl.
  by rewrite Hid, Ha.
Qed.

(** Storing an object and inserting its event, in that order, keeps the events
    backed; the heart of both local appends and remote ingestion. *)
Lemma put_insert_inv en io o e store i g :
  engine_inv en → os_io_ok io → so_created_at o < u64_modulus →
  Event_from_signed_object o = Ok e → digest_fresh en o → no_self_parent e →
  os_put (en_store en) io o = (Ok i, store) →
  graph_insert (en_graph en) e = Ok g →
  os_inv store ∧ graph_inv g ∧
  (∃ o', os_lookup store (ev_id e) = Some o' ∧ Event_from_signed_object o' = Ok e) ∧
  (∀ x, in_graph g x → ∃ o', os_lookup store (ev_id x) = Some o' ∧ Event_from_signed_object o' = Ok x).
Proof.
  intros He Hio Hr Ho Hf Hself Hput Hins.
  destruct (os_put_ok _ _ _ _ _ (ei_store en He) Hio Hr Hput) as (Hs & -> & _ & Hl).
  destruct (from_signed_object_Ok _ _ Ho) as (_ & Hid & _).
  assert (∃ o', os_lookup store (ev_id e) = Some o' ∧ Event_from_signed_object o' = Ok e) as Hnew.
  { rewrite Hid, Hl, decide_True by done.
    destruct (os_lookup (en_store en) (so_id o)) as [o'|] eqn:Hold; simpl; [|by exists o].
    exists o'. split; [done|]. by eapply same_id_same_event. }
  split; [done|]. split; [by eapply graph_insert_inv, Hins; [apply ei_graph|]|]. split; [done|].
  intros x Hx. destruct (g_events (en_graph en) !! ev_id e) as [e0|] eqn:Hk.
  - rewrite graph_insert_known in Hins by eauto. injection Hins as <-.
    destruct (ei_backed en He x Hx) as (o' & Ho' & Hd). rewrite Hl.
    case_decide as Hj; [|eauto]. exists o'. rewrite <- Hj, Ho'. done.
  - destruct (graph_insert_Ok_new _ _ _ Hk Hins) as (HE & _ & _).
    unfold in_graph in Hx. rewrite HE, lookup_insert_Some in Hx.
    destruct Hx as [[_ <-]|[Hne Hx]]; [done|].
    destruct (ei_backed en He x Hx) as (o' & Ho' & Hd). exists o'. split; [|done].
    rewrite Hl, decide_False by congruence. done.
Qed.

Lemma put_keeps_inv en io o r store :
  engine_inv en → os_io_ok io → so_created_at o < u64_modulus →
  os_put (en_store en) io o = (r, store) → engine_inv (with_store en store).
Proof.
  intros He Hio Hr Hput. assert (os_inv store ∧ ∀ i x, os_lookup (en_store en) i = Some x →
    os_lookup store i = Some x) as [Hs Hl].
  { destruct r as [i|err].
    - destruct (os_put_ok _ _ _ _ _ (ei_store en He) Hio Hr Hput) as (Hs & -> & _ & Hl).
      split; [done|]. intros j x Hx. rewrite Hl. case_decide as Hj; [|done]. by rewrite <- Hj, Hx.
    - destruct (os_put_err _ _ _ _ _ (ei_store en He) Hio Hput) as (Hs & Hl).
      split; [done|]. intros j x Hx. by rewrite Hl. }
  split; simpl; [done|apply ei_graph, He| |apply ei_state, He].
  intros e Hx. destruct (ei_backed en He e Hx) as (o' & Ho' & Hd). eauto.
Qed.

(** *** The event a local append makes *)

Lemma elem_of_current_heads en i :
  i ∈ current_heads en ↔ i ∈ hd (g_heads (en_graph en)).
Proof. apply elem_of_Heads_to_vec. Qed.

Lemma prepare_event_Ok `{!CryptoLaws} en te ts ev obj :
  signer_wf (en_signer en) → prepare_event en te ts = Ok (ev, obj) →
  Event_from_signed_object obj = Ok ev ∧ so_created_at obj = ts ∧
  ev_parents ev = current_heads en ∧ ev_timestamp ev = ts ∧ ev_payload ev = PTicket te ∧
  ev_author ev = Ed25519Signer_public_key (en_signer en) ∧
  ev_lamport ev = next_lamport (en_graph en) (current_heads en).
Proof.
  intros Hwf. unfold prepare_event, Event_new.
  destruct (encode_body _) as [p|] eqn:Henc; simpl; [|done]. intros [= <- <-]. simpl.
  split; [|done]. unfold Event_from_signed_object.
  rewrite SignedObject_sign_verify_ok by done. simpl.
  by rewrite (decode_encode_body _ _ Henc).
Qed.

(** No clock of the graph is at the top of its range. *)
Definition clock_free en : Prop :=
  ∀ e, in_graph (en_graph en) e → ev_lamport e < u64_max.

Lemma prepared_above en te ts ev obj x :
  engine_inv en → clock_free en →
  ev_lamport ev = next_lamport (en_graph en) (current_heads en) →
  prepare_event en te ts = Ok (ev, obj) →
  in_graph (en_graph en) x → ev_lamport x < ev_lamport ev.
Proof.
  intros He Hc Hlam _ Hx.
  destruct (heads_dominate (en_graph en) x) as (h & Hh & Hin & Hle);
    [apply ei_graph, He| |done|].
  { intros e Hi. specialize (Hc e Hi). unfold u64_max in Hc. lia. }
  rewrite Hlam. eapply N.le_lt_trans; [exact Hle|].
  eapply next_lamport_gt; [|by apply elem_of_current_heads|exact Hin].
  destruct (max_lamport_spec (en_graph en) (current_heads en)) as [_ [->|(p&pe&_&Hpe&<-)]]; [done|].
  apply Hc. by destruct (in_graph_lookup _ (ei_graph en He) _ _ Hpe).
Qed.

(** What BLAKE3 makes of the object a local append signs: its id is neither a
    collision with a stored object nor already named as a parent. *)
Definition fresh_append en te ts : Prop :=
  ∀ ev obj, prepare_event en te ts = Ok (ev, obj) →
  digest_fresh en obj ∧ ∀ c, in_graph (en_graph en) c → ev_id ev ∉ ev_parents c.

Lemma prepared_fresh `{!CryptoLaws} en te ts ev obj :
  engine_inv en → clock_free en → signer_wf (en_signer en) → ts < u64_modulus →
  prepare_event en te ts = Ok (ev, obj) → fresh_append en te ts →
  g_events (en_graph en) !! ev_id ev = None ∧ no_self_parent ev ∧
  causally_consistent (g_events (en_graph en)) ev ∧
  ∀ x, in_graph (en_graph en) x → ev_lamport x < ev_lamport ev.
Proof.
  intros He Hc Hwf Hts Hp Hf. destruct (Hf _ _ Hp) as [Hdf Hun].
  destruct (prepare_event_Ok _ _ _ _ _ Hwf Hp) as (Hd & Hcr & Hpar & _ & _ & _ & Hlam).
  assert (∀ x, in_graph (en_graph en) x → ev_lamport x < ev_lamport ev) as Habove
    by (intros x; by eapply prepared_above).
  destruct (from_signed_object_Ok _ _ Hd) as (_ & Hid & _).
  assert (g_events (en_graph en) !! ev_id ev = None) as Hnew.
  { destruct (g_events (en_graph en) !! ev_id ev) as [x|] eqn:Hx; [|done]. exfalso.
    destruct (in_graph_lookup _ (ei_graph en He) _ _ Hx) as [Hin Hxid].
    destruct (ei_backed en He x Hin) as (o' & Ho' & Hdx). rewrite Hxid, Hid in Ho'.
    assert (Event_from_signed_object o' = Ok ev) as Hde.
    { eapply same_id_same_event; [done|exact Hd|by rewrite Hcr|done|done]. }
    rewrite Hdx in Hde. injection Hde as ->. specialize (Habove ev Hin). lia. }
  split; [done|]. split; [|split; [split|done]].
  - intros Hself. rewrite Hpar, elem_of_current_heads in Hself.
    apply (gi_heads _ (ei_graph en He)) in Hself as [Hk _]. rewrite Hnew in Hk. by destruct Hk.
  - intros p pe _ Hpe. apply Habove. by destruct (in_graph_lookup _ (ei_graph en He) _ _ Hpe).
  - intros c ce Hce Hin. destruct (in_graph_lookup _ (ei_graph en He) _ _ Hce) as [Hc' _].
    by destruct (Hun ce Hc').
Qed.

Lemma reduce_skip en ev g :
  engine_inv en → no_self_parent ev → g_events (en_graph en) !! ev_id ev = None →
  (∀ x, in_graph (en_graph en) x → ev_lamport x < ev_lamport ev) →
  graph_insert (en_graph en) ev = Ok g →
  reduce g = apply_or_skip (en_state en) ev.
Proof.
  intros He Hs Hn Ha Hi. rewrite (ei_state en He). unfold reduce.
  erewrite topological_sort_snoc; [apply reduce_events_snoc|by apply ei_graph|done..|].
  intros x Hx. by apply event_lt_lamport, Ha.
Qed.

Lemma append_spec `{!CryptoLaws} io te ts en r en' :
  engine_inv en → clock_free en → signer_wf (en_signer en) → ts < u64_modulus →
  os_io_ok io → fresh_append en te ts →
  append_ticket_event io te ts en = (r, en') →
  engine_inv en' ∧ en_signer en' = en_signer en ∧ en_policy en' = en_policy en ∧
  en_outbox en' = en_outbox en ∧
  match r with
  | Ok (ev, obj) =>
    prepare_event en te ts = Ok (ev, obj) ∧ ev_payload ev = PTicket te ∧
    (∃ o', os_lookup (en_store en') (so_id obj) = Some o' ∧ Event_from_signed_object o' = Ok ev) ∧
    graph_insert (en_graph en) ev = Ok (en_graph en') ∧
    apply_event (en_state en) ev = Ok (en_state en')
  | Err (EEvent BodyEncodingFailed) => en' = en
  | Err (EStore e) => en_graph en' = en_graph en ∧ en_state en' = en_state en
  | Err (EReducer e) => en_state en' = en_state en ∧
    ∃ ev obj, prepare_event en te ts = Ok (ev, obj) ∧
      apply_event (en_state en) ev = Err e ∧ graph_insert (en_graph en) ev = Ok (en_graph en')
  | Err _ => False
  end.
Proof.
  intros He Hc Hwf Hts Hio Hf. unfold append_ticket_event.
  destruct (prepare_event en te ts) as [[ev obj]|err] eqn:Hp.
  2:{ intros [= <- <-]. split; [done|]. do 3 (split; [done|]).
    unfold prepare_event, Event_new in Hp. destruct (encode_body _); simpl in Hp; [done|].
    by injection Hp as <-. }
  destruct (prepare_event_Ok _ _ _ _ _ Hwf Hp) as (Hd & Hcr & _ & _ & Hpl & _ & _).
  destruct (prepared_fresh _ _ _ _ _ He Hc Hwf Hts Hp Hf) as (Hnew & Hself & Hcc & Habove).
  destruct (os_put (en_store en) io obj) as [put store] eqn:Hput.
  assert (so_created_at obj < u64_modulus) as Hcr' by (by rewrite Hcr).
  pose proof (put_keeps_inv _ _ _ _ _ He Hio Hcr' Hput) as He1.
  destruct put as [i|e]; [|by intros [= <- <-]].
  assert (is_ok (graph_insert (en_graph en) ev) = true) as Hok
    by (apply graph_insert_is_ok; [apply He|done|done]).
  simpl. destruct (graph_insert (en_graph en) ev) as [g|] eqn:Hins; [|done].
  destruct (put_insert_inv _ _ _ _ _ _ _ He Hio Hcr' Hd (proj1 (Hf _ _ Hp)) Hself Hput Hins)
    as (Hs & Hg & Ho' & Hb).
  pose proof (reduce_skip _ _ _ He Hself Hnew Habove Hins) as Hred.
  destruct (from_signed_object_Ok _ _ Hd) as (_ & Hid & _). unfold apply_or_skip in Hred.
  destruct (apply_event (en_state en) ev) as [s|e] eqn:Happ; intros [= <- <-]; simpl.
  - split; [by split|]. rewrite <- Hid. by repeat (split; [done|]).
  - split; [by split|]. repeat (split; [done|]). by exists ev, obj.
Qed.

(** *** Remote objects *)

Definition remote_ok en (o : SignedObject) : Prop :=
  so_created_at o < u64_modulus ∧ digest_fresh en o ∧
  ∀ e, Event_from_signed_object o = Ok e → no_self_parent e.

Lemma from_signed_object_verify_Err o err :
  SignedObject_verify o = Err err → Event_from_signed_object o = Err (InvalidEnvelope err).
Proof. unfold Event_from_signed_object. by intros ->. Qed.

(** The invariant without its clause on the reduced state, which a batch
    restores at its end. *)
Record engine_core en : Prop := {
  ec_store : os_inv (en_store en);
  ec_graph : graph_inv (en_graph en);
  ec_backed e : in_graph (en_graph en) e →
  ∃ o, os_lookup (en_store en) (ev_id e) = Some o ∧ Event_from_signed_object o = Ok e
}.

Lemma engine_core_inv en : engine_core en → engine_inv (reduce_state en).
Proof. intros [? ? ?]. by split. Qed.

Lemma engine_inv_core en : engine_inv en → engine_core en.
Proof. intros [? ? ? ?]. by split. Qed.

Lemma engine_core_state en en' :
  engine_core en → en_store en' = en_store en → en_graph en' = en_graph en → engine_core en'.
Proof. intros [H1 H2 H3] E1 E2. split; rewrite ?E1, ?E2; auto. Qed.

(** What ingesting one object does to the graph. *)
Lemma ingest_one_spec en io o en' ok :
  engine_core en → os_io_ok io → remote_ok en o → ingest_one en io o = (en', ok) →
  engine_core en' ∧ en_state en' = en_state en ∧
  if ok : bool then ∃ e, Event_from_signed_object o = Ok e ∧ graph_insert (en_graph en) e = Ok (en_graph en')
  else en_graph en' = en_graph en.
Proof.
  intros He Hio (Hr & Hf & Hself). unfold ingest_one.
  destruct (SignedObject_verify o) as [[]|]; [|by intros [= <- <-]].
  destruct (Event_from_signed_object o) as [e|] eqn:Hd; [|by intros [= <- <-]].
  destruct (os_put (en_store en) io o) as [put store] eqn:Hput.
  pose proof (engine_core_inv _ He) as Hi.
  pose proof (put_keeps_inv (reduce_state en) _ _ _ _ Hi Hio Hr Hput) as Hi1.
  assert (engine_core (with_store en store)) as He1
    by (by apply engine_inv_core, (engine_core_state _ (with_store en store)) in Hi1).
  destruct put as [i|err]; [|by intros [= <- <-]]. simpl.
  destruct (graph_insert (en_graph en) e) as [g|err] eqn:Hins; intros [= <- <-]; [|done].
  destruct (put_insert_inv (reduce_state en) _ _ _ _ _ _ Hi Hio Hr Hd Hf (Hself _ eq_refl) Hput Hins)
    as (Hs & Hg & _ & Hb).
  split; [by split|]. split; [done|]. by exists e.
Qed.

Lemma apply_remote_object_ingest io o en :
  apply_remote_object io o en =
  let '(en', ok) := ingest_one en io o in
  if ok : bool then (Ok tt, reduce_state en')
  else ((apply_remote_object io o en).1, en').
Proof.
  unfold apply_remote_object, ingest_one.
  destruct (SignedObject_verify o); [|done]. destruct (Event_from_signed_object o); [|done].
  destruct (os_put _ _ _) as [[|] ?]; [|done]. by destruct (graph_insert _ _).
Qed.

Lemma ingest_one_false_err io o en en' :
  ingest_one en io o = (en', false) → ∃ err, (apply_remote_object io o en).1 = Err err.
Proof.
  unfold apply_remote_object, ingest_one.
  destruct (SignedObject_verify o); [|eauto]. destruct (Event_from_signed_object o); [|eauto].
  destruct (os_put _ _ _) as [[|] ?]; simpl; [|eauto]. destruct (graph_insert _ _); [done|eauto].
Qed.

(** A set of objects without BLAKE3 collisions, in which no event lists itself:
    what holds of all the objects a network ever signs. *)
Record world_ok (P : SignedObject → Prop) : Prop := {
  wo_collision o o' : P o → P o' → ¬ collides (object_preimage o) (object_preimage o');
  wo_range o : P o → so_created_at o < u64_modulus;
  wo_self o e : P o → Event_from_signed_object o = Ok e → no_self_parent e
}.

Definition stored_in (P : SignedObject → Prop) en : Prop :=
  ∀ i o, os_lookup (en_store en) i = Some o → P o.

Lemma world_remote_ok P en o : world_ok P → stored_in P en → P o → remote_ok en o.
Proof.
  intros Hw Hs Ho. split; [by eapply wo_range|]. split.
  - intros o' Hl. eapply wo_collision; [done|done|by eapply Hs].
  - intros e. by eapply wo_self.
Qed.

Lemma ingest_one_stored P en io o en' ok :
  engine_core en → os_io_ok io → world_ok P → stored_in P en → P o →
  ingest_one en io o = (en', ok) → stored_in P en'.
Proof.
  intros He Hio Hw Hs Ho. unfold ingest_one.
  destruct (SignedObject_verify o) as [[]|]; [|by intros [= <- <-]].
  destruct (Event_from_signed_object o) as [e|]; [|by intros [= <- <-]].
  destruct (os_put (en_store en) io o) as [put store] eqn:Hput.
  assert (stored_in P (with_store en store)) as Hst.
  { intros j x. simpl. destruct put as [i|err].
    - destruct (os_put_ok _ _ _ _ _ (ec_store en He) Hio (wo_range P Hw o Ho) Hput) as (_ & -> & _ & Hl).
      rewrite Hl. case_decide; [|apply Hs]. intros [= <-].
      destruct (os_lookup (en_store en) (so_id o)) eqn:E; simpl; [by eapply Hs|done].
    - destruct (os_put_err _ _ _ _ _ (ec_store en He) Hio Hput) as [_ Hl]. rewrite Hl. apply Hs. }
  destruct put; [|by intros [= <- <-]]. simpl.
  by destruct (graph_insert _ _); intros [= <- <-].
Qed.

(** The events a batch of objects decodes to. *)
Definition decoded (os : list SignedObject) : list Event :=
  omap (λ o, match Event_from_signed_object o with Ok e => Some e | Err _ => None end) os.

Lemma ingest_all_spec P objects : ∀ en n en' m,
  world_ok P → engine_core en → stored_in P en →
  Forall (λ x, os_io_ok x.1 ∧ P x.2) objects →
  ingest_all en n objects = (en', m) →
  engine_core en' ∧ stored_in P en' ∧ en_state en' = en_state en ∧
  (n ≤ m)%nat ∧ (m ≤ n + length objects)%nat ∧ (m = n → en_graph en' = en_graph en).
Proof.
  induction objects as [|[io o] os IH]; intros en n en' m Hw He Hs Hio; simpl.
  { intros [= <- <-]. split; [done|]. do 2 (split; [done|]). split; [lia|]. split; [lia|done]. }
  apply Forall_cons in Hio as [[Hio1 Ho] Hio]. simpl in *. intros Hall.
  destruct (ingest_one en io o) as [en1 ok] eqn:H1.
  destruct (ingest_one_spec _ _ _ _ _ He Hio1 (world_remote_ok P en o Hw Hs Ho) H1) as (He1 & Hs1 & Hg1).
  pose proof (ingest_one_stored P _ _ _ _ _ He Hio1 Hw Hs Ho H1) as Hst1.
  destruct (IH _ _ _ _ Hw He1 Hst1 Hio Hall) as (He' & Hst' & Hs' & Hn & Hm & Hz).
  split; [done|]. split; [done|]. split; [congruence|]. destruct ok.
  - split; [lia|]. split; [lia|]. lia.
  - split; [lia|]. split; [lia|]. intros ->. rewrite Hz; done.
Qed.

(** *** Opening *)

Lemma foldl_insert_loaded objs : ∀ g,
  foldl insert_loaded g objs = foldl graph_deliver g (decoded objs).
Proof.
  unfold decoded. induction objs as [|o objs IH]; intros g; simpl; [done|].
  rewrite IH. unfold insert_loaded. destruct (Event_from_signed_object o); done.
Qed.

Lemma elem_of_decoded os e :
  e ∈ decoded os ↔ ∃ o, o ∈ os ∧ Event_from_signed_object o = Ok e.
Proof.
  unfold decoded. rewrite list_elem_of_omap. split.
  - intros (o & Ho & Hd). exists o. split; [done|].
    destruct (Event_from_signed_object o); congruence.
  - intros (o & Ho & Hd). exists o. by rewrite Hd.
Qed.

(** A graph's events, listed from the store, rebuild the graph. *)
Lemma reload_events en objs :
  engine_core en →
  (∀ o, o ∈ objs ↔ os_lookup (en_store en) (so_id o) = Some o) →
  (∀ i o e, os_lookup (en_store en) i = Some o → Event_from_signed_object o = Ok e →
   in_graph (en_graph en) e) →
  graph_inv (foldl insert_loaded EventGraph_new objs) ∧
  g_events (foldl insert_loaded EventGraph_new objs) = g_events (en_graph en).
Proof.
  intros He Hobjs Horph. rewrite foldl_insert_loaded. change (foldl graph_deliver EventGraph_new) with graph_of.
  assert (∀ e, e ∈ decoded objs ↔ in_graph (en_graph en) e) as Hel.
  { intros e. rewrite elem_of_decoded. split.
    - intros (o & Ho%Hobjs & Hd). by eapply Horph.
    - intros Hin. destruct (ec_backed en He e Hin) as (o & Ho & Hd). exists o. split; [|done].
      apply Hobjs. by destruct (from_signed_object_Ok _ _ Hd) as (_ & <- & _). }
  assert (consistent_events (decoded objs)) as Hc.
  { split.
    - intros a b Ha%Hel Hb%Hel. by apply (in_graph_inj (en_graph en)).
    - intros a p Ha%Hel Hp%Hel Hin. by eapply (gi_lamport _ (ec_graph en He)). }
  destruct (graph_of_spec _ Hc) as [H1 H2]. split; [done|].
  apply graph_events_ext; [done|apply He|]. intros e. by rewrite H2, Hel.
Qed.

Lemma ingest_all_events P objects : ∀ en n en' m,
  world_ok P → engine_core en → stored_in P en →
  Forall (λ x, os_io_ok x.1 ∧ P x.2) objects →
  ingest_all en n objects = (en', m) →
  (∀ e, in_graph (en_graph en) e → in_graph (en_graph en') e) ∧
  (m = (n + length objects)%nat →
  ∀ x, x ∈ objects → ∃ e, Event_from_signed_object x.2 = Ok e ∧
   is_Some (g_events (en_graph en') !! ev_id e)).
Proof.
  induction objects as [|[io o] os IH]; intros en n en' m Hw He Hs Hio; simpl.
  { intros [= <- <-]. split; [done|]. set_solver. }
  apply Forall_cons in Hio as [[Hio1 Ho] Hio]. simpl in *. intros Hall.
  destruct (ingest_one en io o) as [en1 ok] eqn:H1.
  destruct (ingest_one_spec _ _ _ _ _ He Hio1 (world_remote_ok P en o Hw Hs Ho) H1) as (He1 & _ & Hg1).
  pose proof (ingest_one_stored P _ _ _ _ _ He Hio1 Hw Hs Ho H1) as Hst1.
  destruct (ingest_all_spec P _ _ _ _ _ Hw He1 Hst1 Hio Hall) as (_ & _ & _ & _ & Hm & _).
  destruct (IH _ _ _ _ Hw He1 Hst1 Hio Hall) as [Hmono Hin].
  assert (∀ e, in_graph (en_graph en) e → in_graph (en_graph en1) e) as Hmono1.
  { intros e Hx. destruct ok; [|by rewrite Hg1]. destruct Hg1 as (e1 & _ & Hi).
    destruct (g_events (en_graph en) !! ev_id e1) as [e0|] eqn:Hk.
    - rewrite graph_insert_known in Hi by eauto. congruence.
    - destruct (graph_insert_Ok_new _ _ _ Hk Hi) as (HE & _ & _). unfold in_graph.
      rewrite HE, lookup_insert_ne; [done|]. intros Heq. unfold in_graph in Hx. congruence. }
  split; [auto|]. intros Hcount x [->|Hx]%elem_of_cons; destruct ok; try (simpl in *; lia).
  - destruct Hg1 as (e1 & Hd & Hi). exists e1. split; [done|].
    assert (is_Some (g_events (en_graph en1) !! ev_id e1)) as [e2 He2].
    { destruct (g_events (en_graph en) !! ev_id e1) as [e0|] eqn:Hk.
      - rewrite graph_insert_known in Hi by eauto. injection Hi as <-. eauto.
      - destruct (graph_insert_Ok_new _ _ _ Hk Hi) as (HE & _ & _). rewrite HE, lookup_insert_eq. eauto. }
    destruct (in_graph_lookup _ (ec_graph en1 He1) _ _ He2) as [Hin2 Hid2].
    exists e2. rewrite <- Hid2. by apply Hmono.
  - apply Hin; [lia|done].
Qed.

(** Between engines of one world an id names one event. *)
Lemma same_id_in_world P en1 en2 e1 e2 :
  world_ok P → engine_inv en1 → engine_inv en2 → stored_in P en1 → stored_in P en2 →
  in_graph (en_graph en1) e1 → in_graph (en_graph en2) e2 → ev_id e1 = ev_id e2 → e1 = e2.
Proof.
  intros Hw H1 H2 Hs1 Hs2 Hi1 Hi2 Hid.
  destruct (ei_backed en1 H1 e1 Hi1) as (o1 & Ho1 & Hd1).
  destruct (ei_backed en2 H2 e2 Hi2) as (o2 & Ho2 & Hd2).
  destruct (from_signed_object_Ok _ _ Hd1) as (Hv1 & E1 & _).
  destruct (from_signed_object_Ok _ _ Hd2) as (Hv2 & E2 & _).
  destruct (verified_same_id o1 o2 Hv1 Hv2) as (Ha & _ & Hp); [congruence| |..].
  { eapply wo_collision; [done|by eapply Hs1|by eapply Hs2]. }
  { eapply wo_range; [done|by eapply Hs1]. }
  { eapply wo_range; [done|by eapply Hs2]. }
  apply from_signed_object_decode in Hd1 as (b1 & Hb1 & ->), Hd2 as (b2 & Hb2 & ->).
  simpl in *. congruence.
Qed.
End engine_lemmas.

(** *** The record operations on top of [append] *)

Section engine_ops.
Context `{CC : Crypto, CL : !CryptoLaws, HX : Hex, BC : BodyCodec, BL : !BodyCodecLaws, OC : ObjectCodec}.
Context {St : Type} `{OS : !ObjectStore St, OL : !ObjectStoreLaws St}.
Implicit Types en : TicketEngine St.

(** What an accepted append does to the tickets. *)
Lemma apply_event_get s e s' t k :
  Event_ticket_id e = Some t → apply_event s e = Ok s' →
  get_ticket s' k = if decide (k = t) then
  match transform e (s !! t) with Ok oa => agg_record <$> oa | Err _ => None end
  else get_ticket s k.
Proof.
  intros Ht Ha. destruct (apply_event_Ok _ _ _ _ Ht Ha) as (a & Htr & ->). unfold get_ticket.
  case_decide as Hk; [subst k; by rewrite lookup_insert_eq, Htr|].
  by rewrite lookup_insert_ne by done.
Qed.

Lemma event_ticket_payload e te :
  ev_payload e = PTicket te → Event_ticket_id e = Some (TicketEvent_ticket_id te).
Proof. unfold Event_ticket_id. by intros ->. Qed.

Lemma prepared_stamp en te ts ev obj :
  prepare_event en te ts = Ok (ev, obj) → ev_timestamp ev = ts ∧ ev_payload ev = PTicket te.
Proof.
  unfold prepare_event, Event_new. destruct (encode_body _); simpl; [|done]. by intros [= <- _].
Qed.

Lemma transform_status e t new_state actor reason a :
  ev_payload e = PTicket (StatusChanged t new_state actor reason) →
  can_transition_to (tr_state (agg_record a)) new_state = true →
  ∃ b, transform e (Some a) = Ok (Some b) ∧
  agg_record b = set_state (agg_record a) new_state (ev_timestamp e).
Proof.
  intros Hp Ht. unfold transform. rewrite Hp. destruct a as [r ms ats ss evs]. simpl in *.
  rewrite Ht. simpl. eexists. split; [done|]. done.
Qed.

Lemma transform_created e t ti de pr cl :
  ev_payload e = PTicket (Created t ti de pr cl) →
  ∃ b, transform e None = Ok (Some b) ∧
  agg_record b = mkTicketRecord t ti de Open pr cl 1 (ev_timestamp e) (ev_timestamp e) None.
Proof. intros Hp. unfold transform. rewrite Hp. by eexists. Qed.
(** What an append needs: the clocks below their maximum, a time of 64 bits, an
    honest disk and a fresh hash. *)
Record append_ready en (io : put_io) (te : TicketEvent) (ts : N) : Prop := {
  ar_clock : clock_free en;
  ar_time : ts < u64_modulus;
  ar_io : os_io_ok io;
  ar_fresh : fresh_append en te ts
}.

(** The parts of the engine an append leaves alone. *)
Definition same_setup en en' : Prop :=
  en_signer en' = en_signer en ∧ en_policy en' = en_policy en ∧ en_outbox en' = en_outbox en.

(** An append acts on the one ticket it names, through [transform]. *)
Lemma append_outcome io te ts en r en' :
  engine_inv en → signer_wf (en_signer en) → append_ready en io te ts →
  append_ticket_event io te ts en = (r, en') →
  engine_inv en' ∧ same_setup en en' ∧
  match r with
  | Ok (ev, _) =>
      ev_timestamp ev = ts ∧ ev_payload ev = PTicket te ∧
      (∃ a, transform ev (en_state en !! TicketEvent_ticket_id te) = Ok (Some a) ∧
            en_state en' = <[TicketEvent_ticket_id te := a]> (en_state en))
  | Err (EReducer e) =>
      en_state en' = en_state en ∧
      (∃ ev, ev_timestamp ev = ts ∧ ev_payload ev = PTicket te ∧
             transform ev (en_state en !! TicketEvent_ticket_id te) = Err e)
  | Err (EEvent _ | EStore _) => en_state en' = en_state en
  | Err _ => False
  end.
Proof.
  intros He Hwf [Hc Hts Hio Hf] Happ.
  destruct (append_spec _ _ _ _ _ _ He Hc Hwf Hts Hio Hf Happ) as (He' & H1 & H2 & H3 & Hr).
  split; [done|]. split; [done|]. destruct r as [[ev obj]|[e|e|e|e|e| | | | |]]; try done.
  - destruct Hr as (Hp & Hpl & _ & _ & Hap). destruct (prepared_stamp _ _ _ _ _ Hp) as [Hs _].
    split; [done|]. split; [done|].
    by apply (apply_event_Ok _ _ _ _ (event_ticket_payload _ _ Hpl)) in Hap.
  - destruct e; try done. by subst.
  - by destruct Hr as [_ ->].
  - destruct Hr as (Hst & ev & obj & Hp & Herr & _). destruct (prepared_stamp _ _ _ _ _ Hp) as [Hs Hpl].
    split; [done|]. exists ev. split; [done|]. split; [done|].
    rewrite (apply_event_transform _ _ _ (event_ticket_payload _ _ Hpl)) in Herr.
    destruct (transform _ _) as [[a|]|]; simpl in Herr; congruence.
Qed.

Lemma get_ticket_insert (s : TicketStateStore) t a k :
  get_ticket (<[t := a]> s) k = if decide (k = t) then Some (agg_record a) else get_ticket s k.
Proof.
  unfold get_ticket. case_decide as Hk; [subst; by rewrite lookup_insert_eq|].
  by rewrite lookup_insert_ne.
Qed.

Lemma engine_get_ticket_Some en t r :
  engine_get_ticket en t = Some r ↔ ∃ a, en_state en !! t = Some a ∧ agg_record a = r.
Proof. unfold engine_get_ticket, get_ticket. rewrite fmap_Some. naive_solver. Qed.

Lemma append_status io now t new_state actor reason cur en r en' :
  engine_inv en → signer_wf (en_signer en) →
  append_ready en io (StatusChanged t new_state actor reason) now →
  engine_get_ticket en t = Some cur → can_transition_to (tr_state cur) new_state = true →
  append_ticket_event io (StatusChanged t new_state actor reason) now en = (r, en') →
  engine_inv en' ∧ same_setup en en' ∧
  match r with
  | Ok _ => ∀ k, engine_get_ticket en' k =
      if decide (k = t) then Some (set_state cur new_state now) else engine_get_ticket en k
  | Err (EEvent _ | EStore _) => ∀ k, engine_get_ticket en' k = engine_get_ticket en k
  | Err _ => False
  end.
Proof.
  intros He Hwf Hready Hget Htr Happ.
  destruct (append_outcome _ _ _ _ _ _ He Hwf Hready Happ) as (He' & Hs & Hr).
  apply engine_get_ticket_Some in Hget as (a & Ha & <-).
  split; [done|]. split; [done|]. destruct r as [[ev obj]|[e|e|e|e|e| | | | |]]; try done.
  - destruct Hr as (Hts & Hpl & b & Hb & Hst). simpl in *. rewrite Ha in Hb.
    destruct (transform_status _ _ _ _ _ _ Hpl Htr) as (b' & Hb' & Hrec).
    rewrite Hb in Hb'. injection Hb' as <-. intros k. unfold engine_get_ticket.
    by rewrite Hst, get_ticket_insert, Hrec, Hts.
  - unfold engine_get_ticket. by rewrite Hr.
  - unfold engine_get_ticket. by rewrite Hr.
  - destruct Hr as (_ & ev & _ & Hpl & Herr). simpl in *. rewrite Ha in Herr.
    destruct (transform_status _ _ _ _ _ _ Hpl Htr) as (b' & Hb' & _). congruence.
Qed.

Lemma append_created io now t ti de pr cl en r en' :
  engine_inv en → signer_wf (en_signer en) → append_ready en io (Created t ti de pr cl) now →
  append_ticket_event io (Created t ti de pr cl) now en = (r, en') →
  engine_inv en' ∧ same_setup en en' ∧
  match r with
  | Ok _ => engine_get_ticket en t = None ∧ ∀ k, engine_get_ticket en' k =
      if decide (k = t) then Some (mkTicketRecord t ti de Open pr cl 1 now now None)
      else engine_get_ticket en k
  | Err e =>
      (∀ k, engine_get_ticket en' k = engine_get_ticket en k) ∧
      match e with
      | EEvent _ | EStore _ => True
      | EReducer (TicketExists t') => t' = t ∧ is_Some (engine_get_ticket en t)
      | _ => False
      end
  end.
Proof.
  intros He Hwf Hready Happ.
  destruct (append_outcome _ _ _ _ _ _ He Hwf Hready Happ) as (He' & Hs & Hr).
  split; [done|]. split; [done|]. unfold engine_get_ticket.
  destruct r as [[ev obj]|[e|e|e|e|e| | | | |]]; try done; try (by rewrite Hr).
  - destruct Hr as (Hts & Hpl & b & Hb & Hst). simpl in *.
    destruct (transform_created _ _ _ _ _ _ Hpl) as (b' & Hb' & Hrec). split.
    + unfold get_ticket. destruct (en_state en !! t); [|done].
      unfold transform in Hb. by rewrite Hpl in Hb.
    + assert (en_state en !! t = None) as Hn.
      { destruct (en_state en !! t); [|done]. unfold transform in Hb. by rewrite Hpl in Hb. }
      rewrite Hn, Hb' in Hb. injection Hb as <-. intros k.
      by rewrite Hst, get_ticket_insert, Hrec, Hts.
  - destruct Hr as (Hst & ev & _ & Hpl & Herr). simpl in *. rewrite Hst. split; [done|].
    unfold transform in Herr. rewrite Hpl in Herr. unfold get_ticket.
    destruct (en_state en !! t); simplify_eq/=. by eauto.
Qed.

(** Events other than creations and status changes: the fields of the ticket a peer
    sees, but its revision and time of change, stay. *)
Definition is_note (te : TicketEvent) : bool :=
  match te with Created _ _ _ _ _ | StatusChanged _ _ _ _ => false | _ => true end.

Definition same_ticket (a b : TicketRecord) : Prop :=
  tr_id b = tr_id a ∧ tr_title b = tr_title a ∧ tr_description b = tr_description a ∧
  tr_state b = tr_state a ∧ tr_priority b = tr_priority a ∧
  tr_client_peer_id b = tr_client_peer_id a ∧ tr_created_at b = tr_created_at a ∧
  tr_closed_at b = tr_closed_at a.

Lemma transform_note e te a :
  ev_payload e = PTicket te → is_note te = true →
  ∃ b, transform e (Some a) = Ok (Some b) ∧ same_ticket (agg_record a) (agg_record b) ∧
    update_aggregate (ev_timestamp e) (ObjectId_to_hex (ev_id e)) (event_actor e) te a = Ok b.
Proof.
  intros Hp Hn. unfold transform. rewrite Hp. destruct a as [r ms ats ss evs].
  destruct te; try done; simpl; repeat case_match; simplify_eq/=;
    (eexists; split; [done|]; split; [by repeat split|done]).
Qed.

Lemma append_note io te now en r en' :
  engine_inv en → signer_wf (en_signer en) → append_ready en io te now → is_note te = true →
  append_ticket_event io te now en = (r, en') →
  engine_inv en' ∧ same_setup en en' ∧
  match r with
  | Ok (ev, _) => ∃ a b, en_state en !! TicketEvent_ticket_id te = Some a ∧
      update_aggregate now (ObjectId_to_hex (ev_id ev)) (event_actor ev) te a = Ok b ∧
      same_ticket (agg_record a) (agg_record b) ∧
      en_state en' = <[TicketEvent_ticket_id te := b]> (en_state en)
  | Err (EReducer e) => en_state en' = en_state en ∧
      e = TicketNotFound (TicketEvent_ticket_id te) ∧ engine_get_ticket en (TicketEvent_ticket_id te) = None
  | Err (EEvent _ | EStore _) => en_state en' = en_state en
  | Err _ => False
  end.
Proof.
  intros He Hwf Hready Hn Happ.
  destruct (append_outcome _ _ _ _ _ _ He Hwf Hready Happ) as (He' & Hs & Hr).
  split; [done|]. split; [done|]. destruct r as [[ev obj]|[e|e|e|e|e| | | | |]]; try done.
  - destruct Hr as (Hts & Hpl & b & Hb & Hst). destruct (en_state en !! _) as [a|] eqn:Ha.
    + destruct (transform_note _ _ a Hpl Hn) as (b' & Hb' & Hsame & Hu). rewrite Hb in Hb'.
      injection Hb' as <-. exists a, b. by rewrite <- Hts.
    + unfold transform in Hb. rewrite Hpl in Hb. by destruct te.
  - destruct Hr as (Hst & ev & _ & Hpl & Herr). split; [done|]. unfold engine_get_ticket, get_ticket.
    destruct (en_state en !! _) as [a|] eqn:Ha.
    + destruct (transform_note _ _ a Hpl Hn) as (b' & Hb' & _). congruence.
    + unfold transform in Herr. rewrite Hpl in Herr. by destruct te; simplify_eq/=.
Qed.

Lemma append_status_refused io now t new_state actor reason cur en r en' :
  engine_inv en → signer_wf (en_signer en) →
  append_ready en io (StatusChanged t new_state actor reason) now →
  engine_get_ticket en t = Some cur → can_transition_to (tr_state cur) new_state = false →
  append_ticket_event io (StatusChanged t new_state actor reason) now en = (r, en') →
  engine_inv en' ∧ same_setup en en' ∧ is_ok r = false ∧
  ∀ k, engine_get_ticket en' k = engine_get_ticket en k.
Proof.
  intros He Hwf Hready Hget Htr Happ.
  destruct (append_outcome _ _ _ _ _ _ He Hwf Hready Happ) as (He' & Hs & Hr).
  apply engine_get_ticket_Some in Hget as (a & Ha & <-).
  split; [done|]. split; [done|]. unfold engine_get_ticket.
  destruct r as [[ev obj]|[e|e|e|e|e| | | | |]]; try done; try (by rewrite Hr).
  - destruct Hr as (_ & Hpl & b & Hb & _). simpl in Hb. rewrite Ha in Hb. exfalso.
    unfold transform in Hb. rewrite Hpl in Hb. destruct a. simpl in *. by rewrite Htr in Hb.
  - destruct Hr as (-> & _). done.
Qed.

(** [update_ticket_state] on every branch. *)
Lemma update_ticket_state_spec io now t new_state actor en :
  engine_inv en → signer_wf (en_signer en) →
  append_ready en io (StatusChanged t new_state actor None) now →
  let '(r, en') := update_ticket_state io now t new_state actor en in
  engine_inv en' ∧ same_setup en en' ∧
  match engine_get_ticket en t with
  | None => r = Err ETicketNotFound ∧ en' = en
  | Some cur =>
      if can_transition_to (tr_state cur) new_state then
        match r with
        | Ok rec => rec = set_state cur new_state now ∧ ∀ k, engine_get_ticket en' k =
            if decide (k = t) then Some rec else engine_get_ticket en k
        | Err (EEvent _ | EStore _) => ∀ k, engine_get_ticket en' k = engine_get_ticket en k
        | Err _ => False
        end
      else r = Err (EBadTransition (tr_state cur) new_state) ∧ en' = en
  end.
Proof.
  intros He Hwf Hready. unfold update_ticket_state.
  destruct (engine_get_ticket en t) as [cur|] eqn:Hget; [|done].
  unfold can_transition_ticket. destruct (can_transition_to _ _) eqn:Htr; [|done]. simpl.
  unfold sbind. destruct (append_ticket_event _ _ _ en) as [r en'] eqn:Happ.
  destruct (append_status _ _ _ _ _ _ _ _ _ _ He Hwf Hready Hget Htr Happ) as (He' & Hs & Hr).
  destruct r as [p|e]; [|done]. unfold retrieve. rewrite (Hr t), decide_True by done. done.
Qed.

(** *** Importing the record of a peer *)

(** What both appends of an import need. *)
Definition created_event (tk : TicketRecord) : TicketEvent :=
  Created (tr_id tk) (tr_title tk) (tr_description tk) (tr_priority tk) (tr_client_peer_id tk).
Definition status_event (tk : TicketRecord) : TicketEvent :=
  StatusChanged (tr_id tk) (tr_state tk) (tr_client_peer_id tk) None.

Record import_ready en (io1 io2 : put_io) (tk : TicketRecord) : Prop := {
  ir_created : append_ready en io1 (created_event tk) (tr_created_at tk);
  ir_status en1 :
    en1 = en ∨ en1 = (append_ticket_event io1 (created_event tk) (tr_created_at tk) en).2 →
    append_ready en1 io2 (status_event tk) (tr_updated_at tk)
}.

(** The record a creation leaves. *)
Definition opened (tk : TicketRecord) : TicketRecord :=
  mkTicketRecord (tr_id tk) (tr_title tk) (tr_description tk) Open (tr_priority tk)
    (tr_client_peer_id tk) 1 (tr_created_at tk) (tr_created_at tk) None.

(** What an import makes of an unknown ticket. *)
Definition imported (tk : TicketRecord) : TicketRecord :=
  if bool_decide (tr_state tk = Open) then opened tk
  else set_state (opened tk) (tr_state tk) (tr_updated_at tk).

(** The append of a status that follows a creation. *)
Lemma append_imported_status io tk en r en' :
  engine_inv en → signer_wf (en_signer en) → append_ready en io (status_event tk) (tr_updated_at tk) →
  engine_get_ticket en (tr_id tk) = Some (opened tk) →
  append_ticket_event io (status_event tk) (tr_updated_at tk) en = (r, en') →
  engine_inv en' ∧ same_setup en en' ∧
  (∀ k, k ≠ tr_id tk → engine_get_ticket en' k = engine_get_ticket en k) ∧
  engine_get_ticket en' (tr_id tk) = Some
    (match r with Ok _ => set_state (opened tk) (tr_state tk) (tr_updated_at tk) | Err _ => opened tk end).
Proof.
  intros He Hwf Hready Hop Happ.
  assert (can_transition_to (tr_state (opened tk)) (tr_state tk) = true) as Htr
    by (simpl; by destruct (tr_state tk)).
  destruct (append_status _ _ _ _ _ _ _ _ _ _ He Hwf Hready Hop Htr Happ) as (He' & Hs & Hr).
  split; [done|]. split; [done|]. destruct r as [q|e].
  - split; [intros k Hk; by rewrite (Hr k), decide_False|]. by rewrite (Hr (tr_id tk)), decide_True.
  - assert (∀ k, engine_get_ticket en' k = engine_get_ticket en k) as Hsame by (by destruct e).
    split; [by intros k _|]. by rewrite Hsame.
Qed.

Lemma import_new io1 io2 tk en :
  engine_inv en → signer_wf (en_signer en) → import_ready en io1 io2 tk →
  engine_get_ticket en (tr_id tk) = None →
  let '(r, en') := import_canonical_ticket io1 io2 tk en in
  engine_inv en' ∧ same_setup en en' ∧
  (∀ k, k ≠ tr_id tk → engine_get_ticket en' k = engine_get_ticket en k) ∧
  match r with
  | Ok _ => engine_get_ticket en' (tr_id tk) = Some (imported tk)
  | Err _ => engine_get_ticket en' (tr_id tk) = None ∨
             engine_get_ticket en' (tr_id tk) = Some (opened tk) ∧ tr_state tk ≠ Open
  end.
Proof.
  intros He Hwf [Hc Hst] Hget. unfold import_canonical_ticket, sbind at 1, sget. rewrite Hget.
  unfold sbind at 1. specialize (Hst _ (or_intror eq_refl)).
  change (append_ticket_event io1 _ _ en) with
    (append_ticket_event io1 (created_event tk) (tr_created_at tk) en) in *.
  destruct (append_ticket_event io1 (created_event tk) (tr_created_at tk) en) as [r en1] eqn:Happ.
  destruct (append_created _ _ _ _ _ _ _ _ _ _ He Hwf Hc Happ) as (He1 & Hs1 & Hr).
  destruct r as [p|e].
  2:{ destruct Hr as [Hsame _]. split; [done|]. split; [done|]. split; [by intros k _|].
      left. by rewrite Hsame. }
  destruct Hr as [_ Hall]. fold (opened tk) in Hall. unfold imported.
  pose proof (Hall (tr_id tk)) as Hop. rewrite decide_True in Hop by done.
  assert (∀ k, k ≠ tr_id tk → engine_get_ticket en1 k = engine_get_ticket en k) as Hother
    by (intros k Hk; by rewrite (Hall k), decide_False).
  case_bool_decide as Hopen; [done|]. unfold sbind.
  destruct (append_ticket_event io2 _ _ en1) as [r en2] eqn:Happ2.
  destruct Hs1 as (Hsig & Hpol & Hob).
  destruct (append_imported_status _ _ _ _ _ He1 ltac:(by rewrite Hsig) Hst Hop Happ2)
    as (He2 & (Hsig2 & Hpol2 & Hob2) & Hk2 & Hr2).
  assert (same_setup en en2) as Hs by (repeat split; congruence).
  assert (∀ k, k ≠ tr_id tk → engine_get_ticket en2 k = engine_get_ticket en k) as Hk
    by (intros k Hk; rewrite Hk2 by done; by apply Hother).
  destruct r as [q|e]; simpl; (split; [done|]); (split; [done|]); (split; [done|]); [done|by right].
Qed.

Lemma import_known io1 io2 tk en cur :
  engine_inv en → signer_wf (en_signer en) → import_ready en io1 io2 tk →
  engine_get_ticket en (tr_id tk) = Some cur →
  let '(r, en') := import_canonical_ticket io1 io2 tk en in
  engine_inv en' ∧ same_setup en en' ∧
  (∀ k, k ≠ tr_id tk → engine_get_ticket en' k = engine_get_ticket en k) ∧
  if (tr_revision cur <? tr_revision tk) && negb (bool_decide (tr_state tk = tr_state cur)) then
    match r with
    | Ok _ => can_transition_to (tr_state cur) (tr_state tk) = true ∧
        engine_get_ticket en' (tr_id tk) = Some (set_state cur (tr_state tk) (tr_updated_at tk))
    | Err _ => engine_get_ticket en' (tr_id tk) = Some cur
    end
  else r = Ok tt ∧ en' = en.
Proof.
  intros He Hwf [_ Hst] Hget. unfold import_canonical_ticket, sbind at 1, sget. rewrite Hget.
  destruct (_ && _) eqn:Hcond; [|done]. unfold sbind.
  destruct (append_ticket_event io2 _ _ en) as [r en'] eqn:Happ. specialize (Hst en (or_introl eq_refl)).
  destruct (can_transition_to (tr_state cur) (tr_state tk)) eqn:Htr.
  - destruct (append_status _ _ _ _ _ _ _ _ _ _ He Hwf Hst Hget Htr Happ) as (He' & Hs & Hr).
    destruct r as [p|e]; simpl.
    + split; [done|]. split; [done|]. split; [intros k Hk; by rewrite (Hr k), decide_False|].
      split; [done|]. by rewrite (Hr (tr_id tk)), decide_True.
    + assert (∀ k, engine_get_ticket en' k = engine_get_ticket en k) as Hsame by (by destruct e).
      split; [done|]. split; [done|]. split; [by intros k _|]. by rewrite Hsame.
  - destruct (append_status_refused _ _ _ _ _ _ _ _ _ _ He Hwf Hst Hget Htr Happ)
      as (He' & Hs & Hr & Hsame). destruct r; [done|].
    split; [done|]. split; [done|]. split; [by intros k _|]. by rewrite Hsame.
Qed.
(** *** What every method leaves alone *)

Lemma same_setup_refl en : same_setup en en.
Proof. done. Qed.

Lemma same_setup_trans en1 en2 en3 : same_setup en1 en2 → same_setup en2 en3 → same_setup en1 en3.
Proof. intros (? & ? & ?) (? & ? & ?). repeat split; congruence. Qed.

Lemma append_setup io te ts en : same_setup en (append_ticket_event io te ts en).2.
Proof.
  unfold append_ticket_event. destruct (prepare_event _ _ _) as [[ev obj]|]; [|done].
  destruct (os_put _ _ _) as [[i|e] s]; [|done]. simpl. destruct (graph_insert _ _); [|done].
  simpl. by destruct (apply_event _ _).
Qed.

Lemma sbind_setup {A B} (f : EngineM St A) (g : A → EngineM St B) en :
  (∀ en, same_setup en (f en).2) → (∀ a en, same_setup en (g a en).2) →
  same_setup en (sbind f g en).2.
Proof.
  intros Hf Hg. unfold sbind. specialize (Hf en). destruct (f en) as [[a|e] en']; [|done].
  eapply same_setup_trans; [exact Hf|apply Hg].
Qed.

Lemma import_setup io1 io2 tk en : same_setup en (import_canonical_ticket io1 io2 tk en).2.
Proof.
  unfold import_canonical_ticket. apply sbind_setup; [done|]. intros [cur|] en1.
  - destruct (_ && _); [|done]. apply sbind_setup; [apply append_setup|done].
  - apply sbind_setup; [apply append_setup|]. intros _ en2. destruct (bool_decide _); [done|].
    apply sbind_setup; [apply append_setup|done].
Qed.

Lemma append_note_setup io te ts en :
  same_setup en ((let! _ := append_ticket_event io te ts in sret tt) en).2.
Proof. apply sbind_setup; [apply append_setup|done]. Qed.

(** *** Batches and queries, for the callers of the engine *)

Lemma ingest_one_setup en io o : same_setup en (ingest_one en io o).1.
Proof.
  unfold ingest_one. destruct (SignedObject_verify o); [|done].
  destruct (Event_from_signed_object o); [|done]. destruct (os_put _ _ _) as [[|] ?]; [|done].
  by destruct (graph_insert _ _).
Qed.

Lemma ingest_all_setup objects : ∀ en n, same_setup en (ingest_all en n objects).1.
Proof.
  induction objects as [|[io o] os IH]; intros en n; [done|]. simpl.
  pose proof (ingest_one_setup en io o) as H1. destruct (ingest_one en io o) as [en1 ok]. simpl in H1.
  destruct H1 as (? & ? & ?). destruct (IH en1 (if ok : bool then S n else n)) as (? & ? & ?).
  repeat split; congruence.
Qed.

Lemma apply_remote_objects_setup objects en : same_setup en (apply_remote_objects objects en).2.
Proof.
  unfold apply_remote_objects. pose proof (ingest_all_setup objects en 0) as H.
  destruct (ingest_all en 0 objects) as [en1 m]. by destruct (0 <? m)%nat.
Qed.

Lemma apply_remote_objects_spec P en objects :
  world_ok P → engine_inv en → stored_in P en → Forall (λ x, os_io_ok x.1 ∧ P x.2) objects →
  ∃ count, (apply_remote_objects objects en).1 = Ok count ∧
    let en' := (apply_remote_objects objects en).2 in
    engine_inv en' ∧ (count ≤ length objects)%nat ∧
    (∀ e, in_graph (en_graph en) e → in_graph (en_graph en') e) ∧
    (count = length objects → ∀ x, x ∈ objects → ∃ e, Event_from_signed_object x.2 = Ok e ∧
       is_Some (g_events (en_graph en') !! ev_id e)).
Proof.
  intros Hw He Hs Hobj. pose proof (engine_inv_core _ He) as Hcore. unfold apply_remote_objects.
  destruct (ingest_all en 0 objects) as [en1 m] eqn:H1. exists m. split; [done|].
  destruct (ingest_all_spec P _ _ _ _ _ Hw Hcore Hs Hobj H1) as (He1 & _ & Hst & _ & Hm & Hz).
  destruct (ingest_all_events P _ _ _ _ _ Hw Hcore Hs Hobj H1) as [Hmono Hall]. simpl in *.
  assert (en_graph (if (0 <? m)%nat then reduce_state en1 else en1) = en_graph en1) as Hg
    by (by destruct (0 <? m)%nat).
  rewrite Hg. split; [|done]. destruct (Nat.ltb_spec 0 m); [by apply engine_core_inv|].
  destruct He1 as [? ? ?]. split; [done..|]. rewrite Hst, Hz by lia. apply He.
Qed.

(** Reading objects never fails on a consistent engine. *)
Lemma get_objects_Ok en ids :
  engine_inv en →
  ∃ objs, get_objects en ids = Ok objs ∧
    ∀ o, o ∈ objs ↔ ∃ i, i ∈ ids ∧ os_lookup (en_store en) i = Some o.
Proof.
  intros He. induction ids as [|i ids (objs & IH & Hel)]; simpl.
  { exists []. split; [done|]. set_solver. }
  rewrite (os_get_spec _ _ (ei_store en He)), IH. simpl. eexists. split; [done|]. intros o.
  destruct (os_lookup (en_store en) i) as [oi|] eqn:Hi.
  - rewrite elem_of_cons, Hel. split.
    + intros [->|(j & Hj & Ho)]; [exists i; split; [left|done]|exists j; split; [by right|done]].
    + intros (j & [->|Hj]%elem_of_cons & Ho); [left; congruence|right; eauto].
  - rewrite Hel. split; [intros (j & Hj & Ho); exists j; split; [by right|done]|].
    intros (j & [->|Hj]%elem_of_cons & Ho); [congruence|eauto].
Qed.

Lemma engine_store_inv en : engine_inv en → store_inv (en_state en).
Proof. intros He. rewrite (ei_state en He). apply reduce_events_inv. Qed.

Lemma engine_get_ticket_id en t r : engine_inv en → engine_get_ticket en t = Some r → tr_id r = t.
Proof.
  intros He (a & Ha & <-)%engine_get_ticket_Some. by apply (ai_id t a (engine_store_inv en He t a Ha)).
Qed.

Lemma elem_of_engine_list en r :
  engine_inv en → r ∈ engine_list_tickets en None ↔ engine_get_ticket en (tr_id r) = Some r.
Proof.
  intros He. unfold engine_list_tickets. rewrite elem_of_list_tickets. split.
  - intros (t & a & Ha & Hr & _). assert (engine_get_ticket en t = Some r) as Hg
      by (apply engine_get_ticket_Some; eauto). by rewrite (engine_get_ticket_id _ _ _ He Hg).
  - intros (a & Ha & Hr)%engine_get_ticket_Some. by exists (tr_id r), a.
Qed.

(** *** Chat and attachments *)

Lemma add_chat_message_spec io now m en :
  engine_inv en → signer_wf (en_signer en) →
  append_ready en io (ChatMessageAdded (cm_ticket_id m) (cm_id m) (cm_sender_peer_id m) (cm_body m)
    (time_or_now (cm_created_at m) now)) (time_or_now (cm_created_at m) now) →
  let '(r, en') := add_chat_message io now m en in
  engine_inv en' ∧ same_setup en en' ∧
  match r with
  | Ok _ => ∃ a b, en_state en !! cm_ticket_id m = Some a ∧
      en_state en' = <[cm_ticket_id m := b]> (en_state en) ∧ same_ticket (agg_record a) (agg_record b) ∧
      agg_messages b = (if existsb (λ x, bool_decide (cm_id x = cm_id m)) (agg_messages a)
        then agg_messages a
        else agg_messages a ++ [mkChatMessage (cm_id m) (cm_ticket_id m) (cm_sender_peer_id m)
               (cm_body m) (time_or_now (cm_created_at m) now) "DELIVERED"%string])
  | Err (EReducer e) => en_state en' = en_state en ∧
      e = TicketNotFound (cm_ticket_id m) ∧ engine_get_ticket en (cm_ticket_id m) = None
  | Err (EEvent _ | EStore _) => en_state en' = en_state en
  | Err _ => False
  end.
Proof.
  intros He Hwf Hready. unfold add_chat_message, sbind.
  destruct (append_ticket_event _ _ _ en) as [r en'] eqn:Happ.
  destruct (append_note _ _ _ _ _ _ He Hwf Hready eq_refl Happ) as (He' & Hs & Hr).
  destruct r as [[ev obj]|e]; simpl; [|done]. split; [done|]. split; [done|].
  destruct Hr as ([r ms ats ss evs] & b & Ha & Hu & Hsame & Hst). exists (mkTicketAggregate r ms ats ss evs), b.
  split; [done|]. split; [done|]. split; [done|]. simpl in Hu |- *.
  destruct (existsb _ ms); by injection Hu as <-.
Qed.
Lemma add_attachment_spec io now x en :
  engine_inv en → signer_wf (en_signer en) →
  append_ready en io (AttachmentAdded (ar_ticket_id x) (ar_id x) (ar_sender_peer_id x) (ar_filename x)
    (ar_size_bytes x) (ar_sha256 x) (ar_local_path x) (time_or_now (ar_created_at x) now))
    (time_or_now (ar_created_at x) now) →
  let '(r, en') := add_attachment io now x en in
  engine_inv en' ∧ same_setup en en' ∧
  match r with
  | Ok _ => ∃ a b, en_state en !! ar_ticket_id x = Some a ∧
      en_state en' = <[ar_ticket_id x := b]> (en_state en) ∧ same_ticket (agg_record a) (agg_record b) ∧
      agg_attachments b = (if existsb (λ y, bool_decide (ar_id y = ar_id x)) (agg_attachments a)
        then agg_attachments a
        else agg_attachments a ++ [mkAttachmentRecord (ar_id x) (ar_ticket_id x) (ar_sender_peer_id x)
               (ar_filename x) (ar_size_bytes x) (ar_sha256 x) (ar_local_path x)
               (time_or_now (ar_created_at x) now) "AVAILABLE"%string])
  | Err (EReducer e) => en_state en' = en_state en ∧
      e = TicketNotFound (ar_ticket_id x) ∧ engine_get_ticket en (ar_ticket_id x) = None
  | Err (EEvent _ | EStore _) => en_state en' = en_state en
  | Err _ => False
  end.
Proof.
  intros He Hwf Hready. unfold add_attachment, sbind.
  destruct (append_ticket_event _ _ _ en) as [r en'] eqn:Happ.
  destruct (append_note _ _ _ _ _ _ He Hwf Hready eq_refl Happ) as (He' & Hs & Hr).
  destruct r as [[ev obj]|e]; simpl; [|done]. split; [done|]. split; [done|].
  destruct Hr as ([r ms ats ss evs] & b & Ha & Hu & Hsame & Hst). exists (mkTicketAggregate r ms ats ss evs), b.
  split; [done|]. split; [done|]. split; [done|]. simpl in Hu |- *.
  destruct (existsb _ ats); by injection Hu as <-.
Qed.

(** An audit entry leaves messages and attachments alone, whatever happens. *)
Lemma record_event_spec io uuid now t kind actor metadata en :
  engine_inv en → signer_wf (en_signer en) →
  append_ready en io (CustomAudit t uuid kind actor metadata now) now →
  engine_inv (record_event io uuid now t kind actor metadata en).2 ∧
  ∀ k a, en_state en !! k = Some a →
    ∃ b, en_state (record_event io uuid now t kind actor metadata en).2 !! k = Some b ∧
      same_ticket (agg_record a) (agg_record b) ∧ agg_messages b = agg_messages a ∧
      agg_attachments b = agg_attachments a.
Proof.
  intros He Hwf Hready. unfold record_event, sbind.
  destruct (append_ticket_event _ _ _ en) as [r en'] eqn:Happ.
  destruct (append_note _ _ _ _ _ _ He Hwf Hready eq_refl Happ) as (He' & _ & Hr).
  assert (∀ k a, en_state en !! k = Some a → ∃ b, en_state en' !! k = Some b ∧
    same_ticket (agg_record a) (agg_record b) ∧ agg_messages b = agg_messages a ∧
    agg_attachments b = agg_attachments a) as Hall.
  { intros k a Ha. destruct r as [[ev obj]|e].
    - destruct Hr as ([r ms ats ss evs] & b & Hx & Hu & Hsame & Hst). simpl in *. rewrite Hst.
      destruct (decide (t = k)) as [->|Hk].
      + rewrite lookup_insert_eq. rewrite Ha in Hx. injection Hx as ->. exists b.
        split; [done|]. split; [done|]. destruct (existsb _ evs); by injection Hu as <-.
      + rewrite lookup_insert_ne by done. by exists a.
    - assert (en_state en' = en_state en) as -> by (destruct e; tauto || done). by exists a. }
  by destruct r as [[ev obj]|e].
Qed.
End engine_ops.

(** ** Properties *)

Section engine_properties.
Context `{CC : Crypto, CL : !CryptoLaws, HX : Hex, BC : BodyCodec, BL : !BodyCodecLaws, OC : ObjectCodec}.
Context {St : Type} `{OS : !ObjectStore St, OL : !ObjectStoreLaws St}.
Implicit Types en : TicketEngine St.

(** C1. The engine's main invariant under its own writes: whatever happens to an
    append - the encoding fails, the disk reports a failure, the reducer refuses
    the event, or all goes well - the events stay backed by verified stored
    objects, the graph well formed, and the state the reduction of the graph.
    Success stores the object under its id before the graph and the state take
    the event; a reducer refusal is reported although object and event are
    already in the store and the graph; a causality refusal never happens while
    no clock is at its maximum. *)
Theorem append_ticket_event_correct io te ts en r en' :
  engine_inv en → clock_free en → signer_wf (en_signer en) → ts < u64_modulus →
  os_io_ok io → fresh_append en te ts →
  append_ticket_event io te ts en = (r, en') →
  engine_inv en' ∧
  match r with
  | Ok (ev, obj) =>
    ev_payload ev = PTicket te ∧ ev_parents ev = current_heads en ∧
    (∃ o, os_get (en_store en') (so_id obj) = Ok (Some o) ∧ Event_from_signed_object o = Ok ev) ∧
    g_events (en_graph en') = <[ev_id ev := ev]> (g_events (en_graph en)) ∧
    current_heads en' = [ev_id ev] ∧
    apply_event (en_state en) ev = Ok (en_state en')
  | Err (EEvent BodyEncodingFailed) => en' = en
  | Err (EStore _) => en_graph en' = en_graph en ∧ en_state en' = en_state en
  | Err (EReducer e) => en_state en' = en_state en ∧
    ∃ ev obj, prepare_event en te ts = Ok (ev, obj) ∧ apply_event (en_state en) ev = Err e ∧
      g_events (en_graph en') = <[ev_id ev := ev]> (g_events (en_graph en))
  | Err _ => False
  end.
Proof.
  intros He Hc Hwf Hts Hio Hf Happ.
  destruct (append_spec _ _ _ _ _ _ He Hc Hwf Hts Hio Hf Happ) as (He' & _ & _ & _ & Hr).
  split; [done|]. destruct r as [[ev obj]|[]]; try done.
  - destruct Hr as (Hp & Hpl & (o & Ho & Hd) & Hins & Hap).
    destruct (prepare_event_Ok _ _ _ _ _ Hwf Hp) as (_ & _ & Hpar & _).
    destruct (prepared_fresh _ _ _ _ _ He Hc Hwf Hts Hp Hf) as (Hnew & Hself & _ & _).
    destruct (graph_insert_Ok_new _ _ _ Hnew Hins) as (HE & _ & Hh).
    split; [done|]. split; [done|]. split.
    { exists o. split; [|done]. rewrite (os_get_spec _ _ (ei_store en' He')). by rewrite Ho. }
    split; [done|]. split; [|done].
    unfold current_heads, Heads_to_vec.
    assert (hd (g_heads (en_graph en')) = {[ev_id ev]}) as ->; [|by rewrite elements_singleton].
    apply set_eq. intros i. rewrite (gi_heads _ (ei_graph en' He') i), elem_of_singleton, HE. split.
    + intros [[x Hx] Hno]. destruct (decide (i = ev_id ev)) as [|Hne]; [done|exfalso].
      rewrite lookup_insert_ne in Hx by done.
      apply (Hno (ev_id ev) ev); [by rewrite lookup_insert_eq|].
      rewrite Hpar, elem_of_current_heads. apply (gi_heads _ (ei_graph en He)).
      split; [eauto|]. intros c ce Hce. apply (Hno c). rewrite lookup_insert_ne; [done|]. congruence.
    + intros ->. rewrite lookup_insert_eq. split; [eauto|]. intros c ce.
      rewrite lookup_insert_Some. intros [[_ <-]|[_ Hce]]; [done|].
      destruct (in_graph_lookup _ (ei_graph en He) _ _ Hce) as [Hin _].
      by apply (proj2 (Hf _ _ Hp)).
  - destruct Hr as (Hs & ev & obj & Hp & Hap & Hins). split; [done|]. exists ev, obj.
    split; [done|]. split; [done|].
    destruct (prepared_fresh _ _ _ _ _ He Hc Hwf Hts Hp Hf) as (Hnew & _ & _ & _).
    by apply (graph_insert_Ok_new _ _ _ Hnew Hins).
Qed.

(** C2. The engine's main invariant under remote input: one object or a batch,
    verified or not, decodable or not, accepted by disk and graph or not, leaves
    the events backed, the graph well formed and the state the reduction of the
    graph. Refused objects leave graph and state alone, a batch counts what it
    took, nothing known is ever lost, and a batch counted in full is all known. *)
Theorem apply_remote_correct P en :
  world_ok P → engine_inv en → stored_in P en →
  (∀ io o, os_io_ok io → P o →
   let '(r, en') := apply_remote_object io o en in
   engine_inv en' ∧
   match r with
   | Ok _ => ∃ e, Event_from_signed_object o = Ok e ∧ graph_insert (en_graph en) e = Ok (en_graph en')
   | Err _ => en_graph en' = en_graph en ∧ en_state en' = en_state en
   end) ∧
  (∀ objects, Forall (λ x, os_io_ok x.1 ∧ P x.2) objects →
   ∃ count, (apply_remote_objects objects en).1 = Ok count ∧
     let en' := (apply_remote_objects objects en).2 in
     engine_inv en' ∧ (count ≤ length objects)%nat ∧
     (∀ e, in_graph (en_graph en) e → in_graph (en_graph en') e) ∧
     (count = length objects → ∀ x, x ∈ objects → ∃ e, Event_from_signed_object x.2 = Ok e ∧
        is_Some (g_events (en_graph en') !! ev_id e))).
Proof.
  intros Hw He Hs. pose proof (engine_inv_core _ He) as Hcore. split.
  - intros io o Hio Ho. rewrite apply_remote_object_ingest.
    destruct (ingest_one en io o) as [en1 ok] eqn:H1.
    destruct (ingest_one_spec _ _ _ _ _ Hcore Hio (world_remote_ok P en o Hw Hs Ho) H1) as (He1 & Hst & Hg).
    destruct ok; [split; [by apply engine_core_inv|done]|].
    destruct (ingest_one_false_err _ _ _ _ H1) as [err ->].
    split; [|done]. destruct He1 as [? ? ?]. split; [done..|]. rewrite Hst, Hg. apply He.
  - intros objects. by apply apply_remote_objects_spec.
Qed.

(** Restart: reopening a store all of whose decodable objects the graph
    holds succeeds and rebuilds the same events, heads and state, in whatever
    order the directory lists the objects. *)
Theorem engine_restart en signer policy :
  engine_inv en →
  (∀ i o e, os_lookup (en_store en) i = Some o → Event_from_signed_object o = Ok e →
   in_graph (en_graph en) e) →
  ∃ en', engine_open (en_store en) (en_outbox en) signer policy = Ok en' ∧ engine_inv en' ∧
  g_events (en_graph en') = g_events (en_graph en) ∧
  current_heads en' = current_heads en ∧ en_state en' = en_state en.
Proof.
  intros He Horph. destruct (os_load_spec _ (ei_store en He)) as (objs & Hl & _ & Hel).
  destruct (reload_events en objs (engine_inv_core _ He) Hel Horph) as [Hg HE].
  unfold engine_open. rewrite Hl. simpl. eexists. split; [done|]. simpl.
  assert (reduce (foldl insert_loaded EventGraph_new objs) = en_state en) as Hred.
  { rewrite (ei_state en He). unfold reduce. f_equal. by apply topological_sort_ext; [|apply He|]. }
  split; [|split; [done|split; [|done]]].
  - split; simpl; [apply He|done| |done]. intros e Hin. apply (ei_backed en He).
    unfold in_graph in *. by rewrite <- HE.
  - unfold current_heads; simpl. f_equal. by apply graph_heads_ext; [|apply He|].
Qed.

(** C29. Synchronisation: two engines of one world that hold the same event ids
    hold the same events, heads, missing parents and reduced tickets, however
    the events reached them. *)
Theorem engines_agree P en1 en2 :
  world_ok P → engine_inv en1 → engine_inv en2 → stored_in P en1 → stored_in P en2 →
  dom (g_events (en_graph en1)) = dom (g_events (en_graph en2)) →
  g_events (en_graph en1) = g_events (en_graph en2) ∧
  current_heads en1 = current_heads en2 ∧
  (∀ i, i ∈ engine_missing_parents en1 ↔ i ∈ engine_missing_parents en2) ∧
  en_state en1 = en_state en2.
Proof.
  intros Hw H1 H2 Hs1 Hs2 Hdom.
  assert (g_events (en_graph en1) = g_events (en_graph en2)) as HE.
  { apply graph_events_ext; [apply H1|apply H2|]. intros e. split; intros Hin.
    - assert (ev_id e ∈ dom (g_events (en_graph en2))) as Hd.
      { rewrite <- Hdom. apply elem_of_dom. by exists e. }
      apply elem_of_dom in Hd as [e2 Hx]. destruct (in_graph_lookup _ (ei_graph _ H2) _ _ Hx) as [Hin2 Hid].
      by rewrite (same_id_in_world P en1 en2 e e2).
    - assert (ev_id e ∈ dom (g_events (en_graph en1))) as Hd.
      { rewrite Hdom. apply elem_of_dom. by exists e. }
      apply elem_of_dom in Hd as [e1 Hx]. destruct (in_graph_lookup _ (ei_graph _ H1) _ _ Hx) as [Hin1 Hid].
      by rewrite <- (same_id_in_world P en1 en2 e1 e). }
  split; [done|]. split; [|split].
  - unfold current_heads. f_equal. apply graph_heads_ext; [apply H1|apply H2|done].
  - intros i. unfold engine_missing_parents.
    rewrite !elem_of_missing_parents by (apply H1 || apply H2). unfold in_graph. by rewrite HE.
  - rewrite (ei_state _ H1), (ei_state _ H2). unfold reduce. f_equal.
    apply topological_sort_ext; [apply H1|apply H2|done].
Qed.

(** [update_ticket_state]: an unknown ticket and a step outside the lifecycle
    are refused with nothing written; otherwise the call either fails before the
    tickets change, or answers the ticket moved to the new state, stamped, one
    revision up and closed if the state is [Closed], with every other ticket as
    it was.  The reducer never refuses a step the policy let through. *)
Theorem update_ticket_state_correct io now t new_state actor en :
  engine_inv en → clock_free en → signer_wf (en_signer en) → now < u64_modulus →
  os_io_ok io → fresh_append en (StatusChanged t new_state actor None) now →
  let '(r, en') := update_ticket_state io now t new_state actor en in
  engine_inv en' ∧
  match engine_get_ticket en t with
  | None => r = Err ETicketNotFound ∧ en' = en
  | Some cur =>
    if can_transition_to (tr_state cur) new_state then
      match r with
      | Ok rec => rec = set_state cur new_state now ∧
          ∀ k, engine_get_ticket en' k = if decide (k = t) then Some rec else engine_get_ticket en k
      | Err (EEvent _ | EStore _) => ∀ k, engine_get_ticket en' k = engine_get_ticket en k
      | Err _ => False
      end
    else r = Err (EBadTransition (tr_state cur) new_state) ∧ en' = en
  end.
Proof.
  intros He Hc Hwf Hts Hio Hf.
  pose proof (update_ticket_state_spec io now t new_state actor en He Hwf
    (Build_append_ready _ _ _ _ Hc Hts Hio Hf)) as H.
  destruct (update_ticket_state _ _ _ _ _ _) as [r en']. by destruct H as (? & _ & ?).
Qed.

(** [create_ticket]: with a fresh identifier it answers the open ticket at
    revision 1 and adds it, or fails with the tickets unchanged; with one already
    in use it never succeeds, and the tickets stay as they were. *)
Theorem create_ticket_correct io uuid now title description priority client en :
  engine_inv en → clock_free en → signer_wf (en_signer en) → now < u64_modulus →
  os_io_ok io →
  let t := new_ticket_id uuid in
  fresh_append en (Created t title description priority client) now →
  let '(r, en') := create_ticket io uuid now title description priority client en in
  engine_inv en' ∧
  match r with
  | Ok rec =>
    engine_get_ticket en t = None ∧
    rec = mkTicketRecord t title description Open priority client 1 now now None ∧
    ∀ k, engine_get_ticket en' k = if decide (k = t) then Some rec else engine_get_ticket en k
  | Err e =>
    (∀ k, engine_get_ticket en' k = engine_get_ticket en k) ∧
    match e with
    | EEvent _ | EStore _ => True
    | EReducer (TicketExists t') => t' = t ∧ is_Some (engine_get_ticket en t)
    | _ => False
    end
  end.
Proof.
  intros He Hc Hwf Hts Hio t Hf. unfold create_ticket. fold t. unfold sbind.
  destruct (append_ticket_event _ _ _ en) as [r en'] eqn:Happ.
  destruct (append_created _ _ _ _ _ _ _ _ _ _ He Hwf (Build_append_ready _ _ _ _ Hc Hts Hio Hf) Happ)
    as (He' & _ & Hr).
  destruct r as [p|e]; [|done]. destruct Hr as [Hn Hall]. unfold retrieve.
  pose proof (Hall t) as Ht. rewrite decide_True in Ht by done. by rewrite Ht.
Qed.

(** [import_canonical_ticket], what a node does with the record a peer sends: only
    the named ticket can change. A known ticket takes the state of the record exactly
    when the record has the higher revision, another state and the lifecycle allows the
    step; its revision then grows by one and does not become the record's. An unknown
    ticket is created open at revision 1 and then moved to the state of the record; if
    that second append fails the ticket stays behind open, with an error reported. *)
Theorem import_canonical_ticket_correct io1 io2 tk en :
  engine_inv en → signer_wf (en_signer en) → import_ready en io1 io2 tk →
  let '(r, en') := import_canonical_ticket io1 io2 tk en in
  engine_inv en' ∧
  (∀ k, k ≠ tr_id tk → engine_get_ticket en' k = engine_get_ticket en k) ∧
  match engine_get_ticket en (tr_id tk) with
  | None =>
      match r with
      | Ok _ => engine_get_ticket en' (tr_id tk) = Some (imported tk)
      | Err _ => engine_get_ticket en' (tr_id tk) = None ∨
                 engine_get_ticket en' (tr_id tk) = Some (opened tk) ∧ tr_state tk ≠ Open
      end
  | Some cur =>
      if (tr_revision cur <? tr_revision tk) && negb (bool_decide (tr_state tk = tr_state cur)) then
        match r with
        | Ok _ => can_transition_to (tr_state cur) (tr_state tk) = true ∧
            engine_get_ticket en' (tr_id tk) = Some (set_state cur (tr_state tk) (tr_updated_at tk))
        | Err _ => engine_get_ticket en' (tr_id tk) = Some cur
        end
      else r = Ok tt ∧ en' = en
  end.
Proof.
  intros He Hwf Hready. destruct (engine_get_ticket en (tr_id tk)) as [cur|] eqn:Hget.
  - pose proof (import_known _ io2 _ _ _ He Hwf Hready Hget) as H.
    destruct (import_canonical_ticket _ _ _ _) as [r en']. tauto.
  - pose proof (import_new _ io2 _ _ He Hwf Hready Hget) as H.
    destruct (import_canonical_ticket _ _ _ _) as [r en']. tauto.
Qed.

(** [get_ticket_objects], what a peer is sent for a ticket: on a consistent
    engine it never fails and returns, in the order of their ids, exactly the
    stored objects of the ticket's known events, each verified and decoding to
    its event. *)
Theorem get_ticket_objects_correct t en :
  engine_inv en →
  ∃ objs, get_ticket_objects en t = Ok objs ∧
  (so_id <$> objs) = ticket_event_ids (en_graph en) t ∧
  ∀ e, in_graph (en_graph en) e → Event_ticket_id e = Some t →
    ∃ o, o ∈ objs ∧ Event_from_signed_object o = Ok e.
Proof.
  intros He. unfold get_ticket_objects.
  assert (∀ i, i ∈ ticket_event_ids (en_graph en) t →
    ∃ e o, in_graph (en_graph en) e ∧ ev_id e = i ∧ os_lookup (en_store en) i = Some o ∧
    Event_from_signed_object o = Ok e) as Hids.
  { intros i. unfold ticket_event_ids. rewrite elem_of_sort_by, list_elem_of_fmap.
    intros (e & -> & Hin). apply elem_of_ticket_events in Hin as [Hin _]; [|apply He].
    destruct (ei_backed en He e Hin) as (o & Ho & Hd). by exists e, o. }
  assert (∀ ids, (∀ i, i ∈ ids → i ∈ ticket_event_ids (en_graph en) t) →
    ∃ objs, get_objects en ids = Ok objs ∧ (so_id <$> objs) = ids ∧
    ∀ i, i ∈ ids → ∃ o, o ∈ objs ∧ os_lookup (en_store en) i = Some o) as Hget.
  { induction ids as [|i ids IH]; intros Hsub; simpl; [exists []; set_solver|].
    destruct IH as (objs & -> & Hm & Hel); [intros j Hj; apply Hsub; by right|].
    destruct (Hids i ltac:(apply Hsub; left)) as (e & o & Hin & Hid & Ho & Hd).
    rewrite (os_get_spec _ _ (ei_store en He)), Ho. simpl. exists (o :: objs). split; [done|].
    destruct (from_signed_object_Ok _ _ Hd) as (_ & Hoid & _).
    split; [rewrite fmap_cons, Hm; congruence|].
    intros j [->|Hj]%elem_of_cons; [exists o; split; [left|done]|].
    destruct (Hel j Hj) as (o' & ? & ?). exists o'. split; [by right|done]. }
  destruct (Hget _ (λ i H, H)) as (objs & Hok & Hm & Hel). exists objs.
  split; [done|]. split; [done|]. intros e Hin Ht.
  assert (ev_id e ∈ ticket_event_ids (en_graph en) t) as Hi.
  { unfold ticket_event_ids. rewrite elem_of_sort_by. apply list_elem_of_fmap_2.
    apply elem_of_ticket_events; [apply He|done]. }
  destruct (Hel _ Hi) as (o & Ho & Hl). destruct (ei_backed en He e Hin) as (o' & Ho' & Hd).
  exists o. split; [done|]. congruence.
Qed.

(** A peer can stop the local clock: once a head of the graph carries the
    clock [u64::MAX] - any verified object may - every append stamps the clock 0,
    stores the signed object, and is then refused by the graph; tickets can no
    longer be written, and each attempt leaves one more object behind. *)
Theorem max_clock_blocks_appends io te ts en h :
  engine_inv en → signer_wf (en_signer en) → ts < u64_modulus → os_io_ok io →
  fresh_append en te ts →
  in_graph (en_graph en) h → ev_id h ∈ current_heads en → ev_lamport h = u64_max →
  let '(r, en') := append_ticket_event io te ts en in
  is_ok r = false ∧ en_graph en' = en_graph en ∧ en_state en' = en_state en ∧
  (∀ e, r = Err (EGraph e) → ∃ ev obj, prepare_event en te ts = Ok (ev, obj) ∧ ev_lamport ev = 0 ∧
   is_Some (os_lookup (en_store en') (so_id obj))).
Proof.
  intros He Hwf Hts Hio Hf Hh Hhead Hmax. unfold append_ticket_event.
  destruct (prepare_event en te ts) as [[ev obj]|err] eqn:Hp; [|by repeat split].
  destruct (prepare_event_Ok _ _ _ _ _ Hwf Hp) as (Hd & Hcr & Hpar & _ & _ & _ & Hlam).
  assert (ev_lamport ev = 0) as H0.
  { rewrite Hlam. eapply next_lamport_overflow; [|exact Hhead|exact Hh|done].
    intros i x Hx. destruct (in_graph_lookup _ (ei_graph en He) _ _ Hx) as [Hin _].
    destruct (ei_backed en He x Hin) as (o & _ & Hdx). by eapply event_in_range. }
  assert (g_events (en_graph en) !! ev_id ev = None) as Hnew.
  { destruct (g_events (en_graph en) !! ev_id ev) as [x|] eqn:Hx; [|done]. exfalso.
    destruct (in_graph_lookup _ (ei_graph en He) _ _ Hx) as [Hin Hxid].
    destruct (ei_backed en He x Hin) as (o' & Ho' & Hdx).
    destruct (from_signed_object_Ok _ _ Hd) as (_ & Hid & _). rewrite Hxid, Hid in Ho'.
    assert (Event_from_signed_object o' = Ok ev) as Hde.
    { eapply same_id_same_event; [done|exact Hd|by rewrite Hcr|apply (Hf _ _ Hp)|done]. }
    rewrite Hdx in Hde. injection Hde as ->. rewrite <- Hpar in Hhead.
    pose proof (gi_lamport _ (ei_graph en He) _ _ _ _ Hin Hhead Hh). lia. }
  destruct (os_put (en_store en) io obj) as [put store] eqn:Hput.
  destruct put as [i|e]; [|by repeat split]. simpl.
  assert (is_ok (graph_insert (en_graph en) ev) = false) as Hbad.
  { destruct (is_ok (graph_insert (en_graph en) ev)) eqn:Hok; [|done].
    apply graph_insert_is_ok in Hok as [Hpr _]; [|apply He|done].
    rewrite <- Hpar in Hhead. specialize (Hpr _ h Hhead Hh). lia. }
  destruct (graph_insert (en_graph en) ev) as [g|ge] eqn:Hins; [done|].
  split; [done|]. split; [done|]. split; [done|]. intros e _. exists ev, obj.
  split; [done|]. split; [done|]. simpl.
  destruct (os_put_ok _ _ _ _ _ (ei_store en He) Hio ltac:(by rewrite Hcr) Hput) as (_ & -> & _ & Hl).
  rewrite Hl, decide_True by done. eauto.
Qed.
End engine_properties.
