(* ===== verification/EngineRuns.v ===== *)
(** Runs of the engine on the file-system store with concrete cryptography: the
    hypotheses of the engine's theorems hold there, and two behaviours that depend
    on the order of delivery are computed. *)

From S2P Require Import Prelude Text Object Concrete Ticket Event Graph GraphSort.
From S2P Require Import Reducer Authority Store Engine.

Definition run_signer : Ed25519Signer := toy_signer 1.

(** A new engine on an empty directory. *)
Definition engine0 : TicketEngine FsObjectStore :=
  mkEngine fs_new EventGraph_new TicketStateStore_new run_signer
    AuthorityPolicy_default ∅.

Definition created : TicketEvent := Created "T-01234567" "printer" "on fire" High "peer".

Definition engine1 : TicketEngine FsObjectStore :=
  (append_ticket_event toy_io created 100 engine0).2.

Lemma toy_io_ok : os_io_ok (St := FsObjectStore) toy_io.
Proof. exact I. Qed.

Lemma engine0_inv : engine_inv engine0.
Proof.
  split.
  - apply map_Forall_empty.
  - apply graph_inv_new.
  - intros e He. unfold in_graph in He. simpl in He. by rewrite lookup_empty in He.
  - vm_compute. reflexivity.
Qed.

Lemma engine0_fresh te ts : fresh_append engine0 te ts.
Proof.
  intros ev obj _. split.
  - intros o Ho. change (fs_lookup fs_new (so_id obj) = Some o) in Ho.
    unfold fs_lookup in Ho. simpl in Ho. by rewrite lookup_empty in Ho.
  - intros c Hc. unfold in_graph in Hc. simpl in Hc. by rewrite lookup_empty in Hc.
Qed.

Lemma engine0_clock : clock_free engine0.
Proof. intros e He. unfold in_graph in He. simpl in He. by rewrite lookup_empty in He. Qed.

Lemma engine0_wf : signer_wf (en_signer engine0).
Proof. apply signer_wf_from_bytes. Qed.

Lemma engine1_eq :
  ∃ ev obj, append_ticket_event toy_io created 100 engine0 = (Ok (ev, obj), engine1).
Proof.
  assert (is_ok (append_ticket_event toy_io created 100 engine0).1 = true) as H
    by (vm_compute; reflexivity).
  unfold engine1. destruct (append_ticket_event toy_io created 100 engine0) as [[[ev obj]|e] en'];
    [by exists ev, obj|discriminate].
Qed.

Lemma engine1_spec : engine_inv engine1 ∧ signer_wf (en_signer engine1).
Proof.
  destruct engine1_eq as (ev & obj & E).
  destruct (append_spec toy_io created 100 engine0 _ _ engine0_inv engine0_clock engine0_wf
    eq_refl I (engine0_fresh _ _) E) as (H & Hs & _).
  split; [exact H|]. rewrite Hs. exact engine0_wf.
Qed.

Lemma engine1_inv : engine_inv engine1.
Proof. apply engine1_spec. Qed.

Lemma engine1_wf : signer_wf (en_signer engine1).
Proof. apply engine1_spec. Qed.

(** The one event of [engine1], as a computed list. *)
Definition engine1_events : list Event := graph_values (en_graph engine1).

Lemma engine1_in_graph (P : Event → Prop) :
  Forall P engine1_events → ∀ e, in_graph (en_graph engine1) e → P e.
Proof.
  intros H e He. rewrite Forall_forall in H. apply H. unfold engine1_events.
  apply elem_of_graph_values; [apply engine1_inv|done].
Qed.

Lemma engine1_clock : clock_free engine1.
Proof.
  intros e. revert e. apply engine1_in_graph. apply List.Forall_forall. intros e He.
  assert (forallb (λ e, ev_lamport e <? u64_max) engine1_events = true) as H by (vm_compute; reflexivity).
  rewrite forallb_forall in H. specialize (H e He). apply N.ltb_lt. exact H.
Qed.

Lemma append_ticket_event_correct_witness :
  engine_inv engine0 ∧ engine_inv engine1.
Proof.
  split; [exact engine0_inv|]. destruct engine1_eq as (ev & obj & E).
  exact (proj1 (append_ticket_event_correct toy_io created 100 engine0 _ _ engine0_inv engine0_clock
    engine0_wf eq_refl I (engine0_fresh _ _) E)).
Defined.

Lemma create_ticket_correct_witness :
  match create_ticket toy_io "0123456789" 100 "printer" "on fire" High "peer" engine0 with
  | (Ok r, en') => tr_id r = "T-01234567"%string ∧ engine_get_ticket en' "T-01234567" = Some r
  | (Err _, _) => False
  end.
Proof.
  pose proof (create_ticket_correct toy_io "0123456789" 100 "printer" "on fire" High "peer" engine0
    engine0_inv engine0_clock engine0_wf eq_refl I (engine0_fresh _ _)) as C.
  assert (is_ok (create_ticket toy_io "0123456789" 100 "printer" "on fire" High "peer" engine0).1 = true)
    as Hok by (vm_compute; reflexivity).
  destruct (create_ticket _ _ _ _ _ _ _ _) as [[r|e] en']; [|discriminate].
  destruct C as (_ & _ & Hr & Hall). split; [by rewrite Hr|].
  rewrite (Hall "T-01234567"%string). reflexivity.
Defined.

(** Freshness of an append, by computation. *)
Definition append_check (en : TicketEngine FsObjectStore) (te : TicketEvent) (ts : N) : bool :=
  match prepare_event en te ts with
  | Ok (ev, obj) =>
      negb (bool_decide (is_Some (fs_files (en_store en) !! object_path (so_id obj)))) &&
      forallb (λ c, negb (bool_decide (ev_id ev ∈ ev_parents c))) (graph_values (en_graph en))
  | Err _ => true
  end.

Lemma append_check_fresh en te ts :
  engine_inv en → append_check en te ts = true → fresh_append en te ts.
Proof.
  intros He Hc ev obj Hp. unfold append_check in Hc. rewrite Hp in Hc.
  apply andb_true_iff in Hc as [Hf Hu]. split.
  - intros o Ho. change (fs_lookup (en_store en) (so_id obj) = Some o) in Ho.
    apply negb_true_iff, bool_decide_eq_false_1 in Hf. destruct Hf.
    apply bind_Some in Ho as (c & Hc & _). eauto.
  - intros c Hc. rewrite forallb_forall in Hu.
    apply (elem_of_graph_values _ (ei_graph en He)), list_elem_of_In, Hu in Hc.
    by apply negb_true_iff, bool_decide_eq_false_1 in Hc.
Qed.

Definition resolve : TicketEvent := StatusChanged "T-01234567" Resolved "op" None.

Lemma engine1_resolve_fresh : fresh_append engine1 resolve 200.
Proof. apply append_check_fresh; [apply engine1_inv|vm_compute; reflexivity]. Qed.

Definition run_resolve := update_ticket_state toy_io 200 "T-01234567" Resolved "op" engine1.

Lemma update_ticket_state_correct_witness :
  engine_inv engine1 ∧ engine_inv run_resolve.2 ∧
  (tr_state <$> engine_get_ticket run_resolve.2 "T-01234567") = Some Resolved.
Proof.
  split; [exact engine1_inv|].
  pose proof (update_ticket_state_correct toy_io 200 "T-01234567" Resolved "op" engine1
    engine1_inv engine1_clock engine1_wf eq_refl I engine1_resolve_fresh) as C.
  split; [|vm_compute; reflexivity]. unfold run_resolve.
  destruct (update_ticket_state toy_io 200 "T-01234567" Resolved "op" engine1) as [r en'].
  cbn [snd]. destruct C as [C _]. exact C.
Defined.

(** ** The other hypotheses on concrete runs *)

Definition run_object (lamport : N) (parents : list ObjectId) (te : TicketEvent)
    : result EventError (Event * SignedObject) :=
  Event_new parents 10 lamport (PTicket te) (toy_signer 2).

Definition the_object (r : result EventError (Event * SignedObject)) : SignedObject :=
  match r with Ok (_, o) => o | Err _ => toy_object 0 end.

(** A ticket with clock 5, and a message on it that claims clock 3. *)
Definition run_root : SignedObject :=
  the_object (run_object 5 [] (Created "T-r" "remote" "text" Normal "peer")).
Definition run_reply : SignedObject :=
  the_object (run_object 3 [so_id run_root] (ChatMessageAdded "T-r" "m" "peer" "hi" 11)).
(** A ticket at the end of the clock's range. *)
Definition run_max : SignedObject :=
  the_object (run_object u64_max [] (Created "T-m" "last" "text" Normal "peer")).

(** The objects of this world: exactly these. *)
Definition run_world (o : SignedObject) : Prop := o ∈ [run_root; run_reply; run_max].

Definition world_check (os : list SignedObject) : bool :=
  forallb (λ o, (so_created_at o <? u64_modulus) &&
    forallb (λ o', bool_decide (object_preimage o = object_preimage o') ||
                   negb (bool_decide (blake3_hash (object_preimage o) = blake3_hash (object_preimage o')))) os &&
    match Event_from_signed_object o with
    | Ok e => negb (bool_decide (ev_id e ∈ ev_parents e))
    | Err _ => true
    end) os.

Lemma world_check_ok os : world_check os = true → world_ok (λ o, o ∈ os).
Proof.
  intros H. unfold world_check in H. rewrite forallb_forall in H.
  split.
  - intros o o' Ho%list_elem_of_In Ho'%list_elem_of_In [Hne Hc].
    specialize (H o Ho). apply andb_true_iff in H as [H _]. apply andb_true_iff in H as [_ H].
    rewrite forallb_forall in H. specialize (H o' Ho').
    apply orb_true_iff in H as [H%bool_decide_eq_true|H]; [done|].
    by apply negb_true_iff, bool_decide_eq_false in H.
  - intros o Ho%list_elem_of_In. specialize (H o Ho).
    apply andb_true_iff in H as [H _]. apply andb_true_iff in H as [H _]. by apply N.ltb_lt.
  - intros o e Ho%list_elem_of_In Hd. specialize (H o Ho). apply andb_true_iff in H as [_ H].
    rewrite Hd in H. by apply negb_true_iff, bool_decide_eq_false in H.
Qed.

Lemma run_world_ok : world_ok run_world.
Proof. apply world_check_ok. vm_compute. reflexivity. Qed.

Lemma engine0_stored P : stored_in P engine0.
Proof.
  intros i o Ho. change (fs_lookup fs_new i = Some o) in Ho.
  unfold fs_lookup in Ho. simpl in Ho. by rewrite lookup_empty in Ho.
Qed.

Lemma run_world_root : run_world run_root.
Proof. left. Qed.
Lemma run_world_max : run_world run_max.
Proof. right; right; left. Qed.

Lemma apply_remote_correct_witness :
  engine_inv (apply_remote_object toy_io run_root engine0).2 ∧
  (apply_remote_object toy_io run_root engine0).1 = Ok tt.
Proof.
  split; [|vm_compute; reflexivity].
  pose proof (proj1 (apply_remote_correct run_world engine0 run_world_ok engine0_inv (engine0_stored _))
    toy_io run_root I run_world_root) as C.
  destruct (apply_remote_object toy_io run_root engine0) as [r en'].
  cbn [snd]. destruct C as [C _]. exact C.
Defined.

Lemma engine_restart_witness :
  ∃ en', engine_open (en_store engine0) ∅ run_signer AuthorityPolicy_default = Ok en' ∧
    en_state en' = en_state engine0.
Proof.
  destruct (engine_restart engine0 run_signer AuthorityPolicy_default engine0_inv) as (en' & E & _ & _ & _ & Hs).
  { intros i o e Ho. by apply (engine0_stored (λ _, False)) in Ho. }
  exists en'. exact (conj E Hs).
Defined.

Lemma get_ticket_objects_correct_witness :
  ∃ objs, get_ticket_objects engine1 "T-01234567" = Ok objs ∧
    (so_id <$> objs) = ticket_event_ids (en_graph engine1) "T-01234567".
Proof.
  destruct (get_ticket_objects_correct "T-01234567" engine1 engine1_inv) as (objs & E & H & _).
  exists objs. exact (conj E H).
Defined.

(** The engine after a peer's object with the greatest clock. *)
Definition engine_max : TicketEngine FsObjectStore := (apply_remote_object toy_io run_max engine0).2.

Lemma engine_max_wf : signer_wf (en_signer engine_max).
Proof.
  unfold engine_max. rewrite apply_remote_object_ingest.
  pose proof (ingest_one_setup engine0 toy_io run_max) as [H _].
  destruct (ingest_one engine0 toy_io run_max) as [en1 []]; simpl in *; rewrite H; exact engine0_wf.
Qed.

Lemma engine_max_inv : engine_inv engine_max.
Proof.
  assert (remote_ok engine0 run_max) as Hr
    by (apply (world_remote_ok run_world); [apply run_world_ok|apply engine0_stored|apply run_world_max]).
  unfold engine_max. rewrite apply_remote_object_ingest.
  destruct (ingest_one engine0 toy_io run_max) as [en1 ok] eqn:H1.
  destruct (ingest_one_spec _ _ _ _ _ (engine_inv_core _ engine0_inv) toy_io_ok Hr H1)
    as (He1 & Hst & Hg).
  destruct ok; [by apply engine_core_inv|].
  destruct He1 as [? ? ?]. split; [done..|]. simpl. rewrite Hst, Hg. apply engine0_inv.
Qed.

Lemma max_clock_blocks_appends_witness :
  engine_inv engine_max ∧ is_ok (append_ticket_event toy_io created 100 engine_max).1 = false.
Proof.
  split; [exact engine_max_inv|].
  assert (match graph_values (en_graph engine_max) with
          | [h] => bool_decide (ev_id h ∈ current_heads engine_max) && (ev_lamport h =? u64_max)
                   && bool_decide (g_events (en_graph engine_max) !! ev_id h = Some h)
          | _ => false end = true) as Hh by (vm_compute; reflexivity).
  destruct (graph_values (en_graph engine_max)) as [|h [|? ?]]; [discriminate| |discriminate].
  apply andb_true_iff in Hh as [Hh Hin]. apply andb_true_iff in Hh as [Hhead Hmax].
  pose proof (max_clock_blocks_appends toy_io created 100 engine_max h engine_max_inv
    engine_max_wf eq_refl I
    (append_check_fresh engine_max created 100 engine_max_inv ltac:(vm_compute; reflexivity))
    (bool_decide_eq_true_1 _ Hin) (bool_decide_eq_true_1 _ Hhead) (proj1 (N.eqb_eq _ _) Hmax)) as C.
  destruct (append_ticket_event toy_io created 100 engine_max) as [r en'].
  cbn [fst]. destruct C as [C _]. exact C.
Defined.

(** ** Order of delivery *)

Definition deliver (os : list SignedObject) (en : TicketEngine FsObjectStore) : TicketEngine FsObjectStore :=
  (apply_remote_objects ((λ o, (toy_io, o)) <$> os) en).2.

(** Delivery order decides between causally inconsistent objects: the two
    objects are validly signed, decode, and form a parent and a child whose clocks
    contradict each other. The replica that gets the parent first has the ticket
    and refuses the child; the one that gets the child first refuses the parent
    and never has the ticket, even when everything is delivered again; both hold
    both objects on disk, and reopening the first replica's store need not rebuild
    its own state. *)
Theorem delivery_order_can_diverge :
  SignedObject_verify run_root = Ok tt ∧ SignedObject_verify run_reply = Ok tt ∧
  (let a := deliver [run_root; run_reply] engine0 in
   let b := deliver [run_reply; run_root] engine0 in
   is_Some (engine_get_ticket a "T-r") ∧ engine_get_ticket b "T-r" = None ∧
   is_Some (engine_get_ticket (deliver [run_root; run_reply] a) "T-r") ∧
   engine_get_ticket (deliver [run_root; run_reply] b) "T-r" = None ∧
   (∀ i, fs_has (en_store a) i = fs_has (en_store b) i) ∧
   reduce (graph_of (decoded [run_root; run_reply])) ≠ reduce (graph_of (decoded [run_reply; run_root]))).
Proof.
  split; [vm_compute; reflexivity|]. split; [vm_compute; reflexivity|].
  split; [vm_compute; eauto|]. split; [vm_compute; reflexivity|]. split; [vm_compute; eauto|].
  split; [vm_compute; reflexivity|]. split.
  - intros i. unfold fs_has.
    assert (fs_files (en_store (deliver [run_root; run_reply] engine0)) =
            fs_files (en_store (deliver [run_reply; run_root] engine0))) as E
      by (apply (bool_decide_eq_true_1 _); vm_compute; reflexivity).
    rewrite E. reflexivity.
  - intros H. apply (f_equal (λ s : TicketStateStore, bool_decide (is_Some (s !! "T-r"%string)))) in H.
    vm_compute in H. discriminate.
Qed.

(** ** Importing a record *)

Definition ready_check (en : TicketEngine FsObjectStore) (te : TicketEvent) (ts : N) : bool :=
  forallb (λ e, ev_lamport e <? u64_max) (graph_values (en_graph en)) &&
  (ts <? u64_modulus) && append_check en te ts.

Lemma ready_check_ok en te ts :
  engine_inv en → ready_check en te ts = true → append_ready en toy_io te ts.
Proof.
  intros He H. unfold ready_check in H. apply andb_true_iff in H as [H Hf].
  apply andb_true_iff in H as [Hc Hts]. split.
  - intros e Hin. rewrite forallb_forall in Hc.
    apply (elem_of_graph_values _ (ei_graph en He)), list_elem_of_In, Hc in Hin. by apply N.ltb_lt.
  - by apply N.ltb_lt.
  - exact I.
  - by apply append_check_fresh.
Qed.

Definition sample_record : TicketRecord :=
  mkTicketRecord "T-remote" "mail" "lost" InProgress Normal "client" 5 70 90 None.

Definition engine_created : TicketEngine FsObjectStore :=
  (append_ticket_event toy_io (created_event sample_record) 70 engine0).2.

Lemma sample_import_ready : import_ready engine0 toy_io toy_io sample_record.
Proof.
  assert (append_ready engine0 toy_io (created_event sample_record) 70) as Hc
    by (apply ready_check_ok; [exact engine0_inv|vm_compute; reflexivity]).
  assert (engine_inv engine_created) as Hi.
  { unfold engine_created.
    destruct (append_ticket_event toy_io (created_event sample_record) 70 engine0) as [r en1] eqn:E.
    exact (proj1 (append_outcome _ _ _ _ _ _ engine0_inv engine0_wf Hc E)). }
  split; [exact Hc|]. intros en1 [->| ->]; apply ready_check_ok;
    (exact engine0_inv || exact Hi || (vm_compute; reflexivity)).
Qed.

Lemma import_canonical_ticket_correct_witness :
  (import_canonical_ticket toy_io toy_io sample_record engine0).1 = Ok tt ∧
  engine_get_ticket (import_canonical_ticket toy_io toy_io sample_record engine0).2 "T-remote" =
    Some (mkTicketRecord "T-remote" "mail" "lost" InProgress Normal "client" 2 70 90 None).
Proof.
  pose proof (import_canonical_ticket_correct toy_io toy_io sample_record engine0
    engine0_inv engine0_wf sample_import_ready) as C.
  assert ((import_canonical_ticket toy_io toy_io sample_record engine0).1 = Ok tt) as Hok
    by (vm_compute; reflexivity).
  split; [exact Hok|]. destruct (import_canonical_ticket _ _ _ _) as [r en']. cbn [fst snd] in *.
  rewrite Hok in C. destruct C as (_ & _ & C). exact C.
Defined.

(** ** Two engines *)

Definition stored_objects (en : TicketEngine FsObjectStore) : list SignedObject :=
  omap (λ x, decode_object x.2) (map_to_list (fs_files (en_store en))).

Lemma stored_in_list en (l : list SignedObject) :
  (∀ o, o ∈ stored_objects en → o ∈ l) → stored_in (λ o, o ∈ l) en.
Proof.
  intros H i o (c & Hc & Ho)%bind_Some. apply H, list_elem_of_omap. exists (object_path i, c).
  split; [by apply elem_of_map_to_list|done].
Qed.

(** The first makes a ticket, resolves it and takes a ticket from elsewhere; the second has another key,
    and everything from the first. *)
Definition engine_a : TicketEngine FsObjectStore := deliver [run_root] run_resolve.2.
Definition shared_objects : list SignedObject := stored_objects engine_a.
Definition other_engine : TicketEngine FsObjectStore :=
  mkEngine fs_new EventGraph_new TicketStateStore_new (toy_signer 9) AuthorityPolicy_default ∅.
Definition engine_b : TicketEngine FsObjectStore := deliver shared_objects other_engine.

Lemma run_resolve_inv : engine_inv run_resolve.2.
Proof.
  assert (append_ready engine1 toy_io resolve 200) as Hr
    by (apply ready_check_ok; [exact engine1_inv|vm_compute; reflexivity]).
  pose proof (update_ticket_state_spec toy_io 200 "T-01234567" Resolved "op" engine1 engine1_inv engine1_wf Hr) as H.
  unfold run_resolve. destruct (update_ticket_state _ _ _ _ _ _) as [r en']. by destruct H as [H _].
Qed.

Lemma shared_world : world_ok (λ o, o ∈ shared_objects).
Proof. apply world_check_ok. vm_compute. reflexivity. Qed.

Lemma deliver_inv os en :
  engine_inv en → stored_in (λ o, o ∈ shared_objects) en → Forall (λ o, o ∈ shared_objects) os → engine_inv (deliver os en).
Proof.
  intros He Hs Hos. unfold deliver.
  destruct (apply_remote_objects_spec _ en ((λ o, (toy_io, o)) <$> os) shared_world He Hs) as (n & _ & H & _); [|exact H].
  apply Forall_fmap. eapply Forall_impl; [exact Hos|]. intros o Ho. split; [exact I|exact Ho].
Qed.

Lemma shared_check (l : list SignedObject) :
  forallb (λ o, bool_decide (o ∈ shared_objects)) l = true → ∀ o, o ∈ l → o ∈ shared_objects.
Proof. intros H o Ho%list_elem_of_In. rewrite forallb_forall in H. apply (bool_decide_eq_true_1 _). by apply H. Qed.

Lemma engine_a_inv : engine_inv engine_a.
Proof.
  apply deliver_inv; [exact run_resolve_inv| |].
  - apply stored_in_list, shared_check. vm_compute. reflexivity.
  - apply Forall_forall, shared_check. vm_compute. reflexivity.
Qed.

Lemma other_engine_inv : engine_inv other_engine.
Proof.
  split; [apply map_Forall_empty|apply graph_inv_new| |vm_compute; reflexivity].
  intros e He. unfold in_graph in He. simpl in He. by rewrite lookup_empty in He.
Qed.

Lemma engine_b_inv : engine_inv engine_b.
Proof.
  apply deliver_inv; [exact other_engine_inv| |by apply Forall_forall].
  apply stored_in_list, shared_check. vm_compute. reflexivity.
Qed.

(** Three events, two tickets; the engines differ in their keys alone. *)
Lemma engines_agree_witness :
  current_heads engine_a = current_heads engine_b ∧ en_state engine_a = en_state engine_b ∧
  en_signer engine_a ≠ en_signer engine_b ∧ size (g_events (en_graph engine_b)) = 3%nat ∧
  length (current_heads engine_b) = 2%nat ∧
  (tr_state <$> engine_get_ticket engine_b "T-01234567") = Some Resolved ∧
  (tr_state <$> engine_get_ticket engine_b "T-r") = Some Open.
Proof.
  assert (stored_in (λ o, o ∈ shared_objects) engine_b) as Hb
    by (apply stored_in_list, shared_check; vm_compute; reflexivity).
  assert (dom (g_events (en_graph engine_a)) = dom (g_events (en_graph engine_b))) as Hd
    by (apply (bool_decide_eq_true_1 _); vm_compute; reflexivity).
  destruct (engines_agree _ engine_a engine_b shared_world engine_a_inv engine_b_inv
    (stored_in_list _ _ (λ o Ho, Ho)) Hb Hd) as (_ & H & _ & Hs).
  split; [exact H|]. split; [exact Hs|]. split.
  - intros E. apply (f_equal (λ s, vec_to_list (Ed25519Signer_to_bytes s))) in E. vm_compute in E. discriminate E.
  - split; [vm_compute; reflexivity|]. split; [vm_compute; reflexivity|].
    split; vm_compute; reflexivity.
Defined.
