(* ===== verification/Codec.v ===== *)
(** Bounded decoding of CBOR ([crates/fortiq-core/src/codec.rs]): the limits, the
    scanner that refuses indefinite lengths, and the check of a decoded value.

    The scanner's cursor is the suffix of the input still to be read: the code only
    compares the cursor with the length and reads at it.  [ciborium] itself is a
    parameter, and [usize] is 64 bits wide, so no length conversion fails. *)

From S2P Require Import Prelude Text.

Record DecoderLimits := mkLimits {
  max_input_bytes : N;
  max_depth : N;
  max_container_len : N;
  max_bytes_len : N
}.

Definition LIMITS_DEFAULT : DecoderLimits := mkLimits (256 * 1024) 8 256 (64 * 1024).
Definition LIMITS_CONTROL : DecoderLimits := mkLimits (64 * 1024) 6 128 (16 * 1024).
Definition LIMITS_RECORD : DecoderLimits := mkLimits (1024 * 1024) 16 4096 (256 * 1024).
Definition LIMITS_MANIFEST : DecoderLimits := mkLimits (2 * 1024 * 1024) 16 16384 (512 * 1024).

(** The decoding errors of the scanner, by their text. *)
Inductive decoding_error :=
| UnexpectedEnd
| TruncatedInt8
| TruncatedInt16
| TruncatedInt32
| TruncatedInt64
| ReservedInfo
| TruncatedString
| ArrayTooLong
| MapCountOverflow
| MapTooLong
| Ciborium.

Inductive CodecError :=
| InputTooLarge (len max : N)
| EncodingError
| DecodingError (e : decoding_error)
| IndefiniteLengthRejected
| MaxDepthExceeded (depth max : N)
| ContainerTooLarge (len max : N).

(** ** The scanner *)

(** [k] big-endian bytes, or the truncation error. *)
Definition read_be (k : nat) (err : decoding_error) (l : bytes) : result CodecError (N * bytes) :=
  if (length l <? k)%nat then Err (DecodingError err)
  else Ok (be_val (take k l), drop k l).

(** The initial byte and its argument: major type, value, what follows. *)
Definition scan_header (l : bytes) : result CodecError (N * N * bytes) :=
  match l with
  | [] => Err (DecodingError UnexpectedEnd)
  | b :: l =>
      let initial_byte := Byte.to_N b in
      let major := N.shiftr initial_byte 5 in
      let info := N.land initial_byte 0x1f in
      if info =? 31 then Err IndefiniteLengthRejected else
      let? (val, l) :=
        if info <? 24 then Ok (info, l)
        else if info =? 24 then read_be 1 TruncatedInt8 l
        else if info =? 25 then read_be 2 TruncatedInt16 l
        else if info =? 26 then read_be 4 TruncatedInt32 l
        else if info =? 27 then read_be 8 TruncatedInt64 l
        else Err (DecodingError ReservedInfo) in
      Ok (major, val, l)
  end.

(** [for _ in 0..n { scan(…)?; }]. *)
Fixpoint scan_times (scan : bytes → result CodecError bytes) (n : nat) (l : bytes)
    : result CodecError bytes :=
  match n with
  | O => Ok l
  | S n => let? l := scan l in scan_times scan n l
  end.

(** [scan_single_cbor_item].  The recursion stops at depth 33, so 34 levels of fuel
    at depth 0 are enough ([scan_item_fuel]). *)
Fixpoint scan_item (fuel : nat) (depth : N) (l : bytes) : result CodecError bytes :=
  match fuel with
  | O => Err (MaxDepthExceeded depth 32)
  | S fuel =>
      if 32 <? depth then Err (MaxDepthExceeded depth 32) else
      let? (major, val, l) := scan_header l in
      match major with
      | 0 | 1 => Ok l
      | 2 | 3 =>
          if blen l <? val then Err (DecodingError TruncatedString)
          else Ok (drop (N.to_nat val) l)
      | 4 =>
          if blen l <? val then Err (DecodingError ArrayTooLong)
          else scan_times (scan_item fuel (depth + 1)) (N.to_nat val) l
      | 5 =>
          if u64_max <? val * 2 then Err (DecodingError MapCountOverflow) else
          if blen l <? val * 2 then Err (DecodingError MapTooLong)
          else scan_times (scan_item fuel (depth + 1)) (N.to_nat (val * 2)) l
      | 6 => scan_item fuel (depth + 1) l
      | _ => Ok l
      end
  end.

Definition scan_single_cbor_item (l : bytes) : result CodecError bytes := scan_item 34 0 l.

(** [while cursor < bytes.len()]: every item takes a byte at least, so the length
    is enough fuel ([verify_loop_fuel]). *)
Fixpoint verify_loop (fuel : nat) (l : bytes) : result CodecError unit :=
  match l, fuel with
  | [], _ => Ok tt
  | _, O => Err (DecodingError UnexpectedEnd)
  | _, S fuel => let? l := scan_single_cbor_item l in verify_loop fuel l
  end.

Definition verify_definite_length_cbor (l : bytes) : result CodecError unit :=
  verify_loop (length l) l.

(** ** The check of a decoded value *)

(** [ciborium::Value]; the variants the code does not look into are one. *)
Inductive Value :=
| VArray (l : list Value)
| VMap (l : list (Value * Value))
| VBytes (b : bytes)
| VText (t : string)
| VTag (tag : N) (inner : Value)
| VOther (scalar : N).

Section each.
Context {A : Type} (f : A → result CodecError unit).
Fixpoint each (l : list A) : result CodecError unit :=
  match l with
  | [] => Ok tt
  | x :: l => let? _ := f x in each l
  end.
End each.

Fixpoint validate_cbor_value (v : Value) (current_depth : N) (limits : DecoderLimits)
    : result CodecError unit :=
  if max_depth limits <? current_depth then Err (MaxDepthExceeded current_depth (max_depth limits)) else
  match v with
  | VArray arr =>
      if max_container_len limits <? N.of_nat (length arr)
      then Err (ContainerTooLarge (N.of_nat (length arr)) (max_container_len limits))
      else each (λ item, validate_cbor_value item (current_depth + 1) limits) arr
  | VMap entries =>
      if max_container_len limits <? N.of_nat (length entries)
      then Err (ContainerTooLarge (N.of_nat (length entries)) (max_container_len limits))
      else each (λ kv : Value * Value,
             let '(k, v) := kv in
             let? _ := validate_cbor_value k (current_depth + 1) limits in
             validate_cbor_value v (current_depth + 1) limits) entries
  | VBytes b =>
      if max_bytes_len limits <? blen b
      then Err (ContainerTooLarge (blen b) (max_bytes_len limits)) else Ok tt
  | VText t =>
      if max_bytes_len limits <? str_len t
      then Err (ContainerTooLarge (str_len t) (max_bytes_len limits)) else Ok tt
  | VTag _ inner => validate_cbor_value inner (current_depth + 1) limits
  | VOther _ => Ok tt
  end.

(** [ciborium::into_writer], and [from_reader] at [Value] and at the type [T]. *)
Class Cbor (T : Type) := {
  cbor_write : T → option bytes;
  cbor_read_value : bytes → option Value;
  cbor_read : bytes → option T
}.

Definition to_canonical_cbor `{Cbor T} (value : T) : result CodecError bytes :=
  ok_or (cbor_write value) EncodingError.

Definition from_canonical_cbor `{Cbor T} (l : bytes) (limits : DecoderLimits)
    : result CodecError T :=
  if max_input_bytes limits <? blen l then Err (InputTooLarge (blen l) (max_input_bytes limits)) else
  let? _ := verify_definite_length_cbor l in
  let? raw_val := ok_or (cbor_read_value l) (DecodingError Ciborium) in
  let? _ := validate_cbor_value raw_val 0 limits in
  ok_or (cbor_read l) (DecodingError Ciborium).

(** ** The grammar of definite-length CBOR (RFC 8949, section 3)

    [cbor_item n l]: the bytes [l] are one item with at most [n] levels below its
    head; an empty container has none. *)

Definition header_ok (h : bytes) (major val : N) : Prop :=
  ∃ b ext, h = b :: ext ∧ major = N.shiftr (Byte.to_N b) 5 ∧
    let info := N.land (Byte.to_N b) 0x1f in
    (info < 24 ∧ ext = [] ∧ val = info) ∨
    (∃ j, (j ≤ 3)%nat ∧ info = 24 + N.of_nat j ∧ length ext = (2 ^ j)%nat ∧ val = be_val ext).

Inductive cbor_item : nat → bytes → Prop :=
| item_scalar n h major val :
    header_ok h major val → major = 0 ∨ major = 1 ∨ major = 7 → cbor_item n h
| item_string n h major val s :
    header_ok h major val → major = 2 ∨ major = 3 → blen s = val → cbor_item n (h ++ s)
| item_empty n h major :
    header_ok h major 0 → major = 4 ∨ major = 5 → cbor_item n h
| item_array n h val l :
    header_ok h 4 val → cbor_seq n (N.to_nat val) l → cbor_item (S n) (h ++ l)
| item_map n h val l :
    header_ok h 5 val → cbor_seq n (N.to_nat (val * 2)) l → cbor_item (S n) (h ++ l)
| item_tag n h val l :
    header_ok h 6 val → cbor_item n l → cbor_item (S n) (h ++ l)
with cbor_seq : nat → nat → bytes → Prop :=
| seq_nil n : cbor_seq n 0 []
| seq_cons n k a l : cbor_item n a → cbor_seq n k l → cbor_seq n (S k) (a ++ l).

Scheme cbor_item_mut := Induction for cbor_item Sort Prop
  with cbor_seq_mut := Induction for cbor_seq Sort Prop.

(** A stream of items, as the top-level loop accepts it. *)
Inductive cbor_stream : bytes → Prop :=
| stream_nil : cbor_stream []
| stream_cons a l : cbor_item 32 a → cbor_stream l → cbor_stream (a ++ l).

(** ** The scanner decides the grammar *)

Lemma read_be_Ok k err l v r :
  read_be k err l = Ok (v, r) ↔ ∃ ext, l = ext ++ r ∧ length ext = k ∧ v = be_val ext.
Proof.
  unfold read_be. destruct (Nat.ltb_spec (length l) k) as [Hlt|Hge].
  - split; [done|]. intros (ext & -> & Hl & _). rewrite length_app in Hlt. lia.
  - split.
    + intros [= <- <-]. exists (take k l). rewrite take_drop, length_take. split; [done|]. split; [lia|done].
    + intros (ext & -> & <- & ->). by rewrite take_app_length, drop_app_length.
Qed.

Lemma initial_byte_major b : N.shiftr (Byte.to_N b) 5 ≤ 7.
Proof.
  rewrite N.shiftr_div_pow2. pose proof (to_N_lt b).
  assert (Byte.to_N b / 2 ^ 5 < 8); [|lia]. apply N.Div0.div_lt_upper_bound. lia.
Qed.

Lemma initial_byte_info b : N.land (Byte.to_N b) 0x1f < 32.
Proof. change 0x1f with (N.ones 5). rewrite N.land_ones. apply N.mod_lt. done. Qed.

Lemma scan_header_Ok l major val r :
  scan_header l = Ok (major, val, r) ↔ ∃ h, l = h ++ r ∧ header_ok h major val.
Proof.
  unfold scan_header, header_ok. destruct l as [|b l].
  { split; [done|]. intros (h & Hl & b & ext & -> & _). done. }
  set (info := N.land (Byte.to_N b) 0x1f). pose proof (initial_byte_info b) as Hi. fold info in Hi.
  cbv zeta. destruct (N.eqb_spec info 31) as [E31|E31].
  { split; [done|]. intros (h & Hl & b' & ext & -> & _ & Hc). injection Hl as <- ->. fold info in Hc.
    destruct Hc as [(?&_&_)|(j&?&?&_)]; lia. }
  assert (∀ k err j, info = 24 + N.of_nat j → (j ≤ 3)%nat → k = (2 ^ j)%nat →
    (let? (val0, l0) := read_be k err l in Ok (N.shiftr (Byte.to_N b) 5, val0, l0)) = Ok (major, val, r) ↔
    ∃ h, b :: l = h ++ r ∧ ∃ b0 ext, h = b0 :: ext ∧ major = N.shiftr (Byte.to_N b0) 5 ∧
      (N.land (Byte.to_N b0) 31 < 24 ∧ ext = [] ∧ val = N.land (Byte.to_N b0) 31 ∨
       (∃ j, (j ≤ 3)%nat ∧ N.land (Byte.to_N b0) 31 = 24 + N.of_nat j ∧ length ext = (2 ^ j)%nat ∧
          val = be_val ext))) as Hext.
  { intros k err j Hj Hj3 ->. split.
    - destruct (read_be _ err l) as [[v l0]|] eqn:Hr; [|done]. intros [= <- <- <-].
      apply read_be_Ok in Hr as (ext & -> & Hlen & ->). exists (b :: ext). split; [done|].
      exists b, ext. split; [done|]. split; [done|]. right. exists j. fold info. done.
    - intros (h & Hl & b' & ext & -> & -> & Hc). injection Hl as <- ->. fold info in Hc.
      destruct Hc as [(?&_&_)|(j'&_&Hj'&Hlen&->)]; [lia|].
      assert (j' = j) as -> by lia.
      assert (read_be (2 ^ j) err (ext ++ r) = Ok (be_val ext, r)) as -> by (apply read_be_Ok; eauto).
      done. }
  destruct (N.ltb_spec info 24) as [Hlt|Hge].
  { split.
    - intros [= <- <- <-]. exists [b]. split; [done|]. exists b, []. split; [done|]. split; [done|]. by left.
    - intros (h & Hl & b' & ext & -> & -> & Hc). injection Hl as <- ->. fold info in Hc.
      destruct Hc as [(_&->&->)|(j&_&?&_)]; [done|lia]. }
  destruct (N.eqb_spec info 24) as [E|E]; [apply (Hext _ _ 0%nat); [lia|lia|done]|].
  destruct (N.eqb_spec info 25) as [E1|E1]; [apply (Hext _ _ 1%nat); [lia|lia|done]|].
  destruct (N.eqb_spec info 26) as [E2|E2]; [apply (Hext _ _ 2%nat); [lia|lia|done]|].
  destruct (N.eqb_spec info 27) as [E3|E3]; [apply (Hext _ _ 3%nat); [lia|lia|done]|].
  split; [done|]. intros (h & Hl & b' & ext & -> & _ & Hc). injection Hl as <- ->. fold info in Hc.
  destruct Hc as [(?&_&_)|(j&?&?&_)]; lia.
Qed.

Lemma header_ok_nonempty h major val : header_ok h major val → (1 ≤ length h)%nat ∧ major ≤ 7.
Proof. intros (b & ext & -> & -> & _). simpl. split; [lia|apply initial_byte_major]. Qed.

Lemma cbor_item_nonempty n l : cbor_item n l → (1 ≤ length l)%nat.
Proof.
  destruct 1; rewrite ?length_app;
    match goal with H : header_ok _ _ _ |- _ => apply header_ok_nonempty in H end; lia.
Qed.

Lemma cbor_seq_length n k l : cbor_seq n k l → (k ≤ length l)%nat.
Proof.
  induction 1 as [n|n k a l Ha Hl IH]; [simpl; lia|].
  apply cbor_item_nonempty in Ha. rewrite length_app. lia.
Qed.

Lemma scan_times_Ok scan n l r (P : bytes → Prop) :
  (∀ l r, scan l = Ok r → ∃ a, l = a ++ r ∧ P a) →
  scan_times scan n l = Ok r →
  ∃ parts, length parts = n ∧ Forall P parts ∧ l = concat parts ++ r.
Proof.
  intros Hs. revert l. induction n as [|n IH]; intros l; simpl.
  { intros [= ->]. by exists []. }
  destruct (scan l) as [l1|] eqn:E; [|done]. intros H.
  apply Hs in E as (a & -> & Ha). apply IH in H as (ps & <- & Hps & ->).
  exists (a :: ps). simpl. rewrite <- app_assoc. auto.
Qed.

Lemma cbor_seq_parts n parts : Forall (cbor_item n) parts → cbor_seq n (length parts) (concat parts).
Proof. induction 1; simpl; by constructor. Qed.

Lemma blen_drop l val : val ≤ blen l → ∃ s r, l = s ++ r ∧ blen s = val ∧ drop (N.to_nat val) l = r.
Proof.
  unfold blen. intros H. exists (take (N.to_nat val) l), (drop (N.to_nat val) l).
  rewrite take_drop, length_take. split; [done|]. split; [lia|done].
Qed.

(** Every level of fuel beyond the depth is one level of nesting. *)
Lemma scan_item_sound fuel : ∀ depth l r,
  depth ≤ 32 → scan_item fuel depth l = Ok r →
  ∃ a, l = a ++ r ∧ cbor_item (N.to_nat (32 - depth)) a.
Proof.
  induction fuel as [|fuel IH]; intros depth l r Hd; [done|]. cbn [scan_item].
  destruct (N.ltb_spec 32 depth) as [?|_]; [lia|].
  destruct (scan_header l) as [[[major val] l1]|] eqn:Hh; [|done].
  apply scan_header_Ok in Hh as (h & -> & Hh). pose proof (header_ok_nonempty _ _ _ Hh) as [_ Hm].
  assert (depth < 32 →
    (∀ l r, scan_item fuel (depth + 1) l = Ok r → ∃ a, l = a ++ r ∧ cbor_item (N.to_nat (32 - (depth + 1))) a)
    ∧ N.to_nat (32 - depth) = S (N.to_nat (32 - (depth + 1)))) as Hrec.
  { intros Hlt. split; [intros; apply IH; [lia|done]|lia]. }
  assert (∀ n l r, scan_times (scan_item fuel (depth + 1)) n l = Ok r → n = 0%nat ∨ depth < 32) as Hdeep.
  { intros [|n] l2 r2; [by left|]. simpl. destruct (decide (depth < 32)); [by right|].
    destruct fuel; simpl; [done|]. destruct (N.ltb_spec 32 (depth + 1)); [done|lia]. }
  assert (∀ major n, header_ok h major val → (major = 4 ∨ major = 5) → (n = 0%nat → val = 0) →
    scan_times (scan_item fuel (depth + 1)) n l1 = Ok r →
    (∀ m s, cbor_seq m n s → cbor_item (S m) (h ++ s)) →
    ∃ a, h ++ l1 = a ++ r ∧ cbor_item (N.to_nat (32 - depth)) a) as Hcont.
  { intros mj n Hh' Hmj Hz Ht Hcon. destruct (Hdeep _ _ _ Ht) as [->|Hlt].
    - rewrite (Hz eq_refl) in Hh'. exists h. simpl in Ht. injection Ht as ->.
      split; [done|]. by eapply item_empty.
    - destruct (Hrec Hlt) as (Hs & ->).
      destruct (scan_times_Ok _ _ _ _ _ Hs Ht) as (ps & <- & Hps & ->).
      exists (h ++ concat ps). rewrite <- app_assoc. split; [done|]. apply Hcon, cbor_seq_parts, Hps. }
  assert (major = 0 ∨ major = 1 ∨ major = 2 ∨ major = 3 ∨ major = 4 ∨ major = 5 ∨ major = 6 ∨ major = 7) as Hcases by lia.
  destruct Hcases as [->|[->|[->|[->|[->|[->|[->| ->]]]]]]].
  - intros [= ->]. exists h. split; [done|]. eapply item_scalar; [done|auto].
  - intros [= ->]. exists h. split; [done|]. eapply item_scalar; [done|auto].
  - destruct (N.ltb_spec (blen l1) val) as [?|Hv]; [done|].
    destruct (blen_drop _ _ Hv) as (s & r' & -> & Hs & ->). intros [= <-].
    exists (h ++ s). rewrite <- app_assoc. split; [done|]. eapply item_string; [done|auto|done].
  - destruct (N.ltb_spec (blen l1) val) as [?|Hv]; [done|].
    destruct (blen_drop _ _ Hv) as (s & r' & -> & Hs & ->). intros [= <-].
    exists (h ++ s). rewrite <- app_assoc. split; [done|]. eapply item_string; [done|auto|done].
  - destruct (N.ltb_spec (blen l1) val) as [?|Hv]; [done|]. intros Ht.
    refine (Hcont 4 _ Hh _ _ Ht _); [auto|lia|]. intros m s Hs. by eapply item_array.
  - destruct (u64_max <? val * 2); [done|].
    destruct (N.ltb_spec (blen l1) (val * 2)) as [?|Hv]; [done|]. intros Ht.
    refine (Hcont 5 _ Hh _ _ Ht _); [auto|lia|]. intros m s Hs. by eapply item_map.
  - intros Ht. assert (depth < 32) as Hlt.
    { destruct (Hdeep 1%nat l1 r) as [?|?]; [simpl; by rewrite Ht|done|done]. }
    destruct (Hrec Hlt) as (Hs & ->). apply Hs in Ht as (a & -> & Ha).
    exists (h ++ a). rewrite <- app_assoc. split; [done|]. by eapply item_tag.
  - intros [= ->]. exists h. split; [done|]. eapply item_scalar; [done|auto].
Qed.

(** Conversely the scanner takes every item of the grammar, given fuel for its
    levels; slices are shorter than [isize::MAX], so the counts do not overflow. *)
Definition slice_ok (l : bytes) : Prop := blen l < 2 ^ 63.

Lemma scan_item_header fuel depth h l major val :
  depth ≤ 32 → header_ok h major val →
  scan_item (S fuel) depth (h ++ l) =
    match major with
    | 0 | 1 => Ok l
    | 2 | 3 =>
        if blen l <? val then Err (DecodingError TruncatedString) else Ok (drop (N.to_nat val) l)
    | 4 =>
        if blen l <? val then Err (DecodingError ArrayTooLong)
        else scan_times (scan_item fuel (depth + 1)) (N.to_nat val) l
    | 5 =>
        if u64_max <? val * 2 then Err (DecodingError MapCountOverflow) else
        if blen l <? val * 2 then Err (DecodingError MapTooLong)
        else scan_times (scan_item fuel (depth + 1)) (N.to_nat (val * 2)) l
    | 6 => scan_item fuel (depth + 1) l
    | _ => Ok l
    end.
Proof.
  intros Hd Hh. cbn [scan_item]. destruct (N.ltb_spec 32 depth) as [?|_]; [lia|].
  assert (scan_header (h ++ l) = Ok (major, val, l)) as ->; [|done].
  apply scan_header_Ok. eauto.
Qed.

Lemma scan_complete :
  (∀ n a, cbor_item n a → ∀ fuel depth r, depth + N.of_nat n ≤ 32 → (n < fuel)%nat →
     slice_ok (a ++ r) → scan_item fuel depth (a ++ r) = Ok r) ∧
  (∀ n k a, cbor_seq n k a → ∀ fuel depth r, depth + N.of_nat n ≤ 32 → (n < fuel)%nat →
     slice_ok (a ++ r) → scan_times (scan_item fuel depth) k (a ++ r) = Ok r).
Proof.
  assert (∀ n a, cbor_item n a → ∀ fuel depth r, depth + N.of_nat n ≤ 32 → (n < fuel)%nat →
     slice_ok (a ++ r) → scan_item fuel depth (a ++ r) = Ok r) as Hitem.
  { apply (cbor_item_mut
      (λ n a _, ∀ fuel depth r, depth + N.of_nat n ≤ 32 → (n < fuel)%nat → slice_ok (a ++ r) →
         scan_item fuel depth (a ++ r) = Ok r)
      (λ n k a _, ∀ fuel depth r, depth + N.of_nat n ≤ 32 → (n < fuel)%nat → slice_ok (a ++ r) →
         scan_times (scan_item fuel depth) k (a ++ r) = Ok r)).
    - intros n h major val Hh Hm fuel depth r Hd Hf _. destruct fuel as [|fuel]; [lia|].
      assert (depth ≤ 32) as Hd0 by lia. rewrite (scan_item_header _ _ _ _ _ _ Hd0 Hh). by destruct Hm as [->|[->| ->]].
    - intros n h major val s Hh Hm Hs fuel depth r Hd Hf _. destruct fuel as [|fuel]; [lia|].
      assert (depth ≤ 32) as Hd0 by lia. rewrite <- app_assoc, (scan_item_header _ _ _ _ _ _ Hd0 Hh).
      assert ((blen (s ++ r) <? val) = false) as -> by (rewrite blen_app; apply N.ltb_ge; lia).
      assert (drop (N.to_nat val) (s ++ r) = r) as ->.
      { replace (N.to_nat val) with (length s) by (unfold blen in Hs; lia). apply drop_app_length. }
      by destruct Hm as [->| ->].
    - intros n h major Hh Hm fuel depth r Hd Hf _. destruct fuel as [|fuel]; [lia|].
      assert (depth ≤ 32) as Hd0 by lia. rewrite (scan_item_header _ _ _ _ _ _ Hd0 Hh).
      destruct Hm as [->| ->]; simpl; by destruct (blen r).
    - intros n h val l Hh Hl IH fuel depth r Hd Hf Hsl. destruct fuel as [|fuel]; [lia|].
      assert (depth ≤ 32) as Hd0 by lia. rewrite <- app_assoc, (scan_item_header _ _ _ _ _ _ Hd0 Hh).
      apply cbor_seq_length in Hl as Hlen.
      assert ((blen (l ++ r) <? val) = false) as -> by (rewrite blen_app; apply N.ltb_ge; unfold blen; lia).
      apply IH; [lia|lia|]. unfold slice_ok in *. rewrite !blen_app in Hsl. rewrite blen_app. lia.
    - intros n h val l Hh Hl IH fuel depth r Hd Hf Hsl. destruct fuel as [|fuel]; [lia|].
      assert (depth ≤ 32) as Hd0 by lia. rewrite <- app_assoc, (scan_item_header _ _ _ _ _ _ Hd0 Hh).
      apply cbor_seq_length in Hl as Hlen. unfold slice_ok in Hsl. rewrite !blen_app in Hsl.
      assert ((u64_max <? val * 2) = false) as ->.
      { apply N.ltb_ge. change u64_max with 18446744073709551615.
        change (2 ^ 63) with 9223372036854775808 in Hsl. unfold blen in Hsl. lia. }
      assert ((blen (l ++ r) <? val * 2) = false) as -> by (rewrite blen_app; apply N.ltb_ge; unfold blen; lia).
      apply IH; [lia|lia|]. unfold slice_ok. rewrite blen_app. lia.
    - intros n h val l Hh Hl IH fuel depth r Hd Hf Hsl. destruct fuel as [|fuel]; [lia|].
      assert (depth ≤ 32) as Hd0 by lia. rewrite <- app_assoc, (scan_item_header _ _ _ _ _ _ Hd0 Hh).
      apply IH; [lia|lia|]. unfold slice_ok in *. rewrite !blen_app in Hsl. rewrite blen_app. lia.
    - intros n fuel depth r _ _ _. done.
    - intros n k a l Ha IHa Hl IHl fuel depth r Hd Hf Hsl. simpl. rewrite <- app_assoc.
      rewrite <- app_assoc in Hsl. rewrite IHa by done. apply IHl; [done|done|].
      unfold slice_ok in *. rewrite !blen_app in Hsl. rewrite blen_app. lia. }
  split; [exact Hitem|]. intros n k a Hs. induction Hs as [n|n k a l Ha Hl IH]; intros fuel depth r Hd Hf Hsl; [done|].
  simpl. rewrite <- app_assoc. rewrite <- app_assoc in Hsl. rewrite (Hitem _ _ Ha) by done.
  apply IH; [done|done|]. unfold slice_ok in *. rewrite !blen_app in Hsl. rewrite blen_app. lia.
Qed.

Lemma scan_single_sound l r :
  scan_single_cbor_item l = Ok r → ∃ a, l = a ++ r ∧ cbor_item 32 a.
Proof. unfold scan_single_cbor_item. apply scan_item_sound. discriminate. Qed.

Lemma scan_single_complete a r :
  cbor_item 32 a → slice_ok (a ++ r) → scan_single_cbor_item (a ++ r) = Ok r.
Proof.
  unfold scan_single_cbor_item. intros Ha Hs.
  apply (proj1 scan_complete 32%nat a Ha); [discriminate|lia|exact Hs].
Qed.

Lemma verify_loop_Ok fuel : ∀ l, (length l ≤ fuel)%nat → slice_ok l →
  verify_loop fuel l = Ok tt ↔ cbor_stream l.
Proof.
  induction fuel as [|fuel IH]; intros l Hf Hsl.
  { destruct l; [|simpl in Hf; lia]. split; [constructor|done]. }
  destruct l as [|b l]; [split; [constructor|done]|]. cbn [verify_loop]. split.
  - destruct (scan_single_cbor_item (b :: l)) as [r|] eqn:E; [|done]. intros Hr.
    apply scan_single_sound in E as (a & Hl & Ha). rewrite Hl in *. constructor; [done|].
    apply cbor_item_nonempty in Ha. apply IH; [|unfold slice_ok in *; rewrite blen_app in Hsl; lia|done].
    rewrite length_app in Hf. lia.
  - intros Hs. inversion Hs as [|a r Ha Hr E]. rewrite <- E in *. clear E.
    rewrite (scan_single_complete a r Ha Hsl).
    apply cbor_item_nonempty in Ha. apply IH; [|unfold slice_ok in *; rewrite blen_app in Hsl; lia|done].
    rewrite length_app in Hf. lia.
Qed.

(** ** The limits as a predicate on values *)

Section within.
Context (L : DecoderLimits).

(** Depth, container lengths and string lengths below the limits. *)
Inductive within : N → Value → Prop :=
| within_array d l :
    d ≤ max_depth L → N.of_nat (length l) ≤ max_container_len L →
    (∀ v, v ∈ l → within (d + 1) v) → within d (VArray l)
| within_map d l :
    d ≤ max_depth L → N.of_nat (length l) ≤ max_container_len L →
    (∀ k v, (k, v) ∈ l → within (d + 1) k) → (∀ k v, (k, v) ∈ l → within (d + 1) v) →
    within d (VMap l)
| within_bytes d b : d ≤ max_depth L → blen b ≤ max_bytes_len L → within d (VBytes b)
| within_text d t : d ≤ max_depth L → str_len t ≤ max_bytes_len L → within d (VText t)
| within_tag d tag v : d ≤ max_depth L → within (d + 1) v → within d (VTag tag v)
| within_other d s : d ≤ max_depth L → within d (VOther s).
End within.

Lemma each_Ok {A} (f : A → result CodecError unit) l :
  each f l = Ok tt ↔ ∀ x, x ∈ l → f x = Ok tt.
Proof.
  induction l as [|x l IH]; simpl; [set_solver|].
  destruct (f x) as [[]|] eqn:E; rewrite ?IH.
  - split; [intros H y [->|Hy]%elem_of_cons; auto|]. intros H y Hy. apply H. by right.
  - split; [done|]. intros H. specialize (H x ltac:(left)). congruence.
Qed.

(** Structural induction through the containers. *)
Fixpoint value_size (v : Value) : nat :=
  match v with
  | VArray l => S (list_sum (value_size <$> l))
  | VMap l => S (list_sum ((λ kv : Value * Value, let '(k, w) := kv in (value_size k + value_size w)%nat) <$> l))
  | VTag _ w => S (value_size w)
  | _ => 1
  end.

Lemma list_sum_elem (l : list nat) n : n ∈ l → (n ≤ list_sum l)%nat.
Proof. induction l as [|m l IH]; [set_solver|]. intros [->|H]%elem_of_cons; simpl; [lia|]. apply IH in H. lia. Qed.

Lemma size_array l v : v ∈ l → (value_size v < value_size (VArray l))%nat.
Proof. intros H. simpl. apply (list_elem_of_fmap_2 value_size), list_sum_elem in H. lia. Qed.

Lemma size_map l k v : (k, v) ∈ l →
  (value_size k < value_size (VMap l))%nat ∧ (value_size v < value_size (VMap l))%nat.
Proof.
  intros H. simpl. apply (list_elem_of_fmap_2 (λ kv : Value * Value, let '(k, w) := kv in (value_size k + value_size w)%nat)),
    list_sum_elem in H. simpl in H. lia.
Qed.

Lemma validate_within L v : ∀ d, validate_cbor_value v d L = Ok tt ↔ within L d v.
Proof.
  remember (value_size v) as n eqn:Hn. revert v Hn.
  induction n as [n IH] using lt_wf_ind. intros v -> d.
  assert (∀ w, (value_size w < value_size v)%nat → ∀ d, validate_cbor_value w d L = Ok tt ↔ within L d w) as Hrec
    by (intros w Hw; by eapply IH).
  clear IH. destruct v as [l|l|b|t|tag w|s]; cbn [validate_cbor_value];
    (destruct (N.ltb_spec (max_depth L) d) as [Hd|Hd]; [split; [done|]; intros Hw; inversion Hw; lia|]).
  - destruct (N.ltb_spec (max_container_len L) (N.of_nat (length l))) as [Hl|Hl].
    { split; [done|]. intros Hw. inversion Hw; lia. }
    rewrite each_Ok. split.
    + intros H. constructor; [done|done|]. intros v Hv. apply Hrec; [by apply size_array|by apply H].
    + intros Hw v Hv. inversion Hw; subst. apply Hrec; [by apply size_array|auto].
  - destruct (N.ltb_spec (max_container_len L) (N.of_nat (length l))) as [Hl|Hl].
    { split; [done|]. intros Hw. inversion Hw; lia. }
    rewrite each_Ok. split.
    + intros H. assert (∀ k v, (k, v) ∈ l → within L (d + 1) k ∧ within L (d + 1) v) as Hkv.
      { intros k v Hkv. specialize (H _ Hkv). simpl in H.
        destruct (size_map _ _ _ Hkv) as [Hk Hv].
        destruct (validate_cbor_value k (d + 1) L) as [[]|] eqn:E; [|done].
        split; [by apply Hrec|]. by apply Hrec. }
      constructor; naive_solver.
    + intros Hw [k v] Hkv. inversion Hw as [|? ? ? ? Hks Hvs| | | |]; subst.
      destruct (size_map _ _ _ Hkv) as [Hk Hv]. pose proof (Hks k v Hkv) as H1. pose proof (Hvs k v Hkv) as H2.
      apply (Hrec k Hk) in H1 as ->. by apply (Hrec v Hv) in H2.
  - destruct (N.ltb_spec (max_bytes_len L) (blen b)).
    + split; [done|]. intros Hw. inversion Hw; lia.
    + split; [by constructor|done].
  - destruct (N.ltb_spec (max_bytes_len L) (str_len t)).
    + split; [done|]. intros Hw. inversion Hw; lia.
    + split; [by constructor|done].
  - rewrite Hrec by (simpl; lia). split; [by constructor|]. intros Hw. by inversion Hw.
  - split; [by constructor|done].
Qed.

(** Wider limits accept more. *)
Definition limits_le (L M : DecoderLimits) : Prop :=
  max_input_bytes L ≤ max_input_bytes M ∧ max_depth L ≤ max_depth M ∧
  max_container_len L ≤ max_container_len M ∧ max_bytes_len L ≤ max_bytes_len M.

Lemma within_mono L M d v : limits_le L M → within L d v → within M d v.
Proof.
  intros (_ & H1 & H2 & H3).
  induction 1 as [d l Hd Hl _ IH|d l Hd Hl _ IHk _ IHv|d b Hd Hb|d t Hd Ht|d tag v Hd _ IH|d s Hd].
  - apply within_array; [lia|lia|auto].
  - apply within_map; [lia|lia|eauto|eauto].
  - apply within_bytes; lia.
  - apply within_text; lia.
  - apply within_tag; [lia|auto].
  - apply within_other. lia.
Qed.

Lemma limits_le_trans L M K : limits_le L M → limits_le M K → limits_le L K.
Proof. unfold limits_le. lia. Qed.

Lemma verify_definite_length_cbor_Ok l :
  slice_ok l → verify_definite_length_cbor l = Ok tt ↔ cbor_stream l.
Proof. intros H. unfold verify_definite_length_cbor. by apply verify_loop_Ok. Qed.

(** ** Fuel *)

Lemma scan_times_ext f g n l : (∀ l, f l = g l) → scan_times f n l = scan_times g n l.
Proof. intros H. revert l. induction n as [|n IH]; intros l; simpl; [done|]. rewrite H. by destruct (g l). Qed.

(** Past the depth bound the body returns before it recurses. *)
Lemma scan_item_fuel depth l : ∀ fuel fuel',
  depth ≤ 33 → (N.to_nat (34 - depth) ≤ fuel)%nat → (N.to_nat (34 - depth) ≤ fuel')%nat →
  scan_item fuel depth l = scan_item fuel' depth l.
Proof.
  remember (N.to_nat (34 - depth)) as k eqn:Hk. revert depth l Hk.
  induction k as [|k IH]; intros depth l Hk fuel fuel' Hd Hf Hf'; [lia|].
  destruct fuel as [|fuel]; [lia|]. destruct fuel' as [|fuel']; [lia|]. cbn [scan_item].
  destruct (N.ltb_spec 32 depth) as [?|Hlt]; [done|].
  assert (∀ l, scan_item fuel (depth + 1) l = scan_item fuel' (depth + 1) l) as Hrec.
  { intros l'. apply IH; lia. }
  destruct (scan_header l) as [[[major val] l1]|]; [|done].
  destruct major as [|p]; [done|].
  repeat (destruct p as [p|p|]; try done); rewrite ?(scan_times_ext _ _ _ _ Hrec), ?Hrec; done.
Qed.

Lemma verify_loop_fuel l : ∀ fuel,
  (length l ≤ fuel)%nat → verify_loop fuel l = verify_definite_length_cbor l.
Proof.
  unfold verify_definite_length_cbor.
  assert (∀ k l, (length l ≤ k)%nat → ∀ fuel, (length l ≤ fuel)%nat → verify_loop fuel l = verify_loop k l) as H.
  { clear l. induction k as [|k IH]; intros l Hk fuel Hf.
    { destruct l; [|simpl in Hk; lia]. by destruct fuel. }
    destruct l as [|b l]; [by destruct fuel|]. destruct fuel as [|fuel]; [simpl in Hf; lia|].
    cbn [verify_loop]. destruct (scan_single_cbor_item (b :: l)) as [r|] eqn:E; [|done].
    apply scan_single_sound in E as (a & Hl & Ha). apply cbor_item_nonempty in Ha.
    rewrite Hl, length_app in Hk, Hf. apply IH; lia. }
  intros fuel Hf. by apply H.
Qed.

(** [verify_definite_length_cbor] on a prefix it accepts goes on with the rest. *)
Lemma verify_app a b :
  slice_ok (a ++ b) → verify_definite_length_cbor a = Ok tt →
  verify_definite_length_cbor (a ++ b) = verify_definite_length_cbor b.
Proof.
  intros Hs Ha. assert (slice_ok a) as Hsa by (unfold slice_ok in *; rewrite blen_app in Hs; lia).
  apply (verify_definite_length_cbor_Ok a Hsa) in Ha. clear Hsa.
  induction Ha as [|x l Hx Hl IH]; [done|]. rewrite <- app_assoc in Hs |- *.
  assert (slice_ok (l ++ b)) as Hs' by (unfold slice_ok in *; rewrite blen_app in Hs; lia).
  rewrite <- (IH Hs'). pose proof (cbor_item_nonempty _ _ Hx) as Hne.
  rewrite <- (verify_loop_fuel (l ++ b) (pred (length (x ++ l ++ b)))) by (rewrite !length_app; lia).
  unfold verify_definite_length_cbor. pose proof (scan_single_complete _ _ Hx Hs) as E.
  destruct x as [|c x]; [simpl in Hne; lia|]. change ((c :: x) ++ l ++ b) with (c :: (x ++ l ++ b)) in *.
  cbn [length verify_loop pred]. by rewrite E.
Qed.

(** ** Properties *)

(** C30. What [from_canonical_cbor] accepts: it returns [x] exactly when the input is
    no longer than the limit, the bytes are a sequence of definite-length items nested
    at most 32 deep, the first reading gives a value all of whose containers, strings
    and nesting are within the limits, and the second reading gives [x]. *)
Theorem from_canonical_cbor_correct `{C : Cbor T} (l : bytes) (limits : DecoderLimits) (x : T)
    (Hs : slice_ok l) :
  from_canonical_cbor l limits = Ok x ↔
    blen l ≤ max_input_bytes limits ∧ cbor_stream l ∧
    (∃ v, cbor_read_value l = Some v ∧ within limits 0 v) ∧ cbor_read l = Some x.
Proof.
  unfold from_canonical_cbor. destruct (N.ltb_spec (max_input_bytes limits) (blen l)) as [Hl|Hl].
  { split; [done|]. lia. }
  pose proof (verify_definite_length_cbor_Ok l Hs) as Hv.
  destruct (verify_definite_length_cbor l) as [[]|] eqn:E; [|split; [done|]; intros (_ & Hc & _); by apply Hv in Hc].
  simpl. destruct (cbor_read_value l) as [v|] eqn:Er; simpl; [|split; [done|naive_solver]].
  pose proof (validate_within limits v 0) as Hw.
  destruct (validate_cbor_value v 0 limits) as [[]|]; simpl;
    [|split; [done|]; intros (_ & _ & (v' & [= ->] & Hv') & _); by apply Hw in Hv'].
  destruct (cbor_read l) as [y|]; simpl; naive_solver.
Qed.

(** The four limit sets form a chain, and widening the limits loses nothing: what
    is decoded as a control record is decoded, with the same result, under the
    default, record and manifest limits. *)
Theorem limits_monotone `{C : Cbor T} (l : bytes) (L M : DecoderLimits) (x : T)
    (HLM : limits_le L M) (Hx : from_canonical_cbor l L = Ok x) :
  from_canonical_cbor l M = Ok x ∧
  limits_le LIMITS_CONTROL LIMITS_DEFAULT ∧ limits_le LIMITS_DEFAULT LIMITS_RECORD ∧
  limits_le LIMITS_RECORD LIMITS_MANIFEST.
Proof.
  split; [|repeat split; vm_compute; discriminate].
  revert Hx. unfold from_canonical_cbor.
  destruct (N.ltb_spec (max_input_bytes L) (blen l)) as [?|Hl]; [done|].
  assert ((max_input_bytes M <? blen l) = false) as -> by (apply N.ltb_ge; destruct HLM; lia).
  destruct (verify_definite_length_cbor l) as [[]|]; [|done]. simpl.
  destruct (cbor_read_value l) as [v|]; [|done]. simpl.
  destruct (validate_cbor_value v 0 L) as [[]|] eqn:Ev; [|done]. simpl.
  apply validate_within, (within_mono _ _ _ _ HLM), validate_within in Ev as ->. done.
Qed.

(** The scanner terminates: the loop's fuel (the length of the input) and the
    recursion's (34 levels) are never what stops it; more of either changes nothing,
    because every item consumes a byte and depth 33 returns before it recurses. *)
Theorem scanner_terminates (l : bytes) (k : nat) :
  verify_loop (length l + k) l = verify_definite_length_cbor l ∧
  scan_item (34 + k) 0 l = scan_single_cbor_item l.
Proof.
  split; [apply verify_loop_fuel; lia|].
  unfold scan_single_cbor_item. apply scan_item_fuel; [discriminate| |]; simpl; lia.
Qed.

(** The check is not the canonical form of RFC 8949: items after an accepted
    prefix are accepted by themselves (no trailing-data error), and an integer spelt
    with more bytes than it needs is accepted. *)
Theorem canonical_form_not_enforced (a b : bytes) (Hs : slice_ok (a ++ b)) (Ha : verify_definite_length_cbor a = Ok tt) :
  verify_definite_length_cbor (a ++ b) = verify_definite_length_cbor b ∧
  (∀ c : byte, verify_definite_length_cbor [byte_of_N 0x18; c] = Ok tt).
Proof. split; [by apply verify_app|]. intros c. by destruct c. Qed.

(** ** Witnesses *)

(** CBOR's booleans, 0xf4 and 0xf5. *)
Definition bool_cbor : Cbor bool := {|
  cbor_write (b : bool) := Some [byte_of_N (if b then 0xf5 else 0xf4)];
  cbor_read_value l :=
    match l with
    | [c] => if Byte.to_N c =? 0xf5 then Some (VOther 21) else if Byte.to_N c =? 0xf4 then Some (VOther 20) else None
    | _ => None
    end;
  cbor_read l :=
    match l with
    | [c] => if Byte.to_N c =? 0xf5 then Some true else if Byte.to_N c =? 0xf4 then Some false else None
    | _ => None
    end
|}.

Lemma from_canonical_cbor_correct_witness :
  slice_ok [byte_of_N 0xf5] ∧
  (@from_canonical_cbor bool bool_cbor [byte_of_N 0xf5] LIMITS_CONTROL = Ok true ↔
     blen [byte_of_N 0xf5] ≤ max_input_bytes LIMITS_CONTROL ∧ cbor_stream [byte_of_N 0xf5] ∧
     (∃ v, @cbor_read_value bool bool_cbor [byte_of_N 0xf5] = Some v ∧ within LIMITS_CONTROL 0 v) ∧
     @cbor_read bool bool_cbor [byte_of_N 0xf5] = Some true).
Proof.
  assert (slice_ok [byte_of_N 0xf5]) as Hs by reflexivity.
  split; [exact Hs|]. exact (from_canonical_cbor_correct (C := bool_cbor) _ LIMITS_CONTROL true Hs).
Defined.

Lemma limits_monotone_witness :
  @from_canonical_cbor bool bool_cbor [byte_of_N 0xf4] LIMITS_RECORD = Ok false.
Proof.
  apply (limits_monotone (C := bool_cbor) [byte_of_N 0xf4] LIMITS_CONTROL LIMITS_RECORD false).
  - repeat split; vm_compute; discriminate.
  - reflexivity.
Defined.

Lemma canonical_form_not_enforced_witness :
  verify_definite_length_cbor ([byte_of_N 0xf5] ++ [byte_of_N 0x18; byte_of_N 0]) = Ok tt.
Proof.
  destruct (canonical_form_not_enforced [byte_of_N 0xf5] [byte_of_N 0x18; byte_of_N 0]) as [H1 H2].
  - reflexivity.
  - reflexivity.
  - rewrite H1. apply H2.
Defined.
