(* ===== verification/Stream.v ===== *)
(** Byte streams as the asynchronous code uses them ([read_exact], [write_all],
    [flush], [read_line], [read_to_end] under [take]), and JSON as an interface.

    A reader is what the peer still sends and how the stream ends; a writer is what
    was written and how many more bytes the peer takes.  A computation is a
    [StateM] over its stream, so what was consumed or written before an error shows. *)

From S2P Require Import Prelude Text.

Inductive io_kind := UnexpectedEof | InvalidData | InvalidInput | OtherIo.

#[export] Instance io_kind_eq_dec : EqDecision io_kind.
Proof. solve_decision. Defined.

(** ** Readers *)

Record reader := mkReader {
  rd_data : bytes;
  rd_end : option io_kind   (** [None]: the peer closes; [Some e]: reading fails *)
}.

Definition reader_of (l : bytes) : reader := mkReader l None.

(** [read_exact] on a buffer of [k] bytes. *)
Definition read_exact (k : nat) : StateM reader io_kind bytes := λ r,
  if (length (rd_data r) <? k)%nat
  then (Err (default UnexpectedEof (rd_end r)), mkReader [] (rd_end r))
  else (Ok (take k (rd_data r)), mkReader (drop k (rd_data r)) (rd_end r)).

(** ** Writers *)

Record writer := mkWriter {
  wr_out : bytes;
  wr_room : option N   (** [Some n]: the connection breaks after [n] more bytes *)
}.

Definition writer_new : writer := mkWriter [] None.

Definition write_all (l : bytes) : StateM writer io_kind unit := λ w,
  match wr_room w with
  | None => (Ok tt, mkWriter (wr_out w ++ l) None)
  | Some n =>
      if blen l <=? n then (Ok tt, mkWriter (wr_out w ++ l) (Some (n - blen l)))
      else (Err OtherIo, mkWriter (wr_out w ++ take (N.to_nat n) l) (Some 0))
  end.

(** Flushing fails once the connection is broken. *)
Definition flush : StateM writer io_kind unit := λ w,
  match wr_room w with
  | Some 0 => (Err OtherIo, w)
  | _ => (Ok tt, w)
  end.

Definition smap_err {S E F A} (f : E → F) (m : StateM S E A) : StateM S F A :=
  λ s, let '(r, s') := m s in (map_err f r, s').

Definition slift {S E A} (r : result E A) : StateM S E A := λ s, (r, s).

Lemma sbind_Ok {S E A B} (m : StateM S E A) (k : A → StateM S E B) s a s' :
  m s = (Ok a, s') → sbind m k s = k a s'.
Proof. unfold sbind. by intros ->. Qed.

Lemma sbind_Err {S E A B} (m : StateM S E A) (k : A → StateM S E B) s e s' :
  m s = (Err e, s') → sbind m k s = (Err e, s').
Proof. unfold sbind. by intros ->. Qed.

Lemma read_exact_app k a l e :
  length a = k → read_exact k (mkReader (a ++ l) e) = (Ok a, mkReader l e).
Proof.
  intros <-. unfold read_exact. cbn [rd_data rd_end]. rewrite length_app.
  assert ((length a + length l <? length a)%nat = false) as -> by (apply Nat.ltb_ge; lia).
  by rewrite take_app_length, drop_app_length.
Qed.

Lemma read_exact_Ok k r a r' :
  read_exact k r = (Ok a, r') ↔
  rd_data r = a ++ rd_data r' ∧ length a = k ∧ rd_end r' = rd_end r.
Proof.
  unfold read_exact. destruct r as [d e]; simpl.
  destruct (Nat.ltb_spec (length d) k) as [Hlt|Hge].
  - split; [done|]. intros (-> & <- & _). rewrite length_app in Hlt. lia.
  - split.
    + intros [= <- <-]. simpl. rewrite take_drop, length_take. split; [done|]. split; [lia|done].
    + destruct r' as [d' e']; simpl. intros (-> & <- & ->). by rewrite take_app_length, drop_app_length.
Qed.

Lemma read_exact_short k r :
  (length (rd_data r) < k)%nat →
  read_exact k r = (Err (default UnexpectedEof (rd_end r)), mkReader [] (rd_end r)).
Proof. intros H. unfold read_exact. by destruct (Nat.ltb_spec (length (rd_data r)) k); [|lia]. Qed.

Lemma write_all_Ok l out : write_all l (mkWriter out None) = (Ok tt, mkWriter (out ++ l) None).
Proof. done. Qed.

(** ** JSON, [serde_json] at the type [T] *)

Class Json (T : Type) := {
  json_to_vec : T → option bytes;
  json_from_slice : bytes → option T
}.

Class JsonLaws T `{Json T} := {
  json_roundtrip x l : json_to_vec x = Some l → json_from_slice l = Some x
}.
