(* ===== verification/Config.v ===== *)
(** Node configuration, the data of the local IPC protocol, and the staging area of
    uploads ([crates/fortiq-core/src/{lib,ipc,self_support}.rs]).

    Paths are Unix paths by components, the view [std::path] compares and edits them
    in.  The process environment and the files that exist are arguments.  libp2p's
    [PeerId] and [Multiaddr], TOML and SHA-256 are interfaces. *)

From S2P Require Import Prelude Text Object Ticket Stream.

(** ** Paths ([std::path] on Unix) *)

Inductive component := RootDir | CurDir | ParentDir | NormalPart (name : bytes).

#[export] Instance component_eq_dec : EqDecision component.
Proof. solve_decision. Defined.

Abbreviation PathBuf := (list component).

Definition is_sep (b : byte) : bool := Byte.to_N b =? 47.

Fixpoint split_sep (l cur : bytes) : list bytes :=
  match l with
  | [] => [cur]
  | b :: l => if is_sep b then cur :: split_sep l [] else split_sep l (cur ++ [b])
  end.

(** An empty part, or a dot that is not the first, is no component. *)
Definition part_component (p : bytes) : list component :=
  if bool_decide (p = []) then []
  else if bool_decide (p = as_bytes ".") then []
  else if bool_decide (p = as_bytes "..") then [ParentDir]
  else [NormalPart p].

Definition path_of_bytes (l : bytes) : PathBuf :=
  match l with
  | [] => []
  | b :: _ =>
      let parts := split_sep l [] in
      (if is_sep b then [RootDir]
       else if bool_decide (head parts = Some (as_bytes ".")) then [CurDir] else [])
      ++ concat (part_component <$> parts)
  end.

Definition path (s : string) : PathBuf := path_of_bytes (as_bytes s).

(** [PathBuf::push], [Path::join]. *)
Definition path_join (p q : PathBuf) : PathBuf :=
  match q with
  | RootDir :: _ => q
  | CurDir :: q' => match p with [] => q | _ => p ++ q' end
  | _ => p ++ q
  end.

Definition file_name (p : PathBuf) : option bytes :=
  match last p with Some (NormalPart n) => Some n | _ => None end.

Definition with_file_name (p : PathBuf) (name : string) : PathBuf :=
  match file_name p with
  | Some _ => path_join (take (pred (length p)) p) (path name)
  | None => path_join p (path name)
  end.

(** The part before the last dot, the whole name if that dot is its first byte. *)
Fixpoint before_last_dot (l : bytes) : option bytes :=
  match l with
  | [] => None
  | b :: l =>
      match before_last_dot l with
      | Some s => Some (b :: s)
      | None => if Byte.to_N b =? 46 then Some [] else None
      end
  end.

Definition file_stem (n : bytes) : bytes :=
  match before_last_dot n with
  | Some (b :: s) => b :: s
  | _ => n
  end.

Definition with_extension (p : PathBuf) (ext : string) : PathBuf :=
  match file_name p with
  | Some n => take (pred (length p)) p ++ [NormalPart (file_stem n ++ as_bytes "." ++ as_bytes ext)]
  | None => p
  end.

(** ** UTF-8 ([str::from_utf8], [OsStr::to_str]) *)

Definition between (lo hi : N) (b : byte) : bool := (lo <=? Byte.to_N b) && (Byte.to_N b <=? hi).
Definition is_cont (b : byte) : bool := between 0x80 0xbf b.

Fixpoint utf8_valid (l : bytes) : bool :=
  match l with
  | [] => true
  | b :: l1 =>
      if between 0 0x7f b then utf8_valid l1 else
      match l1 with
      | [] => false
      | c :: l2 =>
          if between 0xc2 0xdf b then is_cont c && utf8_valid l2 else
          match l2 with
          | [] => false
          | d :: l3 =>
              if (between 0xe0 0xe0 b && between 0xa0 0xbf c)
                 || (between 0xe1 0xec b && is_cont c)
                 || (between 0xed 0xed b && between 0x80 0x9f c)
                 || (between 0xee 0xef b && is_cont c)
              then is_cont d && utf8_valid l3 else
              match l3 with
              | [] => false
              | e :: l4 =>
                  ((between 0xf0 0xf0 b && between 0x90 0xbf c)
                   || (between 0xf1 0xf3 b && is_cont c)
                   || (between 0xf4 0xf4 b && between 0x80 0x8f c))
                  && is_cont d && is_cont e && utf8_valid l4
              end
          end
      end
  end.

Definition to_str (l : bytes) : option string := if utf8_valid l then Some (from_bytes l) else None.

(** The environment: [std::env::var_os], and [std::env::var], which wants Unicode. *)
Abbreviation environment := (string → option bytes).
Definition env_var (env : environment) (key : string) : option string := env key ≫= to_str.

(** ** libp2p's identifiers *)

Class Libp2p := {
  PeerId : Type;
  Multiaddr : Type;
  #[global] PeerId_eq_dec :: EqDecision PeerId;
  #[global] PeerId_countable :: Countable PeerId;
  #[global] Multiaddr_eq_dec :: EqDecision Multiaddr;
  parse_peer_id : string → option PeerId;
  peer_id_to_string : PeerId → string;
  peer_id_to_bytes : PeerId → bytes;
  parse_multiaddr : string → option Multiaddr;
  has_circuit : Multiaddr → bool;              (** some component is [/p2p-circuit] *)
  has_quic : Multiaddr → bool;                 (** some component is [/quic-v1] *)
  ends_with_peer : Multiaddr → bool;           (** the last component is a [/p2p/<id>] *)
  push_circuit : Multiaddr → Multiaddr;
  push_peer : PeerId → Multiaddr → Multiaddr
}.

Class Libp2pLaws `{Libp2p} := {
  parse_peer_id_to_string p : parse_peer_id (peer_id_to_string p) = Some p;
  ends_with_push_peer p a : ends_with_peer (push_peer p a) = true
}.

(** ** [lib.rs]: configuration *)

Record NodeConfig := mkNodeConfig { nc_name : string }.
Record IdentityConfig := mkIdentityConfig { ic_path : PathBuf }.

Definition default_listen_quic : string := "0.0.0.0:4001".
Definition default_true : bool := true.

Record NetworkConfig := mkNetworkConfig {
  listen_quic : string;
  relay_peer : option string;
  public_addr : option string;
  bootstrap_peer : option string
}.

Definition NetworkConfig_default : NetworkConfig :=
  mkNetworkConfig default_listen_quic None None None.

Record CapabilitiesConfig := mkCapabilitiesConfig {
  cc_rendezvous : bool;
  cc_relay : bool;
  cc_dcutr : bool;
  cc_relay_rate_limit : bool
}.

Definition CapabilitiesConfig_default : CapabilitiesConfig :=
  mkCapabilitiesConfig false false true true.

Record TicketConfig := mkTicketConfig { tc_path : option PathBuf }.
Record IpcConfig := mkIpcConfig {
  ipc_pipe : option string;
  ipc_terminal_pipe : option string;
  ipc_sock : option string;
  ipc_terminal_sock : option string
}.

Record Config := mkConfig {
  cfg_node : NodeConfig;
  cfg_identity : IdentityConfig;
  cfg_network : NetworkConfig;
  cfg_capabilities : CapabilitiesConfig;
  cfg_ticket : TicketConfig;
  cfg_ipc : IpcConfig
}.

Inductive ConfigError :=
| ReadConfig
| ParseConfig
| EmptyNodeName
| InvalidBootstrapPeer
| InvalidRelayPeer
| InvalidPublicAddr.

(** [toml::from_str] at [Config]. *)
Class Toml := { toml_from_str : string → option Config }.

Definition check_option {A} (o : option string) (parse : string → option A) (e : ConfigError)
    : result ConfigError unit :=
  match o with
  | Some s => let? _ := ok_or (parse s) e in Ok tt
  | None => Ok tt
  end.

Definition Config_validate `{Libp2p} (c : Config) : result ConfigError unit :=
  if bool_decide (trim (nc_name (cfg_node c)) = ""%string) then Err EmptyNodeName else
  let? _ := check_option (bootstrap_peer (cfg_network c)) parse_peer_id InvalidBootstrapPeer in
  let? _ := check_option (relay_peer (cfg_network c)) parse_multiaddr InvalidRelayPeer in
  check_option (public_addr (cfg_network c)) parse_multiaddr InvalidPublicAddr.

(** [contents] is what [read_to_string] gives at the path. *)
Definition Config_load `{Libp2p, Toml} (contents : option string) : result ConfigError Config :=
  let? contents := ok_or contents ReadConfig in
  let? config := ok_or (toml_from_str contents) ParseConfig in
  let? _ := Config_validate config in
  Ok config.

Definition ticket_path (c : Config) : PathBuf :=
  default (with_file_name (ic_path (cfg_identity c)) "ticket-store") (tc_path (cfg_ticket c)).

Definition genesis_path (c : Config) : PathBuf :=
  with_extension (ic_path (cfg_identity c)) "genesis.cbor".

(** ** [ipc.rs]: endpoints *)

Definition DEFAULT_UNIX_SOCKET_PATH : string := "/run/fortiq.sock".
Definition DEFAULT_UNIX_TERMINAL_SOCKET_PATH : string := "/run/fortiq-terminal.sock".

Definition unix_socket_path (env : environment) : string :=
  default DEFAULT_UNIX_SOCKET_PATH (env_var env "FORTIQ_SOCK").

Definition unix_terminal_socket_path (env : environment) : string :=
  default DEFAULT_UNIX_TERMINAL_SOCKET_PATH (env_var env "FORTIQ_TERMINAL_SOCK").

Definition ipc_endpoint (env : environment) (c : Config) : string :=
  default (unix_socket_path env) (ipc_sock (cfg_ipc c)).

Definition terminal_ipc_endpoint (env : environment) (c : Config) : string :=
  default (unix_terminal_socket_path env) (ipc_terminal_sock (cfg_ipc c)).

(** The Unix branch of [resolve_default_path]. *)
Definition resolve_default_path (env : environment) (exists_ : PathBuf → bool) : PathBuf :=
  let local_path := path "fortiq.toml" in
  let system_path := path "/etc/fortiq/fortiq.toml" in
  let found := if exists_ local_path then local_path
               else if exists_ system_path then system_path else local_path in
  match env_var env "FORTIQ_CONFIG" with
  | Some env_path => if bool_decide (trim env_path = ""%string) then found else path env_path
  | None => found
  end.

Definition system_service_default_path : PathBuf := path "/etc/fortiq/fortiq.toml".

(** ** [lib.rs]: node information *)

Record TicketSummary := mkTicketSummary { ts_id : string; ts_state : TicketState }.

Record NodeInfo := mkNodeInfo {
  ni_peer_id : string;
  ni_name : string;
  ni_os : string;
  ni_arch : string;
  ni_version : string;
  ni_relay : bool;
  ni_rendezvous : bool
}.

(** [os], [arch] and [version] are constants of the build. *)
Definition NodeInfo_local `{Libp2p} (os arch version : string) (peer_id : PeerId) (name : string)
    : NodeInfo :=
  mkNodeInfo (peer_id_to_string peer_id) name os arch version false false.

(** ** [self_support.rs] *)

Record ThisDevice := mkThisDevice { td_entity_id : EntityId }.
Record LocalDiagnostics := mkLocalDiagnostics { is_loopback_active : bool }.
Record SelfSupportEngine := mkSelfSupportEngine { this_device : ThisDevice }.
Definition collect_diagnostics (e : SelfSupportEngine) (ticket : option TicketRecord)
  : LocalDiagnostics := mkLocalDiagnostics true.

(** ** [ipc.rs]: requests and responses *)

Record TerminalSessionInit := mkTerminalSessionInit {
  tsi_peer : string;
  tsi_ticket_id : option string;
  tsi_cols : N;
  tsi_rows : N;
  tsi_dial : option string
}.

Definition default_terminal_cols : N := 80.
Definition default_terminal_rows : N := 24.

Inductive IpcRequest :=
| GetStatus
| ListPeers
| ListTickets (state_filter : option TicketState)
| GetTicket (ticket_id : string)
| CreateTicket (title description : string) (priority : TicketPriority)
| UpdateTicketStatus (ticket_id : string) (state : TicketState)
| SendChatMessage (ticket_id body : string)
| ListMessages (ticket_id : string)
| SendFile (ticket_id staged_path : string)
| ListAttachments (ticket_id : string)
| ListShellSessions (ticket_id : string)
| UnlockOperator (mnemonic : string)
| LockOperator
| GetOperatorStatus.

Record OperatorSessionStatus := mkOperatorStatus {
  is_unlocked : bool;
  os_owner_id : option string;
  os_expires_at : option N;
  os_capabilities : list string
}.

Record DaemonStatus := mkDaemonStatus {
  ds_product : string;
  ds_version : string;
  ds_peer_id : string;
  ds_agent_state : string;
  ds_active_ticket : option TicketSummary;
  ds_listen_addresses : list string;
  is_operator_unlocked : bool
}.

Record PeerSummary := mkPeerSummary {
  ps_peer_id : string;
  ps_hostname : string;
  ps_os : string;
  ps_transport : string;
  ps_status : string;
  ps_relay : bool;
  ps_rendezvous : bool
}.

Inductive IpcResponse :=
| RStatus (s : DaemonStatus)
| RPeers (l : list PeerSummary)
| RTickets (l : list TicketRecord)
| RTicketDetail (d : option TicketDetail)
| RTicketCreated (t : TicketRecord)
| RTicketUpdated (t : option TicketRecord)
| RMessages (l : list ChatMessage)
| RMessageSent (m : ChatMessage)
| RAttachments (l : list AttachmentRecord)
| RFileSent (a : AttachmentRecord)
| RShellSessions (l : list ShellSessionRecord)
| ROperatorStatus (s : OperatorSessionStatus)
| RSuccess
| RError (message : string).

(** ** [ipc.rs]: staging uploads *)

(** [sha2::Sha256], and its digest formatted with [{:x}]. *)
Class Sha256 := {
  sha256 : bytes → vec byte 32;
  sha256_hex : bytes → string
}.

Definition is_hex_lower (b : byte) : bool := between 48 57 b || between 97 102 b.

Class Sha256Laws `{Sha256} := {
  sha256_hex_digits l : Forall (λ b, is_hex_lower b = true) (as_bytes (sha256_hex l));
  sha256_hex_length l : length (as_bytes (sha256_hex l)) = 64%nat
}.

(** [std::env::temp_dir] on Unix. *)
Definition temp_dir (env : environment) : PathBuf :=
  match env "TMPDIR"%string with Some p => path_of_bytes p | None => path "/tmp" end.

Definition upload_spool_dir (env : environment) : PathBuf :=
  match env "FORTIQ_UPLOAD_SPOOL"%string with
  | Some p => path_of_bytes p
  | None => path_join (temp_dir env) (path "fortiq-upload-spool")
  end.

Definition is_reserved (b : byte) : bool :=
  bool_decide (Byte.to_N b ∈ [47; 92; 58; 42; 63; 34; 60; 62; 124]).

(** [name.replace(['/', '\\', ':', '*', '?', quote, '<', '>', '|'], "_")]. *)
Definition sanitize_name (name : bytes) : bytes :=
  (λ b, if is_reserved b then byte_of_N 95 else b) <$> name.

(** What the calls to the file system answer, and the calls made. *)
Record staging_io := mkStagingIo { io_create_root : bool; io_create_user : bool; io_set_mode : bool }.
Inductive staging_op := CreateDirAll (p : PathBuf) | SetPermissions (p : PathBuf) (mode : N).

Definition staging_call (ok : bool) (op : staging_op) : StateM (list staging_op) io_kind unit :=
  λ ops, (if ok then Ok tt else Err OtherIo, ops ++ [op]).

Definition staging_user (env : environment) : string :=
  default (default "unknown-user"%string (env_var env "USER")) (env_var env "USERNAME").

Definition staging_name (source : PathBuf) : bytes :=
  sanitize_name (as_bytes (default "attachment.bin"%string (file_name source ≫= to_str))).

Definition new_upload_staging_path `{Sha256} (env : environment) (io : staging_io) (uuid : string)
    (source : PathBuf) : StateM (list staging_op) io_kind PathBuf :=
  let root := upload_spool_dir env in
  let! _ := staging_call (io_create_root io) (CreateDirAll root) in
  let user_key := sha256_hex (as_bytes (staging_user env)) in
  let user_root := path_join root (path user_key) in
  let! _ := staging_call (io_create_user io) (CreateDirAll user_root) in
  let! _ := staging_call (io_set_mode io) (SetPermissions user_root 448) in
  sret (path_join user_root (path_of_bytes (as_bytes uuid ++ as_bytes "_" ++ staging_name source))).

(** ** Facts about paths *)

Lemma split_sep_none l : ∀ cur, Forall (λ b, is_sep b = false) l → split_sep l cur = [cur ++ l].
Proof.
  induction l as [|b l IH]; intros cur Hl; simpl; [by rewrite app_nil_r|].
  apply Forall_cons in Hl as [-> Hl]. rewrite IH by done. by rewrite <- app_assoc.
Qed.

(** A name without separators that is not a dot or two is one component. *)
Lemma path_of_name l :
  Forall (λ b, is_sep b = false) l → (2 < length l)%nat → path_of_bytes l = [NormalPart l].
Proof.
  intros Hl Hlen. destruct l as [|b l]; [simpl in Hlen; lia|].
  unfold path_of_bytes. rewrite split_sep_none by done. apply Forall_cons in Hl as [-> _]. simpl head.
  assert (∀ s : bytes, (length s ≤ 2)%nat → (b :: l) ≠ s) as Hne
    by (intros s Hs <-; simpl in Hs, Hlen; lia).
  rewrite bool_decide_eq_false_2 by (intros [= _ ->]; simpl in Hlen; lia).
  unfold part_component. cbn [app fmap list_fmap concat].
  rewrite !bool_decide_eq_false_2 by (apply Hne; simpl; lia). done.
Qed.

Lemma is_hex_lower_not_sep b : is_hex_lower b = true → is_sep b = false.
Proof. unfold is_hex_lower, between, is_sep. intros H. apply N.eqb_neq. lia. Qed.

Lemma sanitize_name_clean n : Forall (λ b, is_reserved b = false) (sanitize_name n).
Proof.
  unfold sanitize_name. apply Forall_fmap, Forall_forall. intros b _. simpl.
  by destruct (is_reserved b) eqn:E.
Qed.

Lemma is_reserved_sep b : is_reserved b = false → is_sep b = false.
Proof.
  unfold is_reserved, is_sep. intros H%bool_decide_eq_false. apply N.eqb_neq. intros E. apply H. rewrite E. left.
Qed.

Lemma before_last_dot_spec l :
  match before_last_dot l with
  | Some s => ∃ e, l = s ++ as_bytes "." ++ e ∧ Forall (λ b, Byte.to_N b ≠ 46) e
  | None => Forall (λ b, Byte.to_N b ≠ 46) l
  end.
Proof.
  induction l as [|b l IH]; simpl; [done|].
  destruct (before_last_dot l) as [s|].
  - destruct IH as (e & -> & He). exists e. done.
  - destruct (N.eqb_spec (Byte.to_N b) 46) as [E|E]; [|by constructor].
    exists l. split; [|done]. simpl. f_equal. by apply to_N_inj.
Qed.

(** Replacing the extension by one that holds a dot changes the name. *)
Lemma file_stem_ext n : file_stem n ++ as_bytes "." ++ as_bytes "genesis.cbor" ≠ n.
Proof.
  unfold file_stem. pose proof (before_last_dot_spec n) as H.
  destruct (before_last_dot n) as [[|b s]|].
  - intros E. apply (f_equal length) in E. rewrite !length_app in E. simpl in E. lia.
  - destruct H as (e & -> & He). intros E. apply app_inv_head, app_inv_head in E. subst e.
    rewrite Forall_forall in He. apply (He x2e); [|done].
    apply (list_elem_of_lookup_2 _ 7). reflexivity.
  - intros E. apply (f_equal length) in E. rewrite !length_app in E. simpl in E. lia.
Qed.

Lemma last_take_pred (p : PathBuf) c :
  last p = Some c → p = take (pred (length p)) p ++ [c].
Proof.
  intros H. apply last_Some in H as [q ->]. rewrite length_app. simpl.
  rewrite Nat.add_comm. simpl. by rewrite take_app_length.
Qed.

Lemma check_option_Ok {A} (o : option string) (parse : string → option A) e :
  check_option o parse e = Ok tt ↔ ∀ s, o = Some s → is_Some (parse s).
Proof.
  unfold check_option. destruct o as [s|]; simpl; [|naive_solver].
  destruct (parse s) as [x|] eqn:E; simpl; split; try done.
  - intros _ s' [= <-]. rewrite E. eauto.
  - intros H. destruct (H s eq_refl) as [x Hx]. congruence.
Qed.

Lemma config_load_Ok `{Libp2p, Toml} (contents : option string) (c : Config) :
  Config_load contents = Ok c ↔
    ∃ text, contents = Some text ∧ toml_from_str text = Some c ∧
      trim (nc_name (cfg_node c)) ≠ ""%string ∧
      (∀ p, bootstrap_peer (cfg_network c) = Some p → is_Some (parse_peer_id p)) ∧
      (∀ a, relay_peer (cfg_network c) = Some a → is_Some (parse_multiaddr a)) ∧
      (∀ a, public_addr (cfg_network c) = Some a → is_Some (parse_multiaddr a)).
Proof.
  unfold Config_load, Config_validate. destruct contents as [text|]; simpl; [|naive_solver].
  destruct (toml_from_str text) as [c'|] eqn:Ht; simpl; [|naive_solver].
  split.
  - case_bool_decide as Hname; [done|].
    destruct (check_option _ parse_peer_id _) as [[]|] eqn:E1; [|done].
    destruct (check_option _ parse_multiaddr InvalidRelayPeer) as [[]|] eqn:E2; [|done].
    destruct (check_option _ parse_multiaddr InvalidPublicAddr) as [[]|] eqn:E3; [|done].
    pose proof (proj1 (check_option_Ok _ _ _) E1). pose proof (proj1 (check_option_Ok _ _ _) E2).
    pose proof (proj1 (check_option_Ok _ _ _) E3). intros [= <-]. by exists text.
  - intros (t & [= <-] & Hc & Hname & H1 & H2 & H3). assert (c' = c) as -> by congruence.
    rewrite bool_decide_eq_false_2 by done.
    rewrite (proj2 (check_option_Ok _ _ _) H1), (proj2 (check_option_Ok _ _ _) H2).
    by rewrite (proj2 (check_option_Ok _ _ _) H3).
Qed.

(** ** Properties *)

(** A configuration is loaded exactly when the file is read, its TOML parses, the
    node's name is not blank, and every bootstrap peer, relay and public address it
    names parses; the loaded value is the parsed one.  The genesis file derived from
    the identity path is never the identity file nor the default ticket store, so
    writing it cannot overwrite the node's key. *)
Theorem config_load_correct `{Libp2p, Toml} (contents : option string) (c : Config) :
  (Config_load contents = Ok c ↔
     ∃ text, contents = Some text ∧ toml_from_str text = Some c ∧
       trim (nc_name (cfg_node c)) ≠ ""%string ∧
       (∀ p, bootstrap_peer (cfg_network c) = Some p → is_Some (parse_peer_id p)) ∧
       (∀ a, relay_peer (cfg_network c) = Some a → is_Some (parse_multiaddr a)) ∧
       (∀ a, public_addr (cfg_network c) = Some a → is_Some (parse_multiaddr a))) ∧
  (is_Some (file_name (ic_path (cfg_identity c))) →
     genesis_path c ≠ ic_path (cfg_identity c) ∧
     genesis_path c ≠ with_file_name (ic_path (cfg_identity c)) "ticket-store").
Proof.
  split; [by apply config_load_Ok|]. intros [n Hn]. unfold genesis_path, with_extension, with_file_name.
  rewrite Hn. unfold file_name in Hn. destruct (last (ic_path (cfg_identity c))) as [[| | |m]|] eqn:Hl; simplify_eq.
  apply last_take_pred in Hl. split; intros E.
  - pose proof (eq_trans E Hl) as E'. apply app_inv_head in E'. injection E' as E'. by apply file_stem_ext in E'.
  - apply app_inv_head in E. injection E as E.
    assert (x2e ∈ file_stem n ++ as_bytes "." ++ as_bytes "genesis.cbor") as Hdot
      by (apply elem_of_app; right; left).
    simpl in Hdot, E. rewrite E in Hdot. repeat (apply elem_of_cons in Hdot as [Hdot|Hdot]; [discriminate|]).
    by apply elem_of_nil in Hdot.
Qed.

(** Staging an upload: the calls to the file system happen in order and the first
    that fails ends it; otherwise the path is a new file directly inside the user's
    own directory of the spool, which was first made private to the user: whatever
    the source's name, it adds exactly one component, free of separators and of the
    characters Windows reserves, and never [..]. *)
Theorem staging_path_confined `{Sha256} (SL : Sha256Laws) (env : environment) (io : staging_io)
    (uuid : string) (source : PathBuf)
    (Hu : Forall (λ b, is_hex_lower b = true) (as_bytes uuid)) (Hlen : length (as_bytes uuid) = 32%nat) :
  let root := upload_spool_dir env in
  let user_root := root ++ [NormalPart (as_bytes (sha256_hex (as_bytes (staging_user env))))] in
  let calls := [CreateDirAll root; CreateDirAll user_root; SetPermissions user_root 448] in
  ∃ f, file_name (user_root ++ [NormalPart f]) = Some f ∧ Forall (λ b, is_reserved b = false) f ∧
    take 32 f = as_bytes uuid ∧
    new_upload_staging_path env io uuid source [] =
      if negb (io_create_root io) then (Err OtherIo, take 1 calls)
      else if negb (io_create_user io) then (Err OtherIo, take 2 calls)
      else if negb (io_set_mode io) then (Err OtherIo, calls)
      else (Ok (user_root ++ [NormalPart f]), calls).
Proof.
  intros root user_root calls. set (f := as_bytes uuid ++ as_bytes "_" ++ staging_name source).
  assert (∀ l, Forall (λ b, is_hex_lower b = true) l → Forall (λ b, is_reserved b = false) l) as Hhex.
  { intros l Hl. eapply Forall_impl; [exact Hl|]. intros b Hb. unfold is_reserved. apply bool_decide_eq_false_2.
    unfold is_hex_lower, between in Hb.
    intros Hin. rewrite !elem_of_cons, elem_of_nil in Hin. lia. }
  assert (Forall (λ b, is_reserved b = false) f) as Hf.
  { unfold f. apply Forall_app; split; [by apply Hhex|]. constructor; [done|]. apply sanitize_name_clean. }
  assert (∀ l, Forall (λ b, is_reserved b = false) l → Forall (λ b, is_sep b = false) l) as Hsep
    by (intros l Hl; eapply Forall_impl; [exact Hl|]; apply is_reserved_sep).
  assert (path_of_bytes f = [NormalPart f]) as Ef.
  { apply path_of_name; [by apply Hsep|]. unfold f. rewrite !length_app. simpl. lia. }
  assert (path (sha256_hex (as_bytes (staging_user env)))
    = [NormalPart (as_bytes (sha256_hex (as_bytes (staging_user env))))]) as Ek.
  { apply path_of_name; [apply Hsep, Hhex, sha256_hex_digits|]. rewrite sha256_hex_length. lia. }
  exists f. split; [unfold file_name; by rewrite last_snoc|]. split; [done|].
  split; [unfold f; by rewrite <- Hlen, take_app_length|].
  unfold new_upload_staging_path, staging_call, sbind. fold f root. rewrite Ek, Ef. simpl path_join.
  destruct (io_create_root io), (io_create_user io), (io_set_mode io); done.
Qed.

(** ** Concrete interfaces and witnesses *)

(** Identifiers that are their own text, none of them empty. *)
Definition toy_libp2p : Libp2p := {|
  PeerId := string;
  Multiaddr := string;
  PeerId_eq_dec := _;
  PeerId_countable := _;
  Multiaddr_eq_dec := _;
  parse_peer_id s := Some s;
  peer_id_to_string s := s;
  peer_id_to_bytes s := as_bytes s;
  parse_multiaddr s := if bool_decide (s = ""%string) then None else Some s;
  has_circuit s := existsb (λ b, Byte.to_N b =? 99) (as_bytes s);
  has_quic s := existsb (λ b, Byte.to_N b =? 113) (as_bytes s);
  ends_with_peer s := match last (as_bytes s) with Some x70 => true | _ => false end;
  push_circuit s := from_bytes (as_bytes s ++ [x63]);
  push_peer p s := from_bytes (as_bytes s ++ as_bytes p ++ [x70])
|}.

Lemma toy_libp2p_laws : @Libp2pLaws toy_libp2p.
Proof. split; [done|]. intros p a. simpl. by rewrite as_from_bytes, app_assoc, last_snoc. Qed.

Definition toy_sha256 : Sha256 := {|
  sha256 _ := vreplicate 32 x00;
  sha256_hex _ := from_bytes (replicate 64 x61)
|}.

Lemma toy_sha256_laws : @Sha256Laws toy_sha256.
Proof. split; intros l; [|reflexivity]. repeat constructor. Qed.

Definition sample_config : Config :=
  mkConfig (mkNodeConfig "node") (mkIdentityConfig (path "/var/lib/fortiq/node.key"))
    (mkNetworkConfig default_listen_quic (Some "/ip4/10.0.0.1"%string) None None)
    CapabilitiesConfig_default (mkTicketConfig None) (mkIpcConfig None None None None).

Definition toy_toml : Toml := {| toml_from_str _ := Some sample_config |}.

Lemma config_load_correct_witness :
  @Config_load toy_libp2p toy_toml (Some ""%string) = Ok sample_config ∧
  genesis_path sample_config ≠ ic_path (cfg_identity sample_config).
Proof.
  destruct (@config_load_correct toy_libp2p toy_toml (Some ""%string) sample_config) as [H1 H2].
  split.
  - apply H1. exists ""%string. split; [reflexivity|]. split; [reflexivity|]. split; [discriminate|].
    split; [discriminate|]. split; [|discriminate]. intros a [= <-]. by eexists.
  - apply H2. by eexists.
Defined.

Lemma staging_path_confined_witness :
  ∃ f, Forall (λ b, is_reserved b = false) f ∧
    @new_upload_staging_path toy_sha256 (λ _, None) (mkStagingIo true true true)
      "0123456789abcdef0123456789abcdef" (path "/home/a/../b:c") [] =
    (Ok (path "/tmp/fortiq-upload-spool" ++ [NormalPart (replicate 64 x61); NormalPart f]),
     [CreateDirAll (path "/tmp/fortiq-upload-spool");
      CreateDirAll (path "/tmp/fortiq-upload-spool" ++ [NormalPart (replicate 64 x61)]);
      SetPermissions (path "/tmp/fortiq-upload-spool" ++ [NormalPart (replicate 64 x61)]) 448]).
Proof.
  destruct (@staging_path_confined toy_sha256 toy_sha256_laws (λ _, None) (mkStagingIo true true true)
    "0123456789abcdef0123456789abcdef" (path "/home/a/../b:c")) as (f & _ & Hf & _ & E).
  - repeat constructor.
  - reflexivity.
  - exists f. split; [exact Hf|exact E].
Defined.
