(* ===== verification/Shell.v ===== *)
(** The remote shell ([crates/fortiq-shell/src/lib.rs]): denial codes, the handshakes
    and the payload an operator signs, the frames on the stream, the choice of the
    shell, the serving side of a session and the library's client.

    The streams are those of Stream.v; serde_json at the two handshakes is an
    interface.  The Windows branches are modelled where they are pure. *)

From S2P Require Import Prelude Text Object Concrete Authority Stream Config.

(** ** Authorization codes *)

Definition AUTHORIZED : N := 1.
Definition DENIED : N := 0.
Definition DENIED_NO_TICKET : N := 2.
Definition DENIED_BUSY : N := 3.
Definition DENIED_TICKET_CLOSED : N := 4.
Definition DENIED_REMOTE_ACCESS_DISABLED : N := 5.
Definition DENIED_INVALID_AUTHORITY : N := 6.
Definition DENIED_EPOCH_MISMATCH : N := 7.
Definition SHELL_NEXT_SIGNATURE_DOMAIN : bytes := as_bytes "FORTIQ-SHELL-v3:".

(** In milliseconds. *)
Definition KEEPALIVE_INTERVAL : N := 15000.
Definition LIVENESS_TIMEOUT : N := 60000.

Definition describe_denial (code : N) : string :=
  match code with
  | 2 => "no open ticket on the remote host: its user has not opened one"
  | 3 => "another shell session is already active on the remote host"
  | 4 => "the ticket for this session is closed"
  | 5 => "remote access for this ticket is currently disabled by the client"
  | 6 => "the operator session certificate or challenge signature is invalid"
  | 7 => "the ticket access epoch is stale or revoked"
  | _ => "the remote host refused the terminal"
  end%string.

Definition send_authorization_code (code : N) : StateM writer io_kind unit :=
  let! _ := write_all [byte_of_N code] in flush.

Definition send_authorization (allowed : bool) : StateM writer io_kind unit :=
  send_authorization_code (if allowed then AUTHORIZED else DENIED).

(** ** Handshakes *)

Record ShellNextHandshake := mkShellNext {
  sn_network_id : NetworkId;
  sn_ticket_id : string;
  sn_operator_transport_peer_id : string;
  sn_session_certificate : OperatorSessionCertificate;
  sn_challenge_signature : bytes
}.

Record ShellHandshake := mkShellHandshake { sh_ticket_id : string }.

Inductive HandshakeError :=
| HsJson
| HsTooLarge
| HsLimit
| HsIo (e : io_kind).

(** Lengths are cast with [as u32]: four bytes keep the low 32 bits. *)
Definition signing_payload (network_id : NetworkId) (ticket_id operator_transport_peer_id : string)
    (challenge : vec byte 32) : bytes :=
  SHELL_NEXT_SIGNATURE_DOMAIN ++ ObjectId_as_bytes network_id ++
  be_bytes 4 (str_len ticket_id) ++ as_bytes ticket_id ++
  be_bytes 4 (str_len operator_transport_peer_id) ++ as_bytes operator_transport_peer_id ++
  vec_to_list challenge.

Definition ShellNextHandshake_signed (network_id : NetworkId)
    (ticket_id operator_transport_peer_id : string)
    (session_certificate : OperatorSessionCertificate) (challenge : vec byte 32) (signer : Signer)
    : result SigningError ShellNextHandshake :=
  let payload := signing_payload network_id ticket_id operator_transport_peer_id challenge in
  let? challenge_signature := signer_sign signer payload in
  Ok (mkShellNext network_id ticket_id operator_transport_peer_id session_certificate
        challenge_signature).

Definition ShellNextHandshake_write_to_async `{Json ShellNextHandshake} (h : ShellNextHandshake)
    : StateM writer HandshakeError unit :=
  let! json := slift (ok_or (json_to_vec h) HsJson) in
  let! len := slift (if blen json <? u16_modulus then Ok (blen json) else Err HsTooLarge) in
  let! _ := smap_err HsIo (write_all (be_bytes 2 len)) in
  let! _ := smap_err HsIo (write_all json) in
  smap_err HsIo flush.

Definition ShellNextHandshake_read_from_async `{Json ShellNextHandshake}
    : StateM reader HandshakeError ShellNextHandshake :=
  let! len_bytes := smap_err HsIo (read_exact 2) in
  let len := be_val len_bytes in
  let! _ := slift (if 16 * 1024 <? len then Err HsLimit else Ok tt) in
  let! buf := smap_err HsIo (read_exact (N.to_nat len)) in
  slift (ok_or (json_from_slice buf) HsJson).

Definition ShellHandshake_new (ticket_id : string) : ShellHandshake := mkShellHandshake ticket_id.

(** [write_to_async] and [write_to_tokio] have one body, as do the two readers. *)
Definition ShellHandshake_write `{Json ShellHandshake} (h : ShellHandshake)
    : StateM writer HandshakeError unit :=
  let! json := slift (ok_or (json_to_vec h) HsJson) in
  let! len := slift (if blen json <? u16_modulus then Ok (blen json) else Err HsTooLarge) in
  let! _ := smap_err HsIo (write_all (be_bytes 2 len)) in
  let! _ := smap_err HsIo (write_all json) in
  smap_err HsIo flush.

Definition ShellHandshake_read `{Json ShellHandshake} : StateM reader HandshakeError ShellHandshake :=
  let! len_bytes := smap_err HsIo (read_exact 2) in
  let len := be_val len_bytes in
  let! buf := smap_err HsIo (read_exact (N.to_nat len)) in
  slift (ok_or (json_from_slice buf) HsJson).

(** ** Frames *)

Inductive ShellFrame :=
| Data (payload : bytes)
| Resize (cols rows : N)
| Ping
| Pong.

#[export] Instance ShellFrame_eq_dec : EqDecision ShellFrame.
Proof. solve_decision. Defined.

Definition TAG_DATA : N := 0x00.
Definition TAG_RESIZE : N := 0x01.
Definition TAG_PING : N := 0x02.
Definition TAG_PONG : N := 0x03.

(** A stream that ends within the three header bytes reads as closed. *)
Definition ShellFrame_read_from : StateM reader io_kind (option ShellFrame) := λ r,
  match read_exact 3 r with
  | (Err UnexpectedEof, r) => (Ok None, r)
  | (Err e, r) => (Err e, r)
  | (Ok header, r) =>
      let tag := Byte.to_N (default x00 (header !! 0%nat)) in
      let len := be_val (drop 1 header) in
      (if tag =? TAG_DATA then
         let! buf := read_exact (N.to_nat len) in sret (Some (Data buf))
       else if tag =? TAG_RESIZE then
         if negb (len =? 4) then sfail InvalidData else
         let! dims := read_exact 4 in
         sret (Some (Resize (be_val (take 2 dims)) (be_val (drop 2 dims))))
       else if tag =? TAG_PING then sret (Some Ping)
       else if tag =? TAG_PONG then sret (Some Pong)
       else sfail InvalidData) r
  end.

Definition ShellFrame_write_to (f : ShellFrame) : StateM writer io_kind unit :=
  match f with
  | Data payload =>
      let! len := slift (if blen payload <? u16_modulus then Ok (blen payload) else Err InvalidInput) in
      let! _ := write_all (byte_of_N TAG_DATA :: be_bytes 2 len) in
      let! _ := write_all payload in
      flush
  | Resize cols rows =>
      let! _ := write_all ([byte_of_N TAG_RESIZE; x00; x04] ++ be_bytes 2 cols ++ be_bytes 2 rows) in
      flush
  | Ping =>
      let! _ := write_all [byte_of_N TAG_PING; x00; x00] in
      flush
  | Pong =>
      let! _ := write_all [byte_of_N TAG_PONG; x00; x00] in
      flush
  end.

(** ** The shell *)

Inductive ShellKind := Pwsh | PowerShell | Cmd | Bash | Sh.

Definition ShellKind_name (k : ShellKind) : string :=
  match k with
  | Pwsh => "PowerShell (pwsh)"
  | PowerShell => "Windows PowerShell"
  | Cmd => "cmd"
  | Bash => "bash"
  | Sh => "sh"
  end%string.

(** [None] is [unreachable!]. *)
Definition ShellKind_path (k : ShellKind) : option string :=
  match k with
  | Bash => Some "/bin/bash"%string
  | Sh => Some "/bin/sh"%string
  | Pwsh | PowerShell | Cmd => None
  end.

Definition ShellKind_program (k : ShellKind) : option string :=
  match k with
  | Pwsh => Some "pwsh.exe"%string
  | PowerShell => Some "powershell.exe"%string
  | Cmd => Some "cmd.exe"%string
  | Bash | Sh => None
  end.

Definition ShellKind_arguments (k : ShellKind) : option (list string) :=
  match k with
  | Pwsh | PowerShell => Some ["-NoLogo"; "-NoProfile"]%string
  | Cmd => Some ["/Q"]%string
  | Bash | Sh => None
  end.

Definition detect_linux_shell (is_file : string → bool) : option ShellKind :=
  if is_file "/bin/bash"%string then Some Bash
  else if is_file "/bin/sh"%string then Some Sh
  else None.

Definition detect_windows_shell_with (exists_ : string → bool) : option ShellKind :=
  snd <$> head (filter (λ pk : string * ShellKind, exists_ pk.1 = true)
    [("pwsh.exe"%string, Pwsh); ("powershell.exe"%string, PowerShell); ("cmd.exe"%string, Cmd)]).

(** ** Frames on the wire *)

Definition frame_ok (f : ShellFrame) : Prop :=
  match f with
  | Data payload => blen payload < u16_modulus
  | Resize cols rows => cols < u16_modulus ∧ rows < u16_modulus
  | Ping | Pong => True
  end.

Definition frame_bytes (f : ShellFrame) : bytes :=
  match f with
  | Data payload => [byte_of_N TAG_DATA] ++ be_bytes 2 (blen payload) ++ payload
  | Resize cols rows => [byte_of_N TAG_RESIZE; x00; x04] ++ be_bytes 2 cols ++ be_bytes 2 rows
  | Ping => [byte_of_N TAG_PING; x00; x00]
  | Pong => [byte_of_N TAG_PONG; x00; x00]
  end.

Lemma write_frame_Ok f out :
  frame_ok f → ShellFrame_write_to f (mkWriter out None) = (Ok tt, mkWriter (out ++ frame_bytes f) None).
Proof.
  destruct f as [l|c r| |]; simpl; intros Hf; [|done..].
  apply N.ltb_lt in Hf as ->. unfold sbind, slift. simpl. by rewrite <- app_assoc.
Qed.

Lemma write_frame_oversized l w :
  u16_modulus ≤ blen l → ShellFrame_write_to (Data l) w = (Err InvalidInput, w).
Proof. intros H. apply N.ltb_ge in H. simpl. by rewrite H. Qed.

Lemma be2_val n : n < u16_modulus → be_val (be_bytes 2 n) = n.
Proof. intros H. by apply be_val_bytes. Qed.

Lemma be2_bytes a b : be_bytes 2 (be_val [a; b]) = [a; b].
Proof. apply (be_bytes_val [a; b]). Qed.

Lemma be2_val_app n l : n < u16_modulus → be_val (take 2 (be_bytes 2 n ++ l)) = n.
Proof. intros H. rewrite take_app_length' by (by rewrite length_be_bytes). by apply be2_val. Qed.

(** What follows a header read whole. *)
Lemma read_frame_header t h l e :
  length h = 2%nat →
  ShellFrame_read_from (mkReader ((t :: h) ++ l) e) =
    let tag := Byte.to_N t in
    let len := be_val h in
    (if tag =? TAG_DATA then
       let! buf := read_exact (N.to_nat len) in sret (Some (Data buf))
     else if tag =? TAG_RESIZE then
       if negb (len =? 4) then sfail InvalidData else
       let! dims := read_exact 4 in
       sret (Some (Resize (be_val (take 2 dims)) (be_val (drop 2 dims))))
     else if tag =? TAG_PING then sret (Some Ping)
     else if tag =? TAG_PONG then sret (Some Pong)
     else sfail InvalidData) (mkReader l e).
Proof. intros H. unfold ShellFrame_read_from. rewrite read_exact_app by (simpl; lia). done. Qed.

Lemma read_frame_bytes f l e :
  frame_ok f → ShellFrame_read_from (mkReader (frame_bytes f ++ l) e) = (Ok (Some f), mkReader l e).
Proof.
  destruct f as [d|c r| |]; intros Hf.
  - cbn [frame_bytes]. rewrite (app_assoc [_]), <- app_assoc. simpl ([_] ++ _).
    rewrite read_frame_header by done. cbn beta zeta.
    change (Byte.to_N (byte_of_N TAG_DATA) =? TAG_DATA) with true. cbv iota.
    rewrite (be2_val _ Hf). unfold sbind. rewrite read_exact_app by (unfold blen; lia). done.
  - cbn [frame_bytes]. destruct Hf as [Hc Hr].
    rewrite <- app_assoc, read_frame_header by done. cbn beta zeta.
    change (be_val [x00; x04] =? 4) with true.
    change (Byte.to_N (byte_of_N TAG_RESIZE) =? TAG_DATA) with false.
    change (Byte.to_N (byte_of_N TAG_RESIZE) =? TAG_RESIZE) with true. cbv iota. cbn [negb]. cbv iota.
    unfold sbind. rewrite read_exact_app by (by rewrite length_app, !length_be_bytes).
    rewrite (be2_val_app c _ Hc), drop_app_length' by done. by rewrite (be2_val _ Hr).
  - done.
  - done.
Qed.

(** [while let Ok(Some(frame)) = read_from(…)]: the frames read until the stream ends
    or fails.  Each takes three bytes at least, so the length is enough fuel. *)
Fixpoint read_frames (fuel : nat) (r : reader) : list ShellFrame :=
  match fuel with
  | O => []
  | S fuel =>
      match ShellFrame_read_from r with
      | (Ok (Some f), r) => f :: read_frames fuel r
      | _ => []
      end
  end.

Definition frames_of (r : reader) : list ShellFrame := read_frames (S (length (rd_data r))) r.

Fixpoint write_frames (fs : list ShellFrame) : StateM writer io_kind unit :=
  match fs with
  | [] => sret tt
  | f :: fs => let! _ := ShellFrame_write_to f in write_frames fs
  end.

Lemma write_frames_Ok fs : ∀ out,
  Forall frame_ok fs →
  write_frames fs (mkWriter out None) = (Ok tt, mkWriter (out ++ concat (frame_bytes <$> fs)) None).
Proof.
  induction fs as [|f fs IH]; intros out Hf; simpl; [by rewrite app_nil_r|].
  apply Forall_cons in Hf as [Hf Hfs]. unfold sbind at 1. rewrite write_frame_Ok by done.
  rewrite IH by done. by rewrite <- app_assoc.
Qed.

Lemma frame_bytes_length f : (3 ≤ length (frame_bytes f))%nat.
Proof. destruct f; simpl; rewrite ?length_app, ?length_be_bytes; lia. Qed.

Lemma read_frames_bytes fs : ∀ fuel e,
  Forall frame_ok fs → (length (concat (frame_bytes <$> fs)) < fuel)%nat →
  read_frames fuel (mkReader (concat (frame_bytes <$> fs)) e) = fs.
Proof.
  induction fs as [|f fs IH]; intros fuel e Hf Hfuel; destruct fuel as [|fuel]; try (simpl in Hfuel; lia).
  - simpl. unfold ShellFrame_read_from, read_exact. simpl. by destruct (default _ _).
  - apply Forall_cons in Hf as [Hf Hfs]. cbn [fmap list_fmap concat] in *. cbn [read_frames].
    rewrite read_frame_bytes by done. f_equal. apply IH; [done|].
    rewrite length_app in Hfuel. pose proof (frame_bytes_length f). lia.
Qed.

(** Everything [read_from] takes as a frame. *)
Lemma read_frame_sound r f r' :
  ShellFrame_read_from r = (Ok (Some f), r') →
  frame_ok f ∧ rd_end r' = rd_end r ∧
  (rd_data r = frame_bytes f ++ rd_data r' ∨
   ∃ a b, (f = Ping ∧ rd_data r = [byte_of_N TAG_PING; a; b] ++ rd_data r') ∨
          (f = Pong ∧ rd_data r = [byte_of_N TAG_PONG; a; b] ++ rd_data r')).
Proof.
  destruct r as [d e]. unfold ShellFrame_read_from.
  destruct (read_exact 3 (mkReader d e)) as [[h|[]] r1] eqn:Hh; try done.
  apply read_exact_Ok in Hh as (Hd & Hlen & He). simpl in Hd, He.
  destruct h as [|t [|a [|b [|? ?]]]]; simpl in Hlen; try lia. clear Hlen.
  destruct r1 as [d1 e1]. simpl in Hd, He. subst d e1. cbn [lookup list_lookup default from_option id drop rd_data rd_end].
  destruct (N.eqb_spec (Byte.to_N t) TAG_DATA) as [Et|_]; [|destruct (N.eqb_spec (Byte.to_N t) TAG_RESIZE) as [Et|_];
    [|destruct (N.eqb_spec (Byte.to_N t) TAG_PING) as [Et|_]; [|destruct (N.eqb_spec (Byte.to_N t) TAG_PONG) as [Et|_]]]].
  - unfold sbind. destruct (read_exact _ _) as [[buf|] r2] eqn:Hb; [|done]. intros [= <- <-].
    apply read_exact_Ok in Hb as (Hd & Hlen & He). simpl in Hd, He.
    pose proof (be_val_lt [a; b]) as Hlt. assert (be_val [a; b] = blen buf) as Eb by (unfold blen; lia).
    split; [rewrite Eb in Hlt; exact Hlt|]. split; [done|]. left. rewrite Hd. cbn [frame_bytes].
    rewrite <- Eb, <- !app_assoc, (be2_bytes a b).
    rewrite <- Et, byte_of_to_N. done.
  - destruct (N.eqb_spec (be_val [a; b]) 4) as [E4|_]; [|done]. cbn [negb].
    unfold sbind. destruct (read_exact _ _) as [[ds|] r2] eqn:Hb; [|done]. intros [= <- <-].
    apply read_exact_Ok in Hb as (Hd & Hlen & He). simpl in Hd, He.
    destruct ds as [|c0 [|c1 [|r0 [|r3 [|? ?]]]]]; simpl in Hlen; try lia.
    split; [split; [exact (be_val_lt [c0; c1])|exact (be_val_lt [r0; r3])]|]. split; [done|]. left.
    rewrite Hd. cbn [frame_bytes take drop].
    rewrite (be2_bytes c0 c1), (be2_bytes r0 r3).
    rewrite <- Et, byte_of_to_N.
    pose proof (be2_bytes a b) as Eab. rewrite E4 in Eab.
    change (be_bytes 2 4) with [x00; x04] in Eab. by injection Eab as <- <-.
  - intros [= <- <-]. split; [done|]. split; [done|]. right. exists a, b. left. split; [done|].
    rewrite <- Et, byte_of_to_N. done.
  - intros [= <- <-]. split; [done|]. split; [done|]. right. exists a, b. right. split; [done|].
    rewrite <- Et, byte_of_to_N. done.
  - done.
Qed.

(** C31. Frames round-trip on the stream: any sequence of frames with 16-bit sizes is
    written without error and read back as it is, wherever the chunks of the
    transport fall; a data frame of 64 KiB or more is refused with nothing written;
    and all that the reader takes for a frame is an encoding of that frame, except
    that a ping or pong may declare any length, whose payload it leaves on the stream. *)
Theorem frame_stream_roundtrip (fs : list ShellFrame) (e : option io_kind) (Hf : Forall frame_ok fs) :
  let wire := concat (frame_bytes <$> fs) in
  write_frames fs writer_new = (Ok tt, mkWriter wire None) ∧
  frames_of (mkReader wire e) = fs ∧
  (∀ l w, u16_modulus ≤ blen l → ShellFrame_write_to (Data l) w = (Err InvalidInput, w)) ∧
  (∀ r f r', ShellFrame_read_from r = (Ok (Some f), r') →
     frame_ok f ∧
     (rd_data r = frame_bytes f ++ rd_data r' ∨
      ∃ a b, (f = Ping ∧ rd_data r = [byte_of_N TAG_PING; a; b] ++ rd_data r') ∨
             (f = Pong ∧ rd_data r = [byte_of_N TAG_PONG; a; b] ++ rd_data r'))).
Proof.
  intros wire. split; [by apply write_frames_Ok|]. split.
  - unfold frames_of. apply read_frames_bytes; [done|]. simpl. fold wire. lia.
  - split; [intros; by apply write_frame_oversized|]. intros r f r' H. apply read_frame_sound in H. tauto.
Qed.

Lemma frame_stream_roundtrip_witness :
  frames_of (mkReader (concat (frame_bytes <$> [Ping; Data (as_bytes "ls"); Resize 80 24])) None)
  = [Ping; Data (as_bytes "ls"); Resize 80 24].
Proof.
  apply (frame_stream_roundtrip [Ping; Data (as_bytes "ls"); Resize 80 24] None).
  repeat constructor.
Defined.

(** ** Handshakes on the wire *)

Lemma signing_payload_inj n t p c n' t' p' c' :
  str_len t < u32_modulus → str_len p < u32_modulus →
  str_len t' < u32_modulus → str_len p' < u32_modulus →
  signing_payload n t p c = signing_payload n' t' p' c' → n = n' ∧ t = t' ∧ p = p' ∧ c = c'.
Proof.
  intros Ht Hp Ht' Hp' E. unfold signing_payload in E. apply app_inv_head in E.
  apply app_inj_1 in E as [En E]; [|by rewrite !length_ObjectId_as_bytes].
  apply app_inj_1 in E as [Et E]; [|by rewrite !length_be_bytes].
  apply be_bytes_inj in Et; [|exact Ht|exact Ht'].
  apply app_inj_1 in E as [Et' E]; [|unfold str_len in Et; lia].
  apply app_inj_1 in E as [Ep E]; [|by rewrite !length_be_bytes].
  apply be_bytes_inj in Ep; [|exact Hp|exact Hp'].
  apply app_inj_1 in E as [Ep' E]; [|unfold str_len in Ep; lia].
  apply as_bytes_inj in Et', Ep'. apply vec_to_list_inj2 in E.
  by apply ObjectId_as_bytes_inj in En.
Qed.

Lemma read_handshake_header (json : bytes) l e :
  blen json < u16_modulus →
  read_exact 2 (mkReader (be_bytes 2 (blen json) ++ json ++ l) e) =
    (Ok (be_bytes 2 (blen json)), mkReader (json ++ l) e) ∧
  read_exact (N.to_nat (be_val (be_bytes 2 (blen json)))) (mkReader (json ++ l) e) =
    (Ok json, mkReader l e).
Proof.
  intros H. split; [by apply read_exact_app|].
  rewrite (be2_val _ H). apply read_exact_app. unfold blen. lia.
Qed.

(** A handshake of at most 16 KiB of JSON is written and read back, leaving the
    rest of the stream to the session.  The writer bounds it by 64 KiB only: between
    the two, what it writes without error the reader refuses; above, nothing is
    written.  The ticket-only handshake is read at any length the writer takes. *)
Theorem handshake_roundtrip `{J : Json ShellNextHandshake, K : Json ShellHandshake}
    (JL : JsonLaws ShellNextHandshake) (KL : JsonLaws ShellHandshake)
    (h : ShellNextHandshake) (g : ShellHandshake) (json gson rest : bytes) (e : option io_kind)
    (Hj : json_to_vec h = Some json) (Hg : json_to_vec g = Some gson) :
  (if blen json <? u16_modulus then
     ShellNextHandshake_write_to_async h writer_new
       = (Ok tt, mkWriter (be_bytes 2 (blen json) ++ json) None) ∧
     let r := mkReader ((be_bytes 2 (blen json) ++ json) ++ rest) e in
     if blen json <=? 16384
     then ShellNextHandshake_read_from_async r = (Ok h, mkReader rest e)
     else ShellNextHandshake_read_from_async r = (Err HsLimit, mkReader (json ++ rest) e)
   else ShellNextHandshake_write_to_async h writer_new = (Err HsTooLarge, writer_new)) ∧
  (blen gson < u16_modulus →
     ShellHandshake_write g writer_new = (Ok tt, mkWriter (be_bytes 2 (blen gson) ++ gson) None) ∧
     ShellHandshake_read (mkReader ((be_bytes 2 (blen gson) ++ gson) ++ rest) e) = (Ok g, mkReader rest e)).
Proof.
  split.
  - unfold ShellNextHandshake_write_to_async, sbind, slift, smap_err. rewrite Hj. cbn [ok_or].
    destruct (N.ltb_spec (blen json) u16_modulus) as [Hlt|Hge]; [|reflexivity].
    split; [reflexivity|]. cbn zeta. rewrite <- app_assoc.
    destruct (read_handshake_header json rest e Hlt) as [H1 H2].
    unfold ShellNextHandshake_read_from_async, sbind, smap_err, slift. rewrite H1. simpl map_err. cbv iota.
    rewrite (be2_val _ Hlt) in H2 |- *. change (16 * 1024) with 16384.
    destruct (N.leb_spec (blen json) 16384) as [Hle|Hgt].
    + assert ((16384 <? blen json) = false) as -> by (apply N.ltb_ge; lia). rewrite H2. simpl.
      by rewrite (json_roundtrip _ _ Hj).
    + assert ((16384 <? blen json) = true) as -> by (apply N.ltb_lt; lia). reflexivity.
  - intros Hlt. unfold ShellHandshake_write, sbind, slift, smap_err. rewrite Hg. cbn [ok_or].
    split; [apply N.ltb_lt in Hlt as ->; reflexivity|]. rewrite <- app_assoc.
    destruct (read_handshake_header gson rest e Hlt) as [H1 H2].
    unfold ShellHandshake_read, sbind, smap_err, slift. rewrite H1. simpl map_err. cbv iota. rewrite H2. simpl.
    by rewrite (json_roundtrip _ _ Hg).
Qed.

(** A JSON codec of two values. *)
Definition sample_certificate : OperatorSessionCertificate :=
  mkCert (toy_id 1) (toy_id 2) (toy_id 3) (toy_id 4) (mkPublicKey (toy_seed 6)) (mkCaps CAP_SHELL_EXEC)
    100 200 (mkSignature (vreplicate 64 x00)).

Definition sample_shell_next : ShellNextHandshake :=
  mkShellNext (toy_id 1) "T-1" "peer" sample_certificate [x01; x02].

Definition single_json {T} (x : T) (is_x : T → bool) : Json T := {|
  json_to_vec y := if is_x y then Some (as_bytes "{}") else None;
  json_from_slice l := if bool_decide (l = as_bytes "{}") then Some x else None
|}.

Lemma single_json_laws {T} (x : T) is_x :
  (∀ y, is_x y = true → y = x) → @JsonLaws T (single_json x is_x).
Proof.
  intros Hx. split. intros y l. simpl. destruct (is_x y) eqn:E; [|done]. intros [= <-].
  apply Hx in E as ->. done.
Qed.

Lemma handshake_roundtrip_witness :
  let J := single_json sample_shell_next (λ h, bool_decide (sn_ticket_id h = "T-1"%string) && bool_decide
    (h.(sn_challenge_signature) = [x01; x02]) && bool_decide (h.(sn_session_certificate) = sample_certificate)
    && bool_decide (sn_network_id h = toy_id 1) && bool_decide (sn_operator_transport_peer_id h = "peer"%string)) in
  let K := single_json (mkShellHandshake "T-1") (λ h, bool_decide (sh_ticket_id h = "T-1"%string)) in
  @ShellHandshake_read K (mkReader ((be_bytes 2 2 ++ as_bytes "{}") ++ [x07]) None)
    = (Ok (mkShellHandshake "T-1"), mkReader [x07] None).
Proof.
  intros J K.
  apply (@handshake_roundtrip J K) with (h := sample_shell_next) (json := as_bytes "{}") (gson := as_bytes "{}").
  - apply single_json_laws. intros [n t p c s] H. bool_props. simpl in *. subst. reflexivity.
  - apply single_json_laws. intros [t] H. bool_props. simpl in *. subst. reflexivity.
  - reflexivity.
  - reflexivity.
  - reflexivity.
Defined.
