(* ===== verification/Session.v ===== *)
(** A remote shell session ([serve_pty] and [run_client] of
    crates/fortiq-shell/src/lib.rs).

    [serve_pty] is four tasks around a [select!]: the PTY reader, the PTY writer, the
    network writer and the keep-alive ticker, joined by two bounded channels.  A
    state holds the channels, what went out on each side and the clock; each event is
    one step of one task.  [serve_step] gives [None] when the task waits: a channel
    is full or empty, a timer has not expired, or the task is over.  The two tasks that
    do something else before a send that waits have that as a step of its own: the loop over the operator's frames,
    which has read the frame ([EvBlock], after which no frame is read and no timer runs until it is handed on),
    and the PTY reader, which sends a cursor reply and then the output.  A resize of the PTY is
    taken to return at once.  Closing the
    session leaves the queues to the tasks until they are aborted; the 50 ms and
    300 ms grace periods bound that phase in time, not in steps. *)

From S2P Require Import Prelude Text Object Concrete Authority Stream Config Shell.

(** ** The serving side *)

Definition CHANNEL : nat := 128.
Definition PTY_BUF : N := 4096.

(** [ESC [ 6 n], and the reply [ESC [ 1 ; 1 R]. *)
Definition DSR_REQUEST : bytes := [x1b; x5b; x36; x6e].
Definition DSR_REPLY : bytes := [x1b; x5b; x31; x3b; x31; x52].

(** [l.windows(4).any(|w| w == …)]. *)
Fixpoint has_window (w l : bytes) : bool :=
  match l with
  | [] => false
  | _ :: t => bool_decide (take (length w) l = w) || has_window w t
  end.

Definition crlf : bytes := [x0d; x0a].

Definition banner (info : NodeInfo) (shell : ShellKind) : bytes :=
  crlf ++ [x1b] ++ as_bytes "[1;36mFORTIQ Remote Session" ++ [x1b] ++ as_bytes "[0m" ++ crlf ++ crlf ++
  as_bytes "Host: " ++ as_bytes (ni_name info) ++ crlf ++
  as_bytes "PeerId: " ++ as_bytes (ni_peer_id info) ++ crlf ++
  as_bytes "OS: " ++ as_bytes (ni_os info) ++ crlf ++
  as_bytes "Arch: " ++ as_bytes (ni_arch info) ++ crlf ++
  as_bytes "Shell: " ++ as_bytes (ShellKind_name shell) ++ crlf ++
  as_bytes "FORTIQ: " ++ as_bytes (ni_version info) ++ crlf ++ crlf.

Inductive serve_end := Revoked | ChildExited | SendEnded | PtyClosed | StreamEnded | TimedOut.
Inductive serve_phase := Running | Draining (why : serve_end) | Finished (why : serve_end).

Record ServeState := mkServe {
  sv_pty_in : list bytes;         (** the channel to the PTY writer *)
  sv_pty_written : list bytes;    (** what the PTY writer wrote *)
  sv_pty_out : list ShellFrame;   (** the channel to the network writer *)
  sv_net_out : list ShellFrame;   (** the frames written to the network *)
  sv_sizes : list (N * N);        (** the sizes asked of the PTY, [(cols, rows)] *)
  sv_reading : bool;              (** the PTY reader runs *)
  sv_writing : bool;              (** the PTY writer runs *)
  sv_sending : bool;              (** the network writer runs *)
  sv_now : N;
  sv_wait : N;                    (** when the pending read of a frame began *)
  sv_next_ping : N;
  sv_phase : serve_phase;
  sv_blocked : option ShellFrame; (** the frame that was read and waits for room in its channel *)
  sv_replied : option bytes       (** the output whose cursor reply is sent and that is still to be sent *)
}.

Inductive serve_event :=
| EvRevoked
| EvChildExit
| EvPtyReply (chunk : bytes)                            (** the cursor reply to a chunk just read *)
| EvPtyRead (chunk : option bytes)                      (** [None]: end of file or an error *)
| EvPtyWrite (ok : bool)
| EvSend (ok : bool)
| EvPing
| EvBlock (f : ShellFrame)                              (** a frame is read and its channel is full *)
| EvFrame (r : result io_kind (option ShellFrame))
| EvTimeout
| EvElapse (d : N)
| EvFinish.

Definition set_phase (p : serve_phase) (s : ServeState) : ServeState :=
  mkServe (sv_pty_in s) (sv_pty_written s) (sv_pty_out s) (sv_net_out s) (sv_sizes s) (sv_reading s)
    (sv_writing s) (sv_sending s) (sv_now s) (sv_wait s) (sv_next_ping s) p (sv_blocked s) (sv_replied s).
Definition set_pty_in (q w : list bytes) (alive : bool) (s : ServeState) : ServeState :=
  mkServe q w (sv_pty_out s) (sv_net_out s) (sv_sizes s) (sv_reading s) alive (sv_sending s) (sv_now s)
    (sv_wait s) (sv_next_ping s) (sv_phase s) (sv_blocked s) (sv_replied s).
Definition set_pty_out (q o : list ShellFrame) (alive : bool) (s : ServeState) : ServeState :=
  mkServe (sv_pty_in s) (sv_pty_written s) q o (sv_sizes s) (sv_reading s) (sv_writing s) alive (sv_now s)
    (sv_wait s) (sv_next_ping s) (sv_phase s) (sv_blocked s) (sv_replied s).
Definition set_reading (b : bool) (s : ServeState) : ServeState :=
  mkServe (sv_pty_in s) (sv_pty_written s) (sv_pty_out s) (sv_net_out s) (sv_sizes s) b (sv_writing s)
    (sv_sending s) (sv_now s) (sv_wait s) (sv_next_ping s) (sv_phase s) (sv_blocked s) (sv_replied s).
Definition set_sizes (l : list (N * N)) (s : ServeState) : ServeState :=
  mkServe (sv_pty_in s) (sv_pty_written s) (sv_pty_out s) (sv_net_out s) l (sv_reading s) (sv_writing s)
    (sv_sending s) (sv_now s) (sv_wait s) (sv_next_ping s) (sv_phase s) (sv_blocked s) (sv_replied s).
Definition set_clock (now wait next : N) (s : ServeState) : ServeState :=
  mkServe (sv_pty_in s) (sv_pty_written s) (sv_pty_out s) (sv_net_out s) (sv_sizes s) (sv_reading s)
    (sv_writing s) (sv_sending s) now wait next (sv_phase s) (sv_blocked s) (sv_replied s).
Definition set_blocked (f : option ShellFrame) (s : ServeState) : ServeState :=
  mkServe (sv_pty_in s) (sv_pty_written s) (sv_pty_out s) (sv_net_out s) (sv_sizes s) (sv_reading s)
    (sv_writing s) (sv_sending s) (sv_now s) (sv_wait s) (sv_next_ping s) (sv_phase s) f (sv_replied s).
Definition set_replied (c : option bytes) (s : ServeState) : ServeState :=
  mkServe (sv_pty_in s) (sv_pty_written s) (sv_pty_out s) (sv_net_out s) (sv_sizes s) (sv_reading s)
    (sv_writing s) (sv_sending s) (sv_now s) (sv_wait s) (sv_next_ping s) (sv_phase s) (sv_blocked s) c.

(** [Sender::send]: waits for room, fails once the receiver is gone. *)
Inductive sent := SWaits | SClosed | SSent (s : ServeState).

Definition send_pty_in (l : bytes) (s : ServeState) : sent :=
  if negb (sv_writing s) then SClosed
  else if (length (sv_pty_in s) <? CHANNEL)%nat
  then SSent (set_pty_in (sv_pty_in s ++ [l]) (sv_pty_written s) true s) else SWaits.

Definition send_pty_out (f : ShellFrame) (s : ServeState) : sent :=
  if negb (sv_sending s) then SClosed
  else if (length (sv_pty_out s) <? CHANNEL)%nat
  then SSent (set_pty_out (sv_pty_out s ++ [f]) (sv_net_out s) true s) else SWaits.

(** A send whose failure is ignored ([let _ =]). *)
Definition ignore_closed (r : sent) (s : ServeState) : option ServeState :=
  match r with SWaits => None | SClosed => Some s | SSent s => Some s end.

Definition close_session (why : serve_end) (s : ServeState) : ServeState := set_phase (Draining why) s.

(** The frame is handed on and the next read begins. *)
Definition rearm (s : ServeState) : ServeState :=
  set_blocked None (set_clock (sv_now s) (sv_now s) (sv_next_ping s) s).

(** What one turn of the loop over the operator's frames does with what it read. *)
Definition hand_on (r : result io_kind (option ShellFrame)) (s : ServeState) : option ServeState :=
  match r with
  | Ok (Some (Data payload)) =>
      match send_pty_in payload s with
      | SWaits => None
      | SClosed => Some (close_session PtyClosed s)
      | SSent s => Some (rearm s)
      end
  | Ok (Some (Resize cols rows)) => Some (rearm (set_sizes (sv_sizes s ++ [(cols, rows)]) s))
  | Ok (Some Ping) => rearm <$> ignore_closed (send_pty_out Pong s) s
  | Ok (Some Pong) => Some (rearm s)
  | Ok None | Err _ => Some (close_session StreamEnded s)
  end.

(** While a frame waits to be handed on, the loop awaits that send: nothing else is read. *)
Definition serve_frame (r : result io_kind (option ShellFrame)) (s : ServeState) : option ServeState :=
  match sv_blocked s, r with
  | None, _ => hand_on r s
  | Some f, Ok (Some f') => if bool_decide (f' = f) then hand_on r s else None
  | Some _, _ => None
  end.

Definition serve_block (f : ShellFrame) (s : ServeState) : option ServeState :=
  match sv_blocked s, hand_on (Ok (Some f)) s with
  | None, None => Some (set_blocked (Some f) s)
  | _, _ => None
  end.

(** One turn of the PTY reader. A chunk with a cursor request is answered first. *)
Definition chunk_ok (c : bytes) : bool := negb ((blen c =? 0) || (PTY_BUF <? blen c)).

Definition serve_pty_reply (c : bytes) (s : ServeState) : option ServeState :=
  match sv_replied s with
  | None =>
      if sv_reading s && chunk_ok c && has_window DSR_REQUEST c
      then set_replied (Some c) <$> ignore_closed (send_pty_in DSR_REPLY s) s else None
  | Some _ => None
  end.

(** The output of a chunk, now or once its reply is sent. *)
Definition may_output (chunk : option bytes) (s : ServeState) : bool :=
  match chunk, sv_replied s with
  | Some c, Some c' => bool_decide (c = c')
  | Some c, None => chunk_ok c && negb (has_window DSR_REQUEST c)
  | None, replied => bool_decide (replied = None)
  end.

Definition serve_pty_read (chunk : option bytes) (s : ServeState) : option ServeState :=
  if negb (sv_reading s && may_output chunk s) then None else
  match chunk with
  | None => Some (set_reading false s)
  | Some c =>
      match send_pty_out (Data c) s with
      | SWaits => None
      | SClosed => Some (set_replied None (set_reading false s))
      | SSent s => Some (set_replied None s)
      end
  end.

Definition serve_pty_write (ok : bool) (s : ServeState) : option ServeState :=
  match sv_pty_in s with
  | l :: q =>
      if negb (sv_writing s) then None
      else if ok then Some (set_pty_in q (sv_pty_written s ++ [l]) true s)
      else Some (set_pty_in [] (sv_pty_written s) false s)
  | [] => None
  end.

(** The network writer; the session ends when it stops. *)
Definition serve_send (ok : bool) (s : ServeState) : option ServeState :=
  match sv_pty_out s with
  | f :: q =>
      if negb (sv_sending s) then None
      else if ok then Some (set_pty_out q (sv_net_out s ++ [f]) true s)
      else
        let s := set_pty_out [] (sv_net_out s) false s in
        Some (match sv_phase s with Running => close_session SendEnded s | _ => s end)
  | [] => None
  end.

Definition serve_ping (s : ServeState) : option ServeState :=
  if sv_now s <? sv_next_ping s then None else
  match send_pty_out Ping s with
  | SSent s => Some (set_clock (sv_now s) (sv_wait s) (sv_next_ping s + KEEPALIVE_INTERVAL) s)
  | _ => None
  end.

Definition serve_step (ev : serve_event) (s : ServeState) : option ServeState :=
  match sv_phase s, ev with
  | Finished _, _ => None
  | Running, EvRevoked => Some (close_session Revoked s)
  | Running, EvChildExit => Some (close_session ChildExited s)
  | Running, EvFrame r => serve_frame r s
  | Running, EvBlock f => serve_block f s
  | Running, EvTimeout =>
      match sv_blocked s with
      | None => if LIVENESS_TIMEOUT <=? sv_now s - sv_wait s then Some (close_session TimedOut s) else None
      | Some _ => None
      end
  | Draining why, EvFinish => Some (set_phase (Finished why) s)
  | _, EvPtyReply chunk => serve_pty_reply chunk s
  | _, EvPtyRead chunk => serve_pty_read chunk s
  | _, EvPtyWrite ok => serve_pty_write ok s
  | _, EvSend ok => serve_send ok s
  | _, EvPing => serve_ping s
  | _, EvElapse d => Some (set_clock (sv_now s + d) (sv_wait s) (sv_next_ping s) s)
  | _, _ => None
  end.

(** The session once the banner is written. *)
Definition serve_start (info : NodeInfo) (shell : ShellKind) : ServeState :=
  mkServe [] [] [] [Data (banner info shell)] [] true true true 0 0 KEEPALIVE_INTERVAL Running None None.

Fixpoint serve_run (tr : list serve_event) (s : ServeState) : option ServeState :=
  match tr with
  | [] => Some s
  | ev :: tr => s ← serve_step ev s; serve_run tr s
  end.

(** ** The client *)

Inductive ClientError := ClosedBeforeAuthorization | DeniedAuthorization | ClientIo (e : io_kind).

(** The stream to the service and standard output. *)
Abbreviation outputs := (writer * writer)%type.

Definition to_stream {E A} (m : StateM writer E A) : StateM outputs E A := λ o,
  let '(r, w) := m o.1 in (r, (w, o.2)).
Definition to_stdout {E A} (m : StateM writer E A) : StateM outputs E A := λ o,
  let '(r, w) := m o.2 in (r, (o.1, w)).

Definition print_bytes (payload : bytes) : StateM outputs io_kind unit :=
  let! _ := to_stdout (write_all payload) in to_stdout flush.

(** [let _ =] of a computation: its error is dropped. *)
Definition ignoring {S E F} (m : StateM S E unit) : StateM S F unit := λ s, (Ok tt, (m s).2).

(** The frames received under a one-shot command: output, or a ping to answer. *)
Fixpoint answer_frames (frames : list ShellFrame) : StateM outputs io_kind unit :=
  match frames with
  | [] => sret tt
  | frame :: frames =>
      let! _ := match frame with
                | Data payload => print_bytes payload
                | Ping => ignoring (to_stream (ShellFrame_write_to Pong))
                | _ => sret tt
                end in
      answer_frames frames
  end.

(** Those received by the interactive loop. *)
Fixpoint interactive_frames (frames : list ShellFrame) : StateM writer io_kind unit :=
  match frames with
  | [] => sret tt
  | frame :: frames =>
      let! _ := match frame with
                | Data payload => let! _ := write_all payload in flush
                | _ => sret tt
                end in
      interactive_frames frames
  end.

(** The task that sends standard input, until it ends or a write fails. *)
Fixpoint send_stdin (chunks : list bytes) (w : writer) : writer :=
  match chunks with
  | [] => w
  | c :: chunks =>
      match ShellFrame_write_to (Data c) w with
      | (Ok _, w) => send_stdin chunks w
      | (Err _, w) => w
      end
  end.

(** [run_client]: [stdin] holds the chunks typed before the stream ends; [o] the stream and
    standard output. An error of standard output ends the client; the interactive one leaves
    the task that sends what is typed. *)
Definition run_client (command : option bytes) (stdin : list bytes) (r : reader) (o : outputs)
    : result ClientError unit * outputs :=
  match read_exact 1 r with
  | (Err _, _) => (Err ClosedBeforeAuthorization, o)
  | (Ok authorization, r) =>
      if negb (bool_decide (authorization = [byte_of_N AUTHORIZED]))
      then (Err DeniedAuthorization, o) else
      match command with
      | Some command =>
          smap_err ClientIo
            (let! _ := to_stream (ShellFrame_write_to (Data (command ++ crlf ++ as_bytes "exit" ++ crlf))) in
             answer_frames (frames_of r)) o
      | None =>
          let '(result, stdout) := interactive_frames (frames_of r) o.2 in
          (map_err ClientIo result, (send_stdin stdin o.1, stdout))
      end
  end.

(** ** What a session has to deliver *)

(** What an event owes the shell, the network and the PTY's size. *)
Definition ev_input (ev : serve_event) : list bytes :=
  match ev with
  | EvPtyReply _ => [DSR_REPLY]
  | EvFrame (Ok (Some (Data l))) => [l]
  | _ => []
  end.

Definition ev_output (ev : serve_event) : list ShellFrame :=
  match ev with
  | EvPtyRead (Some c) => [Data c]
  | EvFrame (Ok (Some Ping)) => [Pong]
  | EvPing => [Ping]
  | _ => []
  end.

Definition ev_size (ev : serve_event) : list (N * N) :=
  match ev with EvFrame (Ok (Some (Resize c r))) => [(c, r)] | _ => [] end.

(** A channel and what its writer wrote hold, in order, all that was owed while the
    writer runs, and what was written stays a prefix of it after. *)
Definition delivered {A} (alive : bool) (written queue owed : list A) : Prop :=
  (length queue ≤ CHANNEL)%nat ∧
  if alive then written ++ queue = owed else queue = [] ∧ written `prefix_of` owed.

Definition session_inv (info : NodeInfo) (shell : ShellKind) (tr : list serve_event) (s : ServeState)
    : Prop :=
  delivered (sv_writing s) (sv_pty_written s) (sv_pty_in s) (concat (ev_input <$> tr)) ∧
  delivered (sv_sending s) (sv_net_out s) (sv_pty_out s)
    (Data (banner info shell) :: concat (ev_output <$> tr)) ∧
  sv_sizes s = concat (ev_size <$> tr) ∧ sv_wait s ≤ sv_now s.

Lemma delivered_none {A} alive (w q o : list A) : delivered alive w q o → delivered alive w q (o ++ []).
Proof. by rewrite app_nil_r. Qed.

Lemma delivered_closed {A} (w q o l : list A) : delivered false w q o → delivered false w q (o ++ l).
Proof. intros (H & -> & Hp). split; [done|]. split; [done|]. by apply prefix_app_r. Qed.

Lemma delivered_send {A} (w q o : list A) x :
  (length q < CHANNEL)%nat → delivered true w q o → delivered true w (q ++ [x]) (o ++ [x]).
Proof. intros Hl (_ & <-). split; [rewrite length_app; simpl; lia|]. by rewrite app_assoc. Qed.

Lemma delivered_written {A} (w q o : list A) x :
  delivered true w (x :: q) o → delivered true (w ++ [x]) q (o ++ []).
Proof. intros (Hl & <-). simpl in Hl. split; [lia|]. by rewrite app_nil_r, <- app_assoc. Qed.

Lemma delivered_dead {A} (w q o : list A) : delivered true w q o → delivered false w [] (o ++ []).
Proof. intros (_ & <-). split; [simpl; unfold CHANNEL; lia|]. split; [done|]. rewrite app_nil_r. by apply prefix_app_r. Qed.

Create HintDb session.
#[export] Hint Resolve delivered_none delivered_closed delivered_send delivered_written delivered_dead : session.

(** The sends, as cases on what the channel answers. *)
Lemma send_pty_in_cases l s :
  match send_pty_in l s with
  | SWaits => True
  | SClosed => sv_writing s = false
  | SSent s' => sv_writing s = true ∧ (length (sv_pty_in s) < CHANNEL)%nat ∧
      s' = set_pty_in (sv_pty_in s ++ [l]) (sv_pty_written s) true s
  end.
Proof.
  unfold send_pty_in. destruct (sv_writing s); [|done]. simpl.
  destruct (Nat.ltb_spec (length (sv_pty_in s)) CHANNEL); [|done]. done.
Qed.

Lemma send_pty_out_cases f s :
  match send_pty_out f s with
  | SWaits => True
  | SClosed => sv_sending s = false
  | SSent s' => sv_sending s = true ∧ (length (sv_pty_out s) < CHANNEL)%nat ∧
      s' = set_pty_out (sv_pty_out s ++ [f]) (sv_net_out s) true s
  end.
Proof.
  unfold send_pty_out. destruct (sv_sending s); [|done]. simpl.
  destruct (Nat.ltb_spec (length (sv_pty_out s)) CHANNEL); [|done]. done.
Qed.

(** The step's effect on each of the four parts. *)
Definition step_ok (ev : serve_event) (s s' : ServeState) : Prop :=
  (∀ o, delivered (sv_writing s) (sv_pty_written s) (sv_pty_in s) o →
     delivered (sv_writing s') (sv_pty_written s') (sv_pty_in s') (o ++ ev_input ev)) ∧
  (∀ o, delivered (sv_sending s) (sv_net_out s) (sv_pty_out s) o →
     delivered (sv_sending s') (sv_net_out s') (sv_pty_out s') (o ++ ev_output ev)) ∧
  sv_sizes s' = sv_sizes s ++ ev_size ev ∧ (sv_wait s ≤ sv_now s → sv_wait s' ≤ sv_now s').

(** A part the event leaves as it was. *)
Ltac untouched := intros; rewrite ?app_nil_r; assumption.

Lemma hand_on_ok r s s' : hand_on r s = Some s' → step_ok (EvFrame r) s s'.
Proof.
  unfold step_ok. destruct r as [[[l|c r| |]|]|e]; simpl; rewrite ?app_nil_r.
  - pose proof (send_pty_in_cases l s) as Hc. destruct (send_pty_in l s) as [| |s1]; [done| |].
    + intros [= <-]. simpl. rewrite Hc, ?app_nil_r. split; [intros; by apply delivered_closed|]. split; [untouched|done].
    + destruct Hc as (Hw & Hl & ->). intros [= <-]. simpl. rewrite Hw, ?app_nil_r.
      split; [intros; by apply delivered_send|]. split; [untouched|done].
  - intros [= <-]. split; [untouched|]. split; [untouched|done].
  - pose proof (send_pty_out_cases Pong s) as Hc. destruct (send_pty_out Pong s) as [| |s1]; [done| |].
    + intros [= <-]. simpl. rewrite Hc. split; [untouched|]. split; [intros; by apply delivered_closed|done].
    + destruct Hc as (Hw & Hl & ->). intros [= <-]. simpl. rewrite Hw.
      split; [untouched|]. split; [intros; by apply delivered_send|done].
  - intros [= <-]. split; [untouched|]. split; [untouched|done].
  - intros [= <-]. split; [untouched|]. split; [untouched|done].
  - intros [= <-]. split; [untouched|]. split; [untouched|done].
Qed.

Lemma serve_frame_hands r s s' :
  serve_frame r s = Some s' →
  hand_on r s = Some s' ∧ (∀ f, sv_blocked s = Some f → r = Ok (Some f)).
Proof.
  unfold serve_frame. destruct (sv_blocked s) as [f|]; [|done]. destruct r as [[f'|]|]; [|done..].
  case_bool_decide as E; [|done]. intros H. split; [done|]. congruence.
Qed.

Lemma serve_frame_ok r s s' : serve_frame r s = Some s' → step_ok (EvFrame r) s s'.
Proof. intros [H _]%serve_frame_hands. by apply hand_on_ok. Qed.

Lemma serve_block_cases f s s' :
  serve_block f s = Some s' → sv_blocked s = None ∧ hand_on (Ok (Some f)) s = None ∧ s' = set_blocked (Some f) s.
Proof. unfold serve_block. destruct (sv_blocked s), (hand_on _ s); try done. by intros [= <-]. Qed.

(** The cursor reply. *)
Lemma serve_pty_reply_cases c s s' :
  serve_pty_reply c s = Some s' →
  (s' = set_replied (Some c) s ∧ sv_writing s = false) ∨
  (s' = set_replied (Some c) (set_pty_in (sv_pty_in s ++ [DSR_REPLY]) (sv_pty_written s) true s) ∧
   sv_writing s = true ∧ (length (sv_pty_in s) < CHANNEL)%nat).
Proof.
  unfold serve_pty_reply. destruct (sv_replied s); [done|]. destruct (_ && _); [|done].
  pose proof (send_pty_in_cases DSR_REPLY s) as Hc. destruct (send_pty_in DSR_REPLY s) as [| |s1]; [done| |].
  - intros [= <-]. by left.
  - destruct Hc as (Hw & Hl & ->). intros [= <-]. by right.
Qed.

Lemma serve_pty_reply_ok c s s' : serve_pty_reply c s = Some s' → step_ok (EvPtyReply c) s s'.
Proof.
  unfold step_ok. intros [[-> Hw]|(-> & Hw & Hl)]%serve_pty_reply_cases; simpl; rewrite Hw, ?app_nil_r.
  - split; [intros; by apply delivered_closed|]. split; [untouched|done].
  - split; [intros; by apply delivered_send|]. split; [untouched|done].
Qed.

Lemma serve_pty_read_cases chunk s s' :
  serve_pty_read chunk s = Some s' →
  match chunk with
  | None => s' = set_reading false s
  | Some c =>
      (s' = set_replied None (set_reading false s) ∧ sv_sending s = false) ∨
      (s' = set_replied None (set_pty_out (sv_pty_out s ++ [Data c]) (sv_net_out s) true s) ∧
       sv_sending s = true ∧ (length (sv_pty_out s) < CHANNEL)%nat)
  end.
Proof.
  unfold serve_pty_read. destruct (negb _); [done|]. destruct chunk as [c|]; [|by intros [= <-]].
  pose proof (send_pty_out_cases (Data c) s) as Hc. destruct (send_pty_out (Data c) s) as [| |s1]; [done| |].
  - intros [= <-]. by left.
  - destruct Hc as (Hw & Hl & ->). intros [= <-]. by right.
Qed.

Lemma serve_pty_read_ok chunk s s' : serve_pty_read chunk s = Some s' → step_ok (EvPtyRead chunk) s s'.
Proof.
  unfold step_ok. intros H%serve_pty_read_cases. destruct chunk as [c|].
  - destruct H as [[-> Hw]|(-> & Hw & Hl)]; simpl; rewrite Hw, ?app_nil_r.
    + split; [untouched|]. split; [intros; by apply delivered_closed|done].
    + split; [untouched|]. split; [intros; by apply delivered_send|done].
  - rewrite H. simpl. split; [untouched|]. split; [untouched|]. by rewrite app_nil_r.
Qed.

Lemma serve_pty_write_ok ok s s' : serve_pty_write ok s = Some s' → step_ok (EvPtyWrite ok) s s'.
Proof.
  unfold serve_pty_write, step_ok. destruct (sv_pty_in s) as [|l q]; [done|].
  destruct (sv_writing s); [|done]. simpl. rewrite app_nil_r. destruct ok; intros [= <-]; simpl.
  - split; [intros; by apply delivered_written|]. split; [untouched|done].
  - split; [intros; by eapply delivered_dead|]. split; [untouched|done].
Qed.

Lemma serve_send_ok ok s s' : serve_send ok s = Some s' → step_ok (EvSend ok) s s'.
Proof.
  unfold serve_send, step_ok. destruct (sv_pty_out s) as [|f q]; [done|].
  destruct (sv_sending s); [|done]. simpl. rewrite app_nil_r. destruct ok; intros [= <-].
  - split; [untouched|]. split; [intros; by apply delivered_written|done].
  - destruct (sv_phase s); simpl; (split; [untouched|]); (split; [intros; by eapply delivered_dead|done]).
Qed.

Lemma serve_ping_ok s s' : serve_ping s = Some s' → step_ok EvPing s s'.
Proof.
  unfold serve_ping, step_ok. destruct (sv_now s <? sv_next_ping s); [done|].
  pose proof (send_pty_out_cases Ping s) as Hc. destruct (send_pty_out Ping s) as [| |s1]; [done|done|].
  destruct Hc as (Hw & Hl & ->). intros [= <-]. simpl. rewrite Hw, app_nil_r.
  split; [untouched|]. split; [intros; by apply delivered_send|done].
Qed.

#[export] Hint Resolve serve_frame_ok serve_pty_reply_ok serve_pty_read_ok serve_pty_write_ok serve_send_ok serve_ping_ok : session.

Lemma step_ok_quiet ev s s' :
  ev_input ev = [] → ev_output ev = [] → ev_size ev = [] →
  (∃ p, s' = set_phase p s) ∨ (∃ f, s' = set_blocked f s) ∨ (∃ d, s' = set_clock (sv_now s + d) (sv_wait s) (sv_next_ping s) s) →
  step_ok ev s s'.
Proof.
  intros E1 E2 E3 H. unfold step_ok. rewrite E1, E2, E3.
  destruct H as [[p ->]|[[f ->]|[d ->]]]; simpl; rewrite app_nil_r; (split; [untouched|]); (split; [untouched|]); (split; [done|lia]).
Qed.

Lemma serve_step_ok ev s s' : serve_step ev s = Some s' → step_ok ev s s'.
Proof.
  unfold serve_step.
  destruct (sv_phase s); destruct ev; try done; eauto with session;
    try (destruct (sv_blocked s); [done|]; destruct (_ <=? _); [|done]);
    try (intros (_ & _ & ->)%serve_block_cases || intros [= <-]); apply step_ok_quiet; try done; eauto.
Qed.

Lemma serve_run_inv info shell tr : ∀ pre s s',
  session_inv info shell pre s → serve_run tr s = Some s' → session_inv info shell (pre ++ tr) s'.
Proof.
  induction tr as [|ev tr IH]; intros pre s s' Hi.
  - intros [= <-]. by rewrite app_nil_r.
  - cbn [serve_run]. destruct (serve_step ev s) as [s1|] eqn:E; [|done]. simpl. intros H.
    apply serve_step_ok in E as (H1 & H2 & H3 & H4). destruct Hi as (I1 & I2 & I3 & I4).
    rewrite cons_middle, app_assoc. apply (IH _ s1); [|done]. unfold session_inv.
    rewrite !fmap_app, !concat_app. cbn [fmap list_fmap concat]. rewrite !app_nil_r.
    split; [by apply H1|]. split; [by apply (H2 _ I2)|]. split; [by rewrite H3, I3|by apply H4].
Qed.

(** C15. A session delivers: after any run of its tasks, the PTY writer has written, in
    order, the operator's data frames and the cursor replies, with the rest queued;
    the network writer has sent the banner, the shell's output, a pong for each ping
    and the keep-alive pings, in order, with the rest queued; every resize was asked
    of the PTY; the channels stay within their bounds.  A writer that failed leaves
    a prefix. *)
Theorem serve_session_delivers (info : NodeInfo) (shell : ShellKind) (tr : list serve_event)
    (s : ServeState) (Hr : serve_run tr (serve_start info shell) = Some s) :
  delivered (sv_writing s) (sv_pty_written s) (sv_pty_in s) (concat (ev_input <$> tr)) ∧
  delivered (sv_sending s) (sv_net_out s) (sv_pty_out s)
    (Data (banner info shell) :: concat (ev_output <$> tr)) ∧
  sv_sizes s = concat (ev_size <$> tr).
Proof.
  assert (session_inv info shell [] (serve_start info shell)) as Hi.
  { repeat split; simpl; unfold CHANNEL; lia. }
  apply (serve_run_inv _ _ _ _ _ _ Hi) in Hr as (H1 & H2 & H3 & _). done.
Qed.

(** ** Revocation and the end of a session *)

Definition is_operator_event (ev : serve_event) : bool :=
  match ev with EvFrame _ | EvBlock _ | EvTimeout | EvRevoked | EvChildExit => true | _ => false end.

(** The steps of the other tasks, the end of the network writer apart, leave the session running
    and the frame that waits as they are. *)
Lemma serve_task_step ev s s' :
  is_operator_event ev = false → serve_step ev s = Some s' →
  sv_blocked s' = sv_blocked s ∧ sv_wait s' = sv_wait s ∧
  (sv_phase s' = sv_phase s ∨ (sv_phase s = Running ∧ sv_phase s' = Draining SendEnded ∧ ev = EvSend false) ∨
   ∃ why, sv_phase s = Draining why ∧ sv_phase s' = Finished why).
Proof.
  intros He E. unfold serve_step in E. destruct ev as [| |c|chunk|ok|ok| |f|r| |d|]; try done.
  - destruct (sv_phase s) eqn:Ep; [| |done]; apply serve_pty_reply_cases in E as [[-> _]|(-> & _)]; simpl; auto.
  - assert (serve_pty_read chunk s = Some s') as H%serve_pty_read_cases by (by destruct (sv_phase s)).
    destruct chunk as [c|]; [destruct H as [[-> _]|(-> & _)]|rewrite H]; simpl; auto.
  - assert (serve_pty_write ok s = Some s') as H by (by destruct (sv_phase s)). clear E. unfold serve_pty_write in H.
    destruct (sv_pty_in s); [done|]. destruct (sv_writing s), ok; try done; injection H as <-; simpl; auto.
  - assert (serve_send ok s = Some s') as H by (by destruct (sv_phase s)). clear E. unfold serve_send in H.
    destruct (sv_pty_out s); [done|]. destruct (sv_sending s), ok; try done; injection H as <-; [simpl; auto|].
    simpl. destruct (sv_phase s) as [|why|why] eqn:Ep; simpl; rewrite ?Ep; auto 10.
  - assert (serve_ping s = Some s') as H by (by destruct (sv_phase s)). clear E. unfold serve_ping in H.
    destruct (sv_now s <? sv_next_ping s); [done|].
    pose proof (send_pty_out_cases Ping s) as Hc. destruct (send_pty_out Ping s); [done..|].
    destruct Hc as (_ & _ & ->). injection H as <-. simpl. auto.
  - destruct (sv_phase s) eqn:Ep; [| |done]; injection E as <-; simpl; auto 10.
  - destruct (sv_phase s) as [|why|] eqn:Ep; [done| |done]. injection E as <-. simpl. eauto 10.
Qed.

Lemma serve_step_ended ev s s' :
  sv_phase s ≠ Running → serve_step ev s = Some s' →
  sv_phase s' ≠ Running ∧ is_operator_event ev = false.
Proof.
  intros Hp E. assert (is_operator_event ev = false) as He.
  { unfold serve_step in E. destruct (sv_phase s); [done|by destruct ev|done]. }
  split; [|done]. destruct (serve_task_step _ _ _ He E) as (_ & _ & [->|[(? & _)|(why & _ & ->)]]); done.
Qed.

Lemma serve_run_ended tr : ∀ s s',
  sv_phase s ≠ Running → serve_run tr s = Some s' →
  sv_phase s' ≠ Running ∧ Forall (λ ev, is_operator_event ev = false) tr.
Proof.
  induction tr as [|ev tr IH]; intros s s' Hp.
  - intros [= <-]. by split; [|constructor].
  - cbn [serve_run]. destruct (serve_step ev s) as [s1|] eqn:E; [|done]. simpl. intros H.
    destruct (serve_step_ended _ _ _ Hp E) as [Hp1 He]. destruct (IH _ _ Hp1 H) as [H1 H2].
    split; [done|]. by constructor.
Qed.

(** C17. Revocation always works and is final: in any running session, full channels
    and silent operators included, it ends the session in one step; from then on no
    frame of the operator is taken, so what can still reach the shell are the inputs
    queued before it and the cursor replies, and no resize is asked any more. *)
Theorem revocation_is_final (s s' : ServeState) (tr : list serve_event)
    (Hp : sv_phase s = Running) (Hr : serve_run (EvRevoked :: tr) s = Some s') :
  serve_step EvRevoked s = Some (close_session Revoked s) ∧
  sv_phase s' ≠ Running ∧
  Forall (λ ev, is_operator_event ev = false) tr ∧
  Forall (λ l, l = DSR_REPLY) (concat (ev_input <$> tr)) ∧
  concat (ev_size <$> tr) = [].
Proof.
  assert (serve_step EvRevoked s = Some (close_session Revoked s)) as E by (unfold serve_step; by rewrite Hp).
  split; [done|]. cbn [serve_run] in Hr. rewrite E in Hr. simpl in Hr.
  apply serve_run_ended in Hr as [H1 H2]; [|done]. split; [done|]. split; [done|].
  clear E H1 Hp. induction H2 as [|ev tr He _ [IH1 IH2]]; [done|].
  destruct ev as [| |c|[c|]|ok|ok| |f|r| |d|]; try done. simpl. split; [|done]. by constructor.
Qed.

(** ** Liveness *)

(** What the history of a session says: for how long it has run since the last frame was
    handed on, and the frame that was read since and still waits for room. *)
Definition idle_step (t : N) (ev : serve_event) : N :=
  match ev with EvElapse d => t + d | EvFrame (Ok (Some _)) => 0 | _ => t end.
Definition wait_step (w : option ShellFrame) (ev : serve_event) : option ShellFrame :=
  match ev with EvBlock f => Some f | EvFrame _ => None | _ => w end.
Definition idle_time (tr : list serve_event) : N := foldl idle_step 0 tr.
Definition waiting_frame (tr : list serve_event) : option ShellFrame := foldl wait_step None tr.

Definition ended_by (why : serve_end) (s : ServeState) : Prop :=
  sv_phase s = Draining why ∨ sv_phase s = Finished why.

Lemma hand_on_running r s s' :
  sv_phase s = Running → hand_on r s = Some s' →
  (sv_phase s' = Running ∧ (∃ f, r = Ok (Some f)) ∧ sv_wait s' = sv_now s ∧ sv_now s' = sv_now s ∧
   sv_blocked s' = None) ∨
  ended_by PtyClosed s' ∨ ended_by StreamEnded s'.
Proof.
  intros Hp. unfold ended_by. destruct r as [[[l|c r| |]|]|e]; simpl.
  - pose proof (send_pty_in_cases l s) as Hc. destruct (send_pty_in l s); [done| |].
    + intros [= <-]. simpl. auto 10.
    + destruct Hc as (_ & _ & ->). intros [= <-]. left. simpl. eauto 10.
  - intros [= <-]. left. simpl. eauto 10.
  - pose proof (send_pty_out_cases Pong s) as Hc. destruct (send_pty_out Pong s); [done| |].
    + intros [= <-]. left. simpl. eauto 10.
    + destruct Hc as (_ & _ & ->). intros [= <-]. left. simpl. eauto 10.
  - intros [= <-]. left. simpl. eauto 10.
  - intros [= <-]. simpl. auto 10.
  - intros [= <-]. simpl. auto 10.
Qed.

Lemma serve_task_clock ev s s' :
  sv_phase s = Running → is_operator_event ev = false → serve_step ev s = Some s' →
  sv_now s' = match ev with EvElapse d => sv_now s + d | _ => sv_now s end.
Proof.
  intros Hp He E. unfold serve_step in E. rewrite Hp in E. destruct ev as [| |c|chunk|ok|ok| |f|r| |d|]; try done.
  - by apply serve_pty_reply_cases in E as [[-> _]|(-> & _)].
  - apply serve_pty_read_cases in E. destruct chunk; [by destruct E as [[-> _]|(-> & _)]|by rewrite E].
  - unfold serve_pty_write in E. destruct (sv_pty_in s), (sv_writing s), ok; try done; by injection E as <-.
  - unfold serve_send in E. rewrite ?Hp in E. destruct (sv_pty_out s), (sv_sending s), ok; try done; injection E as <-;
      [done|]. simpl. by rewrite Hp.
  - unfold serve_ping in E. destruct (sv_now s <? sv_next_ping s); [done|].
    pose proof (send_pty_out_cases Ping s) as Hc. destruct (send_pty_out Ping s); [done..|].
    destruct Hc as (_ & _ & ->). by injection E as <-.
  - by injection E as <-.
Qed.

(** The clock of the pending read and the frame that waits follow the history. *)
Lemma serve_step_history ev s s' :
  sv_phase s = Running → sv_phase s' = Running → serve_step ev s = Some s' → sv_wait s ≤ sv_now s →
  sv_now s' - sv_wait s' = idle_step (sv_now s - sv_wait s) ev ∧
  sv_blocked s' = wait_step (sv_blocked s) ev ∧ sv_wait s' ≤ sv_now s'.
Proof.
  intros Hp Hp' E Hw. pose proof (serve_step_ok _ _ _ E) as (_ & _ & _ & Hle). specialize (Hle Hw).
  destruct (is_operator_event ev) eqn:He.
  - unfold serve_step in E. rewrite Hp in E. destruct ev as [| |c|chunk|ok|ok| |f|r| |d|]; try done.
    + by injection E as <-.
    + by injection E as <-.
    + apply serve_block_cases in E as (_ & _ & ->). done.
    + apply serve_frame_hands in E as [E _].
      destruct (hand_on_running _ _ _ Hp E) as [(_ & [f ->] & -> & -> & ->)|[[H|H]|[H|H]]]; [|congruence..].
      simpl. split; [lia|]. split; [done|lia].
    + destruct (sv_blocked s); [done|]. destruct (_ <=? _); [|done]. by injection E as <-.
  - destruct (serve_task_step _ _ _ He E) as (-> & -> & _).
    assert (sv_now s' = match ev with EvElapse d => sv_now s + d | _ => sv_now s end) as ->
      by (by eapply serve_task_clock).
    destruct ev as [| |c|chunk|ok|ok| |f|r| |d|]; try done; simpl; (split; [lia|]; split; [done|lia]).
Qed.

Lemma serve_run_history tr : ∀ s s',
  serve_run tr s = Some s' → sv_phase s' = Running → sv_wait s ≤ sv_now s →
  sv_now s' - sv_wait s' = foldl idle_step (sv_now s - sv_wait s) tr ∧
  sv_blocked s' = foldl wait_step (sv_blocked s) tr ∧ sv_wait s' ≤ sv_now s'.
Proof.
  induction tr as [|ev tr IH]; intros s s'; [by intros [= <-]|].
  cbn [serve_run]. destruct (serve_step ev s) as [s1|] eqn:E; [|done]. simpl. intros Hr Hp' Hw.
  assert (sv_phase s1 = Running) as Hp1.
  { destruct (sv_phase s1) eqn:Ep; [done|..]; by destruct (serve_run_ended _ _ _ ltac:(by rewrite Ep) Hr). }
  assert (sv_phase s = Running) as Hp.
  { destruct (sv_phase s) eqn:Ep; [done|..]; by destruct (serve_step_ended _ _ _ ltac:(by rewrite Ep) E). }
  destruct (serve_step_history _ _ _ Hp Hp1 E Hw) as (<- & <- & Hw1). by apply IH.
Qed.

(** A frame that waits keeps the session from timing out. *)
Lemma serve_step_stuck f ev s s' :
  sv_phase s = Running → sv_blocked s = Some f → ev ≠ EvFrame (Ok (Some f)) → serve_step ev s = Some s' →
  (sv_phase s' = Running ∧ sv_blocked s' = Some f) ∨ (sv_phase s' ≠ Running ∧ ¬ ended_by TimedOut s').
Proof.
  intros Hp Hb Hne E. unfold ended_by. destruct (is_operator_event ev) eqn:He.
  - unfold serve_step in E. rewrite Hp in E. destruct ev as [| |c|chunk|ok|ok| |f'|r| |d|]; try done.
    + injection E as <-. right. simpl. by split; [|intros [|]].
    + injection E as <-. right. simpl. by split; [|intros [|]].
    + apply serve_block_cases in E as (E & _). congruence.
    + apply serve_frame_hands in E as [_ E]. rewrite (E f) in Hne by done. done.
    + by rewrite Hb in E.
  - destruct (serve_task_step _ _ _ He E) as (-> & _ & [->|[(_ & -> & _)|(why & Hd & _)]]);
      [by left| |congruence]. right. by split; [|intros [|]].
Qed.

Lemma ended_stays tr : ∀ s s',
  sv_phase s ≠ Running → ¬ ended_by TimedOut s → serve_run tr s = Some s' → ¬ ended_by TimedOut s'.
Proof.
  induction tr as [|ev tr IH]; intros s s' Hp Ht; [by intros [= <-]|].
  cbn [serve_run]. destruct (serve_step ev s) as [s1|] eqn:E; [|done]. simpl.
  destruct (serve_step_ended _ _ _ Hp E) as [Hp1 He]. apply IH; [done|].
  destruct (serve_task_step _ _ _ He E) as (_ & _ & H). unfold ended_by in *.
  destruct H as [->|[(? & _)|(why & Hd & ->)]]; [done..|]. rewrite Hd in Ht. intros [|[= ->]]; [done|]. by apply Ht; left.
Qed.

Lemma serve_run_stuck f tr : ∀ s s',
  sv_phase s = Running → sv_blocked s = Some f → EvFrame (Ok (Some f)) ∉ tr → serve_run tr s = Some s' →
  ¬ ended_by TimedOut s'.
Proof.
  induction tr as [|ev tr IH]; intros s s' Hp Hb Hn.
  - intros [= <-]. unfold ended_by. rewrite Hp. by intros [|].
  - cbn [serve_run]. destruct (serve_step ev s) as [s1|] eqn:E; [|done]. simpl.
    apply not_elem_of_cons in Hn as [Hne Hn].
    destruct (serve_step_stuck f ev s s1 Hp Hb (not_eq_sym Hne) E) as [[Hp1 Hb1]|[Hp1 Ht]]; [by apply IH|by apply ended_stays].
Qed.

Lemma answer_frames_out fs : ∀ out printed,
  answer_frames fs (mkWriter out None, mkWriter printed None) =
    (Ok tt, (mkWriter (out ++ concat (replicate (length (filter (λ f, f = Ping) fs)) (frame_bytes Pong))) None,
     mkWriter (printed ++ concat (omap (λ f, match f with Data l => Some l | _ => None end) fs)) None)).
Proof.
  induction fs as [|f fs IH]; intros out printed; [by rewrite !app_nil_r|].
  destruct f as [l|c r| |]; cbn [answer_frames].
  - erewrite sbind_Ok by reflexivity. cbn [snd fst]. rewrite IH, filter_cons_False by done. simpl. by rewrite <- app_assoc.
  - erewrite sbind_Ok by reflexivity. by rewrite IH, filter_cons_False by done.
  - rewrite filter_cons_True by done. unfold sbind at 1, ignoring, to_stream. cbn [fst snd].
    rewrite (write_frame_Ok Pong) by done. cbn [snd fst]. rewrite IH. simpl. by rewrite <- !app_assoc.
  - erewrite sbind_Ok by reflexivity. by rewrite IH, filter_cons_False by done.
Qed.

(** C16. Liveness of a session, from its start.  While it waits for a frame it times out exactly
    when 60 seconds have passed since the last frame was handed on, in which case it always
    can.  While a frame that was read waits for room in its channel it never does, however
    long that takes: the timeout covers the read alone.  A client running a command
    answers each ping with a pong, so the pings sent every 15 seconds keep it; the
    interactive client of the library answers none: what it sends depends on the typing
    alone, whatever it is sent. *)
Theorem session_liveness (info : NodeInfo) (shell : ShellKind) (tr : list serve_event) (s : ServeState)
    (Hr : serve_run tr (serve_start info shell) = Some s) (Hp : sv_phase s = Running) :
  (∀ s', serve_step EvTimeout s = Some s' ↔
     waiting_frame tr = None ∧ LIVENESS_TIMEOUT ≤ idle_time tr ∧ s' = close_session TimedOut s) ∧
  (∀ d, waiting_frame tr = None → LIVENESS_TIMEOUT ≤ idle_time tr + d →
     ∃ s', serve_run [EvElapse d; EvTimeout] s = Some s' ∧ sv_phase s' = Draining TimedOut) ∧
  (∀ f, waiting_frame tr = Some f →
     (∀ d, ∃ s', serve_step (EvElapse d) s = Some s' ∧ sv_phase s' = Running) ∧
     ∀ tr' s', serve_run tr' s = Some s' → EvFrame (Ok (Some f)) ∉ tr' → ¬ ended_by TimedOut s') ∧
  (∀ fs e command, Forall frame_ok fs → blen command + 8 < u16_modulus →
     let r := mkReader (byte_of_N AUTHORIZED :: concat (frame_bytes <$> fs)) e in
     (run_client (Some command) [] r (writer_new, writer_new)).2.1 =
       mkWriter (frame_bytes (Data (command ++ crlf ++ as_bytes "exit" ++ crlf)) ++
         concat (replicate (length (filter (λ f, f = Ping) fs)) (frame_bytes Pong))) None ∧
     (∀ stdin stdout, (run_client None stdin r (writer_new, stdout)).2.1 = send_stdin stdin writer_new)).
Proof.
  destruct (serve_run_history _ _ _ Hr Hp) as (Hi & Hb & Hw); [done|].
  change (foldl idle_step _ tr) with (idle_time tr) in Hi. change (foldl wait_step _ tr) with (waiting_frame tr) in Hb.
  split; [|split; [|split]].
  - intros s'. unfold serve_step. rewrite Hp, Hb, Hi. destruct (waiting_frame tr); [by split; [|intros [? _]]|].
    destruct (N.leb_spec LIVENESS_TIMEOUT (idle_time tr)); (split; [intros [= <-]; done|intros (_ & ? & ->)]); [done|lia].
  - intros d Hn Hd. exists (close_session TimedOut (set_clock (sv_now s + d) (sv_wait s) (sv_next_ping s) s)).
    split; [|done]. simpl. unfold serve_step. rewrite Hp. simpl. rewrite Hp, Hb, Hn.
    destruct (N.leb_spec LIVENESS_TIMEOUT (sv_now s + d - sv_wait s)); [done|lia].
  - intros f Hf. rewrite Hf in Hb. split.
    + intros d. unfold serve_step. rewrite Hp. eexists. split; [done|exact Hp].
    + intros tr' s' Hr' Hn. by eapply serve_run_stuck.
  - intros fs e command Hfs Hc r.
    assert (read_exact 1 r = (Ok [byte_of_N AUTHORIZED], mkReader (concat (frame_bytes <$> fs)) e)) as Er
      by (apply (read_exact_app 1 [byte_of_N AUTHORIZED]); done).
    assert (frames_of (mkReader (concat (frame_bytes <$> fs)) e) = fs) as Ef
      by (apply read_frames_bytes; [done|simpl; lia]).
    assert (frame_ok (Data (command ++ crlf ++ as_bytes "exit" ++ crlf))) as Hok.
    { simpl. rewrite blen_app. change (blen (crlf ++ as_bytes "exit" ++ crlf)) with 8. exact Hc. }
    unfold run_client. rewrite Er. rewrite bool_decide_eq_true_2 by done. cbn [negb]. rewrite Ef. split.
    + unfold smap_err, sbind, to_stream, writer_new. cbn [fst snd]. rewrite write_frame_Ok by done. cbn [fst snd].
      by rewrite answer_frames_out.
    + intros stdin stdout. cbn [fst snd]. by destruct (interactive_frames fs stdout).
Qed.

(** ** Witnesses *)

Definition sample_info : NodeInfo := mkNodeInfo "peer" "host" "linux" "x86_64" "0.1.0" false false.
Definition sample_session : ServeState := serve_start sample_info Bash.

Definition sample_trace : list serve_event :=
  [EvFrame (Ok (Some (Data (as_bytes "ls")))); EvPtyWrite true; EvPtyReply (DSR_REQUEST ++ [x24]);
   EvPtyRead (Some (DSR_REQUEST ++ [x24])); EvFrame (Ok (Some Ping)); EvSend true; EvElapse 15000; EvPing].

Definition sample_end : ServeState :=
  Eval vm_compute in default sample_session (serve_run sample_trace sample_session).

Lemma sample_runs : serve_run sample_trace (serve_start sample_info Bash) = Some sample_end.
Proof. vm_compute. reflexivity. Qed.

Lemma serve_session_delivers_witness :
  sv_sizes sample_end = [] ∧
  delivered (sv_writing sample_end) (sv_pty_written sample_end) (sv_pty_in sample_end)
    (concat (ev_input <$> sample_trace)).
Proof.
  destruct (serve_session_delivers sample_info Bash sample_trace sample_end sample_runs) as (H1 & _ & H3).
  split; [exact H3|exact H1].
Defined.

Lemma revocation_is_final_witness :
  serve_step EvRevoked sample_session = Some (close_session Revoked sample_session).
Proof.
  assert (serve_run [EvRevoked; EvElapse 1] sample_session
    = Some (set_clock 1 0 KEEPALIVE_INTERVAL (close_session Revoked sample_session))) as Hr by reflexivity.
  assert (sv_phase sample_session = Running) as Hp by reflexivity.
  exact (proj1 (revocation_is_final _ _ _ Hp Hr)).
Defined.

(** A shell that reads nothing: its channel is full, and the next frame waits. *)
Definition stuck_trace : list serve_event :=
  replicate CHANNEL (EvFrame (Ok (Some (Data [x61])))) ++ [EvBlock (Data [x62]); EvElapse 600000].

Definition stuck_end : ServeState := Eval vm_compute in default sample_session (serve_run stuck_trace sample_session).

Lemma session_liveness_witness :
  (∃ s', serve_run [EvElapse 60000; EvTimeout] sample_session = Some s' ∧ sv_phase s' = Draining TimedOut) ∧
  idle_time stuck_trace = 600000 ∧ serve_step EvTimeout stuck_end = None ∧
  ∃ s', serve_run [EvPtyWrite true; EvFrame (Ok (Some (Data [x62]))); EvElapse 60000; EvTimeout] stuck_end = Some s' ∧
    sv_phase s' = Draining TimedOut.
Proof.
  assert (serve_run [] (serve_start sample_info Bash) = Some sample_session) as Hr by reflexivity.
  destruct (session_liveness sample_info Bash [] sample_session Hr eq_refl) as (_ & H & _).
  split; [apply H; vm_compute; [reflexivity|discriminate]|]. split; [vm_compute; reflexivity|].
  assert (serve_run stuck_trace (serve_start sample_info Bash) = Some stuck_end) as Hs by (vm_compute; reflexivity).
  destruct (session_liveness sample_info Bash stuck_trace stuck_end Hs eq_refl) as (Ht & _).
  split.
  - destruct (serve_step EvTimeout stuck_end) as [s'|]; [|reflexivity].
    destruct (proj1 (Ht s') eq_refl) as (E & _). vm_compute in E. discriminate E.
  - eexists. split; [vm_compute; reflexivity|reflexivity].
Defined.
