(* ===== verification/Mnemonic.v ===== *)
(** Owner mnemonics ([crates/fortiq-core/src/authority/mnemonic.rs]): the word list
    and its binary search, the 24-word encoding of 256 bits of entropy with its
    checksum, and the seeds derived from it.

    SHA-256 and HKDF are interfaces.  The bit and byte arrays are filled position by
    position; here they are the lists of their cells. *)

From S2P Require Import Prelude Text Object Concrete Wordlist Authority Config.

Definition MNEMONIC_KDF_SALT : bytes := as_bytes "FORTIQ-MNEMONIC-KDF-SALT-v1:".
Definition ROOT_SIGNING_INFO : bytes := as_bytes "FORTIQ-OWNER-ROOT-SIGNING-v1:".
Definition SEGMENT_MASTER_INFO : bytes := as_bytes "FORTIQ-OWNER-SEGMENT-MASTER-v1:".
Definition OPERATOR_SESSION_INFO : bytes := as_bytes "FORTIQ-OPERATOR-SESSION-v1:".

Record MnemonicEntropy := mkEntropy { entropy_bytes : vec byte 32 }.
Record OwnerRootSigningSeed := mkRootSeed { root_seed_bytes : vec byte 32 }.
Record OperatorSessionSeed := mkSessionSeed { session_seed_bytes : vec byte 32 }.

(** ** The word list *)

(** [str::lines] cuts at line feeds; trimming takes off what else ends a line. *)
Fixpoint lines_bytes (l cur : bytes) : list bytes :=
  match l with
  | [] => flush_word cur
  | b :: l => if Byte.to_N b =? 10 then cur :: lines_bytes l [] else lines_bytes l (cur ++ [b])
  end.

Definition lines (s : string) : list string := from_bytes <$> lines_bytes (as_bytes s) [].

Definition get_wordlist : list string :=
  filter (λ s, s ≠ ""%string) (trim <$> lines bip39_english).

(** [slice::binary_search_by]. *)
Fixpoint binary_search_loop {A} (cmp : A → comparison) (l : list A) (fuel size base : nat) : nat :=
  match fuel with
  | O => base
  | S fuel =>
      if (size <=? 1)%nat then base else
      let half := (size / 2)%nat in
      let mid := (base + half)%nat in
      let base := match cmp <$> l !! mid with Some Gt => base | _ => mid end in
      binary_search_loop cmp l fuel (size - half) base
  end.

Definition binary_search_by {A} (cmp : A → comparison) (l : list A) : option nat :=
  match l with
  | [] => None
  | _ =>
      let base := binary_search_loop cmp l (length l) (length l) 0 in
      match cmp <$> l !! base with
      | Some Eq => Some base
      | _ => None
      end
  end.

(** [word_to_index] on a word list; the index fits a [u16]. *)
Definition word_to_index (words : list string) (word : string) : option N :=
  N.of_nat <$> binary_search_by (λ probe, str_cmp probe word) words.

(** ** Encoding *)

Inductive MnemonicError :=
| InvalidWordCount (n : nat)
| UnknownWord (word : string)
| InvalidChecksum
| DerivationFailed.

Fixpoint find_words (words : list string) (phrase : list string) : result MnemonicError (list N) :=
  match phrase with
  | [] => Ok []
  | word :: phrase =>
      let? idx := ok_or (word_to_index words word) (UnknownWord word) in
      let? indices := find_words words phrase in
      Ok (idx :: indices)
  end.

(** [((n >> (width - 1 - bit)) & 1) == 1] for the bits of one number. *)
Definition number_bits (width : nat) (n : N) : list bool :=
  (λ bit, N.land (N.shiftr n (N.of_nat (width - 1 - bit))) 1 =? 1) <$> seq 0 width.

(** The array of bits of a list of numbers of one width. *)
Definition fill_bits (width : nat) (l : list N) : list bool := concat (number_bits width <$> l).

(** [if bits[i * width + bit] { n |= 1 << (width - 1 - bit) }]. *)
Definition read_number (width : nat) (bits : list bool) (i : nat) : N :=
  foldl (λ n bit, if default false (bits !! (i * width + bit)%nat)
                  then N.lor n (N.shiftl 1 (N.of_nat (width - 1 - bit))) else n) 0 (seq 0 width).

Definition read_numbers (width count : nat) (bits : list bool) : list N :=
  read_number width bits <$> seq 0 count.

Section mnemonic.
Context `{SHA : Sha256}.

Definition checksum (entropy : bytes) : N := Byte.to_N (default x00 (vec_to_list (sha256 entropy) !! 0%nat)).

Definition parse_mnemonic_phrase (phrase : string) : result MnemonicError MnemonicEntropy :=
let words := split_whitespace phrase in
if negb (length words =? 24)%nat then Err (InvalidWordCount (length words)) else
let? indices := find_words get_wordlist words in
let bits := fill_bits 11 indices in
let numbers := read_numbers 8 33 bits in
let entropy := byte_of_N <$> take 32 numbers in
let expected_checksum := default 0 (numbers !! 32%nat) in
if negb (checksum entropy =? expected_checksum) then Err InvalidChecksum else
Ok (mkEntropy (vec32_of entropy)).

Definition entropy_to_mnemonic (entropy : MnemonicEntropy) : string :=
let entropy := vec_to_list (entropy_bytes entropy) in
let numbers := (Byte.to_N <$> entropy) ++ [checksum entropy] in
let bits := fill_bits 8 numbers in
join x20 ((λ idx, default ""%string (get_wordlist !! N.to_nat idx)) <$> read_numbers 11 24 bits).
End mnemonic.

(** ** Derived seeds *)

(** [Hkdf::<Sha256>::new(salt, ikm)] expanded to 32 bytes. *)
Class Hkdf := { hkdf_expand : bytes → bytes → bytes → option (vec byte 32) }.

(** Expansion fails only past 255 blocks. *)
Class HkdfLaws `{Hkdf} := { hkdf_expand_ok salt ikm info : is_Some (hkdf_expand salt ikm info) }.

Section deriver.
Context `{HK : Hkdf}.

Definition expand_seed (entropy : MnemonicEntropy) (info : bytes) : result MnemonicError (vec byte 32) :=
ok_or (hkdf_expand MNEMONIC_KDF_SALT (vec_to_list (entropy_bytes entropy)) info) DerivationFailed.

Definition derive_root_signing_seed (entropy : MnemonicEntropy)
  : result MnemonicError OwnerRootSigningSeed :=
let? okm := expand_seed entropy ROOT_SIGNING_INFO in
Ok (mkRootSeed okm).

Definition derive_segment_master_seed (entropy : MnemonicEntropy)
  : result MnemonicError OwnerSegmentMasterSeed :=
let? okm := expand_seed entropy SEGMENT_MASTER_INFO in
Ok okm.

Definition derive_operator_session_seed (entropy : MnemonicEntropy) (session_nonce : vec byte 16)
  : result MnemonicError OperatorSessionSeed :=
let? okm := expand_seed entropy (OPERATOR_SESSION_INFO ++ vec_to_list session_nonce) in
Ok (mkSessionSeed okm).
End deriver.

(** ** Bits *)

Lemma lookup_concat_const {A B} (f : A → list B) w (l : list A) : ∀ i j,
  (∀ x, x ∈ l → length (f x) = w) → (j < w)%nat →
  concat (f <$> l) !! (i * w + j)%nat = x ← l !! i; f x !! j.
Proof.
  induction l as [|x l IH]; intros i j Hl Hj; [by rewrite !lookup_nil|].
  cbn [fmap list_fmap concat]. assert (length (f x) = w) as Hx by (apply Hl; left).
  destruct i as [|i]; simpl.
  - by rewrite lookup_app_l by lia.
  - rewrite lookup_app_r by lia. replace (w + i * w + j - length (f x))%nat with (i * w + j)%nat by lia.
    apply IH; [|done]. intros y Hy. apply Hl. by right.
Qed.

Lemma length_concat_const {A B} (f : A → list B) w (l : list A) :
  (∀ x, x ∈ l → length (f x) = w) → length (concat (f <$> l)) = (length l * w)%nat.
Proof.
  induction l as [|x l IH]; intros Hl; [done|]. cbn [fmap list_fmap concat length].
  rewrite length_app, IH by (intros; apply Hl; by right). rewrite (Hl x) by left. lia.
Qed.

Lemma length_number_bits w n : length (number_bits w n) = w.
Proof. unfold number_bits. by rewrite length_fmap, length_seq. Qed.

Lemma number_bits_lookup w n j :
  (j < w)%nat → number_bits w n !! j = Some (N.testbit n (N.of_nat (w - 1 - j))).
Proof.
  intros Hj. unfold number_bits. rewrite list_lookup_fmap, lookup_seq_lt by done. simpl. f_equal.
  rewrite (N.land_ones _ 1), N.shiftr_div_pow2. rewrite N.testbit_eqb. apply eq_true_iff_eq.
  rewrite !N.eqb_eq. done.
Qed.

Lemma length_fill_bits w l : length (fill_bits w l) = (length l * w)%nat.
Proof. apply length_concat_const. intros x _. apply length_number_bits. Qed.

Lemma fill_bits_lookup w l i j n :
  (j < w)%nat → l !! i = Some n →
  fill_bits w l !! (i * w + j)%nat = Some (N.testbit n (N.of_nat (w - 1 - j))).
Proof.
  intros Hj Hi. unfold fill_bits. rewrite (lookup_concat_const _ w); [|intros; apply length_number_bits|done].
  rewrite Hi. simpl. by apply number_bits_lookup.
Qed.

(** The bits of what [read_number] reads, most significant first. *)
Lemma read_number_testbit w bits i k :
  N.testbit (read_number w bits i) k =
    (k <? N.of_nat w) && default false (bits !! (i * w + (w - 1 - N.to_nat k))%nat).
Proof.
  unfold read_number.
  assert (∀ m, (m ≤ w)%nat → ∀ k,
    N.testbit (foldl (λ n bit, if default false (bits !! (i * w + bit)%nat)
      then N.lor n (N.shiftl 1 (N.of_nat (w - 1 - bit))) else n) 0 (seq 0 m)) k =
    (N.of_nat (w - m) <=? k) && (k <? N.of_nat w) && default false (bits !! (i * w + (w - 1 - N.to_nat k))%nat)) as H.
  { induction m as [|m IH]; intros Hm k'.
    - cbn [seq foldl]. rewrite N.bits_0. symmetry. apply andb_false_intro1.
      destruct (N.leb_spec (N.of_nat (w - 0)) k'), (N.ltb_spec k' (N.of_nat w)); try done. lia.
    - rewrite seq_S, foldl_app. cbn [foldl].
      rewrite Nat.add_0_l.
      assert (N.testbit (N.shiftl 1 (N.of_nat (w - 1 - m))) k' = (k' =? N.of_nat (w - 1 - m))) as Hs.
      { rewrite N.shiftl_1_l, N.pow2_bits_eqb. apply N.eqb_sym. }
      destruct (default false (bits !! (i * w + m)%nat)) eqn:Eb.
      + rewrite N.lor_spec, IH, Hs by lia. clear Hs. destruct (N.eqb_spec k' (N.of_nat (w - 1 - m))) as [->|Hne].
        * rewrite Nat2N.id. replace (w - 1 - (w - 1 - m))%nat with m by lia. rewrite Eb, orb_true_r.
          symmetry. apply andb_true_intro. split; [|done]. apply andb_true_intro. split; [apply N.leb_le|apply N.ltb_lt]; lia.
        * rewrite orb_false_r. f_equal. f_equal. apply eq_true_iff_eq. rewrite !N.leb_le. lia.
      + rewrite IH by lia. clear Hs. destruct (N.eqb_spec k' (N.of_nat (w - 1 - m))) as [->|Hne].
        * rewrite Nat2N.id. replace (w - 1 - (w - 1 - m))%nat with m by lia. by rewrite Eb, !andb_false_r.
        * f_equal. f_equal. apply eq_true_iff_eq. rewrite !N.leb_le. lia. }
  rewrite H by lia. f_equal. destruct (N.leb_spec (N.of_nat (w - w)) k); [done|lia].
Qed.

Lemma read_number_lt w bits i : read_number w bits i < 2 ^ N.of_nat w.
Proof.
  destruct (N.eq_dec (read_number w bits i) 0) as [->|Hn]; [apply N.neq_0_lt_0, N.pow_nonzero; lia|].
  apply N.log2_lt_pow2; [lia|]. pose proof (N.bit_log2 _ Hn) as H. rewrite read_number_testbit in H.
  apply andb_true_iff in H as [H _]. by apply N.ltb_lt in H.
Qed.

(** Reading back the numbers the bits were filled from. *)
Lemma read_numbers_fill w l :
  (∀ n, n ∈ l → n < 2 ^ N.of_nat w) → read_numbers w (length l) (fill_bits w l) = l.
Proof.
  intros Hl. apply list_eq. intros i. unfold read_numbers. rewrite list_lookup_fmap.
  destruct (decide (i < length l)%nat) as [Hi|Hi].
  - rewrite lookup_seq_lt by done. simpl. destruct (lookup_lt_is_Some_2 l i Hi) as [n Hn]. rewrite Hn. f_equal.
    apply N.bits_inj. intros k. rewrite read_number_testbit. destruct (N.ltb_spec k (N.of_nat w)) as [Hk|Hk].
    + rewrite (fill_bits_lookup w l i _ n) by (lia || done). simpl. f_equal. lia.
    + simpl. symmetry. apply list_elem_of_lookup_2, Hl in Hn.
      destruct (N.eq_dec n 0) as [->|Hz]; [apply N.bits_0|]. apply N.bits_above_log2.
      apply N.log2_lt_pow2 in Hn; lia.
  - rewrite lookup_seq_ge by lia. rewrite lookup_ge_None_2 by lia. done.
Qed.

(** Filling the bits from the numbers read from them. *)
Lemma fill_bits_read w count bits :
  (0 < w)%nat → length bits = (count * w)%nat → fill_bits w (read_numbers w count bits) = bits.
Proof.
  intros Hw Hl. apply list_eq. intros p.
  assert (length (read_numbers w count bits) = count) as Hc by (unfold read_numbers; by rewrite length_fmap, length_seq).
  destruct (decide (p < count * w)%nat) as [Hp|Hp].
  - pose proof (Nat.div_mod_eq p w) as Hdm. pose proof (Nat.mod_upper_bound p w ltac:(lia)) as Hm.
    rewrite Hdm, (Nat.mul_comm w). set (i := (p / w)%nat) in *. set (j := (p mod w)%nat) in *.
    assert (i < count)%nat as Hi by nia.
    rewrite (fill_bits_lookup w _ i j (read_number w bits i));
      [|done|unfold read_numbers; rewrite list_lookup_fmap, lookup_seq_lt by done; done].
    rewrite read_number_testbit. assert ((N.of_nat (w - 1 - j) <? N.of_nat w) = true) as -> by (apply N.ltb_lt; lia).
    rewrite Nat2N.id. replace (w - 1 - (w - 1 - j))%nat with j by lia. simpl.
    destruct (lookup_lt_is_Some_2 bits (i * w + j) ltac:(lia)) as [b Hb]. by rewrite Hb.
  - rewrite !lookup_ge_None_2; [done|lia|]. rewrite length_fill_bits, Hc. lia.
Qed.

(** ** Binary search *)

(** Strictly increasing, neighbour by neighbour. *)
Fixpoint increasing (l : list string) : bool :=
  match l with
  | x :: (y :: _) as t => match str_cmp x y with Lt => increasing t | _ => false end
  | _ => true
  end.

Lemma increasing_lookup l : increasing l = true → ∀ i j a b,
  (i < j)%nat → l !! i = Some a → l !! j = Some b → str_cmp a b = Lt.
Proof.
  induction l as [|x l IH]; intros Hl i j a b Hij Ha Hb; [done|].
  assert (increasing l = true ∧ (∀ y, l !! 0%nat = Some y → str_cmp x y = Lt)) as [Hl' H0].
  { destruct l as [|y l]; [done|]. simpl in Hl. destruct (str_cmp x y) eqn:E; try done.
    split; [exact Hl|]. by intros ? [= <-]. }
  destruct j as [|j]; [lia|]. simpl in Hb. destruct i as [|i].
  - injection Ha as <-. destruct j as [|j]; [by apply H0|].
    destruct (l !! 0%nat) as [y|] eqn:E0; [|by destruct l].
    apply (cmp_lt_trans (cmp := str_cmp)) with y; [by apply H0|]. by apply (IH Hl' 0%nat (S j) y b); [lia| |].
  - simpl in Ha. by apply (IH Hl' i j a b); [lia| |].
Qed.

Lemma binary_search_loop_found l w t : increasing l = true → l !! t = Some w →
  ∀ fuel size base, (size ≤ fuel)%nat → (base ≤ t < base + size)%nat → (base + size ≤ length l)%nat →
  binary_search_loop (λ p, str_cmp p w) l fuel size base = t.
Proof.
  intros Hl Ht. induction fuel as [|fuel IH]; intros size base Hf Hb Hlen; [lia|]. cbn [binary_search_loop].
  destruct (Nat.leb_spec size 1) as [Hs|Hs]; [lia|]. set (half := (size / 2)%nat).
  assert (1 ≤ half ∧ half + half ≤ size)%nat as [H1 H2].
  { unfold half. pose proof (Nat.div_mod_eq size 2). pose proof (Nat.mod_upper_bound size 2). lia. }
  destruct (l !! (base + half)%nat) as [p|] eqn:Ep; simpl.
  - destruct (str_cmp p w) eqn:Ec.
    + apply cmp_eq in Ec as ->. apply IH; [lia| |lia]. split; [|lia].
      destruct (decide (base + half ≤ t)%nat); [done|].
      pose proof (increasing_lookup l Hl t (base + half)%nat w w ltac:(lia) Ht Ep) as Hlt.
      assert (str_cmp w w = Eq) by (by apply cmp_eq). congruence.
    + apply IH; [lia| |lia]. split; [|lia]. destruct (decide (base + half ≤ t)%nat); [done|].
      pose proof (increasing_lookup l Hl t (base + half)%nat w p ltac:(lia) Ht Ep) as Hlt.
      pose proof (cmp_lt_trans (cmp := str_cmp) _ _ _ Hlt Ec) as Hww.
      assert (str_cmp w w = Eq) by (by apply cmp_eq). congruence.
    + apply IH; [lia| |lia]. split; [lia|]. destruct (decide (t < base + half)%nat); [lia|].
      assert (t ≠ base + half)%nat as Hne.
      { intros ->. rewrite Ht in Ep. injection Ep as <-.
        assert (str_cmp w w = Eq) by (by apply cmp_eq). congruence. }
      pose proof (increasing_lookup l Hl (base + half)%nat t p w ltac:(lia) Ep Ht). congruence.
  - apply lookup_ge_None in Ep. apply lookup_lt_Some in Ht. lia.
Qed.

Lemma word_to_index_spec words w n :
  increasing words = true → word_to_index words w = Some n ↔ words !! N.to_nat n = Some w.
Proof.
  intros Hl. unfold word_to_index, binary_search_by. destruct words as [|x l] eqn:Ew.
  { split; [done|]. by rewrite lookup_nil. }
  rewrite <- Ew in *. clear x l Ew. split.
  - set (base := binary_search_loop _ _ _ _ _). destruct (words !! base) as [p|] eqn:Ep; [|done]. simpl.
    destruct (str_cmp p w) eqn:Ec; [|done..]. intros [= <-]. apply cmp_eq in Ec as ->. by rewrite Nat2N.id.
  - intros Hw. rewrite (binary_search_loop_found words w (N.to_nat n)); [|done|done|done| |done].
    + rewrite Hw. simpl. assert (str_cmp w w = Eq) as -> by (by apply cmp_eq). simpl. by rewrite N2Nat.id.
    + apply lookup_lt_Some in Hw. lia.
Qed.

(** ** The word list *)

Definition word_ok (s : string) : bool :=
  negb (bool_decide (s = ""%string)) && forallb is_graph (as_bytes s).

Lemma wordlist_facts :
  increasing get_wordlist && forallb word_ok get_wordlist && (length get_wordlist =? 2048)%nat = true.
Proof. vm_compute. reflexivity. Qed.

Lemma wordlist_increasing : increasing get_wordlist = true.
Proof. pose proof wordlist_facts as H. by bool_props. Qed.

Lemma wordlist_length : length get_wordlist = 2048%nat.
Proof. pose proof wordlist_facts as H. apply andb_true_iff in H as [_ H]. by apply Nat.eqb_eq in H. Qed.

Lemma wordlist_words w : w ∈ get_wordlist → is_word (as_bytes w).
Proof.
  intros Hw. pose proof wordlist_facts as H. bool_props.
  match goal with H : forallb word_ok _ = true |- _ => rewrite forallb_forall in H;
    apply list_elem_of_In in Hw; specialize (H _ Hw) as Hok end.
  unfold word_ok in Hok. bool_props. split.
  - intros E. apply H2. by apply as_bytes_inj.
  - apply Forall_forall. intros b Hb. rewrite forallb_forall in H3. apply H3. by apply list_elem_of_In.
Qed.

#[global] Opaque get_wordlist.

(** ** Round trips *)

Lemma find_words_Ok ws ns :
  find_words get_wordlist ws = Ok ns ↔ Forall2 (λ w n, get_wordlist !! N.to_nat n = Some w) ws ns.
Proof.
  revert ns. induction ws as [|w ws IH]; intros ns; simpl.
  { split; [intros [= <-]; constructor|]. by inversion 1. }
  destruct (word_to_index get_wordlist w) as [n|] eqn:E; simpl.
  - apply (word_to_index_spec _ _ _ wordlist_increasing) in E.
    destruct (find_words get_wordlist ws) as [ns'|e]; simpl.
    + split.
      * intros [= <-]. constructor; [done|]. by apply IH.
      * intros H. inversion H as [|? n' ? ns'' Hn Hns]; subst. apply IH in Hns as [= ->]. do 2 f_equal.
        apply (word_to_index_spec _ _ _ wordlist_increasing) in E, Hn. congruence.
    + split; [done|]. intros H. inversion H as [|? n' ? ns'' Hn Hns]; subst. by apply IH in Hns.
  - split; [done|]. intros H. inversion H as [|? n' ? ns'' Hn Hns]; subst.
    apply (word_to_index_spec _ _ _ wordlist_increasing) in Hn. congruence.
Qed.

Lemma read_numbers_lt w c bits n : n ∈ read_numbers w c bits → n < 2 ^ N.of_nat w.
Proof. intros [i [-> _]]%list_elem_of_fmap. apply read_number_lt. Qed.

Lemma length_read_numbers w c bits : length (read_numbers w c bits) = c.
Proof. unfold read_numbers. by rewrite length_fmap, length_seq. Qed.

Lemma Forall2_eq_words ws ws' ns :
  Forall2 (λ w n, get_wordlist !! N.to_nat n = Some w) ws ns →
  Forall2 (λ w n, get_wordlist !! N.to_nat n = Some w) ws' ns → ws = ws'.
Proof.
  intros H. revert ws'. induction H as [|w n ws ns Hw _ IH]; intros ws' H'; inversion H'; subst; [done|].
  f_equal; [congruence|by apply IH].
Qed.

Lemma vec32_list l : length l = 32%nat → vec_to_list (vec32_of l) = l.
Proof.
  intros H. rewrite <- (vec_to_list_to_vec l). generalize (list_to_vec l). rewrite H.
  intros v. by rewrite vec32_of_vec.
Qed.

Section roundtrip.
Context `{SHA : Sha256}.

(** The 33 numbers that encode an entropy. *)
Definition entropy_numbers (e : MnemonicEntropy) : list N :=
  (Byte.to_N <$> vec_to_list (entropy_bytes e)) ++ [checksum (vec_to_list (entropy_bytes e))].

Definition entropy_indices (e : MnemonicEntropy) : list N :=
  read_numbers 11 24 (fill_bits 8 (entropy_numbers e)).

Lemma entropy_numbers_length e : length (entropy_numbers e) = 33%nat.
Proof. unfold entropy_numbers. by rewrite length_app, length_fmap, length_vec_to_list. Qed.

Lemma entropy_numbers_lt e n : n ∈ entropy_numbers e → n < 2 ^ N.of_nat 8.
Proof.
  unfold entropy_numbers. rewrite elem_of_app, list_elem_of_fmap, list_elem_of_singleton.
  intros [(b & -> & _)| ->]; apply to_N_lt.
Qed.

(** The same 264 bits, eleven by eleven and eight by eight. *)
Lemma indices_numbers e : read_numbers 8 33 (fill_bits 11 (entropy_indices e)) = entropy_numbers e.
Proof.
  unfold entropy_indices. rewrite fill_bits_read;
    [|lia|by rewrite length_fill_bits, entropy_numbers_length].
  rewrite <- (entropy_numbers_length e). apply read_numbers_fill, entropy_numbers_lt.
Qed.

Lemma numbers_indices ns e :
  length ns = 24%nat → (∀ n, n ∈ ns → n < 2 ^ N.of_nat 11) →
  read_numbers 8 33 (fill_bits 11 ns) = entropy_numbers e → ns = entropy_indices e.
Proof.
  intros Hl Hlt E. unfold entropy_indices. rewrite <- E.
  rewrite fill_bits_read; [|lia|by rewrite length_fill_bits, Hl].
  rewrite <- Hl. symmetry. by apply read_numbers_fill.
Qed.

Lemma indices_words e : ∃ ws,
  Forall2 (λ w n, get_wordlist !! N.to_nat n = Some w) ws (entropy_indices e) ∧
  entropy_to_mnemonic e = join x20 ws.
Proof.
  exists ((λ idx, default ""%string (get_wordlist !! N.to_nat idx)) <$> entropy_indices e). split; [|done].
  apply Forall2_fmap_l, Forall_Forall2_diag, Forall_forall. intros n Hn%read_numbers_lt. cbn beta.
  assert (N.to_nat n < length get_wordlist)%nat as Hlt.
  { rewrite wordlist_length. change (2 ^ N.of_nat 11) with 2048 in Hn. lia. }
  apply lookup_lt_is_Some_2 in Hlt as [w Hw]. unfold compose. by rewrite Hw.
Qed.

Lemma Forall2_words ws ns :
  Forall2 (λ w n, get_wordlist !! N.to_nat n = Some w) ws ns → Forall (λ w, is_word (as_bytes w)) ws.
Proof.
  induction 1 as [|w n ws ns Hw _ IH]; constructor; [|done].
  by apply wordlist_words, (list_elem_of_lookup_2 _ (N.to_nat n)).
Qed.

Lemma entropy_of_numbers e :
  vec32_of (byte_of_N <$> take 32 (entropy_numbers e)) = entropy_bytes e.
Proof.
  unfold entropy_numbers. rewrite take_app_length' by (by rewrite length_fmap, length_vec_to_list).
  rewrite <- list_fmap_compose. etrans; [|apply vec32_of_vec]. f_equal.
  etrans; [|apply list_fmap_id]. apply list_fmap_ext. intros i b _. apply byte_of_to_N.
Qed.

Lemma parse_encoded e : parse_mnemonic_phrase (entropy_to_mnemonic e) = Ok e.
Proof.
  destruct (indices_words e) as (ws & Hws & ->). unfold parse_mnemonic_phrase.
  rewrite split_whitespace_join by (by eapply Forall2_words). cbv zeta.
  assert (length ws = 24%nat) as Hl.
  { rewrite (Forall2_length _ _ _ Hws). apply length_read_numbers. }
  rewrite Hl. cbn [Nat.eqb negb]. apply find_words_Ok in Hws as ->. rewrite indices_numbers.
  assert (byte_of_N <$> take 32 (entropy_numbers e) = vec_to_list (entropy_bytes e)) as ->.
  { rewrite <- (entropy_of_numbers e), vec32_list; [done|].
    rewrite length_fmap, length_take, entropy_numbers_length. lia. }
  assert (entropy_numbers e !! 32%nat = Some (checksum (vec_to_list (entropy_bytes e)))) as ->.
  { unfold entropy_numbers. rewrite lookup_app_r by (by rewrite length_fmap, length_vec_to_list).
    by rewrite length_fmap, length_vec_to_list. }
  simpl. rewrite N.eqb_refl, vec32_of_vec. by destruct e.
Qed.

Lemma parse_accepts phrase e :
  parse_mnemonic_phrase phrase = Ok e → entropy_to_mnemonic e = join x20 (split_whitespace phrase).
Proof.
  unfold parse_mnemonic_phrase. cbv zeta.
  destruct (Nat.eqb_spec (length (split_whitespace phrase)) 24) as [Hl|_]; [|done]. cbn [negb].
  destruct (find_words get_wordlist (split_whitespace phrase)) as [ns|] eqn:Ens; [|done].
  apply find_words_Ok in Ens. set (numbers := read_numbers 8 33 (fill_bits 11 ns)).
  assert (length numbers = 33%nat) as Hn33 by apply length_read_numbers.
  assert (∀ n, n ∈ numbers → n < 256) as Hlt by (intros n; apply (read_numbers_lt 8)).
  set (l := byte_of_N <$> take 32 numbers).
  assert (length l = 32%nat) as Hl32 by (unfold l; rewrite length_fmap, length_take; lia).
  destruct (N.eqb_spec (checksum l) (default 0 (numbers !! 32%nat))) as [Hc|_]; [|done]. cbn [negb].
  intros [= <-]. destruct (indices_words (mkEntropy (vec32_of l))) as (ws & Hws & ->). f_equal.
  assert (numbers = entropy_numbers (mkEntropy (vec32_of l))) as En.
  { unfold entropy_numbers. cbn [entropy_bytes]. rewrite (vec32_list l Hl32).
    rewrite <- (take_drop 32 numbers) at 1. f_equal.
    - unfold l. rewrite <- list_fmap_compose. symmetry. etrans; [|apply list_fmap_id].
      apply list_fmap_ext. intros i n Hi. simpl. rewrite byte_to_of_N. apply N.mod_small, Hlt.
      apply lookup_take_Some in Hi as [Hi _]. by apply list_elem_of_lookup_2 in Hi.
    - destruct (numbers !! 32%nat) as [c|] eqn:Ec; [|apply lookup_ge_None in Ec; lia].
      rewrite (drop_S _ c) by done. rewrite drop_ge by lia. by rewrite Hc. }
  assert (ns = entropy_indices (mkEntropy (vec32_of l))) as E.
  { apply numbers_indices; [by rewrite <- (Forall2_length _ _ _ Ens)| |done].
    intros n Hn. apply list_elem_of_lookup in Hn as [i Hi].
    destruct (Forall2_lookup_r _ _ _ _ _ Ens Hi) as (w & _ & Hw). apply lookup_lt_Some in Hw.
    rewrite wordlist_length in Hw. change (2 ^ N.of_nat 11) with 2048. lia. }
  rewrite E in Ens. by apply (Forall2_eq_words _ _ _ Hws Ens).
Qed.
End roundtrip.

(** ** Properties *)

Lemma find_words_unknown ws w :
  find_words get_wordlist ws = Err (UnknownWord w) → w ∈ ws ∧ w ∉ get_wordlist.
Proof.
  induction ws as [|v ws IH]; simpl; [done|].
  destruct (word_to_index get_wordlist v) as [n|] eqn:E; simpl.
  - destruct (find_words get_wordlist ws) as [ns|e]; [done|]. intros [= ->].
    destruct (IH eq_refl). split; [by right|done].
  - intros [= <-]. split; [by left|]. intros [i Hi]%list_elem_of_lookup.
    assert (word_to_index get_wordlist v = Some (N.of_nat i)) as H; [|congruence].
    apply (word_to_index_spec _ _ _ wordlist_increasing). by rewrite Nat2N.id.
Qed.

(** C32. A mnemonic and its entropy determine each other: every entropy is encoded as a
    phrase that parses back to it, and every phrase the parser accepts is, up to
    white space, the encoding of what it gives.  Words are found by binary search
    exactly when they are in the list, at their index.  A phrase is refused with its
    number of words when they are not 24, and with a word only if the phrase has
    it and the list does not. *)
Theorem mnemonic_roundtrip `{Sha256} (e : MnemonicEntropy) (phrase : string) :
  parse_mnemonic_phrase (entropy_to_mnemonic e) = Ok e ∧
  (∀ e', parse_mnemonic_phrase phrase = Ok e' →
     entropy_to_mnemonic e' = join x20 (split_whitespace phrase)) ∧
  (∀ w n, word_to_index get_wordlist w = Some n ↔ get_wordlist !! N.to_nat n = Some w) ∧
  (∀ n, parse_mnemonic_phrase phrase = Err (InvalidWordCount n) ↔
     n = length (split_whitespace phrase) ∧ n ≠ 24%nat) ∧
  (∀ w, parse_mnemonic_phrase phrase = Err (UnknownWord w) →
     w ∈ split_whitespace phrase ∧ w ∉ get_wordlist).
Proof.
  split; [apply parse_encoded|]. split; [apply parse_accepts|].
  split; [intros; apply word_to_index_spec, wordlist_increasing|].
  unfold parse_mnemonic_phrase. cbv zeta.
  destruct (Nat.eqb_spec (length (split_whitespace phrase)) 24) as [Hl|Hl]; cbn [negb].
  - assert (∀ w, find_words get_wordlist (split_whitespace phrase) = Err w → ∃ v, w = UnknownWord v) as Hf.
    { generalize (split_whitespace phrase). induction l as [|v l IH]; simpl; [done|].
      destruct (word_to_index get_wordlist v); simpl; [|intros ? [= <-]; eauto].
      destruct (find_words get_wordlist l); [done|]. intros ? [= <-]. by apply IH. }
    destruct (find_words get_wordlist (split_whitespace phrase)) as [ns|e'] eqn:E.
    + destruct (negb _); (split; [intros n; split; [done|]; intros [-> ?]; lia|done]).
    + destruct (Hf _ eq_refl) as [v ->]. split.
      * intros n. split; [done|]. intros [-> ?]; lia.
      * intros w [= <-]. by apply find_words_unknown.
  - split; [|done]. intros n. split; [by intros [= <-]|]. by intros [-> _].
Qed.

(** The three kinds of seed are expansions under different labels, and session seeds
    under a label per nonce. *)
Lemma seed_labels_distinct (n m : vec byte 16) :
  ROOT_SIGNING_INFO ≠ SEGMENT_MASTER_INFO ∧
  ROOT_SIGNING_INFO ≠ OPERATOR_SESSION_INFO ++ vec_to_list n ∧
  SEGMENT_MASTER_INFO ≠ OPERATOR_SESSION_INFO ++ vec_to_list n ∧
  (OPERATOR_SESSION_INFO ++ vec_to_list n = OPERATOR_SESSION_INFO ++ vec_to_list m → n = m).
Proof.
  split; [discriminate|]. split; [discriminate|]. split; [discriminate|].
  intros E%app_inv_head. by apply vec_to_list_inj2.
Qed.
