(* ===== verification/Wire.v ===== *)
(** The wire types of the node and the proofs that requests carry
    ([crates/fortiq-p2p/src/node.rs]): the authority context taken from the genesis,
    what a session certificate must say about the peer that presents it, and the
    signed payloads of operator requests and of lifecycle mutations.

    The JSON of the request-response protocols is libp2p's; the types here are the
    values it carries. *)

From S2P Require Import Prelude Text Object Concrete Ticket Authority Codec Config Stream Shell.

Definition MAX_HELLO_BYTES : N := 16 * 1024.
Definition MAX_FILE_SIZE : N := 50 * 1024 * 1024.
Definition MAX_TICKET_STORAGE : N := 500 * 1024 * 1024.
Definition MAX_PARALLEL_FILES : nat := 2.
Definition FILE_ACCEPT : N := 0x01.
Definition FILE_DENIED : N := 0x00.
Definition FILE_DENIED_NO_TICKET : N := 0x02.
Definition FILE_DENIED_TICKET_CLOSED : N := 0x03.
Definition FILE_DENIED_TOO_LARGE : N := 0x04.

(** ** Types *)

(** [OperatorSessionProof] of the wire. *)
Record WireProof := mkWireProof { wp_certificate : bytes; wp_signature : bytes }.

Record TicketStateMutation := mkMutation {
  mu_network_id : NetworkId;
  mu_ticket_id : string;
  mu_expected_revision : N;
  mu_new_state : TicketState;
  mu_request_id : vec byte 16;
  mu_operator_transport_peer_id : string;
  mu_certificate : OperatorSessionCertificate;
  mu_signature : bytes
}.

Inductive TicketSyncRequest :=
| GetTickets (authority : option WireProof)
| GetTicketById (ticket_id : string) (authority : option WireProof)
| PushTicket (ticket : TicketRecord)
| UpdateStatusSigned (mutation : TicketStateMutation)
| GetHeads (network_id : NetworkId) (ticket_id : option string)
| GetObjects (ids : list ObjectId)
| PushObjects (objects : list SignedObject).

Inductive MutationRejectionKind := Permanent | Conflict.

Inductive TicketSyncResponse :=
| TrTickets (l : list TicketRecord)
| TrTicket (t : option TicketRecord)
| MutationApplied (t : TicketRecord)
| MutationRejected (kind : MutationRejectionKind) (message : string) (canonical : option TicketRecord)
| TrHeads (l : list ObjectId)
| TrObjects (l : list SignedObject)
| SyncAck (accepted rejected : nat).

Record ChatMessageWire := mkChatWire {
  cw_id : string;
  cw_ticket_id : string;
  cw_body : string;
  cw_created_at : N;
  cw_authority : option WireProof
}.

Record ChatAckWire := mkChatAck { ack_message_id : string; ack_success : bool; ack_error : option string }.

Record FileOfferWire := mkFileOffer {
  fo_ticket_id : string;
  fo_file_id : string;
  fo_filename : string;
  fo_file_size : N;
  fo_sha256 : string;
  fo_authority : option WireProof
}.

Definition is_ticket_mutation (r : TicketSyncRequest) : bool :=
  match r with PushTicket _ | UpdateStatusSigned _ | PushObjects _ => true | _ => false end.

(** ** Signed payloads *)

(** [(value.len() as u32).to_be_bytes()] and the value. *)
Definition sized (l : bytes) : bytes := be_bytes 4 (blen l) ++ l.

Definition MUTATION_DOMAIN : bytes := as_bytes "FORTIQ-TICKET-STATE-v1:".
Definition PROOF_DOMAIN : bytes := as_bytes "FORTIQ-SESSION-AUTH-v1:".

Definition Mutation_signing_payload (m : TicketStateMutation) : bytes :=
  MUTATION_DOMAIN ++ ObjectId_as_bytes (mu_network_id m) ++ sized (as_bytes (mu_ticket_id m)) ++
  be_bytes 8 (mu_expected_revision m) ++ [byte_of_N (TicketState_as_u8 (mu_new_state m))] ++
  vec_to_list (mu_request_id m) ++ sized (as_bytes (mu_operator_transport_peer_id m)).

Definition Proof_signing_payload (operation ticket_id request_id : string) (created_at : N)
    (content : bytes) (transport_peer_id : string) : bytes :=
  PROOF_DOMAIN ++
  concat (sized <$> [as_bytes operation; as_bytes ticket_id; as_bytes request_id; content;
                     as_bytes transport_peer_id]) ++
  be_bytes 8 created_at.

Section wire.
Context `{CC : Crypto, HX : Hex, LP : Libp2p, CB : Cbor OperatorSessionCertificate}.

Definition WireProof_from_certificate (certificate : OperatorSessionCertificate) (signature : bytes)
    : result CodecError WireProof :=
  let? certificate := to_canonical_cbor certificate in
  Ok (mkWireProof certificate signature).

(** ** Authority *)

Record AuthorityContext := mkAuthority {
  ac_network_id : NetworkId;
  ac_owner_id : OwnerId;
  ac_owner_verifier : Ed25519Verifier
}.

Definition AuthorityContext_from_genesis (genesis : Genesis) : result VerifyError AuthorityContext :=
  let? owner_verifier :=
    Ed25519Verifier_from_public_key (gt_owner_root_signing_public_key (gen_tbs genesis)) in
  Ok (mkAuthority (gt_network_id (gen_tbs genesis)) (gt_owner_id (gen_tbs genesis)) owner_verifier).

(** The entity of a transport peer. *)
Definition host_entity_of (p : PeerId) : EntityId := mkObjectId (blake3_hash (peer_id_to_bytes p)).

Definition verify_certificate (ctx : AuthorityContext) (remote_peer : PeerId)
    (c : OperatorSessionCertificate) (required_capability now : N) : bool :=
  bool_decide (cert_network_id c = ac_network_id ctx) &&
  bool_decide (cert_owner_id c = ac_owner_id ctx) &&
  bool_decide (cert_host_entity c = host_entity_of remote_peer) &&
  bool_decide (cert_operator_key_id c = derive_signing_key_id (cert_session_pubkey c)) &&
  Capabilities_has (cert_capabilities c) required_capability &&
  is_ok (Certificate_verify c (ac_owner_verifier ctx) now).

(** [Ed25519Verifier::from_public_key(…).and_then(|v| v.verify(…)).is_ok()]. *)
Definition session_key_signed (pubkey : PublicKey) (payload signature : bytes) : bool :=
  match Ed25519Verifier_from_public_key pubkey with
  | Ok verifier => is_ok (Ed25519Verifier_verify verifier payload signature)
  | Err _ => false
  end.

Definition verify_operator_session_proof (ctx : AuthorityContext) (remote_peer : PeerId)
    (proof : WireProof) (operation ticket_id request_id : string) (created_at : N) (content : bytes)
    (required_capability now : N) : bool :=
  match from_canonical_cbor (wp_certificate proof) LIMITS_CONTROL with
  | Err _ => false
  | Ok c =>
      if negb (verify_certificate ctx remote_peer c required_capability now) then false else
      session_key_signed (cert_session_pubkey c)
        (Proof_signing_payload operation ticket_id request_id created_at content
           (peer_id_to_string remote_peer))
        (wp_signature proof)
  end.

Definition is_ticket_counterparty (ticket : TicketRecord) (local : string) (remote : PeerId) : bool :=
  bool_decide (tr_client_peer_id ticket = peer_id_to_string remote) ||
  bool_decide (tr_client_peer_id ticket = local).
End wire.

(** ** What a signature binds *)

Lemma sized_app_inj a b x y :
  blen a < u32_modulus → blen b < u32_modulus → sized a ++ x = sized b ++ y → a = b ∧ x = y.
Proof.
  intros Ha Hb E. unfold sized in E. rewrite <- !app_assoc in E.
  apply app_inj_1 in E as [El E]; [|by rewrite !length_be_bytes].
  apply be_bytes_inj in El; [|exact Ha|exact Hb].
  apply app_inj_1 in E as [-> ->]; [done|]. unfold blen in El. lia.
Qed.

(** Lengths are cast to 32 bits and times to 64, so the fields must fit. *)
Record proof_fields_fit (op t r : string) (ca : N) (content : bytes) (p : string) : Prop := {
  pf_op : str_len op < u32_modulus;
  pf_ticket : str_len t < u32_modulus;
  pf_request : str_len r < u32_modulus;
  pf_content : blen content < u32_modulus;
  pf_peer : str_len p < u32_modulus;
  pf_time : ca < u64_modulus
}.

Lemma Proof_signing_payload_inj op t r ca c p op' t' r' ca' c' p' :
  proof_fields_fit op t r ca c p → proof_fields_fit op' t' r' ca' c' p' →
  Proof_signing_payload op t r ca c p = Proof_signing_payload op' t' r' ca' c' p' →
  op = op' ∧ t = t' ∧ r = r' ∧ ca = ca' ∧ c = c' ∧ p = p'.
Proof.
  intros [] [] E. unfold Proof_signing_payload in E. cbn [fmap list_fmap concat] in E.
  rewrite <- !app_assoc in E. cbn [app] in E. apply app_inv_head in E.
  do 5 (apply sized_app_inj in E as [? E]; [|assumption|assumption]).
  apply be_bytes_inj in E; [|assumption|assumption].
  repeat split; try assumption; by apply as_bytes_inj.
Qed.

Record mutation_fits (m : TicketStateMutation) : Prop := {
  mf_ticket : str_len (mu_ticket_id m) < u32_modulus;
  mf_peer : str_len (mu_operator_transport_peer_id m) < u32_modulus;
  mf_revision : mu_expected_revision m < u64_modulus
}.

Lemma Mutation_signing_payload_inj m m' :
  mutation_fits m → mutation_fits m' → Mutation_signing_payload m = Mutation_signing_payload m' →
  mu_network_id m = mu_network_id m' ∧ mu_ticket_id m = mu_ticket_id m' ∧
  mu_expected_revision m = mu_expected_revision m' ∧ mu_new_state m = mu_new_state m' ∧
  mu_request_id m = mu_request_id m' ∧
  mu_operator_transport_peer_id m = mu_operator_transport_peer_id m'.
Proof.
  intros [] [] E. unfold Mutation_signing_payload in E. apply app_inv_head in E.
  apply app_inj_1 in E as [En E]; [|by rewrite !length_ObjectId_as_bytes].
  apply ObjectId_as_bytes_inj in En.
  apply sized_app_inj in E as [Et E]; [|assumption|assumption].
  apply app_inj_1 in E as [Er E]; [|by rewrite !length_be_bytes].
  apply be_bytes_inj in Er; [|assumption|assumption].
  apply app_inj_1 in E as [Es E]; [|done].
  apply app_inj_1 in E as [Ei E]; [|by rewrite !length_vec_to_list].
  rewrite <- (app_nil_r (sized _)), <- (app_nil_r (sized (as_bytes (mu_operator_transport_peer_id m')))) in E.
  apply sized_app_inj in E as [Ep _]; [|assumption|assumption].
  apply as_bytes_inj in Et, Ep. apply vec_to_list_inj2 in Ei.
  repeat split; try assumption. destruct (mu_new_state m), (mu_new_state m'); done.
Qed.

(** ** What the operator proofs bind *)

Section proofs.
Context `{CC : Crypto, HX : Hex, LP : Libp2p, CB : Cbor OperatorSessionCertificate}.

Lemma domains_differ a b c : PROOF_DOMAIN ++ a ≠ MUTATION_DOMAIN ++ b ∧
  PROOF_DOMAIN ++ a ≠ SHELL_NEXT_SIGNATURE_DOMAIN ++ c ∧
  MUTATION_DOMAIN ++ b ≠ SHELL_NEXT_SIGNATURE_DOMAIN ++ c.
Proof. repeat split; vm_compute; discriminate. Qed.

Lemma verify_certificate_iff ctx p c cap now :
  verify_certificate ctx p c cap now = true ↔
    cert_network_id c = ac_network_id ctx ∧ cert_owner_id c = ac_owner_id ctx ∧
    cert_host_entity c = host_entity_of p ∧
    cert_operator_key_id c = derive_signing_key_id (cert_session_pubkey c) ∧
    Capabilities_has (cert_capabilities c) cap = true ∧
    Certificate_verify c (ac_owner_verifier ctx) now = Ok tt.
Proof.
  unfold verify_certificate. rewrite !andb_true_iff, !bool_decide_eq_true.
  destruct (Certificate_verify _ _ _) as [[]|]; simpl; naive_solver.
Qed.

Lemma session_key_signed_iff k payload sig :
  session_key_signed k payload sig = true ↔
    ∃ v, Ed25519Verifier_from_public_key k = Ok v ∧ Ed25519Verifier_verify v payload sig = Ok tt.
Proof.
  unfold session_key_signed. destruct (Ed25519Verifier_from_public_key k) as [v|]; [|naive_solver].
  split.
  - destruct (Ed25519Verifier_verify v payload sig) as [[]|] eqn:E; simpl; [eauto|done].
  - intros (v' & [= <-] & ->). done.
Qed.

(** The proof of an operator request is accepted exactly when its certificate
    decodes within the control limits, names the network and the owner of the genesis,
    the peer that presents it and its own session key, carries the capability, and is
    signed by the owner and in its validity; and the session key signed the payload of
    this very request for this peer.  Payloads of different requests differ, and no
    payload of a request is the payload of a lifecycle mutation or of a shell. *)
Theorem operator_proof_binds ctx p proof op t r ca content cap now :
  proof_fields_fit op t r ca content (peer_id_to_string p) →
  (verify_operator_session_proof ctx p proof op t r ca content cap now = true ↔
    ∃ c v, from_canonical_cbor (wp_certificate proof) LIMITS_CONTROL = Ok c ∧
      cert_network_id c = ac_network_id ctx ∧ cert_owner_id c = ac_owner_id ctx ∧
      cert_host_entity c = host_entity_of p ∧
      cert_operator_key_id c = derive_signing_key_id (cert_session_pubkey c) ∧
      Capabilities_has (cert_capabilities c) cap = true ∧
      Certificate_verify c (ac_owner_verifier ctx) now = Ok tt ∧
      Ed25519Verifier_from_public_key (cert_session_pubkey c) = Ok v ∧
      Ed25519Verifier_verify v (Proof_signing_payload op t r ca content (peer_id_to_string p))
        (wp_signature proof) = Ok tt) ∧
  (∀ op' t' r' ca' content' p', proof_fields_fit op' t' r' ca' content' p' →
    Proof_signing_payload op' t' r' ca' content' p' =
      Proof_signing_payload op t r ca content (peer_id_to_string p) →
    op' = op ∧ t' = t ∧ r' = r ∧ ca' = ca ∧ content' = content ∧ p' = peer_id_to_string p) ∧
  (∀ m, Mutation_signing_payload m ≠ Proof_signing_payload op t r ca content (peer_id_to_string p)) ∧
  (∀ n t' p' ch, signing_payload n t' p' ch ≠
    Proof_signing_payload op t r ca content (peer_id_to_string p)).
Proof.
  intros Hfit. split; [|split; [|split]].
  - unfold verify_operator_session_proof.
    destruct (from_canonical_cbor (wp_certificate proof) LIMITS_CONTROL) as [c|]; [|naive_solver].
    destruct (verify_certificate ctx p c cap now) eqn:Ec; simpl.
    + apply verify_certificate_iff in Ec as (? & ? & ? & ? & ? & ?). rewrite session_key_signed_iff.
      split; [intros (v & ? & ?); exists c, v; tauto|].
      intros (c' & v & [= <-] & Hv). exists v. tauto.
    + split; [done|]. intros (c' & v & [= <-] & Hv).
      assert (verify_certificate ctx p c cap now = true) by (apply verify_certificate_iff; tauto). congruence.
  - intros op' t' r' ca' content' p' Hfit' E. by apply Proof_signing_payload_inj.
  - intros m E. symmetry in E. by apply (domains_differ _ _ []) in E.
  - intros n t' p' ch E. symmetry in E. by apply (domains_differ _ [] _) in E.
Qed.

(** The signed payload of a lifecycle mutation binds its network, ticket, expected
    revision, new state, request id and the peer of the operator; the certificate and
    the signature themselves are not part of it. *)
Theorem mutation_signature_binds m m' :
  mutation_fits m → mutation_fits m' →
  (Mutation_signing_payload m = Mutation_signing_payload m' ↔
    m = mkMutation (mu_network_id m') (mu_ticket_id m') (mu_expected_revision m') (mu_new_state m')
      (mu_request_id m') (mu_operator_transport_peer_id m') (mu_certificate m) (mu_signature m)) ∧
  (∀ n t p ch, Mutation_signing_payload m ≠ signing_payload n t p ch).
Proof.
  intros Hm Hm'. split; [split|].
  - intros E. apply Mutation_signing_payload_inj in E; [|done..]. destruct m. simpl in *. naive_solver.
  - intros ->. done.
  - intros n t p ch E. by apply (domains_differ []) in E.
Qed.
End proofs.

(** ** A concrete authority *)

Definition owner_signer : Ed25519Signer := toy_signer 7.
Definition session_signer : Ed25519Signer := toy_signer 6.

Definition op_certificate : OperatorSessionCertificate :=
  match Certificate_issue (toy_id 1) (toy_id 2) (mkObjectId (blake3_hash (as_bytes "op"))) (toy_id 4)
    (derive_signing_key_id (signer_public_key session_signer)) (signer_public_key session_signer)
    (mkCaps 63) 100 200 (vreplicate 16 x00) (Ed25519Signer_Signer owner_signer) with
  | Ok c => c
  | Err _ => sample_certificate
  end.

(** The encoding of one certificate is the integer zero. *)
Definition toy_cbor : Cbor OperatorSessionCertificate := {|
  cbor_write c := if bool_decide (c = op_certificate) then Some [x00] else None;
  cbor_read_value l := if bool_decide (l = [x00]) then Some (VOther 0) else None;
  cbor_read l := if bool_decide (l = [x00]) then Some op_certificate else None
|}.

Definition toy_authority : AuthorityContext :=
  mkAuthority (toy_id 1) (toy_id 2)
    (mkEd25519Verifier (pk (signer_public_key owner_signer)) (signer_public_key owner_signer)).

Definition toy_proof (op t r : string) (ca : N) (content : bytes) : WireProof :=
  mkWireProof [x00] (vec_to_list (sig (Ed25519Signer_sign_domain session_signer OBJECT_SIG_DOMAIN
    (Proof_signing_payload op t r ca content "op")))).

Lemma operator_proof_binds_witness :
  @verify_operator_session_proof _ toy_libp2p toy_cbor toy_authority "op"
    (toy_proof "get_tickets" "T-1" "r" 120 [x01]) "get_tickets" "T-1" "r" 120 [x01]
    CAP_SHELL_EXEC 150 = true ∧
  (∀ t', str_len t' < u32_modulus →
    Proof_signing_payload "get_tickets" t' "r" 120 [x01] "op" =
      Proof_signing_payload "get_tickets" "T-1" "r" 120 [x01] "op" → t' = "T-1"%string).
Proof.
  destruct (@operator_proof_binds _ toy_libp2p toy_cbor toy_authority "op"
    (toy_proof "get_tickets" "T-1" "r" 120 [x01]) "get_tickets" "T-1" "r" 120 [x01]
    CAP_SHELL_EXEC 150) as (Hv & Hi & _); [by split|]. split.
  - apply Hv. exists op_certificate.
    exists (mkEd25519Verifier (pk (signer_public_key session_signer)) (signer_public_key session_signer)).
    repeat split; vm_compute; reflexivity.
  - intros t' Ht E. by apply Hi in E as (_ & ? & _).
Defined.

Definition sample_mutation (t : string) (rev : N) : TicketStateMutation :=
  mkMutation (toy_id 1) t rev InProgress (vreplicate 16 x01) "op" op_certificate [].

Lemma mutation_signature_binds_witness :
  Mutation_signing_payload (sample_mutation "T-1" 3) ≠ Mutation_signing_payload (sample_mutation "T-1" 4).
Proof.
  destruct (mutation_signature_binds (sample_mutation "T-1" 3) (sample_mutation "T-1" 4)) as [H _]; [by split..|].
  intros E. apply H in E. discriminate E.
Defined.
