(* ===== verification/Sync.v ===== *)
(** The request handlers of the node ([handle_ticket_v2] and [handle_chat] in
    [crates/fortiq-p2p/src/node.rs]): what a peer may read, which mutations are
    applied, what is done with the answers to this node's own requests, and when a chat
    message is accepted.

    A handler is a function of an event of libp2p's request-response behaviour and of
    the node's state; it gives the effects on the outside world and the new state.  The
    clock, the random identifiers and the outcome of each disk write are arguments. *)

From S2P Require Import Prelude Text Object Concrete Ticket Event Graph GraphSort.
From S2P Require Import Reducer Authority Store Engine EngineRuns Codec Config Stream Shell Wire.

#[local] Open Scope string_scope.

(** What one call of the engine takes from its surroundings. *)
Record call_io := mkCall { ca_put : put_io; ca_uuid : string; ca_now : N }.

(** And one event: the clock of the authority checks, two calls, a disk outcome for
    each object of a batch, and one for the outbox. *)
Record node_io := mkNodeIo {
  ni_clock : N;
  ni_first : call_io;
  ni_second : call_io;
  ni_objects : nat → put_io;
  ni_remove : remove_answer      (** to the removal of an outbox entry *)
}.

Definition with_ios (io : node_io) (objects : list SignedObject) : list (put_io * SignedObject) :=
  imap (λ i obj, (ni_objects io i, obj)) objects.

(** [Display] of the engine's errors. *)
Class ErrorText := { error_text : EngineError → string }.

(** The answer channel of a request, and the sender a caller waits on. *)
Abbreviation Channel := N (only parsing).
Abbreviation Sender := N (only parsing).

Inductive InboundEvent (Req Resp Peer : Type) : Type :=
| Request (peer : Peer) (request : Req) (channel : Channel)
| Response (request_id : N) (response : Resp)
| OutboundFailure (request_id : N) (error : string)
| OtherEvent.
Arguments Request {Req Resp Peer}.
Arguments Response {Req Resp Peer}.
Arguments OutboundFailure {Req Resp Peer}.
Arguments OtherEvent {Req Resp Peer}.

Inductive Effect (Resp : Type) : Type :=
| SendResponse (channel : Channel) (response : Resp)
| Reply (to : Sender) (answer : result string Resp).
Arguments SendResponse {Resp}.
Arguments Reply {Resp}.

Record PendingTicketSync := mkPendingSync { ps_reply : Sender; ps_outbox_id : option string }.

(** [chars().take(n)] on UTF-8: a character is a byte and its continuation bytes. *)
Fixpoint take_chars_bytes (n : nat) (l : bytes) : bytes :=
  match l with
  | [] => []
  | b :: l =>
      if is_cont b then b :: take_chars_bytes n l else
      match n with O => [] | S n => b :: take_chars_bytes n l end
  end.
Definition take_chars (n : nat) (s : string) : string := from_bytes (take_chars_bytes n (as_bytes s)).

(** [authority.zip(proof).is_some_and(…)]. *)
Definition both_and {A B} (a : option A) (b : option B) (check : A → B → bool) : bool :=
  match a, b with Some x, Some y => check x y | _, _ => false end.

Section sync.
Context `{CC : Crypto, HX : Hex, BC : BodyCodec, OC : ObjectCodec}.
Context `{LP : Libp2p, CB : Cbor OperatorSessionCertificate, ET : ErrorText}.
Context {St : Type} `{OS : !ObjectStore St}.
Implicit Types en : TicketEngine St.

(** ** Reading *)

Definition can_read (authority : option AuthorityContext) (proof : option WireProof) (peer : PeerId)
    (ticket_id : string) (now : N) : bool :=
  both_and authority proof (λ context proof,
    verify_operator_session_proof context peer proof "ticket-read" ticket_id ticket_id 0 []
      CAP_READ now).

Definition may_see (local_peer_id : string) (peer : PeerId) (read : bool) (ticket : TicketRecord) : bool :=
  bool_decide (tr_client_peer_id ticket = peer_id_to_string peer) ||
  (bool_decide (tr_client_peer_id ticket = local_peer_id) && read).

(** ** Mutations *)

Definition push_authorized (peer : PeerId) (ticket : TicketRecord) en : bool :=
  bool_decide (tr_client_peer_id ticket = peer_id_to_string peer) &&
  bool_decide (tr_state ticket = Open) &&
  (tr_revision ticket =? 1)%N &&
  bool_decide (tr_closed_at ticket = None) &&
  bool_decide (engine_get_ticket en (tr_id ticket) = None).

Definition push_ticket (peer : PeerId) (io : node_io) (ticket : TicketRecord) en
    : TicketSyncResponse * TicketEngine St :=
  if negb (push_authorized peer ticket en) then
    (MutationRejected Permanent "PeerId non autorisé à publier ce ticket" None, en)
  else
    match import_canonical_ticket (ca_put (ni_first io)) (ca_put (ni_second io)) ticket en with
    | (Ok _, en') => (MutationApplied ticket, en')
    | (Err error, en') =>
        (MutationRejected Conflict ("Erreur: " +:+ error_text error)
           (engine_get_ticket en' (tr_id ticket)), en')
    end.

Definition mutation_authorized (local_peer_id : string) (authority : option AuthorityContext)
    (peer : PeerId) (m : TicketStateMutation) (now : N) (ticket : TicketRecord) : bool :=
  match authority with
  | Some context =>
      bool_decide (mu_network_id m = ac_network_id context) &&
      bool_decide (mu_operator_transport_peer_id m = peer_id_to_string peer) &&
      verify_certificate context peer (mu_certificate m) CAP_TICKET_MANAGE now
  | None => false
  end &&
  session_key_signed (cert_session_pubkey (mu_certificate m)) (Mutation_signing_payload m)
    (mu_signature m) &&
  bool_decide (tr_client_peer_id ticket = local_peer_id) &&
  (tr_revision ticket =? mu_expected_revision m)%N.

Definition update_status_signed (local_peer_id : string) (authority : option AuthorityContext)
    (peer : PeerId) (io : node_io) (m : TicketStateMutation) en
    : TicketSyncResponse * TicketEngine St :=
  let current := engine_get_ticket en (mu_ticket_id m) in
  let authorized :=
    match current with
    | Some ticket => mutation_authorized local_peer_id authority peer m (ni_clock io) ticket
    | None => false
    end in
  if negb authorized then
    (MutationRejected Permanent "Signed lifecycle mutation rejected" current, en)
  else
    match update_ticket_state (ca_put (ni_first io)) (ca_now (ni_first io)) (mu_ticket_id m)
            (mu_new_state m) (peer_id_to_string peer) en with
    | (Ok ticket, en') => (MutationApplied ticket, en')
    | (Err error, en') => (MutationRejected Conflict (error_text error) current, en')
    end.

Definition push_objects (io : node_io) (objects : list SignedObject) en
    : TicketSyncResponse * TicketEngine St :=
  let total := length objects in
  match apply_remote_objects (with_ios io objects) en with
  | (Ok accepted, en') => (SyncAck accepted (total - accepted)%nat, en')
  | (Err _, en') => (SyncAck 0 total, en')
  end.

Definition handle_ticket_request (local_peer_id : string) (authority : option AuthorityContext)
    (peer : PeerId) (io : node_io) (request : TicketSyncRequest) en
    : TicketSyncResponse * TicketEngine St :=
  match request with
  | GetTickets proof =>
      let read := can_read authority proof peer "*" (ni_clock io) in
      (TrTickets (List.filter (may_see local_peer_id peer read) (engine_list_tickets en None)), en)
  | GetTicketById ticket_id proof =>
      let read := can_read authority proof peer ticket_id (ni_clock io) in
      (TrTicket match engine_get_ticket en ticket_id with
                | Some ticket => if may_see local_peer_id peer read ticket then Some ticket else None
                | None => None
                end, en)
  | PushTicket ticket => push_ticket peer io ticket en
  | UpdateStatusSigned m => update_status_signed local_peer_id authority peer io m en
  | GetHeads _ ticket_id =>
      (TrHeads match ticket_id with
               | Some t => engine_ticket_heads en t
               | None => current_heads en
               end, en)
  | GetObjects ids =>
      (TrObjects match get_objects en ids with Ok objects => objects | Err _ => [] end, en)
  | PushObjects objects => push_objects io objects en
  end.

(** ** Answers *)

Definition is_terminal (response : TicketSyncResponse) : bool :=
  match response with
  | MutationApplied _ | MutationRejected _ _ _ | SyncAck _ _ => true
  | _ => false
  end.

(** The outbox entry of an answered request is removed once its fate is known; whether
    it could be is not looked at. *)
Definition settle_outbox (removal : remove_answer) (pending : PendingTicketSync) (response : TicketSyncResponse) en
    : TicketEngine St :=
  match ps_outbox_id pending with
  | Some outbox_id => if is_terminal response then (remove_outbox removal outbox_id en).2 else en
  | None => en
  end.

(** What the answer makes this node import; every result is dropped. *)
Definition absorb_response (local_peer_id : string) (io : node_io) (response : TicketSyncResponse) en
    : TicketEngine St :=
  let import ticket :=
    (import_canonical_ticket (ca_put (ni_first io)) (ca_put (ni_second io)) ticket en).2 in
  match response with
  | MutationApplied ticket => import ticket
  | MutationRejected _ _ (Some ticket) =>
      if bool_decide (tr_client_peer_id ticket = local_peer_id) then en else import ticket
  | TrObjects objects => (apply_remote_objects (with_ios io objects) en).2
  | _ => en
  end.

Record TicketNode := mkTicketNode {
  tn_engine : TicketEngine St;
  tn_pending : gmap N PendingTicketSync
}.

Definition handle_ticket_v2 (local_peer_id : string) (authority : option AuthorityContext)
    (io : node_io) (event : InboundEvent TicketSyncRequest TicketSyncResponse PeerId) (s : TicketNode)
    : list (Effect TicketSyncResponse) * TicketNode :=
  match event with
  | Request peer request channel =>
      let '(response, en) := handle_ticket_request local_peer_id authority peer io request (tn_engine s) in
      ([SendResponse channel response], mkTicketNode en (tn_pending s))
  | Response request_id response =>
      match tn_pending s !! request_id with
      | None => ([], s)
      | Some pending =>
          let en := settle_outbox (ni_remove io) pending response (tn_engine s) in
          ([Reply (ps_reply pending) (Ok response)],
           mkTicketNode (absorb_response local_peer_id io response en)
             (delete request_id (tn_pending s)))
      end
  | OutboundFailure request_id error =>
      match tn_pending s !! request_id with
      | None => ([], s)
      | Some pending =>
          ([Reply (ps_reply pending) (Err ("Échec de la requête ticket sync: " +:+ error))],
           mkTicketNode (tn_engine s) (delete request_id (tn_pending s)))
      end
  | OtherEvent => ([], s)
  end.

(** ** Chat *)

Definition chat_authority_valid (local_peer_id : string) (authority : option AuthorityContext)
    (peer : PeerId) (now : N) (request : ChatMessageWire) en : bool :=
  match engine_get_ticket en (cw_ticket_id request) with
  | Some ticket =>
      if bool_decide (tr_client_peer_id ticket = local_peer_id) then
        both_and authority (cw_authority request) (λ context proof,
          verify_operator_session_proof context peer proof "chat" (cw_ticket_id request)
            (cw_id request) (cw_created_at request) (as_bytes (cw_body request)) CAP_WRITE now)
      else true
  | None => true
  end.

Definition received_message (peer : PeerId) (request : ChatMessageWire) : ChatMessage := {|
  cm_id := cw_id request; cm_ticket_id := cw_ticket_id request;
  cm_sender_peer_id := peer_id_to_string peer; cm_body := cw_body request;
  cm_created_at := cw_created_at request; cm_delivery_state := "DELIVERED"
|}.

Definition chat_preview (peer : PeerId) (body : string) : string :=
  peer_id_to_string peer +:+ ": " +:+ take_chars 40 body.

Definition handle_chat_request (local_peer_id : string) (authority : option AuthorityContext)
    (peer : PeerId) (io : node_io) (request : ChatMessageWire) en : ChatAckWire * TicketEngine St :=
  let authority_valid := chat_authority_valid local_peer_id authority peer (ni_clock io) request en in
  let refuse error := mkChatAck (cw_id request) false (Some error) in
  match engine_get_ticket en (cw_ticket_id request) with
  | None => (refuse "Ticket introuvable sur le poste distant", en)
  | Some ticket =>
      if negb (is_ticket_counterparty ticket local_peer_id peer) then
        (refuse "PeerId non autorisé pour ce ticket", en)
      else if negb authority_valid then (refuse "Authority WRITE invalide", en)
      else if negb (permits_work (tr_state ticket)) then (refuse "Le ticket est fermé", en)
      else
        match add_chat_message (ca_put (ni_first io)) (ca_now (ni_first io))
                (received_message peer request) en with
        | (Err error, en') =>
            (refuse ("Échec de persistance du message: " +:+ error_text error), en')
        | (Ok _, en') =>
            let second := ni_second io in
            let '(_, en'') := record_event (ca_put second) (ca_uuid second) (ca_now second)
              (cw_ticket_id request) "CHAT_MESSAGE_RECEIVED" (peer_id_to_string peer)
              (Some (chat_preview peer (cw_body request))) en' in
            (mkChatAck (cw_id request) true None, en'')
        end
  end.

Record ChatNode := mkChatNode { cn_engine : TicketEngine St; cn_pending : gmap N Sender }.

Definition handle_chat (local_peer_id : string) (authority : option AuthorityContext)
    (io : node_io) (event : InboundEvent ChatMessageWire ChatAckWire PeerId) (s : ChatNode)
    : list (Effect ChatAckWire) * ChatNode :=
  let answer request_id reply :=
    match cn_pending s !! request_id with
    | None => ([], s)
    | Some to => ([Reply to reply], mkChatNode (cn_engine s) (delete request_id (cn_pending s)))
    end in
  match event with
  | Request peer request channel =>
      let '(ack, en) := handle_chat_request local_peer_id authority peer io request (cn_engine s) in
      ([SendResponse channel ack], mkChatNode en (cn_pending s))
  | Response request_id response => answer request_id (Ok response)
  | OutboundFailure request_id error =>
      answer request_id (Err ("Échec de l'envoi du message chat: " +:+ error))
  | OtherEvent => ([], s)
  end.
End sync.

(** ** Properties of the handlers *)

Section sync_properties.
Context `{CC : Crypto, CL : !CryptoLaws, HX : Hex, BC : BodyCodec, BL : !BodyCodecLaws, OC : ObjectCodec}.
Context `{LP : Libp2p, CB : Cbor OperatorSessionCertificate, ET : ErrorText}.
Context {St : Type} `{OS : !ObjectStore St, OL : !ObjectStoreLaws St}.
Implicit Types en : TicketEngine St.

(** The peer proved the right to read [scope]. *)
Definition read_proven (authority : option AuthorityContext) (proof : option WireProof)
    (peer : PeerId) (scope : string) (now : N) : Prop :=
  ∃ context p, authority = Some context ∧ proof = Some p ∧
    verify_operator_session_proof context peer p "ticket-read" scope scope 0 [] CAP_READ now = true.

(** The peer may see a ticket: it is its client, or this node is and the peer proved
    the right to read. *)
Definition visible (local : string) (peer : PeerId) (proven : Prop) (t : TicketRecord) : Prop :=
  tr_client_peer_id t = peer_id_to_string peer ∨ (tr_client_peer_id t = local ∧ proven).

Lemma both_and_true {A B} (a : option A) (b : option B) check :
  both_and a b check = true ↔ ∃ x y, a = Some x ∧ b = Some y ∧ check x y = true.
Proof. destruct a, b; simpl; naive_solver. Qed.

Lemma may_see_visible local peer authority proof scope now t :
  may_see local peer (can_read authority proof peer scope now) t = true ↔
    visible local peer (read_proven authority proof peer scope now) t.
Proof.
  unfold may_see, visible, can_read, read_proven.
  by rewrite orb_true_iff, andb_true_iff, !bool_decide_eq_true, both_and_true.
Qed.

(** What a peer can read with the ticket requests: neither changes the node; the
    list holds exactly the tickets whose client is the peer, and the tickets whose
    client is this node when the peer proved READ for all of them; one ticket is given
    exactly if it is known and the peer is its client or proved READ for it. *)
Theorem ticket_reads_confined local authority peer io en scope proof :
  engine_inv en →
  (∃ l, handle_ticket_request local authority peer io (GetTickets proof) en = (TrTickets l, en) ∧
     ∀ t, t ∈ l ↔ engine_get_ticket en (tr_id t) = Some t ∧
       visible local peer (read_proven authority proof peer "*" (ni_clock io)) t) ∧
  (∃ o, handle_ticket_request local authority peer io (GetTicketById scope proof) en = (TrTicket o, en) ∧
     ∀ t, o = Some t ↔ engine_get_ticket en scope = Some t ∧
       visible local peer (read_proven authority proof peer scope (ni_clock io)) t).
Proof.
  intros He. split; simpl; eexists; (split; [reflexivity|]); intros t.
  - rewrite list_elem_of_In, filter_In, <- list_elem_of_In, elem_of_engine_list by done.
    by rewrite may_see_visible.
  - destruct (engine_get_ticket en scope) as [r|] eqn:Hr; [|naive_solver].
    destruct (may_see local peer _ r) eqn:Hs.
    + apply may_see_visible in Hs. naive_solver.
    + split; [done|]. intros [[= ->] Hv]. apply may_see_visible in Hv. congruence.
Qed.

(** The object requests are not covered by it: every peer, with no proof at all,
    is given the ids at the head of any ticket and of the whole graph, and for every
    event of the node that it names the stored object, from which the event and so
    the tickets, messages and audit trail decode. *)
Theorem objects_served_to_anyone local authority peer io en :
  engine_inv en →
  (∀ n t, handle_ticket_request local authority peer io (GetHeads n t) en =
     (TrHeads (match t with Some t => engine_ticket_heads en t | None => current_heads en end), en)) ∧
  (∀ ids, ∃ objs,
     handle_ticket_request local authority peer io (GetObjects ids) en = (TrObjects objs, en) ∧
     (∀ o, o ∈ objs ↔ ∃ i, i ∈ ids ∧ os_lookup (en_store en) i = Some o) ∧
     (∀ e, in_graph (en_graph en) e → ev_id e ∈ ids →
        ∃ o, o ∈ objs ∧ Event_from_signed_object o = Ok e)).
Proof.
  intros He. split; [done|]. intros ids. destruct (get_objects_Ok en ids He) as (objs & Hg & Hel).
  exists objs. simpl. rewrite Hg. split; [done|]. split; [done|]. intros e Hin Hid.
  destruct (ei_backed en He e Hin) as (o & Ho & Hd). exists o. split; [|done]. apply Hel. eauto.
Qed.

(** What entitles a peer to change a ticket: the mutation is for the network of this node and names the
    peer that sends it; the certificate is of this network and owner, for that peer and
    its own session key, carries TICKET_MANAGE, has not expired and is signed by the owner; the
    session key signed the mutation; the ticket is this node's, at the revision expected. *)
Record mutation_allowed (local : string) (authority : option AuthorityContext) (peer : PeerId)
    (m : TicketStateMutation) (now : N) (ticket : TicketRecord) : Prop := {
  ma_certificate : ∃ context, authority = Some context ∧
    let c := mu_certificate m in
    mu_network_id m = ac_network_id context ∧ cert_network_id c = ac_network_id context ∧
    cert_owner_id c = ac_owner_id context ∧ cert_host_entity c = host_entity_of peer ∧
    cert_operator_key_id c = derive_signing_key_id (cert_session_pubkey c) ∧
    Capabilities_has (cert_capabilities c) CAP_TICKET_MANAGE = true ∧ now < cert_expires_at c ∧
    Ed25519Verifier_verify_domain (ac_owner_verifier context) OPERATOR_CERT_DOMAIN (Certificate_tbs c)
      (cert_signature c) = Ok tt;
  ma_peer : mu_operator_transport_peer_id m = peer_id_to_string peer;
  ma_signed : ∃ v, Ed25519Verifier_from_public_key (cert_session_pubkey (mu_certificate m)) = Ok v ∧
    Ed25519Verifier_verify v (Mutation_signing_payload m) (mu_signature m) = Ok tt;
  ma_client : tr_client_peer_id ticket = local;
  ma_revision : tr_revision ticket = mu_expected_revision m
}.

Lemma mutation_authorized_iff local authority peer m now ticket :
  mutation_authorized local authority peer m now ticket = true ↔
    mutation_allowed local authority peer m now ticket.
Proof.
  unfold mutation_authorized. rewrite !andb_true_iff, N.eqb_eq, bool_decide_eq_true, session_key_signed_iff.
  destruct authority as [context|]; [|split; [by intros [[[? _] _] _]|by intros [(? & ? & _) _ _ _ _]]].
  rewrite !andb_true_iff, !bool_decide_eq_true, verify_certificate_iff, Certificate_verify_Ok. split.
  - intros [[[[[? ?] (? & ? & ? & ? & ? & ? & ?)] ?] ?] ?]. split; try done. exists context. repeat split; done.
  - intros [(c & [= <-] & ? & ? & ? & ? & ? & ? & ? & ?) ? ? ? ?]. tauto.
Qed.

(** C10. A signed lifecycle mutation is applied only if the ticket is this node's, the
    owner's unexpired certificate of the very peer that sent it carries TICKET_MANAGE, the
    session key signed the mutation, and the ticket is at the expected revision;
    anything else is refused for good and changes nothing. An authorized mutation
    outside the lifecycle is a conflict and changes nothing; otherwise the answer is
    the ticket in its new state, or a conflict with every ticket as it was. *)
Theorem signed_mutation_correct local authority peer io m en :
  engine_inv en → signer_wf (en_signer en) →
  append_ready en (ca_put (ni_first io))
    (StatusChanged (mu_ticket_id m) (mu_new_state m) (peer_id_to_string peer) None)
    (ca_now (ni_first io)) →
  let '(response, en') := handle_ticket_request local authority peer io (UpdateStatusSigned m) en in
  let current := engine_get_ticket en (mu_ticket_id m) in
  engine_inv en' ∧
  ((∃ cur, current = Some cur ∧ mutation_allowed local authority peer m (ni_clock io) cur ∧
      if can_transition_to (tr_state cur) (mu_new_state m) then
        match response with
        | MutationApplied r => r = set_state cur (mu_new_state m) (ca_now (ni_first io)) ∧
            ∀ k, engine_get_ticket en' k = if decide (k = mu_ticket_id m) then Some r else engine_get_ticket en k
        | MutationRejected Conflict _ c => c = Some cur ∧
            ∀ k, engine_get_ticket en' k = engine_get_ticket en k
        | _ => False
        end
      else en' = en ∧ ∃ msg, response = MutationRejected Conflict msg (Some cur)) ∨
   ((∀ cur, current = Some cur → ¬ mutation_allowed local authority peer m (ni_clock io) cur) ∧
      en' = en ∧ ∃ msg, response = MutationRejected Permanent msg current)).
Proof.
  intros He Hwf Hready. cbn [handle_ticket_request]. unfold update_status_signed.
  destruct (engine_get_ticket en (mu_ticket_id m)) as [cur|] eqn:Hcur; simpl.
  2:{ split; [done|]. right. split; [done|]. split; [done|]. by eexists. }
  pose proof (mutation_authorized_iff local authority peer m (ni_clock io) cur) as Hiff.
  destruct (mutation_authorized local authority peer m (ni_clock io) cur) eqn:Hauth; simpl.
  2:{ split; [done|]. right. split; [by intros ? [= <-] H%Hiff|]. split; [done|]. by eexists. }
  pose proof (proj1 Hiff eq_refl) as Hallowed.
  pose proof (update_ticket_state_spec _ _ _ _ _ _ He Hwf Hready) as H. rewrite Hcur in H.
  destruct (update_ticket_state _ _ _ _ _ _) as [r en'] eqn:Hup.
  destruct H as (He' & _ & H). destruct r as [rec|err].
  - split; [done|]. left. exists cur. split; [done|]. split; [done|].
    destruct (can_transition_to _ _); [done|]. by destruct H.
  - split; [done|]. left. exists cur. split; [done|]. split; [done|].
    destruct (can_transition_to _ _).
    + split; [done|]. by destruct err.
    + destruct H as [_ ->]. split; [done|]. by eexists.
Qed.

Lemma push_authorized_iff peer tk en :
  push_authorized peer tk en = true ↔
    tr_client_peer_id tk = peer_id_to_string peer ∧ tr_state tk = Open ∧ tr_revision tk = 1%N ∧
    tr_closed_at tk = None ∧ engine_get_ticket en (tr_id tk) = None.
Proof.
  unfold push_authorized. rewrite !andb_true_iff, !bool_decide_eq_true, N.eqb_eq. tauto.
Qed.

(** A pushed ticket is taken only if the peer publishes its own, open, first revision
    of a ticket this node does not know; anything else is refused for good and changes
    nothing. What is taken becomes an open ticket at revision 1 dated at its creation,
    and is answered as the peer sent it; if it cannot be stored, no ticket changes and
    the answer is a conflict without a ticket. *)
Theorem pushed_ticket_correct local authority peer io tk en :
  engine_inv en → signer_wf (en_signer en) →
  import_ready en (ca_put (ni_first io)) (ca_put (ni_second io)) tk →
  let '(response, en') := handle_ticket_request local authority peer io (PushTicket tk) en in
  engine_inv en' ∧
  if push_authorized peer tk en then
    match response with
    | MutationApplied r => r = tk ∧ ∀ k, engine_get_ticket en' k =
        if decide (k = tr_id tk) then Some (opened tk) else engine_get_ticket en k
    | MutationRejected Conflict _ c => c = None ∧ ∀ k, engine_get_ticket en' k = engine_get_ticket en k
    | _ => False
    end
  else en' = en ∧ ∃ msg, response = MutationRejected Permanent msg None.
Proof.
  intros He Hwf Hready. cbn [handle_ticket_request]. unfold push_ticket.
  destruct (push_authorized peer tk en) eqn:Hauth; simpl; [|eauto].
  apply push_authorized_iff in Hauth as (_ & Hopen & _ & _ & Hnone).
  pose proof (import_new _ _ _ _ He Hwf Hready Hnone) as H.
  destruct (import_canonical_ticket _ _ tk en) as [r en']. destruct H as (He' & _ & Hk & H).
  destruct r as [u|err]; simpl; (split; [done|]).
  - split; [done|]. intros k. case_decide as Hd; [|by apply Hk]. subst k. rewrite H.
    unfold imported. by rewrite bool_decide_eq_true_2.
  - destruct H as [H|[_ Hn]]; [|done]. split; [done|]. intros k.
    destruct (decide (k = tr_id tk)) as [->|Hd]; [by rewrite H|by apply Hk].
Qed.

(** ** The node as a state machine *)

(** A batch of objects from a world without hash collisions. *)
Definition batch_ready (P : SignedObject → Prop) en (io : node_io) (objects : list SignedObject) : Prop :=
  world_ok P ∧ stored_in P en ∧ Forall P objects ∧ ∀ i, os_io_ok (ni_objects io i).

Lemma with_ios_ok P en io objects :
  batch_ready P en io objects → Forall (λ x, os_io_ok x.1 ∧ P x.2) (with_ios io objects).
Proof.
  intros (_ & _ & Hp & Hio). apply Forall_lookup. intros i x Hx. unfold with_ios in Hx.
  apply list_lookup_imap_Some in Hx as (o & Ho & ->). simpl. split; [done|].
  by apply (Forall_lookup_1 _ _ _ _ Hp Ho).
Qed.

(** What handling one event needs of the disk, the clock and the hashes. *)
Definition request_ready P en (peer : PeerId) (io : node_io) (request : TicketSyncRequest) : Prop :=
  match request with
  | PushTicket tk => import_ready en (ca_put (ni_first io)) (ca_put (ni_second io)) tk
  | UpdateStatusSigned m =>
      append_ready en (ca_put (ni_first io))
        (StatusChanged (mu_ticket_id m) (mu_new_state m) (peer_id_to_string peer) None)
        (ca_now (ni_first io))
  | PushObjects objects => batch_ready P en io objects
  | _ => True
  end.

Definition response_ready P en (io : node_io) (response : TicketSyncResponse) : Prop :=
  match response with
  | MutationApplied tk | MutationRejected _ _ (Some tk) =>
      import_ready en (ca_put (ni_first io)) (ca_put (ni_second io)) tk
  | TrObjects objects => batch_ready P en io objects
  | _ => True
  end.

Definition event_ready P (io : node_io)
    (event : InboundEvent TicketSyncRequest TicketSyncResponse PeerId) (s : TicketNode) : Prop :=
  match event with
  | Request peer request _ => request_ready P (tn_engine s) peer io request
  | Response request_id response =>
      ∀ pending, tn_pending s !! request_id = Some pending →
        response_ready P (settle_outbox (ni_remove io) pending response (tn_engine s)) io response
  | _ => True
  end.

Lemma import_inv io1 io2 tk en :
  engine_inv en → signer_wf (en_signer en) → import_ready en io1 io2 tk →
  engine_inv (import_canonical_ticket io1 io2 tk en).2.
Proof.
  intros He Hwf Hready. destruct (engine_get_ticket en (tr_id tk)) as [cur|] eqn:Hget.
  - pose proof (import_known _ io2 _ _ _ He Hwf Hready Hget) as H.
    destruct (import_canonical_ticket _ _ _ _) as [r en']. tauto.
  - pose proof (import_new _ io2 _ _ He Hwf Hready Hget) as H.
    destruct (import_canonical_ticket _ _ _ _) as [r en']. tauto.
Qed.

Lemma batch_inv P io objects en :
  engine_inv en → batch_ready P en io objects →
  engine_inv (apply_remote_objects (with_ios io objects) en).2.
Proof.
  intros He Hb. pose proof (with_ios_ok _ _ _ _ Hb) as Hok. destruct Hb as (Hw & Hs & _ & _).
  by destruct (apply_remote_objects_spec P en _ Hw He Hs Hok) as (n & _ & H & _).
Qed.

Lemma request_inv P local authority peer io request en :
  engine_inv en → signer_wf (en_signer en) → request_ready P en peer io request →
  engine_inv (handle_ticket_request local authority peer io request en).2 ∧
  same_setup en (handle_ticket_request local authority peer io request en).2.
Proof.
  intros He Hwf Hready. destruct request as [| |tk|m| | |objects]; try by split.
  - cbn [handle_ticket_request]. unfold push_ticket. destruct (negb _); [done|].
    pose proof (import_inv _ _ _ _ He Hwf Hready) as Hi.
    pose proof (import_setup (ca_put (ni_first io)) (ca_put (ni_second io)) tk en) as Hs.
    by destruct (import_canonical_ticket _ _ _ _) as [[u|e] en'].
  - cbn [handle_ticket_request]. unfold update_status_signed. destruct (negb _); [done|].
    pose proof (update_ticket_state_spec _ _ _ _ _ _ He Hwf Hready) as H.
    destruct (update_ticket_state _ _ _ _ _ _) as [[r|e] en']; destruct H as (? & ? & _); done.
  - cbn [handle_ticket_request]. unfold push_objects.
    pose proof (batch_inv _ _ _ _ He Hready) as Hi.
    pose proof (apply_remote_objects_setup (with_ios io objects) en) as Hs.
    by destruct (apply_remote_objects _ _) as [[n|e] en'].
Qed.

Lemma absorb_inv P local io response en :
  engine_inv en → signer_wf (en_signer en) → response_ready P en io response →
  engine_inv (absorb_response local io response en) ∧ same_setup en (absorb_response local io response en).
Proof.
  intros He Hwf Hready. destruct response as [| |tk|k msg [tk|]| |objects|]; simpl in *; try done.
  - split; [by apply import_inv|apply import_setup].
  - destruct (bool_decide _); [done|]. split; [by apply import_inv|apply import_setup].
  - split; [by eapply batch_inv|apply apply_remote_objects_setup].
Qed.

Lemma settle_inv removal pending response en :
  engine_inv en → engine_inv (settle_outbox removal pending response en) ∧
  en_signer (settle_outbox removal pending response en) = en_signer en.
Proof.
  intros [? ? ? ?]. unfold settle_outbox, remove_outbox. by repeat case_match.
Qed.

(** The senders still waiting, and those an effect answers. *)
Definition waiting (s : TicketNode (St := St)) : list Sender := ps_reply <$> (map_to_list (tn_pending s)).*2.
Definition answered (effects : list (Effect TicketSyncResponse)) : list Sender :=
  omap (λ e, match e with Reply to _ => Some to | SendResponse _ _ => None end) effects.

Lemma waiting_delete en en' pending i p :
  pending !! i = Some p →
  waiting (mkTicketNode en pending) ≡ₚ ps_reply p :: waiting (mkTicketNode en' (delete i pending)).
Proof.
  intros Hi. unfold waiting. simpl. rewrite <- (map_to_list_delete pending i p Hi). done.
Qed.

Fixpoint run_node local authority (events : list (node_io * _)) (s : TicketNode (St := St))
    : list (Effect TicketSyncResponse) * TicketNode :=
  match events with
  | [] => ([], s)
  | (io, event) :: events =>
      let '(effects, s) := handle_ticket_v2 local authority io event s in
      let '(effects', s) := run_node local authority events s in
      ((effects ++ effects')%list, s)
  end.

(** Every event of the run is handled under its conditions. *)
Fixpoint run_ready P local authority (events : list (node_io * _)) (s : TicketNode (St := St)) : Prop :=
  match events with
  | [] => True
  | (io, event) :: events =>
      event_ready P io event s ∧
      run_ready P local authority events (handle_ticket_v2 local authority io event s).2
  end.

Lemma handle_ticket_v2_step P local authority io event s effects s' :
  engine_inv (tn_engine s) → signer_wf (en_signer (tn_engine s)) → event_ready P io event s →
  handle_ticket_v2 local authority io event s = (effects, s') →
  engine_inv (tn_engine s') ∧ en_signer (tn_engine s') = en_signer (tn_engine s) ∧
  tn_pending s' ⊆ tn_pending s ∧ (answered effects ++ waiting s')%list ≡ₚ waiting s.
Proof.
  intros He Hwf Hready. destruct s as [en pending]. simpl in *.
  destruct event as [peer request channel|i response|i error|]; simpl.
  - destruct (request_inv P local authority peer io request en He Hwf Hready) as [Hi (Hs & _)].
    destruct (handle_ticket_request _ _ _ _ _ _) as [response en'].
    intros [= <- <-]. done.
  - destruct (pending !! i) as [p|] eqn:Hp; intros [= <- <-]; [|done].
    destruct (settle_inv (ni_remove io) p response en He) as [He1 Hs1].
    destruct (absorb_inv P local io response _ He1 ltac:(by rewrite Hs1) (Hready p Hp)) as [He2 (Hs2 & _)].
    split; [done|]. split; [simpl; congruence|]. split; [apply delete_subseteq|].
    symmetry. by apply waiting_delete.
  - destruct (pending !! i) as [p|] eqn:Hp; intros [= <- <-]; [|done].
    split; [done|]. split; [done|]. split; [apply delete_subseteq|].
    symmetry. by apply waiting_delete.
  - by intros [= <- <-].
Qed.

(** C13. Over any sequence of requests, answers and failures the engine stays consistent
    under the same key, and every caller that waits for an answer is answered at most
    once: the senders answered and those still waiting are together the ones that
    waited at the start. *)
Theorem node_run_invariant P local authority events s :
  engine_inv (tn_engine s) → signer_wf (en_signer (tn_engine s)) →
  run_ready P local authority events s →
  let '(effects, s') := run_node local authority events s in
  engine_inv (tn_engine s') ∧ en_signer (tn_engine s') = en_signer (tn_engine s) ∧
  tn_pending s' ⊆ tn_pending s ∧ (answered effects ++ waiting s')%list ≡ₚ waiting s.
Proof.
  revert s. induction events as [|[io event] events IH]; intros s He Hwf; simpl; [done|].
  intros [Hready Hrun].
  destruct (handle_ticket_v2 local authority io event s) as [e1 s1] eqn:H1.
  destruct (handle_ticket_v2_step _ _ _ _ _ _ _ _ He Hwf Hready H1) as (He1 & Hs1 & Hp1 & Ha1).
  specialize (IH s1 He1 ltac:(by rewrite Hs1) Hrun).
  destruct (run_node local authority events s1) as [e2 s2]. destruct IH as (He2 & Hs2 & Hp2 & Ha2).
  split; [done|]. split; [congruence|]. split; [by etrans|].
  unfold answered in *. rewrite omap_app, <- app_assoc, Ha2. exact Ha1.
Qed.

(** ** Chat *)

Definition write_proven (authority : option AuthorityContext) (peer : PeerId) (now : N)
    (request : ChatMessageWire) : Prop :=
  ∃ context p, authority = Some context ∧ cw_authority request = Some p ∧
    verify_operator_session_proof context peer p "chat" (cw_ticket_id request) (cw_id request)
      (cw_created_at request) (as_bytes (cw_body request)) CAP_WRITE now = true.

(** A message is acceptable on a workable ticket from its client, or, when this node
    is the client, from a peer that proved the right to write this very message. *)
Definition chat_acceptable (local : string) authority (peer : PeerId) (now : N) request en : Prop :=
  ∃ t, engine_get_ticket en (cw_ticket_id request) = Some t ∧ permits_work (tr_state t) = true ∧
    ((tr_client_peer_id t = peer_id_to_string peer ∧ tr_client_peer_id t ≠ local) ∨
     (tr_client_peer_id t = local ∧ write_proven authority peer now request)).

Definition chat_event (peer : PeerId) (now : N) (request : ChatMessageWire) : TicketEvent :=
  ChatMessageAdded (cw_ticket_id request) (cw_id request) (peer_id_to_string peer) (cw_body request)
    (time_or_now (cw_created_at request) now).

Record chat_ready en (peer : PeerId) (io : node_io) (request : ChatMessageWire) : Prop := {
  cr_message : append_ready en (ca_put (ni_first io)) (chat_event peer (ca_now (ni_first io)) request)
    (time_or_now (cw_created_at request) (ca_now (ni_first io)));
  cr_audit : append_ready
    (add_chat_message (ca_put (ni_first io)) (ca_now (ni_first io)) (received_message peer request) en).2
    (ca_put (ni_second io))
    (CustomAudit (cw_ticket_id request) (ca_uuid (ni_second io)) "CHAT_MESSAGE_RECEIVED"
      (peer_id_to_string peer) (Some (chat_preview peer (cw_body request))) (ca_now (ni_second io)))
    (ca_now (ni_second io))
}.

Lemma chat_guards local authority peer now request en t :
  engine_get_ticket en (cw_ticket_id request) = Some t →
  (is_ticket_counterparty t local peer && chat_authority_valid local authority peer now request en &&
   permits_work (tr_state t)) = true ↔ chat_acceptable local authority peer now request en.
Proof.
  intros Ht. unfold chat_acceptable, chat_authority_valid, is_ticket_counterparty, write_proven.
  rewrite Ht, !andb_true_iff, orb_true_iff, !bool_decide_eq_true.
  destruct (decide (tr_client_peer_id t = local)) as [Hl|Hl].
  - rewrite bool_decide_eq_true_2, both_and_true by done. naive_solver.
  - rewrite bool_decide_eq_false_2 by done. naive_solver.
Qed.

(** A chat message is recorded only if it is acceptable; a refused one changes
    nothing at all, and a failed one no ticket. An accepted message is among the
    messages of the ticket under its id - the first with that id stays - the messages
    before it are kept in order, and no other ticket is touched; a failure of the audit
    entry that follows is not reported. The answer always names the message. *)
Theorem chat_request_correct local authority peer io request en :
  engine_inv en → signer_wf (en_signer en) → chat_ready en peer io request →
  let '(ack, en') := handle_chat_request local authority peer io request en in
  engine_inv en' ∧ ack_message_id ack = cw_id request ∧
  (¬ chat_acceptable local authority peer (ni_clock io) request en → ack_success ack = false ∧ en' = en) ∧
  (ack_success ack = false → en_state en' = en_state en) ∧
  (ack_success ack = true →
     chat_acceptable local authority peer (ni_clock io) request en ∧
     ∃ a b, en_state en !! cw_ticket_id request = Some a ∧ en_state en' !! cw_ticket_id request = Some b ∧
       agg_messages a `prefix_of` agg_messages b ∧ cw_id request ∈ cm_id <$> agg_messages b ∧
       same_ticket (agg_record a) (agg_record b)).
Proof.
  intros He Hwf [Hmsg Haudit]. unfold handle_chat_request.
  destruct (engine_get_ticket en (cw_ticket_id request)) as [t|] eqn:Ht.
  2:{ by do 4 (split; [done|]). }
  pose proof (chat_guards local authority peer (ni_clock io) request en t Ht) as Hg.
  destruct (is_ticket_counterparty t local peer) eqn:H1; [|by do 4 (split; [done|])].
  destruct (chat_authority_valid local authority peer (ni_clock io) request en) eqn:H2; [|by do 4 (split; [done|])].
  destruct (permits_work (tr_state t)) eqn:H3; [|by do 4 (split; [done|])]. simpl in *.
  pose proof (proj1 Hg eq_refl) as Hacc. clear Hg H1 H2 H3.
  pose proof (add_chat_message_spec _ _ (received_message peer request) en He Hwf Hmsg) as Hadd.
  destruct (add_chat_message _ _ _ en) as [r en1]. destruct Hadd as (He1 & (Hs1 & _) & Hr). simpl in Haudit.
  destruct r as [u|err].
  2:{ do 3 (split; [done|]). split; [|done]. intros _. destruct err; tauto || done. }
  destruct (record_event_spec _ _ _ _ _ _ _ _ He1 ltac:(by rewrite Hs1) Haudit) as [He2 Hall].
  destruct (record_event _ _ _ _ _ _ _ en1) as [r2 en2]. simpl in *.
  split; [done|]. split; [done|]. split; [done|]. split; [done|]. intros _. split; [done|].
  destruct Hr as (a & b & Ha & Hst & Hsame & Hm).
  destruct (Hall (cw_ticket_id request) b) as (c & Hc & Hsame2 & Hm2 & _); [by rewrite Hst, lookup_insert_eq|].
  exists a, c. split; [done|]. split; [done|]. rewrite Hm2, Hm. simpl.
  split; [destruct (existsb _ _); [done|by apply prefix_app_r]|].
  split; [|unfold same_ticket in *; repeat split; intuition congruence].
  destruct (existsb _ _) eqn:Hex; [by apply existsb_id_true in Hex|].
  rewrite fmap_app, elem_of_app. right. left.
Qed.
End sync_properties.
