(* ===== verification/Peers.v ===== *)
(** The peers a node knows ([PeerRegistry], [dial_candidates] and the HELLO exchange of
    [crates/fortiq-p2p/src/node.rs]): what is recorded about a peer by each source, the
    summaries shown to the user and the addresses dialled to reach a peer.

    The registry is a hash map; the order of its values is not part of the model's
    claims.  Times are in milliseconds. *)

From S2P Require Import Prelude Text Object Concrete Config Stream Wire Sync.

#[local] Open Scope string_scope.

Section peers.
Context `{LP : Libp2p}.

Record DiscoveredPeer := mkDiscovered {
  dp_peer_id : PeerId;
  dp_name : option string;
  dp_os : option string;
  dp_arch : option string;
  dp_version : option string;
  dp_relay : bool;
  dp_rendezvous : bool;
  dp_addresses : list Multiaddr;
  dp_transport : string;
  dp_connected : bool;
  dp_last_seen : N
}.

(** [PeerRegistry]. *)
Abbreviation PeerRegistry := (gmap PeerId DiscoveredPeer) (only parsing).
Definition PeerRegistry_new : PeerRegistry := ∅.

(** [peers.entry(id).or_insert_with(…)], and then assignments through the entry. *)
Definition update_entry (peers : PeerRegistry) (peer_id : PeerId) (fresh : DiscoveredPeer)
    (update : DiscoveredPeer → DiscoveredPeer) : PeerRegistry :=
  <[peer_id := update (default fresh (peers !! peer_id))]> peers.

(** [if !addresses.contains(addr) { addresses.push(addr) }]. *)
Definition add_address (addr : Multiaddr) (l : list Multiaddr) : list Multiaddr :=
  if bool_decide (addr ∈ l) then l else (l ++ [addr])%list.
Definition add_addresses (addrs : list Multiaddr) (l : list Multiaddr) : list Multiaddr :=
  foldl (λ l addr, add_address addr l) l addrs.

Definition transport_of (addr : Multiaddr) : string :=
  if has_circuit addr then "RELAY CIRCUIT" else if has_quic addr then "QUIC DIRECT" else "P2P".

Definition record_connection (peers : PeerRegistry) (now : N) (peer_id : PeerId) (addr : Multiaddr)
    : PeerRegistry :=
  let transport := transport_of addr in
  update_entry peers peer_id
    (mkDiscovered peer_id None None None None false false [] transport true now)
    (λ e, {| dp_peer_id := dp_peer_id e; dp_name := dp_name e; dp_os := dp_os e; dp_arch := dp_arch e;
             dp_version := dp_version e; dp_relay := dp_relay e; dp_rendezvous := dp_rendezvous e;
             dp_addresses := add_address addr (dp_addresses e); dp_transport := transport;
             dp_connected := true; dp_last_seen := now |}).

Definition record_disconnection (peers : PeerRegistry) (now : N) (peer_id : PeerId)
    (remaining_established : N) : PeerRegistry :=
  if (remaining_established =? 0)%N then
    match peers !! peer_id with
    | Some e => <[peer_id :=
        {| dp_peer_id := dp_peer_id e; dp_name := dp_name e; dp_os := dp_os e; dp_arch := dp_arch e;
           dp_version := dp_version e; dp_relay := dp_relay e; dp_rendezvous := dp_rendezvous e;
           dp_addresses := dp_addresses e; dp_transport := dp_transport e;
           dp_connected := false; dp_last_seen := now |}]> peers
    | None => peers
    end
  else peers.

Definition record_hello (peers : PeerRegistry) (now : N) (peer_id : PeerId) (info : NodeInfo)
    : PeerRegistry :=
  update_entry peers peer_id
    (mkDiscovered peer_id (Some (ni_name info)) (Some (ni_os info)) (Some (ni_arch info))
       (Some (ni_version info)) (ni_relay info) (ni_rendezvous info) [] "P2P" true now)
    (λ e, {| dp_peer_id := dp_peer_id e; dp_name := Some (ni_name info); dp_os := Some (ni_os info);
             dp_arch := Some (ni_arch info); dp_version := Some (ni_version info);
             dp_relay := ni_relay info; dp_rendezvous := ni_rendezvous info;
             dp_addresses := dp_addresses e; dp_transport := dp_transport e;
             dp_connected := dp_connected e; dp_last_seen := now |}).

(** The fields of [identify::Info] that are read. *)
Definition set_addresses (e : DiscoveredPeer) (l : list Multiaddr) : DiscoveredPeer :=
  {| dp_peer_id := dp_peer_id e; dp_name := dp_name e; dp_os := dp_os e; dp_arch := dp_arch e;
     dp_version := dp_version e; dp_relay := dp_relay e; dp_rendezvous := dp_rendezvous e;
     dp_addresses := l; dp_transport := dp_transport e; dp_connected := dp_connected e;
     dp_last_seen := dp_last_seen e |}.

Definition record_identify (peers : PeerRegistry) (now : N) (peer_id : PeerId)
    (protocol_version : string) (listen_addrs : list Multiaddr) : PeerRegistry :=
  update_entry peers peer_id
    (mkDiscovered peer_id None None None (Some protocol_version) false false [] "P2P" true now)
    (λ e, set_addresses e (add_addresses listen_addrs (dp_addresses e))).

Definition record_rendezvous (peers : PeerRegistry) (now : N) (peer_id : PeerId)
    (addresses : list Multiaddr) : PeerRegistry :=
  update_entry peers peer_id
    (mkDiscovered peer_id None None None None false false [] "P2P" false now)
    (λ e, set_addresses e (add_addresses addresses (dp_addresses e))).

(** ** Summaries *)

Definition peer_summary (p : DiscoveredPeer) : PeerSummary := {|
  ps_peer_id := peer_id_to_string (dp_peer_id p);
  ps_hostname := default "Inconnu" (dp_name p);
  ps_os :=
    match dp_os p, dp_arch p with
    | Some os, Some arch => os +:+ " (" +:+ arch +:+ ")"
    | Some os, None => os
    | _, _ => "OS Inconnu"
    end;
  ps_transport := dp_transport p;
  ps_status := if dp_connected p then "CONNECTÉ" else "DÉCOUVERT";
  ps_relay := dp_relay p;
  ps_rendezvous := dp_rendezvous p
|}.

Definition summary_cmp (a b : PeerSummary) : comparison := str_cmp (ps_hostname a) (ps_hostname b).

Definition to_summaries (peers : PeerRegistry) : list PeerSummary :=
  sort_by summary_cmp (peer_summary <$> (map_to_list peers).*2).

(** ** Dialling *)

Definition full_address (peer : PeerId) (addr : Multiaddr) : Multiaddr :=
  if ends_with_peer addr then addr else push_peer peer addr.

Definition relay_circuit (peer : PeerId) (relay_peer : option string) : list Multiaddr :=
  match relay_peer ≫= parse_multiaddr with
  | Some relay => [push_peer peer (push_circuit relay)]
  | None => []
  end.

Definition dial_candidates (peer : PeerId) (registry : PeerRegistry) (relay_peer : option string)
    : list Multiaddr :=
  let candidates := relay_circuit peer relay_peer in
  match registry !! peer with
  | Some known => foldl (λ l addr, add_address (full_address peer addr) l) candidates (dp_addresses known)
  | None => candidates
  end.

(** ** HELLO *)

Inductive HelloError := HelloEncoding | HelloTooLarge | HelloInvalidPeer | HelloMismatch.

Definition validate_hello `{Json NodeInfo} (authenticated_peer : PeerId) (info : NodeInfo)
    : result HelloError unit :=
  let? serialized := ok_or (json_to_vec info) HelloEncoding in
  if (MAX_HELLO_BYTES <? blen serialized)%N then Err HelloTooLarge else
  let? claimed_peer := ok_or (parse_peer_id (ni_peer_id info)) HelloInvalidPeer in
  if bool_decide (claimed_peer = authenticated_peer) then Ok tt else Err HelloMismatch.

Inductive HelloEvent :=
| HelloRequest (peer : PeerId) (info : NodeInfo) (channel : N)
| HelloResponse (peer : PeerId) (info : NodeInfo)
| HelloOther.

(** The answer sent, if any, and the registry after the event. *)
Definition handle_hello `{Json NodeInfo} (local_info : NodeInfo) (now : N) (event : HelloEvent)
    (registry : PeerRegistry) : option (N * NodeInfo) * PeerRegistry :=
  match event with
  | HelloRequest peer info channel =>
      match validate_hello peer info with
      | Err _ => (None, registry)
      | Ok _ => (Some (channel, local_info), record_hello registry now peer info)
      end
  | HelloResponse peer info =>
      match validate_hello peer info with
      | Err _ => (None, registry)
      | Ok _ => (None, record_hello registry now peer info)
      end
  | HelloOther => (None, registry)
  end.
End peers.

(** ** Properties *)

Section peer_properties.
Context `{LP : Libp2p}.

(** What the event loop does to the registry. *)
Inductive registry_op :=
| OpConnection (now : N) (peer : PeerId) (addr : Multiaddr)
| OpDisconnection (now : N) (peer : PeerId) (remaining : N)
| OpHello (now : N) (peer : PeerId) (info : NodeInfo)
| OpIdentify (now : N) (peer : PeerId) (version : string) (addrs : list Multiaddr)
| OpRendezvous (now : N) (peer : PeerId) (addrs : list Multiaddr).

Definition apply_op (r : gmap PeerId DiscoveredPeer) (op : registry_op) : gmap PeerId DiscoveredPeer :=
  match op with
  | OpConnection now p a => record_connection r now p a
  | OpDisconnection now p n => record_disconnection r now p n
  | OpHello now p info => record_hello r now p info
  | OpIdentify now p v l => record_identify r now p v l
  | OpRendezvous now p l => record_rendezvous r now p l
  end.

Definition op_peer (op : registry_op) : PeerId :=
  match op with
  | OpConnection _ p _ | OpDisconnection _ p _ | OpHello _ p _ | OpIdentify _ p _ _
  | OpRendezvous _ p _ => p
  end.

Record peer_ok (id : PeerId) (e : DiscoveredPeer) : Prop := {
  po_id : dp_peer_id e = id;
  po_addresses : NoDup (dp_addresses e)
}.

Definition registry_inv (r : gmap PeerId DiscoveredPeer) : Prop := map_Forall peer_ok r.

Lemma elem_of_add_address a x l : x ∈ add_address a l ↔ x = a ∨ x ∈ l.
Proof. unfold add_address. case_bool_decide; [set_solver|]. rewrite elem_of_app. set_solver. Qed.

Lemma NoDup_add_address a l : NoDup l → NoDup (add_address a l).
Proof.
  intros H. unfold add_address. case_bool_decide; [done|]. apply NoDup_app.
  split; [done|]. split; [set_solver|apply NoDup_singleton].
Qed.

Lemma prefix_add_address a l : l `prefix_of` add_address a l.
Proof. unfold add_address. case_bool_decide; [done|]. by apply prefix_app_r. Qed.

Lemma NoDup_add_addresses addrs l : NoDup l → NoDup (add_addresses addrs l).
Proof. revert l. induction addrs as [|a addrs IH]; intros l H; [done|]. by apply IH, NoDup_add_address. Qed.

Lemma prefix_add_addresses addrs l : l `prefix_of` add_addresses addrs l.
Proof.
  revert l. induction addrs as [|a addrs IH]; intros l; [done|].
  etrans; [apply prefix_add_address|apply (IH (add_address a l))].
Qed.

(** Later states of an entry keep its id and its addresses. *)
Record entry_le (e e' : DiscoveredPeer) : Prop := {
  el_id : dp_peer_id e' = dp_peer_id e;
  el_addresses : dp_addresses e `prefix_of` dp_addresses e';
  el_nodup : NoDup (dp_addresses e) → NoDup (dp_addresses e')
}.

#[export] Instance entry_le_preorder : PreOrder entry_le.
Proof.
  split.
  - intros e. by split.
  - intros a b c [H1 H2 H3] [H4 H5 H6]. split; [congruence|by etrans|auto].
Qed.

(** Every operation is an update of the one entry it names. *)
Lemma apply_op_entry r op :
  (∀ id, id ≠ op_peer op → apply_op r op !! id = r !! id) ∧
  match r !! op_peer op with
  | Some e => ∃ e', apply_op r op !! op_peer op = Some e' ∧ entry_le e e'
  | None => ∀ e', apply_op r op !! op_peer op = Some e' → peer_ok (op_peer op) e'
  end.
Proof.
  destruct op as [now p a|now p n|now p info|now p v l|now p l]; simpl;
    unfold record_connection, record_disconnection, record_hello, record_identify, record_rendezvous,
      update_entry.
  2:{ destruct (n =? 0)%N; destruct (r !! p) as [e|] eqn:Hr; simpl; (split;
        [by intros id Hid; rewrite ?lookup_insert_ne by done|]).
      - rewrite lookup_insert_eq. eexists. split; [done|by split].
      - by rewrite ?Hr.
      - exists e. by rewrite ?Hr.
      - by rewrite ?Hr. }
  all: split; [intros id Hid; by rewrite lookup_insert_ne by done|].
  all: rewrite lookup_insert_eq; destruct (r !! p) as [e|]; simpl.
  all: try (eexists; split; [done|]; split; simpl; [done|..];
    auto using NoDup_add_address, prefix_add_address, NoDup_add_addresses, prefix_add_addresses).
  all: intros e' [= <-]; split; simpl; [done|].
  all: auto using NoDup_add_address, NoDup_add_addresses, NoDup_nil_2.
Qed.

Lemma apply_op_inv r op : registry_inv r → registry_inv (apply_op r op).
Proof.
  intros H id e He. destruct (apply_op_entry r op) as [Hne Heq].
  destruct (decide (id = op_peer op)) as [->|Hid]; [|rewrite Hne in He by done; by apply H].
  destruct (r !! op_peer op) as [e0|] eqn:Hr; [|by apply Heq].
  destruct Heq as (e' & He' & Hle). rewrite He in He'. injection He' as <-.
  destruct (H _ _ Hr) as [Hi Hn]. split; [by rewrite (el_id _ _ Hle)|by apply (el_nodup _ _ Hle)].
Qed.

Lemma apply_op_le r op id e :
  r !! id = Some e → ∃ e', apply_op r op !! id = Some e' ∧ entry_le e e'.
Proof.
  intros He. destruct (apply_op_entry r op) as [Hne Heq].
  destruct (decide (id = op_peer op)) as [->|Hid].
  - by rewrite He in Heq.
  - exists e. by rewrite Hne.
Qed.

(** The registry over any sequence of what the event loop records: an entry is filed
    under its own peer and lists no address twice; nothing known of a peer's addresses
    is lost and no peer is ever forgotten; an operation touches only the peer it names.
    The summaries show every peer once, by host name. *)
Theorem registry_grows (ops ops' : list registry_op) (op : registry_op) :
  let r := foldl apply_op PeerRegistry_new ops in
  registry_inv r ∧
  (∀ id e, r !! id = Some e →
     ∃ e', foldl apply_op r ops' !! id = Some e' ∧ dp_addresses e `prefix_of` dp_addresses e') ∧
  (∀ id, id ≠ op_peer op → apply_op r op !! id = r !! id) ∧
  StronglySorted (cmp_le summary_cmp) (to_summaries r) ∧
  to_summaries r ≡ₚ peer_summary <$> (map_to_list r).*2.
Proof.
  intros r. split; [|split; [|split; [|split]]].
  - unfold r. clear. induction ops as [|op ops IH] using rev_ind; [apply map_Forall_empty|].
    rewrite foldl_snoc. by apply apply_op_inv.
  - intros id e He. assert (∃ e', foldl apply_op r ops' !! id = Some e' ∧ entry_le e e') as (e' & H & Hle).
    { induction ops' as [|op' ops' IH] using rev_ind; [by exists e|].
      rewrite foldl_snoc. destruct IH as (e1 & H1 & Hle1).
      destruct (apply_op_le _ op' _ _ H1) as (e2 & H2 & Hle2). exists e2. split; [done|by etrans]. }
    exists e'. split; [done|apply Hle].
  - apply apply_op_entry.
  - apply (key_sort_sorted ps_hostname str_cmp).
  - apply sort_by_perm.
Qed.

Lemma elem_of_candidates peer l k x :
  x ∈ foldl (λ l addr, add_address (full_address peer addr) l) k l ↔
    x ∈ k ∨ ∃ a, a ∈ l ∧ x = full_address peer a.
Proof.
  revert k. induction l as [|a l IH]; intros k; simpl.
  - set_solver.
  - rewrite IH, elem_of_add_address. set_solver.
Qed.

(** The addresses dialled for a peer: the circuit through the configured relay
    first, then the known addresses completed with the peer; none twice, each ending
    with a peer id, so that no second one is ever appended. *)
Theorem dial_candidates_correct `{LL : !Libp2pLaws} peer registry relay_peer :
  let l := dial_candidates peer registry relay_peer in
  NoDup l ∧ relay_circuit peer relay_peer `prefix_of` l ∧
  (∀ x, x ∈ l → ends_with_peer x = true) ∧
  (∀ x, x ∈ l ↔ x ∈ relay_circuit peer relay_peer ∨
     ∃ known a, registry !! peer = Some known ∧ a ∈ dp_addresses known ∧ x = full_address peer a).
Proof.
  intros l. assert (∀ x, x ∈ l ↔ x ∈ relay_circuit peer relay_peer ∨
    ∃ known a, registry !! peer = Some known ∧ a ∈ dp_addresses known ∧ x = full_address peer a) as Hel.
  { intros x. unfold l, dial_candidates. destruct (registry !! peer) as [known|]; [|naive_solver].
    rewrite elem_of_candidates. naive_solver. }
  assert (NoDup (relay_circuit peer relay_peer)) as Hc.
  { unfold relay_circuit. destruct (_ ≫= _); [apply NoDup_singleton|apply NoDup_nil_2]. }
  split; [|split; [|split; [|done]]].
  - unfold l, dial_candidates. destruct (registry !! peer) as [known|]; [|done].
    revert Hc. generalize (relay_circuit peer relay_peer). induction (dp_addresses known) as [|a as' IH];
      intros k Hk; [done|]. by apply IH, NoDup_add_address.
  - unfold l, dial_candidates. destruct (registry !! peer) as [known|]; [|done].
    generalize (relay_circuit peer relay_peer). induction (dp_addresses known) as [|a as' IH];
      intros k; [done|]. simpl. etrans; [apply prefix_add_address|apply IH].
  - intros x [Hx|(known & a & _ & _ & ->)]%Hel.
    + unfold relay_circuit in Hx. destruct (_ ≫= _); [|by apply elem_of_nil in Hx].
      apply list_elem_of_singleton in Hx as ->. apply ends_with_push_peer.
    + unfold full_address. destruct (ends_with_peer a) eqn:E; [done|]. apply ends_with_push_peer.
Qed.

Lemma validate_hello_Ok `{Json NodeInfo} peer info :
  validate_hello peer info = Ok tt ↔
    (∃ l, json_to_vec info = Some l ∧ (blen l ≤ MAX_HELLO_BYTES)%N) ∧
    parse_peer_id (ni_peer_id info) = Some peer.
Proof.
  unfold validate_hello. destruct (json_to_vec info) as [l|]; simpl; [|naive_solver].
  destruct (N.ltb_spec MAX_HELLO_BYTES (blen l)) as [Hl|Hl].
  - split; [done|]. intros [(? & [= <-] & ?) _]. lia.
  - destruct (parse_peer_id (ni_peer_id info)) as [q|]; simpl; [|naive_solver].
    case_bool_decide; naive_solver.
Qed.

(** A HELLO is believed only from the peer it names and within 16 KiB: otherwise it
    is neither recorded nor answered; a valid request is answered with this node's own
    information. Only the entry of the authenticated peer changes. *)
Theorem hello_authenticated `{Json NodeInfo} local_info now peer info channel registry :
  let valid := (∃ l, json_to_vec info = Some l ∧ (blen l ≤ MAX_HELLO_BYTES)%N) ∧
               parse_peer_id (ni_peer_id info) = Some peer in
  let '(answer, r) := handle_hello local_info now (HelloRequest peer info channel) registry in
  (answer = Some (channel, local_info) ↔ valid) ∧ (answer = None ↔ ¬ valid) ∧
  (¬ valid → r = registry) ∧ (∀ id, id ≠ peer → r !! id = registry !! id) ∧
  (valid → ∃ e, r !! peer = Some e ∧ dp_name e = Some (ni_name info)) ∧
  (handle_hello local_info now (HelloResponse peer info) registry).2 = r.
Proof.
  intros valid. simpl. pose proof (validate_hello_Ok peer info) as Hv. fold valid in Hv.
  destruct (validate_hello peer info) as [[]|err].
  - assert valid as Hval by (by apply Hv). split; [naive_solver|]. split; [naive_solver|].
    split; [naive_solver|]. split; [apply (proj1 (apply_op_entry registry (OpHello now peer info)))|].
    split; [|done]. intros _. eexists. unfold record_hello, update_entry. by rewrite lookup_insert_eq.
  - assert (¬ valid) as Hval by (rewrite <- Hv; done). naive_solver.
Qed.
End peer_properties.

(** ** Witness *)

Lemma dial_candidates_correct_witness :
  @Libp2pLaws toy_libp2p ∧
  dial_candidates (LP := toy_libp2p) "B" (record_rendezvous (LP := toy_libp2p) ∅ 0 "B" ["q1"; "r1p"]) (Some "relay") =
    ["relaycBp"; "q1Bp"; "r1p"] ∧
  NoDup (dial_candidates (LP := toy_libp2p) "B"
    (record_rendezvous (LP := toy_libp2p) ∅ 0 "B" ["q1"; "r1p"]) (Some "relay")).
Proof.
  split; [exact toy_libp2p_laws|]. split; [vm_compute; reflexivity|].
  exact (proj1 (dial_candidates_correct (LP := toy_libp2p) (LL := toy_libp2p_laws) "B"
    (record_rendezvous (LP := toy_libp2p) ∅ 0 "B" ["q1"; "r1p"]) (Some "relay"))).
Defined.
