(* ===== verification/Admission.v ===== *)
(** Admission of remote shells ([handle_incoming_shell_next] in
    [crates/fortiq-p2p/src/node.rs]): the challenge, the checks before a shell is
    granted, the flag that allows one shell at a time, the watcher that revokes a
    running shell, and what is recorded of a session.

    What the shell itself does is in Session.v; here a session is a task that ends. *)

From S2P Require Import Prelude Text Object Concrete Ticket Event Graph GraphSort.
From S2P Require Import Reducer Authority Store Engine EngineRuns Codec Stream Config Shell Wire Sync.

#[local] Open Scope string_scope.

(** The random challenge, what the peer sends, whether the five seconds pass before it
    is complete, the clock, and the random identifier of the session. *)
Record shell_io := mkShellIo {
  si_challenge : vec byte 32;
  si_incoming : reader;
  si_timeout : bool;
  si_clock : N;
  si_session_id : string
}.

Inductive task_phase := Spawned | Serving.

(** The spawned task. *)
Record ShellTask := mkShellTask {
  sk_session_id : string;
  sk_ticket_id : string;
  sk_operator_transport : string;
  sk_expires_at : N;
  sk_phase : task_phase
}.

Definition serving (t : ShellTask) : ShellTask :=
  mkShellTask (sk_session_id t) (sk_ticket_id t) (sk_operator_transport t) (sk_expires_at t) Serving.

Section admission.
Context `{CC : Crypto, HX : Hex, BC : BodyCodec, OC : ObjectCodec}.
Context `{LP : Libp2p, JS : Json ShellNextHandshake}.
Context {St : Type} `{OS : !ObjectStore St}.
Implicit Types en : TicketEngine St.

Record ShellHost := mkShellHost {
  ho_engine : TicketEngine St;
  ho_active : bool;              (** [active_shells] *)
  ho_tasks : list ShellTask      (** the tasks that hold a [ShellSessionGuard] *)
}.

Definition shell_authority_valid (authority : option AuthorityContext) (remote_peer : PeerId)
    (challenge : vec byte 32) (h : ShellNextHandshake) (now : N) : bool :=
  match authority with
  | Some authority =>
      bool_decide (sn_network_id h = ac_network_id authority) &&
      bool_decide (sn_operator_transport_peer_id h = peer_id_to_string remote_peer) &&
      verify_certificate authority remote_peer (sn_session_certificate h) CAP_SHELL_EXEC now
  | None => false
  end &&
  session_key_signed (cert_session_pubkey (sn_session_certificate h))
    (signing_payload (sn_network_id h) (sn_ticket_id h) (sn_operator_transport_peer_id h) challenge)
    (sn_challenge_signature h).

Definition receive_handshake (io : shell_io) : option ShellNextHandshake :=
  if si_timeout io then None else
  match ShellNextHandshake_read_from_async (si_incoming io) with
  | (Ok handshake, _) => Some handshake
  | (Err _, _) => None
  end.

Definition deny (code : N) (w : writer) (host : ShellHost) : writer * ShellHost :=
  ((send_authorization_code code w).2, host).

Definition handle_incoming_shell_next (local_info : NodeInfo) (authority : option AuthorityContext)
    (remote_peer : PeerId) (io : shell_io) (w : writer) (host : ShellHost) : writer * ShellHost :=
  match (let! _ := write_all (vec_to_list (si_challenge io)) in flush) w with
  | (Err _, w) => (w, host)
  | (Ok _, w) =>
      match receive_handshake io with
      | None => deny DENIED_INVALID_AUTHORITY w host
      | Some handshake =>
          let authority_valid :=
            shell_authority_valid authority remote_peer (si_challenge io) handshake (si_clock io) in
          match engine_get_ticket (ho_engine host) (sn_ticket_id handshake) with
          | None => deny DENIED_NO_TICKET w host
          | Some ticket =>
              if negb authority_valid then deny DENIED_INVALID_AUTHORITY w host else
              if negb (bool_decide (tr_client_peer_id ticket = ni_peer_id local_info))
                 || negb (permits_work (tr_state ticket))
              then deny DENIED_TICKET_CLOSED w host else
              if ho_active host then deny DENIED_BUSY w host else
              match send_authorization true w with
              | (Err _, w) => (w, mkShellHost (ho_engine host) false (ho_tasks host))
              | (Ok _, w) =>
                  (w, mkShellHost (ho_engine host) true
                        (ho_tasks host ++ [mkShellTask (si_session_id io) (tr_id ticket)
                           (peer_id_to_string remote_peer)
                           (cert_expires_at (sn_session_certificate handshake)) Spawned])%list)
              end
          end
      end
  end.

(** ** The task *)

(** [db.record_shell_session_start(&session_id, &ticket_id, …)], the arguments in the
    order of this call. *)
Definition record_start (io : call_io) (t : ShellTask) : EngineM St unit :=
  record_shell_session_start (ca_put io) (ca_now io) (sk_session_id t) (sk_ticket_id t)
    (sk_operator_transport t) "QUIC/shell-next".

Definition record_end (io : call_io) (ok : bool) (t : ShellTask) : EngineM St unit :=
  record_shell_session_end (ca_put io) (ca_now io) (sk_session_id t)
    (Some (if ok then "SUCCESS" else "REVOKED_OR_ERROR")).

(** One round of the watcher's loop. *)
Definition still_valid (now : N) (t : ShellTask) en : bool :=
  match engine_get_ticket en (sk_ticket_id t) with
  | Some ticket => permits_work (tr_state ticket)
  | None => false
  end && (now <? sk_expires_at t)%N.

(** The end of a task drops its guard. *)
Definition finish (i : nat) (io : call_io) (ok : bool) (t : ShellTask) (host : ShellHost) : ShellHost :=
  mkShellHost (record_end io ok t (ho_engine host)).2 false (delete i (ho_tasks host)).

Inductive shell_event :=
| ShellIncoming (peer : PeerId) (io : shell_io) (w : writer)
| ShellStarted (i : nat) (io : call_io)           (** the task is first run *)
| ShellServed (i : nat) (ok : bool) (io : call_io) (** [fortiq_shell::serve] returned *)
| ShellWatched (i : nat) (now : N) (io : call_io). (** 250 ms passed *)

Definition shell_step (local_info : NodeInfo) (authority : option AuthorityContext)
    (event : shell_event) (host : ShellHost) : ShellHost :=
  match event with
  | ShellIncoming peer io w => (handle_incoming_shell_next local_info authority peer io w host).2
  | ShellStarted i io =>
      match ho_tasks host !! i with
      | Some (mkShellTask _ _ _ _ Spawned as t) =>
          mkShellHost (record_start io t (ho_engine host)).2 (ho_active host)
            (<[i := serving t]> (ho_tasks host))
      | _ => host
      end
  | ShellServed i ok io =>
      match ho_tasks host !! i with
      | Some (mkShellTask _ _ _ _ Serving as t) => finish i io ok t host
      | _ => host
      end
  | ShellWatched i now io =>
      match ho_tasks host !! i with
      | Some (mkShellTask _ _ _ _ Serving as t) =>
          if still_valid now t (ho_engine host) then host else finish i io false t host
      | _ => host
      end
  end.
End admission.
Arguments ShellHost : clear implicits.

(** ** Properties *)

Section admission_properties.
Context `{CC : Crypto, CL : !CryptoLaws, HX : Hex, BC : BodyCodec, BL : !BodyCodecLaws, OC : ObjectCodec}.
Context `{LP : Libp2p, JS : Json ShellNextHandshake}.
Context {St : Type} `{OS : !ObjectStore St, OL : !ObjectStoreLaws St}.
Implicit Types (en : TicketEngine St) (host : ShellHost St).

(** The operator proved, over this very challenge, the right to a shell. *)
Definition shell_proven (authority : option AuthorityContext) (peer : PeerId) (io : shell_io)
    (h : ShellNextHandshake) : Prop :=
  ∃ context, authority = Some context ∧ sn_network_id h = ac_network_id context ∧
    sn_operator_transport_peer_id h = peer_id_to_string peer ∧
    verify_certificate context peer (sn_session_certificate h) CAP_SHELL_EXEC (si_clock io) = true ∧
    session_key_signed (cert_session_pubkey (sn_session_certificate h))
      (signing_payload (sn_network_id h) (sn_ticket_id h) (sn_operator_transport_peer_id h) (si_challenge io))
      (sn_challenge_signature h) = true.

Lemma shell_authority_valid_iff authority peer io h :
  shell_authority_valid authority peer (si_challenge io) h (si_clock io) = true ↔
    shell_proven authority peer io h.
Proof.
  unfold shell_authority_valid, shell_proven. rewrite andb_true_iff.
  destruct authority as [context|]; [|naive_solver].
  rewrite !andb_true_iff, !bool_decide_eq_true. naive_solver.
Qed.

(** The conditions of each answer, given the handshake that arrived. *)
Inductive shell_answer (local_info : NodeInfo) (authority : option AuthorityContext) (peer : PeerId)
    (io : shell_io) (host : ShellHost St) : N → Prop :=
| answer_no_handshake :
    receive_handshake io = None →
    shell_answer local_info authority peer io host DENIED_INVALID_AUTHORITY
| answer_no_ticket h :
    receive_handshake io = Some h → engine_get_ticket (ho_engine host) (sn_ticket_id h) = None →
    shell_answer local_info authority peer io host DENIED_NO_TICKET
| answer_invalid h t :
    receive_handshake io = Some h → engine_get_ticket (ho_engine host) (sn_ticket_id h) = Some t →
    ¬ shell_proven authority peer io h →
    shell_answer local_info authority peer io host DENIED_INVALID_AUTHORITY
| answer_closed h t :
    receive_handshake io = Some h → engine_get_ticket (ho_engine host) (sn_ticket_id h) = Some t →
    shell_proven authority peer io h →
    ¬ (tr_client_peer_id t = ni_peer_id local_info ∧ permits_work (tr_state t) = true) →
    shell_answer local_info authority peer io host DENIED_TICKET_CLOSED
| answer_busy h t :
    receive_handshake io = Some h → engine_get_ticket (ho_engine host) (sn_ticket_id h) = Some t →
    shell_proven authority peer io h →
    tr_client_peer_id t = ni_peer_id local_info → permits_work (tr_state t) = true →
    ho_active host = true →
    shell_answer local_info authority peer io host DENIED_BUSY
| answer_authorized h t :
    receive_handshake io = Some h → engine_get_ticket (ho_engine host) (sn_ticket_id h) = Some t →
    shell_proven authority peer io h →
    tr_client_peer_id t = ni_peer_id local_info → permits_work (tr_state t) = true →
    ho_active host = false →
    shell_answer local_info authority peer io host AUTHORIZED.

Lemma deny_out code out host :
  deny code (mkWriter out None) host = (mkWriter (out ++ [byte_of_N code])%list None, host).
Proof. done. Qed.

(** What the handler makes of an answer. *)
Lemma handle_incoming_answer local_info authority peer io host :
  ∃ code, shell_answer local_info authority peer io host code ∧
    (handle_incoming_shell_next local_info authority peer io writer_new host).1 =
      mkWriter (vec_to_list (si_challenge io) ++ [byte_of_N code])%list None ∧
    let host' := (handle_incoming_shell_next local_info authority peer io writer_new host).2 in
    if (code =? AUTHORIZED)%N
    then ho_active host' = true ∧ ho_engine host' = ho_engine host ∧
      ∃ h, receive_handshake io = Some h ∧
        ho_tasks host' = (ho_tasks host ++ [mkShellTask (si_session_id io)
          (default "" (tr_id <$> engine_get_ticket (ho_engine host) (sn_ticket_id h)))
          (peer_id_to_string peer) (cert_expires_at (sn_session_certificate h)) Spawned])%list
    else host' = host.
Proof.
  unfold handle_incoming_shell_next. cbn [sbind write_all flush writer_new wr_room wr_out app].
  destruct (receive_handshake io) as [h|] eqn:Hh.
  2:{ exists DENIED_INVALID_AUTHORITY. split; [by constructor|]. by rewrite deny_out. }
  destruct (engine_get_ticket (ho_engine host) (sn_ticket_id h)) as [t|] eqn:Ht.
  2:{ exists DENIED_NO_TICKET. split; [by econstructor|]. by rewrite deny_out. }
  destruct (shell_authority_valid _ _ _ _ _) eqn:Hv; simpl.
  2:{ exists DENIED_INVALID_AUTHORITY. split; [|done].
      eapply answer_invalid; [done..|]. rewrite <- shell_authority_valid_iff. congruence. }
  apply shell_authority_valid_iff in Hv.
  destruct (bool_decide (tr_client_peer_id t = ni_peer_id local_info) && permits_work (tr_state t)) eqn:Hw.
  2:{ assert (negb (bool_decide (tr_client_peer_id t = ni_peer_id local_info)) ||
              negb (permits_work (tr_state t)) = true) as -> by (by rewrite <- negb_andb, Hw).
      exists DENIED_TICKET_CLOSED. split; [|done]. eapply answer_closed; [done..|].
      rewrite <- (bool_decide_eq_true (tr_client_peer_id t = _)), <- andb_true_iff. congruence. }
  apply andb_true_iff in Hw as [Hc%bool_decide_eq_true Hp].
  rewrite (bool_decide_eq_true_2 _ Hc), Hp. simpl.
  destruct (ho_active host) eqn:Ha.
  - exists DENIED_BUSY. split; [by eapply answer_busy|done].
  - exists AUTHORIZED. split; [by eapply answer_authorized|]. simpl. split; [done|].
    split; [done|]. split; [done|]. exists h. split; [done|]. by rewrite Ht.
Qed.

(** One answer only. *)
Lemma shell_answer_unique local_info authority peer io host c c' :
  shell_answer local_info authority peer io host c → shell_answer local_info authority peer io host c' →
  c = c'.
Proof.
  destruct 1; destruct 1; try done; try congruence; exfalso;
    repeat match goal with
    | H : ?x = Some ?a, H' : ?x = Some ?b |- _ =>
        assert (a = b) by congruence; subst; clear H'
    end; tauto.
Qed.

(** C8. Admission of a shell. The handler always sends its challenge and one code, and
    the code is the one of these conditions, in this order: no or no timely handshake;
    an unknown ticket, told to anyone; no valid proof over this challenge by the peer's
    own certificate with SHELL_EXEC; a ticket that is not this node's or not workable;
    a shell already running; and otherwise authorized. Only an authorization changes
    the node: it takes the flag and spawns one task. *)
Theorem shell_admission_correct local_info authority peer io host :
  let '(w, host') := handle_incoming_shell_next local_info authority peer io writer_new host in
  ∃ code, shell_answer local_info authority peer io host code ∧
    (∀ c, shell_answer local_info authority peer io host c → c = code) ∧
    wr_out w = (vec_to_list (si_challenge io) ++ [byte_of_N code])%list ∧
    ho_engine host' = ho_engine host ∧
    (code ≠ AUTHORIZED → host' = host) ∧
    (code = AUTHORIZED → ho_active host' = true ∧
       ∃ t, ho_tasks host' = (ho_tasks host ++ [t])%list ∧ sk_session_id t = si_session_id io ∧
         sk_operator_transport t = peer_id_to_string peer).
Proof.
  destruct (handle_incoming_answer local_info authority peer io host) as (code & Ha & Hw & Hh).
  destruct (handle_incoming_shell_next _ _ _ _ _ _) as [w host']. simpl in *. exists code.
  split; [done|]. split; [intros c Hc; by eapply shell_answer_unique|]. split; [by rewrite Hw|].
  destruct (N.eqb_spec code AUTHORIZED) as [->|Hne].
  - destruct Hh as (Hact & He & h & _ & Ht). split; [done|]. split; [done|]. intros _. split; [done|].
    eexists. by rewrite Ht.
  - subst host'. by split.
Qed.

(** ** One shell at a time *)

Definition host_inv host : Prop :=
  (ho_active host = false ∧ ho_tasks host = []) ∨
  (∃ t, ho_active host = true ∧ ho_tasks host = [t]).

Lemma incoming_inv local_info authority peer io w host :
  host_inv host → host_inv (handle_incoming_shell_next local_info authority peer io w host).2.
Proof.
  intros H. unfold handle_incoming_shell_next.
  destruct (sbind _ _ w) as [[u|e] w1]; [|done].
  destruct (receive_handshake io) as [h|]; [|done].
  destruct (engine_get_ticket _ _) as [t|]; [|done].
  destruct (negb _); [done|]. destruct (_ || _); [done|].
  destruct (ho_active host) eqn:Ha; [done|].
  assert (ho_tasks host = []) as Ht by (destruct H as [[_ H]|(? & ? & _)]; congruence).
  destruct (send_authorization true w1) as [[v|e] w2]; simpl.
  - right. rewrite Ht. eexists. done.
  - left. by rewrite Ht.
Qed.

Lemma finish_inv i io ok t host :
  host_inv host → ho_tasks host !! i = Some t → host_inv (finish i io ok t host).
Proof.
  intros H Hi. left. split; [done|]. simpl. destruct H as [[_ H]|(t' & _ & H)]; rewrite H in Hi |- *.
  - by rewrite lookup_nil in Hi.
  - destruct i; [done|]. by rewrite lookup_cons, lookup_nil in Hi.
Qed.

Lemma shell_step_inv local_info authority event host :
  host_inv host → host_inv (shell_step local_info authority event host).
Proof.
  intros H. destruct event as [peer io w|i io|i ok io|i now io]; simpl.
  - by apply incoming_inv.
  - destruct (ho_tasks host !! i) as [[a b c d []]|] eqn:Hi; [|done..].
    destruct H as [[_ Ht]|(t & Hact & Ht)]; rewrite Ht in Hi |- *; [by rewrite lookup_nil in Hi|].
    destruct i; [|by rewrite lookup_cons, lookup_nil in Hi]. right. by eexists.
  - destruct (ho_tasks host !! i) as [[a b c d []]|] eqn:Hi; [done| |done]. by apply finish_inv.
  - destruct (ho_tasks host !! i) as [[a b c d []]|] eqn:Hi; [done| |done].
    destruct (still_valid _ _ _); [done|]. by apply finish_inv.
Qed.

(** Over any sequence of incoming peers, shells that end and watcher polls, at most
    one task holds a shell, the flag is set exactly while one does, and so a new shell
    can be granted as soon as the last one ended; a poll of the watcher ends a running
    shell exactly when its ticket is gone or no longer workable or its certificate has
    expired, and frees the flag in that step. *)
Theorem one_shell_at_a_time local_info authority events en i t now io :
  let host := foldl (λ h e, shell_step local_info authority e h) (mkShellHost en false []) events in
  (length (ho_tasks host) ≤ 1)%nat ∧
  (ho_active host = true ↔ ho_tasks host ≠ []) ∧
  (ho_tasks host !! i = Some t → sk_phase t = Serving →
     let host' := shell_step local_info authority (ShellWatched i now io) host in
     if still_valid now t (ho_engine host) then host' = host
     else ho_tasks host' = [] ∧ ho_active host' = false).
Proof.
  intros host. assert (host_inv host) as Hinv.
  { unfold host. clear. induction events as [|e events IH] using rev_ind; [by left|].
    rewrite foldl_snoc. by apply shell_step_inv. }
  split; [destruct Hinv as [[_ ->]|(? & _ & ->)]; simpl; lia|].
  split; [destruct Hinv as [[-> ->]|(? & -> & ->)]; done|].
  intros Hi Hp. cbv zeta. cbn [shell_step]. rewrite Hi. destruct t as [a b c d ph]. simpl in Hp. subst ph.
  destruct (still_valid _ _ _); [done|].
  destruct (finish_inv i io false _ _ Hinv Hi) as [[H1 H2]|(t' & H1 & H2)]; [done|]. by simpl in H1.
Qed.

(** ** What is recorded of a session *)

Definition start_event (now : N) (t : ShellTask) : TicketEvent :=
  ShellSessionStarted (sk_session_id t) (sk_ticket_id t) (sk_operator_transport t) "QUIC/shell-next" now.

(** The node never records a shell session: it passes the session id where the engine
    takes the ticket id, so the event names a ticket that does not exist. Starting
    fails, unnoticed, after the useless object is stored; ending then finds no session
    and does nothing; every ticket keeps the sessions, revision and audit trail it
    had. *)
Theorem shell_session_never_recorded io io' ok t en :
  engine_inv en → signer_wf (en_signer en) →
  append_ready en (ca_put io) (start_event (ca_now io) t) (ca_now io) →
  engine_get_ticket en (sk_session_id t) = None →
  session_ticket (sk_session_id t) (en_state en) = None →
  let '(r, en1) := record_start io t en in
  let '(r', en2) := record_end io' ok t en1 in
  is_ok r = false ∧ r' = Ok tt ∧ en2 = en1 ∧ engine_inv en2 ∧ en_state en2 = en_state en.
Proof.
  intros He Hwf Hready Hnone Hses. unfold record_start, record_shell_session_start, start_shell_session.
  unfold sbind at 1 2. destruct (append_ticket_event _ _ _ en) as [r en1] eqn:Happ.
  destruct (append_note _ _ _ _ _ _ He Hwf Hready eq_refl Happ) as (He1 & _ & Hr).
  assert (is_ok r = false ∧ en_state en1 = en_state en) as [Hok Hst].
  { destruct r as [[ev obj]|e].
    - destruct Hr as (a & b & Ha & _). unfold engine_get_ticket, get_ticket in Hnone. simpl in Ha.
      by rewrite Ha in Hnone.
    - split; [done|]. destruct e; tauto || done. }
  destruct r as [[ev obj]|e]; [done|].
  unfold record_end, record_shell_session_end, sbind, sget. by rewrite Hst, Hses.
Qed.
End admission_properties.
