(* ===== verification/Transfer.v ===== *)
(** Receiving a file ([handle_incoming_file_stream] and [normalize_file_id] in
    [crates/fortiq-p2p/src/node.rs]): the offer and its checks, the loop that writes the
    content and hashes it, and what is left behind on each failure.

    The peer's bytes are a reader; a read that times out is a reader that fails there.
    The answers of the disk are arguments, the files a map from paths.  What the disk
    holds after the last flush is an argument too, since the code does not look at the
    result of that flush.  [uuid::Uuid::parse_str] is an interface. *)

From stdpp Require Import pretty.
From S2P Require Import Prelude Text Object Concrete Ticket Event Graph GraphSort.
From S2P Require Import Reducer Authority Store Engine EngineRuns Codec Stream Config Shell Wire Sync.

#[local] Open Scope string_scope.

#[export] Instance component_countable : Countable component.
Proof.
  refine (inj_countable'
    (λ c, match c with RootDir => inl 0%N | CurDir => inl 1%N | ParentDir => inl 2%N | NormalPart b => inr b end)
    (λ x, match x with inl 0%N => RootDir | inl 1%N => CurDir | inl _ => ParentDir | inr b => NormalPart b end) _).
  by intros [].
Defined.

(** The simple form of a UUID: 32 hexadecimal digits in lower case. *)
Class Uuid := { parse_uuid_simple : string → option string }.
Class UuidLaws `{Uuid} := {
  uuid_simple_digits s i : parse_uuid_simple s = Some i →
    Forall (λ b, is_hex_lower b = true) (as_bytes i) ∧ length (as_bytes i) = 32%nat
}.

Definition normalize_file_id `{Uuid} (file_id : string) : option string := parse_uuid_simple file_id.

(** What the surroundings do during one transfer. *)
Record transfer_io := mkTransferIo {
  tf_slot : bool;                 (** one of the two slots was free *)
  tf_incoming : reader;
  tf_clock : N;
  tf_create_dir : bool;
  tf_create : bool;
  tf_write : nat → bool;          (** the write of the i-th chunk *)
  tf_flushed : bytes → bytes;     (** what the disk holds of the bytes written *)
  tf_rename : bool;
  tf_remove : bool;
  tf_attach : call_io;
  tf_audit : call_io
}.

Definition CHUNK : N := 8192.

(** Components of a path written with separators; redundant separators of the
    configured directory are not kept. *)
Definition component_bytes (c : component) : bytes :=
  match c with RootDir => [] | CurDir => as_bytes "." | ParentDir => as_bytes ".." | NormalPart b => b end.
Definition path_display (p : PathBuf) : string := from_bytes (join_bytes x2f (component_bytes <$> p)).

(** The loop over the content: the bytes written, whether all went well, and what is
    left of the stream; the fuel is a bound on the number of chunks. *)
Fixpoint receive_chunks (fuel : nat) (write : nat → bool) (i : nat) (remaining : N) (acc : bytes)
    : reader → option (bool * bytes * reader) := λ r,
  if (remaining =? 0)%N then Some (true, acc, r) else
  match fuel with
  | O => None
  | S fuel =>
      let to_read := N.min remaining CHUNK in
      match read_exact (N.to_nat to_read) r with
      | (Err _, r) => Some (false, acc, r)
      | (Ok chunk, r) =>
          if write i then receive_chunks fuel write (S i) (remaining - to_read)%N (acc ++ chunk)%list r
          else Some (false, acc, r)
      end
  end.

Definition chunk_fuel (size : N) : nat := S (N.to_nat (size / CHUNK)).

Section transfer.
Context `{CC : Crypto, HX : Hex, BC : BodyCodec, OC : ObjectCodec}.
Context `{LP : Libp2p, CB : Cbor OperatorSessionCertificate, JF : Json FileOfferWire}.
Context `{SHA : Sha256, UU : Uuid}.
Context {St : Type} `{OS : !ObjectStore St}.
Implicit Types en : TicketEngine St.

Record FileHost := mkFileHost {
  fh_engine : TicketEngine St;
  fh_files : gmap PathBuf bytes
}.

(** ** The offer *)

Definition read_offer : StateM reader io_kind FileOfferWire :=
  let! len_bytes := read_exact 2 in
  let! buf := read_exact (N.to_nat (be_val len_bytes)) in
  slift (ok_or (json_from_slice buf) InvalidData).

Definition offer_content (offer : FileOfferWire) : string :=
  fo_filename offer +:+ ":" +:+ pretty (fo_file_size offer) +:+ ":" +:+ fo_sha256 offer.

Definition offer_authority_valid (authority : option AuthorityContext) (remote_peer : PeerId)
    (now : N) (offer : FileOfferWire) : bool :=
  both_and authority (fo_authority offer) (λ authority proof,
    verify_operator_session_proof authority remote_peer proof "file" (fo_ticket_id offer)
      (fo_file_id offer) 0 (as_bytes (offer_content offer)) CAP_FILE_TRANSFER now).

(** [sum::<u64>] wraps around in a release build. *)
Definition stored_bytes en (ticket_id : string) : N :=
  foldl (λ s a, wrapping_add_u64 s (ar_size_bytes a)) 0%N (list_attachments (en_state en) ticket_id).

(** The checks before anything is written: the answer byte, or the normalized id. *)
Definition check_offer (local_peer_id : string) (authority : option AuthorityContext)
    (remote_peer : PeerId) (now : N) (offer : FileOfferWire) en : result N string :=
  match normalize_file_id (fo_file_id offer) with
  | None => Err FILE_DENIED
  | Some file_id =>
      match engine_get_ticket en (fo_ticket_id offer) with
      | None => Err FILE_DENIED_NO_TICKET
      | Some ticket =>
          if negb (is_ticket_counterparty ticket local_peer_id remote_peer) then Err FILE_DENIED else
          if bool_decide (tr_client_peer_id ticket = local_peer_id) &&
             negb (offer_authority_valid authority remote_peer now offer)
          then Err FILE_DENIED else
          if negb (permits_work (tr_state ticket)) then Err FILE_DENIED_TICKET_CLOSED else
          if (MAX_FILE_SIZE <? fo_file_size offer)%N then Err FILE_DENIED_TOO_LARGE else
          if (MAX_TICKET_STORAGE <?
              saturating_add_u64 (stored_bytes en (fo_ticket_id offer)) (fo_file_size offer))%N
          then Err FILE_DENIED_TOO_LARGE else Ok file_id
      end
  end.

(** ** Paths *)

Definition safe_name (filename : string) : string :=
  from_bytes (sanitize_name (as_bytes (default "file.bin" (file_name (path filename) ≫= to_str)))).

Definition ticket_dir (base : PathBuf) (ticket_id : string) : PathBuf :=
  path_join (path_join base (path (sha256_hex (as_bytes ticket_id)))) (path "files").

Definition part_path (base : PathBuf) (ticket_id file_id : string) : PathBuf :=
  path_join (ticket_dir base ticket_id) (path (file_id +:+ ".part")).

Definition final_path (base : PathBuf) (ticket_id file_id filename : string) : PathBuf :=
  path_join (ticket_dir base ticket_id) (path (file_id +:+ "_" +:+ safe_name filename)).

(** ** The transfer *)

Definition answer (code : N) (w : writer) : writer := (write_all [byte_of_N code] w).2.

Definition remove_file (io : transfer_io) (p : PathBuf) (files : gmap PathBuf bytes) : gmap PathBuf bytes :=
  if tf_remove io then delete p files else files.

Definition received_attachment (remote_peer : PeerId) (now : N) (offer : FileOfferWire) (file_id : string)
    (final : PathBuf) : AttachmentRecord := {|
  ar_id := file_id; ar_ticket_id := fo_ticket_id offer;
  ar_sender_peer_id := peer_id_to_string remote_peer; ar_filename := safe_name (fo_filename offer);
  ar_size_bytes := fo_file_size offer; ar_sha256 := fo_sha256 offer;
  ar_local_path := path_display final; ar_created_at := now; ar_state := "STORED"
|}.

(** The content of an accepted offer, to the end of the transfer. *)
Definition receive_content (remote_peer : PeerId) (base : PathBuf) (io : transfer_io)
    (offer : FileOfferWire) (file_id : string) (r : reader) (w : writer) (host : FileHost)
    : option (writer * FileHost) :=
  let part := part_path base (fo_ticket_id offer) file_id in
  let final := final_path base (fo_ticket_id offer) file_id (fo_filename offer) in
  if negb (tf_create io) then Some (w, host) else
  match receive_chunks (chunk_fuel (fo_file_size offer)) (tf_write io) 0 (fo_file_size offer) [] r with
  | None => None
  | Some (success, content, _) =>
      let files := <[part := tf_flushed io content]> (fh_files host) in
      let discard := mkFileHost (fh_engine host) (remove_file io part files) in
      if negb success then Some (answer FILE_DENIED w, discard) else
      if negb (bool_decide (sha256_hex content = fo_sha256 offer)) then Some (answer FILE_DENIED w, discard) else
      if negb (tf_rename io) then Some (answer FILE_DENIED w, discard) else
      let files := <[final := tf_flushed io content]> (delete part files) in
      let attachment := received_attachment remote_peer (tf_clock io) offer file_id final in
      match add_attachment (ca_put (tf_attach io)) (ca_now (tf_attach io)) attachment (fh_engine host) with
      | (Err _, en) => Some (answer FILE_DENIED w, mkFileHost en (remove_file io final files))
      | (Ok _, en) =>
          let audit := tf_audit io in
          let '(_, en) := record_event (ca_put audit) (ca_uuid audit) (ca_now audit) (fo_ticket_id offer)
            "ATTACHMENT_RECEIVED" (peer_id_to_string remote_peer)
            (Some ("Fichier reçu de " +:+ peer_id_to_string remote_peer +:+ ": " +:+
                   safe_name (fo_filename offer))) en in
          Some ((flush (answer FILE_ACCEPT w)).2, mkFileHost en files)
      end
  end.

Definition handle_incoming_file_stream (local_peer_id : string) (authority : option AuthorityContext)
    (remote_peer : PeerId) (base : PathBuf) (io : transfer_io) (w : writer) (host : FileHost)
    : option (writer * FileHost) :=
  if negb (tf_slot io) then Some (answer FILE_DENIED w, host) else
  match read_offer (tf_incoming io) with
  | (Err _, _) => Some (w, host)
  | (Ok offer, r) =>
      match check_offer local_peer_id authority remote_peer (tf_clock io) offer (fh_engine host) with
      | Err code => Some (answer code w, host)
      | Ok file_id =>
          if negb (tf_create_dir io) then Some (answer FILE_DENIED w, host) else
          match write_all [byte_of_N FILE_ACCEPT] w with
          | (Err _, w) => Some (w, host)
          | (Ok _, w) =>
              receive_content remote_peer base io offer file_id r (flush w).2 host
          end
      end
  end.
End transfer.
Arguments FileHost : clear implicits.

(** ** The receiving loop *)

Lemma receive_chunks_spec write : ∀ fuel i remaining acc r,
  (remaining ≤ N.of_nat fuel * CHUNK)%N →
  ∃ ok content r', receive_chunks fuel write i remaining acc r = Some (ok, (acc ++ content)%list, r') ∧
    (ok = true → rd_data r = (content ++ rd_data r')%list ∧ blen content = remaining) ∧
    (ok = false → (blen content < remaining)%N ∧ content `prefix_of` rd_data r) ∧
    ((∀ k, write k = true) → (remaining <=? blen (rd_data r))%N = ok).
Proof.
  induction fuel as [|fuel IH]; intros i remaining acc r Hf; cbn [receive_chunks];
    destruct (N.eqb_spec remaining 0) as [->|Hrem].
  2:{ simpl in Hf. lia. }
  1,2: exists true, [], r; rewrite app_nil_r; split; [done|]; split; [done|]; split; [done|];
    by destruct (rd_data r).
  set (n := N.min remaining CHUNK). assert (0 < n ∧ n ≤ remaining)%N as [Hn0 Hn] by (unfold n, CHUNK; lia).
  destruct (read_exact (N.to_nat n) r) as [[chunk|e] r1] eqn:Hr.
  2:{ exists false, [], r1. rewrite app_nil_r. split; [done|]. split; [done|].
      split; [intros _; split; [unfold blen; simpl; lia|apply prefix_nil]|].
      intros _. unfold read_exact in Hr. destruct (Nat.ltb_spec (length (rd_data r)) (N.to_nat n)); [|done].
      apply N.leb_gt. unfold blen. lia. }
  apply read_exact_Ok in Hr as (Hd & Hl & _).
  assert (blen chunk = n) as Hlen by (unfold blen; lia).
  destruct (write i) eqn:Hw.
  2:{ exists false, [], r1. rewrite app_nil_r. split; [done|]. split; [done|].
      split; [intros _; split; [unfold blen; simpl; lia|apply prefix_nil]|]. intros H. by rewrite H in Hw. }
  destruct (IH (S i) (remaining - n)%N (acc ++ chunk)%list r1) as (ok & content & r' & E & Hok & Hbad & Hall).
  { unfold n, CHUNK in *. lia. }
  exists ok, (chunk ++ content)%list, r'. rewrite E, app_assoc. split; [done|].
  split; [intros ->; destruct (Hok eq_refl) as [Hr1 Hc]; rewrite Hd, Hr1, app_assoc; split;
    [done|rewrite blen_app; lia]|].
  split; [intros ->; destruct (Hbad eq_refl) as [Hc Hp]; rewrite blen_app, Hd; split;
    [lia|by apply prefix_app]|].
  intros Hw'. rewrite <- (Hall Hw'), Hd, blen_app, Hlen. apply eq_true_iff_eq. rewrite !N.leb_le. lia.
Qed.

Lemma receive_all write size r :
  ∃ ok content r', receive_chunks (chunk_fuel size) write 0 size [] r = Some (ok, content, r') ∧
    (ok = true → rd_data r = (content ++ rd_data r')%list ∧ blen content = size) ∧
    (ok = false → (blen content < size)%N ∧ content `prefix_of` rd_data r) ∧
    ((∀ k, write k = true) → (size <=? blen (rd_data r))%N = ok).
Proof.
  apply (receive_chunks_spec write (chunk_fuel size) 0 size []). unfold chunk_fuel.
  pose proof (N.div_mod size CHUNK ltac:(done)). pose proof (N.mod_lt size CHUNK ltac:(done)).
  unfold CHUNK in *. lia.
Qed.

(** ** Where files go *)

Lemma hex_clean l : Forall (λ b, is_hex_lower b = true) l → Forall (λ b, is_reserved b = false) l.
Proof.
  intros H. eapply Forall_impl; [exact H|]. intros b Hb. unfold is_reserved.
  apply bool_decide_eq_false_2. unfold is_hex_lower, between in Hb.
  intros Hin. rewrite !elem_of_cons, elem_of_nil in Hin. lia.
Qed.

Lemma path_of_clean l :
  Forall (λ b, is_reserved b = false) l → (2 < length l)%nat → path_of_bytes l = [NormalPart l].
Proof.
  intros Hl. apply path_of_name. eapply Forall_impl; [exact Hl|]. apply is_reserved_sep.
Qed.

Section paths.
Context `{SHA : Sha256, SL : !Sha256Laws, UU : Uuid, UL : !UuidLaws}.

Definition ticket_key (ticket_id : string) : bytes := as_bytes (sha256_hex (as_bytes ticket_id)).

Lemma ticket_dir_eq base ticket_id :
  ticket_dir base ticket_id = (base ++ [NormalPart (ticket_key ticket_id); NormalPart (as_bytes "files")])%list.
Proof.
  unfold ticket_dir. assert (path (sha256_hex (as_bytes ticket_id)) = [NormalPart (ticket_key ticket_id)]) as ->.
  { apply path_of_clean; [apply hex_clean, sha256_hex_digits|]. unfold ticket_key. rewrite sha256_hex_length. lia. }
  change (path "files") with [NormalPart (as_bytes "files")]. simpl path_join. by rewrite <- app_assoc.
Qed.

Definition part_name (file_id : string) : bytes := (as_bytes file_id ++ as_bytes ".part")%list.
Definition final_name (file_id filename : string) : bytes :=
  (as_bytes file_id ++ as_bytes "_" ++ as_bytes (safe_name filename))%list.

Lemma part_path_eq base ticket_id s file_id :
  parse_uuid_simple s = Some file_id →
  part_path base ticket_id file_id = (ticket_dir base ticket_id ++ [NormalPart (part_name file_id)])%list.
Proof.
  intros [Hd Hl]%uuid_simple_digits. unfold part_path, path. rewrite as_bytes_app. fold (part_name file_id).
  rewrite path_of_clean; [done| |unfold part_name; rewrite length_app; lia].
  unfold part_name. apply Forall_app. split; [by apply hex_clean|]. by repeat constructor.
Qed.

Lemma final_name_clean s file_id filename :
  parse_uuid_simple s = Some file_id → Forall (λ b, is_reserved b = false) (final_name file_id filename).
Proof.
  intros [Hd _]%uuid_simple_digits. unfold final_name, safe_name. rewrite as_from_bytes.
  apply Forall_app. split; [by apply hex_clean|]. constructor; [done|]. apply sanitize_name_clean.
Qed.

Lemma final_path_eq base ticket_id s file_id filename :
  parse_uuid_simple s = Some file_id →
  final_path base ticket_id file_id filename =
    (ticket_dir base ticket_id ++ [NormalPart (final_name file_id filename)])%list.
Proof.
  intros Hs. pose proof (uuid_simple_digits _ _ Hs) as [_ Hl].
  unfold final_path, path. rewrite !as_bytes_app. fold (final_name file_id filename).
  rewrite path_of_clean; [done|by eapply final_name_clean|unfold final_name; rewrite length_app; lia].
Qed.

(** Whatever names a peer chooses, a received file lives in the directory of its
    ticket - named by the digest of the ticket id, under the configured base - as one
    component that starts with the 32 digits of the file id and holds no separator or
    reserved character; the unfinished file lives next to it under a name no finished
    file has, and files with different ids never share a name. *)
Theorem received_paths_confined base ticket_id s file_id filename :
  normalize_file_id s = Some file_id →
  let dir := (base ++ [NormalPart (ticket_key ticket_id); NormalPart (as_bytes "files")])%list in
  final_path base ticket_id file_id filename = (dir ++ [NormalPart (final_name file_id filename)])%list ∧
  part_path base ticket_id file_id = (dir ++ [NormalPart (part_name file_id)])%list ∧
  Forall (λ b, is_reserved b = false) (final_name file_id filename) ∧
  take 32 (final_name file_id filename) = as_bytes file_id ∧
  (∀ s' file_id' filename', normalize_file_id s' = Some file_id' →
     final_name file_id filename ≠ part_name file_id' ∧
     (final_name file_id filename = final_name file_id' filename' → file_id = file_id') ∧
     (part_name file_id = part_name file_id' → file_id = file_id')).
Proof.
  unfold normalize_file_id. intros Hs. rewrite <- ticket_dir_eq.
  split; [by eapply final_path_eq|]. split; [by eapply part_path_eq|].
  split; [by eapply final_name_clean|]. pose proof (uuid_simple_digits _ _ Hs) as [_ Hl].
  split; [unfold final_name; by rewrite <- Hl, take_app_length|].
  intros s' file_id' filename' Hs'. pose proof (uuid_simple_digits _ _ Hs') as [_ Hl'].
  unfold final_name, part_name. split; [|split]; intros E.
  - apply app_inj_1 in E as [_ E]; [|lia]. by vm_compute in E.
  - apply app_inj_1 in E as [E _]; [by apply as_bytes_inj|lia].
  - apply app_inj_1 in E as [E _]; [by apply as_bytes_inj|lia].
Qed.
End paths.

(** ** Properties of the transfer *)

Section transfer_properties.
Context `{CC : Crypto, CL : !CryptoLaws, HX : Hex, BC : BodyCodec, BL : !BodyCodecLaws, OC : ObjectCodec}.
Context `{LP : Libp2p, CB : Cbor OperatorSessionCertificate, JF : Json FileOfferWire}.
Context `{SHA : Sha256, UU : Uuid}.
Context {St : Type} `{OS : !ObjectStore St, OL : !ObjectStoreLaws St}.
Implicit Types (en : TicketEngine St) (host : FileHost St).

Definition attachment_event (now : N) (x : AttachmentRecord) : TicketEvent :=
  AttachmentAdded (ar_ticket_id x) (ar_id x) (ar_sender_peer_id x) (ar_filename x) (ar_size_bytes x)
    (ar_sha256 x) (ar_local_path x) (time_or_now (ar_created_at x) now).

Definition offered (peer : PeerId) (base : PathBuf) (io : transfer_io) (offer : FileOfferWire)
    (file_id : string) : AttachmentRecord :=
  received_attachment peer (tf_clock io) offer file_id
    (final_path base (fo_ticket_id offer) file_id (fo_filename offer)).

(** What recording an accepted file needs. *)
Record transfer_ready en (peer : PeerId) (base : PathBuf) (io : transfer_io) (offer : FileOfferWire)
    (file_id : string) : Prop := {
  tr_attach : append_ready en (ca_put (tf_attach io))
    (attachment_event (ca_now (tf_attach io)) (offered peer base io offer file_id))
    (time_or_now (tf_clock io) (ca_now (tf_attach io)));
  tr_audit : append_ready
    (add_attachment (ca_put (tf_attach io)) (ca_now (tf_attach io)) (offered peer base io offer file_id) en).2
    (ca_put (tf_audit io))
    (CustomAudit (fo_ticket_id offer) (ca_uuid (tf_audit io)) "ATTACHMENT_RECEIVED" (peer_id_to_string peer)
      (Some ("Fichier reçu de " +:+ peer_id_to_string peer +:+ ": " +:+ safe_name (fo_filename offer)))
      (ca_now (tf_audit io))) (ca_now (tf_audit io))
}.

(** The content arrived whole and is recorded. *)
Record stored_file (base : PathBuf) (io : transfer_io) (offer : FileOfferWire) (file_id : string)
    (r : reader) (host host' : FileHost St) : Prop := {
  sf_content : ∃ content rest, rd_data r = (content ++ rest)%list ∧ blen content = fo_file_size offer ∧
    sha256_hex content = fo_sha256 offer ∧
    fh_files host' = <[final_path base (fo_ticket_id offer) file_id (fo_filename offer) := tf_flushed io content]>
      (delete (part_path base (fo_ticket_id offer) file_id) (fh_files host));
  sf_attachment : ∃ a b, en_state (fh_engine host) !! fo_ticket_id offer = Some a ∧
    en_state (fh_engine host') !! fo_ticket_id offer = Some b ∧
    agg_attachments a `prefix_of` agg_attachments b ∧ file_id ∈ ar_id <$> agg_attachments b ∧
    same_ticket (agg_record a) (agg_record b)
}.

(** Nothing of the transfer stays but, if the disk refuses to remove it, a file. *)
Record discarded_file (base : PathBuf) (io : transfer_io) (offer : FileOfferWire) (file_id : string)
    (host host' : FileHost St) : Prop := {
  df_state : en_state (fh_engine host') = en_state (fh_engine host);
  df_files : tf_remove io = true →
    fh_files host' = fh_files host ∨
    fh_files host' = delete (part_path base (fo_ticket_id offer) file_id) (fh_files host) ∨
    fh_files host' = delete (final_path base (fo_ticket_id offer) file_id (fo_filename offer))
      (delete (part_path base (fo_ticket_id offer) file_id) (fh_files host))
}.

Lemma answer_out code out : answer code (mkWriter out None) = mkWriter (out ++ [byte_of_N code])%list None.
Proof. done. Qed.

Lemma receive_content_spec peer base io offer file_id r out host :
  engine_inv (fh_engine host) → signer_wf (en_signer (fh_engine host)) →
  transfer_ready (fh_engine host) peer base io offer file_id →
  ∃ w host', receive_content peer base io offer file_id r (mkWriter out None) host = Some (w, host') ∧
    engine_inv (fh_engine host') ∧
    ((wr_out w = (out ++ [byte_of_N FILE_ACCEPT])%list ∧ stored_file base io offer file_id r host host') ∨
     (wr_out w = out ∨ wr_out w = (out ++ [byte_of_N FILE_DENIED])%list) ∧
       discarded_file base io offer file_id host host').
Proof.
  intros He Hwf [Hat Hau]. unfold receive_content. destruct (tf_create io); cbn [negb].
  2:{ eexists _, _. split; [done|]. split; [done|]. right. split; [by left|]. split; [done|by left]. }
  destruct (receive_all (tf_write io) (fo_file_size offer) r) as (ok & content & r' & -> & Hok & _ & _).
  set (part := part_path base (fo_ticket_id offer) file_id).
  assert (∀ files, tf_remove io = true → remove_file io part (<[part := files]> (fh_files host)) =
    delete part (fh_files host)) as Hrm.
  { intros c Ht. unfold remove_file. rewrite Ht. apply delete_insert_eq. }
  assert (∀ c, discarded_file base io offer file_id host
    (mkFileHost (fh_engine host) (remove_file io part (<[part := c]> (fh_files host))))) as Hdisc.
  { intros c. split; [done|]. intros Ht. right; left. by apply Hrm. }
  destruct ok; simpl.
  2:{ eexists _, _. split; [done|]. split; [done|]. right. split; [by right|done]. }
  case_bool_decide as Hsum; simpl.
  2:{ eexists _, _. split; [done|]. split; [done|]. right. split; [by right|done]. }
  destruct (tf_rename io); simpl.
  2:{ eexists _, _. split; [done|]. split; [done|]. right. split; [by right|done]. }
  fold (offered peer base io offer file_id).
  pose proof (add_attachment_spec _ _ (offered peer base io offer file_id) _ He Hwf Hat) as Hadd.
  rewrite delete_insert_eq.
  destruct (add_attachment _ _ _ (fh_engine host)) as [res en1]. destruct Hadd as (He1 & (Hs1 & _) & Hr).
  simpl in Hau. destruct res as [u|err].
  2:{ eexists _, _. split; [done|]. split; [done|]. right. split; [by right|].
      split; [simpl; destruct err; tauto || done|]. intros Ht. right; right. simpl. unfold remove_file.
      rewrite Ht. apply delete_insert_eq. }
  destruct (record_event_spec _ _ _ _ _ _ _ _ He1 ltac:(by rewrite Hs1) Hau) as [He2 Hall].
  destruct (record_event _ _ _ _ _ _ _ en1) as [r2 en2]. simpl in *.
  eexists _, _. split; [done|]. split; [done|]. left. split; [done|]. split.
  - destruct (Hok eq_refl) as [Hd Hl]. by exists content, (rd_data r').
  - destruct Hr as (a & b & Ha & Hst & Hsame & Hm).
    destruct (Hall (fo_ticket_id offer) b) as (c & Hc & Hsame2 & _ & Hm2); [by rewrite Hst, lookup_insert_eq|].
    exists a, c. split; [done|]. split; [done|]. rewrite Hm2, Hm. simpl.
    split; [destruct (existsb _ _); [done|by apply prefix_app_r]|].
    split; [|unfold same_ticket in *; repeat split; intuition congruence].
    destruct (existsb _ _) eqn:Hex; [by apply existsb_id_true in Hex|].
    rewrite fmap_app, elem_of_app. right. left.
Qed.

(** How a transfer may end: [FILE_ACCEPT] is sent twice for a stored file only. *)
Record transfer_outcome (local : string) (authority : option AuthorityContext) (peer : PeerId)
    (base : PathBuf) (io : transfer_io) host (w : writer) host' : Prop := {
  to_engine : engine_inv (fh_engine host');
  to_stored : wr_out w = [byte_of_N FILE_ACCEPT; byte_of_N FILE_ACCEPT] →
    tf_slot io = true ∧ ∃ offer r file_id, read_offer (tf_incoming io) = (Ok offer, r) ∧
      check_offer local authority peer (tf_clock io) offer (fh_engine host) = Ok file_id ∧
      stored_file base io offer file_id r host host';
  to_discarded : wr_out w ≠ [byte_of_N FILE_ACCEPT; byte_of_N FILE_ACCEPT] →
    host' = host ∨ ∃ offer r file_id, read_offer (tf_incoming io) = (Ok offer, r) ∧
      check_offer local authority peer (tf_clock io) offer (fh_engine host) = Ok file_id ∧
      discarded_file base io offer file_id host host'
}.

(** C14. An incoming transfer always ends, whatever the peer sends and the disk does. It
    is confirmed twice only if a slot was free, the offer passed every check, the peer
    sent as many bytes as offered with the digest offered, and the attachment is
    recorded; the final file then holds what the disk flushed of exactly those bytes,
    and no unfinished file is left. In every other case the tickets are as before, and
    so are the files unless the disk refuses to remove one. *)
Theorem file_transfer_correct local authority peer base io host :
  engine_inv (fh_engine host) → signer_wf (en_signer (fh_engine host)) →
  (∀ offer r file_id, read_offer (tf_incoming io) = (Ok offer, r) →
     check_offer local authority peer (tf_clock io) offer (fh_engine host) = Ok file_id →
     transfer_ready (fh_engine host) peer base io offer file_id) →
  ∃ w host', handle_incoming_file_stream local authority peer base io writer_new host = Some (w, host') ∧
    transfer_outcome local authority peer base io host w host'.
Proof.
  intros He Hwf Hready. unfold handle_incoming_file_stream.
  assert (∀ w, wr_out w ≠ [byte_of_N FILE_ACCEPT; byte_of_N FILE_ACCEPT] →
    ∃ w' host', Some (w, host) = Some (w', host') ∧
      transfer_outcome local authority peer base io host w' host') as Hsame.
  { intros w Hw. exists w, host. split; [done|]. split; [done|done|by left]. }
  destruct (tf_slot io) eqn:Hslot; simpl; [|by apply Hsame].
  destruct (read_offer (tf_incoming io)) as [[offer|e] r] eqn:Hro; [|by apply Hsame].
  destruct (check_offer _ _ _ _ _ _) as [file_id|code] eqn:Hch; [|by apply Hsame].
  destruct (tf_create_dir io); simpl; [|by apply Hsame].
  destruct (receive_content_spec peer base io offer file_id r [byte_of_N FILE_ACCEPT] host He Hwf
    (Hready _ _ _ eq_refl Hch)) as (w & host' & E & He' & H). rewrite E.
  exists w, host'. split; [done|]. destruct H as [[Hw Hs]|[Hw Hd]]; split; [done|..|done| |].
  - intros _. split; [done|]. by exists offer, r, file_id.
  - by rewrite Hw.
  - by destruct Hw as [-> | ->].
  - intros _. right. by exists offer, r, file_id.
Qed.
End transfer_properties.

(** ** What the signature of an offer binds *)

Lemma app_cons_last_inj {A} (x : A) a a' s s' :
  x ∉ s → x ∉ s' → (a ++ x :: s = a' ++ x :: s')%list → a = a' ∧ s = s'.
Proof.
  revert a'. induction a as [|y a IH]; intros [|y' a'] Hs Hs' E; simpl in E.
  - by injection E as ->.
  - injection E as _ ->. exfalso. apply Hs. apply elem_of_app. right. left.
  - injection E as _ <-. exfalso. apply Hs'. apply elem_of_app. right. left.
  - injection E as -> E. by destruct (IH a' Hs Hs' E) as [-> ->].
Qed.

Definition is_digit (b : byte) : bool := between 48 57 b.

Lemma pretty_char_digit x : (x < 10)%N → is_digit (Ascii.byte_of_ascii (pretty_N_char x)) = true.
Proof.
  intros H. assert (x = 0 ∨ x = 1 ∨ x = 2 ∨ x = 3 ∨ x = 4 ∨ x = 5 ∨ x = 6 ∨ x = 7 ∨ x = 8 ∨ x = 9)%N as Hx by lia.
  naive_solver.
Qed.

Lemma pretty_go_digits x : ∀ s, Forall (λ b, is_digit b = true) (as_bytes s) →
  Forall (λ b, is_digit b = true) (as_bytes (pretty_N_go x s)).
Proof.
  induction (N.lt_wf_0 x) as [x _ IH]. intros s Hs.
  destruct (decide (0 < x)%N) as [Hx|Hx].
  - rewrite pretty_N_go_step by done. apply IH; [by apply N.div_lt|].
    change (as_bytes (String ?c s)) with (Ascii.byte_of_ascii c :: as_bytes s).
    constructor; [|done]. apply pretty_char_digit. by apply N.mod_lt.
  - assert (x = 0)%N as -> by lia. by rewrite pretty_N_go_0.
Qed.

Lemma pretty_digits (n : N) : Forall (λ b, is_digit b = true) (as_bytes (pretty n)).
Proof.
  unfold pretty, pretty_N. case_decide; [by repeat constructor|]. apply pretty_go_digits. constructor.
Qed.

Lemma digits_no_colon l : Forall (λ b, is_digit b = true) l → x3a ∉ l.
Proof. rewrite Forall_forall. intros H Hin. by specialize (H _ Hin). Qed.

(** The signed content of an offer joins its fields with colons, and the file name
    may hold any. It still binds all three fields among the offers whose digest field
    is hexadecimal, the only ones a transfer can complete; and offers with other digest
    fields do collide. *)
Theorem offer_content_binds o o' :
  (Forall (λ b, is_hex_lower b = true) (as_bytes (fo_sha256 o)) →
   Forall (λ b, is_hex_lower b = true) (as_bytes (fo_sha256 o')) →
   offer_content o = offer_content o' ↔
     fo_filename o = fo_filename o' ∧ fo_file_size o = fo_file_size o' ∧ fo_sha256 o = fo_sha256 o') ∧
  offer_content (mkFileOffer "T" "F" "a:1" 2 "ab" None) = offer_content (mkFileOffer "T" "F" "a" 1 "2:ab" None).
Proof.
  split; [|by vm_compute]. intros Ho Ho'. split; [|by unfold offer_content; intros (-> & -> & ->)].
  intros E. unfold offer_content in E. apply (f_equal as_bytes) in E. rewrite !as_bytes_app in E.
  assert (∀ l, Forall (λ b, is_hex_lower b = true) l → x3a ∉ l) as Hhex
    by (intros l Hl Hin; rewrite Forall_forall in Hl; by specialize (Hl _ Hin)).
  change (as_bytes ":") with [x3a] in E.
  assert (∀ a b c, (a ++ [x3a] ++ b ++ [x3a] ++ c = (a ++ x3a :: b) ++ x3a :: c)%list) as R
    by (intros; simpl; by rewrite <- app_assoc).
  rewrite !R in E. apply app_cons_last_inj in E as [E Es]; [|by apply Hhex..].
  apply app_cons_last_inj in E as [Ef En]; [|by apply digits_no_colon, pretty_digits..].
  split; [by apply as_bytes_inj|]. split; [|by apply as_bytes_inj].
  apply as_bytes_inj in En. by apply (inj pretty).
Qed.

(** ** The storage quota under concurrent transfers *)

Section quota.
Context `{CC : Crypto, CL : !CryptoLaws, HX : Hex, BC : BodyCodec, BL : !BodyCodecLaws, OC : ObjectCodec}.
Context `{LP : Libp2p, CB : Cbor OperatorSessionCertificate}.
Context `{SHA : Sha256, UU : Uuid}.
Context {St : Type} `{OS : !ObjectStore St, OL : !ObjectStoreLaws St}.
Implicit Types (en : TicketEngine St).

Definition sum_sizes (l : list AttachmentRecord) : N := foldr (λ a s, ar_size_bytes a + s)%N 0%N l.
Definition ticket_bytes en (t : string) : N := sum_sizes (list_attachments (en_state en) t).
Definition sum_N (l : list N) : N := foldr N.add 0%N l.

(** The transfers for one ticket: offers accepted one by one into the two slots, their
    files recorded or dropped in any order, and whatever else happens to the engine
    that adds no attachment to the ticket. *)
Inductive quota_step (t : string) : TicketEngine St * list N → TicketEngine St * list N → Prop :=
| quota_accept en inflight local authority peer now offer file_id :
    (length inflight < MAX_PARALLEL_FILES)%nat → fo_ticket_id offer = t →
    check_offer local authority peer now offer en = Ok file_id →
    quota_step t (en, inflight) (en, fo_file_size offer :: inflight)
| quota_record en en' inflight i io now x r :
    inflight !! i = Some (ar_size_bytes x) → ar_ticket_id x = t →
    signer_wf (en_signer en) → append_ready en io (attachment_event now x) (time_or_now (ar_created_at x) now) →
    add_attachment io now x en = (r, en') →
    quota_step t (en, inflight) (en', delete i inflight)
| quota_drop en inflight i : quota_step t (en, inflight) (en, delete i inflight)
| quota_other en en' inflight :
    engine_inv en' → list_attachments (en_state en') t = list_attachments (en_state en) t →
    quota_step t (en, inflight) (en', inflight).

Definition QUOTA_BOUND : N := MAX_TICKET_STORAGE + (N.of_nat MAX_PARALLEL_FILES - 1) * MAX_FILE_SIZE.

Record quota_inv (t : string) (s : TicketEngine St * list N) : Prop := {
  qi_engine : engine_inv s.1;
  qi_slots : (length s.2 ≤ MAX_PARALLEL_FILES)%nat;
  qi_sizes : Forall (λ n, n ≤ MAX_FILE_SIZE)%N s.2;
  qi_bound : (ticket_bytes s.1 t + sum_N s.2 ≤ QUOTA_BOUND)%N
}.

Lemma wrapping_sum l s :
  (s + sum_sizes l < u64_modulus)%N →
  foldl (λ s a, wrapping_add_u64 s (ar_size_bytes a)) s l = (s + sum_sizes l)%N.
Proof.
  revert s. induction l as [|a l IH]; intros s Hs; simpl in *; [lia|].
  rewrite wrapping_add_u64_small, IH; lia.
Qed.

Lemma stored_bytes_sum en t : (ticket_bytes en t < u64_modulus)%N → stored_bytes en t = ticket_bytes en t.
Proof. intros H. unfold stored_bytes. by rewrite wrapping_sum. Qed.

Lemma check_offer_quota local authority peer now offer en file_id :
  check_offer local authority peer now offer en = Ok file_id →
  (fo_file_size offer ≤ MAX_FILE_SIZE)%N ∧
  (saturating_add_u64 (stored_bytes en (fo_ticket_id offer)) (fo_file_size offer) ≤ MAX_TICKET_STORAGE)%N.
Proof.
  unfold check_offer. destruct (normalize_file_id _); [|done]. destruct (engine_get_ticket _ _); [|done].
  destruct (negb _); [done|]. destruct (_ && _); [done|]. destruct (negb _); [done|].
  destruct (N.ltb_spec MAX_FILE_SIZE (fo_file_size offer)); [done|].
  destruct (N.ltb_spec MAX_TICKET_STORAGE
    (saturating_add_u64 (stored_bytes en (fo_ticket_id offer)) (fo_file_size offer))); done.
Qed.

Lemma sum_delete i (l : list N) n : l !! i = Some n → sum_N l = (n + sum_N (delete i l))%N.
Proof.
  revert i. induction l as [|m l IH]; intros [|i] H; simpl in *; try done; [by injection H as ->|].
  rewrite (IH i H). lia.
Qed.

Lemma sum_delete_le i (l : list N) : (sum_N (delete i l) ≤ sum_N l)%N.
Proof. revert i. induction l as [|m l IH]; intros [|i]; simpl; [lia..|]. specialize (IH i). lia. Qed.

Lemma recorded_bytes io now x en r en' t :
  engine_inv en → signer_wf (en_signer en) → ar_ticket_id x = t →
  append_ready en io (attachment_event now x) (time_or_now (ar_created_at x) now) →
  add_attachment io now x en = (r, en') →
  engine_inv en' ∧ (ticket_bytes en' t ≤ ticket_bytes en t + ar_size_bytes x)%N.
Proof.
  intros He Hwf <- Hready Hadd. pose proof (add_attachment_spec _ _ _ _ He Hwf Hready) as H.
  rewrite Hadd in H. destruct H as (He' & _ & Hr). split; [done|]. unfold ticket_bytes, list_attachments.
  destruct r as [u|e].
  - destruct Hr as (a & b & Ha & -> & _ & Hb). rewrite lookup_insert_eq, Ha. simpl. rewrite Hb.
    destruct (existsb _ _); [lia|]. unfold sum_sizes. rewrite foldr_app. simpl.
    generalize (ar_size_bytes x). intros n. clear. induction (agg_attachments a) as [|y l IH]; simpl; lia.
  - assert (en_state en' = en_state en) as -> by (destruct e; tauto || done). lia.
Qed.

Lemma quota_step_inv t s s' : quota_inv t s → quota_step t s s' → quota_inv t s'.
Proof.
  assert (QUOTA_BOUND < u64_modulus)%N as HB by done.
  assert (QUOTA_BOUND = MAX_TICKET_STORAGE + MAX_FILE_SIZE)%N as HE by done.
  intros [He Hl Hs Hb] Hstep. destruct Hstep as
    [en infl local authority peer now offer fid Hlen Ht Hch|en en' infl i io now x r Hi Hx Hwf Hready Hadd
    |en infl i|en en' infl Hinv Hatt]; simpl in *.
  - apply check_offer_quota in Hch as [Hsz Hq]. split; simpl; [done|lia|by constructor|].
    rewrite Ht, stored_bytes_sum in Hq by lia. unfold saturating_add_u64 in Hq.
    assert (MAX_TICKET_STORAGE < u64_max)%N by done.
    assert (sum_N infl ≤ MAX_FILE_SIZE)%N; [|lia].
    unfold MAX_PARALLEL_FILES in Hlen. destruct infl as [|n [|m infl]]; simpl in *; [lia| |lia].
    apply Forall_cons in Hs as [Hn _]. lia.
  - destruct (recorded_bytes _ _ _ _ _ _ _ He Hwf Hx Hready Hadd) as [He' Hsz].
    pose proof (sum_delete _ _ _ Hi). split; simpl; [done| | |lia].
    + rewrite length_delete by eauto. lia.
    + by apply Forall_delete.
  - pose proof (sum_delete_le i infl). split; simpl; [done| |by apply Forall_delete|lia].
    pose proof (sublist_length _ _ (sublist_delete infl i)). lia.
  - split; simpl; [done..|]. unfold ticket_bytes. by rewrite Hatt.
Qed.

(** C33. The storage quota of a ticket is checked before the content arrives, so two
    transfers can pass it together. What they can exceed it by is one file: however
    accepting, recording and dropping interleave over the two slots, the recorded
    attachments of a ticket never take more than the quota and one maximal file. *)
Theorem storage_quota_bounded t en s :
  engine_inv en → (ticket_bytes en t ≤ MAX_TICKET_STORAGE)%N →
  rtc (quota_step t) (en, []) s →
  (ticket_bytes s.1 t ≤ MAX_TICKET_STORAGE + MAX_FILE_SIZE)%N ∧ (length s.2 ≤ MAX_PARALLEL_FILES)%nat.
Proof.
  intros He Hb Hsteps.
  assert (quota_inv t s) as [_ Hl _ Hq].
  { assert (quota_inv t (en, [])) as Hinit.
    { split; simpl; [done|unfold MAX_PARALLEL_FILES; lia|constructor|].
      change QUOTA_BOUND with (MAX_TICKET_STORAGE + MAX_FILE_SIZE)%N. lia. }
    revert Hinit. induction Hsteps as [|x y z Hs _ IH]; [done|]. intros Hx. by eapply IH, quota_step_inv. }
  change QUOTA_BOUND with (MAX_TICKET_STORAGE + MAX_FILE_SIZE)%N in Hq. split; [lia|done].
Qed.
End quota.
