(* ===== verification/Client.v ===== *)
(** The operator's side of a shell and of a file transfer ([spawn_open_shell_next] and
    [spawn_send_file_stream] in [crates/fortiq-p2p/src/node.rs]), and what the two
    sides do together: a handshake and an offer made here are what the handlers of
    Admission.v and Transfer.v accept.

    Opening a stream, reading the local file and the peer's bytes are arguments. *)

From stdpp Require Import pretty.
From S2P Require Import Prelude Text Object Concrete Ticket Event Graph GraphSort.
From S2P Require Import Reducer Authority Store Engine EngineRuns Codec Stream Config Shell Wire Sync.
From S2P Require Import Admission Transfer.

#[local] Open Scope string_scope.

(** Where opening the terminal or sending the file stopped; the code formats each into a
    message. *)
Inductive OpenShellError :=
| OsTimeout
| OsOpenStream
| OsChallenge (e : io_kind)
| OsSign
| OsHandshake (e : HandshakeError)
| OsFlush (e : io_kind)
| OsAuthorization (e : io_kind)
| OsDenied (reason : string).

Inductive SendFileError :=
| SfMetadata
| SfTooLarge (size : N)
| SfOpen
| SfRead
| SfSign
| SfCertificate
| SfOpenStream
| SfJson
| SfHeaderTooLarge
| SfWrite (e : io_kind)
| SfResponse (e : io_kind)
| SfRefused (reason : string)
| SfReopen
| SfChunk (e : io_kind)
| SfConfirmation (e : io_kind)
| SfVerification
| SfPersist (e : EngineError).

(** [Ok(Ok(stream))], [Ok(Err(error))] or the twelve seconds passed. *)
Inductive open_result := StreamOpened | StreamRefused | StreamTimeout.

Definition duplex : Type := reader * writer.

(** Reading and writing one stream. *)
Definition on_reader {E A} (m : StateM reader E A) : StateM duplex E A :=
  λ '(r, w), let '(a, r') := m r in (a, (r', w)).
Definition on_writer {E A} (m : StateM writer E A) : StateM duplex E A :=
  λ '(r, w), let '(a, w') := m w in (a, (r, w')).

(** An array filled by [read_exact]. *)
Definition vec_of_read (l : bytes) : vec byte 32 := vec32_of l.

Section client.
Context `{CC : Crypto, HX : Hex, BC : BodyCodec, OC : ObjectCodec}.
Context `{LP : Libp2p, CB : Cbor OperatorSessionCertificate}.
Context `{JS : Json ShellNextHandshake, JF : Json FileOfferWire, SHA : Sha256}.
Context {St : Type} `{OS : !ObjectStore St}.
Implicit Types en : TicketEngine St.

(** ** Opening a shell *)

Definition open_shell_next (opened : open_result) (local_peer : PeerId) (ticket_id : string)
    (certificate : OperatorSessionCertificate) (session_signer : Ed25519Signer)
    : StateM duplex OpenShellError unit :=
  let! _ := slift (match opened with
                   | StreamOpened => Ok tt
                   | StreamRefused => Err OsOpenStream
                   | StreamTimeout => Err OsTimeout
                   end) in
  let! challenge := smap_err OsChallenge (on_reader (read_exact 32)) in
  let! handshake := slift (map_err (λ _, OsSign)
    (ShellNextHandshake_signed (cert_network_id certificate) ticket_id (peer_id_to_string local_peer)
       certificate (vec_of_read challenge) (Ed25519Signer_Signer session_signer))) in
  let! _ := smap_err OsHandshake (on_writer (ShellNextHandshake_write_to_async handshake)) in
  let! _ := smap_err OsFlush (on_writer flush) in
  let! authorization := smap_err OsAuthorization (on_reader (read_exact 1)) in
  let code := be_val authorization in
  if (code =? AUTHORIZED)%N then sret tt else sfail (OsDenied (describe_denial code)).

(** ** Sending a file *)

(** The local file: its length as the metadata say, the bytes of the first reading,
    and the bytes of the second. *)
Record local_file := mkLocalFile {
  lf_path : PathBuf;
  lf_metadata : option N;
  lf_first : option (result unit bytes);
  lf_second : option bytes
}.

Definition denied_reason (code : N) : string :=
  if (code =? FILE_DENIED_NO_TICKET)%N then "Aucun ticket correspondant sur le poste distant"
  else if (code =? FILE_DENIED_TICKET_CLOSED)%N then "Le ticket est fermé"
  else if (code =? FILE_DENIED_TOO_LARGE)%N then "Fichier trop volumineux"
  else "Transfert refusé par le poste distant".

Definition sent_name (p : PathBuf) : string := default "file.bin" (file_name p ≫= to_str).

(** The proof joined to the offer of an operator. *)
Definition offer_authority (certificate : option OperatorSessionCertificate)
    (session_signer : option Ed25519Signer) (ticket_id file_id content sender_peer_id : string)
    : result SendFileError (option WireProof) :=
  match certificate, session_signer with
  | Some certificate, Some signer =>
      let? signature := map_err (λ _, SfSign) (signer_sign (Ed25519Signer_Signer signer)
        (Proof_signing_payload "file" ticket_id file_id 0 (as_bytes content) sender_peer_id)) in
      let? proof := map_err (λ _, SfCertificate) (WireProof_from_certificate certificate signature) in
      Ok (Some proof)
  | _, _ => Ok None
  end.

Definition make_offer (file : local_file) (ticket_id file_id sender_peer_id : string)
    (certificate : option OperatorSessionCertificate) (session_signer : option Ed25519Signer)
    : result SendFileError FileOfferWire :=
  let? file_size := ok_or (lf_metadata file) SfMetadata in
  if (MAX_FILE_SIZE <? file_size)%N then Err (SfTooLarge file_size) else
  let? opened := ok_or (lf_first file) SfOpen in
  let? content := map_err (λ _, SfRead) opened in
  let offer proof := mkFileOffer ticket_id file_id (sent_name (lf_path file)) file_size
    (sha256_hex content) proof in
  let? proof := offer_authority certificate session_signer ticket_id file_id
    (offer_content (offer None)) sender_peer_id in
  Ok (offer proof).

Definition write_offer (offer : FileOfferWire) : StateM writer SendFileError unit :=
  let! json := slift (ok_or (json_to_vec offer) SfJson) in
  let! len := slift (if (blen json <? u16_modulus)%N then Ok (blen json) else Err SfHeaderTooLarge) in
  let! _ := smap_err SfWrite (write_all (be_bytes 2 len)) in
  let! _ := smap_err SfWrite (write_all json) in
  smap_err SfWrite flush.

(** The loop over the second reading: chunk after chunk until the announced size. *)
Fixpoint send_chunks (fuel : nat) (remaining : N) (content : bytes) : StateM writer SendFileError unit :=
  if (remaining =? 0)%N then sret tt else
  match fuel with
  | O => sfail SfRead
  | S fuel =>
      let to_read := N.min remaining CHUNK in
      if (blen content <? to_read)%N then sfail (SfChunk UnexpectedEof) else
      let! _ := smap_err SfWrite (write_all (take (N.to_nat to_read) content)) in
      send_chunks fuel (remaining - to_read)%N (drop (N.to_nat to_read) content)
  end.

Definition send_file_stream (opened : bool) (file : local_file) (ticket_id file_id sender_peer_id : string)
    (certificate : option OperatorSessionCertificate) (session_signer : option Ed25519Signer)
    : StateM duplex SendFileError FileOfferWire :=
  let! offer := slift (make_offer file ticket_id file_id sender_peer_id certificate session_signer) in
  let! _ := slift (if opened then Ok tt else Err SfOpenStream) in
  let! _ := on_writer (write_offer offer) in
  let! response := smap_err SfResponse (on_reader (read_exact 1)) in
  let code := be_val response in
  if negb (code =? FILE_ACCEPT)%N then sfail (SfRefused (denied_reason code)) else
  let! content := slift (ok_or (lf_second file) SfReopen) in
  let! _ := on_writer (send_chunks (chunk_fuel (fo_file_size offer)) (fo_file_size offer) content) in
  let! _ := smap_err SfWrite (on_writer flush) in
  let! ack := smap_err SfConfirmation (on_reader (read_exact 1)) in
  if negb (be_val ack =? FILE_ACCEPT)%N then sfail SfVerification else sret offer.

Definition sent_attachment (file : local_file) (offer : FileOfferWire) (sender_peer_id : string) (now : N)
    : AttachmentRecord := {|
  ar_id := fo_file_id offer; ar_ticket_id := fo_ticket_id offer; ar_sender_peer_id := sender_peer_id;
  ar_filename := fo_filename offer; ar_size_bytes := fo_file_size offer; ar_sha256 := fo_sha256 offer;
  ar_local_path := path_display (lf_path file); ar_created_at := now; ar_state := "STORED"
|}.

(** The task: the transfer, then the attachment, the audit entry and the outbox. *)
Definition spawn_send_file (opened : bool) (file : local_file) (ticket_id file_id sender_peer_id : string)
    (certificate : option OperatorSessionCertificate) (session_signer : option Ed25519Signer)
    (outbox_id : option string) (removal : remove_answer) (clock : N) (attach audit : call_io) (s : duplex) en
    : result SendFileError AttachmentRecord * duplex * TicketEngine St :=
  match send_file_stream opened file ticket_id file_id sender_peer_id certificate session_signer s with
  | (Err e, s) => (Err e, s, en)
  | (Ok offer, s) =>
      let attachment := sent_attachment file offer sender_peer_id clock in
      match add_attachment (ca_put attach) (ca_now attach) attachment en with
      | (Err e, en) => (Err (SfPersist e), s, en)
      | (Ok _, en) =>
          let '(_, en) := record_event (ca_put audit) (ca_uuid audit) (ca_now audit) ticket_id
            "ATTACHMENT_SENT" sender_peer_id (Some ("Fichier envoyé: " +:+ ar_filename attachment)) en in
          (Ok attachment, s,
           match outbox_id with Some i => (remove_outbox removal i en).2 | None => en end)
      end
  end.
End client.

(** ** Both sides *)

Section dialogue.
Context `{CC : Crypto, CL : !CryptoLaws, HX : Hex, BC : BodyCodec, BL : !BodyCodecLaws, OC : ObjectCodec}.
Context `{LP : Libp2p, CB : Cbor OperatorSessionCertificate}.
Context `{JS : Json ShellNextHandshake, JSL : !JsonLaws ShellNextHandshake}.
Context `{JF : Json FileOfferWire, JFL : !JsonLaws FileOfferWire, SHA : Sha256, UU : Uuid}.
Context {St : Type} `{OS : !ObjectStore St, OL : !ObjectStoreLaws St}.
Implicit Types en : TicketEngine St.

(** What a session key signs verifies under it. *)
Lemma session_key_signs s payload signature :
  signer_wf s → signer_sign (Ed25519Signer_Signer s) payload = Ok signature →
  session_key_signed (signer_public_key s) payload signature = true.
Proof.
  intros Hwf Hs. apply session_key_signed_iff.
  by destruct (verify_sign_trait s payload signature Hwf Hs) as (v & ? & ?); exists v.
Qed.

(** The bytes of a handshake are read back. *)
Lemma receive_sent_handshake io h json :
  json_to_vec h = Some json → (blen json ≤ 16384)%N → si_timeout io = false →
  si_incoming io = reader_of (be_bytes 2 (blen json) ++ json)%list →
  receive_handshake io = Some h.
Proof.
  intros Hj Hl Ht Hin. unfold receive_handshake. rewrite Ht, Hin.
  assert (blen json < u16_modulus)%N as Hlt by (unfold u16_modulus; lia).
  unfold reader_of. rewrite <- (app_nil_r json) at 2.
  destruct (read_handshake_header json [] None Hlt) as [H1 H2].
  unfold ShellNextHandshake_read_from_async, sbind, smap_err, slift.
  rewrite H1. simpl map_err. cbv iota. rewrite (be2_val _ Hlt) in H2 |- *.
  assert ((16 * 1024 <? blen json)%N = false) as -> by (apply N.ltb_ge; lia). rewrite H2. simpl.
  by rewrite (json_roundtrip _ _ Hj).
Qed.

(** The client's side, given the challenge and the code it is answered. *)
Lemma open_shell_next_run local_peer ticket_id certificate s h json (challenge : vec byte 32) code :
  ShellNextHandshake_signed (cert_network_id certificate) ticket_id (peer_id_to_string local_peer)
    certificate challenge (Ed25519Signer_Signer s) = Ok h →
  json_to_vec h = Some json → (blen json < u16_modulus)%N → (code < 256)%N →
  open_shell_next StreamOpened local_peer ticket_id certificate s
    (reader_of (vec_to_list challenge ++ [byte_of_N code])%list, writer_new) =
  (if (code =? AUTHORIZED)%N then Ok tt else Err (OsDenied (describe_denial code)),
   (reader_of [], mkWriter (be_bytes 2 (blen json) ++ json)%list None)).
Proof.
  intros Hh Hj Hl Hc. unfold open_shell_next, reader_of, writer_new.
  unfold sbind at 1, slift at 1. unfold sbind at 1, smap_err at 1, on_reader at 1.
  rewrite read_exact_app by apply length_vec_to_list. cbn [map_err]. cbv iota beta.
  unfold vec_of_read. rewrite vec32_of_vec, Hh. unfold sbind at 1, slift at 1. cbn [map_err]. cbv iota beta.
  unfold sbind at 1, smap_err at 1, on_writer at 1, ShellNextHandshake_write_to_async.
  rewrite Hj. unfold sbind at 1, slift at 1. cbn [ok_or]. cbv iota beta.
  apply N.ltb_lt in Hl. rewrite Hl. unfold sbind, slift, smap_err, on_writer, on_reader, write_all, flush.
  cbn [wr_room wr_out map_err app]. change [byte_of_N code] with ([byte_of_N code] ++ [])%list.
  rewrite read_exact_app by done. cbn [map_err]. unfold sret, sfail.
  assert (be_val [byte_of_N code] = code) as ->
    by (unfold be_val; simpl; rewrite byte_to_of_N, N.mod_small by done; lia).
  by destruct (code =? AUTHORIZED)%N.
Qed.

(** C19. The dialogue of a shell: the operator's client, fed what the node writes, writes a
    handshake that the node, fed that, reads as it was signed; the client ends with the
    meaning of the very code the node decided. If the certificate grants a shell to this
    peer under the session key, and the ticket is the node's, workable and free, both
    end with a shell. *)
Theorem shell_dialogue local_info authority peer ticket_id certificate s io (host : ShellHost St) h json :
  ShellNextHandshake_signed (cert_network_id certificate) ticket_id (peer_id_to_string peer)
    certificate (si_challenge io) (Ed25519Signer_Signer s) = Ok h →
  json_to_vec h = Some json → (blen json ≤ 16384)%N → si_timeout io = false →
  si_incoming io = reader_of (be_bytes 2 (blen json) ++ json)%list →
  ∃ code host',
    handle_incoming_shell_next local_info authority peer io writer_new host =
      (mkWriter (vec_to_list (si_challenge io) ++ [byte_of_N code])%list None, host') ∧
    open_shell_next StreamOpened peer ticket_id certificate s
      (reader_of (vec_to_list (si_challenge io) ++ [byte_of_N code])%list, writer_new) =
    (if (code =? AUTHORIZED)%N then Ok tt else Err (OsDenied (describe_denial code)),
     (reader_of [], mkWriter (be_bytes 2 (blen json) ++ json)%list None)) ∧
    (signer_wf s → signer_public_key s = cert_session_pubkey certificate →
     (∃ ctx, authority = Some ctx ∧ cert_network_id certificate = ac_network_id ctx ∧
        verify_certificate ctx peer certificate CAP_SHELL_EXEC (si_clock io) = true) →
     (∃ t, engine_get_ticket (ho_engine host) ticket_id = Some t ∧
        tr_client_peer_id t = ni_peer_id local_info ∧ permits_work (tr_state t) = true) →
     ho_active host = false →
     code = AUTHORIZED ∧ ho_active host' = true).
Proof.
  intros Hh Hj Hl Ht Hin.
  pose proof (receive_sent_handshake io h json Hj Hl Ht Hin) as Hr.
  destruct (handle_incoming_answer local_info authority peer io host) as (code & Ha & Hw & Hres).
  exists code, (handle_incoming_shell_next local_info authority peer io writer_new host).2.
  split; [rewrite <- Hw; by destruct (handle_incoming_shell_next _ _ _ _ _ _)|].
  split.
  { apply (open_shell_next_run _ _ _ _ h); [done|done|unfold u16_modulus; lia|].
    by destruct Ha. }
  intros Hwf Hk (ctx & Hctx & Hn & Hv) (t & Htk & Hcl & Hp) Hact.
  unfold ShellNextHandshake_signed in Hh.
  destruct (signer_sign (Ed25519Signer_Signer s) _) as [signature|] eqn:Hs; simpl in Hh; [|done].
  injection Hh as Hh.
  assert (shell_answer local_info authority peer io host AUTHORIZED) as Hauth.
  { apply (answer_authorized _ _ _ _ _ h t); subst h; simpl in *; try done.
    exists ctx. simpl. do 4 (split; [done|]). rewrite <- Hk. by apply session_key_signs. }
  pose proof (shell_answer_unique _ _ _ _ _ _ _ Ha Hauth) as ->. split; [done|].
  by destruct Hres as (? & _).
Qed.

(** ** Files *)

Lemma send_chunks_run : ∀ fuel remaining content out,
  (remaining ≤ N.of_nat fuel * CHUNK)%N → (remaining ≤ blen content)%N →
  send_chunks fuel remaining content (mkWriter out None) =
    (Ok tt, mkWriter (out ++ take (N.to_nat remaining) content)%list None).
Proof.
  induction fuel as [|fuel IH]; intros remaining content out Hf Hl; cbn [send_chunks];
    (destruct (N.eqb_spec remaining 0) as [->|Hrem]; [by rewrite take_0, app_nil_r|]).
  { simpl in Hf. lia. }
  set (n := N.min remaining CHUNK). assert (0 < n ∧ n ≤ remaining)%N as [Hn0 Hn] by (unfold n, CHUNK; lia).
  assert ((blen content <? n)%N = false) as -> by (apply N.ltb_ge; lia).
  unfold sbind, smap_err. cbn [write_all wr_room wr_out map_err].
  rewrite IH; [|unfold n, CHUNK in *; lia|unfold blen in *; rewrite length_drop; lia].
  do 2 f_equal. rewrite <- app_assoc. f_equal.
  replace (N.to_nat remaining) with (N.to_nat n + N.to_nat (remaining - n))%nat by lia.
  by rewrite take_take_drop.
Qed.

Lemma write_offer_run offer json :
  json_to_vec offer = Some json → (blen json < u16_modulus)%N →
  write_offer offer writer_new = (Ok tt, mkWriter (be_bytes 2 (blen json) ++ json)%list None).
Proof.
  intros Hj Hl. unfold write_offer, sbind, slift, smap_err. rewrite Hj. cbn [ok_or].
  apply N.ltb_lt in Hl. by rewrite Hl.
Qed.

Lemma read_exact_one b rest : read_exact 1 (reader_of (b :: rest)) = (Ok [b], reader_of rest).
Proof. exact (read_exact_app 1 [b] rest None eq_refl). Qed.

Lemma read_sent_offer offer json content :
  json_to_vec offer = Some json → (blen json < u16_modulus)%N →
  read_offer (reader_of (be_bytes 2 (blen json) ++ json ++ content)%list) = (Ok offer, reader_of content).
Proof.
  intros Hj Hl. destruct (read_handshake_header json content None Hl) as [H1 H2].
  unfold read_offer, sbind, reader_of, slift. rewrite H1, H2. by rewrite (json_roundtrip _ _ Hj).
Qed.

Lemma make_offer_Ok file ticket_id file_id sender certificate signer offer content :
  lf_first file = Some (Ok content) → lf_metadata file = Some (blen content) →
  make_offer file ticket_id file_id sender certificate signer = Ok offer →
  (blen content ≤ MAX_FILE_SIZE)%N ∧
  ∃ proof, offer = mkFileOffer ticket_id file_id (sent_name (lf_path file)) (blen content)
      (sha256_hex content) proof ∧
    offer_authority certificate signer ticket_id file_id (offer_content offer) sender = Ok proof.
Proof.
  intros Hf Hm. unfold make_offer. rewrite Hf, Hm. cbn [ok_or map_err].
  destruct (N.ltb_spec MAX_FILE_SIZE (blen content)) as [|Hle]; [done|].
  destruct (offer_authority _ _ _ _ _ _) as [proof|] eqn:Hp; [|done].
  intros [= <-]. split; [done|]. by exists proof.
Qed.

(** What the receiver does with a content that arrives whole on a working disk. *)
Lemma receive_content_whole peer base io offer file_id content out (host : FileHost St) :
  fo_file_size offer = blen content → fo_sha256 offer = sha256_hex content →
  tf_create io = true → (∀ k, tf_write io k = true) → tf_rename io = true →
  is_ok (add_attachment (ca_put (tf_attach io)) (ca_now (tf_attach io))
    (offered peer base io offer file_id) (fh_engine host)).1 = true →
  ∃ host', receive_content peer base io offer file_id (reader_of content) (mkWriter out None) host =
      Some (mkWriter (out ++ [byte_of_N FILE_ACCEPT])%list None, host') ∧
    fh_files host' !! final_path base (fo_ticket_id offer) file_id (fo_filename offer) =
      Some (tf_flushed io content).
Proof.
  intros Hsz Hsha Hc Hw Hrn Hadd. unfold receive_content. rewrite Hc. cbn [negb].
  destruct (receive_all (tf_write io) (fo_file_size offer) (reader_of content))
    as (ok & content' & r' & E & Hok & _ & Hall). rewrite E.
  specialize (Hall Hw). simpl in Hall. rewrite Hsz, N.leb_refl in Hall. subst ok.
  destruct (Hok eq_refl) as [Hd Hl]. simpl in Hd.
  assert (content' = content) as ->.
  { apply (f_equal (take (length content))) in Hd as Hd'. rewrite take_ge in Hd' by done.
    rewrite take_app_length' in Hd'; [done|]. unfold blen in *. lia. }
  cbn [negb]. rewrite Hsha, bool_decide_eq_true_2, Hrn by done. cbn [negb].
  fold (offered peer base io offer file_id).
  destruct (add_attachment _ _ _ (fh_engine host)) as [[u|e] en1]; [|done].
  destruct (record_event _ _ _ _ _ _ _ en1) as [r2 en2]. eexists. split; [done|].
  simpl. by rewrite lookup_insert_eq.
Qed.

(** C9. The dialogue of a file transfer: sender and receiver, each fed what the other
    writes, agree. If the receiver refuses the offer, the sender reports the meaning of
    the receiver's code. If it accepts, both sides work and the file did not change
    between the two readings, the receiver stores exactly the sender's bytes and both
    confirm. The proof an operator joins to the offer is one the receiver accepts. *)
Theorem file_dialogue local authority peer base io (host : FileHost St) file ticket_id file_id
    certificate signer offer content json :
  lf_first file = Some (Ok content) → lf_metadata file = Some (blen content) →
  lf_second file = Some content →
  make_offer file ticket_id file_id (peer_id_to_string peer) certificate signer = Ok offer →
  json_to_vec offer = Some json → (blen json < u16_modulus)%N →
  tf_slot io = true → tf_create_dir io = true → tf_create io = true →
  (∀ k, tf_write io k = true) → tf_rename io = true →
  tf_incoming io = reader_of (be_bytes 2 (blen json) ++ json ++ content)%list →
  let receive := handle_incoming_file_stream local authority peer base io writer_new host in
  let send answers := send_file_stream true file ticket_id file_id (peer_id_to_string peer)
    certificate signer (reader_of answers, writer_new) in
  match check_offer local authority peer (tf_clock io) offer (fh_engine host) with
  | Err code =>
      receive = Some (mkWriter [byte_of_N code] None, host) ∧
      (send [byte_of_N code]).1 = Err (SfRefused (denied_reason code))
  | Ok id =>
      is_ok (add_attachment (ca_put (tf_attach io)) (ca_now (tf_attach io))
        (offered peer base io offer id) (fh_engine host)).1 = true →
      ∃ host', receive = Some (mkWriter [byte_of_N FILE_ACCEPT; byte_of_N FILE_ACCEPT] None, host') ∧
        fh_files host' !! final_path base ticket_id id (sent_name (lf_path file)) =
          Some (tf_flushed io content) ∧
        send [byte_of_N FILE_ACCEPT; byte_of_N FILE_ACCEPT] =
          (Ok offer, (reader_of [], mkWriter (be_bytes 2 (blen json) ++ json ++ content)%list None))
  end.
Proof.
  intros Hf Hm H2 Hoffer Hj Hl Hslot Hdir Hcreate Hw Hrn Hin. cbv zeta.
  unfold handle_incoming_file_stream. rewrite Hslot, Hin, (read_sent_offer _ _ _ Hj Hl). cbn [negb].
  destruct (make_offer_Ok _ _ _ _ _ _ _ _ Hf Hm Hoffer) as (_ & proof & Ho & _).
  unfold send_file_stream. rewrite Hoffer.
  destruct (check_offer _ _ _ _ _ _) as [id|code] eqn:Hch.
  - intros Hadd. rewrite Hdir. cbn [negb].
    destruct (receive_content_whole peer base io offer id content [byte_of_N FILE_ACCEPT] host)
      as (host' & E & Hfiles); [by rewrite Ho..|done|done|done|done|].
    exists host'. split; [exact E|]. split; [by rewrite Ho in Hfiles|].
    assert (send_chunks (chunk_fuel (fo_file_size offer)) (fo_file_size offer) content
      (mkWriter (be_bytes 2 (blen json) ++ json)%list None) =
      (Ok tt, mkWriter (be_bytes 2 (blen json) ++ json ++ content)%list None)) as Hs.
    { rewrite Ho. simpl fo_file_size. rewrite send_chunks_run.
      - unfold blen. rewrite Nat2N.id, take_ge by done. by rewrite <- app_assoc.
      - unfold chunk_fuel. pose proof (N.div_mod (blen content) CHUNK ltac:(done)).
        pose proof (N.mod_lt (blen content) CHUNK ltac:(done)). unfold CHUNK in *. lia.
      - done. }
    unfold sbind, slift, on_writer, on_reader, smap_err.
    rewrite (write_offer_run _ _ Hj Hl). cbv iota beta. rewrite read_exact_one. cbn [map_err ok_or]. cbv iota.
    change (negb (be_val [byte_of_N FILE_ACCEPT] =? FILE_ACCEPT)%N) with false. cbv iota. rewrite H2.
    cbn [ok_or].
    rewrite Hs. unfold flush. cbn [wr_room map_err]. cbv iota beta. by rewrite read_exact_one.
  - split; [done|]. unfold sbind, slift, on_writer, on_reader, smap_err.
    rewrite (write_offer_run _ _ Hj Hl).
    assert (code ∈ [FILE_DENIED; FILE_DENIED_NO_TICKET; FILE_DENIED_TICKET_CLOSED; FILE_DENIED_TOO_LARGE]) as Hc.
    { revert Hch. unfold check_offer. clear. repeat case_match; intros [= <-]; set_solver. }
    rewrite !elem_of_cons, elem_of_nil in Hc.
    by destruct Hc as [-> |[-> |[-> |[-> | []]]]].
Qed.

(** An operator's offer carries a proof the receiver verifies: for a session key of the
    certificate, a certificate the receiver takes from this peer for file transfers, and
    an encoding of certificates that reads back. *)
Theorem operator_offer_accepted file ticket_id file_id peer certificate signer offer content ctx now cbor :
  lf_first file = Some (Ok content) → lf_metadata file = Some (blen content) →
  make_offer file ticket_id file_id (peer_id_to_string peer) (Some certificate) (Some signer) = Ok offer →
  signer_wf signer → signer_public_key signer = cert_session_pubkey certificate →
  to_canonical_cbor certificate = Ok cbor → from_canonical_cbor cbor LIMITS_CONTROL = Ok certificate →
  verify_certificate ctx peer certificate CAP_FILE_TRANSFER now = true →
  offer_authority_valid (Some ctx) peer now offer = true.
Proof.
  intros Hf Hm Hoffer Hwf Hk Hc Hd Hv.
  destruct (make_offer_Ok _ _ _ _ _ _ _ _ Hf Hm Hoffer) as (_ & proof & Ho & Hp).
  unfold offer_authority in Hp. cbn [signer_sign Ed25519Signer_Signer map_err] in Hp.
  unfold WireProof_from_certificate in Hp. rewrite Hc in Hp. injection Hp as <-.
  unfold offer_authority_valid, verify_operator_session_proof. rewrite Ho. cbn [fo_authority both_and].
  cbn [wp_certificate wp_signature]. rewrite Hd, Hv. cbn [negb fo_ticket_id fo_file_id].
  rewrite <- Hk, Ho. by apply session_key_signs.
Qed.
End dialogue.
