(* ===== verification/SyncRuns.v ===== *)
(** Runs of the request handlers on concrete engines: the hypotheses of their theorems
    hold there, and a lifecycle change that no authority allowed is computed. *)

From S2P Require Import Prelude Text Object Concrete Ticket Event Graph GraphSort.
From S2P Require Import Reducer Authority Store Engine EngineRuns Codec Config Stream Shell Wire Sync Admission Transfer.

#[local] Open Scope string_scope.

#[local] Existing Instance toy_libp2p.
#[local] Existing Instance toy_cbor.

#[export] Instance toy_error_text : ErrorText := {| error_text e :=
  match e with EReducer _ => "refused" | EStore _ => "disk" | _ => "failed" end |}.

Definition toy_call (uuid : string) (now : N) : call_io := mkCall toy_io uuid now.
Definition toy_node_io (now : N) : node_io :=
  mkNodeIo now (toy_call "u1" 200) (toy_call "u2" 201) (λ _, toy_io) RmRemoved.

(** The node "peer" is the client of the one ticket of [engine1]. *)
Definition ask (peer : string) (request : TicketSyncRequest) (en : TicketEngine FsObjectStore)
    : TicketSyncResponse * TicketEngine FsObjectStore :=
  handle_ticket_request (LP := toy_libp2p) "peer" (Some toy_authority) peer (toy_node_io 150) request en.

Definition read_proof (scope : string) : WireProof := toy_proof "ticket-read" scope scope 0 [].

Lemma ticket_reads_confined_witness :
  (∃ l, (ask "op" (GetTickets (Some (read_proof "*"))) engine1).1 = TrTickets l ∧
     (tr_id <$> l) = ["T-01234567"]) ∧
  (ask "eve" (GetTicketById "T-01234567" (Some (read_proof "T-01234567"))) engine1).1 = TrTicket None.
Proof.
  destruct (ticket_reads_confined (LP := toy_libp2p) "peer" (Some toy_authority) "op" (toy_node_io 150) engine1 "*"
    (Some (read_proof "*")) engine1_inv) as [(l & E & _) _].
  destruct (ticket_reads_confined (LP := toy_libp2p) "peer" (Some toy_authority) "eve" (toy_node_io 150) engine1 "T-01234567"
    (Some (read_proof "T-01234567")) engine1_inv) as [_ (o & E' & _)].
  assert (match (ask "op" (GetTickets (Some (read_proof "*"))) engine1).1 with
          | TrTickets l => bool_decide ((tr_id <$> l) = ["T-01234567"]) | _ => false end = true) as Hl
    by (vm_compute; reflexivity).
  assert (match (ask "eve" (GetTicketById "T-01234567" (Some (read_proof "T-01234567"))) engine1).1 with
          | TrTicket None => true | _ => false end = true) as Ho by (vm_compute; reflexivity).
  unfold ask in *. rewrite E in Hl |- *. rewrite E' in Ho |- *. cbn [fst] in *. split.
  - exists l. split; [reflexivity|]. exact (bool_decide_eq_true_1 _ Hl).
  - destruct o; [discriminate|reflexivity].
Defined.

Lemma objects_served_to_anyone_witness :
  ∃ objs, (handle_ticket_request (LP := toy_libp2p) "peer" None "eve" (toy_node_io 150)
    (GetObjects (current_heads engine1)) engine1).1 = TrObjects objs ∧ length objs = 1%nat.
Proof.
  destruct (objects_served_to_anyone (LP := toy_libp2p) "peer" None "eve" (toy_node_io 150) engine1 engine1_inv) as [_ H].
  destruct (H (current_heads engine1)) as (objs & E & _).
  assert (match (handle_ticket_request (LP := toy_libp2p) "peer" None "eve" (toy_node_io 150)
      (GetObjects (current_heads engine1)) engine1).1 with
    | TrObjects l => (length l =? 1)%nat | _ => false end = true) as Hl by (vm_compute; reflexivity).
  rewrite E in Hl |- *. exists objs. split; [reflexivity|]. by apply Nat.eqb_eq.
Defined.

(** ** Mutations *)

Definition signed_mutation (rev : N) : TicketStateMutation :=
  let m := mkMutation (toy_id 1) "T-01234567" rev Resolved (vreplicate 16 x01) "op" op_certificate [] in
  mkMutation (toy_id 1) "T-01234567" rev Resolved (vreplicate 16 x01) "op" op_certificate
    (vec_to_list (sig (Ed25519Signer_sign_domain session_signer OBJECT_SIG_DOMAIN
      (Mutation_signing_payload m)))).

Lemma resolve_ready : append_ready engine1 toy_io (StatusChanged "T-01234567" Resolved "op" None) 200.
Proof. apply ready_check_ok; [exact engine1_inv|vm_compute; reflexivity]. Qed.

Lemma signed_mutation_correct_witness :
  ∃ r, (ask "op" (UpdateStatusSigned (signed_mutation 1)) engine1).1 = MutationApplied r ∧
    tr_state r = Resolved ∧
    engine_get_ticket (ask "op" (UpdateStatusSigned (signed_mutation 1)) engine1).2 "T-01234567" = Some r.
Proof.
  pose proof (signed_mutation_correct (LP := toy_libp2p) "peer" (Some toy_authority) "op" (toy_node_io 150)
    (signed_mutation 1) engine1 engine1_inv engine1_wf resolve_ready) as C.
  assert (match (ask "op" (UpdateStatusSigned (signed_mutation 1)) engine1).1 with
          | MutationApplied r => true | _ => false end = true) as Hok by (vm_compute; reflexivity).
  unfold ask in *. destruct (handle_ticket_request _ _ _ _ _ _) as [[| |r| | | |] en'];
    try discriminate Hok.
  destruct C as (_ & [(cur & Hcur & _ & H)|(_ & _ & ? & E)]); [|discriminate E].
  exists r. split; [reflexivity|].
  destruct (can_transition_to (tr_state cur) (mu_new_state (signed_mutation 1))).
  - destruct H as [Hr Hall]. split; [by rewrite Hr|]. cbn [snd].
    rewrite (Hall "T-01234567"). reflexivity.
  - destruct H as (_ & ? & E). discriminate E.
Defined.

Definition pushed_record : TicketRecord :=
  mkTicketRecord "T-pushed" "mail" "lost" Open Normal "eve" 1 70 90 None.

Lemma pushed_import_ready : import_ready engine0 toy_io toy_io pushed_record.
Proof.
  assert (append_ready engine0 toy_io (created_event pushed_record) 70) as Hc
    by (apply ready_check_ok; [exact engine0_inv|vm_compute; reflexivity]).
  assert (engine_inv (append_ticket_event toy_io (created_event pushed_record) 70 engine0).2) as Hi.
  { destruct (append_ticket_event toy_io (created_event pushed_record) 70 engine0) as [r en1] eqn:E.
    exact (proj1 (append_outcome _ _ _ _ _ _ engine0_inv engine0_wf Hc E)). }
  split; [exact Hc|]. intros en1 [->| ->]; apply ready_check_ok;
    (exact engine0_inv || exact Hi || (vm_compute; reflexivity)).
Qed.

Lemma pushed_ticket_correct_witness :
  (ask "eve" (PushTicket pushed_record) engine0).1 = MutationApplied pushed_record ∧
  engine_get_ticket (ask "eve" (PushTicket pushed_record) engine0).2 "T-pushed" = Some (opened pushed_record).
Proof.
  pose proof (pushed_ticket_correct (LP := toy_libp2p) "peer" (Some toy_authority) "eve" (toy_node_io 150) pushed_record engine0
    engine0_inv engine0_wf pushed_import_ready) as C.
  assert ((ask "eve" (PushTicket pushed_record) engine0).1 = MutationApplied pushed_record) as Hok
    by (vm_compute; reflexivity).
  split; [exact Hok|]. unfold ask in *. destruct (handle_ticket_request _ _ _ _ _ _) as [r en'].
  cbn [fst snd] in *. rewrite Hok in C. destruct C as (_ & _ & Hall).
  rewrite (Hall "T-pushed"). reflexivity.
Defined.

(** ** A run *)

Definition sample_run : list (node_io * InboundEvent TicketSyncRequest TicketSyncResponse (PeerId (Libp2p := toy_libp2p))) :=
  [(toy_node_io 150, Request "op" (UpdateStatusSigned (signed_mutation 1)) 7);
   (toy_node_io 151, Response 3 (TrHeads []));
   (toy_node_io 152, OutboundFailure 3 "late");
   (toy_node_io 153, OtherEvent)].

Definition sample_node : TicketNode :=
  mkTicketNode engine1 (<[3 := mkPendingSync 9 (Some "o")]> ∅).

Lemma node_run_invariant_witness :
  let '(effects, s') := run_node "peer" (Some toy_authority) sample_run sample_node in
  engine_inv (tn_engine s') ∧ answered effects = [9] ∧ waiting s' = [].
Proof.
  pose proof (node_run_invariant (LP := toy_libp2p) (λ _, False) "peer" (Some toy_authority) sample_run sample_node
    engine1_inv engine1_wf) as C.
  assert (answered (run_node "peer" (Some toy_authority) sample_run sample_node).1 = [9]) as Ha
    by (vm_compute; reflexivity).
  destruct (run_node "peer" (Some toy_authority) sample_run sample_node) as [effects s'].
  destruct C as (He & _ & _ & Hp).
  - split; [|split; [|split; [|split]]]; try exact I.
    + exact resolve_ready.
    + intros pending _. exact I.
  - split; [exact He|]. cbn [fst] in Ha. rewrite Ha in Hp. split; [exact Ha|].
    change (waiting sample_node) with [9] in Hp. apply Permutation_length in Hp. simpl in Hp.
    destruct (waiting s'); [reflexivity|discriminate].
Defined.

(** ** Chat *)

Definition sample_chat : ChatMessageWire := mkChatWire "m-1" "T-01234567" "hello" 140
  (Some (toy_proof "chat" "T-01234567" "m-1" 140 (as_bytes "hello"))).

Lemma sample_chat_ready : chat_ready (LP := toy_libp2p) engine1 "op" (toy_node_io 150) sample_chat.
Proof.
  assert (append_ready engine1 toy_io (chat_event (LP := toy_libp2p) "op" 200 sample_chat) 140) as Hm
    by (apply ready_check_ok; [exact engine1_inv|vm_compute; reflexivity]).
  split; [exact Hm|]. apply ready_check_ok; [|vm_compute; reflexivity].
  pose proof (add_chat_message_spec toy_io 200 (received_message (LP := toy_libp2p) "op" sample_chat) engine1
    engine1_inv engine1_wf Hm) as H.
  cbn [ni_first toy_node_io toy_call ca_put ca_now] in *.
  destruct (add_chat_message _ _ _ _) as [r en']. exact (proj1 H).
Qed.

Definition ask_chat : ChatAckWire * TicketEngine FsObjectStore :=
  handle_chat_request (LP := toy_libp2p) "peer" (Some toy_authority) "op" (toy_node_io 150) sample_chat engine1.

Lemma chat_request_correct_witness :
  ack_success ask_chat.1 = true ∧
  ∃ b, en_state ask_chat.2 !! "T-01234567" = Some b ∧ "m-1" ∈ cm_id <$> agg_messages b.
Proof.
  pose proof (chat_request_correct (LP := toy_libp2p) "peer" (Some toy_authority) "op" (toy_node_io 150) sample_chat engine1
    engine1_inv engine1_wf sample_chat_ready) as C.
  assert (ack_success ask_chat.1 = true) as Hok by (vm_compute; reflexivity).
  split; [exact Hok|]. unfold ask_chat in *. destruct (handle_chat_request _ _ _ _ _ _) as [ack en'].
  destruct C as (_ & _ & _ & _ & H). destruct (H Hok) as (_ & a & b & _ & Hb & _ & Hin & _).
  exists b. exact (conj Hb Hin).
Defined.

(** ** Objects without authority *)

(** A closing of the ticket, signed by a key of nobody's. *)
Definition closing_object : SignedObject :=
  the_object (Event_new (current_heads engine1) 150 2
    (PTicket (StatusChanged "T-01234567" Closed "mallory" None)) (toy_signer 99)).

(** The object requests also go around the authority of the lifecycle: a peer that
    holds no certificate of its own has every signed mutation refused, whatever it
    says, and yet closes the ticket with one self-signed event object. *)
Theorem push_objects_bypasses_authority :
  (∀ m, mu_certificate m = op_certificate →
    ∃ msg c, ask "mallory" (UpdateStatusSigned m) engine1 = (MutationRejected Permanent msg c, engine1)) ∧
  tr_state <$> engine_get_ticket engine1 "T-01234567" = Some Open ∧
  (let '(response, en') := ask "mallory" (PushObjects [closing_object]) engine1 in
   response = SyncAck 1 0 ∧
   tr_state <$> engine_get_ticket en' "T-01234567" = Some Closed).
Proof.
  split; [|split; [vm_compute; reflexivity|]].
  - intros m Hm. unfold ask. cbn [handle_ticket_request]. unfold update_status_signed.
    destruct (engine_get_ticket engine1 (mu_ticket_id m)) as [t|]; [|by eexists _, _].
    assert (mutation_authorized "peer" (Some toy_authority) "mallory" m (ni_clock (toy_node_io 150)) t = false)
      as ->; [|by eexists _, _].
    unfold mutation_authorized. rewrite Hm.
    assert (verify_certificate toy_authority "mallory" op_certificate CAP_TICKET_MANAGE
      (ni_clock (toy_node_io 150)) = false) as -> by (vm_compute; reflexivity).
    by rewrite !andb_false_r.
  - assert (match ask "mallory" (PushObjects [closing_object]) engine1 with
            | (SyncAck a r, en') => (a =? 1)%nat && (r =? 0)%nat &&
                bool_decide (tr_state <$> engine_get_ticket en' "T-01234567" = Some Closed)
            | _ => false
            end = true) as H by (vm_compute; reflexivity).
    destruct (ask "mallory" (PushObjects [closing_object]) engine1) as [[| | | | | |a r] en'];
      try discriminate H.
    apply andb_true_iff in H as [H Hs]. apply andb_true_iff in H as [Ha Hr].
    apply Nat.eqb_eq in Ha as ->. apply Nat.eqb_eq in Hr as ->.
    apply bool_decide_eq_true in Hs. exact (conj eq_refl Hs).
Qed.

(** ** Shell sessions *)

Definition sample_task : ShellTask := mkShellTask "0f6c" "T-01234567" "op" 200 Serving.

Lemma start_ready : append_ready engine1 toy_io (start_event 200 sample_task) 200.
Proof. apply ready_check_ok; [exact engine1_inv|vm_compute; reflexivity]. Qed.

Lemma no_such_ticket : engine_get_ticket engine1 "0f6c" = None.
Proof. vm_compute. reflexivity. Qed.

Lemma no_such_session : session_ticket "0f6c" (en_state engine1) = None.
Proof. vm_compute. reflexivity. Qed.

Lemma shell_session_never_recorded_witness :
  is_ok (record_start (toy_call "u" 200) sample_task engine1).1 = false ∧
  tr_id <$> engine_get_ticket engine1 (sk_ticket_id sample_task) = Some "T-01234567".
Proof.
  split; [|vm_compute; reflexivity].
  pose proof (shell_session_never_recorded (toy_call "u" 200) (toy_call "v" 300) true sample_task engine1
    engine1_inv engine1_wf start_ready no_such_ticket no_such_session) as C.
  destruct (record_start (toy_call "u" 200) sample_task engine1) as [r en1].
  destruct (record_end (toy_call "v" 300) true sample_task en1) as [r' en2]. exact (proj1 C).
Defined.

(** ** Files *)

#[local] Existing Instance toy_sha256.

#[local] Instance toy_uuid : Uuid := {| parse_uuid_simple s :=
  if (length (as_bytes s) =? 32)%nat && forallb is_hex_lower (as_bytes s) then Some s else None |}.

#[local] Instance toy_uuid_laws : UuidLaws.
Proof.
  split. intros s i. simpl. destruct (_ && _) eqn:H; [|done]. intros [= <-].
  apply andb_true_iff in H as [Hl Hh]. split; [|by apply Nat.eqb_eq].
  rewrite forallb_forall in Hh. apply Forall_forall. intros b Hb. apply Hh. by apply list_elem_of_In.
Qed.

Definition sample_id : string := "0123456789abcdef0123456789abcdef".

Lemma sample_id_simple : normalize_file_id sample_id = Some sample_id.
Proof. vm_compute. reflexivity. Qed.

Lemma received_paths_confined_witness :
  final_path [RootDir] "T-1" sample_id "../../etc/pass|wd" =
    [RootDir; NormalPart (ticket_key "T-1"); NormalPart (as_bytes "files");
     NormalPart (as_bytes (sample_id +:+ "_pass_wd"))].
Proof.
  destruct (received_paths_confined (SL := toy_sha256_laws) (UL := toy_uuid_laws) [RootDir] "T-1" sample_id sample_id
    "../../etc/pass|wd" sample_id_simple) as [E _].
  rewrite E. vm_compute. reflexivity.
Defined.

Definition sample_content : bytes := [x01; x02; x03].
Definition sample_offer : FileOfferWire :=
  mkFileOffer "T-01234567" sample_id "a:b.txt" 3 (sha256_hex sample_content) None.

#[local] Instance offer_json : Json FileOfferWire := single_json sample_offer (λ _, false).

Definition sample_transfer : transfer_io :=
  mkTransferIo true (reader_of (be_bytes 2 2 ++ as_bytes "{}" ++ sample_content)%list) 150
    true true (λ _, true) id true true (toy_call "u1" 200) (toy_call "u2" 201).

Definition sample_host : FileHost FsObjectStore := mkFileHost engine1 ∅.
Definition sample_base : PathBuf := [RootDir; NormalPart (as_bytes "srv")].

Lemma sample_check : check_offer (LP := toy_libp2p) "node" None "peer" 150 sample_offer engine1 = Ok sample_id.
Proof. vm_compute. reflexivity. Qed.

Lemma sample_offer_read :
  read_offer (tf_incoming sample_transfer) = (Ok sample_offer, reader_of sample_content).
Proof. vm_compute. reflexivity. Qed.

Lemma sample_transfer_ready :
  transfer_ready (LP := toy_libp2p) engine1 "peer" sample_base sample_transfer sample_offer sample_id.
Proof.
  assert (append_ready engine1 toy_io (attachment_event 200 (offered (LP := toy_libp2p) "peer" sample_base
    sample_transfer sample_offer sample_id)) 150) as Ha
    by (apply ready_check_ok; [exact engine1_inv|vm_compute; reflexivity]).
  split; [exact Ha|]. apply ready_check_ok; [|vm_compute; reflexivity].
  pose proof (add_attachment_spec toy_io 200 (offered (LP := toy_libp2p) "peer" sample_base sample_transfer
    sample_offer sample_id) engine1 engine1_inv engine1_wf Ha) as H.
  cbn [tf_attach sample_transfer toy_call ca_put ca_now].
  destruct (add_attachment _ _ _ _) as [r en']. exact (proj1 H).
Qed.

Definition run_transfer : option (writer * FileHost FsObjectStore) :=
  handle_incoming_file_stream (LP := toy_libp2p) "node" None "peer" sample_base sample_transfer writer_new
    sample_host.

Lemma file_transfer_correct_witness :
  ∃ w host', run_transfer = Some (w, host') ∧ wr_out w = [x01; x01] ∧
    stored_file (SHA := toy_sha256) sample_base sample_transfer sample_offer sample_id
      (reader_of sample_content) sample_host host'.
Proof.
  destruct (file_transfer_correct (LP := toy_libp2p) "node" None "peer" sample_base sample_transfer sample_host
    engine1_inv engine1_wf) as (w & host' & E & Ho).
  { intros offer r file_id Hr Hc. rewrite sample_offer_read in Hr. injection Hr as <- <-.
    change (fh_engine sample_host) with engine1 in *. change (tf_clock sample_transfer) with 150%N in Hc.
    rewrite sample_check in Hc. injection Hc as <-. exact sample_transfer_ready. }
  assert (match run_transfer with Some (w, _) => bool_decide (wr_out w = [x01; x01]) | None => false end = true)
    as Hw by (vm_compute; reflexivity).
  unfold run_transfer in *. rewrite E in Hw. apply bool_decide_eq_true in Hw.
  exists w, host'. split; [exact E|]. split; [exact Hw|].
  destruct (to_stored _ _ _ _ _ _ _ _ Ho Hw) as (_ & offer & r & file_id & Hr & Hc & Hs).
  rewrite sample_offer_read in Hr. injection Hr as <- <-.
  change (fh_engine sample_host) with engine1 in Hc. change (tf_clock sample_transfer) with 150%N in Hc.
  rewrite sample_check in Hc. injection Hc as <-. exact Hs.
Defined.

Lemma storage_quota_bounded_witness :
  quota_step (LP := toy_libp2p) "T-01234567" (engine1, []) (engine1, [3%N]) ∧
  (ticket_bytes engine1 "T-01234567" ≤ MAX_TICKET_STORAGE + MAX_FILE_SIZE)%N.
Proof.
  assert (quota_step (LP := toy_libp2p) "T-01234567" (engine1, []) (engine1, [3%N])) as Hs.
  { apply (quota_accept (LP := toy_libp2p) "T-01234567" engine1 [] "node" None "peer" 150 sample_offer sample_id);
      [unfold MAX_PARALLEL_FILES; simpl; lia|reflexivity|exact sample_check]. }
  split; [exact Hs|].
  assert ((ticket_bytes engine1 "T-01234567" <=? MAX_TICKET_STORAGE)%N = true) as Hb by (vm_compute; reflexivity).
  exact (proj1 (storage_quota_bounded (LP := toy_libp2p) "T-01234567" engine1 (engine1, [3%N]) engine1_inv
    (proj1 (N.leb_le _ _) Hb) (rtc_once _ _ Hs))).
Defined.
