(* ===== verification/ClientRuns.v ===== *)
(** Dialogues between a concrete operator and the concrete node of SyncRuns.v: the
    hypotheses of the theorems of Client.v hold there. *)

From S2P Require Import Prelude Text Object Concrete Ticket Event Graph GraphSort.
From S2P Require Import Reducer Authority Store Engine EngineRuns Codec Config Stream Shell Wire Sync Admission Transfer Client SyncRuns.

#[local] Open Scope string_scope.

#[local] Existing Instance toy_libp2p.
#[local] Existing Instance toy_cbor.
#[local] Existing Instance toy_sha256.
#[local] Existing Instance toy_uuid.

(** ** A shell *)

Definition local_node : NodeInfo := mkNodeInfo "peer" "pc" "linux" "x86_64" "0.1.0" false false.

Definition challenge : vec byte 32 := vreplicate 32 x07.

Definition sent_handshake : ShellNextHandshake :=
  mkShellNext (toy_id 1) "T-01234567" "op" op_certificate
    (vec_to_list (sig (Ed25519Signer_sign_domain session_signer OBJECT_SIG_DOMAIN
      (signing_payload (toy_id 1) "T-01234567" "op" challenge)))).

Definition is_sent_handshake (h : ShellNextHandshake) : bool :=
  bool_decide (sn_network_id h = toy_id 1) && bool_decide (sn_ticket_id h = "T-01234567") &&
  bool_decide (sn_operator_transport_peer_id h = "op") &&
  bool_decide (sn_session_certificate h = op_certificate) &&
  bool_decide (sn_challenge_signature h = sn_challenge_signature sent_handshake).

#[local] Instance handshake_json : Json ShellNextHandshake := single_json sent_handshake is_sent_handshake.

#[local] Instance handshake_json_laws : JsonLaws ShellNextHandshake.
Proof.
  apply single_json_laws. intros [n t p c s] H. unfold is_sent_handshake in H. bool_props.
  cbn [sn_network_id sn_ticket_id sn_operator_transport_peer_id sn_session_certificate
       sn_challenge_signature sent_handshake] in *.
  subst. reflexivity.
Qed.

Definition shell_answers : shell_io :=
  mkShellIo challenge (reader_of (be_bytes 2 2 ++ as_bytes "{}")%list) false 150 "0f6c".

Definition shell_host : ShellHost FsObjectStore := mkShellHost engine1 false [].

Lemma handshake_signed :
  ShellNextHandshake_signed (toy_id 1) "T-01234567" "op" op_certificate challenge
    (Ed25519Signer_Signer session_signer) = Ok sent_handshake.
Proof. vm_compute. reflexivity. Qed.

Lemma handshake_written : json_to_vec sent_handshake = Some (as_bytes "{}").
Proof. vm_compute. reflexivity. Qed.

Lemma certificate_network : cert_network_id op_certificate = toy_id 1.
Proof. vm_compute. reflexivity. Qed.

Lemma session_signer_certified : signer_public_key session_signer = cert_session_pubkey op_certificate.
Proof. vm_compute. reflexivity. Qed.

Lemma certificate_grants :
  verify_certificate (LP := toy_libp2p) toy_authority "op" op_certificate CAP_SHELL_EXEC 150 = true ∧
  verify_certificate (LP := toy_libp2p) toy_authority "op" op_certificate CAP_FILE_TRANSFER 150 = true.
Proof. split; vm_compute; reflexivity. Qed.

Lemma local_ticket :
  ∃ t, engine_get_ticket engine1 "T-01234567" = Some t ∧
    tr_client_peer_id t = ni_peer_id local_node ∧ permits_work (tr_state t) = true.
Proof.
  assert (match engine_get_ticket engine1 "T-01234567" with
          | Some t => bool_decide (tr_client_peer_id t = "peer") && permits_work (tr_state t)
          | None => false
          end = true) as H by (vm_compute; reflexivity).
  destruct (engine_get_ticket engine1 "T-01234567") as [t|]; [|discriminate H].
  apply andb_true_iff in H as [Hc Hp]. apply bool_decide_eq_true in Hc.
  exists t. exact (conj eq_refl (conj Hc Hp)).
Qed.

Lemma shell_dialogue_witness :
  ∃ host', handle_incoming_shell_next (LP := toy_libp2p) local_node (Some toy_authority) "op" shell_answers writer_new shell_host =
      (mkWriter (vec_to_list challenge ++ [byte_of_N AUTHORIZED])%list None, host') ∧
    ho_active host' = true ∧
    (open_shell_next (LP := toy_libp2p) StreamOpened "op" "T-01234567" op_certificate session_signer
      (reader_of (vec_to_list challenge ++ [byte_of_N AUTHORIZED])%list, writer_new)).1 = Ok tt.
Proof.
  pose proof handshake_signed as Hs. rewrite <- certificate_network in Hs.
  destruct (shell_dialogue (LP := toy_libp2p) local_node (Some toy_authority) "op" "T-01234567" op_certificate session_signer
    shell_answers shell_host sent_handshake (as_bytes "{}") Hs handshake_written) as (code & host' & E & Ec & H);
    [vm_compute; discriminate|reflexivity|vm_compute; reflexivity|].
  destruct H as [-> Ha].
  - exact (signer_wf_from_bytes _).
  - exact session_signer_certified.
  - exists toy_authority. split; [reflexivity|]. split; [exact certificate_network|].
    exact (proj1 certificate_grants).
  - exact local_ticket.
  - reflexivity.
  - exists host'. split; [exact E|]. split; [exact Ha|].
    cbn [si_challenge shell_answers] in Ec. rewrite Ec. reflexivity.
Defined.

(** ** A file *)

Definition local_document : local_file :=
  mkLocalFile [RootDir; NormalPart (as_bytes "a.txt")] (Some 3) (Some (Ok sample_content)) (Some sample_content).

Definition sent_offer : FileOfferWire :=
  mkFileOffer "T-01234567" sample_id "a.txt" 3 (sha256_hex sample_content) None.

#[local] Instance sent_offer_json : Json FileOfferWire := single_json sent_offer (λ o,
  bool_decide (fo_ticket_id o = "T-01234567") && bool_decide (fo_file_id o = sample_id) &&
  bool_decide (fo_filename o = "a.txt") && bool_decide (fo_file_size o = 3) &&
  bool_decide (fo_sha256 o = sha256_hex sample_content) && match fo_authority o with Some _ => false | None => true end).

#[local] Instance sent_offer_json_laws : JsonLaws FileOfferWire.
Proof.
  apply single_json_laws. intros [t i f n h [p|]] H; [by rewrite andb_false_r in H|]. bool_props.
  cbn [fo_ticket_id fo_file_id fo_filename fo_file_size fo_sha256 fo_authority sent_offer] in *.
  subst. reflexivity.
Qed.

Definition node_files : FileHost FsObjectStore := sample_host.

Lemma offer_made : make_offer local_document "T-01234567" sample_id "peer" None None = Ok sent_offer.
Proof. vm_compute. reflexivity. Qed.

Lemma offer_checked : check_offer (LP := toy_libp2p) "node" None "peer" 150 sent_offer engine1 = Ok sample_id.
Proof. vm_compute. reflexivity. Qed.

Lemma offer_written : json_to_vec sent_offer = Some (as_bytes "{}").
Proof. vm_compute. reflexivity. Qed.

Lemma file_dialogue_witness :
  ∃ host', handle_incoming_file_stream (LP := toy_libp2p) (JF := sent_offer_json) "node" None "peer" sample_base sample_transfer writer_new node_files =
      Some (mkWriter [x01; x01] None, host') ∧
    fh_files host' !! final_path sample_base "T-01234567" sample_id "a.txt" = Some sample_content.
Proof.
  pose proof (file_dialogue (LP := toy_libp2p) (JF := sent_offer_json) "node" None "peer" sample_base sample_transfer node_files local_document
    "T-01234567" sample_id None None sent_offer sample_content (as_bytes "{}")
    eq_refl eq_refl eq_refl offer_made offer_written eq_refl
    eq_refl eq_refl eq_refl (λ _, eq_refl) eq_refl eq_refl) as H.
  cbv zeta in H. change (tf_clock sample_transfer) with 150%N in H.
  change (fh_engine node_files) with engine1 in H. rewrite offer_checked in H.
  destruct H as (host' & E & Hf & _); [vm_compute; reflexivity|].
  exists host'. exact (conj E Hf).
Defined.

(** ** An operator's file *)

Definition operator_offer : FileOfferWire :=
  mkFileOffer "T-01234567" sample_id "a.txt" 3 (sha256_hex sample_content)
    (Some (mkWireProof [x00] (vec_to_list (sig (Ed25519Signer_sign_domain session_signer OBJECT_SIG_DOMAIN
      (Proof_signing_payload "file" "T-01234567" sample_id 0 (as_bytes (offer_content sent_offer)) "op")))))).

Lemma operator_offer_made :
  make_offer local_document "T-01234567" sample_id "op" (Some op_certificate) (Some session_signer) =
    Ok operator_offer.
Proof. vm_compute. reflexivity. Qed.

Lemma operator_offer_accepted_witness :
  offer_authority_valid (LP := toy_libp2p) (Some toy_authority) "op" 150 operator_offer = true.
Proof.
  apply (operator_offer_accepted (LP := toy_libp2p) local_document "T-01234567" sample_id "op" op_certificate session_signer
    operator_offer sample_content toy_authority 150 [x00] eq_refl eq_refl operator_offer_made
    (signer_wf_from_bytes _) session_signer_certified).
  - vm_compute. reflexivity.
  - vm_compute. reflexivity.
  - exact (proj2 certificate_grants).
Defined.
