(* ===== verification/Node.v ===== *)
(** The event loop of a node ([event_loop], [dial_peer_candidates] and
    [handle_rendezvous_client] in [crates/fortiq-p2p/src/node.rs]): what a turn of the
    loop does to the node's tables, and what it asks of the swarm, of the callers that
    wait for an answer and of the tasks it spawns.

    The swarm is libp2p's: what it answers during a turn is the argument [loop_io]. *)

From S2P Require Import Prelude Text Object Concrete Ticket Event Graph GraphSort.
From S2P Require Import Reducer Authority Store Engine EngineRuns Codec Stream Config Shell Wire Sync.
From S2P Require Import Peers Admission Transfer.

#[local] Open Scope string_scope.

(** [serde_json::to_string] and [serde_json::from_str]. *)
Definition json_to_string `{Json T} (x : T) : option string := from_bytes <$> json_to_vec x.
Definition json_from_str `{Json T} (s : string) : option T := json_from_slice (as_bytes s).

Record FileSendOutboxPayload := mkFileSend { fs_ticket_id : string; fs_file_path : PathBuf }.

Record PendingShellNext := mkPendingShell {
  pn_ticket_id : string;
  pn_certificate : OperatorSessionCertificate;
  pn_session_signer : Ed25519Signer;
  pn_reply : Sender
}.

(** [PendingFileDial]. *)
Record PendingFileDial := mkPendingFile {
  pd_ticket_id : string;
  pd_file_path : PathBuf;
  pd_reply : Sender;
  pd_outbox_id : option string;
  pd_certificate : option OperatorSessionCertificate;
  pd_session_signer : option Ed25519Signer
}.

(** [PendingSyncDial] and [PendingChatDial]. *)
Abbreviation PendingSyncDial := (TicketSyncRequest * PendingTicketSync)%type (only parsing).
Abbreviation PendingChatDial := (ChatMessageWire * Sender)%type (only parsing).

(** [map.entry(peer).or_default().push(x)]. *)
Definition push_dial `{Countable K} {A} (k : K) (x : A) (m : gmap K (list A)) : gmap K (list A) :=
  <[k := (default [] (m !! k) ++ [x])%list]> m.

(** [map.remove(&peer)], and the loop over what it held. *)
Definition taken `{Countable K} {A} (k : K) (m : gmap K (list A)) : list A := default [] (m !! k).

(** What [swarm.dial] says of a dial by peer id. *)
Inductive dial_result := DialStarted | DialPeerConditionFalse | DialFailed.

Section node.
Context `{CC : Crypto, HX : Hex, BC : BodyCodec, OC : ObjectCodec, OB : OutboxCodec}.
Context `{LP : Libp2p, CB : Cbor OperatorSessionCertificate, ET : ErrorText}.
Context `{JI : Json NodeInfo, JT : Json TicketSyncRequest, JP : Json FileSendOutboxPayload}.
Context `{JS : Json ShellNextHandshake}.
Context {St : Type} `{OS : !ObjectStore St}.
Implicit Types en : TicketEngine St.

Inductive P2pCommand :=
| ListPeers (reply : Sender)
| OpenShellStream (peer : PeerId) (ticket_id : option string) (dial : option Multiaddr) (reply : Sender)
| OpenShellNext (peer : PeerId) (dial : option Multiaddr) (pending : PendingShellNext)
| SyncTickets (peer : PeerId) (dial : option Multiaddr) (request : TicketSyncRequest) (reply : Sender)
| SendChatMessage (peer : PeerId) (dial : option Multiaddr) (message : ChatMessageWire) (reply : Sender)
| SendFile (peer : PeerId) (dial : option Multiaddr) (ticket_id : string) (file_path : PathBuf)
    (certificate : option OperatorSessionCertificate) (session_signer : option Ed25519Signer)
    (reply : Sender).

(** What a turn asks of the swarm, of the waiting callers and of new tasks. *)
Inductive NodeEffect :=
| SendTicket (peer : PeerId) (request_id : N) (request : TicketSyncRequest)
| SendChat (peer : PeerId) (request_id : N) (message : ChatMessageWire)
| SendHello (peer : PeerId) (info : NodeInfo)
| AnswerHello (channel : N) (info : NodeInfo)
| TicketEffect (effect : Effect TicketSyncResponse)
| ChatEffect (effect : Effect ChatAckWire)
| ReplyPeers (to : Sender) (peers : list PeerSummary)
| ReplyError (to : Sender) (error : string)
| SpawnShell (peer local_peer : PeerId) (pending : PendingShellNext)
| SpawnFile (peer : PeerId) (pending : PendingFileDial)
| SpawnReceive (peer : PeerId) (slot : bool)
| ShellAnswered (w : writer)
| Dial (address : Multiaddr)
| DialPeer (peer : PeerId) (addresses : list Multiaddr)
| RegisterAt (node : PeerId)
| DiscoverAt (node : PeerId)
| AddExternalAddress (address : Multiaddr)
| Panic.

(** The local variables of the loop. *)
Record NodeState := mkNode {
  nd_engine : TicketEngine St;
  nd_registry : gmap PeerId DiscoveredPeer;
  nd_rendezvous_nodes : gset PeerId;
  nd_sync_tickets : gmap N PendingTicketSync;
  nd_chat_messages : gmap N Sender;
  nd_shell_next : gmap PeerId (list PendingShellNext);
  nd_sync_dials : gmap PeerId (list PendingSyncDial);
  nd_chat_dials : gmap PeerId (list PendingChatDial);
  nd_file_dials : gmap PeerId (list PendingFileDial);
  nd_file_slots : nat;           (** free permits of [incoming_file_slots] *)
  nd_active_shells : bool;
  nd_shell_tasks : list ShellTask
}.

(** What the loop was started with. *)
Record node_options := mkNodeOptions {
  no_local_info : NodeInfo;
  no_local_peer : PeerId;        (** [swarm.local_peer_id()] *)
  no_relay_peer : option string;
  no_authority : option AuthorityContext
}.

(** What the swarm, the clock, the random source and the directory of the outbox answer during a
    turn: the requests of a turn are numbered in the order in which they are sent, the
    removals in that in which they are tried. *)
Record loop_io := mkLoopIo {
  li_connected : PeerId → bool;
  li_dial : Multiaddr → bool;
  li_dial_peer : PeerId → dial_result;
  li_request_id : nat → N;
  li_orphan : nat → Sender;      (** channels whose other end is dropped at once *)
  li_now : N;
  li_uuid : string;
  li_enqueue : option enqueue_fault;
  li_ticket_list : list_io;      (** the listing for the ticket requests of a peer *)
  li_file_list : list_io;        (** and the one for its files *)
  li_remove : nat → remove_answer
}.

(** ** Updates of one field *)

Definition with_engine (s : NodeState) en : NodeState :=
  mkNode en (nd_registry s) (nd_rendezvous_nodes s) (nd_sync_tickets s) (nd_chat_messages s)
    (nd_shell_next s) (nd_sync_dials s) (nd_chat_dials s) (nd_file_dials s) (nd_file_slots s)
    (nd_active_shells s) (nd_shell_tasks s).
Definition with_registry (s : NodeState) r : NodeState :=
  mkNode (nd_engine s) r (nd_rendezvous_nodes s) (nd_sync_tickets s) (nd_chat_messages s)
    (nd_shell_next s) (nd_sync_dials s) (nd_chat_dials s) (nd_file_dials s) (nd_file_slots s)
    (nd_active_shells s) (nd_shell_tasks s).
Definition with_rendezvous (s : NodeState) r : NodeState :=
  mkNode (nd_engine s) (nd_registry s) r (nd_sync_tickets s) (nd_chat_messages s)
    (nd_shell_next s) (nd_sync_dials s) (nd_chat_dials s) (nd_file_dials s) (nd_file_slots s)
    (nd_active_shells s) (nd_shell_tasks s).
Definition with_requests (s : NodeState) tickets chats : NodeState :=
  mkNode (nd_engine s) (nd_registry s) (nd_rendezvous_nodes s) tickets chats
    (nd_shell_next s) (nd_sync_dials s) (nd_chat_dials s) (nd_file_dials s) (nd_file_slots s)
    (nd_active_shells s) (nd_shell_tasks s).
Definition with_dials (s : NodeState) shells syncs chats files : NodeState :=
  mkNode (nd_engine s) (nd_registry s) (nd_rendezvous_nodes s) (nd_sync_tickets s) (nd_chat_messages s)
    shells syncs chats files (nd_file_slots s) (nd_active_shells s) (nd_shell_tasks s).
Definition with_slots (s : NodeState) n : NodeState :=
  mkNode (nd_engine s) (nd_registry s) (nd_rendezvous_nodes s) (nd_sync_tickets s) (nd_chat_messages s)
    (nd_shell_next s) (nd_sync_dials s) (nd_chat_dials s) (nd_file_dials s) n
    (nd_active_shells s) (nd_shell_tasks s).
Definition with_host (s : NodeState) (h : ShellHost St) : NodeState :=
  mkNode (ho_engine h) (nd_registry s) (nd_rendezvous_nodes s) (nd_sync_tickets s) (nd_chat_messages s)
    (nd_shell_next s) (nd_sync_dials s) (nd_chat_dials s) (nd_file_dials s) (nd_file_slots s)
    (ho_active h) (ho_tasks h).

(** ** Dialling and sending *)

Definition dial_peer_candidates (o : node_options) (io : loop_io) (peer : PeerId)
    (registry : gmap PeerId DiscoveredPeer) : list NodeEffect * bool :=
  match dial_candidates peer registry (no_relay_peer o) with
  | [] => ([], false)
  | addresses =>
      ([DialPeer peer addresses],
       match li_dial_peer io peer with DialStarted | DialPeerConditionFalse => true | DialFailed => false end)
  end.

(** [if let Some(addr) = dial { swarm.dial(addr) } else { dial_peer_candidates(…) }]. *)
Definition start_dial o io (peer : PeerId) (dial : option Multiaddr) (s : NodeState)
    : list NodeEffect * bool :=
  match dial with
  | Some addr => ([Dial addr], li_dial io addr)
  | None => dial_peer_candidates o io peer (nd_registry s)
  end.

(** Ticket requests sent one after the other, each entered among those that wait. *)
Definition send_tickets io (peer : PeerId) (l : list PendingSyncDial) (m : gmap N PendingTicketSync)
    : list NodeEffect * gmap N PendingTicketSync :=
  (imap (λ k r, SendTicket peer (li_request_id io k) r.1) l,
   foldl (λ m r, <[r.1 := r.2]> m) m (imap (λ k r, (li_request_id io k, r.2)) l)).

Definition send_chats io (peer : PeerId) (l : list PendingChatDial) (m : gmap N Sender)
    : list NodeEffect * gmap N Sender :=
  (imap (λ k r, SendChat peer (li_request_id io k) r.1) l,
   foldl (λ m r, <[r.1 := r.2]> m) m (imap (λ k r, (li_request_id io k, r.2)) l)).

(** [local_info.peer_id.parse().expect("local PeerId")]. *)
Definition spawn_shell (o : node_options) (peer : PeerId) (p : PendingShellNext) : NodeEffect :=
  match parse_peer_id (ni_peer_id (no_local_info o)) with
  | Some local_peer => SpawnShell peer local_peer p
  | None => Panic
  end.

Definition register_all (s : NodeState) : list NodeEffect := RegisterAt <$> elements (nd_rendezvous_nodes s).

(** ** Commands *)

Definition no_address : string :=
  "Impossible de joindre le pair distant: aucune adresse de dial disponible".

Definition on_list_peers io (reply : Sender) (s : NodeState) : list NodeEffect * NodeState :=
  ((DiscoverAt <$> filter (λ node, li_connected io node = true) (elements (nd_rendezvous_nodes s))) ++
   [ReplyPeers reply (to_summaries (nd_registry s))], s)%list.

Definition on_open_shell_next o io (peer : PeerId) (dial : option Multiaddr) (p : PendingShellNext)
    (s : NodeState) : list NodeEffect * NodeState :=
  if li_connected io peer then ([spawn_shell o peer p], s) else
  let pending := push_dial peer p (nd_shell_next s) in
  let '(effects, started) := start_dial o io peer dial s in
  if started then
    (effects, with_dials s pending (nd_sync_dials s) (nd_chat_dials s) (nd_file_dials s))
  else
    (effects ++ ((λ p, ReplyError (pn_reply p) no_address) <$> taken peer pending),
     with_dials s (delete peer pending) (nd_sync_dials s) (nd_chat_dials s) (nd_file_dials s))%list.

(** What [enqueue_outbox] gives for a payload that may not encode; an error is told to the caller. *)
Definition enqueue_json io (peer : PeerId) (kind : string) (payload : option string) en
    : option string * TicketEngine St :=
  match payload with
  | None => (None, en)
  | Some payload =>
      match enqueue_outbox (li_enqueue io) (li_uuid io) (li_now io) (peer_id_to_string peer) kind payload en with
      | (Ok i, en) => (Some i, en)
      | (Err _, en) => (None, en)
      end
  end.

(** The errors of a request that could not be stored; the reason the code adds is left out. *)
Definition sync_not_stored : string := "Échec de persistance de la synchronisation".
Definition file_not_stored : string := "Échec de persistance de l'envoi fichier".

(** The part of [SyncTickets] after the outbox. *)
Definition forward_sync o io (peer : PeerId) (dial : option Multiaddr) (request : PendingSyncDial)
    (s : NodeState) : list NodeEffect * NodeState :=
  if li_connected io peer then
    let '(effects, tickets) := send_tickets io peer [request] (nd_sync_tickets s) in
    (effects, with_requests s tickets (nd_chat_messages s))
  else
    ((start_dial o io peer dial s).1,
     with_dials s (nd_shell_next s) (push_dial peer request (nd_sync_dials s)) (nd_chat_dials s)
       (nd_file_dials s)).

Definition on_sync_tickets o io (peer : PeerId) (dial : option Multiaddr) (request : TicketSyncRequest)
    (reply : Sender) (s : NodeState) : list NodeEffect * NodeState :=
  if is_ticket_mutation request then
    match enqueue_json io peer "TICKET_SYNC" (json_to_string request) (nd_engine s) with
    | (None, en) => ([ReplyError reply sync_not_stored], with_engine s en)
    | (Some i, en) => forward_sync o io peer dial (request, mkPendingSync reply (Some i)) (with_engine s en)
    end
  else forward_sync o io peer dial (request, mkPendingSync reply None) s.

Definition on_send_chat o io (peer : PeerId) (dial : option Multiaddr) (message : ChatMessageWire)
    (reply : Sender) (s : NodeState) : list NodeEffect * NodeState :=
  if li_connected io peer then
    let '(effects, chats) := send_chats io peer [(message, reply)] (nd_chat_messages s) in
    (effects, with_requests s (nd_sync_tickets s) chats)
  else
    ((start_dial o io peer dial s).1,
     with_dials s (nd_shell_next s) (nd_sync_dials s) (push_dial peer (message, reply) (nd_chat_dials s))
       (nd_file_dials s)).

Definition on_send_file o io (peer : PeerId) (dial : option Multiaddr) (ticket_id : string)
    (file_path : PathBuf) certificate session_signer (reply : Sender) (s : NodeState)
    : list NodeEffect * NodeState :=
  match enqueue_json io peer "FILE_SEND" (json_to_string (mkFileSend ticket_id file_path)) (nd_engine s) with
  | (None, en) => ([ReplyError reply file_not_stored], with_engine s en)
  | (Some i, en) =>
      let s := with_engine s en in
      let pending := mkPendingFile ticket_id file_path reply (Some i) certificate session_signer in
      if li_connected io peer then ([SpawnFile peer pending], s)
      else ((start_dial o io peer dial s).1,
            with_dials s (nd_shell_next s) (nd_sync_dials s) (nd_chat_dials s)
              (push_dial peer pending (nd_file_dials s)))
  end.

Definition shell_disabled : string :=
  "legacy shell/2.0 is disabled; use the canonical shell/next handshake through the service IPC".

Definition on_command o io (cmd : P2pCommand) (s : NodeState) : list NodeEffect * NodeState :=
  match cmd with
  | ListPeers reply => on_list_peers io reply s
  | OpenShellStream _ _ _ reply => ([ReplyError reply shell_disabled], s)
  | OpenShellNext peer dial pending => on_open_shell_next o io peer dial pending s
  | SyncTickets peer dial request reply => on_sync_tickets o io peer dial request reply s
  | SendChatMessage peer dial message reply => on_send_chat o io peer dial message reply s
  | SendFile peer dial t p certificate signer reply => on_send_file o io peer dial t p certificate signer reply s
  end.

(** ** Connections *)

(** The records of one kind in the outbox of a peer. When the outbox cannot be listed
    there is a warning, and nothing is done. *)
Definition outbox_of_kind (lio : list_io) en (peer : PeerId) (kind : string) : list OutboxRecord :=
  match list_outbox_for_peer lio en (peer_id_to_string peer) with
  | Ok records => filter (λ record, ob_kind record = kind) records
  | Err _ => []
  end.

(** The records that do not decode are removed, as far as they can be. *)
Fixpoint drop_invalid {T} `{Json T} (removals : nat → remove_answer) (l : list OutboxRecord) en
    : TicketEngine St :=
  match l with
  | [] => en
  | record :: l =>
      match json_from_str (T := T) (ob_payload record) with
      | Some _ => drop_invalid (T := T) removals l en
      | None => drop_invalid (T := T) (λ k, removals (S k)) l (remove_outbox (removals 0%nat) (ob_id record) en).2
      end
  end.

(** The requests of the outbox, with a channel nobody listens to. *)
Definition retried_tickets io (l : list OutboxRecord) : list PendingSyncDial :=
  omap (λ '(k, record),
    request ← json_from_str (ob_payload record);
    Some (request, mkPendingSync (li_orphan io k) (Some (ob_id record))))
    (imap pair l).

(** The files of the outbox, without the certificate that went with the command. *)
Definition retried_files io (first : nat) (active : list string) (l : list OutboxRecord)
    : list PendingFileDial :=
  omap (λ '(k, record),
    payload ← json_from_str (ob_payload record);
    Some (mkPendingFile (fs_ticket_id payload) (fs_file_path payload) (li_orphan io (first + k))
      (Some (ob_id record)) None None))
    (imap pair (filter (λ record, ob_id record ∉ active) l)).

(** [TicketEngine::list_pending_messages_for_peer]. *)
Definition list_pending_messages_for_peer en (local_peer_id remote_peer_id : string) : list ChatMessage := [].

Definition chat_retry (message : ChatMessage) : ChatMessageWire :=
  mkChatWire (cm_id message) (cm_ticket_id message) (cm_body message) (cm_created_at message) None.

Definition on_established o io (peer : PeerId) (addr : Multiaddr) (is_dialer : bool) (s : NodeState)
    : list NodeEffect * NodeState :=
  let en := nd_engine s in
  let shells := taken peer (nd_shell_next s) in
  let ticket_outbox := outbox_of_kind (li_ticket_list io) en peer "TICKET_SYNC" in
  let '(tickets, sync_tickets) :=
    send_tickets io peer (taken peer (nd_sync_dials s) ++ retried_tickets io ticket_outbox)%list
      (nd_sync_tickets s) in
  let en := drop_invalid (T := TicketSyncRequest) (li_remove io) ticket_outbox en in
  let pending_messages :=
    list_pending_messages_for_peer en (ni_peer_id (no_local_info o)) (peer_id_to_string peer) in
  let '(chats, chat_messages) :=
    send_chats io peer
      (taken peer (nd_chat_dials s) ++
       imap (λ k m, (chat_retry m, li_orphan io (length ticket_outbox + k))) pending_messages)%list
      (nd_chat_messages s) in
  let files := taken peer (nd_file_dials s) in
  let file_outbox := outbox_of_kind (li_file_list io) en peer "FILE_SEND" in
  let active := omap pd_outbox_id files in
  let retried := retried_files io (length ticket_outbox + length pending_messages) active file_outbox in
  let en := drop_invalid (T := FileSendOutboxPayload) (λ k, li_remove io (length ticket_outbox + k)%nat)
    (filter (λ record, ob_id record ∉ active) file_outbox) en in
  ((spawn_shell o peer <$> shells) ++ tickets ++ chats ++ (SpawnFile peer <$> files ++ retried) ++
     (if is_dialer then [SendHello peer (no_local_info o)] else []),
   mkNode en (record_connection (nd_registry s) (li_now io) peer addr) (nd_rendezvous_nodes s)
     sync_tickets chat_messages (delete peer (nd_shell_next s)) (delete peer (nd_sync_dials s))
     (delete peer (nd_chat_dials s)) (delete peer (nd_file_dials s)) (nd_file_slots s)
     (nd_active_shells s) (nd_shell_tasks s))%list.

Definition connection_failed (error : string) : string :=
  "Impossible d'établir la connexion avec le poste distant: " +:+ error.

Definition on_outgoing_error io (peer : option PeerId) (error : string) (s : NodeState)
    : list NodeEffect * NodeState :=
  match peer with
  | None => ([], s)
  | Some peer =>
      if li_connected io peer then ([], s) else
      let fail to := ReplyError to (connection_failed error) in
      (((λ p, fail (pn_reply p)) <$> taken peer (nd_shell_next s)) ++
       ((λ p, fail (ps_reply p.2)) <$> taken peer (nd_sync_dials s)) ++
       ((λ p, fail p.2) <$> taken peer (nd_chat_dials s)) ++
       ((λ p, fail (pd_reply p)) <$> taken peer (nd_file_dials s)),
       with_dials s (delete peer (nd_shell_next s)) (delete peer (nd_sync_dials s))
         (delete peer (nd_chat_dials s)) (delete peer (nd_file_dials s)))%list
  end.

(** ** Rendezvous and identify *)

(** The loop over the registrations of [Discovered]; [target_peer] is given by the caller. *)
Definition on_registration o io (target_peer : option PeerId)
    (state : list NodeEffect * gmap PeerId DiscoveredPeer) (registration : PeerId * list Multiaddr)
    : list NodeEffect * gmap PeerId DiscoveredPeer :=
  let '(effects, registry) := state in
  let '(peer, addresses) := registration in
  if bool_decide (peer = no_local_peer o) then (effects, registry) else
  let registry := record_rendezvous registry (li_now io) peer addresses in
  if bool_decide (Some peer = target_peer) then
    (effects ++ ((λ a, Dial (push_peer peer a)) <$> addresses), registry)%list
  else if negb (li_connected io peer) then
    (effects ++ (dial_peer_candidates o io peer registry).1, registry)%list
  else (effects, registry).

Definition handle_rendezvous_client o io (target_peer : option PeerId)
    (registrations : list (PeerId * list Multiaddr)) (s : NodeState) : list NodeEffect * NodeState :=
  let '(effects, registry) :=
    foldl (on_registration o io target_peer) ([], nd_registry s) registrations in
  (effects, with_registry s registry).

Definition on_identify o io (peer : PeerId) (protocol_version : string) (listen_addrs : list Multiaddr)
    (observed_addr : Multiaddr) (is_loopback : bool) (protocols : list string) (s : NodeState)
    : list NodeEffect * NodeState :=
  let s := with_registry s
    (record_identify (nd_registry s) (li_now io) peer protocol_version listen_addrs) in
  let external :=
    if negb is_loopback && bool_decide (no_relay_peer o = None) then [AddExternalAddress observed_addr] else [] in
  if existsb (λ protocol, bool_decide (protocol = "/rendezvous/1.0.0")) protocols then
    (external ++ [RegisterAt peer; DiscoverAt peer], with_rendezvous s ({[peer]} ∪ nd_rendezvous_nodes s))%list
  else (external, s).

Definition on_discovery_tick io (s : NodeState) : list NodeEffect :=
  concat ((λ node, [RegisterAt node; DiscoverAt node]) <$>
    filter (λ node, li_connected io node = true) (elements (nd_rendezvous_nodes s))).

Definition on_new_listen_addr (address : Multiaddr) (s : NodeState) : list NodeEffect :=
  if has_circuit address then AddExternalAddress address :: register_all s else [].

(** ** The loop *)

Inductive LoopEvent :=
| LeCommand (cmd : P2pCommand)
| LeIncomingShell (peer : PeerId) (io : shell_io) (w : writer)
| LeIncomingFile (peer : PeerId)
| LeFileEnded                      (** a receiving task drops its permit *)
| LeDiscoveryTick
| LeNewListenAddr (address : Multiaddr)
| LeConnectionEstablished (peer : PeerId) (addr : Multiaddr) (is_dialer : bool)
| LeConnectionClosed (peer : PeerId) (num_established : N)
| LeHello (event : HelloEvent)
| LeTicketV2 (io : node_io) (event : InboundEvent TicketSyncRequest TicketSyncResponse PeerId)
| LeChat (io : node_io) (event : InboundEvent ChatMessageWire ChatAckWire PeerId)
| LeDiscovered (registrations : list (PeerId * list Multiaddr))
| LeReservationAccepted
| LeIdentifyReceived (peer : PeerId) (protocol_version : string) (listen_addrs : list Multiaddr)
    (observed_addr : Multiaddr) (is_loopback : bool) (protocols : list string)
| LeOutgoingConnectionError (peer : option PeerId) (error : string)
| LeOther.

Definition event_loop_turn (o : node_options) (io : loop_io) (event : LoopEvent) (s : NodeState)
    : list NodeEffect * NodeState :=
  let local := ni_peer_id (no_local_info o) in
  match event with
  | LeCommand cmd => on_command o io cmd s
  | LeIncomingShell peer sio w =>
      let '(w, host) := handle_incoming_shell_next (no_local_info o) (no_authority o) peer sio w
        (mkShellHost (nd_engine s) (nd_active_shells s) (nd_shell_tasks s)) in
      ([ShellAnswered w], with_host s host)
  | LeIncomingFile peer =>
      match nd_file_slots s with
      | O => ([SpawnReceive peer false], s)
      | S n => ([SpawnReceive peer true], with_slots s n)
      end
  | LeFileEnded => ([], with_slots s (S (nd_file_slots s)))
  | LeDiscoveryTick => (on_discovery_tick io s, s)
  | LeNewListenAddr address => (on_new_listen_addr address s, s)
  | LeConnectionEstablished peer addr is_dialer => on_established o io peer addr is_dialer s
  | LeConnectionClosed peer n =>
      ([], with_registry s (record_disconnection (nd_registry s) (li_now io) peer n))
  | LeHello event =>
      let '(answer, registry) := handle_hello (no_local_info o) (li_now io) event (nd_registry s) in
      (match answer with Some (channel, info) => [AnswerHello channel info] | None => [] end,
       with_registry s registry)
  | LeTicketV2 nio event =>
      let '(effects, t) := handle_ticket_v2 local (no_authority o) nio event
        (mkTicketNode (nd_engine s) (nd_sync_tickets s)) in
      (TicketEffect <$> effects, with_requests (with_engine s (tn_engine t)) (tn_pending t) (nd_chat_messages s))
  | LeChat nio event =>
      let '(effects, t) := handle_chat local (no_authority o) nio event
        (mkChatNode (nd_engine s) (nd_chat_messages s)) in
      (ChatEffect <$> effects, with_requests (with_engine s (cn_engine t)) (nd_sync_tickets s) (cn_pending t))
  | LeDiscovered registrations => handle_rendezvous_client o io None registrations s
  | LeReservationAccepted => (register_all s, s)
  | LeIdentifyReceived peer version addrs observed loopback protocols =>
      on_identify o io peer version addrs observed loopback protocols s
  | LeOutgoingConnectionError peer error => on_outgoing_error io peer error s
  | LeOther => ([], s)
  end.
End node.
Arguments NodeState {_} St.

(** ** Callers *)

(** The senders held by a table. *)
Definition senders `{Countable K} {A} (f : A → list Sender) (m : gmap K A) : list Sender :=
  (map_to_list m).*2 ≫= f.

Section senders.
Context `{Countable K} {A : Type}.
Implicit Types (f : A → list Sender) (m : gmap K A).

Lemma senders_insert f m i x : m !! i = None → senders f (<[i := x]> m) ≡ₚ f x ++ senders f m.
Proof. intros Hi. unfold senders. by rewrite map_to_list_insert. Qed.

Lemma senders_delete f m i x : m !! i = Some x → senders f m ≡ₚ f x ++ senders f (delete i m).
Proof. intros Hi. unfold senders. by rewrite <- (map_to_list_delete m i x Hi). Qed.

End senders.

Section queues.
Context `{Countable K} {A : Type}.

Lemma senders_taken (g : A → Sender) (m : gmap K (list A)) k :
  senders (fmap g) m ≡ₚ (g <$> taken k m) ++ senders (fmap g) (delete k m).
Proof.
  unfold taken. destruct (m !! k) as [l|] eqn:Hk; simpl.
  - by apply (senders_delete (fmap g)).
  - by rewrite delete_id.
Qed.

Lemma senders_push (g : A → Sender) (m : gmap K (list A)) k x :
  senders (fmap g) (push_dial k x m) ≡ₚ g x :: senders (fmap g) m.
Proof.
  rewrite (senders_taken g (push_dial k x m) k), (senders_taken g m k). unfold push_dial.
  rewrite delete_insert_eq. unfold taken at 1. rewrite lookup_insert_eq. simpl. rewrite fmap_app, <- app_assoc.
  symmetry. apply Permutation_middle.
Qed.

Lemma taken_push (m : gmap K (list A)) k x : taken k (push_dial k x m) = (taken k m ++ [x])%list.
Proof. unfold taken, push_dial. by rewrite lookup_insert_eq. Qed.

End queues.

(** Requests sent under ids that nothing waits for. *)
Lemma senders_foldl `{Countable K} {A} (f : A → list Sender) : ∀ (l : list (K * A)) m,
  NoDup l.*1 → (∀ i, i ∈ l.*1 → m !! i = None) →
  senders f (foldl (λ m r, <[r.1 := r.2]> m) m l) ≡ₚ (l.*2 ≫= f) ++ senders f m.
Proof.
  induction l as [|[i x] l IH]; intros m Hd Hm; [done|]. simpl in *. apply NoDup_cons in Hd as [Hi Hd].
  rewrite IH; [|done|].
  - rewrite senders_insert by (apply Hm; left). rewrite !app_assoc. f_equiv. apply Permutation_app_comm.
  - intros j Hj. rewrite lookup_insert_ne by (intros ->; done). apply Hm. by right.
Qed.
Lemma foldl_insert_other `{Countable K} {A} (l : list (K * A)) : ∀ (m : gmap K A) j,
  j ∉ l.*1 → foldl (λ m r, <[r.1 := r.2]> m) m l !! j = m !! j.
Proof.
  induction l as [|[i x] l IH]; intros m j Hj; [done|]. simpl in *.
  rewrite IH by set_solver. apply lookup_insert_ne. set_solver.
Qed.

Lemma foldl_insert_lookup `{Countable K} {A} (l : list (K * A)) : ∀ (m : gmap K A) i x,
  NoDup l.*1 → (i, x) ∈ l → foldl (λ m r, <[r.1 := r.2]> m) m l !! i = Some x.
Proof.
  induction l as [|[j y] l IH]; intros m i x Hd Hin; [by apply elem_of_nil in Hin|].
  simpl in *. apply NoDup_cons in Hd as [Hj Hd]. apply elem_of_cons in Hin as [[= -> ->]|Hin].
  - rewrite foldl_insert_other by done. apply lookup_insert_eq.
  - by apply IH.
Qed.

(** Permutations of senders, by counting each of them. *)
Ltac count_senders :=
  apply (Permutation_count_occ N.eq_dec); intros ?to;
  repeat match goal with
  | H : _ ≡ₚ _ |- _ => apply (Permutation_count_occ N.eq_dec) with (x := to) in H
  end;
  rewrite ?count_occ_app in *; simpl in *; rewrite ?count_occ_app in *; simpl in *;
  repeat case_match; lia.

Section node_properties.
Context `{CC : Crypto, CL : !CryptoLaws, HX : Hex, BC : BodyCodec, BL : !BodyCodecLaws, OC : ObjectCodec}.
Context `{OB : OutboxCodec, OBL : !OutboxCodecLaws, LP : Libp2p, LL : !Libp2pLaws}.
Context `{CB : Cbor OperatorSessionCertificate, ET : ErrorText}.
Context `{JI : Json NodeInfo, JT : Json TicketSyncRequest, JTL : !JsonLaws TicketSyncRequest}.
Context `{JP : Json FileSendOutboxPayload, JPL : !JsonLaws FileSendOutboxPayload}.
Context `{JS : Json ShellNextHandshake}.
Context {St : Type} `{OS : !ObjectStore St, OL : !ObjectStoreLaws St}.
Implicit Types (en : TicketEngine St) (s : NodeState St) (o : node_options) (io : loop_io).

(** The callers that a state still owes an answer. *)
Definition waiting_callers s : list Sender :=
  (senders (λ p, [ps_reply p]) (nd_sync_tickets s) ++ senders (λ to, [to]) (nd_chat_messages s) ++
   senders (fmap pn_reply) (nd_shell_next s) ++ senders (fmap (λ p : PendingSyncDial, ps_reply p.2)) (nd_sync_dials s) ++
   senders (fmap snd) (nd_chat_dials s) ++ senders (fmap pd_reply) (nd_file_dials s))%list.

(** The callers that a turn answers or hands to a task, which answers them. *)
Definition handled (e : NodeEffect) : list Sender :=
  match e with
  | TicketEffect (Reply to _) | ChatEffect (Reply to _) | ReplyPeers to _ | ReplyError to _ => [to]
  | SpawnShell _ _ p => [pn_reply p]
  | SpawnFile _ p => [pd_reply p]
  | _ => []
  end.

(** The callers that an event brings, and the channels the loop makes for retries. *)
Definition new_callers io (event : LoopEvent) s : list Sender :=
  match event with
  | LeCommand (ListPeers to) | LeCommand (OpenShellStream _ _ _ to) | LeCommand (SyncTickets _ _ _ to)
  | LeCommand (SendChatMessage _ _ _ to) | LeCommand (SendFile _ _ _ _ _ _ to) => [to]
  | LeCommand (OpenShellNext _ _ p) => [pn_reply p]
  | LeConnectionEstablished peer _ _ =>
      let tickets := outbox_of_kind (li_ticket_list io) (nd_engine s) peer "TICKET_SYNC" in
      let en := drop_invalid (T := TicketSyncRequest) (li_remove io) tickets (nd_engine s) in
      ((λ r, ps_reply r.2) <$> retried_tickets io tickets) ++
      (pd_reply <$> retried_files io (length tickets + 0) (omap pd_outbox_id (taken peer (nd_file_dials s)))
         (outbox_of_kind (li_file_list io) en peer "FILE_SEND"))
  | _ => []
  end%list.

(** Request ids are new. *)
Record fresh_ids io s : Prop := {
  fi_inj : Inj (=) (=) (li_request_id io);
  fi_tickets k : nd_sync_tickets s !! li_request_id io k = None;
  fi_chats k : nd_chat_messages s !! li_request_id io k = None
}.

Lemma NoDup_ids {B C} io (g : B → C) (l : list B) :
  Inj (=) (=) (li_request_id io) → NoDup (imap (λ k r, (li_request_id io k, g r)) l).*1.
Proof.
  intros Hinj. rewrite fmap_imap. change (NoDup (imap (λ k _, li_request_id io k) l)).
  rewrite imap_seq_0. by apply NoDup_fmap_2, NoDup_seq.
Qed.

Lemma bind_handled_map {B} (g : B → NodeEffect) (h : B → list Sender) l :
  (∀ x, handled (g x) = h x) → (g <$> l) ≫= handled = l ≫= h.
Proof. intros Hg. induction l as [|x l IH]; [done|]. csimpl. by rewrite Hg, IH. Qed.

Lemma bind_singleton {B C} (g : B → C) l : l ≫= (λ x, [g x]) = g <$> l.
Proof. induction l as [|x l IH]; [done|]. csimpl. by rewrite IH. Qed.

Lemma bind_silent {B} (g : nat → B → NodeEffect) l :
  (∀ k x, handled (g k x) = []) → imap g l ≫= handled = [].
Proof.
  revert g. induction l as [|x l IH]; intros g Hg; [done|]. csimpl. rewrite Hg. simpl. apply IH. naive_solver.
Qed.

Lemma dial_candidates_silent o io peer registry :
  (dial_peer_candidates o io peer registry).1 ≫= handled = [].
Proof. unfold dial_peer_candidates. by destruct (dial_candidates _ _ _). Qed.

Lemma dial_silent o io peer dial s : (start_dial o io peer dial s).1 ≫= handled = [].
Proof. destruct dial; [done|]. apply dial_candidates_silent. Qed.

(** Requests sent: nobody is answered, and those who sent them now wait. *)
Lemma send_tickets_spec io peer l m :
  Inj (=) (=) (li_request_id io) → (∀ k, m !! li_request_id io k = None) →
  (send_tickets io peer l m).1 ≫= handled = [] ∧
  senders (λ p, [ps_reply p]) (send_tickets io peer l m).2 ≡ₚ
    ((λ r, ps_reply r.2) <$> l) ++ senders (λ p, [ps_reply p]) m.
Proof.
  intros Hi Hm. split; [by apply bind_silent|]. simpl. rewrite senders_foldl.
  - rewrite fmap_imap, bind_singleton.
    change (imap (λ n, snd ∘ _) l) with (imap (const (λ r : PendingSyncDial, r.2)) l).
    by rewrite imap_const, <- list_fmap_compose.
  - by apply NoDup_ids.
  - intros i. rewrite fmap_imap. intros (k & x & -> & _)%elem_of_lookup_imap. apply Hm.
Qed.

Lemma send_chats_spec io peer l m :
  Inj (=) (=) (li_request_id io) → (∀ k, m !! li_request_id io k = None) →
  (send_chats io peer l m).1 ≫= handled = [] ∧
  senders (λ to, [to]) (send_chats io peer l m).2 ≡ₚ l.*2 ++ senders (λ to, [to]) m.
Proof.
  intros Hi Hm. split; [by apply bind_silent|]. simpl. rewrite senders_foldl.
  - rewrite fmap_imap, bind_singleton.
    change (imap (λ n, snd ∘ _) l) with (imap (const (λ r : PendingChatDial, r.2)) l).
    by rewrite imap_const, list_fmap_id.
  - by apply NoDup_ids.
  - intros i. rewrite fmap_imap. intros (k & x & -> & _)%elem_of_lookup_imap. apply Hm.
Qed.

(** Nobody is lost and nobody is answered twice: those handled and those still waiting are
    together those who waited and those who came. *)
Definition accounted (new : list Sender) s (turn : list NodeEffect * NodeState St) : Prop :=
  (turn.1 ≫= handled) ++ waiting_callers turn.2 ≡ₚ waiting_callers s ++ new.

Lemma forward_sync_accounted o io peer dial r s :
  fresh_ids io s → accounted [ps_reply r.2] s (forward_sync o io peer dial r s).
Proof.
  intros [Hi Ht _]. unfold forward_sync, accounted, waiting_callers. destruct (li_connected io peer).
  - destruct (send_tickets_spec io peer [r] _ Hi Ht) as [He Hs].
    unfold send_tickets in *. simpl in *. count_senders.
  - simpl. rewrite dial_silent.
    pose proof (senders_push (λ p : PendingSyncDial, ps_reply p.2) (nd_sync_dials s) peer r). count_senders.
Qed.

Lemma send_chat_accounted o io peer dial message reply s :
  fresh_ids io s → accounted [reply] s (on_send_chat o io peer dial message reply s).
Proof.
  intros [Hi _ Hc]. unfold on_send_chat, accounted, waiting_callers. destruct (li_connected io peer).
  - destruct (send_chats_spec io peer [(message, reply)] _ Hi Hc) as [He Hs].
    unfold send_chats in *. simpl in *. count_senders.
  - simpl. rewrite dial_silent.
    pose proof (senders_push snd (nd_chat_dials s) peer (message, reply)). count_senders.
Qed.

Lemma sync_tickets_accounted o io peer dial request reply s :
  fresh_ids io s → accounted [reply] s (on_sync_tickets o io peer dial request reply s).
Proof.
  intros Hf. unfold on_sync_tickets. destruct (is_ticket_mutation request).
  - destruct (enqueue_json _ _ _ _ _) as [[i|] en].
    + apply (forward_sync_accounted o io peer dial (request, mkPendingSync reply (Some i)) (with_engine s en)).
      by destruct Hf.
    + unfold accounted, waiting_callers. simpl. count_senders.
  - by apply (forward_sync_accounted o io peer dial (request, mkPendingSync reply None)).
Qed.

Lemma send_file_accounted o io peer dial t p certificate signer reply s :
  accounted [reply] s (on_send_file o io peer dial t p certificate signer reply s).
Proof.
  unfold on_send_file, accounted, waiting_callers.
  destruct (enqueue_json _ _ _ _ _) as [[i|] en]; [|simpl; count_senders].
  destruct (li_connected io peer); simpl; [count_senders|]. rewrite dial_silent.
  pose proof (senders_push pd_reply (nd_file_dials s) peer (mkPendingFile t p reply (Some i) certificate signer)).
  count_senders.
Qed.

Lemma open_shell_accounted o io peer dial p s :
  parse_peer_id (ni_peer_id (no_local_info o)) = Some (no_local_peer o) →
  accounted [pn_reply p] s (on_open_shell_next o io peer dial p s).
Proof.
  intros Hl. unfold on_open_shell_next, accounted, waiting_callers, spawn_shell. rewrite Hl.
  destruct (li_connected io peer); simpl; [count_senders|].
  pose proof (senders_push pn_reply (nd_shell_next s) peer p) as Hp.
  pose proof (dial_silent o io peer dial s) as Hd.
  destruct (start_dial o io peer dial s) as [effects [|]]; simpl in *.
  - rewrite Hd. count_senders.
  - rewrite bind_app, Hd, (bind_handled_map _ (λ p, [pn_reply p])), bind_singleton by done.
    pose proof (senders_taken pn_reply (push_dial peer p (nd_shell_next s)) peer) as Ht.
    count_senders.
Qed.

Lemma list_peers_accounted io reply s : accounted [reply] s (on_list_peers io reply s).
Proof.
  unfold accounted, on_list_peers. simpl. rewrite bind_app.
  rewrite (bind_handled_map DiscoverAt (λ _, [])) by done. simpl.
  assert (∀ l : list PeerId, l ≫= (λ _, []) = ([] : list Sender)) as -> by (induction l; done).
  count_senders.
Qed.

Lemma outgoing_error_accounted io peer error s : accounted [] s (on_outgoing_error io peer error s).
Proof.
  unfold on_outgoing_error, accounted. destruct peer as [peer|]; [|simpl; by rewrite app_nil_r].
  destruct (li_connected io peer); [simpl; by rewrite app_nil_r|]. unfold waiting_callers. simpl.
  rewrite !bind_app, (bind_handled_map _ (λ p, [pn_reply p])), (bind_handled_map _ (λ p : PendingSyncDial, [ps_reply p.2])),
    (bind_handled_map _ (λ p : PendingChatDial, [p.2])), (bind_handled_map _ (λ p, [pd_reply p])), !bind_singleton by done.
  pose proof (senders_taken pn_reply (nd_shell_next s) peer).
  pose proof (senders_taken (λ p : PendingSyncDial, ps_reply p.2) (nd_sync_dials s) peer).
  pose proof (senders_taken snd (nd_chat_dials s) peer).
  pose proof (senders_taken pd_reply (nd_file_dials s) peer). count_senders.
Qed.

Lemma ticket_turn_accounted local authority nio event en m :
  let '(effects, t) := handle_ticket_v2 local authority nio event (mkTicketNode en m) in
  ((TicketEffect <$> effects) ≫= handled) ++ senders (λ p, [ps_reply p]) (tn_pending t) ≡ₚ
    senders (λ p, [ps_reply p]) m.
Proof.
  destruct event as [peer request channel|i response|i error|]; simpl; [| | |done].
  - by destruct (handle_ticket_request _ _ _ _ _ _).
  - destruct (m !! i) as [p|] eqn:Hp; [|done]. simpl. symmetry. by apply (senders_delete (λ p, [ps_reply p])).
  - destruct (m !! i) as [p|] eqn:Hp; [|done]. simpl. symmetry. by apply (senders_delete (λ p, [ps_reply p])).
Qed.

Lemma chat_turn_accounted local authority nio event en m :
  let '(effects, t) := handle_chat local authority nio event (mkChatNode en m) in
  ((ChatEffect <$> effects) ≫= handled) ++ senders (λ to, [to]) (cn_pending t) ≡ₚ senders (λ to, [to]) m.
Proof.
  destruct event as [peer request channel|i response|i error|]; simpl; [| | |done].
  - by destruct (handle_chat_request _ _ _ _ _ _).
  - destruct (m !! i) as [p|] eqn:Hp; [|done]. simpl. symmetry. by apply (senders_delete (λ to, [to])).
  - destruct (m !! i) as [p|] eqn:Hp; [|done]. simpl. symmetry. by apply (senders_delete (λ to, [to])).
Qed.

Lemma established_accounted o io peer addr is_dialer s :
  parse_peer_id (ni_peer_id (no_local_info o)) = Some (no_local_peer o) → fresh_ids io s →
  accounted (new_callers io (LeConnectionEstablished peer addr is_dialer) s) s
    (on_established o io peer addr is_dialer s).
Proof.
  intros Hl [Hi Ht Hc]. unfold on_established, accounted, waiting_callers, new_callers.
  set (tickets := outbox_of_kind (li_ticket_list io) (nd_engine s) peer "TICKET_SYNC").
  set (en := drop_invalid (li_remove io) tickets (nd_engine s)). cbn [list_pending_messages_for_peer imap length].
  destruct (send_tickets_spec io peer (taken peer (nd_sync_dials s) ++ retried_tickets io tickets)%list _ Hi Ht)
    as [He1 Hs1].
  destruct (send_chats_spec io peer (taken peer (nd_chat_dials s) ++ [])%list _ Hi Hc) as [He2 Hs2].
  destruct (send_tickets _ _ _ _) as [e1 m1]. destruct (send_chats _ _ _ _) as [e2 m2].
  cbn [fst snd nd_sync_tickets nd_chat_messages nd_shell_next nd_sync_dials nd_chat_dials nd_file_dials] in *.
  rewrite !bind_app, He1, He2. unfold spawn_shell. rewrite Hl.
  rewrite (bind_handled_map _ (λ p, [pn_reply p])), (bind_handled_map (SpawnFile peer) (λ p, [pd_reply p])),
    !bind_singleton, fmap_app by done.
  assert ((if is_dialer then [SendHello peer (no_local_info o)] else []) ≫= handled = []) as ->
    by (by destruct is_dialer).
  rewrite fmap_app in Hs1. rewrite fmap_app in Hs2.
  pose proof (senders_taken pn_reply (nd_shell_next s) peer).
  pose proof (senders_taken (λ p : PendingSyncDial, ps_reply p.2) (nd_sync_dials s) peer).
  pose proof (senders_taken snd (nd_chat_dials s) peer).
  pose proof (senders_taken pd_reply (nd_file_dials s) peer). count_senders.
Qed.

Lemma quiet_accounted s effects s' :
  effects ≫= handled = [] → waiting_callers s' = waiting_callers s → accounted [] s (effects, s').
Proof. intros He Hs. unfold accounted. simpl. by rewrite He, Hs, app_nil_r. Qed.

Lemma silent_map {B} (g : B → NodeEffect) l : (∀ x, handled (g x) = []) → (g <$> l) ≫= handled = [].
Proof. intros Hg. induction l as [|x l IH]; [done|]. csimpl. by rewrite Hg, IH. Qed.

Lemma registration_silent o io target regs : ∀ effects registry,
  effects ≫= handled = [] →
  (foldl (on_registration o io target) (effects, registry) regs).1 ≫= handled = [].
Proof.
  induction regs as [|[peer addresses] regs IH]; intros effects registry He; [done|]. simpl.
  destruct (bool_decide (peer = _)); [by apply IH|].
  destruct (bool_decide (Some peer = target)); [|destruct (li_connected io peer)]; simpl; apply IH; [|done|].
  - by rewrite bind_app, He, silent_map.
  - rewrite bind_app, He. apply dial_candidates_silent.
Qed.

(** Every caller is answered exactly once, or still waits. In any turn of the loop,
    whatever the command, the request, the answer or the failure, the callers answered
    or handed to a task that answers them, together with those who still wait, are
    exactly those who waited and those the event brought, the channels of the retries
    included. *)
Theorem callers_accounted o io event s :
  parse_peer_id (ni_peer_id (no_local_info o)) = Some (no_local_peer o) → fresh_ids io s →
  let '(effects, s') := event_loop_turn o io event s in
  (effects ≫= handled) ++ waiting_callers s' ≡ₚ waiting_callers s ++ new_callers io event s.
Proof.
  intros Hl Hf. assert (accounted (new_callers io event s) s (event_loop_turn o io event s)) as H;
    [|by destruct (event_loop_turn o io event s)].
  destruct event as [cmd|peer sio w|peer| | |addr|peer addr d|peer n|ev|nio ev|nio ev|regs| |peer v l ob lo pr|peer e|];
    simpl.
  - destruct cmd; simpl; [apply list_peers_accounted| |by apply open_shell_accounted
      |by apply sync_tickets_accounted|by apply send_chat_accounted|by apply send_file_accounted].
    unfold accounted. simpl. apply Permutation_cons_append.
  - destruct (handle_incoming_shell_next _ _ _ _ _ _). by apply quiet_accounted.
  - destruct (nd_file_slots s); by apply quiet_accounted.
  - by apply quiet_accounted.
  - apply quiet_accounted; [|done]. unfold on_discovery_tick. induction (filter _ _); done.
  - apply quiet_accounted; [|done]. unfold on_new_listen_addr. destruct (has_circuit addr); [|done].
    by apply silent_map.
  - by apply established_accounted.
  - by apply quiet_accounted.
  - destruct (handle_hello _ _ _ _) as [[[]|] ?]; by apply quiet_accounted.
  - pose proof (ticket_turn_accounted (ni_peer_id (no_local_info o)) (no_authority o) nio ev (nd_engine s)
      (nd_sync_tickets s)) as H. destruct (handle_ticket_v2 _ _ _ _ _).
    unfold accounted, waiting_callers. simpl. count_senders.
  - pose proof (chat_turn_accounted (ni_peer_id (no_local_info o)) (no_authority o) nio ev (nd_engine s)
      (nd_chat_messages s)) as H. destruct (handle_chat _ _ _ _ _).
    unfold accounted, waiting_callers. simpl. count_senders.
  - unfold handle_rendezvous_client. pose proof (registration_silent o io None regs [] (nd_registry s) eq_refl).
    destruct (foldl _ _ _). by apply quiet_accounted.
  - apply quiet_accounted; [by apply silent_map|done].
  - unfold on_identify. destruct (negb lo && _), (existsb _ _); by apply quiet_accounted.
  - apply outgoing_error_accounted.
  - by apply quiet_accounted.
Qed.

(** A peer that is not connected and has no known address is never reached, and only
    the callers that want a shell are told: theirs and every request queued before it
    are answered at once. A chat message, a ticket request and a file are queued, and
    nothing is answered, dialled or sent. *)
Theorem unreachable_callers o io peer s :
  li_connected io peer = false → dial_candidates peer (nd_registry s) (no_relay_peer o) = [] →
  (∀ p, let '(effects, s') := event_loop_turn o io (LeCommand (OpenShellNext peer None p)) s in
    effects = (λ p, ReplyError (pn_reply p) no_address) <$> (taken peer (nd_shell_next s) ++ [p])%list ∧
    taken peer (nd_shell_next s') = []) ∧
  (∀ message to, let '(effects, s') := event_loop_turn o io (LeCommand (SendChatMessage peer None message to)) s in
    effects = [] ∧ taken peer (nd_chat_dials s') = (taken peer (nd_chat_dials s) ++ [(message, to)])%list) ∧
  (∀ request to, let '(effects, s') := event_loop_turn o io (LeCommand (SyncTickets peer None request to)) s in
    effects = [ReplyError to sync_not_stored] ∨
    effects = [] ∧ ∃ i, taken peer (nd_sync_dials s') =
      (taken peer (nd_sync_dials s) ++ [(request, mkPendingSync to i)])%list) ∧
  (∀ t path c k to, let '(effects, s') := event_loop_turn o io (LeCommand (SendFile peer None t path c k to)) s in
    effects = [ReplyError to file_not_stored] ∨
    effects = [] ∧ ∃ i, taken peer (nd_file_dials s') =
      (taken peer (nd_file_dials s) ++ [mkPendingFile t path to i c k])%list).
Proof.
  intros Hc Hd.
  assert (∀ s', nd_registry s' = nd_registry s → start_dial o io peer None s' = ([], false)) as Hs.
  { intros s' Hr. unfold start_dial, dial_peer_candidates. by rewrite Hr, Hd. }
  assert (∀ r s', nd_registry s' = nd_registry s → nd_sync_dials s' = nd_sync_dials s →
    (forward_sync o io peer None r s').1 = [] ∧
    taken peer (nd_sync_dials (forward_sync o io peer None r s').2) =
      (taken peer (nd_sync_dials s) ++ [r])%list) as Hf.
  { intros r s' Hr Hq. unfold forward_sync. rewrite Hc, Hs by done. simpl. by rewrite taken_push, Hq. }
  split; [|split; [|split]].
  - intros p. simpl. unfold on_open_shell_next. rewrite Hc, Hs by done. rewrite taken_push. split; [done|].
    unfold taken. simpl. by rewrite lookup_delete_eq.
  - intros message to. simpl. unfold on_send_chat. rewrite Hc, Hs by done. simpl. by rewrite taken_push.
  - intros request to. simpl. unfold on_sync_tickets. destruct (is_ticket_mutation request).
    + destruct (enqueue_json _ _ _ _ _) as [[i|] en]; [|by left].
      destruct (Hf (request, mkPendingSync to (Some i)) (with_engine s en) eq_refl eq_refl) as [? ?].
      destruct (forward_sync _ _ _ _ _ _). eauto.
    + destruct (Hf (request, mkPendingSync to None) s eq_refl eq_refl) as [? ?].
      destruct (forward_sync _ _ _ _ _ _). eauto.
  - intros t path c k to. simpl. unfold on_send_file.
    destruct (enqueue_json _ _ _ _ _) as [[i|] en]; [|by left].
    cbn [li_connected]. rewrite Hc, Hs by done. simpl. rewrite taken_push. eauto.
Qed.

(** ** The outbox *)

(** Every entry is in the file named after it. *)
Definition outbox_inv en : Prop :=
  ∀ name b r, en_outbox en !! name = Some b → path_extension name = Some "json" →
  decode_outbox b = Some r → name = outbox_name (ob_id r).

(** What a listing finds: the entries of the peer in the files it reaches. *)
Lemma elem_of_outbox lio en peer records r :
  list_outbox_for_peer lio en peer = Ok records →
  r ∈ records ↔
    ∃ name b, reads_file lio name ∧ en_outbox en !! name = Some b ∧ path_extension name = Some "json" ∧
      decode_outbox b = Some r ∧ ob_peer_id r = peer.
Proof.
  unfold list_outbox_for_peer, reads_file. destruct (lo_dir_exists lio); simpl.
  2:{ intros [= <-]. split; [by intros ?%elem_of_nil|]. intros (? & ? & (? & _) & _). done. }
  destruct (lo_read_dir lio) as [names|]; [|done]. intros [= <-].
  rewrite merge_sort_Permutation, list_elem_of_omap. unfold outbox_file_record. split.
  - intros (name & Hin & H). case_bool_decide as He; [|done].
    destruct (_ ≫= _) as [rec|] eqn:E; [|done]. case_bool_decide as Hp; [|done]. injection H as ->.
    apply bind_Some in E as (b & Hb & Hd). destruct (lo_readable lio name) eqn:Hr; [|done]. eauto 12.
  - intros (name & b & (_ & (n & [= <-] & Hin) & Hread) & Hb & He & Hd & Hp). exists name. split; [done|].
    by rewrite Hread, Hb, He; simpl; rewrite Hd, Hp, !bool_decide_eq_true_2.
Qed.

Lemma elem_of_kind lio en peer kind r :
  r ∈ outbox_of_kind lio en peer kind ↔
    ob_kind r = kind ∧
    ∃ name b, reads_file lio name ∧ en_outbox en !! name = Some b ∧ path_extension name = Some "json" ∧
      decode_outbox b = Some r ∧ ob_peer_id r = peer_id_to_string peer.
Proof.
  unfold outbox_of_kind. destruct (list_outbox_for_peer _ _ _) as [records|e] eqn:E.
  - rewrite list_elem_of_filter. by rewrite (elem_of_outbox _ _ _ _ _ E).
  - split; [by intros ?%elem_of_nil|]. intros (_ & name & b & (Hd & (names & Hn & _) & _) & _).
    unfold list_outbox_for_peer in E. by rewrite Hd, Hn in E.
Qed.

Lemma outbox_extension i : i ≠ "" → path_extension (outbox_name i) = Some "json".
Proof.
  intros Hi. unfold path_extension, outbox_name. rewrite as_from_bytes.
  change (as_bytes ".json") with (x2e :: as_bytes "json").
  rewrite split_last_dot_app by (apply (bool_decide_eq_false_1 (_ ∈ _)); reflexivity).
  destruct (as_bytes i) eqn:E; [|done]. destruct Hi. rewrite <- (from_as_bytes i), E. done.
Qed.

Lemma outbox_name_inj i j : outbox_name i = outbox_name j → i = j.
Proof.
  unfold outbox_name. intros H%(f_equal as_bytes). rewrite !as_from_bytes in H.
  by apply as_bytes_inj, (app_inv_tail (as_bytes ".json")).
Qed.

Lemma tmp_extension i : path_extension (outbox_tmp i) ≠ Some "json".
Proof.
  unfold path_extension, outbox_tmp. rewrite as_from_bytes.
  change (as_bytes ".tmp") with (x2e :: as_bytes "tmp").
  rewrite split_last_dot_app by (apply (bool_decide_eq_false_1 (_ ∈ _)); reflexivity).
  by destruct (as_bytes i).
Qed.

(** What a removal leaves: the other files, and the file itself when it is refused. *)
Lemma remove_outbox_other answer i en name :
  outbox_name i ≠ name → en_outbox (remove_outbox answer i en).2 !! name = en_outbox en !! name.
Proof.
  intros Hn. unfold remove_outbox. destruct (en_outbox en !! _); [|done]. destruct answer; simpl; try done.
  by apply lookup_delete_ne.
Qed.

Lemma remove_outbox_sub answer i en : en_outbox (remove_outbox answer i en).2 ⊆ en_outbox en.
Proof.
  unfold remove_outbox. destruct (en_outbox en !! _); [|done]. destruct answer; simpl; try done.
  apply delete_subseteq.
Qed.

(** What [drop_invalid] leaves. *)
Lemma drop_invalid_lookup {T} `{Json T} l : ∀ removals en name,
  (∀ r, r ∈ l → outbox_name (ob_id r) = name → is_Some (json_from_str (T := T) (ob_payload r))) →
  en_outbox (drop_invalid (T := T) removals l en) !! name = en_outbox en !! name.
Proof.
  induction l as [|r l IH]; intros removals en name Hl; [done|]. cbn [drop_invalid].
  destruct (json_from_str (ob_payload r)) eqn:E; rewrite IH by (intros r' Hr'; apply Hl; by right); [done|].
  apply remove_outbox_other. intros Hn. destruct (Hl r ltac:(left) Hn) as [? ?]. congruence.
Qed.

Lemma drop_invalid_sub {T} `{Json T} l : ∀ removals en,
  en_outbox (drop_invalid (T := T) removals l en) ⊆ en_outbox en.
Proof.
  induction l as [|r l IH]; intros removals en; [done|]. cbn [drop_invalid].
  destruct (json_from_str (ob_payload r)); [apply IH|]. etrans; [apply IH|]. apply remove_outbox_sub.
Qed.

(** Retries: every valid record is among them. *)
Lemma retried_ticket io l record request :
  record ∈ l → json_from_str (ob_payload record) = Some request →
  ∃ k, (request, mkPendingSync (li_orphan io k) (Some (ob_id record))) ∈ retried_tickets io l.
Proof.
  intros [k Hk]%list_elem_of_lookup Hj. exists k. unfold retried_tickets. apply list_elem_of_omap.
  exists (k, record). split.
  - apply elem_of_lookup_imap. eauto.
  - simpl. by rewrite Hj.
Qed.

Lemma send_tickets_lookup io peer l m k r :
  Inj (=) (=) (li_request_id io) → l !! k = Some r →
  SendTicket peer (li_request_id io k) r.1 ∈ (send_tickets io peer l m).1 ∧
  (send_tickets io peer l m).2 !! li_request_id io k = Some r.2.
Proof.
  intros Hi Hk. split; [apply elem_of_lookup_imap; eauto|]. unfold send_tickets. simpl.
  apply foldl_insert_lookup; [by apply NoDup_ids|]. apply elem_of_lookup_imap. eauto.
Qed.

(** The handlers leave the outbox alone, the settling of an answer apart. *)
Lemma status_setup (pio : put_io) now t st actor en :
  same_setup en (update_ticket_state pio now t st actor en).2.
Proof.
  unfold update_ticket_state. destruct (engine_get_ticket en t); [|done]. destruct (negb _); [done|].
  apply sbind_setup; [apply append_setup|]. intros _ en1. unfold retrieve. by destruct (engine_get_ticket _ _).
Qed.

Lemma request_setup local authority peer nio request en :
  same_setup en (handle_ticket_request local authority peer nio request en).2.
Proof.
  destruct request as [| |tk|m| | |objects]; try done; cbn [handle_ticket_request].
  - unfold push_ticket. destruct (negb _); [done|].
    pose proof (import_setup (ca_put (ni_first nio)) (ca_put (ni_second nio)) tk en) as Hs.
    by destruct (import_canonical_ticket _ _ _ _) as [[u|e] en'].
  - unfold update_status_signed. destruct (negb _); [done|].
    pose proof (status_setup (ca_put (ni_first nio)) (ca_now (ni_first nio)) (mu_ticket_id m) (mu_new_state m)
      (peer_id_to_string peer) en) as Hs.
    by destruct (update_ticket_state _ _ _ _ _ _) as [[r|e] en'].
  - unfold push_objects. pose proof (apply_remote_objects_setup (with_ios nio objects) en) as Hs.
    by destruct (apply_remote_objects _ _) as [[n|e] en'].
Qed.

Lemma chat_setup local authority peer nio request en :
  same_setup en (handle_chat_request local authority peer nio request en).2.
Proof.
  unfold handle_chat_request. destruct (engine_get_ticket _ _); [|done].
  destruct (negb _); [done|]. destruct (negb _); [done|]. destruct (negb _); [done|].
  assert (same_setup en (add_chat_message (ca_put (ni_first nio)) (ca_now (ni_first nio))
    (received_message peer request) en).2) as H1 by apply append_note_setup.
  destruct (add_chat_message _ _ _ _) as [[u|e] en1]; [|done].
  assert (same_setup en1 (record_event (ca_put (ni_second nio)) (ca_uuid (ni_second nio))
    (ca_now (ni_second nio)) (cw_ticket_id request) "CHAT_MESSAGE_RECEIVED" (peer_id_to_string peer)
    (Some (chat_preview peer (cw_body request))) en1).2) as H2 by apply append_note_setup.
  destruct (record_event _ _ _ _ _ _ _ _) as [r en2]. eapply same_setup_trans; [exact H1|exact H2].
Qed.

Lemma absorb_setup local nio response en : same_setup en (absorb_response local nio response en).
Proof.
  destruct response as [| |tk|k msg [tk|]| |objects|]; simpl; try done.
  - apply import_setup.
  - destruct (bool_decide _); [done|apply import_setup].
  - apply apply_remote_objects_setup.
Qed.

Lemma shell_setup info authority peer sio w (host : ShellHost St) :
  ho_engine (handle_incoming_shell_next info authority peer sio w host).2 = ho_engine host.
Proof.
  unfold handle_incoming_shell_next. repeat (case_match; try done).
Qed.

(** A final answer to a request sent for the entry [i]. *)
Definition settled (event : LoopEvent) s (i : string) : Prop :=
  ∃ nio id response p, event = LeTicketV2 nio (Response id response) ∧
    nd_sync_tickets s !! id = Some p ∧ ps_outbox_id p = Some i ∧ is_terminal response = true.

Lemma settle_outbox_other removal pending response en name :
  (∀ i, ps_outbox_id pending = Some i → is_terminal response = true → outbox_name i ≠ name) →
  en_outbox (settle_outbox removal pending response en) !! name = en_outbox en !! name.
Proof.
  intros H. unfold settle_outbox. destruct (ps_outbox_id pending) as [i|]; [|done].
  destruct (is_terminal response); [|done]. apply remove_outbox_other. by apply H.
Qed.

Lemma ticket_turn_outbox local authority nio event en m name :
  (∀ id response p i, event = Response id response → m !! id = Some p → ps_outbox_id p = Some i →
    is_terminal response = true → outbox_name i ≠ name) →
  en_outbox (tn_engine (handle_ticket_v2 local authority nio event (mkTicketNode en m)).2) !! name =
    en_outbox en !! name.
Proof.
  intros Hs. destruct event as [peer request channel|i response|i error|]; simpl; [| | |done].
  - pose proof (request_setup local authority peer nio request en) as (_ & _ & H).
    destruct (handle_ticket_request _ _ _ _ _ _). simpl in *. by rewrite H.
  - destruct (m !! i) as [p|] eqn:Hp; [|done]. simpl.
    destruct (absorb_setup local nio response (settle_outbox (ni_remove nio) p response en)) as (_ & _ & ->).
    apply settle_outbox_other. intros j. by apply (Hs i response p j).
  - by destruct (m !! i).
Qed.

Lemma chat_turn_outbox local authority nio event en m :
  en_outbox (cn_engine (handle_chat local authority nio event (mkChatNode en m)).2) = en_outbox en.
Proof.
  destruct event as [peer request channel|i response|i error|]; simpl; [| | |done].
  - pose proof (chat_setup local authority peer nio request en) as (_ & _ & H).
    by destruct (handle_chat_request _ _ _ _ _ _).
  - by destruct (m !! i).
  - by destruct (m !! i).
Qed.

(** A call of [enqueue_outbox], whether it succeeds or not, leaves the entries of the others. *)
Lemma enqueue_json_other io peer kind payload en name :
  name ≠ outbox_name (li_uuid io) → path_extension name = Some "json" →
  en_outbox (enqueue_json io peer kind payload en).2 !! name = en_outbox en !! name.
Proof.
  intros Hn Hext. assert (outbox_tmp (li_uuid io) ≠ name) as Ht by (intros <-; by apply tmp_extension in Hext).
  unfold enqueue_json. destruct payload as [payload|]; [|done]. unfold enqueue_outbox.
  destruct (li_enqueue io) as [[|[n|]|]|]; [done|..]; (destruct (encode_outbox _); [|done]); simpl; try done;
    rewrite lookup_insert_ne by done; [done..|]. by apply lookup_delete_ne.
Qed.

Lemma forward_sync_engine o io peer dial r s :
  nd_engine (forward_sync o io peer dial r s).2 = nd_engine s.
Proof. unfold forward_sync. by destruct (li_connected io peer). Qed.

Lemma command_outbox o io cmd s name :
  name ≠ outbox_name (li_uuid io) → path_extension name = Some "json" →
  en_outbox (nd_engine (on_command o io cmd s).2) !! name = en_outbox (nd_engine s) !! name.
Proof.
  intros Hn Hext. destruct cmd as [| |peer dial p|peer dial request to|peer dial message to|peer dial t path c k to];
    simpl; [done|done| | | |].
  - unfold on_open_shell_next. destruct (li_connected io peer); [done|].
    by destruct (start_dial o io peer dial s) as [? [|]].
  - unfold on_sync_tickets. destruct (is_ticket_mutation request); [|by rewrite forward_sync_engine].
    pose proof (enqueue_json_other io peer "TICKET_SYNC" (json_to_string request) (nd_engine s) name Hn Hext) as H.
    destruct (enqueue_json _ _ _ _ _) as [[i|] en]; [|done]. rewrite forward_sync_engine. exact H.
  - unfold on_send_chat. by destruct (li_connected io peer).
  - unfold on_send_file.
    pose proof (enqueue_json_other io peer "FILE_SEND" (json_to_string (mkFileSend t path)) (nd_engine s) name Hn Hext) as H.
    destruct (enqueue_json _ _ _ _ _) as [[i|] en]; [|done]. by destruct (li_connected io peer).
Qed.

(** A valid ticket request of the outbox survives the connection of any peer. *)
Lemma established_outbox o io peer addr d s name b record request :
  outbox_inv (nd_engine s) → en_outbox (nd_engine s) !! name = Some b → path_extension name = Some "json" →
  decode_outbox b = Some record → ob_kind record = "TICKET_SYNC" → json_from_str (ob_payload record) = Some (request : TicketSyncRequest) →
  en_outbox (nd_engine (on_established o io peer addr d s).2) !! name = Some b.
Proof.
  intros Hi Hb Hext Hd Hk Hj. unfold on_established. cbn [nd_engine snd send_tickets send_chats].
  assert (∀ lio en kind r, en_outbox en ⊆ en_outbox (nd_engine s) → r ∈ outbox_of_kind lio en peer kind →
    outbox_name (ob_id r) = name → ob_kind r = kind ∧ r = record) as Hr.
  { intros lio en kind r Hsub [Hrk (n' & b' & _ & Hb' & He' & Hd' & _)]%elem_of_kind Hn. split; [done|].
    pose proof (lookup_weaken _ _ _ _ Hb' Hsub) as Hb2. pose proof (Hi _ _ _ Hb2 He' Hd') as ->. congruence. }
  rewrite drop_invalid_lookup; [rewrite drop_invalid_lookup; [exact Hb|]|].
  - intros r Hin Hn. destruct (Hr _ _ _ _ ltac:(done) Hin Hn) as [_ ->]. by rewrite Hj.
  - intros r [_ Hin]%list_elem_of_filter Hn.
    destruct (Hr _ _ _ _ (drop_invalid_sub _ _ _) Hin Hn) as [Hf ->]. by rewrite Hk in Hf.
Qed.

Lemma ticket_turn_settles o nio ev s name record b :
  outbox_inv (nd_engine s) → en_outbox (nd_engine s) !! name = Some b → path_extension name = Some "json" →
  decode_outbox b = Some record →
  en_outbox (tn_engine (handle_ticket_v2 (ni_peer_id (no_local_info o)) (no_authority o) nio ev
    (mkTicketNode (nd_engine s) (nd_sync_tickets s))).2) !! name = Some b ∨
  settled (LeTicketV2 nio ev) s (ob_id record).
Proof.
  intros Hi Hb Hext Hd. destruct ev as [p request channel|id response|id e|].
  1,3,4: left; rewrite ticket_turn_outbox; done.
  destruct (nd_sync_tickets s !! id) as [p|] eqn:Hp.
  - destruct (decide (ps_outbox_id p = Some (ob_id record) ∧ is_terminal response = true)) as [[Ho Ht]|Hno].
    + right. by exists nio, id, response, p.
    + left. rewrite ticket_turn_outbox; [done|]. intros id' response' p' i [= <- <-] Hp' Hpi Ht Hname.
      assert (p' = p) as -> by congruence. rewrite (Hi _ _ _ Hb Hext Hd) in Hname.
      apply outbox_name_inj in Hname as ->. by destruct Hno.
  - left. rewrite ticket_turn_outbox; [done|]. intros id' response' p' i [= <- <-] Hp'. congruence.
Qed.

Lemma established_sends o io peer addr d s record request :
  Inj (=) (=) (li_request_id io) → record ∈ outbox_of_kind (li_ticket_list io) (nd_engine s) peer "TICKET_SYNC" →
  json_from_str (ob_payload record) = Some request →
  ∃ k orphan, (length (taken peer (nd_sync_dials s)) ≤ k)%nat ∧
    SendTicket peer (li_request_id io k) request ∈ (on_established o io peer addr d s).1 ∧
    nd_sync_tickets (on_established o io peer addr d s).2 !! li_request_id io k =
      Some (mkPendingSync orphan (Some (ob_id record))).
Proof.
  intros Hinj Hin Hj. destruct (retried_ticket io _ _ _ Hin Hj) as [k0 [j Hl]%list_elem_of_lookup].
  exists (length (taken peer (nd_sync_dials s)) + j)%nat, (li_orphan io k0). split; [lia|].
  assert ((taken peer (nd_sync_dials s) ++ retried_tickets io (outbox_of_kind (li_ticket_list io) (nd_engine s) peer "TICKET_SYNC"))%list
    !! (length (taken peer (nd_sync_dials s)) + j)%nat =
    Some (request, mkPendingSync (li_orphan io k0) (Some (ob_id record)))) as Hlk
    by (rewrite lookup_app_r by lia; by rewrite Nat.add_sub_swap, Nat.sub_diag by lia).
  destruct (send_tickets_lookup io peer _ (nd_sync_tickets s) _ _ Hinj Hlk) as [He Hm].
  unfold on_established. destruct (send_tickets _ _ _ _) as [e1 m1]. destruct (send_chats _ _ _ _) as [e2 m2].
  simpl in *. split; [|done]. rewrite elem_of_app, elem_of_app. auto.
Qed.

(** The files of the outbox keep their names. *)
Lemma outbox_inv_sub en en' : outbox_inv en → en_outbox en' ⊆ en_outbox en → outbox_inv en'.
Proof. intros Hi Hs name b r Hb. apply Hi. by apply (lookup_weaken _ _ _ _ Hb Hs). Qed.

Lemma enqueue_json_inv io peer kind payload en :
  outbox_inv en → outbox_inv (enqueue_json io peer kind payload en).2.
Proof.
  intros Hi name b r Hb Hext Hd. destruct (decide (name = outbox_name (li_uuid io))) as [->|Hn].
  2:{ rewrite enqueue_json_other in Hb by done. by eapply Hi. }
  assert (outbox_tmp (li_uuid io) ≠ outbox_name (li_uuid io)) as Ht
    by (intros E; rewrite <- E in Hext; by apply tmp_extension in Hext).
  unfold enqueue_json in Hb. destruct payload as [payload|]; [|by eapply Hi]. unfold enqueue_outbox in Hb.
  destruct (li_enqueue io) as [[|[n|]|]|]; [by eapply Hi|..]; destruct (encode_outbox _) as [b'|] eqn:Hb';
    simpl in Hb; rewrite ?(lookup_insert_ne _ (outbox_tmp _)) in Hb by done; try (by eapply Hi).
  rewrite lookup_insert_eq in Hb. injection Hb as ->. apply decode_encode_outbox in Hb'. by simplify_eq.
Qed.

Lemma command_outbox_inv o io cmd s :
  outbox_inv (nd_engine s) → outbox_inv (nd_engine (on_command o io cmd s).2).
Proof.
  intros Hi. destruct cmd as [| |peer dial p|peer dial request to|peer dial message to|peer dial t path c k to];
    simpl; [done|done| | | |].
  - unfold on_open_shell_next. destruct (li_connected io peer); [done|].
    by destruct (start_dial o io peer dial s) as [? [|]].
  - unfold on_sync_tickets. destruct (is_ticket_mutation request); [|by rewrite forward_sync_engine].
    pose proof (enqueue_json_inv io peer "TICKET_SYNC" (json_to_string request) (nd_engine s) Hi) as H.
    destruct (enqueue_json _ _ _ _ _) as [[i|] en]; [|done]. by rewrite forward_sync_engine.
  - unfold on_send_chat. by destruct (li_connected io peer).
  - unfold on_send_file.
    pose proof (enqueue_json_inv io peer "FILE_SEND" (json_to_string (mkFileSend t path)) (nd_engine s) Hi) as H.
    destruct (enqueue_json _ _ _ _ _) as [[i|] en]; [|done]. by destruct (li_connected io peer).
Qed.

Lemma ticket_turn_sub local authority nio event en m :
  en_outbox (tn_engine (handle_ticket_v2 local authority nio event (mkTicketNode en m)).2) ⊆ en_outbox en.
Proof.
  destruct event as [peer request channel|i response|i error|]; simpl; [| | |done].
  - pose proof (request_setup local authority peer nio request en) as (_ & _ & H).
    destruct (handle_ticket_request _ _ _ _ _ _). simpl in *. by rewrite H.
  - destruct (m !! i) as [p|]; [|done]. simpl.
    destruct (absorb_setup local nio response (settle_outbox (ni_remove nio) p response en)) as (_ & _ & ->).
    unfold settle_outbox. destruct (ps_outbox_id p); [|done]. destruct (is_terminal response); [|done].
    apply remove_outbox_sub.
  - by destruct (m !! i).
Qed.

Lemma turn_outbox_inv o io event s :
  outbox_inv (nd_engine s) → outbox_inv (nd_engine (event_loop_turn o io event s).2).
Proof.
  intros Hi.
  destruct event as [cmd|p sio w|p| | |addr|p addr d|p n|ev|nio ev|nio ev|regs| |p v l ob lo pr|p e|]; simpl;
    try done.
  - by apply command_outbox_inv.
  - pose proof (shell_setup (no_local_info o) (no_authority o) p sio w
      (mkShellHost (nd_engine s) (nd_active_shells s) (nd_shell_tasks s))) as H.
    destruct (handle_incoming_shell_next _ _ _ _ _ _). simpl in *. by rewrite H.
  - by destruct (nd_file_slots s).
  - eapply outbox_inv_sub; [exact Hi|]. simpl. etrans; apply drop_invalid_sub.
  - by destruct (handle_hello _ _ _ _).
  - pose proof (ticket_turn_sub (ni_peer_id (no_local_info o)) (no_authority o) nio ev (nd_engine s)
      (nd_sync_tickets s)) as H. destruct (handle_ticket_v2 _ _ _ _ _). by eapply outbox_inv_sub.
  - pose proof (chat_turn_outbox (ni_peer_id (no_local_info o)) (no_authority o) nio ev (nd_engine s)
      (nd_chat_messages s)) as H. destruct (handle_chat _ _ _ _ _). eapply outbox_inv_sub; [exact Hi|].
    simpl in *. by rewrite H.
  - unfold handle_rendezvous_client. by destruct (foldl _ _ _).
  - unfold on_identify. by destruct (existsb _ _).
  - unfold on_outgoing_error. destruct p as [p|]; [|done]. by destruct (li_connected io p).
Qed.

Lemma foldl_insert_inv `{Countable K} {A} (l : list (K * A)) : ∀ (m : gmap K A) i x,
  foldl (λ m r, <[r.1 := r.2]> m) m l !! i = Some x → (i, x) ∈ l ∨ m !! i = Some x.
Proof.
  induction l as [|[j y] l IH]; intros m i x Hx; [by right|]. simpl in Hx.
  destruct (IH _ _ _ Hx) as [Hin|Hm]; [left; by right|].
  destruct (decide (i = j)) as [->|Hn].
  - rewrite lookup_insert_eq in Hm. injection Hm as ->. left. left.
  - rewrite lookup_insert_ne in Hm by done. by right.
Qed.

(** A connection whose listing does not reach the file has nothing new wait for the entry:
    what does was waiting before, in the table or in the queue of the dial. *)
Lemma established_unread o io peer addr d s name b record i p :
  outbox_inv (nd_engine s) → en_outbox (nd_engine s) !! name = Some b → path_extension name = Some "json" →
  decode_outbox b = Some record → ¬ reads_file (li_ticket_list io) name →
  nd_sync_tickets (on_established o io peer addr d s).2 !! i = Some p → ps_outbox_id p = Some (ob_id record) →
  nd_sync_tickets s !! i = Some p ∨ ∃ request, (request, p) ∈ taken peer (nd_sync_dials s).
Proof.
  intros Hi Hb Hext Hd Hr. unfold on_established, send_tickets. cbn [snd nd_sync_tickets send_chats].
  intros [(k & [request p'] & [= -> ->] & Hl)%elem_of_lookup_imap|Hm]%foldl_insert_inv Hp; [right|by left].
  exists request. simpl in *. apply list_elem_of_lookup_2 in Hl. apply elem_of_app in Hl as [Hl|Hl]; [done|].
  exfalso. apply Hr. unfold retried_tickets in Hl.
  apply list_elem_of_omap in Hl as ([j r] & (j' & r' & [= -> ->] & Hlk)%elem_of_lookup_imap & Hl).
  apply list_elem_of_lookup_2, elem_of_kind in Hlk as (_ & name' & b' & Hr' & Hb' & He' & Hd' & _).
  simplify_option_eq. pose proof (Hi _ _ _ Hb' He' Hd') as ->. pose proof (Hi _ _ _ Hb Hext Hd) as ->.
  congruence.
Qed.

(** A ticket request stored in the outbox is delivered at least once. Every connection
    of its peer whose listing reads its file sends it again, and one whose listing fails or passes over
    the file has nothing new wait for it; no turn removes it except the final answer to a
    request that was sent for it: until then it survives every command, message,
    failure and connection, whatever the disk refuses. Every turn leaves the files named
    after their records. *)
Theorem outbox_at_least_once o io event s name b record request peer :
  outbox_inv (nd_engine s) → Inj (=) (=) (li_request_id io) →
  en_outbox (nd_engine s) !! name = Some b → path_extension name = Some "json" →
  decode_outbox b = Some record → ob_kind record = "TICKET_SYNC" →
  ob_peer_id record = peer_id_to_string peer → json_from_str (ob_payload record) = Some request →
  name ≠ outbox_name (li_uuid io) →
  let '(effects, s') := event_loop_turn o io event s in
  outbox_inv (nd_engine s') ∧
  (en_outbox (nd_engine s') !! name = Some b ∨ settled event s (ob_id record)) ∧
  (∀ addr d, event = LeConnectionEstablished peer addr d → reads_file (li_ticket_list io) name →
    ∃ k orphan, SendTicket peer (li_request_id io k) request ∈ effects ∧
      nd_sync_tickets s' !! li_request_id io k = Some (mkPendingSync orphan (Some (ob_id record)))) ∧
  (∀ addr d i p, event = LeConnectionEstablished peer addr d → ¬ reads_file (li_ticket_list io) name →
    nd_sync_tickets s' !! i = Some p → ps_outbox_id p = Some (ob_id record) →
    nd_sync_tickets s !! i = Some p ∨ ∃ request', (request', p) ∈ taken peer (nd_sync_dials s)).
Proof.
  intros Hi Hinj Hb Hext Hd Hk Hp Hj Hn. pose proof (turn_outbox_inv o io event s Hi) as Hi'.
  destruct (event_loop_turn o io event s) as [effects s'] eqn:E. split; [exact Hi'|]. clear Hi'. split; [|split].
  - destruct event as [cmd|p sio w|p| | |addr|p addr d|p n|ev|nio ev|nio ev|regs| |p v l ob lo pr|p e|];
      simpl in E; try (injection E as <- <-; by left).
    + left. rewrite <- Hb, <- (command_outbox o io cmd s) by done. by rewrite E.
    + pose proof (shell_setup (no_local_info o) (no_authority o) p sio w
        (mkShellHost (nd_engine s) (nd_active_shells s) (nd_shell_tasks s))) as H.
      destruct (handle_incoming_shell_next _ _ _ _ _ _) as [w' host]. injection E as <- <-. left. simpl in *. by rewrite H.
    + destruct (nd_file_slots s); injection E as <- <-; by left.
    + left. by rewrite <- (established_outbox o io p addr d s name b record request), E.
    + destruct (handle_hello _ _ _ _). injection E as <- <-. by left.
    + destruct (ticket_turn_settles o nio ev s name record b Hi Hb Hext Hd) as [H|H]; [left|by right].
      destruct (handle_ticket_v2 _ _ _ _ _). by injection E as <- <-.
    + pose proof (chat_turn_outbox (ni_peer_id (no_local_info o)) (no_authority o) nio ev (nd_engine s)
        (nd_chat_messages s)) as H.
      destruct (handle_chat _ _ _ _ _). injection E as <- <-. left. simpl in *. by rewrite H.
    + unfold handle_rendezvous_client in E. destruct (foldl _ _ _). injection E as <- <-. by left.
    + unfold on_identify in E. destruct (existsb _ _); injection E as <- <-; by left.
    + unfold on_outgoing_error in E. destruct p as [p|]; [|injection E as <- <-; by left].
      destruct (li_connected io p); injection E as <- <-; by left.
  - intros addr d -> Hr. simpl in E.
    destruct (established_sends o io peer addr d s record request Hinj) as (k & orphan & _ & ? & ?); [|done|].
    + apply elem_of_kind. eauto 8.
    + rewrite E in *. eauto.
  - intros addr d i p -> Hr. pose proof (established_unread o io peer addr d s name b record i p Hi Hb Hext Hd Hr) as H.
    simpl in E. by rewrite E in H.
Qed.

(** A ticket change that could be stored, asked for while its peer is away, is sent twice: it waits both in the
    queue of the dial and in the outbox, and a connection that reads it there sends both. The two requests
    wait under different ids, the one for the caller, the other for nobody, and settle the
    same entry. *)
Theorem queued_mutation_sent_twice o io io' peer dial addr d request reply payload b s :
  is_ticket_mutation request = true → json_to_string request = Some payload → li_uuid io ≠ "" →
  li_enqueue io = None → reads_file (li_ticket_list io') (outbox_name (li_uuid io)) →
  encode_outbox (mkOutboxRecord (li_uuid io) (peer_id_to_string peer) "TICKET_SYNC" payload (li_now io)) = Some b →
  li_connected io peer = false → Inj (=) (=) (li_request_id io') →
  let s1 := (event_loop_turn o io (LeCommand (SyncTickets peer dial request reply)) s).2 in
  let '(effects, s2) := event_loop_turn o io' (LeConnectionEstablished peer addr d) s1 in
  ∃ k1 k2 orphan, (k1 < k2)%nat ∧
    SendTicket peer (li_request_id io' k1) request ∈ effects ∧
    SendTicket peer (li_request_id io' k2) request ∈ effects ∧
    nd_sync_tickets s2 !! li_request_id io' k1 = Some (mkPendingSync reply (Some (li_uuid io))) ∧
    nd_sync_tickets s2 !! li_request_id io' k2 = Some (mkPendingSync orphan (Some (li_uuid io))).
Proof.
  intros Hm Hj Hu Hq Hr Hb Hc Hinj s1.
  assert (∃ en, s1 = with_dials (with_engine s en) (nd_shell_next s)
      (push_dial peer (request, mkPendingSync reply (Some (li_uuid io))) (nd_sync_dials s)) (nd_chat_dials s)
      (nd_file_dials s) ∧ en_outbox en !! outbox_name (li_uuid io) = Some b) as (en & -> & Ho).
  { unfold s1. simpl. unfold on_sync_tickets, enqueue_json, enqueue_outbox, forward_sync. rewrite Hm, Hj, Hq, Hb, Hc.
    eexists. split; [done|]. simpl. apply lookup_insert_eq. }
  cbn [event_loop_turn]. match goal with |- context [on_established _ _ _ _ _ ?x] => set (s1 := x) end.
  destruct (established_sends o io' peer addr d s1
    (mkOutboxRecord (li_uuid io) (peer_id_to_string peer) "TICKET_SYNC" payload (li_now io)) request Hinj)
    as (k2 & orphan & Hk & He2 & Hl2).
  { apply elem_of_kind. split; [done|]. exists (outbox_name (li_uuid io)), b. split; [done|].
    split; [done|]. split; [by apply outbox_extension|]. split; [by apply decode_encode_outbox|done]. }
  { unfold json_to_string in Hj. unfold json_from_str. simpl.
    destruct (json_to_vec request) as [l|] eqn:Hl; [|done]. injection Hj as <-. rewrite as_from_bytes.
    by apply json_roundtrip. }
  assert ((taken peer (nd_sync_dials s1) ++ retried_tickets io' (outbox_of_kind (li_ticket_list io') (nd_engine s1) peer "TICKET_SYNC"))%list
    !! length (taken peer (nd_sync_dials s)) = Some (request, mkPendingSync reply (Some (li_uuid io)))) as H1.
  { unfold s1. simpl. rewrite taken_push, <- app_assoc, lookup_app_r, Nat.sub_diag by lia. done. }
  destruct (send_tickets_lookup io' peer _ (nd_sync_tickets s1) _ _ Hinj H1) as [He1 Hl1].
  assert (length (taken peer (nd_sync_dials s1)) = S (length (taken peer (nd_sync_dials s)))) as Hlen.
  { unfold s1. simpl. rewrite taken_push, length_app. simpl. lia. }
  destruct (on_established o io' peer addr d s1) as [effects s2] eqn:E. simpl in He2, Hl2.
  exists (length (taken peer (nd_sync_dials s))), k2, orphan.
  unfold on_established in E. destruct (send_tickets _ _ _ _) as [e1 m1]. destruct (send_chats _ _ _ _) as [e2 m2].
  injection E as <- <-. simpl in *. repeat split; try done; [lia|]. rewrite !elem_of_app. auto.
Qed.
End node_properties.
