(* ===== verification/NodeRuns.v ===== *)
(** Turns of the event loop of a concrete node: the hypotheses of the theorems of Node.v
    hold there. *)

From S2P Require Import Prelude Text Object Concrete Ticket Event Graph GraphSort.
From S2P Require Import Reducer Authority Store Engine EngineRuns Codec Config Stream Shell Wire Sync Peers.
From S2P Require Import Admission Transfer SyncRuns Node.

#[local] Open Scope string_scope.

#[local] Existing Instance toy_libp2p.
#[local] Existing Instance toy_libp2p_laws.
#[local] Existing Instance toy_cbor.

Definition queued_request : TicketSyncRequest := PushTicket pushed_record.

#[local] Instance request_json : Json TicketSyncRequest := single_json queued_request (λ r,
  match r with PushTicket t => bool_decide (t = pushed_record) | _ => false end).

#[local] Instance request_json_laws : JsonLaws TicketSyncRequest.
Proof.
  apply single_json_laws. intros [| |t| | | |] H; try discriminate H.
  apply bool_decide_eq_true in H as ->. reflexivity.
Qed.

Definition node_info : NodeInfo := mkNodeInfo "local" "pc" "linux" "x86_64" "0.1.0" false false.

#[local] Instance info_json : Json NodeInfo := single_json node_info (λ _, false).
#[local] Instance file_json : Json FileSendOutboxPayload := single_json (mkFileSend "T-1" []) (λ _, false).
#[local] Instance shell_json : Json ShellNextHandshake := single_json sample_shell_next (λ _, false).

Definition queued_record : OutboxRecord := mkOutboxRecord "o1" "op" "TICKET_SYNC" "{}" 500.

#[local] Instance toy_outbox : OutboxCodec := {|
  encode_outbox r := if bool_decide (r = queued_record) then Some [x01] else None;
  decode_outbox b := if bool_decide (b = [x01]) then Some queued_record else None
|}.

#[local] Instance toy_outbox_laws : OutboxCodecLaws.
Proof.
  split. intros r b. simpl. destruct (bool_decide (r = queued_record)) eqn:E; [|done]. intros [= <-].
  by apply bool_decide_eq_true in E as ->.
Qed.

Definition node_settings : node_options (LP := toy_libp2p) := mkNodeOptions node_info "local" None None.

(** A directory that holds one file, and one that cannot be read. *)
Definition one_file : list_io := mkListIo true (Some ["o1.json"; "o1.tmp"]) (λ _, true).
Definition no_list : list_io := mkListIo true None (λ _, true).

Lemma one_file_read : reads_file one_file "o1.json".
Proof. split; [reflexivity|]. split; [|reflexivity]. eexists. split; [reflexivity|]. left. Qed.

(** Nothing is connected; ids and channels are numbered, and the disk refuses nothing. *)
Definition turn_io : loop_io (LP := toy_libp2p) :=
  mkLoopIo (λ _, false) (λ _, true) (λ _, DialStarted) N.of_nat (λ k, N.of_nat (100 + k)) 500 "o1"
    None one_file one_file (λ _, RmRemoved).

Definition idle_node : NodeState (LP := toy_libp2p) FsObjectStore :=
  mkNode engine0 ∅ ∅ ∅ ∅ ∅ ∅ ∅ ∅ 2 false [].

Definition ask_sync : LoopEvent (LP := toy_libp2p) := LeCommand (SyncTickets "op" None queued_request 9).

Definition queued_node : NodeState (LP := toy_libp2p) FsObjectStore :=
  (event_loop_turn node_settings turn_io ask_sync idle_node).2.

Lemma turn_ids : Inj (=) (=) (li_request_id turn_io).
Proof. intros i j H. by apply Nat2N.inj. Qed.

Lemma idle_fresh : fresh_ids turn_io idle_node.
Proof. split; [exact turn_ids|reflexivity|reflexivity]. Qed.

Lemma callers_accounted_witness :
  (event_loop_turn node_settings turn_io ask_sync idle_node).1 = [] ∧ waiting_callers queued_node ≡ₚ [9].
Proof.
  pose proof (callers_accounted node_settings turn_io ask_sync idle_node eq_refl idle_fresh) as H.
  assert (match (event_loop_turn node_settings turn_io ask_sync idle_node).1 with [] => true | _ => false end = true)
    as He by (vm_compute; reflexivity).
  unfold queued_node. destruct (event_loop_turn node_settings turn_io ask_sync idle_node) as [[|? ?] s'];
    [|discriminate He].
  split; [reflexivity|]. exact H.
Defined.

Lemma unreachable_callers_witness :
  let '(effects, s') := event_loop_turn node_settings turn_io ask_sync idle_node in
  effects = [ReplyError 9 sync_not_stored] ∨
  effects = [] ∧ ∃ i, taken "op" (nd_sync_dials s') = [(queued_request, mkPendingSync 9 i)].
Proof.
  destruct (unreachable_callers node_settings turn_io "op" idle_node eq_refl eq_refl) as (_ & _ & H & _).
  exact (H queued_request 9).
Defined.

(** ** The queued change *)

Lemma queued_mutation_sent_twice_witness :
  let '(effects, s') := event_loop_turn node_settings turn_io
    (LeConnectionEstablished "op" "q1" false) queued_node in
  ∃ k1 k2 orphan, (k1 < k2)%nat ∧
    SendTicket "op" (N.of_nat k1) queued_request ∈ effects ∧
    SendTicket "op" (N.of_nat k2) queued_request ∈ effects ∧
    nd_sync_tickets s' !! N.of_nat k1 = Some (mkPendingSync 9 (Some "o1")) ∧
    nd_sync_tickets s' !! N.of_nat k2 = Some (mkPendingSync orphan (Some "o1")).
Proof.
  exact (queued_mutation_sent_twice node_settings turn_io turn_io "op" None "q1" false queued_request 9 "{}"
    [x01] idle_node eq_refl eq_refl ltac:(discriminate) eq_refl one_file_read eq_refl eq_refl turn_ids).
Defined.

Lemma queued_outbox : en_outbox (nd_engine queued_node) = {["o1.json" := [x01]]}.
Proof. vm_compute. reflexivity. Qed.

Lemma queued_inv : outbox_inv (nd_engine queued_node).
Proof.
  intros name b r. rewrite queued_outbox, lookup_singleton_Some. intros [<- <-] _. simpl. intros [= <-]. reflexivity.
Qed.

Definition next_io : loop_io (LP := toy_libp2p) :=
  mkLoopIo (λ _, true) (λ _, true) (λ _, DialStarted) N.of_nat (λ k, N.of_nat (100 + k)) 600 "o2"
    None one_file one_file (λ _, RmRemoved).

Lemma outbox_at_least_once_witness :
  let '(effects, s') := event_loop_turn node_settings next_io
    (LeConnectionEstablished "op" "q1" false) queued_node in
  en_outbox (nd_engine s') !! "o1.json" = Some [x01] ∧
  ∃ k orphan, SendTicket "op" (N.of_nat k) queued_request ∈ effects ∧
    nd_sync_tickets s' !! N.of_nat k = Some (mkPendingSync orphan (Some "o1")).
Proof.
  pose proof (outbox_at_least_once node_settings next_io (LeConnectionEstablished "op" "q1" false) queued_node
    "o1.json" [x01] queued_record queued_request "op" queued_inv turn_ids) as H.
  rewrite queued_outbox in H. specialize (H eq_refl eq_refl eq_refl eq_refl eq_refl eq_refl ltac:(discriminate)).
  destruct (event_loop_turn _ _ _ _) as [effects s']. destruct H as (_ & [Hb|Hs] & Hsend & _).
  - split; [exact Hb|]. exact (Hsend "q1" false eq_refl one_file_read).
  - destruct Hs as (nio & id & response & p & E & _). discriminate E.
Defined.
