(* ===== verification/Service.v ===== *)
(** The service of a node ([apps/fortiq-service/src/ipc_server.rs]): the operator session
    it keeps, the requests of the local interface, the import of staged files, and the
    terminal bridge.

    A request runs against the ticket engine and the P2P node; what the clock, the
    random source, the disk and the node answer during one request is the argument
    [request_io].  Messages that format an error of another module keep their prefix. *)

From S2P Require Import Prelude Text Object Concrete Ticket Event Graph GraphSort.
From S2P Require Import Reducer Authority Store Engine EngineRuns Codec Config Stream Shell Mnemonic Wire Sync.
From S2P Require Import Peers Admission Transfer Node.

#[local] Open Scope string_scope.

Definition MAX_IPC_LINE_BYTES : nat := 64 * 1024.

(** An answer awaited under a time limit. *)
Inductive awaited (A : Type) := Answered (a : A) | Dropped | TimedOut.
Arguments Answered {A}.
Arguments Dropped {A}.
Arguments TimedOut {A}.

(** What the disk answers while a staged file is imported. *)
Record upload_io := mkUploadIo {
  up_create_spool : bool;
  up_canonical_spool : option PathBuf;
  up_canonical_source : string → option PathBuf;  (** what the path that was sent leads to *)
  up_open : bool;
  up_metadata : option (bool * bool * N);  (** is a file, is a symbolic link, length *)
  up_create_private : bool;
  up_uuid : string;
  up_create : bool;
  up_copy : result bytes bytes;            (** what the source holds, or what was copied before an error *)
  up_remove_partial : bool;                (** whether a copy that is too large can be removed *)
  up_sync : bool;
  up_rename : bool;
  up_remove : bool                         (** whether the staged copy can be removed *)
}.

(** ** Staged files *)

(** [Path::parent]. *)
Definition path_parent (p : PathBuf) : option PathBuf :=
  match last p with
  | None | Some RootDir => None
  | Some _ => Some (removelast p)
  end.

Definition staged_components (canonical_spool canonical_source : PathBuf)
    : result string (bytes * bytes) :=
  let? parent := ok_or (path_parent canonical_source) "Chemin staged invalide" in
  if negb (bool_decide (path_parent parent = Some canonical_spool)) then
    Err "Le service refuse tout fichier situé hors du spool utilisateur"
  else
    let? user := ok_or (file_name parent) "Répertoire utilisateur staged invalide" in
    let? name := ok_or (file_name canonical_source) "Nom de fichier staged invalide" in
    Ok (user, name).

(** [open_staged_file] on Unix: the two names go through C strings, and the directory and
    the file are opened without following links. *)
Definition open_staged_file (io : upload_io) (canonical_spool canonical_source : PathBuf)
    : result string unit :=
  let? (user, name) := staged_components canonical_spool canonical_source in
  if bool_decide (x00 ∈ user) then Err "Répertoire utilisateur staged invalide" else
  if bool_decide (x00 ∈ name) then Err "Nom de fichier staged invalide" else
  if up_open io then Ok tt else Err "Fichier staged non sécurisé".

(** [split_once('_')]. *)
Fixpoint split_once_bytes (sep : byte) (l : bytes) : option (bytes * bytes) :=
  match l with
  | [] => None
  | b :: l =>
      if bool_decide (b = sep) then Some ([], l)
      else '(x, y) ← split_once_bytes sep l; Some (b :: x, y)
  end.

Definition underscore : byte := x5f.

Definition upload_name (uuid : string) (original_name : bytes) : bytes :=
  (as_bytes uuid ++ [underscore] ++ original_name)%list.

(** The private copy, as it is written and as it is kept. *)
Definition upload_destination (storage_dir : PathBuf) (uuid : string) (original_name : bytes) : PathBuf :=
  path_join (path_join storage_dir (path "outbox-files")) (path_of_bytes (upload_name uuid original_name)).

Section staging.
Context `{UU : Uuid}.

Definition staged_original (canonical_source : PathBuf) : result string bytes :=
  let? staged_name := ok_or (file_name canonical_source ≫= to_str) "Nom de fichier staged invalide" in
  let? (i, original_name) :=
    ok_or (split_once_bytes underscore (as_bytes staged_name)) "Nom de fichier staged invalide" in
  let? _ := ok_or (parse_uuid_simple (from_bytes i)) "Identifiant de staging invalide" in
  Ok original_name.

(** The outcome and the files; the copy that is too large and, after the rename, the staged copy
    are removed, and each removal may fail unnoticed. *)
Definition import_staged_upload_from (storage_dir : PathBuf) (io : upload_io) (staged_path : string)
    (files : gmap PathBuf bytes) : result string PathBuf * gmap PathBuf bytes :=
  match
    let? _ := if up_create_spool io then Ok tt else Err "Impossible de préparer le spool" in
    let? spool := ok_or (up_canonical_spool io) "Spool inaccessible" in
    let? source := ok_or (up_canonical_source io staged_path) "Fichier staged inaccessible" in
    let? _ := staged_components spool source in
    let? original_name := staged_original source in
    let? _ := open_staged_file io spool source in
    let? (is_file, is_symlink, len) := ok_or (up_metadata io) "Metadata staged inaccessible" in
    if negb is_file || is_symlink || (MAX_FILE_SIZE <? len)%N then
      Err "Le fichier staged est invalide ou trop volumineux"
    else if negb (up_create_private io) then Err "Impossible de créer le spool privé"
    else Ok (source, original_name)
  with
  | Err e => (Err e, files)
  | Ok (source, original_name) =>
      let destination := upload_destination storage_dir (up_uuid io) original_name in
      let partial := with_extension destination "part" in
      if negb (up_create io) then (Err "Impossible de créer le fichier privé", files) else
      match up_copy io with
      | Err written => (Err "Impossible d'importer le fichier staged", <[partial := written]> files)
      | Ok content =>
          let copied := take (N.to_nat (MAX_FILE_SIZE + 1)) content in
          if (MAX_FILE_SIZE <? blen copied)%N then
            (Err "Le fichier staged a dépassé la taille maximale pendant la copie",
             if up_remove_partial io then delete partial files else <[partial := copied]> files)
          else if negb (up_sync io) then
            (Err "Impossible de synchroniser le fichier privé", <[partial := copied]> files)
          else if negb (up_rename io) then
            (Err "Impossible de finaliser le fichier privé", <[partial := copied]> files)
          else
            let files := <[destination := copied]> (delete partial files) in
            (Ok destination, if up_remove io then delete source files else files)
      end
  end.
End staging.

(** ** State *)

Record ActiveOperatorSession := mkSession {
  as_session_id : string;
  as_owner_id : OwnerId;
  as_cert : OperatorSessionCertificate;
  as_workspace : MemoryWorkspace;
  as_expires_at : N;
  as_session_signer : Ed25519Signer
}.

Section service.
Context `{CC : Crypto, HX : Hex, BC : BodyCodec, OC : ObjectCodec, SHA : Sha256, HK : Hkdf, UU : Uuid}.
Context `{LP : Libp2p, CB : Cbor OperatorSessionCertificate, ET : ErrorText}.
Context {St : Type} `{OS : !ObjectStore St}.
Implicit Types en : TicketEngine St.

(** What the service was started with ([IpcState] without what changes). *)
Record service_host := mkHost {
  hs_peer_id : PeerId;
  hs_version : string;
  hs_listen_addresses : list string;
  hs_p2p : bool;                      (** [p2p_sender] is there *)
  hs_bootstrap_peer : option string;
  hs_genesis : option Genesis;
  hs_storage_dir : PathBuf
}.

(** What changes; a token is named after its session and cancelled at most once. *)
Record ServiceState := mkService {
  sv_engine : TicketEngine St;
  sv_session : option ActiveOperatorSession;
  sv_cancelled : list string;
  sv_files : gmap PathBuf bytes
}.

Record request_io := mkRequestIo {
  rq_now : N;
  rq_uuid : string;
  rq_request_id : vec byte 16;
  rq_nonce : vec byte 16;
  rq_first : call_io;
  rq_second : call_io;
  rq_send : bool;                     (** the channel to the node is open *)
  rq_reply : Sender;
  rq_peers : awaited (list PeerSummary);
  rq_mutation : awaited (result string TicketSyncResponse);
  rq_ack : awaited (result string ChatAckWire);
  rq_file : awaited (result string AttachmentRecord);
  rq_upload : upload_io
}.

Definition with_session (s : ServiceState) session : ServiceState :=
  mkService (sv_engine s) session (sv_cancelled s) (sv_files s).
Definition with_service_engine (s : ServiceState) en : ServiceState :=
  mkService en (sv_session s) (sv_cancelled s) (sv_files s).

(** [guard.take()], [cancellation_token.cancel()] and [workspace.wipe()]. *)
Definition revoke_session (s : ServiceState) : ServiceState :=
  match sv_session s with
  | Some session =>
      mkService (sv_engine s) None (as_session_id session :: sv_cancelled s) (sv_files s)
  | None => s
  end.

Definition is_operator_authorized_for (now required : N) (s : ServiceState) : bool * ServiceState :=
  match sv_session s with
  | Some session =>
      if (now <? as_expires_at session)%N && Capabilities_has (cert_capabilities (as_cert session)) required
      then (true, s)
      else if (as_expires_at session <=? now)%N then (false, revoke_session s)
      else (false, s)
  | None => (false, s)
  end.

Definition is_operator_authorized (now : N) (s : ServiceState) : bool * ServiceState :=
  is_operator_authorized_for now CAP_SHELL_EXEC s.

Definition reply_type : Type := IpcResponse * list P2pCommand * ServiceState.

(** A command given to the node, when the channel takes it. *)
Definition send_command (io : request_io) (cmd : P2pCommand) : list P2pCommand :=
  if rq_send io then [cmd] else [].

(** ** Requests *)

Definition error (message : string) (s : ServiceState) : reply_type := (RError message, [], s).

Definition get_status (h : service_host) (io : request_io) (s : ServiceState) : reply_type :=
  let active_ticket := (λ '(i, st), mkTicketSummary i st) <$> engine_get (sv_engine s) in
  let '(is_unlocked, s) := is_operator_authorized (rq_now io) s in
  (RStatus {| ds_product := "FORTIQ"; ds_version := hs_version h;
              ds_peer_id := peer_id_to_string (hs_peer_id h); ds_agent_state := "online";
              ds_active_ticket := active_ticket; ds_listen_addresses := hs_listen_addresses h;
              is_operator_unlocked := is_unlocked |}, [], s).

Definition list_peers (h : service_host) (io : request_io) (s : ServiceState) : reply_type :=
  if negb (hs_p2p h) then (RPeers [], [], s) else
  if negb (rq_send io) then error "P2P subsystem channel closed" s else
  (match rq_peers io with
   | Answered peers => RPeers peers
   | Dropped => RError "P2P event loop dropped reply channel"
   | TimedOut => RError "Timeout waiting for peers from P2P node"
   end, [Node.ListPeers (rq_reply io)], s).

(** The ticket pushed to the operator named in the configuration. *)
Definition push_to_bootstrap (h : service_host) (io : request_io) (ticket : TicketRecord) : list P2pCommand :=
  match hs_bootstrap_peer h ≫= parse_peer_id with
  | Some peer => if hs_p2p h then send_command io (SyncTickets peer None (PushTicket ticket) (rq_reply io)) else []
  | None => []
  end.

Definition create_ticket_request (h : service_host) (io : request_io) (title description : string)
    (priority : TicketPriority) (s : ServiceState) : reply_type :=
  match create_ticket (ca_put (rq_first io)) (ca_uuid (rq_first io)) (ca_now (rq_first io)) title description
          priority (peer_id_to_string (hs_peer_id h)) (sv_engine s) with
  | (Ok record, en) => (RTicketCreated record, push_to_bootstrap h io record, with_service_engine s en)
  | (Err e, en) => error ("Échec de création du ticket: " +:+ error_text e) (with_service_engine s en)
  end.

(** The signed change sent to the client of a ticket. *)
Definition make_mutation (h : service_host) (io : request_io) (session : ActiveOperatorSession)
    (network_id : NetworkId) (ticket_id : string) (expected_revision : N) (new_state : TicketState)
    : result SigningError TicketStateMutation :=
  let mutation := mkMutation network_id ticket_id expected_revision new_state (rq_request_id io)
    (peer_id_to_string (hs_peer_id h)) (as_cert session) in
  let? signature := signer_sign (Ed25519Signer_Signer (as_session_signer session))
    (Mutation_signing_payload (mutation [])) in
  Ok (mutation signature).

Definition await_mutation (io : request_io) : IpcResponse :=
  match rq_mutation io with
  | Answered (Ok (MutationApplied ticket)) => RTicketUpdated (Some ticket)
  | Answered (Ok (MutationRejected _ message _)) => RError message
  | Answered (Err e) => RError e
  | _ => RError "Mutation mise en attente jusqu'à la reconnexion du client"
  end.

Definition update_remote_ticket (h : service_host) (io : request_io) (ticket_id : string)
    (current : TicketRecord) (new_state : TicketState) (s : ServiceState) : reply_type :=
  match parse_peer_id (tr_client_peer_id current) with
  | None => error "PeerId client invalide" s
  | Some peer =>
      if negb (hs_p2p h) then error "Sous-système P2P indisponible" s else
      match sv_session s with
      | None => error "Session opérateur inactive" s
      | Some session =>
          match hs_genesis h with
          | None => error "Genesis indisponible" s
          | Some genesis =>
              match make_mutation h io session (gt_network_id (gen_tbs genesis)) ticket_id
                      (tr_revision current) new_state with
              | Err _ => error "Signature lifecycle impossible" s
              | Ok mutation =>
                  if negb (rq_send io) then error "Canal de commande P2P fermé" s else
                  (await_mutation io,
                   [SyncTickets peer None (UpdateStatusSigned mutation) (rq_reply io)], s)
              end
          end
      end
  end.

Definition update_ticket_status (h : service_host) (io : request_io) (ticket_id : string)
    (new_state : TicketState) (s : ServiceState) : reply_type :=
  let '(authorized, s) := is_operator_authorized_for (rq_now io) CAP_TICKET_MANAGE s in
  if negb authorized then
    error "Seule une session Operator/Admin active peut modifier le cycle de vie du ticket" s
  else
    let local := peer_id_to_string (hs_peer_id h) in
    match engine_get_ticket (sv_engine s) ticket_id with
    | None => error "Ticket introuvable" s
    | Some current =>
        if negb (bool_decide (tr_client_peer_id current = local)) then
          update_remote_ticket h io ticket_id current new_state s
        else
          match update_ticket_state (ca_put (rq_first io)) (ca_now (rq_first io)) ticket_id new_state local
                  (sv_engine s) with
          | (Ok ticket, en) =>
              (RTicketUpdated (Some ticket), push_to_bootstrap h io ticket, with_service_engine s en)
          | (Err e, en) =>
              error ("Échec de mise à jour du statut: " +:+ error_text e) (with_service_engine s en)
          end
    end.

(** The peer at the other end of a ticket. *)
Definition counterpart (h : service_host) (ticket : TicketRecord) : option PeerId :=
  parse_peer_id
    (if bool_decide (tr_client_peer_id ticket = peer_id_to_string (hs_peer_id h))
     then default "" (hs_bootstrap_peer h) else tr_client_peer_id ticket).

(** The proof joined to what an operator sends. *)
Definition chat_authority (h : service_host) (ticket : TicketRecord) (session : option ActiveOperatorSession)
    (ticket_id id body : string) (now : N) : result string (option WireProof) :=
  let local := peer_id_to_string (hs_peer_id h) in
  if bool_decide (tr_client_peer_id ticket = local) then Ok None else
  let? session := ok_or session "Session opérateur inactive" in
  if negb (Capabilities_has (cert_capabilities (as_cert session)) CAP_WRITE) then
    Err "Capability WRITE requise"
  else
    let? signature := map_err (λ _, "Signature chat impossible")
      (signer_sign (Ed25519Signer_Signer (as_session_signer session))
         (Proof_signing_payload "chat" ticket_id id now (as_bytes body) local)) in
    let? proof := map_err (λ _, "Certificate serialization failed")
      (WireProof_from_certificate (as_cert session) signature) in
    Ok (Some proof).

Definition await_ack (io : request_io) (message : ChatMessage) : IpcResponse :=
  match rq_ack io with
  | Answered (Ok ack) =>
      if ack_success ack then RMessageSent message
      else RError (default "Erreur du destinataire" (ack_error ack))
  | Answered (Err e) => RError e
  | _ => RMessageSent message
  end.

Definition local_message (h : service_host) (io : request_io) (ticket_id body : string) : ChatMessage := {|
  cm_id := "MSG-" +:+ rq_uuid io; cm_ticket_id := ticket_id;
  cm_sender_peer_id := peer_id_to_string (hs_peer_id h); cm_body := body;
  cm_created_at := rq_now io; cm_delivery_state := "PENDING"
|}.

Definition send_chat_message (h : service_host) (io : request_io) (ticket_id body : string)
    (s : ServiceState) : reply_type :=
  match engine_get_ticket (sv_engine s) ticket_id with
  | None => error "Ticket introuvable" s
  | Some ticket =>
      if negb (permits_work (tr_state ticket)) then
        error "Impossible d'envoyer un message : le ticket est fermé" s
      else
        let message := local_message h io ticket_id body in
        match add_chat_message (ca_put (rq_first io)) (ca_now (rq_first io)) message (sv_engine s) with
        | (Err e, en) =>
            error ("Échec de persistance du message local: " +:+ error_text e) (with_service_engine s en)
        | (Ok _, en) =>
            let second := rq_second io in
            let '(_, en) := record_event (ca_put second) (ca_uuid second) (ca_now second) ticket_id
              "CHAT_MESSAGE_SENT" (peer_id_to_string (hs_peer_id h)) (Some (take_chars 40 body)) en in
            let s := with_service_engine s en in
            match counterpart h ticket with
            | None => (RMessageSent message, [], s)
            | Some peer =>
                if negb (hs_p2p h) then (RMessageSent message, [], s) else
                match chat_authority h ticket (sv_session s) ticket_id (cm_id message) body (rq_now io) with
                | Err e => error e s
                | Ok authority =>
                    (if rq_send io then await_ack io message else RMessageSent message,
                     send_command io (Node.SendChatMessage peer None
                       (mkChatWire (cm_id message) ticket_id body (rq_now io) authority) (rq_reply io)), s)
                end
            end
        end
  end.

(** The certificate and the key joined to a file an operator sends. *)
Definition file_authority (h : service_host) (ticket : TicketRecord) (session : option ActiveOperatorSession)
    : result string (option OperatorSessionCertificate * option Ed25519Signer) :=
  if bool_decide (tr_client_peer_id ticket = peer_id_to_string (hs_peer_id h)) then Ok (None, None) else
  let? session := ok_or session "Session opérateur inactive" in
  if negb (Capabilities_has (cert_capabilities (as_cert session)) CAP_FILE_TRANSFER) then
    Err "Capability FILE_TRANSFER requise"
  else Ok (Some (as_cert session), Some (as_session_signer session)).

Definition send_file (h : service_host) (io : request_io) (ticket_id staged_path : string)
    (s : ServiceState) : reply_type :=
  match engine_get_ticket (sv_engine s) ticket_id with
  | None => error "Ticket introuvable" s
  | Some ticket =>
      if negb (permits_work (tr_state ticket)) then
        error "Impossible d'envoyer un fichier : le ticket est fermé" s
      else
        match counterpart h ticket with
        | None => error "PeerId distant invalide" s
        | Some peer =>
            if negb (hs_p2p h) then error "Sous-système P2P indisponible" s else
            match file_authority h ticket (sv_session s) with
            | Err e => error e s
            | Ok (certificate, signer) =>
                match import_staged_upload_from (hs_storage_dir h) (rq_upload io) staged_path (sv_files s) with
                | (Err e, files) => error e (mkService (sv_engine s) (sv_session s) (sv_cancelled s) files)
                | (Ok file_path, files) =>
                    let s := mkService (sv_engine s) (sv_session s) (sv_cancelled s) files in
                    if negb (rq_send io) then error "Canal de commande P2P fermé" s else
                    (match rq_file io with
                     | Answered (Ok attachment) => RFileSent attachment
                     | Answered (Err e) => RError e
                     | Dropped => RError "Canal de réponse fichier abandonné"
                     | TimedOut => RError "Délai d'attente dépassé pour l'envoi du fichier (60s)"
                     end,
                     [Node.SendFile peer None ticket_id file_path certificate signer (rq_reply io)], s)
                end
            end
        end
  end.

(** ** The operator session *)

Definition SESSION_TTL : N := 3600.

Definition operator_capability_names : list string :=
  ["admin"; "read"; "write"; "shell"; "file"; "ticket"; "diagnostics"].

(** What the phrase must be for this genesis. *)
Definition owner_signer_of (genesis : Genesis) (mnemonic : string)
    : result string (Ed25519Signer * OwnerSegmentMasterSeed * MnemonicEntropy) :=
  let? _ := map_err (λ _, "Genesis canonique invalide") (Genesis_verify genesis) in
  let? entropy := map_err (λ _, "Phrase mnémonique invalide") (parse_mnemonic_phrase mnemonic) in
  let? root_seed := map_err (λ _, "Échec dérivation clé racine") (derive_root_signing_seed entropy) in
  let? segment_seed :=
    map_err (λ _, "Échec dérivation clé maître de segment") (derive_segment_master_seed entropy) in
  let root_signer := Ed25519Signer_from_seed (root_seed_bytes root_seed) in
  let root_public_key := signer_public_key root_signer in
  if negb (bool_decide (derive_owner_id root_public_key = gt_owner_id (gen_tbs genesis))) ||
     negb (bool_decide (root_public_key = gt_owner_root_signing_public_key (gen_tbs genesis)))
  then Err "Cette phrase mnémonique ne correspond pas au Owner de Genesis"
  else Ok (root_signer, segment_seed, entropy).

(** The session a phrase opens. *)
Definition new_session (h : service_host) (io : request_io) (genesis : Genesis) (mnemonic : string)
    : result string ActiveOperatorSession :=
  let? (root_signer, segment_seed, entropy) := owner_signer_of genesis mnemonic in
  let owner_id := derive_owner_id (signer_public_key root_signer) in
  let net_id := gt_network_id (gen_tbs genesis) in
  let host_entity := host_entity_of (hs_peer_id h) in
  let expires_at := wrapping_add_u64 (rq_now io) SESSION_TTL in
  let? session_seed := map_err (λ _, "Échec dérivation session")
    (derive_operator_session_seed entropy (rq_nonce io)) in
  let session_signer := Ed25519Signer_from_seed (session_seed_bytes session_seed) in
  let session_pubkey := signer_public_key session_signer in
  let? cert := map_err (λ _, "Échec émission certificat")
    (Certificate_issue net_id owner_id host_entity host_entity (derive_signing_key_id session_pubkey)
       session_pubkey (Capabilities_from_names operator_capability_names)
       (saturating_sub (rq_now io) 10) expires_at (rq_nonce io) (Ed25519Signer_Signer root_signer)) in
  Ok (mkSession (rq_uuid io) owner_id cert
        (workspace_unlock MemoryWorkspace_new net_id owner_id segment_seed) expires_at session_signer).

Definition unlocked_status (session : ActiveOperatorSession) : OperatorSessionStatus := {|
  Config.is_unlocked := true; os_owner_id := Some (ObjectId_to_hex (as_owner_id session));
  os_expires_at := Some (as_expires_at session);
  os_capabilities := Capabilities_to_names (cert_capabilities (as_cert session))
|}.

Definition locked_status : OperatorSessionStatus := mkOperatorStatus false None None [].

Definition unlock_operator (h : service_host) (io : request_io) (mnemonic : string) (s : ServiceState)
    : reply_type :=
  match hs_genesis h with
  | None => error "Genesis canonique indisponible; déverrouillage refusé" s
  | Some genesis =>
      match new_session h io genesis mnemonic with
      | Err e => error e s
      | Ok session =>
          (ROperatorStatus (unlocked_status session), [], with_session (revoke_session s) (Some session))
      end
  end.

Definition lock_operator (s : ServiceState) : reply_type := (RSuccess, [], revoke_session s).

Definition get_operator_status (io : request_io) (s : ServiceState) : reply_type :=
  match sv_session s with
  | Some session =>
      if (as_expires_at session <=? rq_now io)%N then (ROperatorStatus locked_status, [], revoke_session s)
      else (ROperatorStatus (unlocked_status session), [], s)
  | None => (ROperatorStatus locked_status, [], s)
  end.

(** The task that sleeps for the life of a session. *)
Definition session_timer (session_id : string) (s : ServiceState) : ServiceState :=
  match sv_session s with
  | Some session => if bool_decide (as_session_id session = session_id) then revoke_session s else s
  | None => s
  end.

Definition process_request (h : service_host) (io : request_io) (request : IpcRequest) (s : ServiceState)
    : reply_type :=
  let en := sv_engine s in
  match request with
  | GetStatus => get_status h io s
  | Config.ListPeers => list_peers h io s
  | ListTickets state_filter => (RTickets (engine_list_tickets en state_filter), [], s)
  | GetTicket ticket_id => (RTicketDetail (get_ticket_detail (en_state en) ticket_id), [], s)
  | CreateTicket title description priority => create_ticket_request h io title description priority s
  | UpdateTicketStatus ticket_id new_state => update_ticket_status h io ticket_id new_state s
  | Config.SendChatMessage ticket_id body => send_chat_message h io ticket_id body s
  | ListMessages ticket_id => (RMessages (list_messages (en_state en) ticket_id), [], s)
  | Config.SendFile ticket_id staged_path => send_file h io ticket_id staged_path s
  | ListAttachments ticket_id => (RAttachments (list_attachments (en_state en) ticket_id), [], s)
  | ListShellSessions ticket_id => (RShellSessions (list_shell_sessions (en_state en) ticket_id), [], s)
  | UnlockOperator mnemonic => unlock_operator h io mnemonic s
  | LockOperator => lock_operator s
  | GetOperatorStatus => get_operator_status io s
  end.

(** ** Connections *)

Context `{JQ : Json IpcRequest, JR : Json IpcResponse}.

(** [take(limit).read_line]: up to and with the next line feed, or the limit, or the end. *)
Fixpoint read_line (limit : nat) (input : bytes) : bytes * bytes :=
  match limit, input with
  | O, _ | _, [] => ([], input)
  | S limit, b :: input =>
      if bool_decide (b = x0a) then ([b], input)
      else let '(line, rest) := read_line limit input in (b :: line, rest)
  end.

Definition line_feed : bytes := [x0a].

Definition too_long : IpcResponse := RError "Request exceeds maximum size limit (64 KB)".
Definition malformed : IpcResponse := RError "Malformed IPC request".

(** How a connection ended, what was written and which commands were given to the node. *)
Record client_end := mkClientEnd {
  ce_error : bool;
  ce_written : list IpcResponse;
  ce_commands : list P2pCommand;
  ce_state : ServiceState
}.

(** The answer to one line, if it asks for one; [read_line] has checked that the line is UTF-8. *)
Definition answer_line (h : service_host) (io : request_io) (line : string) (s : ServiceState)
    : option reply_type :=
  let trimmed := trim line in
  if bool_decide (trimmed = "") then None else
  Some match json_from_str (T := IpcRequest) trimmed with
       | Some request => process_request h io request s
       | None => (malformed, [], s)
       end.

(** The loop of [handle_client] over all the bytes a client sends; the [k]-th line runs under
    [ios k], and a write works as long as [up] says. *)
Fixpoint handle_client (fuel : nat) (h : service_host) (ios : nat → request_io) (up : nat → bool) (k : nat)
    (input : bytes) (s : ServiceState) : option client_end :=
  match fuel with
  | O => None
  | S fuel =>
      let '(line, rest) := read_line (S MAX_IPC_LINE_BYTES) input in
      match to_str line with
      | None => Some (mkClientEnd true [] [] s)
      | Some text =>
          if bool_decide (line = []) then Some (mkClientEnd false [] [] s) else
          if (MAX_IPC_LINE_BYTES <? length line)%nat then
            Some match json_to_vec too_long with
                 | Some _ => mkClientEnd (negb (up k)) (if up k then [too_long] else []) [] s
                 | None => mkClientEnd true [] [] s
                 end
          else
            match answer_line h (ios k) text s with
            | None => handle_client fuel h ios up (S k) rest s
            | Some (response, commands, s) =>
                if bool_decide (is_Some (json_to_vec response)) && up k then
                  e ← handle_client fuel h ios up (S k) rest s;
                  Some (mkClientEnd (ce_error e) (response :: ce_written e)
                          (commands ++ ce_commands e)%list (ce_state e))
                else Some (mkClientEnd true [] commands s)
            end
      end
  end.

(** ** Terminals *)

Context `{JI : Json TerminalSessionInit}.

(** What became of a terminal connection before its frames are bridged. *)
Inductive terminal_outcome :=
| TerminalClosed
| TerminalError (message : string)
| TerminalBridged (init : TerminalSessionInit) (token : string).

(** The first line of a terminal client; it is read without a limit. *)
Definition read_init (input : bytes) : option (option string) :=
  match to_str (read_line (S (length input)) input).1 with
  | None => None
  | Some text => Some (if bool_decide (text = "") then None else Some text)
  end.

(** Every check of [handle_terminal_client] up to the command for the node. *)
Definition terminal_command (h : service_host) (now : N) (reply : Sender) (text : string)
    (s : ServiceState) : result string (TerminalSessionInit * P2pCommand * ActiveOperatorSession) :=
  let? init := ok_or (json_from_str (T := TerminalSessionInit) (trim text)) "JSON handshake invalide" in
  let? target_peer := ok_or (parse_peer_id (tsi_peer init)) "PeerId invalide" in
  if bool_decide (target_peer = hs_peer_id h) then Err "Cannot open terminal session to local node" else
  if negb (hs_p2p h) then Err "Sous-système P2P indisponible" else
  match tsi_ticket_id init with
  | Some ticket_id =>
      if bool_decide (trim ticket_id = "") then Err "Ticket requis pour shell/next" else
      let? _ := ok_or (engine_get_ticket (sv_engine s) ticket_id) "Ticket introuvable" in
      let? session := ok_or (sv_session s) "Operator session inactive" in
      Ok (init, OpenShellNext target_peer (tsi_dial init ≫= parse_multiaddr)
        (mkPendingShell ticket_id (as_cert session) (as_session_signer session) reply), session)
  | None => Err "Ticket requis pour shell/next"
  end.

(** The answer of the node, unless the session ends first. *)
Inductive opened_shell := ShellCancelled | ShellReply (r : awaited (result string unit)).

Definition handle_terminal_client (h : service_host) (io : request_io) (opened : opened_shell)
    (input : bytes) (s : ServiceState) : terminal_outcome * list P2pCommand * ServiceState :=
  let '(authorized, s) := is_operator_authorized (rq_now io) s in
  if negb authorized then
    (TerminalError "Terminal IPC is only permitted in Operator mode or with an active Operator session", [], s)
  else
    match read_init input with
    | None => (TerminalClosed, [], s)
    | Some None => (TerminalClosed, [], s)
    | Some (Some text) =>
        match terminal_command h (rq_now io) (rq_reply io) text s with
        | Err e => (TerminalError e, [], s)
        | Ok (init, command, session) =>
            if negb (rq_send io) then (TerminalError "Canal de commande P2P fermé", [], s) else
            (match opened with
             | ShellCancelled => TerminalError "La session opérateur a été verrouillée ou a expiré"
             | ShellReply (Answered (Ok _)) => TerminalBridged init (as_session_id session)
             | ShellReply (Answered (Err e)) => TerminalError e
             | ShellReply _ => TerminalError "Délai dépassé ou canal P2P abandonné"
             end, [command], s)
        end
    end.

(** One direction of the bridge: frame after frame, until the end or an error. *)
Fixpoint forward (fuel : nat) (r : reader) (w : writer) : reader * writer :=
  match fuel with
  | O => (r, w)
  | S fuel =>
      match ShellFrame_read_from r with
      | (Ok (Some frame), r) =>
          match ShellFrame_write_to frame w with
          | (Ok _, w) => forward fuel r w
          | (Err _, w) => (r, w)
          end
      | (_, r) => (r, w)
      end
  end.

(** The direction towards the shell begins with the size of the terminal. *)
Definition forward_in (init : TerminalSessionInit) (r : reader) (w : writer) : reader * writer :=
  forward (S (length (rd_data r))) r
    (ShellFrame_write_to (Resize (tsi_cols init) (tsi_rows init)) w).2.
End service.

(** ** Lines *)

Lemma read_line_length limit : ∀ input line rest,
  read_line limit input = (line, rest) → input = (line ++ rest)%list ∧ (length line ≤ limit)%nat.
Proof.
  induction limit as [|limit IH]; intros input line rest; [simpl; intros [= <- <-]; split; [done|simpl; lia]|].
  destruct input as [|b input]; simpl; [intros [= <- <-]; simpl; split; [done|lia]|].
  case_bool_decide; [intros [= <- <-]; simpl; split; [done|lia]|].
  destruct (read_line limit input) as [l r] eqn:E. intros [= <- <-].
  destruct (IH _ _ _ E) as [-> ?]. simpl. split; [done|lia].
Qed.

Lemma read_line_nil limit input line rest :
  read_line (S limit) input = (line, rest) → line = [] → input = [].
Proof.
  destruct input as [|b input]; [done|]. simpl. case_bool_decide; [intros [= <- <-]; done|].
  destruct (read_line limit input). by intros [= <- <-].
Qed.

Lemma read_line_app limit text rest :
  x0a ∉ text → (length text < limit)%nat →
  read_line limit (text ++ line_feed ++ rest) = ((text ++ line_feed)%list, rest).
Proof.
  revert limit. induction text as [|b text IH]; intros limit Hn Hl; (destruct limit as [|limit]; [simpl in Hl; lia|]);
    simpl; [done|].
  rewrite bool_decide_eq_false_2 by set_solver. rewrite IH; [done|set_solver|simpl in Hl; lia].
Qed.

Section service_properties.
Context `{CC : Crypto, CL : !CryptoLaws, HX : Hex, BC : BodyCodec, BL : !BodyCodecLaws, OC : ObjectCodec}.
Context `{SHA : Sha256, HK : Hkdf, UU : Uuid, UL : !UuidLaws}.
Context `{LP : Libp2p, LL : !Libp2pLaws, CB : Cbor OperatorSessionCertificate, ET : ErrorText}.
Context `{JQ : Json IpcRequest, JR : Json IpcResponse, JI : Json TerminalSessionInit}.
Context {St : Type} `{OS : !ObjectStore St, OL : !ObjectStoreLaws St}.
Implicit Types (s : ServiceState (St := St)) (h : service_host).

(** ** Connections *)

(** The lines of a client, one after the other. *)
Fixpoint serve_lines h (ios : nat → request_io) (k : nat) (lines : list bytes) s
    : list IpcResponse * list P2pCommand * ServiceState :=
  match lines with
  | [] => ([], [], s)
  | line :: lines =>
      match answer_line h (ios k) (from_bytes line) s with
      | None => serve_lines h ios (S k) lines s
      | Some (response, commands, s) =>
          let '(responses, commands', s) := serve_lines h ios (S k) lines s in
          (response :: responses, commands ++ commands', s)%list
      end
  end.

(** A line as a client writes it: text without a line feed, within the limit. *)
Definition good_line (text : bytes) : Prop :=
  (x0a ∉ text) ∧ (length text < MAX_IPC_LINE_BYTES)%nat ∧ utf8_valid (text ++ line_feed)%list = true.

Lemma handle_client_total h ios up : ∀ fuel k input s,
  (length input < fuel)%nat → is_Some (handle_client fuel h ios up k input s).
Proof.
  induction fuel as [|fuel IH]; intros k input s Hf; [lia|]. cbn [handle_client].
  destruct (read_line (S MAX_IPC_LINE_BYTES) input) as [line rest] eqn:E.
  destruct (to_str line) as [text|]; [|eauto]. case_bool_decide as Hl; [eauto|].
  destruct (_ <? _)%nat; [eauto|].
  assert (length rest < fuel)%nat as Hr.
  { apply read_line_length in E as [-> _]. rewrite length_app in Hf. destruct line; [done|simpl in Hf; lia]. }
  destruct (answer_line h (ios k) text s) as [[[response commands] s1]|]; [|by apply IH].
  destruct (_ && _); [|eauto]. destruct (IH (S k) rest s1 Hr) as [e ->]. simpl. eauto.
Qed.

Lemma handle_client_lines h ios up : ∀ texts k s fuel,
  Forall good_line texts → (∀ k, up k = true) → (∀ r, is_Some (json_to_vec (T := IpcResponse) r)) →
  (length (concat ((λ t, t ++ line_feed)%list <$> texts)) < fuel)%nat →
  handle_client fuel h ios up k (concat ((λ t, t ++ line_feed)%list <$> texts)) s =
    let '(responses, commands, s') := serve_lines h ios k ((λ t, t ++ line_feed)%list <$> texts) s in
    Some (mkClientEnd false responses commands s').
Proof.
  induction texts as [|t texts IH]; intros k s fuel Ht Hup Hj Hf; (destruct fuel as [|fuel]; [simpl in Hf; lia|]).
  { done. }
  apply Forall_cons in Ht as [(Hn & Hl & Hu) Ht]. cbn [fmap list_fmap concat] in *.
  rewrite <- app_assoc in *. rewrite !length_app in Hf. cbn [handle_client serve_lines].
  rewrite read_line_app by (done || lia). unfold to_str. rewrite Hu. cbv iota.
  rewrite bool_decide_eq_false_2 by (by destruct t).
  assert ((MAX_IPC_LINE_BYTES <? length (t ++ line_feed))%nat = false) as ->
    by (apply Nat.ltb_ge; rewrite length_app; simpl; lia).
  destruct (answer_line h (ios k) _ s) as [[[response commands] s1]|].
  - rewrite bool_decide_eq_true_2, Hup by done. cbn [andb]. rewrite IH by (done || (simpl in Hf; lia)).
    by destruct (serve_lines _ _ _ _ _) as [[? ?] ?].
  - apply IH; (done || (simpl in Hf; lia)).
Qed.

(** C26. The local interface answers a connection line by line. Whatever the bytes, the loop
    ends. Lines within the limit are answered one by one and in order, blank lines
    apart, each request running on the state the last one left. A line over the limit is
    answered with an error, and neither it nor anything after it is run. *)
Theorem client_lines_answered h ios up s :
  (∀ input, is_Some (handle_client (S (length input)) h ios up 0 input s)) ∧
  ((∀ k, up k = true) → (∀ r, is_Some (json_to_vec (T := IpcResponse) r)) →
   (∀ texts, Forall good_line texts →
      let input := concat ((λ t, t ++ line_feed)%list <$> texts) in
      handle_client (S (length input)) h ios up 0 input s =
        let '(responses, commands, s') := serve_lines h ios 0 ((λ t, t ++ line_feed)%list <$> texts) s in
        Some (mkClientEnd false responses commands s')) ∧
   (∀ text rest, x0a ∉ text → (length text = S MAX_IPC_LINE_BYTES)%nat → utf8_valid text = true →
      handle_client (S (length (text ++ rest)%list)) h ios up 0 (text ++ rest)%list s =
        Some (mkClientEnd false [too_long] [] s))).
Proof.
  split; [intros; apply handle_client_total; lia|]. intros Hup Hj. split.
  - intros texts Ht input. apply handle_client_lines; try done. unfold input. lia.
  - intros text rest Hn Hl Hu. cbn [handle_client].
    assert (∀ l limit, x0a ∉ l → length l = limit → read_line limit (l ++ rest) = (l, rest)) as Hr.
    { induction l as [|b l IH]; intros limit Hb <-; [done|]. simpl.
      rewrite bool_decide_eq_false_2 by set_solver. rewrite IH by (done || set_solver). done. }
    rewrite Hr by done. unfold to_str. rewrite Hu. cbv iota.
    rewrite bool_decide_eq_false_2 by (by intros ->).
    assert ((MAX_IPC_LINE_BYTES <? length text)%nat = true) as -> by (apply Nat.ltb_lt; lia).
    destruct (Hj too_long) as [l ->]. by rewrite Hup.
Qed.

(** ** The operator session *)

(** What happens to the session: a request, a timer, a terminal. *)
Inductive service_event :=
| SvRequest (io : request_io) (request : IpcRequest)
| SvTimer (session_id : string)
| SvTerminal (io : request_io) (opened : opened_shell) (input : bytes).

Definition service_step h (event : service_event) s : ServiceState :=
  match event with
  | SvRequest io request => (process_request h io request s).2
  | SvTimer session_id => session_timer session_id s
  | SvTerminal io opened input => (handle_terminal_client h io opened input s).2
  end.

(** The session an event opens. *)
Definition opens h (event : service_event) : option ActiveOperatorSession :=
  match event with
  | SvRequest io (UnlockOperator mnemonic) =>
      match hs_genesis h with
      | Some genesis => match new_session h io genesis mnemonic with Ok session => Some session | Err _ => None end
      | None => None
      end
  | _ => None
  end.

Definition tokens s : list string :=
  (match sv_session s with Some session => [as_session_id session] | None => [] end ++ sv_cancelled s)%list.

(** What an event leaves of the session and the cancelled tokens. *)
Inductive session_change s s' : Prop :=
| change_none : sv_session s' = sv_session s → sv_cancelled s' = sv_cancelled s → session_change s s'
| change_ended session : sv_session s = Some session → sv_session s' = None →
    sv_cancelled s' = as_session_id session :: sv_cancelled s → session_change s s'.

Lemma revoke_session_change s : session_change s (revoke_session s).
Proof.
  destruct s as [en [session|] c f]; [by eapply change_ended|by apply change_none].
Qed.

Lemma authorized_change now required s :
  let '(ok, s') := is_operator_authorized_for now required s in
  session_change s s' ∧ sv_engine s' = sv_engine s ∧ (ok = true → s' = s).
Proof.
  unfold is_operator_authorized_for. destruct (sv_session s) as [session|] eqn:Hs;
    [|split; [by apply change_none|done]].
  destruct (_ && _); [split; [by apply change_none|done]|].
  destruct (_ <=? _)%N; [|split; [by apply change_none|done]].
  split; [apply revoke_session_change|]. unfold revoke_session. by rewrite Hs.
Qed.

(** A request other than the unlocking at most ends the session. *)
Lemma request_change h io request s :
  (∀ mnemonic, request ≠ UnlockOperator mnemonic) → session_change s (process_request h io request s).2.
Proof.
  intros Hu. destruct request as [| |f|t|ti d p|t st|t b|t|t p|t|t|m| |]; simpl;
    try (by apply change_none).
  - unfold get_status. pose proof (authorized_change (rq_now io) CAP_SHELL_EXEC s) as H.
    unfold is_operator_authorized. destruct (is_operator_authorized_for _ _ _) as [ok s1]. exact (proj1 H).
  - unfold list_peers. repeat (case_match; try (by apply change_none)).
  - unfold create_ticket_request. destruct (create_ticket _ _ _ _ _ _ _ _) as [[r|e] en]; by apply change_none.
  - unfold update_ticket_status. pose proof (authorized_change (rq_now io) CAP_TICKET_MANAGE s) as H.
    destruct (is_operator_authorized_for _ _ _) as [[|] s1]; [|exact (proj1 H)].
    assert (s1 = s) as -> by (by apply H). cbn [negb].
    destruct (engine_get_ticket _ _) as [current|]; [|by apply change_none].
    destruct (negb _).
    + unfold update_remote_ticket. repeat (case_match; try (by apply change_none)).
    + destruct (update_ticket_state _ _ _ _ _ _) as [[r|e] en]; by apply change_none.
  - unfold send_chat_message. destruct (engine_get_ticket _ _) as [ticket|]; [|by apply change_none].
    destruct (negb _); [by apply change_none|].
    destruct (add_chat_message _ _ _ _) as [[u|e] en]; [|by apply change_none].
    destruct (record_event _ _ _ _ _ _ _ _) as [r en2]. destruct (counterpart h ticket); [|by apply change_none].
    destruct (negb _); [by apply change_none|]. destruct (chat_authority _ _ _ _ _ _ _); by apply change_none.
  - unfold send_file. destruct (engine_get_ticket _ _) as [ticket|]; [|by apply change_none].
    destruct (negb _); [by apply change_none|]. destruct (counterpart h ticket); [|by apply change_none].
    destruct (negb _); [by apply change_none|]. destruct (file_authority _ _ _) as [[c k]|]; [|by apply change_none].
    destruct (import_staged_upload_from _ _ _ _) as [[q|e] files]; [|by apply change_none].
    destruct (negb _); by apply change_none.
  - by destruct (Hu m).
  - apply revoke_session_change.
  - unfold get_operator_status. destruct (sv_session s); [|by apply change_none].
    destruct (_ <=? _)%N; [apply revoke_session_change|by apply change_none].
Qed.

Lemma terminal_change h io opened input s :
  session_change s (handle_terminal_client h io opened input s).2.
Proof.
  unfold handle_terminal_client, is_operator_authorized.
  pose proof (authorized_change (rq_now io) CAP_SHELL_EXEC s) as H.
  destruct (is_operator_authorized_for _ _ _) as [[|] s1]; [|exact (proj1 H)].
  assert (s1 = s) as -> by (by apply H). cbn [negb].
  repeat (case_match; try (by apply change_none)).
Qed.

Lemma step_session h event s :
  match opens h event with
  | Some session => sv_session (service_step h event s) = Some session ∧
      sv_cancelled (service_step h event s) = tokens s
  | None => session_change s (service_step h event s)
  end.
Proof.
  destruct event as [io request|session_id|io opened input]; simpl.
  - destruct request; try (by apply request_change). simpl. unfold unlock_operator.
    destruct (hs_genesis h) as [genesis|]; [|by apply change_none].
    destruct (new_session _ _ _ _) as [session|e]; [|by apply change_none]. split; [done|].
    destruct s as [en [old|] c f]; done.
  - unfold session_timer. destruct (sv_session s); [|by apply change_none].
    case_bool_decide; [apply revoke_session_change|by apply change_none].
  - apply terminal_change.
Qed.

Definition run_service h (events : list service_event) s : ServiceState :=
  foldl (λ s event, service_step h event s) s events.

(** The clock of the events that look whether the session is still valid. *)
Definition checked_at (event : service_event) : option N :=
  match event with
  | SvRequest io (GetStatus | UpdateTicketStatus _ _ | GetOperatorStatus) | SvTerminal io _ _ => Some (rq_now io)
  | _ => None
  end.

(** An event that leaves a session there. *)
Record keeps h (session : ActiveOperatorSession) (event : service_event) : Prop := {
  kp_opens : opens h event = None;
  kp_timer : event ≠ SvTimer (as_session_id session);
  kp_lock io : event ≠ SvRequest io LockOperator;
  kp_valid now : checked_at event = Some now → (now < as_expires_at session)%N
}.

Lemma revoke_session_none s : sv_session (revoke_session s) = None.
Proof. unfold revoke_session. by destruct (sv_session s) eqn:E. Qed.

Lemma authorized_expired now required s session :
  sv_session s = Some session → (as_expires_at session ≤ now)%N →
  is_operator_authorized_for now required s = (false, revoke_session s).
Proof.
  intros Hs He. unfold is_operator_authorized_for. rewrite Hs.
  assert ((now <? as_expires_at session)%N = false) as -> by (by apply N.ltb_ge).
  by apply N.leb_le in He as ->.
Qed.

Lemma step_keeps h event s session :
  opens h event = None → sv_session s = Some session →
  sv_session (service_step h event s) = Some session → keeps h session event.
Proof.
  intros Ho Hs Hs'. split; [done|..].
  - intros ->. simpl in Hs'. unfold session_timer in Hs'. rewrite Hs in Hs'.
    rewrite bool_decide_eq_true_2, revoke_session_none in Hs' by done. done.
  - intros io ->. simpl in Hs'. by rewrite revoke_session_none in Hs'.
  - intros now Hc. apply N.nle_gt. intros He.
    destruct event as [io [| |f|t|ti d p|t st|t b|t|t p|t|t|m| |]|i|io opened input]; simpl in Hc; try done;
      injection Hc as <-; simpl in Hs'.
    + unfold get_status, is_operator_authorized in Hs'.
      rewrite (authorized_expired _ _ _ _ Hs He) in Hs'. simpl in Hs'. by rewrite revoke_session_none in Hs'.
    + unfold update_ticket_status in Hs'. rewrite (authorized_expired _ _ _ _ Hs He) in Hs'. simpl in Hs'.
      by rewrite revoke_session_none in Hs'.
    + unfold get_operator_status in Hs'. rewrite Hs in Hs'. apply N.leb_le in He. rewrite He in Hs'. simpl in Hs'.
      by rewrite revoke_session_none in Hs'.
    + unfold handle_terminal_client, is_operator_authorized in Hs'.
      rewrite (authorized_expired _ _ _ _ Hs He) in Hs'. simpl in Hs'. by rewrite revoke_session_none in Hs'.
Qed.

Lemma session_change_tokens s s' : session_change s s' → tokens s' = tokens s.
Proof. unfold tokens. intros [-> ->|session -> -> ->]; done. Qed.

(** C23. Over any sequence of requests, terminals and timers: the session there is was opened
    by the last unlocking that succeeded, and since then nothing locked it, its timer
    did not end, and whatever looked at it found it unexpired; and of all the sessions
    ever opened, the tokens of all but this one are cancelled, each exactly once. *)
Theorem operator_session_traced h events s :
  sv_session s = None → sv_cancelled s = [] →
  let s' := run_service h events s in
  (∀ session, sv_session s' = Some session →
     ∃ before event after, events = (before ++ event :: after)%list ∧ opens h event = Some session ∧
       Forall (keeps h session) after) ∧
  tokens s' = rev (as_session_id <$> omap (opens h) events).
Proof.
  intros Hn Hc. induction events as [|event events IH] using rev_ind; simpl.
  { unfold tokens. rewrite Hn, Hc. by split; [congruence|]. }
  unfold run_service in *. rewrite foldl_app, omap_app, fmap_app. simpl.
  set (s1 := foldl _ s events) in *. destruct IH as [IH Ht].
  pose proof (step_session h event s1) as Hstep. destruct (opens h event) as [opened|] eqn:Ho.
  - destruct Hstep as [Hs Hcan]. split.
    + intros session. rewrite Hs. intros [= <-]. exists events, event, []. done.
    + unfold tokens at 1. rewrite Hs, Hcan, Ht. simpl. by rewrite rev_app_distr.
  - split.
    + intros session Hs. assert (sv_session s1 = Some session) as Hs1.
      { destruct Hstep as [E _|old _ E _]; congruence. }
      destruct (IH session Hs1) as (before & ev & after & -> & Hev & Hk).
      exists before, ev, (after ++ [event])%list. rewrite <- app_assoc. split; [done|]. split; [done|].
      apply Forall_app. split; [done|]. apply Forall_singleton. by apply (step_keeps h event s1).
    + simpl. rewrite app_nil_r, (session_change_tokens _ _ Hstep). exact Ht.
Qed.

Lemma operator_capabilities_value : Capabilities_from_names operator_capability_names = mkCaps 63.
Proof. vm_compute. reflexivity. Qed.

(** What the owner's check establishes. *)
Lemma owner_signer_of_Ok genesis mnemonic signer seed entropy :
  owner_signer_of genesis mnemonic = Ok (signer, seed, entropy) →
  Genesis_verify genesis = Ok tt ∧ signer_wf signer ∧
  signer_public_key signer = gt_owner_root_signing_public_key (gen_tbs genesis) ∧
  derive_owner_id (signer_public_key signer) = gt_owner_id (gen_tbs genesis) ∧
  AuthorityContext_from_genesis genesis = Ok (mkAuthority (gt_network_id (gen_tbs genesis))
    (gt_owner_id (gen_tbs genesis)) (mkEd25519Verifier (pk (signer_public_key signer)) (signer_public_key signer))).
Proof.
  unfold owner_signer_of. destruct (Genesis_verify genesis) as [[]|] eqn:Hg; [|done]. cbn [map_err].
  destruct (parse_mnemonic_phrase mnemonic) as [e|]; [|done]. cbn [map_err].
  destruct (derive_root_signing_seed e) as [r|]; [|done]. cbn [map_err].
  destruct (derive_segment_master_seed e) as [sg|]; [|done]. cbn [map_err].
  destruct (_ || _) eqn:Hb; [done|]. intros [= <- <- <-].
  apply orb_false_iff in Hb as [Ho Hk]. rewrite negb_false_iff, bool_decide_eq_true in Ho, Hk.
  set (signer := Ed25519Signer_from_seed (root_seed_bytes r)) in *.
  split; [done|]. split; [exact (signer_wf_from_bytes _)|]. split; [done|]. split; [done|].
  unfold AuthorityContext_from_genesis. rewrite <- Hk.
  destruct (verify_sign_domain signer [] [] (signer_wf_from_bytes _)) as (v & Hv & _).
  unfold Ed25519Verifier_from_public_key in *. destruct (ed25519_key_valid _); [done|done].
Qed.

(** What a new session carries. *)
Lemma new_session_Ok h io genesis mnemonic session :
  new_session h io genesis mnemonic = Ok session →
  ∃ signer seed entropy signature, owner_signer_of genesis mnemonic = Ok (signer, seed, entropy) ∧
    signer_wf (as_session_signer session) ∧
    as_expires_at session = wrapping_add_u64 (rq_now io) SESSION_TTL ∧
    as_owner_id session = derive_owner_id (signer_public_key signer) ∧
    as_cert session = mkCert (gt_network_id (gen_tbs genesis)) (derive_owner_id (signer_public_key signer))
      (host_entity_of (hs_peer_id h))
      (derive_signing_key_id (signer_public_key (as_session_signer session)))
      (signer_public_key (as_session_signer session)) (mkCaps 63)
      (saturating_sub (rq_now io) 10) (wrapping_add_u64 (rq_now io) SESSION_TTL) signature ∧
    Certificate_issue (gt_network_id (gen_tbs genesis)) (derive_owner_id (signer_public_key signer))
      (host_entity_of (hs_peer_id h)) (host_entity_of (hs_peer_id h))
      (derive_signing_key_id (signer_public_key (as_session_signer session)))
      (signer_public_key (as_session_signer session)) (mkCaps 63)
      (saturating_sub (rq_now io) 10) (wrapping_add_u64 (rq_now io) SESSION_TTL) (rq_nonce io)
      (Ed25519Signer_Signer signer) = Ok (as_cert session).
Proof.
  unfold new_session. destruct (owner_signer_of genesis mnemonic) as [[[signer seed] entropy]|]; [|done].
  destruct (derive_operator_session_seed entropy (rq_nonce io)) as [sk|]; [|done]. cbn [map_err].
  rewrite operator_capabilities_value. unfold Certificate_issue. cbn [signer_sign_domain Ed25519Signer_Signer map_err].
  intros [= <-]. exists signer, seed, entropy. eexists. split; [done|].
  split; [exact (signer_wf_from_bytes _)|]. repeat split.
Qed.

Lemma operator_capabilities_granted capability :
  capability ∈ [CAP_READ; CAP_WRITE; CAP_SHELL_EXEC; CAP_FILE_TRANSFER; CAP_TICKET_MANAGE; CAP_DIAGNOSTICS] →
  Capabilities_has (mkCaps 63) capability = true.
Proof. rewrite !elem_of_cons, elem_of_nil. intros H. by repeat destruct H as [->|H]. Qed.

(** A session's certificate, for the nodes that hold its genesis. *)
Lemma session_certificate_verifies h io genesis mnemonic session :
  new_session h io genesis mnemonic = Ok session → (rq_now io + SESSION_TTL < u64_modulus)%N →
  ∃ ctx, AuthorityContext_from_genesis genesis = Ok ctx ∧
    ac_network_id ctx = gt_network_id (gen_tbs genesis) ∧ as_owner_id session = ac_owner_id ctx ∧
    as_expires_at session = (rq_now io + SESSION_TTL)%N ∧
    cert_network_id (as_cert session) = ac_network_id ctx ∧
    signer_public_key (as_session_signer session) = cert_session_pubkey (as_cert session) ∧
    signer_wf (as_session_signer session) ∧
    ∀ peer capability now, Capabilities_has (mkCaps 63) capability = true →
      (verify_certificate ctx peer (as_cert session) capability now = true ↔
       host_entity_of peer = host_entity_of (hs_peer_id h) ∧ (now < rq_now io + SESSION_TTL)%N).
Proof.
  intros Hn Hlt. destruct (new_session_Ok _ _ _ _ _ Hn)
    as (signer & seed & entropy & sg & Ho & Hwf & He & Hid & Hcert & Hissue).
  destruct (owner_signer_of_Ok _ _ _ _ _ Ho) as (_ & Hsw & Hk & Hoid & Hctx).
  rewrite wrapping_add_u64_small in * by done.
  eexists. split; [exact Hctx|]. split; [done|]. split; [by rewrite Hid|]. split; [done|].
  split; [by rewrite Hcert|]. split; [by rewrite Hcert|]. split; [done|].
  intros peer capability now Hcap. rewrite verify_certificate_iff.
  assert (Certificate_verify (as_cert session)
    (mkEd25519Verifier (pk (signer_public_key signer)) (signer_public_key signer)) now =
    if (rq_now io + SESSION_TTL <=? now)%N then Err CertExpired else Ok tt) as Hv.
  { eapply issued_verifies; [exact Hsw|exact Hissue|].
    destruct (verify_sign_domain signer [] [] Hsw) as (v & Hv & _).
    unfold Ed25519Verifier_from_public_key in *. by destruct (ed25519_key_valid _). }
  cbn [ac_owner_verifier ac_network_id ac_owner_id]. rewrite Hv. rewrite Hcert.
  cbn [cert_network_id cert_owner_id cert_host_entity cert_operator_key_id cert_session_pubkey cert_capabilities].
  rewrite Hoid. destruct (N.leb_spec (rq_now io + SESSION_TTL) now) as [Hl|Hl].
  - split; [intros (_&_&_&_&_&?); done|intros [_ ?]; lia].
  - split; [intros (_&_&E&_); by split|intros [E _]; by repeat split].
Qed.

(** C24. Unlocking. It succeeds exactly when the node has a genesis that verifies and the
    phrase parses to the entropy of its owner's root key; else nothing changes. The
    session it opens ends after an hour, and its certificate is one that every node with
    this genesis accepts, from this host only, for each operator capability, until that
    very time. The phrase of an owner opens a session on the genesis it signed. *)
Theorem unlock_correct h io genesis mnemonic s (HKL : HkdfLaws) :
  hs_genesis h = Some genesis → (rq_now io + SESSION_TTL < u64_modulus)%N →
  (is_ok (new_session h io genesis mnemonic) = is_ok (owner_signer_of genesis mnemonic)) ∧
  match new_session h io genesis mnemonic with
  | Err e => process_request h io (UnlockOperator mnemonic) s = (RError e, [], s)
  | Ok session =>
      process_request h io (UnlockOperator mnemonic) s =
        (ROperatorStatus (unlocked_status session), [], with_session (revoke_session s) (Some session)) ∧
      ∃ ctx, AuthorityContext_from_genesis genesis = Ok ctx ∧ as_owner_id session = ac_owner_id ctx ∧
        as_expires_at session = (rq_now io + SESSION_TTL)%N ∧
        ∀ peer capability now,
          capability ∈ [CAP_READ; CAP_WRITE; CAP_SHELL_EXEC; CAP_FILE_TRANSFER; CAP_TICKET_MANAGE;
                        CAP_DIAGNOSTICS] →
          (verify_certificate ctx peer (as_cert session) capability now = true ↔
           host_entity_of peer = host_entity_of (hs_peer_id h) ∧ (now < rq_now io + SESSION_TTL)%N)
  end ∧
  (∀ entropy seed tbs, derive_root_signing_seed entropy = Ok seed →
     gt_owner_root_signing_public_key tbs = signer_public_key (Ed25519Signer_from_seed (root_seed_bytes seed)) →
     gt_owner_id tbs = derive_owner_id (gt_owner_root_signing_public_key tbs) →
     Genesis_create tbs (Ed25519Signer_Signer (Ed25519Signer_from_seed (root_seed_bytes seed))) = Ok genesis →
     is_ok (new_session h io genesis (entropy_to_mnemonic entropy)) = true).
Proof.
  intros Hg Hlt.
  assert (∀ m, is_ok (new_session h io genesis m) = is_ok (owner_signer_of genesis m)) as Hok.
  { intros m. unfold new_session. destruct (owner_signer_of genesis m) as [[[signer seed] entropy]|]; [|done].
    unfold derive_operator_session_seed, expand_seed.
    destruct (hkdf_expand_ok MNEMONIC_KDF_SALT (vec_to_list (entropy_bytes entropy))
      (OPERATOR_SESSION_INFO ++ vec_to_list (rq_nonce io))%list) as [okm ->]. done. }
  split; [apply Hok|]. split.
  - destruct (new_session h io genesis mnemonic) as [session|e] eqn:Hn; simpl; unfold unlock_operator;
      rewrite Hg, Hn; [|done]. split; [done|].
    destruct (session_certificate_verifies _ _ _ _ _ Hn Hlt) as (ctx & Hc & _ & Ho & He & _ & _ & _ & Hv).
    exists ctx. do 3 (split; [done|]). intros peer capability now Hcap.
    apply Hv, operator_capabilities_granted, Hcap.
  - intros entropy seed tbs Hs Hk Ho Hcreate. rewrite Hok. unfold owner_signer_of.
    destruct (Genesis_create_verify tbs (Ed25519Signer_from_seed (root_seed_bytes seed))
      (signer_wf_from_bytes _) Hk) as (g & Hc & Ht & Hver).
    assert (g = genesis) as -> by congruence. rewrite Hver. cbn [map_err]. rewrite parse_encoded. cbn [map_err].
    rewrite Hs. cbn [map_err]. unfold derive_segment_master_seed, expand_seed.
    destruct (hkdf_expand_ok MNEMONIC_KDF_SALT (vec_to_list (entropy_bytes entropy)) SEGMENT_MASTER_INFO)
      as [okm ->]. cbn [ok_or map_err]. rewrite Ht, Ho, Hk.
    by rewrite !bool_decide_eq_true_2.
Qed.

(** C25. The signed change an operator asks for on a ticket of another node is one that node
    authorizes: if the session was opened on the genesis that node holds, has not
    expired there, and the two nodes agree on the revision of the ticket. What is sent
    is the change asked for, and nothing is changed here. *)
Theorem remote_change_authorized h io0 io genesis mnemonic session ticket ticket_id new_state s ctx remote now :
  new_session h io0 genesis mnemonic = Ok session → (rq_now io0 + SESSION_TTL < u64_modulus)%N →
  hs_genesis h = Some genesis → AuthorityContext_from_genesis genesis = Ok ctx →
  hs_p2p h = true → rq_send io = true → sv_session s = Some session →
  (rq_now io < as_expires_at session)%N → (now < as_expires_at session)%N →
  engine_get_ticket (sv_engine s) ticket_id = Some ticket →
  tr_client_peer_id ticket ≠ peer_id_to_string (hs_peer_id h) →
  parse_peer_id (tr_client_peer_id ticket) = Some remote →
  ∃ mutation,
    process_request h io (UpdateTicketStatus ticket_id new_state) s =
      (await_mutation io, [SyncTickets remote None (UpdateStatusSigned mutation) (rq_reply io)], s) ∧
    mu_ticket_id mutation = ticket_id ∧ mu_new_state mutation = new_state ∧
    ∀ theirs, tr_client_peer_id theirs = tr_client_peer_id ticket → tr_revision theirs = tr_revision ticket →
      mutation_authorized (tr_client_peer_id ticket) (Some ctx) (hs_peer_id h) mutation now theirs = true.
Proof.
  intros Hn Hlt Hg Hctx Hp Hsend Hs Hnow Hthen Hget Hne Hparse.
  destruct (session_certificate_verifies _ _ _ _ _ Hn Hlt)
    as (ctx' & Hc & Hnet & Ho & He & Hcn & Hkey & Hwf & Hv).
  assert (ctx' = ctx) as -> by congruence.
  destruct (new_session_Ok _ _ _ _ _ Hn) as (? & ? & ? & ? & _ & _ & _ & _ & Hcert & _).
  assert (is_operator_authorized_for (rq_now io) CAP_TICKET_MANAGE s = (true, s)) as Hauth.
  { unfold is_operator_authorized_for. rewrite Hs. apply N.ltb_lt in Hnow as ->. by rewrite Hcert. }
  simpl. unfold update_ticket_status. rewrite Hauth. cbn [negb]. rewrite Hget, bool_decide_eq_false_2 by done.
  cbn [negb]. unfold update_remote_ticket. rewrite Hparse, Hp, Hs, Hg. cbn [negb].
  unfold make_mutation. cbn [signer_sign Ed25519Signer_Signer]. rewrite Hsend. cbn [negb].
  eexists. split; [done|]. split; [done|]. split; [done|].
  intros theirs Hcl Hrev. unfold mutation_authorized. rewrite !andb_true_iff.
  cbn [mu_network_id mu_operator_transport_peer_id mu_certificate mu_signature mu_expected_revision].
  rewrite !bool_decide_eq_true, N.eqb_eq. repeat split; try done.
  - apply Hv; [done|]. split; [done|]. by rewrite <- He.
  - rewrite <- Hkey. by apply session_key_signed_iff, verify_sign_trait.
Qed.

(** ** Staged files *)

(** The names of a canonical path hold no separator. *)
Definition canonical_path (p : PathBuf) : Prop :=
  ∀ name, NormalPart name ∈ p → Forall (λ b, is_sep b = false) name.

Definition private_dir (storage_dir : PathBuf) : PathBuf := path_join storage_dir (path "outbox-files").

Lemma split_once_Ok sep l x y : split_once_bytes sep l = Some (x, y) → l = (x ++ sep :: y)%list ∧ sep ∉ x.
Proof.
  revert x y. induction l as [|b l IH]; intros x y; [done|]. simpl. case_bool_decide as Hb.
  - intros [= <- <-]. split; [by subst|apply not_elem_of_nil].
  - destruct (split_once_bytes sep l) as [[x' y']|]; [|done]. simpl. intros [= <- <-].
    destruct (IH _ _ eq_refl) as [-> ?]. split; [done|]. set_solver.
Qed.

Lemma hex_digits_clean l : Forall (λ b, is_hex_lower b = true) l → Forall (λ b, is_sep b = false) l.
Proof. intros H. eapply Forall_impl; [exact H|]. apply is_hex_lower_not_sep. Qed.

Lemma upload_destination_eq storage uuid original :
  Forall (λ b, is_hex_lower b = true) (as_bytes uuid) → length (as_bytes uuid) = 32%nat →
  Forall (λ b, is_sep b = false) original →
  upload_destination storage uuid original = (private_dir storage ++ [NormalPart (upload_name uuid original)])%list.
Proof.
  intros Hu Hl Ho. unfold upload_destination. fold (private_dir storage). rewrite path_of_name; [done| |].
  - unfold upload_name. apply Forall_app. split; [by apply hex_digits_clean|].
    apply Forall_app. split; [by apply Forall_singleton|done].
  - unfold upload_name. rewrite length_app. lia.
Qed.

Lemma with_extension_last p name ext :
  with_extension (p ++ [NormalPart name])%list ext =
    (p ++ [NormalPart (file_stem name ++ as_bytes "." ++ as_bytes ext)])%list.
Proof.
  unfold with_extension, file_name. rewrite last_snoc, length_app, Nat.add_1_r. simpl pred.
  by rewrite take_app_length.
Qed.

Lemma path_parent_Some p q : path_parent p = Some q → ∃ c, p = (q ++ [c])%list ∧ c ≠ RootDir.
Proof.
  unfold path_parent. destruct (last p) as [c|] eqn:Hl; [|done].
  intros H. exists c. apply last_Some in Hl as [l ->]. destruct c; [done|..]; injection H as <-; by rewrite removelast_last.
Qed.

Lemma staged_components_Ok spool source user name :
  staged_components spool source = Ok (user, name) →
  source = (spool ++ [NormalPart user; NormalPart name])%list.
Proof.
  unfold staged_components. destruct (path_parent source) as [parent|] eqn:Hp; [|done]. cbn [ok_or].
  destruct (bool_decide _) eqn:Hb; [|done]. apply bool_decide_eq_true in Hb.
  apply path_parent_Some in Hp as (c & -> & _). apply path_parent_Some in Hb as (d & -> & _).
  unfold file_name. rewrite !last_snoc. destruct d; try done. destruct c; try done. cbn [ok_or negb].
  intros [= <- <-]. by rewrite <- app_assoc.
Qed.

Lemma staged_original_Ok source original :
  staged_original source = Ok original →
  ∃ name i, last source = Some (NormalPart name) ∧ name = (i ++ underscore :: original)%list ∧
    is_Some (parse_uuid_simple (from_bytes i)).
Proof.
  unfold staged_original, file_name. destruct (last source) as [[| | |name]|]; try done. cbn [mbind option_bind].
  unfold to_str. destruct (utf8_valid name); [|done]. cbn [ok_or]. rewrite as_from_bytes.
  destruct (split_once_bytes underscore name) as [[i o]|] eqn:Hs; [|done]. cbn [ok_or].
  destruct (parse_uuid_simple (from_bytes i)) eqn:Hu; [|done]. intros [= <-].
  apply split_once_Ok in Hs as [-> _]. eauto 7.
Qed.

(** The files a change touches are directly in a directory. *)
Definition touched_in (dir : PathBuf) (files files' : gmap PathBuf bytes) : Prop :=
  ∀ p, files' !! p ≠ files !! p → ∃ name, p = (dir ++ [NormalPart name])%list.

Lemma touched_refl dir files : touched_in dir files files.
Proof. by intros p Hp. Qed.

Lemma touched_insert dir name content files files' :
  touched_in dir files files' → touched_in dir files (<[(dir ++ [NormalPart name])%list := content]> files').
Proof.
  intros H p Hp. destruct (decide (p = (dir ++ [NormalPart name])%list)) as [->|Hn]; [eauto|].
  apply H. by rewrite lookup_insert_ne in Hp.
Qed.

Lemma touched_delete dir name files :
  touched_in dir files (delete (dir ++ [NormalPart name])%list files).
Proof.
  intros p Hp. destruct (decide (p = (dir ++ [NormalPart name])%list)) as [->|Hn]; [eauto|].
  by rewrite lookup_delete_ne in Hp.
Qed.

Lemma touched_or dir files files' (P : PathBuf → Prop) :
  touched_in dir files files' →
  ∀ p, files' !! p ≠ files !! p → (∃ name, p = (dir ++ [NormalPart name])%list) ∨ P p.
Proof. intros H p Hp. left. by apply H. Qed.

(** C27. Importing a staged file. Whatever the disk answers, only files directly in the
    private directory are touched, and the staged copy once it is imported. If the import
    succeeds, what was asked for is a file directly in a user's directory of the spool, under
    the name of a staged upload; the whole of it, within the size limit, is in the private
    directory, under a fresh identifier and its original name, and the staged copy is gone
    unless it could not be removed. *)
Theorem staged_upload_confined storage_dir io staged_path files :
  Forall (λ b, is_hex_lower b = true) (as_bytes (up_uuid io)) → length (as_bytes (up_uuid io)) = 32%nat →
  (∀ source, up_canonical_source io staged_path = Some source → canonical_path source) →
  let '(r, files') := import_staged_upload_from storage_dir io staged_path files in
  (∀ p, files' !! p ≠ files !! p →
     (∃ name, p = (private_dir storage_dir ++ [NormalPart name])%list) ∨ is_ok r = true ∧ up_canonical_source io staged_path = Some p) ∧
  (∀ destination, r = Ok destination →
    ∃ spool user i original content,
      up_canonical_spool io = Some spool ∧
      up_canonical_source io staged_path = Some (spool ++ [NormalPart user; NormalPart (i ++ underscore :: original)])%list ∧
      is_Some (parse_uuid_simple (from_bytes i)) ∧
      destination = (private_dir storage_dir ++ [NormalPart (upload_name (up_uuid io) original)])%list ∧
      up_copy io = Ok content ∧ (blen content ≤ MAX_FILE_SIZE)%N ∧
      (up_canonical_source io staged_path ≠ Some destination → files' !! destination = Some content) ∧
      (up_remove io = true → ∀ source, up_canonical_source io staged_path = Some source → files' !! source = None)).
Proof.
  intros Hu Hl Hc. unfold import_staged_upload_from.
  destruct (up_create_spool io); [|by split; [apply touched_or, touched_refl|]].
  destruct (up_canonical_spool io) as [spool|]; [|by split; [apply touched_or, touched_refl|]]. cbn [ok_or].
  destruct (up_canonical_source io staged_path) as [source|]; [|by split; [apply touched_or, touched_refl|]]. cbn [ok_or].
  destruct (staged_components spool source) as [[user name]|] eqn:Hsc; [|by split; [apply touched_or, touched_refl|]].
  destruct (staged_original source) as [original|] eqn:Hso; [|by split; [apply touched_or, touched_refl|]].
  destruct (open_staged_file io spool source); [|by split; [apply touched_or, touched_refl|]].
  destruct (up_metadata io) as [[[is_file is_symlink] len]|]; [|by split; [apply touched_or, touched_refl|]]. cbn [ok_or].
  destruct (_ || _); [by split; [apply touched_or, touched_refl|]|].
  destruct (up_create_private io); [|by split; [apply touched_or, touched_refl|]]. cbn [negb].
  apply staged_components_Ok in Hsc as ->.
  destruct (staged_original_Ok _ _ Hso) as (name' & i & Hlast & -> & Hi).
  rewrite last_app in Hlast. injection Hlast as ->.
  assert (Forall (λ b, is_sep b = false) original) as Ho.
  { specialize (Hc _ eq_refl (i ++ underscore :: original)%list ltac:(set_solver)).
    apply Forall_app in Hc as [_ Hc]. by apply Forall_cons in Hc as [_ ?]. }
  rewrite (upload_destination_eq _ _ _ Hu Hl Ho), with_extension_last.
  destruct (up_create io); [|by split; [apply touched_or, touched_refl|]]. cbn [negb].
  destruct (up_copy io) as [content|written]; [|by split; [apply touched_or, touched_insert, touched_refl|]].
  destruct (N.ltb_spec MAX_FILE_SIZE (blen (take (N.to_nat (MAX_FILE_SIZE + 1)) content))) as [|Hsz];
    [by split; [apply touched_or; destruct (up_remove_partial io); [apply touched_delete|apply touched_insert, touched_refl]|]|].
  assert (take (N.to_nat (MAX_FILE_SIZE + 1)) content = content) as Et.
  { apply take_ge. unfold blen in Hsz. rewrite length_take in Hsz. lia. }
  rewrite Et in *. clear Et.
  destruct (up_sync io); [|by split; [apply touched_or, touched_insert, touched_refl|]].
  destruct (up_rename io); [|by split; [apply touched_or, touched_insert, touched_refl|]]. cbn [negb].
  cbn [is_ok]. set (destination := (private_dir storage_dir ++ [NormalPart (upload_name (up_uuid io) original)])%list).
  set (source := (spool ++ [NormalPart user; NormalPart (i ++ underscore :: original)])%list).
  pose proof (touched_insert (private_dir storage_dir) (upload_name (up_uuid io) original) content files _
    (touched_delete _ (file_stem (upload_name (up_uuid io) original) ++ as_bytes "." ++ as_bytes "part")%list files)) as Ht. split.
  - intros p Hp. destruct (up_remove io); [|left; by apply Ht].
    destruct (decide (p = source)) as [->|Hn]; [by right|left; apply Ht]. by rewrite lookup_delete_ne in Hp.
  - intros d [= <-]. exists spool, user, i, original, content. do 6 (split; [done|]). split.
    + intros Hne. destruct (up_remove io); [rewrite lookup_delete_ne by congruence|]; apply lookup_insert_eq.
    + intros -> s [= <-]. apply lookup_delete_eq.
Qed.

(** ** What is told to the other node *)

(** A change of state that the client makes itself never reaches its operator. The service
    reports it done and pushes the changed ticket to the configured operator; but a node
    takes a pushed ticket only at its first revision, so that every node, whatever it
    holds, refuses this one for good and stays as it was. *)
Theorem local_change_never_published h io ticket_id new_state s current remote_local authority peer nio en :
  engine_inv (sv_engine s) → signer_wf (en_signer (sv_engine s)) →
  append_ready (sv_engine s) (ca_put (rq_first io))
    (StatusChanged ticket_id new_state (peer_id_to_string (hs_peer_id h)) None) (ca_now (rq_first io)) →
  engine_get_ticket (sv_engine s) ticket_id = Some current →
  tr_client_peer_id current = peer_id_to_string (hs_peer_id h) →
  (0 < tr_revision current < u64_modulus)%N →
  let '(response, commands, s') := process_request h io (UpdateTicketStatus ticket_id new_state) s in
  ∀ ticket, response = RTicketUpdated (Some ticket) →
    engine_get_ticket (sv_engine s') ticket_id = Some ticket ∧ tr_state ticket = new_state ∧
    commands = push_to_bootstrap h io ticket ∧
    handle_ticket_request remote_local authority peer nio (PushTicket ticket) en =
      (MutationRejected Permanent "PeerId non autorisé à publier ce ticket" None, en).
Proof.
  intros He Hwf Hready Hget Hcl Hrev. simpl. unfold update_ticket_status.
  pose proof (authorized_change (rq_now io) CAP_TICKET_MANAGE s) as H.
  destruct (is_operator_authorized_for _ _ _) as [[|] s1]; [|done].
  assert (s1 = s) as -> by (by apply H). clear H. cbn [negb]. rewrite Hget, bool_decide_eq_true_2 by done. cbn [negb].
  pose proof (update_ticket_state_spec _ _ _ _ _ _ He Hwf Hready) as Hspec. rewrite Hget in Hspec.
  destruct (update_ticket_state _ _ _ _ _ _) as [[ticket|e] en']; [|done].
  destruct Hspec as (_ & _ & Hspec). destruct (can_transition_to _ _); [|by destruct Hspec].
  destruct Hspec as [-> Hall]. intros ticket [= <-]. simpl. rewrite Hall, decide_True by done.
  do 3 (split; [done|]). unfold push_ticket. cbn [handle_ticket_request].
  assert (push_authorized peer (set_state current new_state (ca_now (rq_first io))) en = false) as ->; [|done].
  apply not_true_is_false. intros Ha. apply push_authorized_iff in Ha as (_ & _ & Ha & _). simpl in Ha.
  destruct (decide (tr_revision current + 1 < u64_modulus)%N) as [Hs|Hb].
  - rewrite wrapping_add_u64_small in Ha by done. lia.
  - assert (tr_revision current = u64_max) as Hm by (unfold u64_max, u64_modulus in *; lia).
    by rewrite Hm, wrapping_add_u64_max in Ha.
Qed.

(** ** The bridge of a terminal *)

Lemma forward_frames : ∀ fuel r out,
  (length (rd_data r) < fuel)%nat →
  (forward fuel r (mkWriter out None)).2 =
    mkWriter (out ++ concat (frame_bytes <$> read_frames fuel r))%list None.
Proof.
  induction fuel as [|fuel IH]; intros r out Hf; [lia|]. cbn [forward read_frames].
  destruct (ShellFrame_read_from r) as [[[f|]|e] r'] eqn:E; [|by simpl; rewrite app_nil_r..].
  apply read_frame_sound in E as (Hok & _ & Hd).
  rewrite write_frame_Ok by done. rewrite IH.
  - cbn [fmap list_fmap concat]. by rewrite <- app_assoc.
  - assert (length (rd_data r') < length (rd_data r))%nat; [|lia].
    destruct Hd as [->|(a & b & [[_ ->]|[_ ->]])]; rewrite !length_app; [|simpl; lia..].
    pose proof (frame_bytes_length f). lia.
Qed.

Lemma terminal_command_Ok h now to text s init command session :
  terminal_command h now to text s = Ok (init, command, session) →
  ∃ peer dial t, command = OpenShellNext peer dial (mkPendingShell t (as_cert session) (as_session_signer session) to) ∧
    peer ≠ hs_peer_id h ∧ sv_session s = Some session ∧ is_Some (engine_get_ticket (sv_engine s) t).
Proof.
  unfold terminal_command. destruct (json_from_str _) as [i|]; [|done]. cbn [ok_or].
  destruct (parse_peer_id (tsi_peer i)) as [peer|]; [|done]. cbn [ok_or]. case_bool_decide as Hp; [done|].
  destruct (negb _); [done|]. destruct (tsi_ticket_id i) as [t|]; [|done]. destruct (bool_decide (trim t = _)); [done|].
  destruct (engine_get_ticket _ t) as [tk|] eqn:Ht; [|done]. cbn [ok_or].
  destruct (sv_session s) as [ses|]; [|done]. cbn [ok_or]. intros [= <- <- <-].
  eexists peer, _, t. split; [done|]. split; [done|]. split; [done|]. by rewrite Ht.
Qed.

(** A terminal. A connection gets a bridge only if an unexpired operator session allows
    shells, its first line names another node and a ticket known here, and the node
    opened the shell for the session's own certificate and key; nothing else makes the
    service ask for a shell. The bridge then writes the size of the terminal and the
    frames the client sent, and no other byte: what is not a frame is not passed on. *)
Theorem terminal_bridge_correct h io opened input s :
  let '(outcome, commands, s') := handle_terminal_client h io opened input s in
  (∀ command, command ∈ commands → ∃ peer dial pending session,
     command = OpenShellNext peer dial pending ∧ peer ≠ hs_peer_id h ∧
     sv_session s = Some session ∧ (rq_now io < as_expires_at session)%N ∧
     Capabilities_has (cert_capabilities (as_cert session)) CAP_SHELL_EXEC = true ∧
     pn_certificate pending = as_cert session ∧ pn_session_signer pending = as_session_signer session ∧
     is_Some (engine_get_ticket (sv_engine s) (pn_ticket_id pending))) ∧
  (∀ init token, outcome = TerminalBridged init token →
     commands ≠ [] ∧ opened = ShellReply (Answered (Ok tt)) ∧
     (∃ session, sv_session s = Some session ∧ token = as_session_id session) ∧
     ∀ r, (tsi_cols init < u16_modulus)%N → (tsi_rows init < u16_modulus)%N →
       (forward_in init r writer_new).2 =
         mkWriter (concat (frame_bytes <$> Resize (tsi_cols init) (tsi_rows init) :: frames_of r)) None).
Proof.
  unfold handle_terminal_client, is_operator_authorized.
  pose proof (authorized_change (rq_now io) CAP_SHELL_EXEC s) as Hch.
  destruct (is_operator_authorized_for (rq_now io) CAP_SHELL_EXEC s) as [ok s1] eqn:Ha.
  destruct ok; [|by split; [intros ? []%elem_of_nil|]]. cbn [negb].
  assert (s1 = s) as -> by (by apply Hch). clear Hch.
  destruct (read_init input) as [[text|]|]; [|by split; [intros ? []%elem_of_nil|]..].
  destruct (terminal_command h (rq_now io) (rq_reply io) text s) as [[[init command] session]|e] eqn:Hc;
    [|by split; [intros ? []%elem_of_nil|]].
  destruct (rq_send io); [|by split; [intros ? []%elem_of_nil|]]. cbn [negb].
  destruct (terminal_command_Ok _ _ _ _ _ _ _ _ Hc) as (peer & dial & t & -> & Hne & Hs & Ht).
  unfold is_operator_authorized_for in Ha. rewrite Hs in Ha.
  destruct (_ && _) eqn:Hv; [|by destruct (_ <=? _)%N]. apply andb_true_iff in Hv as [Hn%N.ltb_lt Hcap].
  split.
  - intros command ->%list_elem_of_singleton. eexists peer, dial, _, session. do 7 (split; [done|]). exact Ht.
  - intros init' token Ho. destruct opened as [|[[[]|e]| |]]; try done. injection Ho as <- <-.
    split; [done|]. split; [done|]. split; [by exists session|]. intros r Hcols Hrows. unfold forward_in.
    assert (frame_ok (Resize (tsi_cols init) (tsi_rows init))) as Hok by done.
    unfold writer_new. rewrite write_frame_Ok by done. cbn [snd]. by rewrite forward_frames by lia.
Qed.
End service_properties.
