(* ===== verification/ServiceRuns.v ===== *)
(** Runs of a concrete service: an owner's phrase opens a session, and the hypotheses of the
    theorems of Service.v hold there. *)

From S2P Require Import Prelude Text Object Concrete Ticket Event Graph GraphSort.
From S2P Require Import Reducer Authority Store Engine EngineRuns Codec Config Stream Shell Mnemonic Wire Sync Peers.
From S2P Require Import Admission Transfer SyncRuns Node Service.

#[local] Open Scope string_scope.

#[local] Existing Instance toy_libp2p.
#[local] Existing Instance toy_libp2p_laws.
#[local] Existing Instance toy_cbor.
#[local] Existing Instance toy_sha256.
#[local] Existing Instance toy_uuid.
#[local] Existing Instance toy_uuid_laws.

#[local] Instance toy_hkdf : Hkdf := {| hkdf_expand salt ikm info := Some (toy_blake3 (salt ++ ikm ++ info)%list) |}.

#[local] Instance toy_hkdf_laws : HkdfLaws.
Proof. split. intros salt ikm info. by eexists. Qed.

#[local] Instance init_json : Json TerminalSessionInit :=
  single_json (mkTerminalSessionInit "peer" (Some "T-01234567") 80 24 None) (λ _, false).
#[local] Instance ipc_request_json : Json IpcRequest := single_json GetOperatorStatus (λ _, false).
#[local] Instance ipc_response_json : Json IpcResponse := single_json RSuccess (λ _, true).

(** ** The owner *)

Definition owner_entropy : MnemonicEntropy := mkEntropy (vreplicate 32 x00).
Definition owner_phrase : string := entropy_to_mnemonic owner_entropy.

Definition root_signer : Ed25519Signer :=
  Ed25519Signer_from_seed (toy_blake3 (MNEMONIC_KDF_SALT ++ vec_to_list (vreplicate 32 x00) ++ ROOT_SIGNING_INFO)%list).

Definition owner_genesis : Genesis :=
  let tbs := mkGenesisTbs (toy_id 1) (derive_owner_id (signer_public_key root_signer))
    (signer_public_key root_signer) 7 in
  mkGenesis tbs (Ed25519Signer_sign_domain root_signer GENESIS_SIG_DOMAIN (Genesis_bytes tbs)).

Definition operator_host : service_host :=
  mkHost (LP := toy_libp2p) "op" "0.1.0" [] true (Some "peer") (Some owner_genesis) [RootDir; NormalPart (as_bytes "srv")].

Definition toy_upload : upload_io :=
  mkUploadIo true (Some [RootDir; NormalPart (as_bytes "spool")])
    (λ _, Some [RootDir; NormalPart (as_bytes "spool"); NormalPart (as_bytes "u");
           NormalPart (as_bytes (sample_id +:+ "_a.txt"))])
    true (Some (true, false, 3)) true sample_id true (Ok sample_content) true true true true.

Definition toy_request (now : N) : request_io :=
  mkRequestIo now "s1" (vreplicate 16 x01) (vreplicate 16 x02) (toy_call "u1" 200) (toy_call "u2" 201) true 9
    TimedOut TimedOut TimedOut TimedOut toy_upload.

Definition idle_service : ServiceState := mkService (St := FsObjectStore) engine1 None [] ∅.

Lemma owner_unlocks :
  is_ok (new_session (LP := toy_libp2p) operator_host (toy_request 1000) owner_genesis owner_phrase) = true.
Proof. vm_compute. reflexivity. Qed.

Lemma unlock_correct_witness :
  ∃ session ctx,
    process_request (LP := toy_libp2p) operator_host (toy_request 1000) (UnlockOperator owner_phrase) idle_service =
      (ROperatorStatus (unlocked_status session), [], with_session idle_service (Some session)) ∧
    as_expires_at session = 4600 ∧
    verify_certificate (LP := toy_libp2p) ctx "op" (as_cert session) CAP_SHELL_EXEC 4599 = true.
Proof.
  destruct (unlock_correct (LP := toy_libp2p) operator_host (toy_request 1000) owner_genesis owner_phrase idle_service
    toy_hkdf_laws eq_refl ltac:(vm_compute; reflexivity)) as (_ & H & _).
  pose proof owner_unlocks as Hok.
  destruct (new_session (LP := toy_libp2p) operator_host (toy_request 1000) owner_genesis owner_phrase)
    as [session|e]; [|discriminate Hok].
  destruct H as (E & ctx & _ & _ & He & Hv). exists session, ctx. split; [exact E|]. split; [exact He|].
  apply Hv; [|split; [reflexivity|reflexivity]].
  apply (bool_decide_eq_true_1 (_ ∈ _)). vm_compute. reflexivity.
Defined.

(** ** Sessions *)

Definition sample_events : list service_event :=
  [SvRequest (toy_request 1000) (UnlockOperator owner_phrase);
   SvRequest (toy_request 1001) GetStatus;
   SvRequest (toy_request 1002) (UnlockOperator "wrong");
   SvRequest (toy_request 1003) LockOperator].

Lemma operator_session_traced_witness :
  tokens (run_service (LP := toy_libp2p) operator_host sample_events idle_service) = ["s1"].
Proof.
  destruct (operator_session_traced (LP := toy_libp2p) operator_host sample_events idle_service eq_refl eq_refl)
    as [_ E].
  rewrite E. vm_compute. reflexivity.
Defined.

(** ** Tickets *)

Definition opened_session : ActiveOperatorSession :=
  match new_session (LP := toy_libp2p) operator_host (toy_request 1000) owner_genesis owner_phrase with
  | Ok session => session
  | Err _ => mkSession "" (toy_id 0) sample_certificate MemoryWorkspace_new 0 root_signer
  end.

Lemma opened_session_new :
  new_session (LP := toy_libp2p) operator_host (toy_request 1000) owner_genesis owner_phrase = Ok opened_session.
Proof.
  pose proof owner_unlocks as Hok. unfold opened_session.
  destruct (new_session (LP := toy_libp2p) operator_host (toy_request 1000) owner_genesis owner_phrase);
    [reflexivity|discriminate Hok].
Qed.

Definition unlocked_service : ServiceState := mkService (St := FsObjectStore) engine1 (Some opened_session) [] ∅.

Lemma opened_session_expires : as_expires_at opened_session = 4600%N.
Proof. vm_compute. reflexivity. Qed.

Definition owner_authority : AuthorityContext :=
  mkAuthority (toy_id 1) (derive_owner_id (signer_public_key root_signer))
    (mkEd25519Verifier (pk (signer_public_key root_signer)) (signer_public_key root_signer)).

Definition client_ticket : TicketRecord :=
  default (mkTicketRecord "" "" "" Open Normal "" 0 0 0 None) (engine_get_ticket engine1 "T-01234567").

Lemma client_ticket_stored : engine_get_ticket engine1 "T-01234567" = Some client_ticket.
Proof. vm_compute. reflexivity. Qed.

Lemma client_ticket_peer : tr_client_peer_id client_ticket = "peer" ∧ tr_revision client_ticket = 1%N.
Proof. split; vm_compute; reflexivity. Qed.

Lemma remote_change_authorized_witness :
  ∃ mutation,
    (process_request (LP := toy_libp2p) operator_host (toy_request 2000) (UpdateTicketStatus "T-01234567" Resolved)
       unlocked_service).1.2 = [SyncTickets (LP := toy_libp2p) "peer" None (UpdateStatusSigned mutation) 9] ∧
    mutation_authorized (LP := toy_libp2p) "peer" (Some owner_authority) "op" mutation 2005 client_ticket = true.
Proof.
  destruct client_ticket_peer as [Hp Hr].
  destruct (remote_change_authorized (LP := toy_libp2p) operator_host (toy_request 1000) (toy_request 2000) owner_genesis
    owner_phrase opened_session client_ticket "T-01234567" Resolved unlocked_service owner_authority "peer" 2005
    opened_session_new ltac:(vm_compute; reflexivity) eq_refl ltac:(vm_compute; reflexivity) eq_refl eq_refl eq_refl)
    as (mutation & E & _ & _ & H).
  - rewrite opened_session_expires. reflexivity.
  - rewrite opened_session_expires. reflexivity.
  - exact client_ticket_stored.
  - rewrite Hp. discriminate.
  - rewrite Hp. reflexivity.
  - exists mutation. rewrite E. split; [reflexivity|].
    specialize (H client_ticket eq_refl eq_refl). rewrite Hp in H. exact H.
Defined.

(** The client itself, with a session of its own. *)
Definition client_host : service_host :=
  mkHost (LP := toy_libp2p) "peer" "0.1.0" [] true (Some "op") (Some owner_genesis) [RootDir].

Lemma client_resolve_ready :
  append_ready engine1 toy_io (StatusChanged "T-01234567" Resolved "peer" None) 200.
Proof. apply ready_check_ok; [exact engine1_inv|vm_compute; reflexivity]. Qed.

Lemma local_change_never_published_witness :
  ∃ ticket s',
    process_request (LP := toy_libp2p) client_host (toy_request 2000) (UpdateTicketStatus "T-01234567" Resolved)
      unlocked_service =
    (RTicketUpdated (Some ticket), [SyncTickets (LP := toy_libp2p) "op" None (PushTicket ticket) 9], s') ∧
    handle_ticket_request (LP := toy_libp2p) "op" None "peer" (toy_node_io 150) (PushTicket ticket) engine0 =
      (MutationRejected Permanent "PeerId non autorisé à publier ce ticket" None, engine0).
Proof.
  destruct client_ticket_peer as [Hp Hr].
  pose proof (local_change_never_published (LP := toy_libp2p) client_host (toy_request 2000) "T-01234567" Resolved
    unlocked_service client_ticket "op" None "peer" (toy_node_io 150) engine0 engine1_inv engine1_wf
    client_resolve_ready client_ticket_stored Hp ltac:(rewrite Hr; split; reflexivity)) as H.
  assert (match process_request (LP := toy_libp2p) client_host (toy_request 2000)
      (UpdateTicketStatus "T-01234567" Resolved) unlocked_service with
    | (RTicketUpdated (Some _), _, _) => true | _ => false end = true) as Hok by (vm_compute; reflexivity).
  destruct (process_request _ _ _ _) as [[response commands] s'].
  destruct response as [| | | | |[ticket|]| | | | | | | |]; try discriminate Hok.
  destruct (H ticket eq_refl) as (_ & _ & Hc & Hr'). exists ticket, s'. rewrite Hc. exact (conj eq_refl Hr').
Defined.

(** ** Files and lines *)

Lemma staged_upload_confined_witness :
  ∃ destination files original, import_staged_upload_from [RootDir; NormalPart (as_bytes "srv")] toy_upload "staged" ∅ =
      (Ok destination, files) ∧
    destination = [RootDir; NormalPart (as_bytes "srv"); NormalPart (as_bytes "outbox-files");
                   NormalPart (upload_name sample_id original)] ∧
    files !! destination = Some sample_content.
Proof.
  pose proof (staged_upload_confined [RootDir; NormalPart (as_bytes "srv")] toy_upload "staged" ∅) as H.
  assert (is_ok (import_staged_upload_from [RootDir; NormalPart (as_bytes "srv")] toy_upload "staged" ∅).1 = true) as Hok
    by (vm_compute; reflexivity).
  destruct (import_staged_upload_from _ _ _ _) as [[destination|e] files]; [|discriminate Hok].
  destruct H as [_ H].
  - apply (bool_decide_eq_true_1 (Forall _ _)). vm_compute. reflexivity.
  - reflexivity.
  - intros source [= <-] name Hin. apply (bool_decide_eq_true_1 (Forall _ _)).
    rewrite !elem_of_cons, elem_of_nil in Hin.
    destruct Hin as [E|[E|[E|[E|[]]]]]; try discriminate E; injection E as ->; vm_compute; reflexivity.
  - destruct (H destination eq_refl) as (spool & user & i & original & content & _ & Hsrc & _ & Hd & Hc & _ & Hf & _).
    exists destination, files, original. split; [reflexivity|]. injection Hc as <-. split; [exact Hd|].
    apply Hf. rewrite Hd. discriminate.
Defined.

Lemma client_lines_answered_witness :
  ∃ s', handle_client (LP := toy_libp2p) 4 operator_host (λ _, toy_request 1000) (λ _, true) 0 (as_bytes "{}" ++ line_feed)%list
    idle_service = Some (mkClientEnd false [ROperatorStatus locked_status] [] s').
Proof.
  destruct (client_lines_answered (LP := toy_libp2p) operator_host (λ _, toy_request 1000) (λ _, true) idle_service)
    as [_ H].
  destruct (H (λ _, eq_refl) (λ _, ltac:(by eexists))) as [Hl _].
  assert (Forall good_line [as_bytes "{}"]) as Hg.
  { apply Forall_singleton. split; [|split; [|reflexivity]].
    - apply (bool_decide_eq_true_1 (_ ∉ _)). vm_compute. reflexivity.
    - apply Nat.ltb_lt. vm_compute. reflexivity. }
  specialize (Hl _ Hg). cbv zeta in Hl. cbn [fmap list_fmap concat] in Hl. rewrite app_nil_r in Hl.
  eexists. exact Hl.
Defined.
