(* ===== verification/Screen.v ===== *)
(** The terminal of the desktop application
    ([apps/fortiq-desktop/src/terminal/{screen,parser,keymap}.rs]): the screen buffer, what
    the sequences of a remote shell do to it, its text, and the bytes a key sends.

    The crate [vte] splits bytes into actions; it is the interface [Vte].  A [char] is its
    code point and a [String] of the screen the list of its characters.  Arithmetic is
    that of a release build: it wraps.  The one operation that panics, [clamp] with its
    bounds crossed, gives [None]. *)

From Stdlib Require Import Ascii.
From S2P Require Import Prelude Text.

(** ** The screen *)

(** The five attributes a cell and the screen itself carry. *)
Record attributes := mkAttrs {
  at_fg : N;
  at_bg : N;
  at_bold : bool;
  at_italic : bool;
  at_underline : bool
}.

Definition default_attributes : attributes := mkAttrs 0xFFCCCCCC 0xFF121212 false false false.

Record TerminalCell := mkCell { tc_c : N; tc_attrs : attributes }.

Definition space : N := 32.
Definition TerminalCell_default : TerminalCell := mkCell space default_attributes.

Abbreviation buffer := (list (list TerminalCell)).

Record TerminalScreen := mkScreen {
  ts_cols : N;
  ts_rows : N;
  ts_cursor_row : N;
  ts_cursor_col : N;
  ts_cursor_visible : bool;
  ts_use_alternate : bool;
  ts_cur : attributes;
  ts_primary_buffer : buffer;
  ts_alternate_buffer : buffer;
  ts_saved_cursor : N * N
}.

Definition blank_buffer (cols rows : N) : buffer :=
  replicate (N.to_nat rows) (replicate (N.to_nat cols) TerminalCell_default).

Definition TerminalScreen_new (cols rows : N) : TerminalScreen := {|
  ts_cols := cols; ts_rows := rows; ts_cursor_row := 0; ts_cursor_col := 0;
  ts_cursor_visible := true; ts_use_alternate := false; ts_cur := default_attributes;
  ts_primary_buffer := blank_buffer cols rows; ts_alternate_buffer := blank_buffer cols rows;
  ts_saved_cursor := (0, 0)
|}.

Definition set_cursor (row col : N) (s : TerminalScreen) : TerminalScreen :=
  mkScreen (ts_cols s) (ts_rows s) row col (ts_cursor_visible s) (ts_use_alternate s) (ts_cur s)
    (ts_primary_buffer s) (ts_alternate_buffer s) (ts_saved_cursor s).
Definition set_attributes (a : attributes) (s : TerminalScreen) : TerminalScreen :=
  mkScreen (ts_cols s) (ts_rows s) (ts_cursor_row s) (ts_cursor_col s) (ts_cursor_visible s)
    (ts_use_alternate s) a (ts_primary_buffer s) (ts_alternate_buffer s) (ts_saved_cursor s).
Definition set_visible (v : bool) (s : TerminalScreen) : TerminalScreen :=
  mkScreen (ts_cols s) (ts_rows s) (ts_cursor_row s) (ts_cursor_col s) v
    (ts_use_alternate s) (ts_cur s) (ts_primary_buffer s) (ts_alternate_buffer s) (ts_saved_cursor s).
Definition set_alternate (b : bool) (s : TerminalScreen) : TerminalScreen :=
  mkScreen (ts_cols s) (ts_rows s) (ts_cursor_row s) (ts_cursor_col s) (ts_cursor_visible s)
    b (ts_cur s) (ts_primary_buffer s) (ts_alternate_buffer s) (ts_saved_cursor s).

Definition active_buffer (s : TerminalScreen) : buffer :=
  if ts_use_alternate s then ts_alternate_buffer s else ts_primary_buffer s.

(** What is done through [active_buffer_mut]. *)
Definition on_active (f : buffer → buffer) (s : TerminalScreen) : TerminalScreen :=
  mkScreen (ts_cols s) (ts_rows s) (ts_cursor_row s) (ts_cursor_col s) (ts_cursor_visible s)
    (ts_use_alternate s) (ts_cur s)
    (if ts_use_alternate s then ts_primary_buffer s else f (ts_primary_buffer s))
    (if ts_use_alternate s then f (ts_alternate_buffer s) else ts_alternate_buffer s)
    (ts_saved_cursor s).

Definition resize_buffer (cols rows : N) (buf : buffer) : buffer :=
  resize (N.to_nat cols) TerminalCell_default <$>
    resize (N.to_nat rows) (replicate (N.to_nat cols) TerminalCell_default) buf.

Definition screen_resize (cols rows : N) (s : TerminalScreen) : TerminalScreen :=
  if (cols =? 0) || (rows =? 0) then s else
  mkScreen cols rows
    (if rows <=? ts_cursor_row s then saturating_sub rows 1 else ts_cursor_row s)
    (if cols <=? ts_cursor_col s then saturating_sub cols 1 else ts_cursor_col s)
    (ts_cursor_visible s) (ts_use_alternate s) (ts_cur s)
    (resize_buffer cols rows (ts_primary_buffer s)) (resize_buffer cols rows (ts_alternate_buffer s))
    (ts_saved_cursor s).

Definition scroll_row (cols : N) (buf : buffer) : buffer :=
  match buf with
  | [] => []
  | _ :: rest => rest ++ [replicate (N.to_nat cols) TerminalCell_default]
  end.

Definition scroll_up (count : nat) (s : TerminalScreen) : TerminalScreen :=
  on_active (Nat.iter count (scroll_row (ts_cols s))) s.

Definition new_line (s : TerminalScreen) : TerminalScreen :=
  let s := set_cursor (ts_cursor_row s) 0 s in
  if ts_rows s <=? (ts_cursor_row s + 1) mod u16_modulus then scroll_up 1 s
  else set_cursor (ts_cursor_row s + 1) 0 s.

Definition put_char (c : N) (s : TerminalScreen) : TerminalScreen :=
  let s := if ts_cols s <=? ts_cursor_col s then new_line s else s in
  let r := N.to_nat (ts_cursor_row s) in
  let c_idx := N.to_nat (ts_cursor_col s) in
  let s := on_active (alter (λ row, <[c_idx := mkCell c (ts_cur s)]> row) r) s in
  set_cursor (ts_cursor_row s) (N.min ((ts_cursor_col s + 1) mod u16_modulus) (ts_cols s)) s.

Definition carriage_return (s : TerminalScreen) : TerminalScreen := set_cursor (ts_cursor_row s) 0 s.

Definition backspace (s : TerminalScreen) : TerminalScreen :=
  if 0 <? ts_cursor_col s then set_cursor (ts_cursor_row s) (ts_cursor_col s - 1) s else s.

Definition tab (s : TerminalScreen) : TerminalScreen :=
  let next_tab := ((ts_cursor_col s / 8 + 1) * 8) mod u16_modulus in
  set_cursor (ts_cursor_row s) (N.min next_tab (saturating_sub (ts_cols s) 1)) s.

Definition fill_row (row : list TerminalCell) : list TerminalCell := (λ _, TerminalCell_default) <$> row.

Definition fill_from (c : nat) (row : list TerminalCell) : list TerminalCell :=
  take c row ++ fill_row (drop c row).
Definition fill_upto (c : nat) (row : list TerminalCell) : list TerminalCell :=
  fill_row (take (S c) row) ++ drop (S c) row.

Definition clear_screen (s : TerminalScreen) : TerminalScreen :=
  set_cursor 0 0 (on_active (fmap fill_row) s).

Definition clear_line (mode : N) (s : TerminalScreen) : TerminalScreen :=
  let r := N.to_nat (ts_cursor_row s) in
  let c := N.to_nat (ts_cursor_col s) in
  match mode with
  | 0 => on_active (alter (fill_from c) r) s
  | 1 => on_active (alter (fill_upto c) r) s
  | 2 => on_active (alter fill_row r) s
  | _ => s
  end.

Definition clear_display (mode : N) (s : TerminalScreen) : TerminalScreen :=
  let r := N.to_nat (ts_cursor_row s) in
  let c := N.to_nat (ts_cursor_col s) in
  match mode with
  | 0 => on_active (λ buf, let buf := alter (fill_from c) r buf in take (S r) buf ++ (fill_row <$> drop (S r) buf)) s
  | 1 => on_active (λ buf, alter (fill_upto c) r ((fill_row <$> take r buf) ++ drop r buf)) s
  | 2 | 3 => on_active (fmap fill_row) s
  | _ => s
  end.

Definition set_cursor_pos (row col : N) (s : TerminalScreen) : TerminalScreen :=
  set_cursor (N.min row (saturating_sub (ts_rows s) 1)) (N.min col (saturating_sub (ts_cols s) 1)) s.

(** Two's complement on 16 bits. *)
Definition wrap_i16 (z : Z) : Z := ((z + 32768) mod 65536 - 32768)%Z.
Definition as_i16 (n : N) : Z := wrap_i16 (Z.of_N n).

(** [Ord::clamp] panics when its bounds are crossed. *)
Definition clamp (z lo hi : Z) : option Z := if (lo <=? hi)%Z then Some (Z.max lo (Z.min z hi)) else None.

Definition move_cursor (d_row d_col : Z) (s : TerminalScreen) : option TerminalScreen :=
  new_r ← clamp (wrap_i16 (as_i16 (ts_cursor_row s) + d_row)) 0 (as_i16 (saturating_sub (ts_rows s) 1));
  new_c ← clamp (wrap_i16 (as_i16 (ts_cursor_col s) + d_col)) 0 (as_i16 (saturating_sub (ts_cols s) 1));
  Some (set_cursor (Z.to_N new_r) (Z.to_N new_c) s).

Definition save_cursor (s : TerminalScreen) : TerminalScreen :=
  mkScreen (ts_cols s) (ts_rows s) (ts_cursor_row s) (ts_cursor_col s) (ts_cursor_visible s)
    (ts_use_alternate s) (ts_cur s) (ts_primary_buffer s) (ts_alternate_buffer s)
    (ts_cursor_row s, ts_cursor_col s).

Definition restore_cursor (s : TerminalScreen) : TerminalScreen :=
  set_cursor_pos (ts_saved_cursor s).1 (ts_saved_cursor s).2 s.

(** [char::is_whitespace]. *)
Definition char_is_whitespace (c : N) : bool :=
  ((9 <=? c) && (c <=? 13)) || (c =? 32) || (c =? 0x85) || (c =? 0xa0) || (c =? 0x1680) ||
  ((0x2000 <=? c) && (c <=? 0x200a)) || (c =? 0x2028) || (c =? 0x2029) || (c =? 0x202f) ||
  (c =? 0x205f) || (c =? 0x3000).

Fixpoint drop_blanks (l : list N) : list N :=
  match l with
  | c :: l' => if char_is_whitespace c then drop_blanks l' else l
  | [] => []
  end.

(** [str::trim_end]. *)
Definition trim_end (l : list N) : list N := reverse (drop_blanks (reverse l)).

Definition newline : N := 10.

Definition render_row (row : list TerminalCell) : list N := trim_end (tc_c <$> row) ++ [newline].

Definition render_plain_text (s : TerminalScreen) : list N := concat (render_row <$> active_buffer s).

(** ** Sequences *)

(** A parameter of a sequence: its first value and its sub-parameters. *)
Abbreviation params := (list (N * list N)).

(** The calls the parser makes; those the terminal ignores are one. *)
Inductive vte_action :=
| Print (c : N)
| Execute (b : N)
| CsiDispatch (ps : params) (intermediates : list N) (action : N)
| EscDispatch (b : N)
| Ignored.

(** The parser of [vte]: what it makes of the bytes of one call depends on its state and on them alone. *)
Class Vte := {
  vte_parser : Type;
  vte_new : vte_parser;
  vte_advance : vte_parser → bytes → list vte_action * vte_parser
}.

Definition ch (a : Ascii.ascii) : N := Ascii.N_of_ascii a.
Arguments ch a%_char_scope.

Definition set_fg (c : N) (a : attributes) := mkAttrs c (at_bg a) (at_bold a) (at_italic a) (at_underline a).
Definition set_bg (c : N) (a : attributes) := mkAttrs (at_fg a) c (at_bold a) (at_italic a) (at_underline a).
Definition set_bold (b : bool) (a : attributes) := mkAttrs (at_fg a) (at_bg a) b (at_italic a) (at_underline a).
Definition set_italic (b : bool) (a : attributes) := mkAttrs (at_fg a) (at_bg a) (at_bold a) b (at_underline a).
Definition set_underline (b : bool) (a : attributes) := mkAttrs (at_fg a) (at_bg a) (at_bold a) (at_italic a) b.

Definition sgr_code (code : N) : attributes → attributes :=
  match code with
  | 0 => λ _, default_attributes
  | 1 => set_bold true
  | 3 => set_italic true
  | 4 => set_underline true
  | 22 => set_bold false
  | 23 => set_italic false
  | 24 => set_underline false
  | 30 => set_fg 0xFF000000
  | 31 => set_fg 0xFFE5484D
  | 32 => set_fg 0xFF16A36D
  | 33 => set_fg 0xFFEAA612
  | 34 => set_fg 0xFF0B84FF
  | 35 => set_fg 0xFFA05CE0
  | 36 => set_fg 0xFF17B897
  | 37 | 39 => set_fg 0xFFCCCCCC
  | 40 => set_bg 0xFF121212
  | 41 => set_bg 0xFF701A1E
  | 42 => set_bg 0xFF0D5E3E
  | 43 => set_bg 0xFF7D570A
  | 44 => set_bg 0xFF064789
  | 45 => set_bg 0xFF532F73
  | 46 => set_bg 0xFF0D5C4C
  | 47 => set_bg 0xFF4A4A4A
  | 49 => set_bg 0xFF121212
  | 90 => set_fg 0xFF707070
  | 91 => set_fg 0xFFFF6369
  | 92 => set_fg 0xFF2CD996
  | 93 => set_fg 0xFFFFC53D
  | 94 => set_fg 0xFF52A8FF
  | 95 => set_fg 0xFFBF7AF0
  | 96 => set_fg 0xFF35E0BD
  | 97 => set_fg 0xFFFFFFFF
  | 100 => set_bg 0xFF2B2B2B
  | 101 => set_bg 0xFF8E2126
  | 102 => set_bg 0xFF127B52
  | 103 => set_bg 0xFFA3720C
  | 104 => set_bg 0xFF0A58A8
  | 105 => set_bg 0xFF6C3D96
  | 106 => set_bg 0xFF127863
  | 107 => set_bg 0xFF6E6E6E
  | _ => λ a, a
  end.

Definition handle_sgr (ps : params) (s : TerminalScreen) : TerminalScreen :=
  foldl (λ s p, set_attributes (sgr_code p.1 (ts_cur s)) s) s ps.

Definition execute (b : N) (s : TerminalScreen) : TerminalScreen :=
  if b =? newline then new_line s
  else if b =? 13 then carriage_return s
  else if b =? 8 then backspace s
  else if b =? 9 then tab s
  else s.

(** [params.iter().next().map(|p| p[0]).unwrap_or(d)], and the rest. *)
Definition first_param (d : N) (ps : params) : N := default d (fst <$> head ps).

Definition private_set (p : N) (s : TerminalScreen) : TerminalScreen :=
  if p =? 25 then set_visible true s
  else if p =? 1049 then clear_screen (set_alternate true s)
  else s.

Definition private_reset (p : N) (s : TerminalScreen) : TerminalScreen :=
  if p =? 25 then set_visible false s
  else if p =? 1049 then set_alternate false s
  else s.

(** The negation wraps too: [-(n as i16)]. *)
Definition csi_dispatch (ps : params) (intermediates : list N) (action : N) (s : TerminalScreen)
    : option TerminalScreen :=
  let is_private := bool_decide (ch "?" ∈ intermediates) in
  let n := N.max (first_param 1 ps) 1 in
  if action =? ch "A" then move_cursor (wrap_i16 (- as_i16 n)) 0 s
  else if action =? ch "B" then move_cursor (as_i16 n) 0 s
  else if action =? ch "C" then move_cursor 0 (as_i16 n) s
  else if action =? ch "D" then move_cursor 0 (wrap_i16 (- as_i16 n)) s
  else if (action =? ch "H") || (action =? ch "f") then
    Some (set_cursor_pos (saturating_sub n 1) (saturating_sub (N.max (first_param 1 (tail ps)) 1) 1) s)
  else if action =? ch "J" then Some (clear_display (first_param 0 ps mod u8_modulus) s)
  else if action =? ch "K" then Some (clear_line (first_param 0 ps mod u8_modulus) s)
  else if action =? ch "m" then Some (handle_sgr ps s)
  else if action =? ch "h" then Some (if is_private then foldl (λ s p, private_set p.1 s) s ps else s)
  else if action =? ch "l" then Some (if is_private then foldl (λ s p, private_reset p.1 s) s ps else s)
  else if action =? ch "s" then Some (save_cursor s)
  else if action =? ch "u" then Some (restore_cursor s)
  else Some s.

Definition esc_dispatch (b : N) (s : TerminalScreen) : TerminalScreen :=
  if b =? ch "7" then save_cursor s
  else if b =? ch "8" then restore_cursor s
  else if b =? ch "c" then clear_screen s
  else s.

Definition perform (a : vte_action) (s : TerminalScreen) : option TerminalScreen :=
  match a with
  | Print c => Some (put_char c s)
  | Execute b => Some (execute b s)
  | CsiDispatch ps intermediates action => csi_dispatch ps intermediates action s
  | EscDispatch b => Some (esc_dispatch b s)
  | Ignored => Some s
  end.

Fixpoint perform_all (l : list vte_action) (s : TerminalScreen) : option TerminalScreen :=
  match l with
  | [] => Some s
  | a :: l => s ← perform a s; perform_all l s
  end.

(** ** Keys *)

Record KeyInput := mkKey { ki_text : string; ki_ctrl : bool; ki_alt : bool; ki_shift : bool }.

(** What Ctrl makes of the first character, when it is one of these. *)
Definition ctrl_code (c : N) : option N :=
  let lower := if (65 <=? c) && (c <=? 90) then c + 32 else c in
  if (97 <=? lower) && (lower <=? 122) then Some (lower - 97 + 1)
  else if (c =? ch " ") || (c =? ch "@") then Some 0
  else if c =? ch "[" then Some 27
  else if c =? ch "\" then Some 28
  else if c =? ch "]" then Some 29
  else if c =? ch "^" then Some 30
  else if c =? ch "_" then Some 31
  else None.

Definition utf8_3 (a b c : byte) : bytes := [a; b; c].
Definition esc : byte := x1b.

(** The keys with a code of their own; the private characters are U+F700 and so on. *)
Definition special_keys : list (list bytes * bytes) := [
  ([[x0d]; [x0a]], [x0d]);
  ([[x08]], [x7f]);
  ([[x09]], [x09]);
  ([[esc]], [esc]);
  ([utf8_3 xef x9c x80; esc :: as_bytes "[A"], esc :: as_bytes "[A");
  ([utf8_3 xef x9c x81; esc :: as_bytes "[B"], esc :: as_bytes "[B");
  ([utf8_3 xef x9c x82; esc :: as_bytes "[D"], esc :: as_bytes "[D");
  ([utf8_3 xef x9c x83; esc :: as_bytes "[C"], esc :: as_bytes "[C");
  ([utf8_3 xef x9c xa8; [x7f]], esc :: as_bytes "[3~");
  ([utf8_3 xef x9c xa9], esc :: as_bytes "[H");
  ([utf8_3 xef x9c xab], esc :: as_bytes "[F");
  ([utf8_3 xef x9c xac], esc :: as_bytes "[5~");
  ([utf8_3 xef x9c xad], esc :: as_bytes "[6~")
].

Definition special_key (text : bytes) : option bytes :=
  snd <$> head (filter (λ k : list bytes * bytes, text ∈ k.1) special_keys).

(** Only ASCII characters have a Ctrl code: the first byte decides. *)
Definition encode_key (input : KeyInput) : option bytes :=
  let text := as_bytes (ki_text input) in
  match (if ki_ctrl input then head text ≫= λ b, ctrl_code (Byte.to_N b) else None) with
  | Some code => Some [byte_of_N code]
  | None =>
      match special_key text with
      | Some code => Some code
      | None =>
          if bool_decide (text = []) then None
          else Some (if ki_alt input then esc :: text else text)
      end
  end.

(** ** The shape of a screen *)

Definition buffer_ok (cols rows : N) (buf : buffer) : Prop :=
  length buf = N.to_nat rows ∧ Forall (λ row, length row = N.to_nat cols) buf.

(** Both buffers have the size of the screen, the cursor is on it, or just past the end of
    its line. *)
Record screen_ok (cols rows : N) (s : TerminalScreen) : Prop := {
  sk_cols : ts_cols s = cols;
  sk_rows : ts_rows s = rows;
  sk_width : cols < u16_modulus;
  sk_height : rows < u16_modulus;
  sk_primary : buffer_ok cols rows (ts_primary_buffer s);
  sk_alternate : buffer_ok cols rows (ts_alternate_buffer s);
  sk_row : ts_cursor_row s ≤ rows - 1;
  sk_col : ts_cursor_col s ≤ cols
}.

Lemma blank_ok cols rows : buffer_ok cols rows (blank_buffer cols rows).
Proof.
  split; [apply length_replicate|]. apply Forall_replicate, length_replicate.
Qed.

Lemma fmap_ok cols rows f buf :
  (∀ row, length (f row) = length row) → buffer_ok cols rows buf → buffer_ok cols rows (f <$> buf).
Proof.
  intros Hf [Hl Hr]. split; [by rewrite length_fmap|]. apply Forall_fmap. eapply Forall_impl; [exact Hr|].
  intros row. simpl. by rewrite Hf.
Qed.

Lemma alter_ok cols rows f r buf :
  (∀ row, length (f row) = length row) → buffer_ok cols rows buf → buffer_ok cols rows (alter f r buf).
Proof.
  intros Hf [Hl Hr]. split; [by rewrite length_alter|]. apply Forall_alter; [done|]. intros row _. by rewrite Hf.
Qed.

Lemma length_fill_row row : length (fill_row row) = length row.
Proof. apply length_fmap. Qed.
Lemma length_fill_from c row : length (fill_from c row) = length row.
Proof. unfold fill_from. rewrite length_app, length_fill_row, length_take, length_drop. lia. Qed.
Lemma length_fill_upto c row : length (fill_upto c row) = length row.
Proof. unfold fill_upto. rewrite length_app, length_fill_row, length_take, length_drop. lia. Qed.

Lemma split_ok cols rows f g r buf :
  (∀ row, length (f row) = length row) → (∀ row, length (g row) = length row) →
  buffer_ok cols rows buf → buffer_ok cols rows ((f <$> take r buf) ++ (g <$> drop r buf)).
Proof.
  intros Hf Hg [Hl Hr]. split.
  - rewrite length_app, !length_fmap, length_take, length_drop. lia.
  - apply Forall_app. split; apply Forall_fmap; (eapply Forall_impl; [apply Forall_take || apply Forall_drop; exact Hr|]);
      intros row; simpl; by rewrite ?Hf, ?Hg.
Qed.

Lemma fill_below_ok cols rows r buf :
  buffer_ok cols rows buf → buffer_ok cols rows (take r buf ++ (fill_row <$> drop r buf)).
Proof.
  pose proof (split_ok cols rows id fill_row r buf) as H. rewrite list_fmap_id in H.
  apply H; [done|exact length_fill_row].
Qed.

Lemma fill_above_ok cols rows r buf :
  buffer_ok cols rows buf → buffer_ok cols rows ((fill_row <$> take r buf) ++ drop r buf).
Proof.
  pose proof (split_ok cols rows fill_row id r buf) as H. rewrite list_fmap_id in H.
  apply H; [exact length_fill_row|done].
Qed.

Lemma scroll_ok cols rows count buf :
  buffer_ok cols rows buf → buffer_ok cols rows (Nat.iter count (scroll_row cols) buf).
Proof.
  induction count as [|count IH]; [done|]. intros Hb. destruct (IH Hb) as [Hl Hr]. simpl.
  destruct (Nat.iter count _ _) as [|row rest]; [done|]. apply Forall_cons in Hr as [_ Hr]. split.
  - simpl in *. rewrite length_app. simpl. lia.
  - simpl. apply Forall_app. split; [done|]. apply Forall_singleton, length_replicate.
Qed.

Section screen_shape.
Context {cols rows : N}.
Implicit Types s : TerminalScreen.

Lemma set_cursor_ok row col s :
  screen_ok cols rows s → row ≤ rows - 1 → col ≤ cols → screen_ok cols rows (set_cursor row col s).
Proof. by intros []. Qed.

Lemma on_active_ok f s :
  screen_ok cols rows s → (∀ buf, buffer_ok cols rows buf → buffer_ok cols rows (f buf)) →
  screen_ok cols rows (on_active f s).
Proof. intros [] Hf. split; simpl; try done; destruct (ts_use_alternate s); auto. Qed.

Lemma set_attributes_ok a s : screen_ok cols rows s → screen_ok cols rows (set_attributes a s).
Proof. by intros []. Qed.
Lemma set_visible_ok v s : screen_ok cols rows s → screen_ok cols rows (set_visible v s).
Proof. by intros []. Qed.
Lemma set_alternate_ok b s : screen_ok cols rows s → screen_ok cols rows (set_alternate b s).
Proof. by intros []. Qed.
Lemma save_cursor_ok s : screen_ok cols rows s → screen_ok cols rows (save_cursor s).
Proof. by intros []. Qed.

Lemma set_cursor_pos_ok row col s : screen_ok cols rows s → screen_ok cols rows (set_cursor_pos row col s).
Proof. intros H. destruct H. apply set_cursor_ok; [done|..]; unfold saturating_sub; subst; lia. Qed.

Lemma new_line_ok s : screen_ok cols rows s → screen_ok cols rows (new_line s).
Proof.
  intros H. pose proof H as []. unfold new_line.
  assert (screen_ok cols rows (set_cursor (ts_cursor_row s) 0 s)) as H1 by (apply set_cursor_ok; [done..|lia]).
  destruct (N.leb_spec (ts_rows (set_cursor (ts_cursor_row s) 0 s)) ((ts_cursor_row (set_cursor (ts_cursor_row s) 0 s) + 1) mod u16_modulus))
    as [|Hlt]; simpl in *.
  - apply on_active_ok; [done|]. intros buf Hb. simpl. rewrite sk_cols0. by apply (scroll_ok _ _ 1).
  - rewrite N.mod_small in Hlt by (unfold u16_modulus in *; lia). apply set_cursor_ok; [done|lia..].
Qed.

Lemma put_char_ok c s : screen_ok cols rows s → screen_ok cols rows (put_char c s).
Proof.
  intros H. unfold put_char.
  assert (screen_ok cols rows (if ts_cols s <=? ts_cursor_col s then new_line s else s)) as H1
    by (destruct (_ <=? _); [by apply new_line_ok|done]).
  set (s1 := if (ts_cols s <=? ts_cursor_col s) then new_line s else s) in *. apply set_cursor_ok.
  - apply on_active_ok; [done|]. intros buf. apply alter_ok. intros row. apply length_insert.
  - simpl. apply H1.
  - simpl. rewrite (sk_cols _ _ _ H1). apply N.le_min_r.
Qed.

Lemma clamp_spec z lo hi r : clamp z lo hi = Some r → (lo ≤ r ≤ hi)%Z.
Proof. unfold clamp. destruct (Z.leb_spec lo hi); [|done]. intros [= <-]. lia. Qed.

Lemma as_i16_small n : n < 32768 → as_i16 n = Z.of_N n.
Proof. intros H. unfold as_i16, wrap_i16. rewrite Z.mod_small by lia. lia. Qed.

Lemma as_i16_large n : 32768 ≤ n → n < u16_modulus → as_i16 n = (Z.of_N n - 65536)%Z.
Proof.
  intros H Hn. unfold as_i16, wrap_i16, u16_modulus in *.
  replace (Z.of_N n + 32768)%Z with (Z.of_N n - 32768 + 1 * 65536)%Z by lia.
  rewrite Z.mod_add, Z.mod_small by lia. lia.
Qed.

Lemma move_cursor_ok d_row d_col s :
  screen_ok cols rows s → cols ≤ 32768 → rows ≤ 32768 →
  ∃ s', move_cursor d_row d_col s = Some s' ∧ screen_ok cols rows s'.
Proof.
  intros H Hc Hr. pose proof H as []. unfold move_cursor, clamp, saturating_sub. rewrite sk_cols0, sk_rows0.
  rewrite !(as_i16_small (_ - 1)) by lia.
  rewrite !(proj2 (Z.leb_le _ _)) by lia. simpl. eexists. split; [done|]. apply set_cursor_ok; [done|lia..].
Qed.

Lemma foldl_ok {A} (f : TerminalScreen → A → TerminalScreen) l s :
  (∀ a s, screen_ok cols rows s → screen_ok cols rows (f s a)) →
  screen_ok cols rows s → screen_ok cols rows (foldl f s l).
Proof. intros Hf. revert s. induction l as [|a l IH]; intros s Hs; simpl; auto. Qed.

Lemma clear_screen_ok s : screen_ok cols rows s → screen_ok cols rows (clear_screen s).
Proof.
  intros H. apply set_cursor_ok; [|lia..]. apply on_active_ok; [done|]. intros buf. apply fmap_ok, length_fill_row.
Qed.

Lemma clear_line_ok mode s : screen_ok cols rows s → screen_ok cols rows (clear_line mode s).
Proof.
  intros H. unfold clear_line.
  repeat case_match; try exact H; apply on_active_ok; try exact H; intros buf; apply alter_ok;
    (exact length_fill_row || exact (length_fill_from _) || exact (length_fill_upto _)).
Qed.

Lemma clear_display_ok mode s : screen_ok cols rows s → screen_ok cols rows (clear_display mode s).
Proof.
  intros H. unfold clear_display.
  repeat case_match; try exact H; apply on_active_ok; try exact H; intros buf Hb.
  all: try (apply fmap_ok; [exact length_fill_row|exact Hb]).
  - apply fill_below_ok, alter_ok; [exact (length_fill_from _)|exact Hb].
  - apply alter_ok; [exact (length_fill_upto _)|]. by apply fill_above_ok.
Qed.

Lemma execute_ok b s : screen_ok cols rows s → screen_ok cols rows (execute b s).
Proof.
  intros H. pose proof H as []. unfold execute. repeat case_match; try exact H.
  - by apply new_line_ok.
  - apply set_cursor_ok; [done..|lia].
  - unfold backspace. case_match; [|done]. apply set_cursor_ok; [done..|lia].
  - unfold tab. apply set_cursor_ok; [done..|]. unfold saturating_sub. subst. lia.
Qed.

Lemma private_set_ok p s : screen_ok cols rows s → screen_ok cols rows (private_set p s).
Proof.
  intros H. unfold private_set. repeat case_match; try exact H; [by apply set_visible_ok|].
  by apply clear_screen_ok, set_alternate_ok.
Qed.

Lemma private_reset_ok p s : screen_ok cols rows s → screen_ok cols rows (private_reset p s).
Proof.
  intros H. unfold private_reset. repeat case_match; try exact H; [by apply set_visible_ok|by apply set_alternate_ok].
Qed.

Lemma csi_dispatch_ok ps intermediates action s :
  screen_ok cols rows s → cols ≤ 32768 → rows ≤ 32768 →
  ∃ s', csi_dispatch ps intermediates action s = Some s' ∧ screen_ok cols rows s'.
Proof.
  intros H Hc Hr. unfold csi_dispatch.
  repeat case_match; try (by apply move_cursor_ok); eexists; (split; [reflexivity|]); try exact H.
  - by apply set_cursor_pos_ok.
  - by apply clear_display_ok.
  - by apply clear_line_ok.
  - apply foldl_ok; [|done]. intros p s0. apply set_attributes_ok.
  - apply foldl_ok; [|done]. intros p s0. apply private_set_ok.
  - apply foldl_ok; [|done]. intros p s0. apply private_reset_ok.
  - by apply save_cursor_ok.
  - by apply set_cursor_pos_ok.
Qed.

Lemma perform_ok a s :
  screen_ok cols rows s → cols ≤ 32768 → rows ≤ 32768 →
  ∃ s', perform a s = Some s' ∧ screen_ok cols rows s'.
Proof.
  intros H Hc Hr. destruct a as [c|b|ps i a|b|]; simpl; [..|by eexists].
  - eexists. split; [done|]. by apply put_char_ok.
  - eexists. split; [done|]. by apply execute_ok.
  - by apply csi_dispatch_ok.
  - eexists. split; [done|]. unfold esc_dispatch. repeat case_match; try exact H;
      [by apply save_cursor_ok|by apply set_cursor_pos_ok|by apply clear_screen_ok].
Qed.

Lemma perform_all_ok l s :
  screen_ok cols rows s → cols ≤ 32768 → rows ≤ 32768 →
  ∃ s', perform_all l s = Some s' ∧ screen_ok cols rows s'.
Proof.
  intros H Hc Hr. revert s H. induction l as [|a l IH]; intros s H; simpl; [by eexists|].
  destruct (perform_ok a s H Hc Hr) as (s' & -> & H'). by apply IH.
Qed.
End screen_shape.

Lemma resize_buffer_ok cols rows buf : buffer_ok cols rows (resize_buffer cols rows buf).
Proof.
  unfold resize_buffer. split; [by rewrite length_fmap, length_resize|]. apply Forall_fmap, Forall_forall. intros row _. apply length_resize.
Qed.

Lemma screen_new_ok cols rows :
  cols < u16_modulus → rows < u16_modulus → screen_ok cols rows (TerminalScreen_new cols rows).
Proof. intros Hc Hr. split; simpl; try done; try apply blank_ok; lia. Qed.

Lemma screen_resize_ok cols rows cols' rows' s :
  screen_ok cols rows s → 0 < cols' < u16_modulus → 0 < rows' < u16_modulus →
  screen_ok cols' rows' (screen_resize cols' rows' s).
Proof.
  intros [] Hc Hr. unfold screen_resize, saturating_sub.
  rewrite (proj2 (N.eqb_neq cols' 0)), (proj2 (N.eqb_neq rows' 0)) by lia.
  split; simpl; try done; try apply resize_buffer_ok; try lia; case_match; lia.
Qed.

(** The sequences of a shell, and sizes, as they come. *)
Inductive screen_input := Sequences (l : list vte_action) | NewSize (cols rows : N).

Definition screen_step (i : screen_input) (s : TerminalScreen) : option TerminalScreen :=
  match i with
  | Sequences l => perform_all l s
  | NewSize cols rows => Some (screen_resize cols rows s)
  end.

Fixpoint screen_run (l : list screen_input) (s : TerminalScreen) : option TerminalScreen :=
  match l with
  | [] => Some s
  | i :: l => s ← screen_step i s; screen_run l s
  end.

(** The size after some sizes: zero is ignored. *)
Fixpoint final_size (l : list screen_input) (size : N * N) : N * N :=
  match l with
  | [] => size
  | NewSize cols rows :: l => final_size l (if (cols =? 0) || (rows =? 0) then size else (cols, rows))
  | Sequences _ :: l => final_size l size
  end.

(** The screen keeps its shape. Whatever a shell sends and however the window is resized,
    within 32768 columns and rows nothing panics, both buffers are exactly as large as
    the screen, and the cursor stays on it or just past the end of a line. On a larger
    screen a sequence that moves the cursor panics, whatever it asks for. *)
Theorem screen_keeps_shape cols rows l :
  cols ≤ 32768 → rows ≤ 32768 →
  Forall (λ i, match i with NewSize c r => c ≤ 32768 ∧ r ≤ 32768 | _ => True end) l →
  (∃ s, screen_run l (TerminalScreen_new cols rows) = Some s ∧
     screen_ok (final_size l (cols, rows)).1 (final_size l (cols, rows)).2 s) ∧
  (∀ s c r ps intermediates action, screen_ok c r s → 32768 < c ∨ 32768 < r →
     action ∈ [ch "A"; ch "B"; ch "C"; ch "D"] → csi_dispatch ps intermediates action s = None).
Proof.
  intros Hc Hr Hl. split.
  - assert (∀ c r s, screen_ok c r s → c ≤ 32768 → r ≤ 32768 →
      ∃ s', screen_run l s = Some s' ∧ screen_ok (final_size l (c, r)).1 (final_size l (c, r)).2 s') as Hgen;
      [|apply Hgen; [apply screen_new_ok; unfold u16_modulus; lia|done..]].
    clear Hc Hr. induction Hl as [|i l Hi Hl IH]; intros c r s Hs Hc Hr; simpl; [by eexists|].
    destruct i as [acts|c' r']; simpl.
    + destruct (perform_all_ok acts s Hs Hc Hr) as (s' & -> & Hs'). by apply IH.
    + destruct Hi as [Hc' Hr']. destruct (_ || _) eqn:Ez.
      * unfold screen_resize. rewrite Ez. by apply IH.
      * apply orb_false_iff in Ez as [Ec%N.eqb_neq Er%N.eqb_neq].
        apply IH; [|done..]. apply (screen_resize_ok c r); [done|unfold u16_modulus; lia..].
  - intros s c r ps intermediates action Hs Hbig Ha. pose proof Hs as [].
    assert (∀ dr dc, move_cursor dr dc s = None) as Hn.
    { intros dr dc. unfold move_cursor, clamp, saturating_sub. rewrite sk_cols0, sk_rows0.
      destruct (decide (32768 < r)) as [Hr'|Hr'].
      - rewrite (as_i16_large (r - 1)) by lia.
        by rewrite (proj2 (Z.leb_gt 0 (Z.of_N (r - 1) - 65536))) by (unfold u16_modulus in *; lia).
      - destruct (_ <=? as_i16 (r - 1))%Z; [|done]. simpl. destruct Hbig as [Hb|]; [|lia].
        rewrite (as_i16_large (c - 1)) by lia.
        by rewrite (proj2 (Z.leb_gt 0 (Z.of_N (c - 1) - 65536))) by (unfold u16_modulus in *; lia). }
    unfold csi_dispatch. rewrite !elem_of_cons, elem_of_nil in Ha.
    destruct Ha as [->|[->|[->|[->|[]]]]]; simpl; apply Hn.
Qed.

(** ** Moving the cursor *)

Lemma wrap_i16_small z : (-32768 ≤ z < 32768)%Z → wrap_i16 z = z.
Proof. intros H. unfold wrap_i16. rewrite Z.mod_small by lia. lia. Qed.

Lemma wrap_i16_over z : (32768 ≤ z < 98304)%Z → wrap_i16 z = (z - 65536)%Z.
Proof.
  intros H. unfold wrap_i16. replace (z + 32768)%Z with (z - 32768 + 1 * 65536)%Z by lia.
  rewrite Z.mod_add, Z.mod_small by lia. lia.
Qed.

Lemma move_cursor_eq cols rows d_row d_col s :
  screen_ok cols rows s → cols ≤ 32767 → rows ≤ 32768 →
  let to x d hi := Z.to_N (Z.max 0 (Z.min (wrap_i16 (Z.of_N x + d)) (Z.of_N hi))) in
  move_cursor d_row d_col s =
    Some (set_cursor (to (ts_cursor_row s) d_row (rows - 1)) (to (ts_cursor_col s) d_col (cols - 1)) s).
Proof.
  intros [] Hc Hr to. unfold move_cursor, clamp, saturating_sub. rewrite sk_cols0, sk_rows0.
  rewrite !(as_i16_small (_ - 1)), (as_i16_small (ts_cursor_row s)), (as_i16_small (ts_cursor_col s)) by lia.
  by rewrite !(proj2 (Z.leb_le _ _)) by lia.
Qed.

(** Moving the cursor. Up and down by [n] rows, it goes that far or to the edge, as long as
    the row stays within 32767; one row beyond, a move down goes to the top, and a move
    up by 32769 rows or more goes down instead. A position is always reached or cut at
    the edges, and what was saved is restored. *)
Theorem cursor_moves_correct cols rows n rest i s :
  screen_ok cols rows s → cols ≤ 32767 → rows ≤ 32768 → 0 < n < u16_modulus →
  let row := ts_cursor_row s in
  let row_after action := ts_cursor_row <$> csi_dispatch ((n, rest) :: []) i (ch action) s in
  row_after "A"%char = Some (if n <? 32768 then row - n
                             else if n =? 32768 then 0
                             else if row + (u16_modulus - n) <? 32768 then N.min (row + (u16_modulus - n)) (rows - 1)
                             else 0) ∧
  row_after "B"%char = Some (if n <? 32768 then if row + n <? 32768 then N.min (row + n) (rows - 1) else 0
                             else row - (u16_modulus - n)) ∧
  (∀ m rest', csi_dispatch [(n, rest); (m, rest')] i (ch "H") s =
     Some (set_cursor (N.min (n - 1) (rows - 1)) (N.min (m - 1) (cols - 1)) s)) ∧
  (∀ row col, row ≤ rows - 1 → col ≤ cols - 1 →
     restore_cursor (set_cursor row col (save_cursor s)) =
       set_cursor (ts_cursor_row s) (N.min (ts_cursor_col s) (cols - 1)) (save_cursor s)).
Proof.
  intros Hs Hc Hr Hn row row_after. pose proof Hs as []. pose proof (move_cursor_eq cols rows) as Hmv.
  unfold u16_modulus in *. split; [|split; [|split]].
  - subst row row_after. unfold csi_dispatch. simpl. unfold first_param. simpl. rewrite N.max_l by lia.
    rewrite Hmv by done. simpl. f_equal.
    destruct (N.ltb_spec n 32768) as [Hl|Hl].
    + rewrite as_i16_small by done. rewrite (wrap_i16_small (- _)), wrap_i16_small by lia. lia.
    + rewrite as_i16_large by (unfold u16_modulus; lia). destruct (N.eqb_spec n 32768) as [->|].
      * change (- (Z.of_N 32768 - 65536))%Z with 32768%Z. rewrite (wrap_i16_over 32768), wrap_i16_small by lia. lia.
      * rewrite (wrap_i16_small (- _)) by lia. destruct (N.ltb_spec (ts_cursor_row s + (2 ^ 16 - n)) 32768).
        -- rewrite wrap_i16_small by lia. lia.
        -- rewrite wrap_i16_over by lia. lia.
  - subst row row_after. unfold csi_dispatch. simpl. unfold first_param. simpl. rewrite N.max_l by lia.
    rewrite Hmv by done. simpl. f_equal.
    destruct (N.ltb_spec n 32768) as [Hl|Hl].
    + rewrite as_i16_small by done. destruct (N.ltb_spec (ts_cursor_row s + n) 32768).
      * rewrite wrap_i16_small by lia. lia.
      * rewrite wrap_i16_over by lia. lia.
    + rewrite as_i16_large by (unfold u16_modulus; lia). rewrite wrap_i16_small by lia. lia.
  - intros m rest'. unfold csi_dispatch. simpl. unfold first_param, set_cursor_pos, saturating_sub. simpl.
    rewrite sk_cols0, sk_rows0. do 2 f_equal; lia.
  - intros r c Hr' Hc'. unfold restore_cursor, set_cursor_pos, set_cursor, save_cursor, saturating_sub. simpl.
    rewrite sk_rows0, sk_cols0. f_equal. lia.
Qed.

(** ** Text on the screen *)

(** The rows a line of text takes on [cols] columns. A full row is followed by another only
    when there is more. *)
Fixpoint chop (fuel cols : nat) {A} (line : list A) : list (list A) :=
  match fuel with
  | O => [line]
  | S fuel => if (length line <=? cols)%nat then [line] else take cols line :: chop fuel cols (drop cols line)
  end.

Definition rows_of {A} (cols : nat) (line : list A) : list (list A) := chop (length line) cols line.

(** The last [rows] rows of a text, with empty ones below a shorter text. *)
Definition last_rows {A} (rows : nat) (l : list (list A)) : list (list A) :=
  drop (length l - rows) l ++ replicate (rows - length l) [].

(** The lines of a text, as a shell sends them: a carriage return and a line feed between. *)
Definition line_actions (line : list N) : list vte_action := Print <$> line.
Definition text_actions (first : list N) (others : list (list N)) : list vte_action :=
  line_actions first ++ concat ((λ line, [Execute 13; Execute newline] ++ line_actions line) <$> others).

(** Writing one more cell at the end of the last row, on [cols] columns. *)
Definition write_cell {A} (cols : nat) (x : A) (last : list A) : list (list A) :=
  if (length last =? cols)%nat then [last; [x]] else [last ++ [x]].

Lemma chop_last {A} cols fuel (line : list A) :
  (0 < cols)%nat → ∃ front last, chop fuel cols line = front ++ [last] ∧
    ((length line ≤ fuel)%nat → (length last ≤ cols)%nat ∧ Forall (λ r, length r = cols) front).
Proof.
  intros Hc. revert line. induction fuel as [|fuel IH]; intros line; simpl.
  { exists [], line. split; [done|]. intros H. split; [lia|done]. }
  destruct (Nat.leb_spec (length line) cols); [by exists [], line|].
  destruct (IH (drop cols line)) as (front & last & -> & Hl). exists (take cols line :: front), last.
  split; [done|]. intros Hf. rewrite length_drop in Hl. destruct Hl as [? ?]; [lia|]. split; [done|].
  constructor; [|done]. rewrite length_take. lia.
Qed.

Lemma chop_app {A} cols fuel (line : list A) x front last :
  (0 < cols)%nat → (length line ≤ fuel)%nat → chop fuel cols line = front ++ [last] →
  chop (S fuel) cols (line ++ [x]) = front ++ write_cell cols x last.
Proof.
  intros Hc. revert line front. induction fuel as [|fuel IH]; intros line front Hl Hch.
  - destruct line; [|simpl in Hl; lia]. destruct front as [|? [|]]; try done. injection Hch as <-.
    unfold write_cell. simpl. destruct cols as [|cols]; [lia|done].
  - cbn [chop] in Hch. destruct (Nat.leb_spec (length line) cols) as [Hle|Hgt].
    + destruct front as [|? [|]]; try done. injection Hch as <-. cbn [chop app].
      rewrite length_app. simpl length. unfold write_cell.
      destruct (Nat.eqb_spec (length line) cols) as [He|Hne].
      * rewrite (proj2 (Nat.leb_gt _ _)) by lia. rewrite take_app_length', drop_app_length' by done.
        simpl length. by rewrite (proj2 (Nat.leb_le _ _)) by lia.
      * by rewrite (proj2 (Nat.leb_le _ _)) by lia.
    + destruct front as [|row front]; [by destruct fuel; simpl in Hch; try case_match|].
      injection Hch as <- Hch. cbn [chop app]. cbn [chop] in IH. rewrite length_app. simpl length.
      rewrite (proj2 (Nat.leb_gt _ _)) by lia. rewrite take_app_le, drop_app_le by lia. f_equal.
      apply (IH (drop cols line) front); [rewrite length_drop; lia|exact Hch].
Qed.

Lemma rows_of_app {A} cols (line : list A) x front last :
  (0 < cols)%nat → rows_of cols line = front ++ [last] →
  rows_of cols (line ++ [x]) = front ++ write_cell cols x last.
Proof.
  intros Hc H. unfold rows_of. rewrite length_app, Nat.add_comm. simpl length. by apply chop_app.
Qed.

Lemma last_rows_split {A} rows (front : list (list A)) last :
  (0 < rows)%nat →
  last_rows rows (front ++ [last]) =
    drop (S (length front) - rows) front ++ last :: replicate (rows - S (length front)) [].
Proof.
  intros Hr. unfold last_rows. rewrite length_app, Nat.add_comm. simpl length. cbn [Nat.add].
  rewrite drop_app_le by lia. by rewrite <- app_assoc.
Qed.

Lemma alter_middle {A} (f : A → A) i (l1 l2 : list A) x :
  i = length l1 → alter f i (l1 ++ x :: l2) = l1 ++ f x :: l2.
Proof. intros ->. rewrite <- (Nat.add_0_r (length l1)) at 1. by rewrite alter_app_r. Qed.

Lemma chop_fmap {A B} (f : A → B) fuel cols (line : list A) :
  chop fuel cols (fmap (M:=list) f line) = fmap (M:=list) f <$> chop fuel cols line.
Proof.
  revert line. induction fuel as [|fuel IH]; intros line; [done|]. simpl. rewrite length_fmap.
  destruct (_ <=? _)%nat; [done|]. simpl. by rewrite <- fmap_take, <- fmap_drop, IH.
Qed.

Lemma rows_of_fmap {A B} (f : A → B) cols (line : list A) : rows_of cols (fmap (M:=list) f line) = fmap (M:=list) f <$> rows_of cols line.
Proof. unfold rows_of. rewrite length_fmap. apply chop_fmap. Qed.

Lemma last_rows_fmap {A B} (f : A → B) rows (l : list (list A)) : last_rows rows (fmap (M:=list) f <$> l) = fmap (M:=list) f <$> last_rows rows l.
Proof.
  unfold last_rows. rewrite fmap_app, fmap_replicate, length_fmap. by rewrite fmap_drop.
Qed.

Lemma perform_all_app l k s : perform_all (l ++ k) s = perform_all l s ≫= perform_all k.
Proof. revert s. induction l as [|a l IH]; intros s; simpl; [done|]. destruct (perform a s); simpl; auto. Qed.

Lemma trim_end_spaces l n : trim_end (l ++ replicate n space) = trim_end l.
Proof.
  unfold trim_end. rewrite reverse_app, reverse_replicate. f_equal.
  induction n as [|n IH]; [done|]. exact IH.
Qed.

(** The rows written so far and the screen that shows the last of them. *)
Section text.
Context (cols rows : N) (Hcols : 0 < cols < u16_modulus) (Hrows : 0 < rows < u16_modulus).

Definition pad (row : list TerminalCell) : list TerminalCell := resize (N.to_nat cols) TerminalCell_default row.

Record shows (s : TerminalScreen) (front : list (list TerminalCell)) (last : list TerminalCell) : Prop := {
  sh_cols : ts_cols s = cols;
  sh_rows : ts_rows s = rows;
  sh_primary : ts_use_alternate s = false;
  sh_attrs : ts_cur s = default_attributes;
  sh_buffer : ts_primary_buffer s = pad <$> last_rows (N.to_nat rows) (front ++ [last]);
  sh_row : ts_cursor_row s = N.min (N.of_nat (length front)) (rows - 1);
  sh_col : ts_cursor_col s = N.of_nat (length last);
  sh_fits : (length last ≤ N.to_nat cols)%nat;
  sh_all : Forall (λ row, length row ≤ N.to_nat cols)%nat front
}.

Lemma last_rows_scroll {A} n (l : list (list A)) :
  (0 < n ≤ length l)%nat → last_rows n (l ++ [[]]) = drop 1 (last_rows n l) ++ [[]] ∧ last_rows n l ≠ [].
Proof.
  intros H. unfold last_rows. rewrite length_app. simpl length.
  replace (n - length l)%nat with 0%nat by lia. replace (n - (length l + 1))%nat with 0%nat by lia.
  simpl. rewrite !app_nil_r, drop_app_le, drop_drop by lia.
  split; [do 2 f_equal; lia|]. intros E%(f_equal length). rewrite length_drop in E. simpl in E. lia.
Qed.

Lemma last_rows_grow {A} n (l : list (list A)) :
  (length l < n)%nat → last_rows n (l ++ [[]]) = last_rows n l.
Proof.
  intros H. unfold last_rows. rewrite length_app. simpl length.
  replace (length l - n)%nat with 0%nat by lia. replace (length l + 1 - n)%nat with 0%nat by lia.
  replace (n - length l)%nat with (S (n - (length l + 1))) by lia. rewrite !drop_0. by rewrite <- app_assoc.
Qed.

Lemma pad_nil : pad [] = replicate (N.to_nat cols) TerminalCell_default.
Proof. apply resize_nil. Qed.

Lemma shows_new_line s front last :
  shows s front last → shows (new_line s) (front ++ [last]) [].
Proof.
  intros []. unfold new_line. simpl. rewrite sh_rows0, sh_row0, N.mod_small by lia.
  destruct (N.leb_spec rows (N.min (N.of_nat (length front)) (rows - 1) + 1)) as [Hle|Hlt].
  - destruct (last_rows_scroll (N.to_nat rows) (front ++ [last])) as [Hs Hn]; [rewrite length_app; simpl; lia|].
    split; simpl; rewrite ?sh_primary0; try done;
      [|rewrite length_app; simpl; lia|lia|apply Forall_app; by rewrite Forall_singleton].
    rewrite sh_buffer0, Hs, fmap_app. simpl. rewrite pad_nil, sh_cols0.
    destruct (last_rows _ _) as [|row l]; [done|]. simpl. by rewrite drop_0.
  - split; simpl; try done; [|rewrite length_app; simpl; lia|lia|].
    + rewrite sh_buffer0, last_rows_grow; [done|]. rewrite length_app. simpl. lia.
    + apply Forall_app. by rewrite Forall_singleton.
Qed.

Lemma shows_put_fits s front last c :
  shows s front last → (length last < N.to_nat cols)%nat →
  shows (put_char c s) front (last ++ [mkCell c default_attributes]).
Proof.
  intros [] Hl. unfold put_char.
  rewrite (proj2 (N.leb_gt _ _)) by (rewrite sh_cols0, sh_col0; lia).
  split; simpl; rewrite ?sh_primary0; try done.
  - rewrite sh_buffer0, sh_row0, sh_col0, sh_attrs0. rewrite !last_rows_split by lia.
    rewrite !fmap_app. simpl. rewrite alter_middle by (rewrite length_fmap, length_drop; lia).
    do 2 f_equal. unfold pad. rewrite !resize_ge, length_app by (rewrite ?length_app; simpl; lia). simpl length.
    replace (N.to_nat cols - length last)%nat with (S (N.to_nat cols - (length last + 1))) by lia. simpl.
    rewrite <- app_assoc. simpl. rewrite Nat2N.id. by rewrite insert_app_r_alt, Nat.sub_diag.
  - rewrite sh_col0, sh_cols0, length_app, N.mod_small by (unfold u16_modulus in *; lia). simpl. lia.
  - rewrite length_app. simpl. lia.
Qed.

(** A printed character goes where [write_cell] puts it. *)
Lemma shows_put s front last c :
  shows s front last →
  ∃ front' last', front' ++ [last'] = front ++ write_cell (N.to_nat cols) (mkCell c default_attributes) last ∧
    shows (put_char c s) front' last'.
Proof.
  intros H. pose proof H as []. unfold write_cell. destruct (Nat.eqb_spec (length last) (N.to_nat cols)).
  - exists (front ++ [last]), [mkCell c default_attributes]. split; [by rewrite <- app_assoc|].
    pose proof (shows_new_line _ _ _ H) as Hn.
    assert (put_char c s = put_char c (new_line s)) as ->.
    { unfold put_char at 1. rewrite (proj2 (N.leb_le _ _)) by (rewrite sh_cols0, sh_col0; lia).
      unfold put_char. rewrite (proj2 (N.leb_gt _ _)); [done|].
      rewrite (sh_cols _ _ _ Hn), (sh_col _ _ _ Hn). simpl. lia. }
    apply (shows_put_fits _ _ []); [done|]. simpl. lia.
  - exists front, (last ++ [mkCell c default_attributes]). split; [done|]. apply shows_put_fits; [done|lia].
Qed.

Definition cells (line : list N) : list TerminalCell := (λ c, mkCell c default_attributes) <$> line.

Lemma shows_line s front line :
  shows s front [] →
  ∃ s' front' last', perform_all (line_actions line) s = Some s' ∧
    front' ++ [last'] = front ++ rows_of (N.to_nat cols) (cells line) ∧ shows s' front' last'.
Proof.
  intros H. induction line as [|c line IH] using rev_ind; [by exists s, front, []|].
  destruct IH as (s1 & f1 & l1 & Hp & He & H1).
  destruct (shows_put _ _ _ c H1) as (f2 & l2 & He2 & H2).
  exists (put_char c s1), f2, l2. split; [|split; [|exact H2]].
  - unfold line_actions in *. by rewrite fmap_app, perform_all_app, Hp.
  - unfold cells in *. rewrite fmap_app. rewrite He2. simpl.
    destruct (chop_last (N.to_nat cols) (length (cells line)) (cells line)) as (front' & last' & Hch & _); [lia|].
    change (chop _ _ _) with (rows_of (N.to_nat cols) (cells line)) in Hch. unfold cells in Hch. rewrite Hch in He.
    rewrite (rows_of_app (N.to_nat cols) _ _ _ _ ltac:(lia) Hch). rewrite app_assoc in He. apply app_inj_tail in He as [-> ->].
    by rewrite <- app_assoc.
Qed.

Lemma new_line_carriage s : new_line (carriage_return s) = new_line s.
Proof. done. Qed.

Lemma shows_text s front first others :
  shows s front [] →
  ∃ s' front' last', perform_all (text_actions first others) s = Some s' ∧
    front' ++ [last'] = front ++ concat ((λ line, rows_of (N.to_nat cols) (cells line)) <$> first :: others) ∧
    shows s' front' last'.
Proof.
  revert s front first. induction others as [|line others IH]; intros s front first H;
    destruct (shows_line _ _ first H) as (s1 & f1 & l1 & Hp & He & H1).
  - exists s1, f1, l1. unfold text_actions. simpl. by rewrite !app_nil_r.
  - destruct (IH (new_line s1) (f1 ++ [l1]) line (shows_new_line _ _ _ H1)) as (s2 & f2 & l2 & Hp2 & He2 & H2).
    exists s2, f2, l2. split; [|split; [|exact H2]].
    + unfold text_actions in *. rewrite perform_all_app, Hp. simpl. exact Hp2.
    + rewrite He2, He. simpl. by rewrite <- app_assoc.
Qed.

Lemma pad_render row :
  (length row ≤ N.to_nat cols)%nat → render_row (pad row) = trim_end (tc_c <$> row) ++ [newline].
Proof.
  intros H. unfold render_row, pad. rewrite resize_ge by done. rewrite fmap_app, fmap_replicate.
  change (tc_c TerminalCell_default) with space. by rewrite trim_end_spaces.
Qed.

Lemma shows_render s front last :
  shows s front last →
  render_plain_text s =
    concat ((λ row, trim_end row ++ [newline]) <$> last_rows (N.to_nat rows) (fmap (M:=list) tc_c <$> (front ++ [last]))).
Proof.
  intros []. unfold render_plain_text, active_buffer. rewrite sh_primary0, sh_buffer0, last_rows_fmap, <- !list_fmap_compose.
  f_equal. apply Forall_fmap_ext_1. unfold last_rows. apply Forall_app. split.
  - apply Forall_drop, Forall_app. split; [|apply Forall_singleton; by apply pad_render].
    eapply Forall_impl; [exact sh_all0|]. intros row. apply pad_render.
  - apply Forall_replicate, pad_render. simpl. lia.
Qed.
End text.

Lemma shows_new cols rows :
  0 < cols < u16_modulus → 0 < rows < u16_modulus → shows cols rows (TerminalScreen_new cols rows) [] [].
Proof.
  intros Hc Hr. split; simpl; try done; try lia. unfold last_rows. simpl length.
  replace (1 - N.to_nat rows)%nat with 0%nat by lia. unfold blank_buffer. simpl.
  rewrite fmap_replicate, !pad_nil, <- replicate_S. f_equal. lia.
Qed.

(** C28. What a text looks like. Printed on a fresh screen, line by line, the text of the screen
    is the last rows of the text cut at the width of the screen: a line takes a row, a
    long line as many as it fills, and what does not fit scrolls away at the top. *)
Theorem terminal_shows_text cols rows first others :
  0 < cols < u16_modulus → 0 < rows < u16_modulus →
  ∃ s, perform_all (text_actions first others) (TerminalScreen_new cols rows) = Some s ∧
    render_plain_text s =
      concat ((λ row, trim_end row ++ [newline]) <$>
        last_rows (N.to_nat rows) (concat (rows_of (N.to_nat cols) <$> first :: others))).
Proof.
  intros Hc Hr.
  destruct (shows_text _ _ Hc Hr _ [] first others (shows_new _ _ Hc Hr)) as (s & front & last & Hp & He & Hs).
  exists s. split; [exact Hp|]. rewrite (shows_render _ _ Hc Hr _ _ _ Hs), He. do 3 f_equal. cbn [app]. clear. induction (first :: others) as [|line lines IH]; [done|]. simpl.
  rewrite fmap_app. f_equal; [|exact IH]. unfold cells. rewrite rows_of_fmap.
  rewrite <- list_fmap_compose. rewrite <- (list_fmap_id (rows_of _ line)) at 2.
  apply list_fmap_ext. intros _ row _. simpl. rewrite <- list_fmap_compose. apply list_fmap_id.
Qed.

(** ** The alternate screen *)

(** A sequence that changes the screen in use. *)
Definition switches (a : vte_action) : bool :=
  match a with
  | CsiDispatch ps i action =>
      ((action =? ch "h") || (action =? ch "l")) && bool_decide (ch "?" ∈ i) && bool_decide (1049 ∈ ps.*1)
  | _ => false
  end.

(** What drawing on the alternate screen leaves as it was. *)
Record same_primary (s s' : TerminalScreen) : Prop := {
  sp_alternate : ts_use_alternate s' = true;
  sp_buffer : ts_primary_buffer s' = ts_primary_buffer s
}.

Section alternate.
Implicit Types s : TerminalScreen.

Lemma on_active_same f s : ts_use_alternate s = true → same_primary s (on_active f s).
Proof. intros H. split; simpl; by rewrite ?H. Qed.

Lemma same_primary_trans s s1 s2 : same_primary s s1 → same_primary s1 s2 → same_primary s s2.
Proof. intros [H1 B1] [H2 B2]. split; congruence. Qed.

Lemma new_line_same s : ts_use_alternate s = true → same_primary s (new_line s).
Proof. intros H. unfold new_line. by case_match; split; simpl; rewrite ?H. Qed.

Lemma put_char_same c s : ts_use_alternate s = true → same_primary s (put_char c s).
Proof.
  intros H. unfold put_char.
  assert (same_primary s (if ts_cols s <=? ts_cursor_col s then new_line s else s)) as H1
    by (case_match; [by apply new_line_same|done]).
  set (s1 := if (ts_cols s <=? ts_cursor_col s) then new_line s else s) in *.
  eapply same_primary_trans; [exact H1|]. by destruct (on_active_same
    (alter (λ row, <[N.to_nat (ts_cursor_col s1) := mkCell c (ts_cur s1)]> row) (N.to_nat (ts_cursor_row s1))) s1
    (sp_alternate _ _ H1)).
Qed.

Lemma foldl_same {A} (f : TerminalScreen → A → TerminalScreen) l s :
  (∀ a s, a ∈ l → ts_use_alternate s = true → same_primary s (f s a)) →
  ts_use_alternate s = true → same_primary s (foldl f s l).
Proof.
  revert s. induction l as [|a l IH]; intros s Hf H; simpl; [done|].
  assert (same_primary s (f s a)) as H1 by (apply Hf; [left|done]).
  eapply same_primary_trans; [exact H1|]. apply IH; [|apply H1]. intros b s0 Hb. apply Hf. by right.
Qed.

Lemma csi_same ps i action s s' :
  ts_use_alternate s = true → switches (CsiDispatch ps i action) = false →
  csi_dispatch ps i action s = Some s' → same_primary s s'.
Proof.
  intros H Hsw. unfold csi_dispatch.
  assert ((action =? ch "h") = true ∨ (action =? ch "l") = true → bool_decide (ch "?" ∈ i) = true → 1049 ∉ ps.*1) as Hps.
  { intros Ha Hi. unfold switches in Hsw. rewrite Hi in Hsw. apply orb_true_iff in Ha. rewrite Ha in Hsw.
    by apply bool_decide_eq_false in Hsw. }
  assert (∀ dr dc, move_cursor dr dc s = Some s' → same_primary s s') as Hm.
  { intros dr dc. unfold move_cursor. intros (r & _ & (c & _ & [= <-])%bind_Some)%bind_Some. done. }
  repeat case_match; try (apply Hm); intros [= <-]; try done.
  - unfold clear_display. repeat case_match; try done; by apply on_active_same.
  - unfold clear_line. repeat case_match; try done; by apply on_active_same.
  - by apply foldl_same.
  - apply foldl_same; [|done]. intros p s0 Hp Halt. unfold private_set. case_match; [done|].
    destruct (N.eqb_spec p.1 1049) as [E|]; [|done]. destruct Hps; [auto|done|]. rewrite <- E. by apply list_elem_of_fmap_2.
  - apply foldl_same; [|done]. intros p s0 Hp Halt. unfold private_reset. case_match; [done|].
    destruct (N.eqb_spec p.1 1049) as [E|]; [|done]. destruct Hps; [auto|done|]. rewrite <- E. by apply list_elem_of_fmap_2.
Qed.

Lemma perform_same a s s' :
  ts_use_alternate s = true → switches a = false → perform a s = Some s' → same_primary s s'.
Proof.
  intros H Hsw. destruct a as [c|b|ps i action|b|]; simpl; [intros [= <-]..| |intros [= <-]|intros [= <-]; done].
  - by apply put_char_same.
  - unfold execute, backspace. repeat case_match; try done. by apply new_line_same.
  - by apply csi_same.
  - unfold esc_dispatch. repeat case_match; try done. unfold clear_screen.
    by destruct (on_active_same (fmap fill_row) s H).
Qed.

Lemma perform_all_same l s s' :
  ts_use_alternate s = true → Forall (λ a, switches a = false) l → perform_all l s = Some s' → same_primary s s'.
Proof.
  intros H Hl. revert s H. induction Hl as [|a l Ha Hl IH]; intros s H; simpl; [by intros [= <-]|].
  intros (s1 & H1 & H2)%bind_Some. pose proof (perform_same _ _ _ H Ha H1) as Hs.
  eapply same_primary_trans; [exact Hs|]. apply IH; [apply Hs|exact H2].
Qed.
End alternate.

Definition enter_alternate : vte_action := CsiDispatch [(1049, [])] [ch "?"] (ch "h").
Definition leave_alternate : vte_action := CsiDispatch [(1049, [])] [ch "?"] (ch "l").

(** A full-screen program. It begins on a blank screen, and whatever it draws, when it
    leaves the text is the one that was there before; the cursor is not put back, it stays
    where the program left it, at the top if it did nothing. *)
Theorem alternate_screen_isolated s l s' :
  ts_use_alternate s = false → Forall (λ a, switches a = false) l →
  perform_all ([enter_alternate] ++ l ++ [leave_alternate]) s = Some s' →
  (∃ s1, perform enter_alternate s = Some s1 ∧
     Forall (Forall (λ cell, cell = TerminalCell_default)) (active_buffer s1)) ∧
  ts_use_alternate s' = false ∧ render_plain_text s' = render_plain_text s ∧
  (l = [] → ts_cursor_row s' = 0 ∧ ts_cursor_col s' = 0).
Proof.
  intros Ha Hl. set (s1 := clear_screen (set_alternate true s)).
  assert (perform enter_alternate s = Some s1) as H1 by done.
  cbn [app perform_all]. rewrite H1. cbn [mbind option_bind]. rewrite perform_all_app.
  intros (s2 & H2 & H3)%bind_Some.
  assert (same_primary s1 s2) as [Hsa Hsb] by (by apply (perform_all_same l)).
  injection H3 as <-. split; [|split; [done|split]].
  - exists s1. split; [done|]. unfold s1, active_buffer. simpl. apply Forall_fmap, Forall_forall. intros row _. simpl.
    apply Forall_fmap, Forall_forall. done.
  - unfold render_plain_text, active_buffer. simpl. rewrite Hsb, Ha. done.
  - intros ->. injection H2 as <-. done.
Qed.

(** ** Keys *)

(** What a key sends. Only a key without text sends nothing; a letter with Ctrl its control
    code, in either case; a text that is no special key itself, after an escape with Alt;
    and the keys of the cursor the sequences that move it when they come back. *)
Theorem encode_key_correct :
  (∀ k, encode_key k = None ↔ ki_text k = ""%string) ∧
  (∀ k b rest, as_bytes (ki_text k) = b :: rest → ki_ctrl k = true →
     (65 ≤ Byte.to_N b ≤ 90 ∨ 97 ≤ Byte.to_N b ≤ 122) →
     encode_key k = Some [byte_of_N (N.land (Byte.to_N b) 31)]) ∧
  (∀ k, ki_ctrl k = false → ki_text k ≠ ""%string → special_key (as_bytes (ki_text k)) = None →
     encode_key k = Some ((if ki_alt k then [esc] else []) ++ as_bytes (ki_text k))).
Proof.
  split; [|split].
  - intros [text ctrl alt shift]. unfold encode_key. simpl. split.
    + intros H. destruct (decide (as_bytes text = [])) as [E|E]; [by rewrite <- (from_as_bytes text), E|].
      rewrite (bool_decide_eq_false_2 _ E) in H. by repeat case_match.
    + intros ->. simpl. by destruct ctrl.
  - intros k b rest Hb Hc Hl. unfold encode_key. rewrite Hb, Hc. simpl.
    assert (ctrl_code (Byte.to_N b) = Some (N.land (Byte.to_N b) 31)) as ->; [|done].
    destruct b; simpl in *; (done || (exfalso; lia)).
  - intros k Hc Ht Hs. unfold encode_key. rewrite Hc, Hs. rewrite bool_decide_eq_false_2.
    + by destruct (ki_alt k).
    + intros E. apply Ht. rewrite <- (from_as_bytes (ki_text k)). by rewrite E.
Qed.

(** ** Witnesses *)

Definition vim_session : list vte_action :=
  [Print 97; enter_alternate; CsiDispatch [(5, [])] [] (ch "B"); CsiDispatch [(1, []); (31, [])] [] (ch "m");
   Print 98; Execute newline; leave_alternate].

Lemma screen_keeps_shape_witness :
  ∃ s, screen_run [Sequences vim_session; NewSize 100 30; NewSize 0 7] (TerminalScreen_new 80 24) = Some s ∧
    screen_ok 100 30 s.
Proof.
  assert (80 ≤ 32768 ∧ 24 ≤ 32768) as [Hc Hr] by lia.
  assert (Forall (λ i, match i with NewSize c r => c ≤ 32768 ∧ r ≤ 32768 | _ => True end)
    [Sequences vim_session; NewSize 100 30; NewSize 0 7]) as Hl by (repeat constructor; lia).
  exact (proj1 (screen_keeps_shape 80 24 _ Hc Hr Hl)).
Defined.

(** Up by 40000 rows is down to the last one. *)
Lemma cursor_moves_correct_witness :
  ts_cursor_row <$> csi_dispatch [(40000, [])] [] (ch "A") (TerminalScreen_new 80 24) = Some 23.
Proof.
  assert (0 < 40000 < u16_modulus) as Hn by (split; vm_compute; reflexivity).
  assert (80 ≤ 32767 ∧ 24 ≤ 32768) as [Hc Hr] by lia.
  assert (screen_ok 80 24 (TerminalScreen_new 80 24)) as Hs by (apply screen_new_ok; vm_compute; reflexivity).
  rewrite (proj1 (cursor_moves_correct 80 24 40000 [] [] _ Hs Hc Hr Hn)). vm_compute. reflexivity.
Defined.

Lemma terminal_shows_text_witness :
  ∃ s, perform_all (text_actions [97; 98; 99; 100] [[]; [101; 32]]) (TerminalScreen_new 3 3) = Some s ∧
    render_plain_text s = [100; 10; 10; 101; 10].
Proof.
  assert (0 < 3 < u16_modulus) as H by (split; vm_compute; reflexivity).
  destruct (terminal_shows_text 3 3 [97; 98; 99; 100] [[]; [101; 32]] H H) as (s & Hp & Hr).
  exists s. split; [exact Hp|]. rewrite Hr. vm_compute. reflexivity.
Defined.

Lemma alternate_screen_isolated_witness :
  ∃ s', perform_all ([enter_alternate] ++ [Print 98; EscDispatch (ch "c")] ++ [leave_alternate])
          (TerminalScreen_new 3 2) = Some s' ∧ render_plain_text s' = [10; 10].
Proof.
  destruct (perform_all ([enter_alternate] ++ [Print 98; EscDispatch (ch "c")] ++ [leave_alternate])
    (TerminalScreen_new 3 2)) as [s'|] eqn:E; [|vm_compute in E; congruence].
  exists s'. split; [reflexivity|].
  assert (Forall (λ a, switches a = false) [Print 98; EscDispatch (ch "c")]) as Hl by (repeat constructor).
  destruct (alternate_screen_isolated (TerminalScreen_new 3 2) _ s' eq_refl Hl E) as (_ & _ & Hr & _).
  rewrite Hr. vm_compute. reflexivity.
Defined.
