(* ===== verification/Terminal.v ===== *)
(** The local client of the service and the terminal session of the desktop application
    ([apps/fortiq-desktop/src/{ipc.rs,terminal/session.rs}]).

    A request is one line each way over a stream. A terminal session is two tasks: one
    writes the commands of the user and the answers to pings, the other reads frames and
    sizes and sends the text of the screen. Each event is one step of one task; a channel
    that is full or empty makes the step wait ([None]). *)

From S2P Require Import Prelude Text Object Concrete Ticket Event Graph GraphSort.
From S2P Require Import Reducer Authority Store Engine Codec Stream Config Shell Mnemonic Wire Sync.
From S2P Require Import Peers Admission Transfer Client Node Service Screen.

(** ** Requests *)

Inductive IpcClientError :=
| ConnectionFailed
| ConnectionClosed
| ResponseTooLarge
| Serialization
| DaemonError (message : string)
| IpcIo (e : io_kind).

(** [read_line] under [take], into a [String]: what ends before its line feed and before the
    limit meets the end of the stream. *)
Definition read_text_line (limit : nat) : StateM reader io_kind string := λ r,
  let '(line, rest) := read_line limit (rd_data r) in
  match rd_end r with
  | Some e =>
      if (length line <? limit)%nat && negb (bool_decide (last line = Some x0a))
      then (Err e, mkReader rest (rd_end r))
      else (ok_or (to_str line) InvalidData, mkReader rest (rd_end r))
  | None => (ok_or (to_str line) InvalidData, mkReader rest (rd_end r))
  end.

Definition write_line (json : option bytes) : StateM duplex IpcClientError unit :=
  let! json := slift (ok_or json Serialization) in
  let! _ := smap_err IpcIo (on_writer (write_all (json ++ line_feed))) in
  smap_err IpcIo (on_writer flush).

Section requests.
Context `{JQ : Json IpcRequest, JR : Json IpcResponse}.

Definition send_request (connected : bool) (req : IpcRequest) : StateM duplex IpcClientError IpcResponse :=
  let! _ := slift (if connected then Ok tt else Err ConnectionFailed) in
  let! _ := write_line (json_to_vec req) in
  let! line := smap_err IpcIo (on_reader (read_text_line (S MAX_IPC_LINE_BYTES))) in
  if bool_decide (line = ""%string) then sfail ConnectionClosed else
  if (MAX_IPC_LINE_BYTES <? length (as_bytes line))%nat then sfail ResponseTooLarge else
  let! resp := slift (ok_or (json_from_str (trim line)) Serialization) in
  match resp with
  | RError msg => sfail (DaemonError msg)
  | valid => sret valid
  end.
End requests.

(** ** The terminal session *)

Inductive TerminalCommand :=
| Input (payload : bytes)
| ResizeTerminal (cols rows : N)
| Close.

#[export] Instance TerminalCommand_eq_dec : EqDecision TerminalCommand.
Proof. solve_decision. Defined.

Record HandshakeResp := mkHandshakeResp { hr_status : string; hr_message : option string }.

Section handshake.
Context `{JI : Json TerminalSessionInit, JH : Json HandshakeResp}.

(** What [run_with_stream] does before it spawns its tasks. *)
Definition terminal_handshake (peer : string) (ticket_id : option string) (cols rows : N)
    : StateM duplex IpcClientError unit :=
  let init := mkTerminalSessionInit peer ticket_id cols rows None in
  let! _ := write_line (json_to_vec init) in
  let! status_line := smap_err IpcIo (on_reader (λ r, read_text_line (S (length (rd_data r))) r)) in
  let! resp := slift (ok_or (json_from_str (T := HandshakeResp) (trim status_line))
    (DaemonError "Invalid terminal handshake")) in
  if negb (bool_decide (hr_status resp = "ok"%string))
  then sfail (DaemonError (default "Connection denied"%string (hr_message resp)))
  else sret tt.
End handshake.

Definition CONTROL_CHANNEL : nat := 32.
Definition SIZE_CHANNEL : nat := 16.

Section session.
Context `{V : Vte}.

Record DeskState := mkDesk {
  dk_screen : TerminalScreen;
  dk_parser : vte_parser;
  dk_in : bytes;                  (** what arrived and no completed read took *)
  dk_texts : list (list N);       (** the texts sent to the window *)
  dk_control : list ShellFrame;   (** the channel to the writer *)
  dk_sizes : list (N * N);        (** the channel to the reader *)
  dk_out : writer;
  dk_reading : bool;              (** the reader runs *)
  dk_writing : bool               (** the writer runs *)
}.

Definition desk_start (cols rows : N) (w : writer) : DeskState :=
  mkDesk (TerminalScreen_new cols rows) vte_new [] [] [] [] w true true.

Inductive desk_event :=
| DkArrives (l : bytes)
| DkFrame (up : bool)                      (** a read completes; [up]: the window still listens *)
| DkEnd (e : option io_kind)               (** the stream ends or fails *)
| DkSize (consumed : nat) (up : bool)      (** a size is taken while the pending read has consumed some bytes *)
| DkControl
| DkCommand (cmd : option TerminalCommand).

Definition set_in (l : bytes) (s : DeskState) : DeskState :=
  mkDesk (dk_screen s) (dk_parser s) l (dk_texts s) (dk_control s) (dk_sizes s) (dk_out s)
    (dk_reading s) (dk_writing s).
Definition set_display (p : vte_parser) (screen : TerminalScreen) (s : DeskState) : DeskState :=
  mkDesk screen p (dk_in s) (dk_texts s) (dk_control s) (dk_sizes s) (dk_out s) (dk_reading s) (dk_writing s).
Definition set_control (l : list ShellFrame) (s : DeskState) : DeskState :=
  mkDesk (dk_screen s) (dk_parser s) (dk_in s) (dk_texts s) l (dk_sizes s) (dk_out s) (dk_reading s) (dk_writing s).
Definition set_queued_sizes (l : list (N * N)) (s : DeskState) : DeskState :=
  mkDesk (dk_screen s) (dk_parser s) (dk_in s) (dk_texts s) (dk_control s) l (dk_out s) (dk_reading s) (dk_writing s).
Definition set_out (w : writer) (alive : bool) (s : DeskState) : DeskState :=
  mkDesk (dk_screen s) (dk_parser s) (dk_in s) (dk_texts s) (dk_control s) (dk_sizes s) w (dk_reading s) alive.

(** The end of the reader's loop, which aborts the writer. *)
Definition end_reader (s : DeskState) : DeskState :=
  mkDesk (dk_screen s) (dk_parser s) (dk_in s) (dk_texts s) (dk_control s) (dk_sizes s) (dk_out s) false false.

(** The reader panics: nobody aborts the writer. *)
Definition panic_reader (s : DeskState) : DeskState :=
  mkDesk (dk_screen s) (dk_parser s) (dk_in s) (dk_texts s) (dk_control s) (dk_sizes s) (dk_out s)
    false (dk_writing s).

(** [render_plain_text] and [text_update_tx.send]. *)
Definition send_text (up : bool) (s : DeskState) : DeskState :=
  if up then
    mkDesk (dk_screen s) (dk_parser s) (dk_in s) (dk_texts s ++ [render_plain_text (dk_screen s)])
      (dk_control s) (dk_sizes s) (dk_out s) (dk_reading s) (dk_writing s)
  else end_reader s.

(** What the reader does with a frame. *)
Definition desk_frame (up : bool) (f : ShellFrame) (s : DeskState) : option DeskState :=
  match f with
  | Data payload =>
      let '(actions, p) := vte_advance (dk_parser s) payload in
      Some match perform_all actions (dk_screen s) with
           | Some screen => send_text up (set_display p screen s)
           | None => panic_reader s
           end
  | Ping =>
      if negb (dk_writing s) then Some s
      else if (length (dk_control s) <? CONTROL_CHANNEL)%nat then Some (set_control (dk_control s ++ [Pong]) s)
      else None
  | Pong => Some s
  | Resize cols rows => Some (send_text up (set_display (dk_parser s) (screen_resize cols rows (dk_screen s)) s))
  end.

(** [frame.write_to(&mut write_half)], whose failure ends the writer. *)
Definition desk_write (f : ShellFrame) (s : DeskState) : DeskState :=
  match ShellFrame_write_to f (dk_out s) with
  | (Ok _, w) => set_out w true s
  | (Err _, w) => set_out w false s
  end.

Definition desk_command (cmd : option TerminalCommand) (s : DeskState) : option DeskState :=
  match cmd with
  | Some (Input payload) => Some (desk_write (Data payload) s)
  | Some (ResizeTerminal cols rows) =>
      if negb (dk_reading s) then Some (desk_write (Resize cols rows) s)
      else if (length (dk_sizes s) <? SIZE_CHANNEL)%nat
      then Some (desk_write (Resize cols rows) (set_queued_sizes (dk_sizes s ++ [(cols, rows)]) s))
      else None
  | Some Close | None => Some (set_out (dk_out s) false s)
  end.

(** The pending read has taken bytes but no frame: [select!] drops it with them. *)
Definition unfinished (l : bytes) : bool :=
  match ShellFrame_read_from (mkReader l None) with
  | (Ok (Some _), _) => false
  | (Err InvalidData, _) => false
  | _ => true
  end.

Definition desk_step (e : desk_event) (s : DeskState) : option DeskState :=
  match e with
  | DkArrives l => Some (set_in (dk_in s ++ l) s)
  | DkFrame up =>
      if negb (dk_reading s) then None else
      match ShellFrame_read_from (mkReader (dk_in s) None) with
      | (Ok (Some f), r) => desk_frame up f (set_in (rd_data r) s)
      | (Err InvalidData, r) => Some (end_reader (set_in (rd_data r) s))
      | _ => None
      end
  | DkEnd e =>
      if negb (dk_reading s) then None else
      match ShellFrame_read_from (mkReader (dk_in s) e) with
      | (Ok (Some _), _) => None
      | (_, r) => Some (end_reader (set_in (rd_data r) s))
      end
  | DkSize consumed up =>
      if negb (dk_reading s) then None else
      match dk_sizes s with
      | [] => None
      | (cols, rows) :: sizes =>
          if (consumed <=? length (dk_in s))%nat && unfinished (take consumed (dk_in s)) then
            Some (send_text up (set_display (dk_parser s) (screen_resize cols rows (dk_screen s))
              (set_queued_sizes sizes (set_in (drop consumed (dk_in s)) s))))
          else None
      end
  | DkControl =>
      if negb (dk_writing s) then None else
      match dk_control s with
      | f :: q => Some (desk_write f (set_control q s))
      | [] => None
      end
  | DkCommand cmd => if negb (dk_writing s) then None else desk_command cmd s
  end.

Fixpoint desk_run (l : list desk_event) (s : DeskState) : option DeskState :=
  match l with
  | [] => Some s
  | e :: l => s ← desk_step e s; desk_run l s
  end.
End session.

(** ** One request *)

(** JSON as it is written: text without control characters, with no white space around. *)
Class JsonText T `{Json T} := {
  json_text x l : json_to_vec x = Some l →
    (x0a ∉ l) ∧ l ≠ [] ∧ utf8_valid (l ++ line_feed) = true ∧ trim_bytes (l ++ line_feed) = l
}.

Lemma read_text_line_of l rest e limit :
  x0a ∉ l → (length l < limit)%nat → utf8_valid (l ++ line_feed) = true →
  read_text_line limit (mkReader ((l ++ line_feed) ++ rest) e) =
    (Ok (from_bytes (l ++ line_feed)), mkReader rest e).
Proof.
  intros Hn Hl Hu. unfold read_text_line. cbn [rd_data rd_end].
  rewrite <- app_assoc, read_line_app by done. unfold to_str. rewrite Hu.
  assert (last (l ++ line_feed) = Some x0a) as -> by apply last_snoc.
  rewrite bool_decide_eq_true_2 by done. rewrite andb_false_r. by destruct e.
Qed.

Lemma trim_text l : trim_bytes (l ++ line_feed) = l → trim (from_bytes (l ++ line_feed)) = from_bytes l.
Proof. intros H. unfold trim. by rewrite as_from_bytes, H. Qed.

Lemma from_bytes_nonempty l : l ≠ [] → from_bytes l ≠ ""%string.
Proof. intros H E. apply H. rewrite <- (as_from_bytes l), E. done. Qed.

Lemma read_line_full limit l text rest :
  x0a ∉ l → (limit ≤ S (length l))%nat → read_line limit (l ++ line_feed) = (text, rest) → length text = limit.
Proof.
  revert limit text rest. induction l as [|b l IH]; intros limit text rest Hn Hl.
  - destruct limit as [|[|limit]]; simpl in Hl; [by intros [= <- <-]|by intros [= <- <-]|lia].
  - destruct limit as [|limit]; [by intros [= <- <-]|]. simpl in *. rewrite bool_decide_eq_false_2 by set_solver.
    destruct (read_line limit (l ++ line_feed)) as [text' rest'] eqn:E. intros [= <- <-]. simpl. f_equal.
    eapply IH; [set_solver| |exact E]. lia.
Qed.

Section request_properties.
Context `{CC : Crypto, HX : Hex, BC : BodyCodec, OC : ObjectCodec, SHA : Sha256, HK : Hkdf, UU : Uuid}.
Context `{LP : Libp2p, CB : Cbor OperatorSessionCertificate, ET : ErrorText}.
Context `{JQ : Json IpcRequest, JQL : !JsonLaws IpcRequest, JQT : !JsonText IpcRequest}.
Context `{JR : Json IpcResponse, JRL : !JsonLaws IpcResponse, JRT : !JsonText IpcResponse}.
Context {St : Type} `{OS : !ObjectStore St}.
Implicit Types (s : ServiceState (St := St)) (h : service_host).

(** The service's side of one request: its answer to the only line of a connection. *)
Lemma handle_line fuel h ios up s req line :
  json_to_vec req = Some line → (length line < MAX_IPC_LINE_BYTES)%nat →
  handle_client (S (S fuel)) h ios up 0 (line ++ line_feed) s =
    let '(response, commands, s') := process_request h (ios 0%nat) req s in
    Some (if bool_decide (is_Some (json_to_vec response)) && up 0%nat
          then mkClientEnd false [response] commands s' else mkClientEnd true [] commands s').
Proof.
  intros Hj Hl. destruct (json_text req line Hj) as (Hn & Hne & Hu & Ht).
  pose proof (read_line_app (S MAX_IPC_LINE_BYTES) line [] Hn ltac:(lia)) as Hr. rewrite app_nil_r in Hr.
  cbn [handle_client]. rewrite Hr.
  unfold to_str. rewrite Hu. cbv iota. rewrite bool_decide_eq_false_2 by (by destruct line).
  rewrite (proj2 (Nat.ltb_ge _ _)) by (rewrite length_app; simpl; lia).
  unfold answer_line. rewrite (trim_text _ Ht), bool_decide_eq_false_2 by (by apply from_bytes_nonempty).
  unfold json_from_str. rewrite as_from_bytes, (json_roundtrip _ _ Hj).
  destruct (process_request _ _ _ _) as [[response commands] s']. destruct (_ && _); [|done]. simpl.
  by rewrite app_nil_r.
Qed.

Lemma handle_request_line h ios up s req line response answer commands s' :
  json_to_vec req = Some line → (length line < MAX_IPC_LINE_BYTES)%nat →
  process_request h (ios 0%nat) req s = (response, commands, s') →
  json_to_vec response = Some answer → up 0%nat = true →
  handle_client (S (length (line ++ line_feed))) h ios up 0 (line ++ line_feed) s =
    Some (mkClientEnd false [response] commands s').
Proof.
  intros Hj Hl Hp Ha Hup. rewrite length_app, Nat.add_comm. cbn [length line_feed Nat.add].
  rewrite (handle_line _ _ _ _ _ _ _ Hj Hl), Hp, Hup. by rewrite bool_decide_eq_true_2 by (by eexists).
Qed.

(** The client's side: what it writes, and what it makes of the line it gets. *)
Lemma send_request_line req line reader out :
  json_to_vec req = Some line →
  send_request true req (reader, mkWriter out None) =
    let '(r, reader') := smap_err IpcIo (read_text_line (S MAX_IPC_LINE_BYTES)) reader in
    (match r with
     | Err e => Err e
     | Ok text =>
         if bool_decide (text = ""%string) then Err ConnectionClosed else
         if (MAX_IPC_LINE_BYTES <? length (as_bytes text))%nat then Err ResponseTooLarge else
         match json_from_str (trim text) with
         | None => Err Serialization
         | Some (RError msg) => Err (DaemonError msg)
         | Some valid => Ok valid
         end
     end, (reader', mkWriter (out ++ line ++ line_feed) None)).
Proof.
  intros Hj. unfold send_request, write_line, sbind, slift, smap_err, on_writer, on_reader. rewrite Hj. simpl.
  destruct (read_text_line _ reader) as [[text|e] reader']; simpl; [|done].
  case_bool_decide; [done|]. destruct (_ <? _)%nat; [done|].
  destruct (json_from_str (trim text)) as [resp|]; [|done]. by destruct resp.
Qed.

(** What the service answered, to its caller. *)
Definition answered_as (response : IpcResponse) : result IpcClientError IpcResponse :=
  match response with RError msg => Err (DaemonError msg) | valid => Ok valid end.

(** An answer is read whole, or refused for its length. *)
Lemma client_reads_answer req line response answer out :
  json_to_vec req = Some line → json_to_vec response = Some answer →
  (send_request true req (reader_of (answer ++ line_feed), mkWriter out None)).2.2 =
    mkWriter (out ++ line ++ line_feed) None ∧
  let outcome := (send_request true req (reader_of (answer ++ line_feed), mkWriter out None)).1 in
  if (MAX_IPC_LINE_BYTES <=? length answer)%nat
  then outcome = Err ResponseTooLarge ∨ outcome = Err (IpcIo InvalidData)
  else outcome = answered_as response.
Proof.
  intros Hj Ha. rewrite (send_request_line _ _ _ _ Hj). split; [by destruct (smap_err _ _ _)|].
  destruct (json_text response answer Ha) as (Hn & Hne & Hu & Ht). unfold smap_err, reader_of.
  destruct (Nat.leb_spec MAX_IPC_LINE_BYTES (length answer)) as [Hle|Hlt].
  - unfold read_text_line. cbn [rd_data rd_end].
    destruct (read_line (S MAX_IPC_LINE_BYTES) (answer ++ line_feed)) as [text rest] eqn:E.
    assert (length text = S MAX_IPC_LINE_BYTES) as Hlen
      by (apply (read_line_full _ answer _ rest); [done|lia|exact E]).
    unfold to_str. destruct (utf8_valid text); simpl; [|by right]. left.
    rewrite bool_decide_eq_false_2 by (apply from_bytes_nonempty; by destruct text).
    rewrite as_from_bytes, Hlen. by rewrite (proj2 (Nat.ltb_lt _ _)) by lia.
  - pose proof (read_text_line_of answer [] None (S MAX_IPC_LINE_BYTES) Hn ltac:(lia) Hu) as Hr.
    rewrite app_nil_r in Hr. rewrite Hr. cbn [map_err fst].
    rewrite bool_decide_eq_false_2 by (apply from_bytes_nonempty; by destruct answer).
    rewrite as_from_bytes, (proj2 (Nat.ltb_ge _ _)) by (rewrite length_app; simpl; lia).
    unfold json_from_str. rewrite (trim_text _ Ht), as_from_bytes, (json_roundtrip _ _ Ha). by destruct response.
Qed.

(** C37. A request over the local stream. Client and service fed each other agree: what the
    service made of the request is what the client gets, an error as an error of the
    service; an answer of 64 KiB or more, which the service writes without looking at its
    size, is lost to the client although the request was carried out. *)
Theorem local_request_answered h ios up s req line response answer commands s' out :
  json_to_vec req = Some line → (length line < MAX_IPC_LINE_BYTES)%nat →
  process_request h (ios 0%nat) req s = (response, commands, s') →
  json_to_vec response = Some answer → up 0%nat = true →
  (send_request true req (reader_of (answer ++ line_feed), mkWriter out None)).2.2 =
    mkWriter (out ++ line ++ line_feed) None ∧
  handle_client (S (length (line ++ line_feed))) h ios up 0 (line ++ line_feed) s =
    Some (mkClientEnd false [response] commands s') ∧
  (let outcome := (send_request true req (reader_of (answer ++ line_feed), mkWriter out None)).1 in
   if (MAX_IPC_LINE_BYTES <=? length answer)%nat
   then outcome = Err ResponseTooLarge ∨ outcome = Err (IpcIo InvalidData)
   else outcome = match response with RError msg => Err (DaemonError msg) | valid => Ok valid end).
Proof.
  intros Hj Hl Hp Ha Hup. destruct (client_reads_answer _ _ _ _ out Hj Ha) as [Hw H].
  split; [exact Hw|]. split; [by eapply handle_request_line|exact H].
Qed.
End request_properties.

(** ** The first lines of a terminal *)

Section handshake_properties.
Context `{CC : Crypto, HX : Hex, BC : BodyCodec, OC : ObjectCodec, SHA : Sha256, HK : Hkdf, UU : Uuid}.
Context `{LP : Libp2p, CB : Cbor OperatorSessionCertificate, ET : ErrorText}.
Context `{JI : Json TerminalSessionInit, JIL : !JsonLaws TerminalSessionInit, JIT : !JsonText TerminalSessionInit}.
Context `{JH : Json HandshakeResp, JHL : !JsonLaws HandshakeResp, JHT : !JsonText HandshakeResp}.
Context {St : Type} `{OS : !ObjectStore St}.
Implicit Types (s : ServiceState (St := St)) (h : service_host).

(** Opening a terminal through the service. The desktop sends its line and no frame before it;
    the service that bridges the connection read exactly that line, with the frames that
    follow left on the stream; and of the service's line the desktop takes the status,
    with the frames that follow left too. *)
Theorem terminal_opening_agreed h io opened s peer ticket cols rows sent resp status frames output out :
  json_to_vec (mkTerminalSessionInit peer ticket cols rows None) = Some sent →
  json_to_vec resp = Some status →
  terminal_handshake peer ticket cols rows (reader_of ((status ++ line_feed) ++ output), mkWriter out None) =
    (if bool_decide (hr_status resp = "ok"%string) then Ok tt
     else Err (DaemonError (default "Connection denied"%string (hr_message resp))),
     (reader_of output, mkWriter (out ++ sent ++ line_feed) None)) ∧
  let input := ((sent ++ line_feed) ++ frames) in
  (read_line (S (length input)) input).2 = frames ∧
  ∀ init token, (handle_terminal_client h io opened input s).1.1 = TerminalBridged init token →
    init = mkTerminalSessionInit peer ticket cols rows None.
Proof.
  intros Hs Hr. destruct (json_text _ _ Hs) as (Hn & Hne & Hu & Ht). destruct (json_text _ _ Hr) as (Hn' & Hne' & Hu' & Ht').
  split; [|intros input; split].
  - unfold terminal_handshake, write_line, sbind, slift, smap_err, on_writer, on_reader, reader_of. rewrite Hs. simpl.
    rewrite read_text_line_of by (done || (rewrite !length_app; simpl; lia)). simpl. unfold json_from_str.
    rewrite (trim_text _ Ht'), as_from_bytes, (json_roundtrip _ _ Hr). simpl. by case_bool_decide.
  - subst input. rewrite <- app_assoc, read_line_app; [done|done|]. rewrite !length_app. lia.
  - intros init token. unfold handle_terminal_client.
    destruct (is_operator_authorized _ _) as [ok s1]. destruct ok; [|done]. simpl.
    assert (read_init input = Some (Some (from_bytes (sent ++ line_feed)))) as Hri.
    { unfold read_init, input.
      rewrite <- app_assoc, read_line_app by (done || (rewrite !length_app; lia)). simpl. unfold to_str. rewrite Hu.
      by rewrite bool_decide_eq_false_2 by (apply from_bytes_nonempty; by destruct sent). }
    rewrite Hri. destruct (terminal_command _ _ _ _ _) as [[[i command] session]|] eqn:Hc; [|done].
    assert (i = mkTerminalSessionInit peer ticket cols rows None) as ->.
    { unfold terminal_command, json_from_str in Hc.
      rewrite (trim_text _ Ht), as_from_bytes, (json_roundtrip _ _ Hs) in Hc. cbn [ok_or] in Hc.
      destruct (parse_peer_id _); [|done]. cbn [ok_or] in Hc. case_bool_decide; [done|].
      destruct (negb _); [done|]. destruct (tsi_ticket_id _) as [t|]; [|done]. case_bool_decide; [done|].
      destruct (engine_get_ticket _ _); [|done]. cbn [ok_or] in Hc.
      destruct (sv_session _); [|done]. by injection Hc as <- _ _. }
    destruct (rq_send io); [|done]. simpl. destruct opened as [|[[[]|]| |]]; try done. by intros [= <- _].
Qed.
End handshake_properties.

(** ** What the terminal shows *)

(** What the reader takes, one after the other. *)
Inductive shown := ShFrame (f : ShellFrame) | ShSize (cols rows : N).

Definition shown_frames (l : list shown) : list ShellFrame :=
  omap (λ x, match x with ShFrame f => Some f | _ => None end) l.
Definition shown_sizes (l : list shown) : list (N * N) :=
  omap (λ x, match x with ShSize c r => Some (c, r) | _ => None end) l.

Section session_properties.
Context `{V : Vte}.

Abbreviation display := (list (list N) * vte_parser * TerminalScreen)%type.

Definition display_step (x : shown) (d : display) : option display :=
  let '(texts, p, screen) := d in
  match x with
  | ShFrame (Data payload) =>
      let '(actions, p) := vte_advance p payload in
      screen ← perform_all actions screen;
      Some (texts ++ [render_plain_text screen], p, screen)
  | ShFrame (Resize cols rows) | ShSize cols rows =>
      let screen := screen_resize cols rows screen in
      Some (texts ++ [render_plain_text screen], p, screen)
  | ShFrame _ => Some d
  end.

Fixpoint display_all (l : list shown) (d : display) : option display :=
  match l with
  | [] => Some d
  | x :: l => d ← display_step x d; display_all l d
  end.

Lemma display_all_app l k d : display_all (l ++ k) d = display_all l d ≫= display_all k.
Proof. revert d. induction l as [|x l IH]; intros d; simpl; [done|]. destruct (display_step x d); simpl; auto. Qed.

Lemma desk_run_app l k s : desk_run (l ++ k) s = desk_run l s ≫= desk_run k.
Proof. revert s. induction l as [|e l IH]; intros s; simpl; [done|]. destruct (desk_step e s); simpl; auto. Qed.

Definition arrived (l : list desk_event) : bytes :=
  concat (omap (λ e, match e with DkArrives b => Some b | _ => None end) l).
Definition asked_sizes (l : list desk_event) : list (N * N) :=
  omap (λ e, match e with DkCommand (Some (ResizeTerminal c r)) => Some (c, r) | _ => None end) l.
Definition command_frames (l : list desk_event) : list ShellFrame :=
  omap (λ e, match e with
             | DkCommand (Some (Input p)) => Some (Data p)
             | DkCommand (Some (ResizeTerminal c r)) => Some (Resize c r)
             | _ => None
             end) l.

(** Nothing is lost: the window listens, sizes are taken between frames, commands fit. *)
Definition lossless (e : desk_event) : Prop :=
  match e with
  | DkFrame up => up = true
  | DkSize consumed up => consumed = 0%nat ∧ up = true
  | DkCommand (Some (Input p)) => blen p < u16_modulus
  | DkCommand (Some (ResizeTerminal c r)) => c < u16_modulus ∧ r < u16_modulus
  | _ => True
  end.

Definition not_pong (f : ShellFrame) : Prop := f ≠ Pong.
#[export] Instance not_pong_dec f : Decision (not_pong f).
Proof. unfold not_pong. apply _. Defined.

(** How the state of a session comes from what it took. *)
Record desk_inv (cols rows : N) (sent : list ShellFrame) (events : list desk_event) (s : DeskState)
    (l : list shown) (written : list ShellFrame) : Prop := {
  di_display : display_all l ([], vte_new, TerminalScreen_new cols rows) = Some (dk_texts s, dk_parser s, dk_screen s);
  di_sent : shown_frames l `prefix_of` sent;
  di_in : arrived events = concat (frame_bytes <$> shown_frames l) ++ dk_in s;
  di_sizes : shown_sizes l ++ dk_sizes s = asked_sizes events;
  di_out : dk_out s = mkWriter (concat (frame_bytes <$> written)) None;
  di_commands : filter not_pong written = command_frames events;
  di_pongs : dk_writing s = true →
    (occ Pong written + length (dk_control s))%nat = occ Ping (shown_frames l) ∧ Forall (λ f, f = Pong) (dk_control s)
}.

(** More bytes do not change the frame that is read. *)
Lemma read_frame_extend l more f r :
  ShellFrame_read_from (mkReader l None) = (Ok (Some f), r) →
  ShellFrame_read_from (mkReader (l ++ more) None) = (Ok (Some f), mkReader (rd_data r ++ more) None).
Proof.
  intros H. destruct (read_frame_sound _ _ _ H) as (Hf & _ & [Hd|(a & b & [[-> Hd]|[-> Hd]])]); simpl in Hd; subst l.
  - rewrite <- app_assoc. by apply read_frame_bytes.
  - done.
  - done.
Qed.

(** On a stream of frames the frame that is read is the next one. *)
Lemma read_frame_next sent l more f r :
  Forall frame_ok sent → l ++ more = concat (frame_bytes <$> sent) →
  ShellFrame_read_from (mkReader l None) = (Ok (Some f), r) →
  ∃ sent', sent = f :: sent' ∧ l = frame_bytes f ++ rd_data r.
Proof.
  intros Hs Hl H. apply (read_frame_extend l more) in H as He. rewrite Hl in He.
  destruct sent as [|g sent]; [done|]. apply Forall_cons in Hs as [Hg Hs]. simpl in He.
  rewrite read_frame_bytes in He by done. injection He as -> E. exists sent. split; [done|].
  simpl in Hl. rewrite E, app_assoc in Hl. by apply app_inv_tail in Hl.
Qed.

Lemma desk_write_Ok f s out :
  dk_out s = mkWriter out None → frame_ok f →
  desk_write f s = set_out (mkWriter (out ++ frame_bytes f) None) true s.
Proof. intros Ho Hf. unfold desk_write. by rewrite Ho, write_frame_Ok. Qed.

Lemma arrived_snoc l e : arrived (l ++ [e]) = arrived l ++ match e with DkArrives b => b | _ => [] end.
Proof. unfold arrived. rewrite omap_app, concat_app. f_equal. destruct e; simpl; by rewrite ?app_nil_r. Qed.

Lemma asked_snoc l e :
  asked_sizes (l ++ [e]) =
    asked_sizes l ++ match e with DkCommand (Some (ResizeTerminal c r)) => [(c, r)] | _ => [] end.
Proof. unfold asked_sizes. rewrite omap_app. by destruct e as [| | | | |[[]|]]. Qed.

Lemma command_snoc l e :
  command_frames (l ++ [e]) =
    command_frames l ++ match e with
      | DkCommand (Some (Input p)) => [Data p]
      | DkCommand (Some (ResizeTerminal c r)) => [Resize c r]
      | _ => []
      end.
Proof. unfold command_frames. rewrite omap_app. by destruct e as [| | | | |[[]|]]. Qed.

Lemma shown_frames_snoc l x :
  shown_frames (l ++ [x]) = shown_frames l ++ match x with ShFrame f => [f] | _ => [] end.
Proof. unfold shown_frames. rewrite omap_app. by destruct x. Qed.

Lemma shown_sizes_snoc l x :
  shown_sizes (l ++ [x]) = shown_sizes l ++ match x with ShSize c r => [(c, r)] | _ => [] end.
Proof. unfold shown_sizes. rewrite omap_app. by destruct x. Qed.

Lemma frames_bytes_snoc l f : concat (frame_bytes <$> l ++ [f]) = concat (frame_bytes <$> l) ++ frame_bytes f.
Proof. rewrite fmap_app, concat_app. simpl. by rewrite app_nil_r. Qed.

Section steps.
Context (cols rows : N) (sent : list ShellFrame) (Hsent : Forall frame_ok sent).
Abbreviation inv := (desk_inv cols rows sent).

(** A frame is taken: everything about it but its own effect. *)
Lemma desk_inv_frame events up s l written more f r :
  inv events s l written → arrived events ++ more = concat (frame_bytes <$> sent) →
  ShellFrame_read_from (mkReader (dk_in s) None) = (Ok (Some f), r) →
  shown_frames (l ++ [ShFrame f]) `prefix_of` sent ∧
  arrived (events ++ [DkFrame up]) = concat (frame_bytes <$> shown_frames (l ++ [ShFrame f])) ++ rd_data r.
Proof.
  intros [] Hmore Hread. destruct di_sent0 as [sent2 Hs]. rewrite di_in0, Hs, fmap_app, concat_app, <- app_assoc in Hmore.
  apply app_inv_head in Hmore. rewrite Hs in Hsent. apply Forall_app in Hsent as [_ Hs2].
  destruct (read_frame_next _ _ _ _ _ Hs2 Hmore Hread) as (sent' & -> & Hin).
  rewrite shown_frames_snoc. split.
  - exists sent'. by rewrite Hs, <- app_assoc.
  - by rewrite arrived_snoc, app_nil_r, di_in0, frames_bytes_snoc, <- app_assoc, <- Hin.
Qed.

Lemma occ_snoc {A} `{EqDecision A} (x y : A) l : occ x (l ++ [y]) = (occ x l + if decide (y = x) then 1 else 0)%nat.
Proof. rewrite occ_app. simpl. case_decide; lia. Qed.

Lemma desk_frame_inv events s l written more f r s' :
  inv events s l written → arrived events ++ more = concat (frame_bytes <$> sent) →
  ShellFrame_read_from (mkReader (dk_in s) None) = (Ok (Some f), r) →
  desk_frame true f (set_in (rd_data r) s) = Some s' → dk_reading s' = true →
  inv (events ++ [DkFrame true]) s' (l ++ [ShFrame f]) written.
Proof.
  intros H Hmore Hread Hf Hr. destruct (desk_inv_frame _ true _ _ _ _ _ _ H Hmore Hread) as [Hpre Harr].
  destruct H. assert (Hd : ∀ x d, display_step x (dk_texts s, dk_parser s, dk_screen s) = Some d →
    display_all (l ++ [x]) ([], vte_new, TerminalScreen_new cols rows) = Some d).
  { intros x d Hx. rewrite display_all_app, di_display0. cbn [mbind option_bind display_all]. by rewrite Hx. }
  destruct f as [payload|c n| |]; simpl in Hf.
  - destruct (vte_advance (dk_parser s) payload) as [actions p] eqn:Ha.
    destruct (perform_all actions (dk_screen s)) as [screen|] eqn:Hp; injection Hf as <-; [|done].
    split; simpl; try done; rewrite ?asked_snoc, ?command_snoc, ?shown_sizes_snoc, ?app_nil_r; try done.
    + apply Hd. simpl. by rewrite Ha, Hp.
    + rewrite shown_frames_snoc, occ_snoc. rewrite decide_False by done. by rewrite Nat.add_0_r.
  - injection Hf as <-. split; simpl; try done; rewrite ?asked_snoc, ?command_snoc, ?shown_sizes_snoc, ?app_nil_r; try done.
    + by apply Hd.
    + rewrite shown_frames_snoc, occ_snoc. rewrite decide_False by done. by rewrite Nat.add_0_r.
  - destruct (dk_writing s) eqn:Hw; simpl in Hf; [destruct (_ <? _)%nat; [|done]|]; injection Hf as <-;
      split; simpl; try done; rewrite ?asked_snoc, ?command_snoc, ?shown_sizes_snoc, ?app_nil_r; try done;
      try (by apply Hd).
    + intros _. destruct (di_pongs0 eq_refl) as [Hc Hall]. rewrite shown_frames_snoc, occ_snoc, decide_True by done.
      rewrite length_app. simpl. split; [lia|]. apply Forall_app. by rewrite Forall_singleton.
    + congruence.
  - injection Hf as <-. split; simpl; try done; rewrite ?asked_snoc, ?command_snoc, ?shown_sizes_snoc, ?app_nil_r; try done.
    + by apply Hd.
    + rewrite shown_frames_snoc, occ_snoc. rewrite decide_False by done. by rewrite Nat.add_0_r.
Qed.

Lemma desk_size_inv events s l written c n sizes s' :
  inv events s l written → dk_sizes s = (c, n) :: sizes →
  s' = send_text true (set_display (dk_parser s) (screen_resize c n (dk_screen s))
         (set_queued_sizes sizes (set_in (drop 0 (dk_in s)) s))) →
  inv (events ++ [DkSize 0 true]) s' (l ++ [ShSize c n]) written.
Proof.
  intros [] Hs ->. split; simpl; rewrite ?asked_snoc, ?command_snoc, ?arrived_snoc, ?shown_frames_snoc, ?shown_sizes_snoc, ?app_nil_r;
    try done.
  - by rewrite display_all_app, di_display0.
  - by rewrite <- di_sizes0, Hs, <- app_assoc.
Qed.

Lemma desk_control_inv events s l written f q s' :
  inv events s l written → dk_control s = f :: q → dk_writing s = true →
  s' = desk_write f (set_control q s) → inv (events ++ [DkControl]) s' l (written ++ [f]).
Proof.
  intros [] Hc Hw ->. destruct (di_pongs0 Hw) as [Hn Hall]. rewrite Hc in Hn, Hall. apply Forall_cons in Hall as [-> Hall].
  rewrite (desk_write_Ok _ (set_control q s) _ di_out0) by done. simpl in Hn.
  split; simpl; rewrite ?asked_snoc, ?command_snoc, ?arrived_snoc, ?app_nil_r; try done.
  - by rewrite frames_bytes_snoc.
  - rewrite filter_app, di_commands0, filter_cons_False by (intros H; by apply H). by rewrite app_nil_r.
  - intros _. rewrite occ_snoc, decide_True by done. split; [lia|done].
Qed.

(** A frame of the user is written. *)
Lemma desk_write_inv events s l written f e :
  inv events s l written → dk_writing s = true → frame_ok f → f ≠ Pong →
  arrived (events ++ [e]) = arrived events → asked_sizes (events ++ [e]) = asked_sizes events →
  command_frames (events ++ [e]) = command_frames events ++ [f] →
  inv (events ++ [e]) (desk_write f s) l (written ++ [f]).
Proof.
  intros [] Hw Hf Hn Ha Hq Hc. rewrite (desk_write_Ok _ _ _ di_out0) by done.
  split; simpl; rewrite ?Ha, ?Hq, ?Hc; try done.
  - by rewrite frames_bytes_snoc.
  - rewrite filter_app, di_commands0. by rewrite filter_cons_True.
  - intros _. destruct (di_pongs0 Hw) as [? ?]. rewrite occ_snoc, decide_False by done. split; [lia|done].
Qed.

Lemma desk_command_inv events s l written cmd s' :
  inv events s l written → dk_writing s = true → dk_reading s = true → lossless (DkCommand cmd) →
  desk_command cmd s = Some s' → ∃ written', inv (events ++ [DkCommand cmd]) s' l written'.
Proof.
  intros H Hw Hr Hl. destruct cmd as [[payload|c n|]|]; simpl.
  - intros [= <-]. eexists. apply desk_write_inv; [done..|by rewrite arrived_snoc, app_nil_r|by rewrite asked_snoc, app_nil_r|].
    by rewrite command_snoc.
  - rewrite Hr. simpl. destruct (_ <? _)%nat; [|done]. intros [= <-]. destruct H.
    rewrite (desk_write_Ok _ (set_queued_sizes (dk_sizes s ++ [(c, n)]) s) _ di_out0) by done. exists (written ++ [Resize c n]).
    split; simpl; rewrite ?asked_snoc, ?command_snoc, ?arrived_snoc, ?app_nil_r; try done.
    + by rewrite <- di_sizes0, app_assoc.
    + by rewrite frames_bytes_snoc.
    + rewrite filter_app, di_commands0. by rewrite filter_cons_True.
    + intros _. destruct (di_pongs0 Hw) as [? ?]. rewrite occ_snoc, decide_False by done. split; [lia|done].
  - intros [= <-]. exists written. destruct H.
    split; simpl; rewrite ?asked_snoc, ?command_snoc, ?arrived_snoc, ?app_nil_r; try done.
  - intros [= <-]. exists written. destruct H.
    split; simpl; rewrite ?asked_snoc, ?command_snoc, ?arrived_snoc, ?app_nil_r; try done.
Qed.

(** The reader never starts again. *)
Lemma desk_step_reading e s s' : desk_step e s = Some s' → dk_reading s' = true → dk_reading s = true.
Proof.
  destruct (dk_reading s) eqn:E; [done|]. destruct e as [b|up|o|k up| |cmd]; simpl; rewrite ?E; simpl; try done.
  - intros [= <-] H. simpl in H. congruence.
  - destruct (dk_writing s); [|done]. simpl. destruct (dk_control s) as [|f q]; [done|]. intros [= <-].
    unfold desk_write. destruct (ShellFrame_write_to _ _) as [[] w]; intros H; simpl in H; congruence.
  - destruct (dk_writing s); [|done]. simpl. destruct cmd as [[payload|c n|]|]; simpl; rewrite ?E; simpl;
      intros [= <-]; unfold desk_write; try destruct (ShellFrame_write_to _ (dk_out s)) as [[] w];
      intros H; simpl in H; congruence.
Qed.

Lemma desk_step_inv events e s l written more s' :
  inv events s l written → arrived (events ++ [e]) ++ more = concat (frame_bytes <$> sent) → lossless e →
  desk_step e s = Some s' → dk_reading s' = true →
  ∃ l' written', inv (events ++ [e]) s' l' written'.
Proof.
  intros H Hmore Hl Hstep Hr. pose proof (desk_step_reading _ _ _ Hstep Hr) as Hr0.
  rewrite arrived_snoc in Hmore. destruct e as [b|up|o|k up| |cmd]; simpl in Hstep; rewrite ?Hr0 in Hstep.
  - injection Hstep as <-. exists l, written. destruct H.
    split; simpl; rewrite ?asked_snoc, ?command_snoc, ?arrived_snoc, ?app_nil_r; try done.
    by rewrite di_in0, app_assoc.
  - simpl in Hl. subst up. rewrite app_nil_r in Hmore. simpl in Hstep.
    destruct (ShellFrame_read_from _) as [[[f|]|[]] r] eqn:Hread; try done.
    + exists (l ++ [ShFrame f]), written. by eapply desk_frame_inv.
    + by injection Hstep as <-.
  - simpl in Hstep. destruct (ShellFrame_read_from _) as [[[f|]|[]] r]; try done; by injection Hstep as <-.
  - destruct Hl as [-> ->]. simpl in Hstep. destruct (dk_sizes s) as [|[c n] sizes] eqn:Hs; [done|].
    injection Hstep as <-.
    exists (l ++ [ShSize c n]), written. by eapply desk_size_inv.
  - destruct (dk_writing s) eqn:Hw; [|done]. simpl in Hstep. destruct (dk_control s) as [|f q] eqn:Hc; [done|].
    injection Hstep as <-. exists l, (written ++ [f]). by eapply desk_control_inv.
  - destruct (dk_writing s) eqn:Hw; [|done]. simpl in Hstep. exists l. by eapply desk_command_inv.
Qed.

Lemma desk_run_inv events more s :
  arrived events ++ more = concat (frame_bytes <$> sent) → Forall lossless events →
  desk_run events (desk_start cols rows writer_new) = Some s → dk_reading s = true →
  ∃ l written, inv events s l written.
Proof.
  revert more s. induction events as [|e events IH] using rev_ind; intros more s Hmore Hl Hrun Hr.
  { injection Hrun as <-. exists [], []. split; simpl; try done. by apply prefix_nil. }
  apply Forall_app in Hl as [Hl He]. apply Forall_cons in He as [He _]. rewrite desk_run_app in Hrun.
  destruct (desk_run events _) as [s1|] eqn:H1; [|done]. simpl in Hrun.
  destruct (desk_step e s1) as [s2|] eqn:H2; [|done]. injection Hrun as ->.
  pose proof (desk_step_reading _ _ _ H2 Hr) as Hr1.
  destruct (IH (match e with DkArrives b => b | _ => [] end ++ more) s1) as (l & written & Hinv); try done.
  { by rewrite arrived_snoc, <- app_assoc in Hmore. }
  exact (desk_step_inv _ _ _ _ _ _ _ Hinv Hmore He H2 Hr).
Qed.
End steps.

(** C38. What a session shows and writes, as long as no size is taken in the middle of a frame, which the
    code does not prevent ([size_mid_frame_ends_session]). The reader took
    frames from the stream in order and the sizes the user asked for in order; the
    screen, the parser and the texts sent to the window are those these give, fed to them one frame at a
    time; the writer wrote the user's input and
    sizes in order and one answer to each ping, less those still queued. *)
Theorem desk_session_faithful cols rows sent events more s :
  Forall frame_ok sent → arrived events ++ more = concat (frame_bytes <$> sent) → Forall lossless events →
  desk_run events (desk_start cols rows writer_new) = Some s → dk_reading s = true →
  ∃ l written,
    shown_frames l `prefix_of` sent ∧ shown_sizes l ++ dk_sizes s = asked_sizes events ∧
    display_all l ([], vte_new, TerminalScreen_new cols rows) = Some (dk_texts s, dk_parser s, dk_screen s) ∧
    dk_out s = mkWriter (concat (frame_bytes <$> written)) None ∧
    filter not_pong written = command_frames events ∧
    (dk_writing s = true →
       (occ Pong written + length (dk_control s))%nat = occ Ping (shown_frames l)).
Proof.
  intros Hs Hmore Hl Hrun Hr.
  destruct (desk_run_inv cols rows sent Hs events more s Hmore Hl Hrun Hr) as (l & written & []).
  exists l, written. do 5 (split; [done|]). intros Hw. by apply di_pongs0.
Qed.

(** A size taken in the middle of a frame. The read it interrupts has already taken the
    header, and is started again on what follows: the output is read as a header, which
    ends the session with nothing of it shown. Taken before the header it does no harm. *)
Theorem size_mid_frame_ends_session s c n sizes b payload :
  dk_reading s = true → dk_in s = [] → dk_sizes s = (c, n) :: sizes →
  4 ≤ Byte.to_N b → 2 ≤ blen payload → blen (b :: payload) < u16_modulus →
  let frame := Data (b :: payload) in
  (∃ s', desk_run [DkArrives (take 3 (frame_bytes frame)); DkSize 3 true; DkArrives (b :: payload); DkFrame true] s = Some s' ∧
     dk_reading s' = false ∧ dk_writing s' = false ∧
     dk_texts s' = dk_texts s ++ [render_plain_text (screen_resize c n (dk_screen s))]) ∧
  (∃ s1, desk_run [DkSize 0 true; DkArrives (frame_bytes frame)] s = Some s1 ∧
     desk_step (DkFrame true) s1 = desk_frame true frame (set_in [] s1)).
Proof.
  intros Hr Hin Hs Hb Hp Hl frame.
  set (resized := send_text true (set_display (dk_parser s) (screen_resize c n (dk_screen s)) (set_queued_sizes sizes s))).
  split.
  - assert (take 3 (frame_bytes frame) = byte_of_N TAG_DATA :: be_bytes 2 (blen (b :: payload))) as Et by done.
    assert (unfinished (byte_of_N TAG_DATA :: be_bytes 2 (blen (b :: payload))) = true) as Hu.
    { unfold unfinished. rewrite <- (app_nil_r (_ :: _)), read_frame_header by done. cbv zeta.
      change (Byte.to_N (byte_of_N TAG_DATA) =? TAG_DATA) with true. cbv iota. rewrite be2_val by done.
      unfold sbind, read_exact. cbn [rd_data rd_end length]. unfold blen at 1. by rewrite Nat2N.id. }
    assert (ShellFrame_read_from (mkReader (b :: payload) None) = (Err InvalidData, mkReader (drop 2 payload) None)) as Hread.
    { destruct payload as [|x [|y payload]]; [unfold blen in Hp; simpl in Hp; lia..|].
      change (b :: x :: y :: payload) with ((b :: [x; y]) ++ payload). rewrite read_frame_header by done. cbv zeta.
      unfold TAG_DATA, TAG_RESIZE, TAG_PING, TAG_PONG. by rewrite !(proj2 (N.eqb_neq _ _)) by lia. }
    exists (end_reader (set_in (drop 2 payload) resized)). split; [|done].
    rewrite Et. cbn [desk_run desk_step mbind option_bind set_in dk_in dk_reading dk_sizes]. rewrite Hr, Hin, Hs.
    cbn [negb app]. rewrite take_ge by (simpl; rewrite ?length_be_bytes; lia). rewrite Hu.
    cbn [Nat.leb length be_bytes andb mbind option_bind desk_step]. simpl. rewrite ?Hr. simpl. by rewrite Hread.
  - exists (set_in (frame_bytes frame) resized). split; [subst resized; simpl; by rewrite !Hr, Hs, Hin|].
    cbn [desk_step]. assert (dk_reading (set_in (frame_bytes frame) resized) = true) as -> by exact Hr.
    cbn [negb set_in dk_in]. pose proof (read_frame_bytes frame [] None Hl) as Hread. rewrite app_nil_r in Hread.
    by rewrite Hread.
Qed.

Lemma desk_step_silent e s s' :
  desk_step e s = Some s' → dk_writing s = false → dk_writing s' = false ∧ dk_out s' = dk_out s.
Proof.
  intros H Hw. destruct e as [b|up|o|k up| |cmd]; simpl in H; rewrite ?Hw in H; try done.
  - by injection H as <-.
  - destruct (dk_reading s); [|done]. simpl in H.
    destruct (ShellFrame_read_from _) as [[[f|]|[]] r]; try done; [|by injection H as <-].
    destruct f as [payload|c n| |]; simpl in H; rewrite ?Hw in H; simpl in H.
    + destruct (vte_advance _ _) as [xs p]. injection H as <-. destruct (perform_all _ _), up; simpl; auto.
    + injection H as <-. by destruct up.
    + by injection H as <-.
    + by injection H as <-.
  - destruct (dk_reading s); [|done]. simpl in H.
    destruct (ShellFrame_read_from _) as [[[f|]|[]] r]; try done; by injection H as <-.
  - destruct (dk_reading s); [|done]. simpl in H. destruct (dk_sizes s) as [|[c n] sizes]; [done|].
    destruct (_ && _); [|done]. injection H as <-. by destruct up.
Qed.

(** Closing. The writer stops and nothing more goes out, not even the answers to pings; but
    the stream stays open, and the reader goes on: a frame it could take before it takes
    now, and only the end of the stream stops it. *)
Theorem desk_close_silent s s1 events s2 :
  desk_step (DkCommand (Some Close)) s = Some s1 → desk_run events s1 = Some s2 →
  dk_out s2 = dk_out s ∧ dk_writing s2 = false ∧ dk_reading s1 = dk_reading s ∧
  (∀ up, is_Some (desk_step (DkFrame up) s) → is_Some (desk_step (DkFrame up) s1)).
Proof.
  simpl. destruct (dk_writing s) eqn:Hw; [|done]. simpl. intros [= <-] Hrun.
  assert (dk_out s2 = dk_out s ∧ dk_writing s2 = false) as [Ho Hs2].
  { change (dk_out s) with (dk_out (set_out (dk_out s) false s)).
    assert (dk_writing (set_out (dk_out s) false s) = false) as Hf by done.
    revert Hrun Hf. generalize (set_out (dk_out s) false s) as s0.
    induction events as [|e events IH]; intros s0; simpl; [by intros [= <-]|].
    intros (s3 & H3 & Hrun)%bind_Some Hf. destruct (desk_step_silent _ _ _ H3 Hf) as [Hw3 Ho3].
    destruct (IH _ Hrun Hw3) as [-> ?]. done. }
  do 3 (split; [done|]). intros up. cbn [set_out dk_reading dk_in]. destruct (dk_reading s); [|done]. simpl.
  destruct (ShellFrame_read_from _) as [[[f|]|[]] r]; try done. destruct f; simpl; try by eexists.
  destruct (vte_advance _ _). by eexists.
Qed.
End session_properties.
