(* ===== verification/TerminalRuns.v ===== *)
(** Runs of the local client and of the terminal session of the desktop on the concrete service
    of ServiceRuns.v and on a terminal without sequences: the hypotheses of the theorems
    of Terminal.v hold there. *)

From S2P Require Import Prelude Text Object Concrete Ticket Event Graph GraphSort.
From S2P Require Import Reducer Authority Store Engine EngineRuns Codec Config Stream Shell Mnemonic Wire Sync Peers.
From S2P Require Import Admission Transfer Client SyncRuns Node Service ServiceRuns Screen Terminal.

#[local] Existing Instance toy_libp2p.
#[local] Existing Instance toy_cbor.
#[local] Existing Instance toy_sha256.
#[local] Existing Instance toy_uuid.
#[local] Existing Instance toy_error_text.
#[local] Existing Instance toy_hkdf.

(** A JSON with one value is text. *)
Lemma single_json_text {T} (x : T) p : JsonText T (H := single_json x p).
Proof.
  split. intros y l. simpl. destruct (p y); [|done]. intros [= <-].
  split; [apply (bool_decide_eq_true_1 (_ ∉ _)); vm_compute; reflexivity|].
  split; [done|]. split; vm_compute; reflexivity.
Qed.

Definition is_status_request (r : IpcRequest) : bool := match r with GetOperatorStatus => true | _ => false end.
Definition is_locked_answer (r : IpcResponse) : bool :=
  match r with
  | ROperatorStatus (mkOperatorStatus false None None []) => true
  | _ => false
  end.

#[local] Instance request_line_json : Json IpcRequest := single_json GetOperatorStatus is_status_request.
#[local] Instance response_line_json : Json IpcResponse := single_json (ROperatorStatus locked_status) is_locked_answer.

#[local] Instance request_line_laws : JsonLaws IpcRequest.
Proof. apply single_json_laws. by intros []. Qed.
#[local] Instance response_line_laws : JsonLaws IpcResponse.
Proof. apply single_json_laws. intros r. destruct r as [| | | | | | | | | | |[[] [] [] []]| |]; done. Qed.
#[local] Instance request_line_text : JsonText IpcRequest := single_json_text _ _.
#[local] Instance response_line_text : JsonText IpcResponse := single_json_text _ _.

Lemma local_request_answered_witness :
  (send_request true GetOperatorStatus (reader_of (as_bytes "{}" ++ line_feed), mkWriter [] None)).1 =
    Ok (ROperatorStatus locked_status).
Proof.
  assert (process_request (LP := toy_libp2p) operator_host ((λ _, toy_request 1000) 0%nat) GetOperatorStatus idle_service =
    (ROperatorStatus locked_status, [], idle_service)) as Hp by (vm_compute; reflexivity).
  assert (length (as_bytes "{}") < MAX_IPC_LINE_BYTES)%nat as Hl by (apply Nat.ltb_lt; vm_compute; reflexivity).
  destruct (local_request_answered (LP := toy_libp2p) (JQ := request_line_json) (JR := response_line_json)
    operator_host (λ _, toy_request 1000) (λ _, true) idle_service
    GetOperatorStatus (as_bytes "{}") (ROperatorStatus locked_status) (as_bytes "{}") [] idle_service []
    eq_refl Hl Hp eq_refl eq_refl) as (_ & _ & H).
  assert ((MAX_IPC_LINE_BYTES <=? length (as_bytes "{}"))%nat = false) as E by (vm_compute; reflexivity).
  rewrite E in H. exact H.
Defined.

(** ** A terminal without sequences *)

Definition toy_action (b : byte) : vte_action :=
  if Byte.to_N b <? 32 then Execute (Byte.to_N b) else Print (Byte.to_N b).

#[local] Instance toy_vte : Vte :=
  {| vte_parser := unit; vte_new := tt; vte_advance p l := (toy_action <$> l, p) |}.

Definition desk_sent : list ShellFrame := [Ping; Data (as_bytes "ab"); Data (as_bytes "c")].

Definition desk_events : list desk_event :=
  [DkArrives (concat (frame_bytes <$> desk_sent)); DkFrame true; DkCommand (Some (ResizeTerminal 3 1));
   DkControl; DkFrame true; DkSize 0 true; DkCommand (Some (Input (as_bytes "x")))].

Lemma desk_session_faithful_witness :
  ∃ s, desk_run desk_events (desk_start 2 1 writer_new) = Some s ∧
    dk_texts s = [[97; 98; 10]; [97; 98; 10]] ∧
    dk_out s = mkWriter (concat (frame_bytes <$> [Resize 3 1; Pong; Data (as_bytes "x")])) None ∧
    ∃ l, shown_frames l `prefix_of` desk_sent ∧ shown_sizes l ++ dk_sizes s = [(3, 1)].
Proof.
  destruct (desk_run desk_events (desk_start 2 1 writer_new)) as [s|] eqn:Hrun;
    [|vm_compute in Hrun; congruence].
  assert (Forall frame_ok desk_sent) as Hs by (repeat constructor).
  assert (Forall lossless desk_events) as Hl by (repeat constructor).
  assert (dk_reading s = true ∧ dk_texts s = [[97; 98; 10]; [97; 98; 10]] ∧
    dk_out s = mkWriter (concat (frame_bytes <$> [Resize 3 1; Pong; Data (as_bytes "x")])) None) as (Hr & Ht & Ho).
  { vm_compute in Hrun. injection Hrun as <-. vm_compute. repeat split. }
  assert (arrived desk_events ++ [] = concat (frame_bytes <$> desk_sent)) as Harr by (vm_compute; reflexivity).
  destruct (desk_session_faithful 2 1 desk_sent desk_events [] s Hs Harr Hl Hrun Hr) as (l & written & Hp & Hq & _).
  exists s. split; [reflexivity|]. split; [exact Ht|]. split; [exact Ho|]. exists l. exact (conj Hp Hq).
Defined.

Definition resizing : DeskState :=
  mkDesk (TerminalScreen_new 2 1) tt [] [] [] [(3, 1)] writer_new true true.

Lemma size_mid_frame_ends_session_witness :
  ∃ s', desk_run [DkArrives (take 3 (frame_bytes (Data (as_bytes "abc")))); DkSize 3 true; DkArrives (as_bytes "abc");
                  DkFrame true] resizing = Some s' ∧ dk_reading s' = false ∧ dk_texts s' = [[10]].
Proof.
  assert (4 ≤ Byte.to_N x61) as Hb by (apply N.leb_le; vm_compute; reflexivity).
  assert (2 ≤ blen (as_bytes "bc")) as Hp by (apply N.leb_le; vm_compute; reflexivity).
  assert (blen (as_bytes "abc") < u16_modulus) as Hl by (apply N.ltb_lt; vm_compute; reflexivity).
  destruct (size_mid_frame_ends_session resizing 3 1 [] x61 (as_bytes "bc") eq_refl eq_refl eq_refl Hb Hp Hl)
    as [(s' & Hrun & Hr & _ & Ht) _].
  exists s'. split; [exact Hrun|]. split; [exact Hr|]. rewrite Ht. vm_compute. reflexivity.
Defined.

Lemma desk_close_silent_witness :
  ∃ s1 s2, desk_step (DkCommand (Some Close)) (desk_start 2 1 writer_new) = Some s1 ∧
    desk_run [DkArrives (frame_bytes Ping); DkFrame true] s1 = Some s2 ∧ dk_out s2 = writer_new ∧ dk_reading s2 = true.
Proof.
  destruct (desk_step (DkCommand (Some Close)) (desk_start 2 1 writer_new)) as [s1|] eqn:H1;
    [|vm_compute in H1; congruence].
  destruct (desk_run [DkArrives (frame_bytes Ping); DkFrame true] s1) as [s2|] eqn:H2;
    [|vm_compute in H1; injection H1 as <-; vm_compute in H2; congruence].
  exists s1, s2. split; [reflexivity|]. split; [exact H2|].
  destruct (desk_close_silent _ _ _ _ H1 H2) as (Ho & _). split; [rewrite Ho; reflexivity|].
  vm_compute in H1. injection H1 as <-. vm_compute in H2. by injection H2 as <-.
Defined.

(** ** Opening a terminal *)

Definition desk_init : TerminalSessionInit := mkTerminalSessionInit "node" (Some "T-01234567") 80 24 None.

Definition is_desk_init (i : TerminalSessionInit) : bool :=
  bool_decide (tsi_peer i = "node"%string) && bool_decide (tsi_ticket_id i = Some "T-01234567"%string) &&
  (tsi_cols i =? 80) && (tsi_rows i =? 24) && bool_decide (tsi_dial i = None).

#[local] Instance desk_init_json : Json TerminalSessionInit := single_json desk_init is_desk_init.
#[local] Instance desk_status_json : Json HandshakeResp :=
  single_json (mkHandshakeResp "ok" None)
    (λ r, bool_decide (hr_status r = "ok"%string) && bool_decide (hr_message r = None)).

#[local] Instance desk_init_laws : JsonLaws TerminalSessionInit.
Proof.
  apply single_json_laws. intros [peer ticket c r dial]. unfold is_desk_init. simpl.
  rewrite !andb_true_iff, !bool_decide_eq_true, !N.eqb_eq. intros ((((-> & ->) & ->) & ->) & ->). done.
Qed.
#[local] Instance desk_status_laws : JsonLaws HandshakeResp.
Proof.
  apply single_json_laws. intros [status message]. simpl. rewrite andb_true_iff, !bool_decide_eq_true. by intros [-> ->].
Qed.
#[local] Instance desk_init_text : JsonText TerminalSessionInit := single_json_text _ _.
#[local] Instance desk_status_text : JsonText HandshakeResp := single_json_text _ _.

Lemma terminal_opening_agreed_witness :
  terminal_handshake "node" (Some "T-01234567"%string) 80 24
    (reader_of ((as_bytes "{}" ++ line_feed) ++ frame_bytes Ping), mkWriter [] None) =
    (Ok tt, (reader_of (frame_bytes Ping), mkWriter (as_bytes "{}" ++ line_feed) None)).
Proof.
  destruct (terminal_opening_agreed (LP := toy_libp2p) (JI := desk_init_json) (JH := desk_status_json) operator_host (toy_request 1000) ShellCancelled idle_service
    "node" (Some "T-01234567"%string) 80 24 (as_bytes "{}") (mkHandshakeResp "ok" None) (as_bytes "{}") []
    (frame_bytes Ping) [] eq_refl eq_refl) as [H _].
  exact H.
Defined.
