(* ===== verification/Desktop.v ===== *)
(** The desktop application: the actor between the window and the service
    ([apps/fortiq-desktop/src/{backend,command,event,models}.rs]) and the window's own state
    ([main.rs]).

    The actor asks the service through the interface [Daemon] and tells the window events.
    A shell has a terminal session (Terminal.v) and a task that passes its texts on. A step
    is one command of the actor, one step of a session, or one step of such a task; a full
    channel makes it wait ([None]). *)

From stdpp Require Import pretty.
From S2P Require Import Prelude Text Object Concrete Ticket Event Graph GraphSort.
From S2P Require Import Reducer Authority Store Engine Codec Stream Config Shell Mnemonic Wire Sync.
From S2P Require Import Peers Admission Transfer Client Node Service Screen Terminal.

(** ** What the window is told *)

Record DesktopStatusDto := mkDesktopStatus {
  dd_product : string;
  dd_version : string;
  dd_agent_state : string;
  dd_peer_id : string;
  dd_active_ticket_id : option string;
  dd_active_ticket_state : option string;
  dd_is_operator_unlocked : bool
}.

(** [version] is a constant of the build. *)
Definition DesktopStatusDto_default (version : string) : DesktopStatusDto :=
  mkDesktopStatus "FORTIQ" version "offline" "" None None false.

Record DesktopPeerDto := mkDesktopPeer {
  dp_peer_id : string;
  dp_hostname : string;
  dp_os : string;
  dp_transport : string;
  dp_status : string;
  dp_relay : bool;
  dp_rendezvous : bool
}.

Record TicketSummaryDto := mkTicketSummaryDto {
  tq_id : string;
  tq_title : string;
  tq_priority : N;
  tq_state : string;
  tq_created_at : N
}.

Record ChatMessageDto := mkChatMessageDto {
  cq_id : string;
  cq_sender : string;
  cq_body : string;
  cq_created_at : N;
  cq_is_operator : bool
}.

Record AttachmentDto := mkAttachmentDto {
  aq_id : string;
  aq_filename : string;
  aq_size_bytes : N;
  aq_sha256 : string
}.

Record TicketDetailDto := mkTicketDetailDto {
  dq_id : string;
  dq_title : string;
  dq_priority : N;
  dq_state : string;
  dq_created_at : N;
  dq_client_peer_id : string;
  dq_messages : list ChatMessageDto;
  dq_attachments : list AttachmentDto
}.

Record OperatorSessionDto := mkOperatorSessionDto {
  oq_operator_entity : string;
  oq_capabilities : list string;
  oq_issued_at : N;
  oq_expires_at : N
}.

Record SelfSupportStatusDto := mkSelfSupportStatus {
  sq_db_corrupt : bool;
  sq_peers_stale : bool;
  sq_active_repair_count : N;
  sq_last_action_message : option string
}.

Inductive DesktopCommand :=
| CmdRefresh
| CmdSelectTicket (ticket_id : string)
| CmdCreateTicket (title : string) (priority : N)
| CmdSendMessage (ticket_id body : string)
| CmdSendFile (ticket_id : string) (path : PathBuf)
| CmdStartShell (ticket_id : string) (cols rows : N)
| CmdShellInput (payload : bytes)
| CmdResizeShell (cols rows : N)
| CmdCloseShell
| CmdUnlockOperator (mnemonic : string)
| CmdLockOperator
| CmdTriggerSelfSupportAction (action : string)
| CmdRefreshSelfSupport.

(** The text of a shell is kept as the characters the screen gives. *)
Inductive DesktopEvent :=
| EvStatusChanged (status : DesktopStatusDto)
| EvPeersChanged (peers : list DesktopPeerDto)
| EvTicketsChanged (tickets : list TicketSummaryDto)
| EvTicketLoaded (detail : option TicketDetailDto)
| EvMessageAdded (ticket_id : string) (message : ChatMessageDto)
| EvFileAdded (ticket_id : string) (file : AttachmentDto)
| EvShellOpened (ticket_id : string)
| EvShellOutput (text : list N)
| EvShellClosed
| EvShellDenied (message : string)
| EvOperatorUnlocked (session : OperatorSessionDto)
| EvOperatorLocked
| EvSelfSupportChanged (status : SelfSupportStatusDto)
| EvNotification (level message : string)
| EvError (message : string).

(** ** Conversions *)

(** [Display] of the client's errors, without the texts of other libraries. *)
Definition IpcClientError_to_string (e : IpcClientError) : string :=
  match e with
  | ConnectionFailed => "Cannot connect to FORTIQ service"
  | ConnectionClosed => "Service closed IPC connection unexpectedly"
  | ResponseTooLarge => "IPC response exceeded maximum limit (64 KB)"
  | Serialization => "Failed to parse IPC JSON"
  | DaemonError m => "Daemon returned error: " +:+ m
  | IpcIo _ => "IO error"
  end.

(** [{:?}] of a state. *)
Definition TicketState_debug (s : TicketState) : string :=
  match s with Open => "Open" | InProgress => "InProgress" | Resolved => "Resolved" | Closed => "Closed" end.

Definition priority_to_u8 (p : TicketPriority) : N :=
  match p with Normal => 2 | High => 3 | Urgent => 4 end.
Definition priority_of_u8 (n : N) : TicketPriority :=
  if n =? 3 then High else if n =? 4 then Urgent else Normal.

Definition status_dto (s : DaemonStatus) : DesktopStatusDto := {|
  dd_product := ds_product s; dd_version := ds_version s; dd_agent_state := ds_agent_state s;
  dd_peer_id := ds_peer_id s; dd_active_ticket_id := ts_id <$> ds_active_ticket s;
  dd_active_ticket_state := TicketState_debug ∘ ts_state <$> ds_active_ticket s;
  dd_is_operator_unlocked := is_operator_unlocked s |}.

Definition peer_dto (p : PeerSummary) : DesktopPeerDto :=
  mkDesktopPeer (ps_peer_id p) (ps_hostname p) (ps_os p) (ps_transport p) (ps_status p) (ps_relay p) (ps_rendezvous p).

Definition ticket_dto (t : TicketRecord) : TicketSummaryDto :=
  mkTicketSummaryDto (tr_id t) (tr_title t) (priority_to_u8 (tr_priority t)) (TicketState_as_str (tr_state t))
    (tr_created_at t).

Definition message_dto (m : ChatMessage) : ChatMessageDto :=
  mkChatMessageDto (cm_id m) (cm_sender_peer_id m) (cm_body m) (cm_created_at m) false.

Definition attachment_dto (a : AttachmentRecord) : AttachmentDto :=
  mkAttachmentDto (ar_id a) (ar_filename a) (ar_size_bytes a) (ar_sha256 a).

Definition detail_dto (d : TicketDetail) : TicketDetailDto :=
  let t := td_ticket d in {|
  dq_id := tr_id t; dq_title := tr_title t; dq_priority := priority_to_u8 (tr_priority t);
  dq_state := TicketState_as_str (tr_state t); dq_created_at := tr_created_at t;
  dq_client_peer_id := tr_client_peer_id t; dq_messages := message_dto <$> td_messages d;
  dq_attachments := attachment_dto <$> td_attachments d |}.

Definition operator_dto (s : OperatorSessionStatus) : OperatorSessionDto :=
  mkOperatorSessionDto (default "" (os_owner_id s)) (os_capabilities s) 0 (default 0 (os_expires_at s)).

(** ** The service, as the actor sees it *)

Class Daemon (D : Type) := {
  daemon_request : IpcRequest → StateM D IpcClientError IpcResponse;
  (** [TerminalSession::spawn]: peer, ticket and size. *)
  daemon_terminal : string → string → N → N → StateM D IpcClientError unit;
  (** [IpcClient::stage_file]: the path of the copy. *)
  daemon_stage : PathBuf → StateM D IpcClientError string
}.

(** The service goes on: it stays well formed, it is the same node, and the client of a ticket
    does not change. *)
Definition daemon_keeps {D} (ok : D → Prop) (peer : D → string) (client : D → string → option string) (d d' : D)
    : Prop :=
  ok d' ∧ peer d' = peer d ∧ ∀ t p, client d t = Some p → client d' t = Some p.

(** What the actor relies on: errors come as errors, a detail is that of the ticket asked for,
    and the status names the node. *)
Class DaemonLaws (D : Type) `{Daemon D} := {
  daemon_ok : D → Prop;
  daemon_peer : D → string;
  daemon_client : D → string → option string;
  daemon_request_keeps req d :
    daemon_ok d → daemon_keeps daemon_ok daemon_peer daemon_client d (daemon_request req d).2;
  daemon_terminal_keeps peer ticket c r d :
    daemon_ok d → daemon_keeps daemon_ok daemon_peer daemon_client d (daemon_terminal peer ticket c r d).2;
  daemon_stage_keeps p d :
    daemon_ok d → daemon_keeps daemon_ok daemon_peer daemon_client d (daemon_stage p d).2;
  daemon_no_error req d message d' : daemon_request req d ≠ (Ok (RError message), d');
  daemon_detail t d detail d' :
    daemon_ok d → daemon_request (GetTicket t) d = (Ok (RTicketDetail (Some detail)), d') →
    tr_id (td_ticket detail) = t ∧ daemon_client d' t = Some (tr_client_peer_id (td_ticket detail));
  daemon_status d status d' :
    daemon_ok d → daemon_request GetStatus d = (Ok (RStatus status), d') → ds_peer_id status = daemon_peer d'
}.

Definition COMMAND_CHANNEL : nat := 128.
Definition TEXT_CHANNEL : nat := 128.

Section actor.
Context `{V : Vte} {D : Type} `{DM : !Daemon D}.

(** A shell that was asked for: the channel to its writer, its session if it was opened, how
    many of its texts were passed on, and whether the task that does so has ended. *)
Record DesktopShell := mkShell {
  sh_peer : string;
  sh_ticket : string;
  sh_queue : list TerminalCommand;
  sh_session : option DeskState;
  sh_passed : nat;
  sh_ended : bool
}.

Record BackendActor := mkBackend {
  bk_daemon : D;
  bk_events : list DesktopEvent;                  (** what was sent to the window *)
  bk_selected_ticket_id : option string;
  bk_selected_ticket_detail : option TicketDetailDto;
  bk_current_status : DesktopStatusDto;
  bk_terminal_tx : option nat;                    (** which shell the sender it keeps belongs to *)
  bk_shells : list DesktopShell;
  bk_self_support : SelfSupportEngine
}.

Definition BackendActor_new (version : string) (d : D) : BackendActor :=
  mkBackend d [] None None (DesktopStatusDto_default version) None []
    (mkSelfSupportEngine (mkThisDevice (ObjectId_from_bytes (vreplicate 32 x42)))).

Definition emit (e : DesktopEvent) (b : BackendActor) : BackendActor :=
  mkBackend (bk_daemon b) (bk_events b ++ [e]) (bk_selected_ticket_id b) (bk_selected_ticket_detail b)
    (bk_current_status b) (bk_terminal_tx b) (bk_shells b) (bk_self_support b).
Definition with_daemon (d : D) (b : BackendActor) : BackendActor :=
  mkBackend d (bk_events b) (bk_selected_ticket_id b) (bk_selected_ticket_detail b)
    (bk_current_status b) (bk_terminal_tx b) (bk_shells b) (bk_self_support b).
Definition with_selected (t : string) (b : BackendActor) : BackendActor :=
  mkBackend (bk_daemon b) (bk_events b) (Some t) (bk_selected_ticket_detail b)
    (bk_current_status b) (bk_terminal_tx b) (bk_shells b) (bk_self_support b).
Definition with_detail (detail : TicketDetailDto) (b : BackendActor) : BackendActor :=
  mkBackend (bk_daemon b) (bk_events b) (bk_selected_ticket_id b) (Some detail)
    (bk_current_status b) (bk_terminal_tx b) (bk_shells b) (bk_self_support b).
Definition with_status (status : DesktopStatusDto) (b : BackendActor) : BackendActor :=
  mkBackend (bk_daemon b) (bk_events b) (bk_selected_ticket_id b) (bk_selected_ticket_detail b)
    status (bk_terminal_tx b) (bk_shells b) (bk_self_support b).
Definition with_terminal (tx : option nat) (b : BackendActor) : BackendActor :=
  mkBackend (bk_daemon b) (bk_events b) (bk_selected_ticket_id b) (bk_selected_ticket_detail b)
    (bk_current_status b) tx (bk_shells b) (bk_self_support b).
Definition with_shells (shells : list DesktopShell) (b : BackendActor) : BackendActor :=
  mkBackend (bk_daemon b) (bk_events b) (bk_selected_ticket_id b) (bk_selected_ticket_detail b)
    (bk_current_status b) (bk_terminal_tx b) shells (bk_self_support b).

Definition ask_daemon (req : IpcRequest) : StateM BackendActor IpcClientError IpcResponse := λ b,
  let '(r, d) := daemon_request req (bk_daemon b) in (r, with_daemon d b).

(** ** Refreshing *)

Definition offline (status : DesktopStatusDto) : DesktopStatusDto :=
  mkDesktopStatus (dd_product status) (dd_version status) "offline" (dd_peer_id status)
    (dd_active_ticket_id status) (dd_active_ticket_state status) (dd_is_operator_unlocked status).

Definition refresh_status (b : BackendActor) : BackendActor :=
  match ask_daemon GetStatus b with
  | (Ok (RStatus status), b) => emit (EvStatusChanged (status_dto status)) (with_status (status_dto status) b)
  | (Ok _, b) => b
  | (Err _, b) =>
      let status := offline (bk_current_status b) in emit (EvStatusChanged status) (with_status status b)
  end.

Definition refresh_operator (b : BackendActor) : BackendActor :=
  match ask_daemon GetOperatorStatus b with
  | (Ok (ROperatorStatus status), b) =>
      emit (if is_unlocked status then EvOperatorUnlocked (operator_dto status) else EvOperatorLocked) b
  | (_, b) => b
  end.

Definition refresh_peers (b : BackendActor) : BackendActor :=
  match ask_daemon Config.ListPeers b with
  | (Ok (RPeers peers), b) => emit (EvPeersChanged (peer_dto <$> peers)) b
  | (_, b) => b
  end.

Definition refresh_tickets (b : BackendActor) : BackendActor :=
  match ask_daemon (ListTickets None) b with
  | (Ok (RTickets tickets), b) => emit (EvTicketsChanged (ticket_dto <$> tickets)) b
  | (_, b) => b
  end.

Definition load_ticket_detail (ticket_id : string) (b : BackendActor) : BackendActor :=
  match ask_daemon (GetTicket ticket_id) b with
  | (Ok (RTicketDetail (Some detail)), b) =>
      emit (EvTicketLoaded (Some (detail_dto detail))) (with_detail (detail_dto detail) b)
  | (Ok (RTicketDetail None), b) => emit (EvTicketLoaded None) b
  | (Ok _, b) => b
  | (Err e, b) => emit (EvError (IpcClientError_to_string e)) b
  end.

Definition handle_refresh (b : BackendActor) : BackendActor :=
  let b := refresh_tickets (refresh_peers (refresh_operator (refresh_status b))) in
  match bk_selected_ticket_id b with
  | Some ticket_id => load_ticket_detail ticket_id b
  | None => b
  end.

(** ** Tickets *)

(** The error of a request as most commands show it. *)
Definition show_error (e : IpcClientError) (b : BackendActor) : BackendActor :=
  match e with
  | DaemonError message => emit (EvError message) b
  | e => emit (EvError (IpcClientError_to_string e)) b
  end.

Definition desktop_create_ticket (title : string) (priority : N) (b : BackendActor) : BackendActor :=
  match ask_daemon (Config.CreateTicket title "" (priority_of_u8 priority)) b with
  | (Ok (RTicketCreated t), b) => emit (EvNotification "info" ("Ticket créé: " +:+ tr_title t)) b
  | (Ok (RError message), b) => emit (EvError message) b
  | (Err e, b) => show_error e b
  | (_, b) => b
  end.

Definition desktop_send_message (ticket_id body : string) (b : BackendActor) : BackendActor :=
  match ask_daemon (Config.SendChatMessage ticket_id body) b with
  | (Ok (RMessageSent message), b) => emit (EvMessageAdded ticket_id (message_dto message)) b
  | (Ok (RError message), b) => emit (EvError message) b
  | (Err e, b) => show_error e b
  | (_, b) => b
  end.

Definition desktop_send_file (ticket_id : string) (path : PathBuf) (b : BackendActor) : BackendActor :=
  let '(staged, d) := daemon_stage path (bk_daemon b) in
  let b := with_daemon d b in
  match staged with
  | Err e => emit (EvError ("Échec de préparation du fichier: " +:+ IpcClientError_to_string e)) b
  | Ok staged =>
      match ask_daemon (Config.SendFile ticket_id staged) b with
      | (Ok (RFileSent attachment), b) =>
          emit (EvNotification "info" "Fichier envoyé avec succès")
            (emit (EvFileAdded ticket_id (attachment_dto attachment)) b)
      | (Ok (RError message), b) => emit (EvError message) b
      | (Err e, b) => show_error e b
      | (_, b) => b
      end
  end.

(** ** Shells *)

Definition send_shell (i : nat) (cmd : TerminalCommand) (b : BackendActor) : option BackendActor :=
  match bk_shells b !! i with
  | Some sh =>
      if negb (default false (dk_writing <$> sh_session sh)) then Some b
      else if (length (sh_queue sh) <? COMMAND_CHANNEL)%nat
      then Some (with_shells
        (<[i := mkShell (sh_peer sh) (sh_ticket sh) (sh_queue sh ++ [cmd]) (sh_session sh) (sh_passed sh)
                  (sh_ended sh)]> (bk_shells b)) b)
      else None
  | None => Some b
  end.

Definition send_terminal (cmd : TerminalCommand) (b : BackendActor) : option BackendActor :=
  match bk_terminal_tx b with
  | Some i => send_shell i cmd b
  | None => Some b
  end.

Definition close_shell (b : BackendActor) : option BackendActor :=
  match bk_terminal_tx b with
  | Some i => b ← send_shell i Close (with_terminal None b); Some (emit EvShellClosed b)
  | None => Some b
  end.

Definition local_client : string := "Impossible d'ouvrir un shell : le nœud local est le client du ticket".
Definition unresolved_client : string := "Impossible de résoudre le pair client pour ce ticket".
Definition invalid_peer : string := "Pair distant invalide ou boucle locale détectée".

Definition checked_target (peer : string) (b : BackendActor) : result string string :=
  if bool_decide (peer = dd_peer_id (bk_current_status b)) then Err local_client else Ok peer.

Definition asked_target (ticket_id : string) (b : BackendActor) : result string string * BackendActor :=
  match ask_daemon (GetTicket ticket_id) b with
  | (Ok (RTicketDetail (Some detail)), b) => (checked_target (tr_client_peer_id (td_ticket detail)) b, b)
  | (_, b) => (Err unresolved_client, b)
  end.

(** The client of a ticket: from the detail that is kept, or asked for. *)
Definition shell_target (ticket_id : string) (b : BackendActor) : result string string * BackendActor :=
  match bk_selected_ticket_detail b with
  | Some detail =>
      if bool_decide (dq_id detail = ticket_id) then (checked_target (dq_client_peer_id detail) b, b)
      else asked_target ticket_id b
  | None => asked_target ticket_id b
  end.

(** The shell is added with the task that passes its texts on; the session starts if the
    service opens the terminal. *)
Definition open_desktop_shell (peer ticket_id : string) (cols rows : N) (b : BackendActor) : BackendActor :=
  let '(r, d) := daemon_terminal peer ticket_id cols rows (bk_daemon b) in
  let b := with_daemon d b in
  let i := length (bk_shells b) in
  match r with
  | Ok _ =>
      let sh := mkShell peer ticket_id [] (Some (desk_start cols rows writer_new)) 0 false in
      emit (EvShellOpened ticket_id) (with_terminal (Some i) (with_shells (bk_shells b ++ [sh]) b))
  | Err e =>
      emit (EvShellDenied (IpcClientError_to_string e))
        (with_shells (bk_shells b ++ [mkShell peer ticket_id [] None 0 false]) b)
  end.

Definition start_shell (ticket_id : string) (cols rows : N) (b : BackendActor) : option BackendActor :=
  b ← close_shell b;
  Some match shell_target ticket_id b with
       | (Err message, b) => emit (EvShellDenied message) b
       | (Ok peer, b) =>
           if bool_decide (peer = "") || bool_decide (peer = dd_peer_id (bk_current_status b))
           then emit (EvShellDenied invalid_peer) b
           else open_desktop_shell peer ticket_id cols rows b
       end.

(** ** The operator, and self-support *)

Definition desktop_unlock_operator (mnemonic_words : string) (b : BackendActor) : BackendActor :=
  match ask_daemon (UnlockOperator (trim mnemonic_words)) b with
  | (Ok (ROperatorStatus status), b) =>
      if is_unlocked status then
        handle_refresh
          (emit (EvNotification "success" "Espace opérateur déverrouillé avec succès auprès du démon.")
            (emit (EvOperatorUnlocked (operator_dto status)) b))
      else emit (EvError "Réponse inattendue du démon lors du déverrouillage") b
  | (Ok (RError message), b) => emit (EvError message) b
  | (Ok _, b) => emit (EvError "Réponse inattendue du démon lors du déverrouillage") b
  | (Err e, b) => emit (EvError ("Erreur IPC: " +:+ IpcClientError_to_string e)) b
  end.

Definition wiped_notice : string := "Espace opérateur reverrouillé et mémoire effacée sur le démon.".

Definition desktop_lock_operator (b : BackendActor) : BackendActor :=
  let b := (ask_daemon LockOperator b).2 in
  handle_refresh (emit (EvNotification "info" wiped_notice) (emit EvOperatorLocked b)).

Definition trigger_self_support (action : string) (b : BackendActor) : BackendActor :=
  emit (EvSelfSupportChanged (mkSelfSupportStatus false false 0
    (Some ("Action auto-support '" +:+ action +:+ "' exécutée avec succès.")))) b.

Definition refresh_self_support (b : BackendActor) : BackendActor :=
  emit (EvSelfSupportChanged (mkSelfSupportStatus false
    (negb (is_loopback_active (collect_diagnostics (bk_self_support b) None))) 0 None)) b.

Definition handle_command (cmd : DesktopCommand) (b : BackendActor) : option BackendActor :=
  match cmd with
  | CmdRefresh => Some (handle_refresh b)
  | CmdSelectTicket ticket_id => Some (load_ticket_detail ticket_id (with_selected ticket_id b))
  | CmdCreateTicket title priority => Some (desktop_create_ticket title priority b)
  | CmdSendMessage ticket_id body => Some (desktop_send_message ticket_id body b)
  | CmdSendFile ticket_id path => Some (desktop_send_file ticket_id path b)
  | CmdStartShell ticket_id cols rows => start_shell ticket_id cols rows b
  | CmdShellInput payload => send_terminal (Input payload) b
  | CmdResizeShell cols rows => send_terminal (ResizeTerminal cols rows) b
  | CmdCloseShell => close_shell b
  | CmdUnlockOperator mnemonic => Some (desktop_unlock_operator mnemonic b)
  | CmdLockOperator => Some (desktop_lock_operator b)
  | CmdTriggerSelfSupportAction action => Some (trigger_self_support action b)
  | CmdRefreshSelfSupport => Some (refresh_self_support b)
  end.

(** ** Everything that runs *)

Inductive backend_event :=
| BkCommand (cmd : DesktopCommand)
| BkTick
| BkSession (i : nat) (e : desk_event)   (** a step of the session of a shell *)
| BkPass (i : nat)                       (** its next text is passed on *)
| BkEnd (i : nat).                       (** the task that passes its texts ends *)

(** The commands a session takes are those of its channel, in order, and the end of the channel
    once the actor has dropped its sender; the window's side of its texts is open, and full
    when [TEXT_CHANNEL] texts wait. *)
Definition session_step (i : nat) (e : desk_event) (b : BackendActor) : option BackendActor :=
  sh ← bk_shells b !! i;
  s ← sh_session sh;
  queue ← match e with
          | DkCommand (Some cmd) =>
              match sh_queue sh with
              | next :: queue => if bool_decide (next = cmd) then Some queue else None
              | [] => None
              end
          | DkCommand None =>
              match sh_queue sh with
              | [] => if bool_decide (bk_terminal_tx b = Some i) then None else Some []
              | _ => None
              end
          | DkFrame false | DkSize _ false => None
          | _ => Some (sh_queue sh)
          end;
  s ← desk_step e s;
  if (length (dk_texts s) <=? sh_passed sh + TEXT_CHANNEL)%nat
  then Some (with_shells (<[i := mkShell (sh_peer sh) (sh_ticket sh) queue (Some s) (sh_passed sh) (sh_ended sh)]>
               (bk_shells b)) b)
  else None.

Definition shell_texts (sh : DesktopShell) : list (list N) := default [] (dk_texts <$> sh_session sh).

Definition pass_text (i : nat) (b : BackendActor) : option BackendActor :=
  sh ← bk_shells b !! i;
  text ← shell_texts sh !! sh_passed sh;
  Some (emit (EvShellOutput text)
    (with_shells (<[i := mkShell (sh_peer sh) (sh_ticket sh) (sh_queue sh) (sh_session sh) (S (sh_passed sh))
                          (sh_ended sh)]> (bk_shells b)) b)).

Definition end_shell (i : nat) (b : BackendActor) : option BackendActor :=
  sh ← bk_shells b !! i;
  if sh_ended sh || default false (dk_reading <$> sh_session sh)
     || negb (sh_passed sh =? length (shell_texts sh))%nat then None
  else Some (emit EvShellClosed
    (with_shells (<[i := mkShell (sh_peer sh) (sh_ticket sh) (sh_queue sh) (sh_session sh) (sh_passed sh) true]>
                   (bk_shells b)) b)).

Definition backend_step (e : backend_event) (b : BackendActor) : option BackendActor :=
  match e with
  | BkCommand cmd => handle_command cmd b
  | BkTick => Some (handle_refresh b)
  | BkSession i e => session_step i e b
  | BkPass i => pass_text i b
  | BkEnd i => end_shell i b
  end.

Fixpoint backend_run (l : list backend_event) (b : BackendActor) : option BackendActor :=
  match l with
  | [] => Some b
  | e :: l => b ← backend_step e b; backend_run l b
  end.

Definition backend_start (version : string) (d : D) : BackendActor := handle_refresh (BackendActor_new version d).
End actor.

(** ** The shells of a window *)

(** A shell that is not the current one takes no more input: its writer has ended or will. *)
Definition closing `{V : Vte} (sh : DesktopShell) : Prop :=
  match sh_session sh with
  | Some s => dk_writing s = false ∨ last (sh_queue sh) = Some Close
  | None => True
  end.

Section actor_properties.
Context `{V : Vte} {D : Type} `{DM : !Daemon D, DL : !DaemonLaws D}.
Implicit Types (b : BackendActor (D := D)).

Record backend_inv b : Prop := {
  bi_ok : daemon_ok (bk_daemon b);
  bi_status : dd_peer_id (bk_current_status b) = "" ∨ dd_peer_id (bk_current_status b) = daemon_peer (bk_daemon b);
  bi_detail detail : bk_selected_ticket_detail b = Some detail →
    daemon_client (bk_daemon b) (dq_id detail) = Some (dq_client_peer_id detail);
  bi_shells i sh : bk_shells b !! i = Some sh →
    daemon_client (bk_daemon b) (sh_ticket sh) = Some (sh_peer sh) ∧ sh_peer sh ≠ "" ∧
    (bk_terminal_tx b ≠ Some i → closing sh);
  bi_terminal i : bk_terminal_tx b = Some i → S i = length (bk_shells b)
}.

Lemma emit_inv e b : backend_inv b → backend_inv (emit e b).
Proof. intros []. by split. Qed.

Lemma selected_inv t b : backend_inv b → backend_inv (with_selected t b).
Proof. intros []. by split. Qed.

Lemma detail_inv detail b :
  backend_inv b → daemon_client (bk_daemon b) (dq_id detail) = Some (dq_client_peer_id detail) →
  backend_inv (with_detail detail b).
Proof. intros [] H. split; try done. by intros ? [= <-]. Qed.

Lemma status_inv status b :
  backend_inv b → dd_peer_id status = "" ∨ dd_peer_id status = daemon_peer (bk_daemon b) →
  backend_inv (with_status status b).
Proof. intros [] H. by split. Qed.

Lemma daemon_inv d b :
  daemon_keeps daemon_ok daemon_peer daemon_client (bk_daemon b) d → backend_inv b → backend_inv (with_daemon d b).
Proof.
  intros (Hok & Hp & Hc) []. split; simpl; [done|by rewrite Hp|auto| |done].
  intros i sh Hi. destruct (bi_shells0 i sh Hi) as (? & ? & ?). auto.
Qed.

Lemma ask_inv req b r b' : ask_daemon req b = (r, b') → backend_inv b → backend_inv b'.
Proof.
  unfold ask_daemon. destruct (daemon_request req (bk_daemon b)) as [r' d] eqn:E. intros [= <- <-] H.
  apply daemon_inv; [|done]. pose proof (daemon_request_keeps req (bk_daemon b) (bi_ok b H)) as K. by rewrite E in K.
Qed.

Lemma ask_status b status b' :
  ask_daemon GetStatus b = (Ok (RStatus status), b') → backend_inv b →
  ds_peer_id status = daemon_peer (bk_daemon b').
Proof.
  unfold ask_daemon. destruct (daemon_request _ _) as [r' d] eqn:E. intros [= -> <-] H.
  eapply daemon_status; [apply bi_ok, H|exact E].
Qed.

Lemma ask_detail t b detail b' :
  ask_daemon (GetTicket t) b = (Ok (RTicketDetail (Some detail)), b') → backend_inv b →
  tr_id (td_ticket detail) = t ∧ daemon_client (bk_daemon b') t = Some (tr_client_peer_id (td_ticket detail)).
Proof.
  unfold ask_daemon. destruct (daemon_request _ _) as [r' d] eqn:E. intros [= -> <-] H.
  eapply daemon_detail; [apply bi_ok, H|exact E].
Qed.

Create HintDb backend.
#[local] Hint Resolve emit_inv selected_inv : backend.

(** One request, and what is made of each answer. *)
Ltac asking :=
  match goal with
  | |- context [ask_daemon ?req ?b] =>
      let r := fresh "r" in let b' := fresh "b" in let E := fresh "E" in
      destruct (ask_daemon req b) as [r b'] eqn:E;
      assert (backend_inv b') by (eapply ask_inv; [exact E|auto with backend])
  end.

Lemma refresh_status_inv b : backend_inv b → backend_inv (refresh_status b).
Proof.
  intros H. unfold refresh_status. asking. destruct r as [[]|]; auto with backend.
  - apply emit_inv, status_inv; [done|]. right. by eapply ask_status.
  - apply emit_inv, status_inv; [done|]. by apply bi_status.
Qed.

Lemma load_detail_inv t b : backend_inv b → backend_inv (load_ticket_detail t b).
Proof.
  intros H. unfold load_ticket_detail. asking. destruct r as [[| | |[detail|]| | | | | | | | | |]|]; auto with backend.
  destruct (ask_detail _ _ _ _ E H) as [Hid Hc]. apply emit_inv, detail_inv; [done|]. simpl. by rewrite Hid.
Qed.

Lemma refresh_operator_inv b : backend_inv b → backend_inv (refresh_operator b).
Proof. intros H. unfold refresh_operator. asking. destruct r as [[]|]; auto with backend. Qed.

Lemma refresh_peers_inv b : backend_inv b → backend_inv (refresh_peers b).
Proof. intros H. unfold refresh_peers. asking. destruct r as [[]|]; auto with backend. Qed.

Lemma refresh_tickets_inv b : backend_inv b → backend_inv (refresh_tickets b).
Proof. intros H. unfold refresh_tickets. asking. destruct r as [[]|]; auto with backend. Qed.

#[local] Hint Resolve refresh_status_inv load_detail_inv refresh_operator_inv refresh_peers_inv refresh_tickets_inv
  : backend.

Lemma handle_refresh_inv b : backend_inv b → backend_inv (handle_refresh b).
Proof. intros H. unfold handle_refresh. destruct (bk_selected_ticket_id _); auto 10 with backend. Qed.
#[local] Hint Resolve handle_refresh_inv : backend.

Lemma show_error_inv e b : backend_inv b → backend_inv (show_error e b).
Proof. destruct e; simpl; auto with backend. Qed.
#[local] Hint Resolve show_error_inv : backend.

Lemma create_ticket_inv title priority b : backend_inv b → backend_inv (desktop_create_ticket title priority b).
Proof. intros H. unfold desktop_create_ticket. asking. destruct r as [[]|]; auto with backend. Qed.

Lemma send_message_inv t body b : backend_inv b → backend_inv (desktop_send_message t body b).
Proof. intros H. unfold desktop_send_message. asking. destruct r as [[]|]; auto with backend. Qed.

Lemma send_file_inv t path b : backend_inv b → backend_inv (desktop_send_file t path b).
Proof.
  intros H. unfold desktop_send_file. pose proof (daemon_stage_keeps path (bk_daemon b) (bi_ok b H)) as K.
  destruct (daemon_stage path (bk_daemon b)) as [[staged|e] d];
    (assert (backend_inv (with_daemon d b)) by (by apply daemon_inv)); [|auto with backend].
  asking. destruct r as [[]|]; auto with backend.
Qed.

Lemma unlock_inv words b : backend_inv b → backend_inv (desktop_unlock_operator words b).
Proof.
  intros H. unfold desktop_unlock_operator. asking. destruct r as [[]|]; auto with backend.
  destruct (is_unlocked _); auto with backend.
Qed.

Lemma lock_inv b : backend_inv b → backend_inv (desktop_lock_operator b).
Proof. intros H. unfold desktop_lock_operator. asking. simpl. auto with backend. Qed.

(** *** Shells *)

Lemma terminal_none_inv b :
  backend_inv b → (∀ i sh, bk_terminal_tx b = Some i → bk_shells b !! i = Some sh → closing sh) →
  backend_inv (with_terminal None b).
Proof.
  intros [] Hc. split; simpl; try done. intros i sh Hi. destruct (bi_shells0 i sh Hi) as (? & ? & Hn).
  split; [done|]. split; [done|]. intros _. destruct (decide (bk_terminal_tx b = Some i)); eauto.
Qed.

(** A change of one shell that keeps what it is for. *)
Lemma shell_inv i sh sh' b :
  backend_inv b → bk_shells b !! i = Some sh → sh_peer sh' = sh_peer sh → sh_ticket sh' = sh_ticket sh →
  (bk_terminal_tx b ≠ Some i → closing sh → closing sh') →
  backend_inv (with_shells (<[i := sh']> (bk_shells b)) b).
Proof.
  intros [] Hi Hp Ht Hc. split; simpl; try done.
  - intros j x [(-> & -> & _)|[? Hj]]%list_lookup_insert_Some; [|auto].
    destruct (bi_shells0 j sh Hi) as (? & ? & ?). rewrite Hp, Ht. auto.
  - rewrite length_insert. auto.
Qed.

Lemma send_shell_inv i cmd b b' :
  backend_inv b → bk_terminal_tx b = Some i → send_shell i cmd b = Some b' → backend_inv b'.
Proof.
  intros H Ht. unfold send_shell. destruct (bk_shells b !! i) as [sh|] eqn:Hi; [|by intros [= <-]].
  destruct (negb _); [by intros [= <-]|]. destruct (_ <? _)%nat; [|done]. intros [= <-].
  by eapply shell_inv.
Qed.

Lemma send_shell_terminal i cmd tx b :
  send_shell i cmd (with_terminal tx b) = with_terminal tx <$> send_shell i cmd b.
Proof. unfold send_shell. simpl. destruct (_ !! i); [|done]. destruct (negb _); [done|]. by destruct (_ <? _)%nat. Qed.

Lemma send_close_closing i b b' sh :
  send_shell i Close b = Some b' → bk_shells b' !! i = Some sh → closing sh.
Proof.
  unfold send_shell. destruct (bk_shells b !! i) as [x|] eqn:Hi; [|intros [= <-]; congruence].
  unfold closing. destruct (sh_session x) as [session|] eqn:Hs; simpl; [|intros [= <-]; rewrite Hi; intros [= <-]; by rewrite Hs].
  destruct (dk_writing session) eqn:Hw; simpl; [|intros [= <-]; rewrite Hi; intros [= <-]; rewrite Hs; auto].
  destruct (_ <? _)%nat; [|done]. intros [= <-]. simpl. rewrite list_lookup_insert_eq by (by eapply lookup_lt_Some).
  intros [= <-]. simpl. right. by rewrite last_snoc.
Qed.

(** What closing a shell leaves as it was. *)
Record same_but_shells b b' : Prop := {
  sb_daemon : bk_daemon b' = bk_daemon b;
  sb_status : bk_current_status b' = bk_current_status b;
  sb_detail : bk_selected_ticket_detail b' = bk_selected_ticket_detail b;
  sb_length : length (bk_shells b') = length (bk_shells b)
}.

Lemma send_shell_same i cmd b b' : send_shell i cmd b = Some b' → same_but_shells b b'.
Proof.
  unfold send_shell. destruct (_ !! i); [|by intros [= <-]]. destruct (negb _); [by intros [= <-]|].
  destruct (_ <? _)%nat; [|done]. intros [= <-]. split; simpl; try done. by rewrite length_insert.
Qed.

Lemma close_shell_inv b b' :
  backend_inv b → close_shell b = Some b' → backend_inv b' ∧ bk_terminal_tx b' = None ∧ same_but_shells b b'.
Proof.
  intros H. unfold close_shell. destruct (bk_terminal_tx b) as [i|] eqn:Ht; [|intros [= <-]; by split_and!].
  rewrite send_shell_terminal. destruct (send_shell i Close b) as [b1|] eqn:Hs; [|done]. intros [= <-].
  split; [|split; [done|by destruct (send_shell_same _ _ _ _ Hs)]].
  apply emit_inv, terminal_none_inv; [by eapply send_shell_inv|].
  intros j sh Hj Hl. assert (j = i) as ->; [|by eapply send_close_closing].
  assert (bk_terminal_tx b1 = bk_terminal_tx b) as E; [|congruence].
  unfold send_shell in Hs. destruct (_ !! i); [|by injection Hs as <-]. destruct (negb _); [by injection Hs as <-|].
  destruct (_ <? _)%nat; [|done]. by injection Hs as <-.
Qed.

Lemma send_terminal_inv cmd b b' : backend_inv b → send_terminal cmd b = Some b' → backend_inv b'.
Proof.
  intros H. unfold send_terminal. destruct (bk_terminal_tx b) as [i|] eqn:Ht; [|by intros [= <-]].
  by apply send_shell_inv.
Qed.

(** The peer a shell is opened to is the client of the ticket. *)
Definition targeted (t : string) b (r : result string string) b' : Prop :=
  backend_inv b' ∧ bk_terminal_tx b' = bk_terminal_tx b ∧ bk_shells b' = bk_shells b ∧
  bk_current_status b' = bk_current_status b ∧ daemon_peer (bk_daemon b') = daemon_peer (bk_daemon b) ∧
  match r with Ok peer => daemon_client (bk_daemon b') t = Some peer | Err _ => True end.

Lemma asked_target_spec t b r b' : backend_inv b → asked_target t b = (r, b') → targeted t b r b'.
Proof.
  intros H. unfold asked_target, targeted. destruct (ask_daemon (GetTicket t) b) as [r0 b0] eqn:E.
  pose proof (ask_inv _ _ _ _ E H) as H0.
  assert (bk_terminal_tx b0 = bk_terminal_tx b ∧ bk_shells b0 = bk_shells b ∧
    bk_current_status b0 = bk_current_status b ∧ daemon_peer (bk_daemon b0) = daemon_peer (bk_daemon b))
    as (E1 & E2 & E3 & E4).
  { unfold ask_daemon in E. pose proof (daemon_request_keeps (GetTicket t) (bk_daemon b) (bi_ok b H)) as (_ & K & _).
    destruct (daemon_request _ _). by injection E as <- <-. }
  destruct r0 as [[| | |[detail|]| | | | | | | | | |]|]; try (intros [= <- <-]; by split_and!).
  destruct (ask_detail _ _ _ _ E H) as [_ Hc]. intros [= <- <-]. split_and!; try done.
  unfold checked_target. by case_bool_decide.
Qed.

Lemma shell_target_spec t b r b' : backend_inv b → shell_target t b = (r, b') → targeted t b r b'.
Proof.
  intros H. unfold shell_target. destruct (bk_selected_ticket_detail b) as [detail|] eqn:Hd; [|by apply asked_target_spec].
  case_bool_decide as Hid; [|by apply asked_target_spec]. intros [= <- <-]. unfold targeted. split_and!; try done.
  unfold checked_target. case_bool_decide; [done|]. rewrite <- Hid. by apply bi_detail.
Qed.

Lemma open_desktop_shell_inv peer t c n b :
  backend_inv b → bk_terminal_tx b = None → daemon_client (bk_daemon b) t = Some peer → peer ≠ "" →
  backend_inv (open_desktop_shell peer t c n b) ∧
  ∃ sh, bk_shells (open_desktop_shell peer t c n b) = bk_shells b ++ [sh] ∧ sh_peer sh = peer ∧ sh_ticket sh = t.
Proof.
  intros H Ht Hc Hp. unfold open_desktop_shell.
  pose proof (daemon_terminal_keeps peer t c n (bk_daemon b) (bi_ok b H)) as K.
  destruct (daemon_terminal peer t c n (bk_daemon b)) as [r d]. simpl in K.
  pose proof (daemon_inv d b K H) as []. destruct K as (_ & _ & Hk). specialize (Hk _ _ Hc). simpl in *.
  assert (∀ (sh : DesktopShell) i x, (bk_shells b ++ [sh]) !! i = Some x →
    (i = length (bk_shells b) ∧ x = sh) ∨ (bk_shells b !! i = Some x ∧ closing x)) as Hsh.
  { intros sh i x [Hi|[Hle [Hi <-]%list_lookup_singleton_Some]]%lookup_app_Some; [|left; split; [lia|done]].
    right. split; [done|]. apply (bi_shells0 i x Hi). by rewrite Ht. }
  destruct r as [[]|e]; simpl; (split; [|by eexists]); split; simpl; try done.
  - intros i x Hi. destruct (Hsh _ i x Hi) as [[-> ->]|[Hx Hcl]]; simpl.
    + by split_and!.
    + destruct (bi_shells0 i x Hx) as (? & ? & _). by split_and!.
  - intros i [= <-]. rewrite length_app. simpl. lia.
  - intros i x Hi. destruct (Hsh _ i x Hi) as [[-> ->]|[Hx Hcl]]; simpl; [by split_and!|].
    destruct (bi_shells0 i x Hx) as (? & ? & _). by split_and!.
  - by rewrite Ht.
Qed.

Lemma start_shell_inv t c n b b' :
  backend_inv b → start_shell t c n b = Some b' →
  backend_inv b' ∧
  ∃ new, length (bk_shells b') = (length (bk_shells b) + length new)%nat ∧ drop (length (bk_shells b)) (bk_shells b') = new ∧
    Forall (λ sh, sh_ticket sh = t ∧ sh_peer sh ≠ dd_peer_id (bk_current_status b)) new.
Proof.
  intros H. unfold start_shell. destruct (close_shell b) as [b1|] eqn:Hc; [|done]. simpl.
  destruct (close_shell_inv _ _ H Hc) as (H1 & Ht & []). intros [= <-].
  destruct (shell_target t b1) as [r b2] eqn:Htg.
  destruct (shell_target_spec _ _ _ _ H1 Htg) as (H2 & Et & Es & Est & _ & Hr).
  assert (drop (length (bk_shells b)) (bk_shells b1) = []) as Hd by (apply drop_ge; lia).
  destruct r as [peer|m]; [|split; [auto with backend|]; exists []; simpl; rewrite Es; auto with lia].
  destruct (bool_decide (peer = "") || _) eqn:Hg.
  - split; [auto with backend|]. exists []. simpl. rewrite Es. auto with lia.
  - apply orb_false_iff in Hg as [Hne Hnl]. rewrite !bool_decide_eq_false in Hne, Hnl.
    destruct (open_desktop_shell_inv peer t c n b2 H2) as [Hi (sh & E & Hp & Htk)]; [congruence|done|done|].
    split; [done|]. exists [sh]. rewrite E, Es, length_app, drop_app_length' by congruence. rewrite sb_length0.
    split_and!; [done|done|]. rewrite Forall_singleton. split; [done|]. rewrite Hp. congruence.
Qed.

Lemma session_step_inv i e b b' : backend_inv b → session_step i e b = Some b' → backend_inv b'.
Proof.
  intros H. unfold session_step. destruct (bk_shells b !! i) as [sh|] eqn:Hi; [|done]. simpl.
  destruct (sh_session sh) as [s|] eqn:Hs; [|done]. simpl.
  destruct (match e with DkCommand _ => _ | _ => _ end) as [queue|] eqn:Hq; [|done]. simpl.
  destruct (desk_step e s) as [s'|] eqn:He; [|done]. simpl. destruct (_ <=? _)%nat; [|done]. intros [= <-].
  eapply shell_inv; [done..|]. intros Hn Hc. unfold closing in *. simpl. rewrite Hs in Hc.
  destruct Hc as [Hw|Hl]; [left; by eapply desk_step_silent|].
  destruct e as [l|[]|o|k []| |[cmd|]]; try (injection Hq as <-; by right); try done.
  - destruct (sh_queue sh) as [|next q] eqn:Hsq; [done|]. case_bool_decide as Hn'; [|done]. injection Hq as ->. subst next.
    destruct queue as [|x q]; [|by right]. injection Hl as ->. left. simpl in He. destruct (dk_writing s); [|done].
    by injection He as <-.
  - by destruct (sh_queue sh).
Qed.

Lemma backend_step_inv e b b' : backend_inv b → backend_step e b = Some b' → backend_inv b'.
Proof.
  intros H. destruct e as [cmd| |i e|i|i]; simpl.
  - destruct cmd; simpl; try (intros [= <-]; auto using create_ticket_inv, send_message_inv, send_file_inv, unlock_inv,
      lock_inv with backend).
    + intros Hs. exact (proj1 (start_shell_inv _ _ _ _ _ H Hs)).
    + by apply send_terminal_inv.
    + by apply send_terminal_inv.
    + intros Hs. exact (proj1 (close_shell_inv _ _ H Hs)).
    + apply emit_inv, H.
    + apply emit_inv, H.
  - intros [= <-]. auto with backend.
  - by apply session_step_inv.
  - unfold pass_text. destruct (bk_shells b !! i) as [sh|] eqn:Hi; [|done]. simpl.
    destruct (shell_texts sh !! _); [|done]. intros [= <-]. apply emit_inv. by eapply shell_inv.
  - unfold end_shell. destruct (bk_shells b !! i) as [sh|] eqn:Hi; [|done]. simpl.
    destruct (_ || _); [done|]. intros [= <-]. apply emit_inv. by eapply shell_inv.
Qed.

Lemma backend_run_inv events b b' : backend_inv b → backend_run events b = Some b' → backend_inv b'.
Proof.
  revert b. induction events as [|e events IH]; intros b H; simpl; [by intros [= <-]|].
  destruct (backend_step e b) as [b1|] eqn:E; [|done]. simpl. apply IH. by eapply backend_step_inv.
Qed.

Lemma backend_start_inv version d : daemon_ok d → backend_inv (backend_start version d).
Proof. intros H. apply handle_refresh_inv. split; simpl; auto; done. Qed.

(** C34. The shells of a window, over anything the user, the sessions and the service do. Each was
    opened to the client of its ticket, as the service has it. There is at most one that
    takes input, the last one opened: every other has ended its writer or will, its channel
    ending in a close. Once the service has told its name, no shell is opened to the node
    itself. *)
Theorem desktop_shells_correct version d events b :
  daemon_ok d → backend_run events (backend_start version d) = Some b →
  (∀ i sh, bk_shells b !! i = Some sh →
     daemon_client (bk_daemon b) (sh_ticket sh) = Some (sh_peer sh) ∧ sh_peer sh ≠ "" ∧
     (bk_terminal_tx b ≠ Some i → closing sh)) ∧
  (∀ i, bk_terminal_tx b = Some i → S i = length (bk_shells b)) ∧
  (dd_peer_id (bk_current_status b) = "" ∨ dd_peer_id (bk_current_status b) = daemon_peer (bk_daemon b)) ∧
  (∀ t c n b', backend_step (BkCommand (CmdStartShell t c n)) b = Some b' →
     Forall (λ sh, sh_ticket sh = t ∧ sh_peer sh ≠ dd_peer_id (bk_current_status b))
       (drop (length (bk_shells b)) (bk_shells b'))).
Proof.
  intros Hd Hrun. assert (backend_inv b) as H by (by eapply backend_run_inv; [apply backend_start_inv|]).
  split; [apply bi_shells, H|]. split; [apply bi_terminal, H|]. split; [apply bi_status, H|].
  intros t c n b' Hs. destruct (start_shell_inv _ _ _ _ _ H Hs) as [_ (new & _ & -> & Hn)]. done.
Qed.
End actor_properties.
