(* ===== verification/Local.v ===== *)
(** The service behind its local sockets, as its clients see it: the functions of Service.v
    and of Terminal.v fed each other's bytes. It implements [Daemon], the interface the
    desktop is proved against. *)

From S2P Require Import Prelude Text Object Concrete Ticket Event Graph GraphSort.
From S2P Require Import Reducer Authority Store Engine Codec Stream Config Shell Mnemonic Wire Sync.
From S2P Require Import Peers Admission Transfer Client Node Service Screen Terminal Desktop.

Section local.
Context `{CC : Crypto, HX : Hex, BC : BodyCodec, OC : ObjectCodec, SHA : Sha256, HK : Hkdf, UU : Uuid}.
Context `{LP : Libp2p, CB : Cbor OperatorSessionCertificate, ET : ErrorText}.
Context `{JQ : Json IpcRequest, JR : Json IpcResponse, JI : Json TerminalSessionInit, JH : Json HandshakeResp}.
Context {St : Type} `{OS : !ObjectStore St}.

(** What the [k]-th connection of a client meets: whether it is made, what the service did
    meanwhile, the answers of the node and of the disk, whether the answer can be written,
    and what becomes of a shell that is asked for. *)
Record LocalHost := mkLocalHost {
  lh_host : service_host;
  lh_connects : nat → bool;
  lh_meanwhile : nat → ServiceState (St := St) → ServiceState (St := St);
  lh_ios : nat → nat → request_io;
  lh_up : nat → nat → bool;
  lh_opened : nat → opened_shell;
  lh_stage : nat → result IpcClientError string
}.

Record Local := mkLocal {
  lo_service : ServiceState (St := St);
  lo_commands : list P2pCommand;      (** the commands given to the node *)
  lo_calls : nat                      (** the connections tried *)
}.

(** The lines the service writes. *)
Definition answer_bytes (responses : list IpcResponse) : bytes :=
  concat ((λ r, default [] (json_to_vec r) ++ line_feed) <$> responses).

(** One connection for one request: the bytes that come back, and the service after it. *)
Definition local_exchange (L : LocalHost) (req : IpcRequest) (d : Local) : bytes * Local :=
  let k := lo_calls d in
  let s := lh_meanwhile L k (lo_service d) in
  if negb (lh_connects L k) then ([], mkLocal s (lo_commands d) (S k)) else
  match json_to_vec req with
  | None => ([], mkLocal s (lo_commands d) (S k))
  | Some line =>
      let input := line ++ line_feed in
      match handle_client (S (length input)) (lh_host L) (lh_ios L k) (lh_up L k) 0 input s with
      | Some e => (answer_bytes (ce_written e), mkLocal (ce_state e) (lo_commands d ++ ce_commands e) (S k))
      | None => ([], mkLocal s (lo_commands d) (S k))
      end
  end.

Definition local_request (L : LocalHost) (req : IpcRequest) : StateM Local IpcClientError IpcResponse := λ d,
  let '(answer, d') := local_exchange L req d in
  ((send_request (lh_connects L (lo_calls d)) req (reader_of answer, writer_new)).1, d').

(** ** Terminals *)

Definition double_quote : bytes := [x22].
Definition quoted (l : bytes) : bytes := double_quote ++ l ++ double_quote.

(** The status the service answers on a terminal connection, put together from texts that are
    not escaped. *)
Definition status_line (outcome : terminal_outcome) : bytes :=
  match outcome with
  | TerminalClosed => []
  | TerminalError message =>
      as_bytes "{" ++ quoted (as_bytes "status") ++ as_bytes ":" ++ quoted (as_bytes "error") ++ as_bytes "," ++
      quoted (as_bytes "message") ++ as_bytes ":" ++ quoted (as_bytes message) ++ as_bytes "}" ++ line_feed
  | TerminalBridged _ _ =>
      as_bytes "{" ++ quoted (as_bytes "status") ++ as_bytes ":" ++ quoted (as_bytes "ok") ++ as_bytes "}" ++ line_feed
  end.

Definition local_terminal (L : LocalHost) (peer ticket_id : string) (cols rows : N)
    : StateM Local IpcClientError unit := λ d,
  let k := lo_calls d in
  let s := lh_meanwhile L k (lo_service d) in
  if negb (lh_connects L k) then (Err ConnectionFailed, mkLocal s (lo_commands d) (S k)) else
  match json_to_vec (mkTerminalSessionInit peer (Some ticket_id) cols rows None) with
  | None => (Err Serialization, mkLocal s (lo_commands d) (S k))
  | Some line =>
      let '(outcome, commands, s) := handle_terminal_client (lh_host L) (lh_ios L k 0) (lh_opened L k)
        (line ++ line_feed) s in
      ((terminal_handshake peer (Some ticket_id) cols rows (reader_of (status_line outcome), writer_new)).1,
       mkLocal s (lo_commands d ++ commands) (S k))
  end.

Definition local_stage (L : LocalHost) (path : PathBuf) : StateM Local IpcClientError string := λ d,
  (lh_stage L (lo_calls d), mkLocal (lo_service d) (lo_commands d) (S (lo_calls d))).

Definition local_daemon (L : LocalHost) : Daemon Local := {|
  daemon_request := local_request L;
  daemon_terminal := local_terminal L;
  daemon_stage := local_stage L
|}.
End local.

(** ** Tickets over the requests of the service *)

Section tickets_keep.
Context `{CC : Crypto, HX : Hex, BC : BodyCodec, OC : ObjectCodec}.
Context {St : Type} `{OS : !ObjectStore St}.
Implicit Types en : TicketEngine St.

(** The store of tickets stays well formed and no ticket loses or changes its client. *)
Definition tickets_keep en en' : Prop :=
  store_inv (en_state en) →
  store_inv (en_state en') ∧
  ∀ t r, engine_get_ticket en t = Some r →
    ∃ r', engine_get_ticket en' t = Some r' ∧ tr_client_peer_id r' = tr_client_peer_id r.

Lemma tickets_keep_state en en' : en_state en' = en_state en → tickets_keep en en'.
Proof. intros E Hs. unfold engine_get_ticket. rewrite E. eauto. Qed.

Lemma tickets_keep_refl en : tickets_keep en en.
Proof. by apply tickets_keep_state. Qed.

Lemma tickets_keep_trans en1 en2 en3 : tickets_keep en1 en2 → tickets_keep en2 en3 → tickets_keep en1 en3.
Proof.
  intros H1 H2 Hs. destruct (H1 Hs) as [Hs2 Hc1]. destruct (H2 Hs2) as [Hs3 Hc2]. split; [done|].
  intros t r Hr. destruct (Hc1 t r Hr) as (r2 & Hr2 & E2). destruct (Hc2 t r2 Hr2) as (r3 & Hr3 & E3).
  exists r3. split; [done|congruence].
Qed.

Lemma apply_event_keep en en' e :
  apply_event (en_state en) e = Ok (en_state en') → tickets_keep en en'.
Proof.
  intros He Hs. split; [by eapply apply_event_inv|]. intros t r. unfold engine_get_ticket, get_ticket.
  assert (en_state en' = apply_or_skip (en_state en) e) as E by (unfold apply_or_skip; by rewrite He).
  rewrite E, apply_or_skip_lookup. case_decide as Ht; [|eauto].
  destruct (apply_event_Ok _ _ _ _ Ht He) as (a & Ha & _). rewrite Ha. intros Hr.
  destruct (en_state en !! t) as [b|] eqn:Hb; [|done]. injection Hr as <-.
  destruct (transform_step _ _ _ _ Ht Ha) as (b' & [= <-] & Hst). simpl. eexists. split; [done|]. apply Hst.
Qed.

Lemma append_keep io te ts en r en' : append_ticket_event io te ts en = (r, en') → tickets_keep en en'.
Proof.
  unfold append_ticket_event. destruct (prepare_event en te ts) as [[event obj]|e]; [|intros [= _ <-]; apply tickets_keep_refl].
  destruct (os_put (en_store en) io obj) as [[i|e] store]; [|intros [= _ <-]; by apply tickets_keep_state].
  destruct (graph_insert _ event) as [g|e]; [|intros [= _ <-]; by apply tickets_keep_state].
  destruct (apply_event _ event) as [s|e] eqn:He; intros [= _ <-]; [|by apply tickets_keep_state].
  by eapply (apply_event_keep _ _ event).
Qed.

Lemma appended_keep {A} io te ts (k : Event * SignedObject → EngineM St A) en r en' :
  (∀ x en, (k x en).2 = en) → sbind (append_ticket_event io te ts) k en = (r, en') → tickets_keep en en'.
Proof.
  intros Hk. unfold sbind. destruct (append_ticket_event io te ts en) as [[x|e] en1] eqn:E;
    pose proof (append_keep _ _ _ _ _ _ E) as H1; [|by intros [= _ <-]].
  intros Hr. pose proof (Hk x en1) as H2. rewrite Hr in H2. simpl in H2. by subst.
Qed.

Lemma retrieve_same t en : (retrieve t en).2 = en.
Proof. unfold retrieve. by destruct (engine_get_ticket en t). Qed.
End tickets_keep.

Section service_keep.
Context `{CC : Crypto, HX : Hex, BC : BodyCodec, OC : ObjectCodec, SHA : Sha256, HK : Hkdf, UU : Uuid}.
Context `{LP : Libp2p, CB : Cbor OperatorSessionCertificate, ET : ErrorText}.
Context `{JQ : Json IpcRequest, JR : Json IpcResponse, JI : Json TerminalSessionInit}.
Context {St : Type} `{OS : !ObjectStore St}.
Implicit Types (s : ServiceState (St := St)) (h : service_host).

Definition service_keeps s s' : Prop := tickets_keep (sv_engine s) (sv_engine s').

Lemma service_keeps_same s s' : sv_engine s' = sv_engine s → service_keeps s s'.
Proof. unfold service_keeps. intros ->. apply tickets_keep_refl. Qed.

Lemma revoke_session_engine s : sv_engine (revoke_session s) = sv_engine s.
Proof. unfold revoke_session. by destruct (sv_session s). Qed.

Lemma authorized_engine now required s : sv_engine (is_operator_authorized_for now required s).2 = sv_engine s.
Proof.
  unfold is_operator_authorized_for. repeat case_match; simplify_eq/=; auto using revoke_session_engine.
Qed.

Lemma create_ticket_keep io uuid now title description priority client en r en' :
  create_ticket io uuid now title description priority client en = (r, en') → tickets_keep en en'.
Proof. apply appended_keep. intros. apply retrieve_same. Qed.

Lemma update_ticket_state_keep io now t st actor en r en' :
  update_ticket_state io now t st actor en = (r, en') → tickets_keep en en'.
Proof.
  unfold update_ticket_state. destruct (engine_get_ticket en t); [|intros [= _ <-]; apply tickets_keep_refl].
  destruct (negb _); [intros [= _ <-]; apply tickets_keep_refl|].
  apply appended_keep. intros. apply retrieve_same.
Qed.

Lemma add_chat_message_keep io now m en r en' : add_chat_message io now m en = (r, en') → tickets_keep en en'.
Proof. by apply appended_keep. Qed.

Lemma record_event_keep io uuid now t kind actor metadata en r en' :
  record_event io uuid now t kind actor metadata en = (r, en') → tickets_keep en en'.
Proof. by apply appended_keep. Qed.

Lemma send_chat_message_keep h io t body s : service_keeps s (send_chat_message h io t body s).2.
Proof.
  unfold send_chat_message, service_keeps. destruct (engine_get_ticket _ t) as [ticket|]; [|apply tickets_keep_refl].
  destruct (negb _); [apply tickets_keep_refl|].
  destruct (add_chat_message _ _ _ _) as [[u|e] en] eqn:Ha; apply add_chat_message_keep in Ha; [|done].
  destruct (record_event _ _ _ _ _ _ _ en) as [r2 en2] eqn:Hr. apply record_event_keep in Hr.
  assert (tickets_keep (sv_engine s) en2) as H by (by eapply tickets_keep_trans).
  destruct (counterpart h ticket); [|done]. destruct (negb _); [done|]. by destruct (chat_authority _ _ _ _ _ _ _).
Qed.

Lemma send_file_engine h io t path s : sv_engine (send_file h io t path s).2 = sv_engine s.
Proof.
  unfold send_file. destruct (engine_get_ticket _ t) as [ticket|]; [|done]. destruct (negb _); [done|].
  destruct (counterpart h ticket); [|done]. destruct (negb _); [done|].
  destruct (file_authority _ _ _) as [[]|]; [|done]. destruct (import_staged_upload_from _ _ _ _) as [[|] files]; [|done].
  by destruct (negb _).
Qed.

Lemma update_ticket_status_keep h io t st s : service_keeps s (update_ticket_status h io t st s).2.
Proof.
  unfold update_ticket_status. pose proof (authorized_engine (rq_now io) CAP_TICKET_MANAGE s) as E.
  destruct (is_operator_authorized_for _ _ s) as [ok s1]. simpl in E.
  destruct ok; simpl; [|by apply service_keeps_same].
  destruct (engine_get_ticket _ t) as [current|]; [|by apply service_keeps_same].
  destruct (negb _).
  - apply service_keeps_same. rewrite <- E. unfold update_remote_ticket.
    destruct (parse_peer_id _); [|done]. destruct (negb _); [done|]. destruct (sv_session s1); [|done].
    destruct (hs_genesis h); [|done]. destruct (make_mutation _ _ _ _ _ _ _); [|done]. by destruct (negb _).
  - destruct (update_ticket_state _ _ _ _ _ _) as [[ticket|e] en] eqn:Hu;
      apply update_ticket_state_keep in Hu; rewrite E in Hu; exact Hu.
Qed.

(** A request keeps the tickets. *)
Lemma process_request_keep h io req s : service_keeps s (process_request h io req s).2.
Proof.
  destruct req; simpl; try (by apply service_keeps_same).
  - unfold get_status. pose proof (authorized_engine (rq_now io) CAP_SHELL_EXEC s) as E. unfold is_operator_authorized.
    destruct (is_operator_authorized_for _ _ s). by apply service_keeps_same.
  - unfold list_peers. apply service_keeps_same. destruct (negb _); [done|]. destruct (negb _); done.
  - unfold create_ticket_request. destruct (create_ticket _ _ _ _ _ _ _ _) as [[record|e] en] eqn:Hc;
      apply create_ticket_keep in Hc; exact Hc.
  - apply update_ticket_status_keep.
  - apply send_chat_message_keep.
  - apply service_keeps_same, send_file_engine.
  - unfold unlock_operator. apply service_keeps_same. destruct (hs_genesis h); [|done].
    destruct (new_session _ _ _ _); [|done]. apply revoke_session_engine.
  - apply service_keeps_same, revoke_session_engine.
  - unfold get_operator_status. apply service_keeps_same. destruct (sv_session s); [|done].
    destruct (_ <=? _); [|done]. apply revoke_session_engine.
Qed.

Lemma handle_terminal_engine h io opened input s :
  sv_engine (handle_terminal_client h io opened input s).2 = sv_engine s.
Proof.
  unfold handle_terminal_client, is_operator_authorized. pose proof (authorized_engine (rq_now io) CAP_SHELL_EXEC s) as E.
  destruct (is_operator_authorized_for _ _ s) as [ok s1]. simpl in E. destruct ok; simpl; [|done].
  destruct (read_init input) as [[text|]|]; [|done|done].
  destruct (terminal_command _ _ _ _ _) as [[[init command] session]|]; [|done]. by destruct (negb _).
Qed.
End service_keep.

(** ** The interface *)

#[local] Opaque MAX_IPC_LINE_BYTES.

Section local_properties.
Context `{CC : Crypto, HX : Hex, BC : BodyCodec, OC : ObjectCodec, SHA : Sha256, HK : Hkdf, UU : Uuid}.
Context `{LP : Libp2p, CB : Cbor OperatorSessionCertificate, ET : ErrorText}.
Context `{JQ : Json IpcRequest, JQL : !JsonLaws IpcRequest, JQT : !JsonText IpcRequest}.
Context `{JR : Json IpcResponse, JRL : !JsonLaws IpcResponse, JRT : !JsonText IpcResponse}.
Context `{JI : Json TerminalSessionInit, JH : Json HandshakeResp}.
Context {St : Type} `{OS : !ObjectStore St}.
Implicit Types (s : ServiceState (St := St)) (L : LocalHost (St := St)) (d : Local (St := St)).

(** The state the service has reached when the next connection is made. *)
Definition reached L d : ServiceState := lh_meanwhile L (lo_calls d) (lo_service d).

Lemma no_answer req line :
  json_to_vec req = Some line →
  (send_request true req (reader_of (answer_bytes []), writer_new)).1 = Err ConnectionClosed.
Proof. intros Hj. unfold writer_new. by rewrite (send_request_line _ _ _ _ Hj). Qed.

Lemma refused_answer req line message :
  json_to_vec req = Some line →
  ∃ e, (send_request true req (reader_of (answer_bytes [RError message]), writer_new)).1 = Err e ∨
       json_to_vec (RError message) = None.
Proof.
  intros Hj. destruct (json_to_vec (RError message)) as [answer|] eqn:Ha; [|exists ConnectionClosed; by right].
  destruct (client_reads_answer req line (RError message) answer [] Hj Ha) as [_ H]. cbv zeta in H.
  unfold answer_bytes. cbn [fmap list_fmap concat]. rewrite Ha, app_nil_r. cbn [default].
  destruct (_ <=? _)%nat; [destruct H as [H|H]|]; eexists; left; exact H.
Qed.

(** A request that is too long is not run, and the caller gets an error. *)
Lemma long_request h ios up s req line :
  json_to_vec req = Some line → (MAX_IPC_LINE_BYTES ≤ length line)%nat →
  ∃ e, handle_client (S (length (line ++ line_feed))) h ios up 0 (line ++ line_feed) s = Some e ∧
    ce_state e = s ∧ ce_commands e = [] ∧
    ∃ err, (send_request true req (reader_of (answer_bytes (ce_written e)), writer_new)).1 = Err err.
Proof.
  intros Hj Hl. destruct (json_text req line Hj) as (Hn & _). cbn [handle_client].
  destruct (read_line (S MAX_IPC_LINE_BYTES) (line ++ line_feed)) as [text rest] eqn:E.
  assert (length text = S MAX_IPC_LINE_BYTES) as Hlen by (apply (read_line_full _ line _ rest); [done|lia|exact E]).
  unfold to_str. destruct (utf8_valid text); cbv iota; [|eexists; split; [done|]; simpl; eauto using no_answer].
  rewrite bool_decide_eq_false_2 by (intros ->; simpl in Hlen; lia).
  rewrite Hlen, (proj2 (Nat.ltb_lt _ _)) by apply Nat.lt_succ_diag_r. eexists. split; [done|].
  destruct (json_to_vec too_long) as [answer|] eqn:Ha; simpl; [|eauto using no_answer].
  destruct (up 0%nat); simpl; [|eauto using no_answer]. split; [done|]. split; [done|].
  destruct (refused_answer req line "Request exceeds maximum size limit (64 KB)" Hj) as [e [He|He]]; [by exists e|].
  unfold too_long in Ha. congruence.
Qed.

(** A request within the limit is run once, whatever becomes of its answer. *)
Lemma run_request h ios up s req line response commands s' :
  json_to_vec req = Some line → (length line < MAX_IPC_LINE_BYTES)%nat →
  process_request h (ios 0%nat) req s = (response, commands, s') →
  ∃ e, handle_client (S (length (line ++ line_feed))) h ios up 0 (line ++ line_feed) s = Some e ∧
    ce_state e = s' ∧ ce_commands e = commands ∧
    let r := (send_request true req (reader_of (answer_bytes (ce_written e)), writer_new)).1 in
    (r = answered_as response ∨ ∃ err, r = Err err) ∧
    ∀ answer, json_to_vec response = Some answer → up 0%nat = true → (length answer < MAX_IPC_LINE_BYTES)%nat →
      r = answered_as response.
Proof.
  intros Hj Hl Hp. rewrite length_app, Nat.add_comm. cbn [length line_feed Nat.add].
  rewrite (handle_line _ _ _ _ _ _ _ Hj Hl), Hp. eexists. split; [done|].
  destruct (json_to_vec response) as [answer|] eqn:Ha; [destruct (up 0%nat)|];
    rewrite ?bool_decide_eq_true_2, ?bool_decide_eq_false_2 by (rewrite ?Ha; by eauto || by intros []);
    cbn [andb ce_state ce_commands ce_written]; (split; [done|]; split; [done|]); cbv zeta;
    [|rewrite (no_answer _ _ Hj); (split; [right; by eexists|done])..].
  destruct (client_reads_answer req line response answer [] Hj Ha) as [_ H]. cbv zeta in H.
  unfold answer_bytes. cbn [fmap list_fmap concat]. rewrite Ha, app_nil_r. cbn [default]. split.
  - destruct (_ <=? _)%nat; [right; destruct H as [H|H]; eexists; exact H|left; exact H].
  - intros a [= <-] _ Hla. rewrite (proj2 (Nat.leb_gt _ _)) in H by exact Hla. exact H.
Qed.

(** What one request does, as its caller sees it. *)
Lemma local_request_spec L req d r d' :
  local_request L req d = (r, d') →
  lo_calls d' = S (lo_calls d) ∧
  ((∃ e, r = Err e) ∧ lo_service d' = reached L d ∧ lo_commands d' = lo_commands d ∨
   ∃ response commands,
     process_request (lh_host L) (lh_ios L (lo_calls d) 0) req (reached L d) = (response, commands, lo_service d') ∧
     lo_commands d' = lo_commands d ++ commands ∧ (r = answered_as response ∨ ∃ e, r = Err e)).
Proof.
  unfold local_request, local_exchange. cbv zeta. fold (reached L d). destruct (lh_connects L (lo_calls d)); cbn [negb];
    [|intros [= <- <-]; simpl; eauto 10].
  destruct (json_to_vec req) as [line|] eqn:Hj;
    [|intros [= <- <-]; unfold send_request, write_line, sbind, slift; rewrite Hj; simpl; eauto 10].
  destruct (decide (MAX_IPC_LINE_BYTES ≤ length line)%nat) as [Hl|Hl].
  - destruct (long_request (lh_host L) (lh_ios L (lo_calls d)) (lh_up L (lo_calls d)) (reached L d) req line Hj Hl)
      as (e & -> & Hs & Hc & err & Herr). rewrite Herr, Hs, Hc, app_nil_r. intros [= <- <-]. simpl. eauto 10.
  - destruct (process_request (lh_host L) (lh_ios L (lo_calls d) 0) req (reached L d)) as [[response commands] s'] eqn:Hp.
    destruct (run_request (lh_host L) (lh_ios L (lo_calls d)) (lh_up L (lo_calls d)) (reached L d) req line response
      commands s' Hj ltac:(lia) Hp) as (e & -> & Hs & Hc & Hr & _). rewrite Hs, Hc. intros [= <- <-]. simpl. split; [done|].
    right. by eexists _, _.
Qed.

(** What the service does between requests keeps the tickets too. *)
Context (L : LocalHost (St := St)) (Hmeanwhile : ∀ k s, service_keeps s (lh_meanwhile L k s)).

Definition local_ok d : Prop := store_inv (en_state (sv_engine (lo_service d))).
Definition local_peer d : string := peer_id_to_string (hs_peer_id (lh_host L)).
Definition local_client_of d (t : string) : option string :=
  tr_client_peer_id <$> engine_get_ticket (sv_engine (lo_service d)) t.

Lemma local_keeps d d' :
  service_keeps (lo_service d) (lo_service d') → local_ok d → daemon_keeps local_ok local_peer local_client_of d d'.
Proof.
  intros Hk Hok. destruct (Hk Hok) as [Hok' Hc]. split; [done|]. split; [done|].
  intros t p. unfold local_client_of. intros (r & Hr & ->)%fmap_Some. destruct (Hc t r Hr) as (r' & -> & E). simpl. by rewrite E.
Qed.

Lemma local_request_keeps req d : service_keeps (lo_service d) (lo_service (local_request L req d).2).
Proof.
  destruct (local_request L req d) as [r d'] eqn:E. simpl. destruct (local_request_spec _ _ _ _ _ E) as [_ H].
  eapply tickets_keep_trans; [apply (Hmeanwhile (lo_calls d))|].
  destruct H as [(_ & -> & _)|(response & commands & Hp & _)]; [by apply service_keeps_same|].
  pose proof (process_request_keep (lh_host L) (lh_ios L (lo_calls d) 0) req (reached L d)) as K. by rewrite Hp in K.
Qed.

Lemma local_terminal_keeps peer t c n d : service_keeps (lo_service d) (lo_service (local_terminal L peer t c n d).2).
Proof.
  unfold local_terminal. destruct (lh_connects L (lo_calls d)); simpl; [|apply Hmeanwhile].
  destruct (json_to_vec _) as [line|]; [|apply Hmeanwhile].
  pose proof (handle_terminal_engine (lh_host L) (lh_ios L (lo_calls d) 0) (lh_opened L (lo_calls d))
    (line ++ line_feed) (reached L d)) as K.
  fold (reached L d). destruct (handle_terminal_client _ _ _ _ _) as [[outcome commands] s']. simpl in *.
  eapply tickets_keep_trans; [apply (Hmeanwhile (lo_calls d))|]. by apply service_keeps_same.
Qed.

Lemma answered_as_Ok response r : answered_as response = Ok r → r = response ∧ ∀ message, r ≠ RError message.
Proof. destruct response; try (intros [= <-]; by split); done. Qed.

(** An answer the caller gets is that of the request, run on the state reached. *)
Lemma local_request_answer req d r d' :
  local_request L req d = (Ok r, d') →
  (∀ message, r ≠ RError message) ∧
  ∃ commands, process_request (lh_host L) (lh_ios L (lo_calls d) 0) req (reached L d) = (r, commands, lo_service d') ∧
    lo_commands d' = lo_commands d ++ commands.
Proof.
  intros E. destruct (local_request_spec _ _ _ _ _ E) as [_ [((e & ?) & _)|(response & commands & Hp & Hc & Hr)]]; [done|].
  destruct Hr as [Hr|[e ?]]; [|done]. symmetry in Hr. apply answered_as_Ok in Hr as [-> Hne]. eauto.
Qed.

(** The service implements the interface the desktop relies on. *)
Definition local_daemon_laws : DaemonLaws (Local (St := St)) (H := local_daemon L).
Proof.
  apply (Build_DaemonLaws _ (local_daemon L) local_ok local_peer local_client_of); simpl.
  - intros req d. apply local_keeps, local_request_keeps.
  - intros peer t c n d. apply local_keeps, local_terminal_keeps.
  - intros p d. apply local_keeps. by apply service_keeps_same.
  - intros req d message d' E. destruct (local_request_answer _ _ _ _ E) as [Hne _].
    by apply (Hne message).
  - intros t d detail d' Hok E. destruct (local_request_answer _ _ _ _ E) as (_ & commands & Hp & _).
    simpl in Hp. injection Hp as Hd _ Hs. unfold local_client_of. rewrite <- Hs.
    assert (store_inv (en_state (sv_engine (reached L d)))) as Hinv by exact (proj1 (Hmeanwhile (lo_calls d) (lo_service d) Hok)).
    unfold get_ticket_detail in Hd. apply fmap_Some in Hd as (a & Ha & ->). unfold engine_get_ticket, get_ticket.
    rewrite Ha. simpl. split; [|done]. apply (ai_id t a (Hinv t a Ha)).
  - intros d status d' Hok E. destruct (local_request_answer _ _ _ _ E) as (_ & commands & Hp & _).
    simpl in Hp. unfold get_status in Hp. destruct (is_operator_authorized _ _). by injection Hp as <- _ _.
Defined.
End local_properties.
