(* ===== verification/Window.v ===== *)
(** The window of the desktop ([apps/fortiq-desktop/src/main.rs]): what its callbacks ask of the
    actor and what the events of the actor make it show; and the desktop as a whole, the
    window and the actor on the service of Local.v. *)

From stdpp Require Import pretty.
From S2P Require Import Prelude Text Object Concrete Ticket Event Graph GraphSort.
From S2P Require Import Reducer Authority Store Engine Codec Stream Config Shell Mnemonic Wire Sync.
From S2P Require Import Peers Admission Transfer Client Node Service Screen Terminal Desktop Local.

(** ** The properties of the window *)

Record PeerItem := mkPeerItem {
  pi_peer_id : string; pi_hostname : string; pi_os : string; pi_transport : string; pi_status : string
}.

Record TicketItem := mkTicketItem {
  ti_id : string; ti_title : string; ti_priority : N; ti_state : string; ti_created_at : string
}.

Record ChatMessageItem := mkChatMessageItem {
  ci_id : string; ci_sender : string; ci_body : string; ci_is_operator : bool
}.

Record AttachmentItem := mkAttachmentItem {
  fi_id : string; fi_filename : string; fi_size_str : string; fi_sha256 : string
}.

Record AgentView := mkAgentView { av_agent_state : string; av_peer_id : string; av_version : string }.

Record TicketView := mkTicketView {
  tv_id : string;
  tv_title : string;
  tv_priority : N;
  tv_state : string;
  tv_messages : list ChatMessageItem;
  tv_files : list AttachmentItem
}.

Record TerminalView := mkTerminalView { sv_connected : bool; sv_denied : string; sv_text : list N }.

Record SupportView := mkSupportView { uv_db_healthy : bool; uv_peers_stale : bool; uv_last_action : string }.

(** The properties of [AppWindow] the code sets, in groups. *)
Record AppWindow := mkWindow {
  ui_agent : AgentView;
  ui_is_operator_unlocked : bool;
  ui_peers : list PeerItem;
  ui_tickets : list TicketItem;
  ui_selected : TicketView;
  ui_terminal : TerminalView;
  ui_support : SupportView;
  ui_toast_message : string
}.

(** ** The callbacks *)

Inductive ui_action :=
| OnRefresh
| OnSelectTicket (id : string)
| OnCreateTicket (title : string) (prio : Z)
| OnSendMessage (text : string)
| OnPickAndSendFile (picked : option PathBuf)
| OnStartShell
| OnCloseShell
| OnSendTerminalInput (text : string)
| OnUnlockOperator (mnemonic : string)
| OnLockOperator
| OnRunDiagnostic
| OnRepairDatabase
| OnResetPeers.

(** [prio as u8] of an [i32]. *)
Definition i32_as_u8 (n : Z) : N := Z.to_N (n mod 256).

Definition ui_command (action : ui_action) (ui : AppWindow) : option DesktopCommand :=
  let selected := tv_id (ui_selected ui) in
  match action with
  | OnRefresh => Some CmdRefresh
  | OnSelectTicket id => Some (CmdSelectTicket id)
  | OnCreateTicket title prio => Some (CmdCreateTicket title (i32_as_u8 prio))
  | OnSendMessage text => Some (CmdSendMessage selected text)
  | OnPickAndSendFile picked => CmdSendFile selected <$> picked
  | OnStartShell => Some (CmdStartShell selected 80 24)
  | OnCloseShell => Some CmdCloseShell
  | OnSendTerminalInput text => Some (CmdShellInput (as_bytes text))
  | OnUnlockOperator mnemonic => Some (CmdUnlockOperator mnemonic)
  | OnLockOperator => Some CmdLockOperator
  | OnRunDiagnostic => Some CmdRefreshSelfSupport
  | OnRepairDatabase => Some (CmdTriggerSelfSupportAction "repair_db")
  | OnResetPeers => Some (CmdTriggerSelfSupportAction "reset_peers")
  end.

(** ** The events *)

Definition peer_item (p : DesktopPeerDto) : PeerItem :=
  mkPeerItem (dp_peer_id p) (dp_hostname p) (dp_os p) (dp_transport p) (dp_status p).

Definition ticket_item (t : TicketSummaryDto) : TicketItem :=
  mkTicketItem (tq_id t) (tq_title t) (tq_priority t) (tq_state t) (pretty (tq_created_at t)).

Definition message_item (m : ChatMessageDto) : ChatMessageItem :=
  mkChatMessageItem (cq_id m) (cq_sender m) (cq_body m) (cq_is_operator m).

Definition attachment_item (f : AttachmentDto) : AttachmentItem :=
  mkAttachmentItem (aq_id f) (aq_filename f) (pretty (aq_size_bytes f) +:+ " o") (aq_sha256 f).

Definition ticket_view (d : TicketDetailDto) : TicketView :=
  mkTicketView (dq_id d) (dq_title d) (dq_priority d) (dq_state d) (message_item <$> dq_messages d)
    (attachment_item <$> dq_attachments d).

Definition set_agent v (ui : AppWindow) : AppWindow :=
  mkWindow v (ui_is_operator_unlocked ui) (ui_peers ui) (ui_tickets ui) (ui_selected ui) (ui_terminal ui)
    (ui_support ui) (ui_toast_message ui).
Definition set_unlocked v (ui : AppWindow) : AppWindow :=
  mkWindow (ui_agent ui) v (ui_peers ui) (ui_tickets ui) (ui_selected ui) (ui_terminal ui)
    (ui_support ui) (ui_toast_message ui).
Definition set_peers v (ui : AppWindow) : AppWindow :=
  mkWindow (ui_agent ui) (ui_is_operator_unlocked ui) v (ui_tickets ui) (ui_selected ui) (ui_terminal ui)
    (ui_support ui) (ui_toast_message ui).
Definition set_tickets v (ui : AppWindow) : AppWindow :=
  mkWindow (ui_agent ui) (ui_is_operator_unlocked ui) (ui_peers ui) v (ui_selected ui) (ui_terminal ui)
    (ui_support ui) (ui_toast_message ui).
Definition set_selected v (ui : AppWindow) : AppWindow :=
  mkWindow (ui_agent ui) (ui_is_operator_unlocked ui) (ui_peers ui) (ui_tickets ui) v (ui_terminal ui)
    (ui_support ui) (ui_toast_message ui).
Definition set_terminal v (ui : AppWindow) : AppWindow :=
  mkWindow (ui_agent ui) (ui_is_operator_unlocked ui) (ui_peers ui) (ui_tickets ui) (ui_selected ui) v
    (ui_support ui) (ui_toast_message ui).
Definition set_support v (ui : AppWindow) : AppWindow :=
  mkWindow (ui_agent ui) (ui_is_operator_unlocked ui) (ui_peers ui) (ui_tickets ui) (ui_selected ui)
    (ui_terminal ui) v (ui_toast_message ui).
Definition set_toast v (ui : AppWindow) : AppWindow :=
  mkWindow (ui_agent ui) (ui_is_operator_unlocked ui) (ui_peers ui) (ui_tickets ui) (ui_selected ui)
    (ui_terminal ui) (ui_support ui) v.

Definition ui_event (ui : AppWindow) (e : DesktopEvent) : AppWindow :=
  let terminal := ui_terminal ui in
  match e with
  | EvStatusChanged s =>
      set_unlocked (dd_is_operator_unlocked s)
        (set_agent (mkAgentView (dd_agent_state s) (dd_peer_id s) (dd_version s)) ui)
  | EvPeersChanged peers => set_peers (peer_item <$> peers) ui
  | EvTicketsChanged tickets => set_tickets (ticket_item <$> tickets) ui
  | EvTicketLoaded (Some d) => set_selected (ticket_view d) ui
  | EvTicketLoaded None =>
      let v := ui_selected ui in
      set_selected (mkTicketView "" (tv_title v) (tv_priority v) (tv_state v) (tv_messages v) (tv_files v)) ui
  | EvShellOpened _ => set_terminal (mkTerminalView true "" (sv_text terminal)) ui
  | EvShellOutput text => set_terminal (mkTerminalView (sv_connected terminal) (sv_denied terminal) text) ui
  | EvShellClosed => set_terminal (mkTerminalView false (sv_denied terminal) (sv_text terminal)) ui
  | EvShellDenied message => set_terminal (mkTerminalView false message (sv_text terminal)) ui
  | EvOperatorUnlocked _ => set_unlocked true ui
  | EvOperatorLocked => set_unlocked false ui
  | EvSelfSupportChanged s =>
      set_support (mkSupportView (negb (sq_db_corrupt s)) (sq_peers_stale s) (default "" (sq_last_action_message s))) ui
  | EvNotification _ message => set_toast message ui
  | EvError message => set_toast message ui
  | EvMessageAdded _ _ | EvFileAdded _ _ => ui
  end.

(** What the window shows once it has taken every event. *)
Definition shows_after (ui : AppWindow) (events : list DesktopEvent) : AppWindow := foldl ui_event ui events.

Lemma shows_after_snoc ui events e : shows_after ui (events ++ [e]) = ui_event (shows_after ui events) e.
Proof. unfold shows_after. by rewrite foldl_app. Qed.

(** ** The desktop on the service *)

Section desktop.
Context `{CC : Crypto, HX : Hex, BC : BodyCodec, OC : ObjectCodec, SHA : Sha256, HK : Hkdf, UU : Uuid}.
Context `{LP : Libp2p, CB : Cbor OperatorSessionCertificate, ET : ErrorText}.
Context `{JQ : Json IpcRequest, JQL : !JsonLaws IpcRequest, JQT : !JsonText IpcRequest}.
Context `{JR : Json IpcResponse, JRL : !JsonLaws IpcResponse, JRT : !JsonText IpcResponse}.
Context `{JI : Json TerminalSessionInit, JH : Json HandshakeResp, V : Vte}.
Context {St : Type} `{OS : !ObjectStore St}.
Implicit Types (s : ServiceState (St := St)) (L : LocalHost (St := St)).

Abbreviation actor := (BackendActor (D := Local (St := St))).

(** A service that can be reached and that nothing else changes. *)
Record quiet L : Prop := {
  qt_connects k : lh_connects L k = true;
  qt_up k j : lh_up L k j = true;
  qt_meanwhile k s : lh_meanwhile L k s = s
}.

(** Within the limit of a line. *)
Definition fits {T} `{Json T} (x : T) : Prop :=
  ∃ l, json_to_vec x = Some l ∧ (length l < MAX_IPC_LINE_BYTES)%nat.

(** Requests run one after the other, each on a connection of its own. *)
Fixpoint run_calls L (k : nat) (reqs : list IpcRequest) s : list IpcResponse * ServiceState :=
  match reqs with
  | [] => ([], s)
  | req :: reqs =>
      let '(response, _, s) := process_request (lh_host L) (lh_ios L k 0) req s in
      let '(responses, s) := run_calls L (S k) reqs s in (response :: responses, s)
  end.

Lemma ask_quiet L req (b : actor) response commands s' :
  quiet L → fits req → fits response →
  process_request (lh_host L) (lh_ios L (lo_calls (bk_daemon b)) 0) req (lo_service (bk_daemon b)) =
    (response, commands, s') →
  ask_daemon (DM := local_daemon L) req b =
    (answered_as response, with_daemon (mkLocal s' (lo_commands (bk_daemon b) ++ commands) (S (lo_calls (bk_daemon b)))) b).
Proof.
  intros [Hc Hup Hm] (line & Hj & Hl) (answer & Ha & Hla) Hp. unfold ask_daemon. cbn [daemon_request local_daemon].
  unfold local_request, local_exchange. cbv zeta. rewrite Hc, Hm, Hj. cbn [negb].
  destruct (run_request (lh_host L) (lh_ios L (lo_calls (bk_daemon b))) (lh_up L (lo_calls (bk_daemon b)))
    (lo_service (bk_daemon b)) req line response commands s' Hj Hl Hp) as (e & -> & <- & <- & _ & Hr).
  by rewrite (Hr answer Ha (Hup _ _) Hla).
Qed.

Definition session_live (now : N) s : bool :=
  match sv_session s with Some session => (now <? as_expires_at session)%N | None => false end.

(** What a session is after a check of its time, whatever the capability asked for. *)
Lemma authorized_session now required s :
  (is_operator_authorized_for now required s).2 = if session_live now s then s else revoke_session s.
Proof.
  unfold is_operator_authorized_for, session_live, revoke_session. destruct (sv_session s) as [x|]; [|done].
  destruct (N.ltb_spec now (as_expires_at x)); simpl.
  - destruct (Capabilities_has _ _); [done|]. by rewrite (proj2 (N.leb_gt _ _)).
  - by rewrite (proj2 (N.leb_le _ _)) by done.
Qed.

Lemma get_status_live h io s :
  ∃ status, get_status h io s = (RStatus status, [], if session_live (rq_now io) s then s else revoke_session s) ∧
    ds_agent_state status = "online" ∧ ds_peer_id status = peer_id_to_string (hs_peer_id h) ∧
    ds_version status = hs_version h.
Proof.
  unfold get_status, is_operator_authorized. rewrite <- (authorized_session (rq_now io) CAP_SHELL_EXEC s).
  destruct (is_operator_authorized_for _ _ s) as [unlocked s']. simpl. eauto.
Qed.

Lemma get_operator_status_live io s :
  ∃ status, get_operator_status io s =
      (ROperatorStatus status, [], if session_live (rq_now io) s then s else revoke_session s) ∧
    is_unlocked status = session_live (rq_now io) s.
Proof.
  unfold get_operator_status, session_live. destruct (sv_session s) as [x|] eqn:E.
  - rewrite N.leb_antisym. destruct (_ <? _)%N; simpl; eauto.
  - unfold revoke_session. rewrite E. eauto.
Qed.

Lemma live_engine (live : bool) s : sv_engine (if live then s else revoke_session s) = sv_engine s.
Proof. destruct live; [done|apply revoke_session_engine]. Qed.

Lemma live_twice now0 now1 s :
  session_live now1 (if session_live now0 s then s else revoke_session s) = session_live now0 s && session_live now1 s.
Proof.
  destruct (session_live now0 s) eqn:E; [done|]. unfold session_live, revoke_session.
  destruct (sv_session s) as [x|] eqn:Hs; [done|by rewrite Hs].
Qed.

(** What the polls tell the window. *)
Definition peer_events (response : IpcResponse) : list DesktopEvent :=
  match response with RPeers peers => [EvPeersChanged (peer_dto <$> peers)] | _ => [] end.

Lemma peer_events_cases response :
  (peer_events response = [] ∧ ∀ peers, response ≠ RPeers peers) ∨
  ∃ peers, response = RPeers peers ∧ peer_events response = [EvPeersChanged (peer_dto <$> peers)].
Proof. destruct response; eauto; by left. Qed.

Definition detail_events (detail : option TicketDetail) : DesktopEvent := EvTicketLoaded (detail_dto <$> detail).

Definition polls (selected : option string) : list IpcRequest :=
  [GetStatus; GetOperatorStatus; Config.ListPeers; ListTickets None] ++ from_option (λ t, [GetTicket t]) [] selected.

Lemma list_peers_state h io s : (list_peers h io s).2 = s.
Proof. unfold list_peers. destruct (negb _); [done|]. by destruct (negb _). Qed.

Definition with_events (l : list DesktopEvent) (b : actor) : actor :=
  mkBackend (bk_daemon b) (bk_events b ++ l) (bk_selected_ticket_id b) (bk_selected_ticket_detail b)
    (bk_current_status b) (bk_terminal_tx b) (bk_shells b) (bk_self_support b).

Lemma peer_answer response (b : actor) :
  match answered_as response with
  | Ok (RPeers peers) => emit (EvPeersChanged (peer_dto <$> peers)) b
  | _ => b
  end = with_events (peer_events response) b.
Proof. destruct response, b; unfold with_events; simpl; by rewrite ?app_nil_r. Qed.

(** Everything a refresh tells the window, from the answers of the service. *)
Lemma refresh_quiet L (b : actor) :
  quiet L → Forall fits (polls (bk_selected_ticket_id b)) →
  Forall fits (run_calls L (lo_calls (bk_daemon b)) (polls (bk_selected_ticket_id b)) (lo_service (bk_daemon b))).1 →
  let s := lo_service (bk_daemon b) in
  let io i := lh_ios L (i + lo_calls (bk_daemon b))%nat 0%nat in
  let s1 := if session_live (rq_now (io 0%nat)) s then s else revoke_session s in
  let s2 := if session_live (rq_now (io 1%nat)) s1 then s1 else revoke_session s1 in
  ∃ status operator,
    ds_agent_state status = "online" ∧ ds_peer_id status = peer_id_to_string (hs_peer_id (lh_host L)) ∧
    ds_version status = hs_version (lh_host L) ∧ is_unlocked operator = session_live (rq_now (io 1%nat)) s1 ∧
    lo_service (bk_daemon (handle_refresh (DM := local_daemon L) b)) = s2 ∧
    bk_events (handle_refresh (DM := local_daemon L) b) =
      bk_events b ++
      [EvStatusChanged (status_dto status);
       if is_unlocked operator then EvOperatorUnlocked (operator_dto operator) else EvOperatorLocked] ++
      peer_events (list_peers (lh_host L) (io 2%nat) s2).1.1 ++
      [EvTicketsChanged (ticket_dto <$> engine_list_tickets (sv_engine s2) None)] ++
      from_option (λ t, [detail_events (get_ticket_detail (en_state (sv_engine s2)) t)]) []
        (bk_selected_ticket_id b).
Proof.
  intros Hq Hreqs Hans s io s1 s2. subst s. set (s := lo_service (bk_daemon b)) in *. set (k := lo_calls (bk_daemon b)) in *.
  destruct (get_status_live (lh_host L) (io 0%nat) s) as (status & Hst & Ha & Hp & Hv).
  destruct (get_operator_status_live (io 1%nat) s1) as (operator & Hop & Hu).
  destruct (list_peers (lh_host L) (io 2%nat) s2) as [[peers commands] s3] eqn:Hpe.
  assert (s3 = s2) as -> by (by rewrite <- (list_peers_state (lh_host L) (io 2%nat) s2), Hpe).
  exists status, operator. do 4 (split; [done|]).
  assert (Forall fits (RStatus status :: ROperatorStatus operator :: peers ::
    RTickets (engine_list_tickets (sv_engine s2) None) ::
    from_option (λ t, [RTicketDetail (get_ticket_detail (en_state (sv_engine s2)) t)]) [] (bk_selected_ticket_id b)))
    as Hfit.
  { revert Hans. unfold polls, s2, s1, io in *. cbn [app run_calls process_request Nat.add] in *.
    rewrite Hst. cbv iota beta. rewrite Hop. cbv iota beta. rewrite Hpe. cbv iota beta.
    destruct (bk_selected_ticket_id b); done. }
  clear Hans. unfold polls in Hreqs. cbn [app] in Hreqs.
  do 4 (apply Forall_cons in Hreqs as [? Hreqs]; apply Forall_cons in Hfit as [? Hfit]).
  unfold handle_refresh, refresh_status.
  rewrite (ask_quiet L GetStatus b (RStatus status) [] s1) by done. cbn [answered_as].
  unfold refresh_operator.
  rewrite (ask_quiet L GetOperatorStatus _ (ROperatorStatus operator) [] s2) by done. cbn [answered_as].
  unfold refresh_peers. rewrite (ask_quiet L Config.ListPeers _ peers commands s2) by done.
  cbv zeta. rewrite peer_answer.
  unfold refresh_tickets.
  rewrite (ask_quiet L (ListTickets None) _ (RTickets (engine_list_tickets (sv_engine s2) None)) [] s2) by done.
  cbn [answered_as]. cbn [bk_selected_ticket_id emit with_daemon with_status with_events].
  destruct (bk_selected_ticket_id b) as [t|] eqn:Hsel; simpl.
  - apply Forall_cons in Hreqs as [? _]. apply Forall_cons in Hfit as [? _]. unfold load_ticket_detail.
    rewrite (ask_quiet L (GetTicket t) _ (RTicketDetail (get_ticket_detail (en_state (sv_engine s2)) t)) [] s2) by done.
    cbn [answered_as]. unfold detail_events.
    destruct (get_ticket_detail (en_state (sv_engine s2)) t) as [detail|]; simpl; (split; [done|]);
      by rewrite <- !app_assoc.
  - split; [done|]. by rewrite <- !app_assoc.
Qed.

(** C35. What the window shows after a refresh is what the service has: its tickets in its order,
    whether its operator session is open, its peers when the node told them, and the ticket
    that is selected with its messages and files; and asking changed no ticket. *)
Theorem window_shows_service L (b : actor) ui :
  quiet L → Forall fits (polls (bk_selected_ticket_id b)) →
  Forall fits (run_calls L (lo_calls (bk_daemon b)) (polls (bk_selected_ticket_id b)) (lo_service (bk_daemon b))).1 →
  let s := lo_service (bk_daemon b) in
  let io i := lh_ios L (i + lo_calls (bk_daemon b))%nat 0%nat in
  let b' := handle_refresh (DM := local_daemon L) b in
  let w := shows_after ui (bk_events b') in
  ui_agent w = mkAgentView "online" (peer_id_to_string (hs_peer_id (lh_host L))) (hs_version (lh_host L)) ∧
  ui_is_operator_unlocked w = session_live (rq_now (io 0%nat)) s && session_live (rq_now (io 1%nat)) s ∧
  ui_tickets w = ticket_item ∘ ticket_dto <$> engine_list_tickets (sv_engine s) None ∧
  (∀ peers, hs_p2p (lh_host L) = true → rq_send (io 2%nat) = true → rq_peers (io 2%nat) = Answered peers →
     ui_peers w = peer_item ∘ peer_dto <$> peers) ∧
  (∀ t, bk_selected_ticket_id b = Some t →
     match get_ticket_detail (en_state (sv_engine s)) t with
     | Some detail => ui_selected w = ticket_view (detail_dto detail)
     | None => tv_id (ui_selected w) = ""
     end) ∧
  sv_engine (lo_service (bk_daemon b')) = sv_engine s.
Proof.
  intros Hq Hr Ha s io b' w.
  destruct (refresh_quiet L b Hq Hr Ha) as (status & operator & Hag & Hp & Hv & Hu & Hs & He).
  fold s in Hu, Hs, He. subst w b'. rewrite He, Hs, !live_engine. clear He Hs.
  rewrite live_twice in Hu. cbv beta in Hu. subst io. cbv beta. rewrite <- Hu. clear Hu Hr Ha Hq.
  assert (∀ peers, hs_p2p (lh_host L) = true → rq_send (lh_ios L (2 + lo_calls (bk_daemon b)) 0) = true →
    rq_peers (lh_ios L (2 + lo_calls (bk_daemon b)) 0) = Answered peers → ∀ s' : ServiceState (St := St),
    (list_peers (lh_host L) (lh_ios L (2 + lo_calls (bk_daemon b)) 0) s').1.1 = RPeers peers) as Hpeers.
  { intros peers Hh Hc Hn s'. unfold list_peers. by rewrite Hh, Hc, Hn. }
  unfold shows_after. rewrite !foldl_app. generalize (foldl ui_event ui (bk_events b)). intros w.
  match goal with |- context [peer_events ?r] =>
    assert ((∀ peers, hs_p2p (lh_host L) = true → rq_send (lh_ios L (2 + lo_calls (bk_daemon b)) 0) = true →
      rq_peers (lh_ios L (2 + lo_calls (bk_daemon b)) 0) = Answered peers → r = RPeers peers) ) as Hr by eauto;
    revert Hr; generalize r; intros response Hr
  end.
  destruct (peer_events_cases response) as [[E Hne]|(peers & -> & E)]; rewrite E; clear E;
    (destruct (is_unlocked operator), (bk_selected_ticket_id b) as [t|]; simpl;
     [destruct (get_ticket_detail _ t) as [detail|] eqn:Hd|
     |destruct (get_ticket_detail _ t) as [detail|] eqn:Hd|]); simpl;
    rewrite ?Hag, ?Hp, ?Hv, <- ?list_fmap_compose;
    (split_and!; try done; [intros ps Hh Hc Hn; specialize (Hr ps Hh Hc Hn); naive_solver|..];
     intros t' [= <-]; by rewrite Hd).
Qed.

Lemma ask_unreached L req (b : actor) :
  (∀ k, lh_connects L k = false) → (∀ k s, lh_meanwhile L k s = s) →
  ask_daemon (DM := local_daemon L) req b =
    (Err ConnectionFailed,
     with_daemon (mkLocal (lo_service (bk_daemon b)) (lo_commands (bk_daemon b)) (S (lo_calls (bk_daemon b)))) b).
Proof.
  intros Hc Hm. unfold ask_daemon. cbn [daemon_request local_daemon]. unfold local_request, local_exchange. cbv zeta.
  by rewrite Hc, Hm.
Qed.

(** Locking when the service cannot be reached. The user is told that the memory of the service
    was wiped, with a lock event, and nothing happened: the service keeps its session. The
    failed poll that follows sends the last known status again, so that the window shows the
    operator as it was before. *)
Theorem lock_reported_unreached L (b : actor) ui :
  (∀ k, lh_connects L k = false) → (∀ k s, lh_meanwhile L k s = s) →
  let b' := desktop_lock_operator (DM := local_daemon L) b in
  let w := shows_after ui (bk_events b') in
  lo_service (bk_daemon b') = lo_service (bk_daemon b) ∧
  bk_events b' = bk_events b ++ [EvOperatorLocked; EvNotification "info" wiped_notice;
    EvStatusChanged (offline (bk_current_status b))] ++
    from_option (λ _, [EvError (IpcClientError_to_string ConnectionFailed)]) [] (bk_selected_ticket_id b) ∧
  ui_is_operator_unlocked w = dd_is_operator_unlocked (bk_current_status b) ∧
  (bk_selected_ticket_id b = None → ui_toast_message w = wiped_notice).
Proof.
  intros Hc Hm b' w.
  assert (lo_service (bk_daemon b') = lo_service (bk_daemon b) ∧
    bk_events b' = bk_events b ++ [EvOperatorLocked; EvNotification "info" wiped_notice;
    EvStatusChanged (offline (bk_current_status b))] ++
    from_option (λ _, [EvError (IpcClientError_to_string ConnectionFailed)]) [] (bk_selected_ticket_id b)) as [Hs He].
  { subst b' w. unfold desktop_lock_operator, handle_refresh, refresh_tickets, refresh_peers, refresh_operator,
      refresh_status. rewrite !ask_unreached by done. cbv zeta. cbn [snd]. simpl.
    destruct (bk_selected_ticket_id b); simpl.
    - unfold load_ticket_detail. rewrite ask_unreached by done. simpl. by rewrite <- !app_assoc.
    - by rewrite <- !app_assoc. }
  split; [exact Hs|]. split; [exact He|]. subst w. rewrite He. unfold shows_after. rewrite !foldl_app.
  destruct (bk_selected_ticket_id b); by split.
Qed.
End desktop.

(** ** Shells in the window *)

Section shells.
Context `{V : Vte} {D : Type} `{DM : !Daemon D}.
Implicit Types b : BackendActor (D := D).

(** A shell as far as its task goes: what it has shown and still has to show. *)
Definition same_output (sh sh' : DesktopShell) : Prop :=
  sh_session sh' = sh_session sh ∧ sh_passed sh' = sh_passed sh ∧ sh_ended sh' = sh_ended sh.

Lemma send_shell_output i cmd b b' j sh :
  send_shell i cmd b = Some b' → bk_shells b !! j = Some sh →
  ∃ sh', bk_shells b' !! j = Some sh' ∧ same_output sh sh'.
Proof.
  intros Hs Hj. unfold send_shell in Hs. destruct (bk_shells b !! i) as [x|] eqn:Hi; [|injection Hs as <-; by exists sh].
  destruct (negb _); [injection Hs as <-; by exists sh|]. destruct (_ <? _)%nat; [|done]. injection Hs as <-. simpl.
  destruct (decide (i = j)) as [->|Hne].
  - rewrite list_lookup_insert_eq by (by eapply lookup_lt_Some). rewrite Hi in Hj. injection Hj as ->. by eexists.
  - rewrite list_lookup_insert_ne by done. by exists sh.
Qed.

Lemma close_shell_output b b' j sh :
  close_shell b = Some b' → bk_shells b !! j = Some sh →
  ∃ sh', bk_shells b' !! j = Some sh' ∧ same_output sh sh'.
Proof.
  unfold close_shell. destruct (bk_terminal_tx b) as [i|]; [|intros [= <-]; by exists sh].
  destruct (send_shell i Close (with_terminal None b)) as [b1|] eqn:Hs; [|done]. intros [= <-] Hj.
  exact (send_shell_output _ _ _ _ _ _ Hs Hj).
Qed.

Lemma shell_target_shells t b : bk_shells (shell_target t b).2 = bk_shells b.
Proof.
  assert (bk_shells (asked_target t b).2 = bk_shells b) as H.
  { unfold asked_target, ask_daemon. destruct (daemon_request _ _) as [[[]|] d]; try done. by destruct d0. }
  unfold shell_target. destruct (bk_selected_ticket_detail b); [|done]. by case_bool_decide.
Qed.

Lemma start_shell_output t c n b b' j sh :
  start_shell t c n b = Some b' → bk_shells b !! j = Some sh →
  ∃ sh', bk_shells b' !! j = Some sh' ∧ same_output sh sh'.
Proof.
  unfold start_shell. destruct (close_shell b) as [b1|] eqn:Hc; [|done]. intros [= <-] Hj.
  destruct (close_shell_output _ _ _ _ Hc Hj) as (sh' & Hj' & Hsame). exists sh'. split; [|done].
  pose proof (shell_target_shells t b1) as Hs. destruct (shell_target t b1) as [[peer|m] b2]; simpl in Hs;
    [|simpl; by rewrite Hs].
  destruct (_ || _); [simpl; by rewrite Hs|]. unfold open_desktop_shell. destruct (daemon_terminal _ _ _ _ _) as [[]];
    simpl; rewrite Hs; by apply lookup_app_l_Some.
Qed.

(** A shell replaced by another. Opening the new one leaves the session of the old one and what
    it has to show as they are; and what the old one sends goes to the same window: its
    text replaces that of the current shell, and when it ends the window shows the terminal
    as closed, while the current shell runs on. *)
Theorem replaced_shell_speaks b ui :
  (∀ t c n b' i sh, backend_step (BkCommand (CmdStartShell t c n)) b = Some b' → bk_shells b !! i = Some sh →
     ∃ sh', bk_shells b' !! i = Some sh' ∧ same_output sh sh') ∧
  (∀ i j b', bk_terminal_tx b = Some j → i ≠ j →
     (backend_step (BkEnd i) b = Some b' →
        bk_terminal_tx b' = Some j ∧ bk_shells b' !! j = bk_shells b !! j ∧
        sv_connected (ui_terminal (shows_after ui (bk_events b'))) = false) ∧
     (backend_step (BkPass i) b = Some b' →
        bk_terminal_tx b' = Some j ∧ bk_shells b' !! j = bk_shells b !! j ∧
        ∃ sh, bk_shells b !! i = Some sh ∧
          shell_texts sh !! sh_passed sh = Some (sv_text (ui_terminal (shows_after ui (bk_events b')))))).
Proof.
  split; [intros t c n b' i sh; apply start_shell_output|].
  intros i j b' Ht Hne. split; simpl.
  - unfold end_shell. destruct (bk_shells b !! i) as [sh|] eqn:Hi; [|done]. simpl. destruct (_ || _); [done|].
    intros [= <-]. simpl. rewrite list_lookup_insert_ne by done. rewrite shows_after_snoc. done.
  - unfold pass_text. destruct (bk_shells b !! i) as [sh|] eqn:Hi; [|done]. simpl.
    destruct (shell_texts sh !! sh_passed sh) as [text|] eqn:Htext; [|done]. intros [= <-]. simpl.
    rewrite list_lookup_insert_ne by done. rewrite shows_after_snoc. simpl. eauto.
Qed.
End shells.
