(* ===== verification/WindowRuns.v ===== *)
(** Runs of the desktop on the concrete service of ServiceRuns.v: the hypotheses of the
    theorems of Desktop.v, Local.v and Window.v hold there. *)

From S2P Require Import Prelude Text Object Concrete Ticket Event Graph GraphSort.
From S2P Require Import Reducer Authority Store Engine EngineRuns Codec Config Stream Shell Mnemonic Wire Sync Peers.
From S2P Require Import Admission Transfer Client SyncRuns Node Service ServiceRuns Screen Terminal TerminalRuns.
From S2P Require Import Desktop Local Window.

#[local] Existing Instance toy_libp2p.
#[local] Existing Instance toy_cbor.
#[local] Existing Instance toy_sha256.
#[local] Existing Instance toy_uuid.
#[local] Existing Instance toy_error_text.
#[local] Existing Instance toy_hkdf.
#[local] Existing Instance toy_vte.

(** ** A JSON of a few values *)

Section table.
Context {T : Type} `{ED : EqDecision T} (l : list T) (Hl : (length l ≤ 8)%nat).

Definition letter (i : nat) : bytes := [byte_of_N (97 + N.of_nat i)].

Definition table_json : Json T := {|
  json_to_vec x := letter ∘ fst <$> list_find (x =.) l;
  json_from_slice b := match b with [b] => l !! N.to_nat (Byte.to_N b - 97) | _ => None end
|}.

Lemma table_letter x b :
  json_to_vec (Json := table_json) x = Some b → ∃ i, (i < 8)%nat ∧ b = letter i ∧ l !! i = Some x.
Proof.
  simpl. intros ([i y] & (Hi & <- & _)%list_find_Some & ->)%fmap_Some. exists i.
  split; [apply lookup_lt_Some in Hi; lia|]. by split.
Qed.

Ltac letters i := do 8 (destruct i as [|i]; [vm_compute; try reflexivity|]); lia.

Lemma table_json_laws : JsonLaws T (H := table_json).
Proof.
  split. intros x b Hb. destruct (table_letter x b Hb) as (i & Hi & -> & Hx). simpl. rewrite <- Hx. f_equal.
  clear Hb Hx. unfold letter. rewrite byte_to_of_N, N.mod_small by lia. lia.
Qed.

Lemma table_json_text : JsonText T (H := table_json).
Proof.
  split. intros x b Hb. destruct (table_letter x b Hb) as (i & Hi & -> & _). clear Hb.
  assert (utf8_valid (letter i ++ line_feed) = true) by letters i.
  assert (trim_bytes (letter i ++ line_feed) = letter i) by letters i.
  assert (bool_decide (x0a ∉ letter i) = true) as Hn by letters i.
  apply bool_decide_eq_true in Hn. done.
Qed.
End table.

#[local] Instance TicketDetail_eq_dec : EqDecision TicketDetail.
Proof. solve_decision. Defined.
#[local] Instance TicketSummary_eq_dec : EqDecision TicketSummary.
Proof. solve_decision. Defined.
#[local] Instance DaemonStatus_eq_dec : EqDecision DaemonStatus.
Proof. solve_decision. Defined.
#[local] Instance PeerSummary_eq_dec : EqDecision PeerSummary.
Proof. solve_decision. Defined.
#[local] Instance OperatorSessionStatus_eq_dec : EqDecision OperatorSessionStatus.
Proof. solve_decision. Defined.
#[local] Instance IpcRequest_eq_dec : EqDecision IpcRequest.
Proof. solve_decision. Defined.
#[local] Instance IpcResponse_eq_dec : EqDecision IpcResponse.
Proof. solve_decision. Defined.

Definition the_ticket : string := "T-01234567".

Definition table_requests : list IpcRequest :=
  [GetStatus; GetOperatorStatus; Config.ListPeers; ListTickets None; GetTicket the_ticket].

Definition table_responses : list IpcResponse :=
  (run_calls (mkLocalHost operator_host (λ _, true) (λ _ s, s) (λ _ _, toy_request 1000) (λ _ _, true)
    (λ _, ShellCancelled) (λ _, Err ConnectionFailed)) 0 table_requests unlocked_service).1.

#[local] Instance window_request_json : Json IpcRequest := table_json table_requests.
#[local] Instance window_response_json : Json IpcResponse := table_json table_responses.

Lemma table_sizes : (length table_requests ≤ 8)%nat ∧ (length table_responses ≤ 8)%nat.
Proof. split; apply Nat.leb_le; vm_compute; reflexivity. Qed.

#[local] Instance window_request_laws : JsonLaws IpcRequest := table_json_laws _ (proj1 table_sizes).
#[local] Instance window_response_laws : JsonLaws IpcResponse := table_json_laws _ (proj2 table_sizes).
#[local] Instance window_request_text : JsonText IpcRequest := table_json_text _ (proj1 table_sizes).
#[local] Instance window_response_text : JsonText IpcResponse := table_json_text _ (proj2 table_sizes).

Definition window_init : TerminalSessionInit := mkTerminalSessionInit "peer" (Some the_ticket) 80 24 None.

Definition is_window_init (i : TerminalSessionInit) : bool :=
  bool_decide (tsi_peer i = "peer"%string) && bool_decide (tsi_ticket_id i = Some the_ticket) &&
  (tsi_cols i =? 80) && (tsi_rows i =? 24) && bool_decide (tsi_dial i = None).

#[local] Instance window_init_json : Json TerminalSessionInit := single_json window_init is_window_init.

(** The one status line read back: the service accepts. *)
Definition accepted_line : bytes := trim_bytes (status_line (TerminalBridged window_init "")).

#[local] Instance window_status_json : Json HandshakeResp := {|
  json_to_vec _ := None;
  json_from_slice l := if bool_decide (l = accepted_line) then Some (mkHandshakeResp "ok" None) else None
|}.

(** ** A service that can be reached *)

Definition reachable : LocalHost (St := FsObjectStore) :=
  mkLocalHost operator_host (λ _, true) (λ _ s, s) (λ _ _, toy_request 1000) (λ _ _, true)
    (λ _, ShellReply (Answered (Ok tt))) (λ _, Err ConnectionFailed).

Lemma reachable_quiet : quiet reachable.
Proof. by split. Qed.

Definition fitting {T} `{Json T} (x : T) : bool :=
  match json_to_vec x with Some l => (length l <? MAX_IPC_LINE_BYTES)%nat | None => false end.

Lemma fitting_fits {T} `{Json T} (l : list T) : forallb fitting l = true → Forall fits l.
Proof.
  intros Hl. apply Forall_forall. intros x Hx. rewrite forallb_forall in Hl. apply list_elem_of_In, Hl in Hx.
  unfold fitting in Hx. destruct (json_to_vec x) as [b|] eqn:E; [|done]. exists b. split; [done|]. by apply Nat.ltb_lt.
Qed.

Definition local_start : Local (St := FsObjectStore) := mkLocal unlocked_service [] 0.

Definition selecting : BackendActor (D := Local (St := FsObjectStore)) := with_selected the_ticket (BackendActor_new "1.0" local_start).

Definition blank_window : AppWindow :=
  mkWindow (mkAgentView "" "" "") false [] [] (mkTicketView "" "" 0 "" [] []) (mkTerminalView false "" [])
    (mkSupportView true false "") "".

Lemma window_shows_service_witness :
  let w := shows_after blank_window (bk_events (handle_refresh (DM := local_daemon reachable) selecting)) in
  ui_is_operator_unlocked w = true ∧
  ui_tickets w = [mkTicketItem "T-01234567" "printer" 3 "OPEN" "100"] ∧
  tv_title (ui_selected w) = "printer".
Proof.
  assert (forallb fitting (polls (Some the_ticket)) = true) as Hr by (vm_compute; reflexivity).
  assert (forallb fitting (run_calls reachable 0 (polls (Some the_ticket)) unlocked_service).1 = true) as Ha
    by (vm_compute; reflexivity).
  destruct (window_shows_service reachable selecting blank_window reachable_quiet (fitting_fits _ Hr) (fitting_fits _ Ha))
    as (_ & Hu & Ht & _ & Hd & _).
  split; [rewrite Hu; vm_compute; reflexivity|]. split; [rewrite Ht; vm_compute; reflexivity|].
  specialize (Hd the_ticket eq_refl). revert Hd.
  destruct (get_ticket_detail (en_state (sv_engine (lo_service (bk_daemon selecting)))) the_ticket) as [detail|] eqn:E;
    [|vm_compute in E; congruence].
  intros ->. vm_compute in E. injection E as <-. reflexivity.
Defined.

(** ** A service that cannot *)

Definition unreachable : LocalHost (St := FsObjectStore) :=
  mkLocalHost operator_host (λ _, false) (λ _ s, s) (λ _ _, toy_request 1000) (λ _ _, true)
    (λ _, ShellCancelled) (λ _, Err ConnectionFailed).

Lemma lock_reported_unreached_witness :
  let b := BackendActor_new "1.0" local_start in
  let b' := desktop_lock_operator (DM := local_daemon unreachable) b in
  ui_toast_message (shows_after blank_window (bk_events b')) = wiped_notice ∧
  is_Some (sv_session (lo_service (bk_daemon b'))).
Proof.
  intros b b'. destruct (lock_reported_unreached unreachable b blank_window (λ _, eq_refl) (λ _ _, eq_refl))
    as (Hs & _ & _ & Ht).
  split; [exact (Ht eq_refl)|]. unfold b'. rewrite Hs. by eexists.
Defined.

(** ** Two shells *)

#[local] Instance reachable_daemon : Daemon (Local (St := FsObjectStore)) := local_daemon reachable.
#[local] Instance reachable_laws : DaemonLaws (Local (St := FsObjectStore)) :=
  local_daemon_laws reachable (λ _ _, service_keeps_same _ _ eq_refl).

Definition shell_events : list backend_event :=
  [BkCommand (CmdSelectTicket the_ticket); BkCommand (CmdStartShell the_ticket 80 24);
   BkCommand (CmdShellInput (as_bytes "ls")); BkSession 0 (DkCommand (Some (Input (as_bytes "ls"))));
   BkCommand (CmdStartShell the_ticket 80 24)].

Definition late_events : list backend_event :=
  [BkSession 0 (DkCommand (Some Close)); BkSession 0 (DkArrives (frame_bytes (Data (as_bytes "old"))));
   BkSession 0 (DkFrame true); BkPass 0; BkSession 0 (DkEnd None)].

Definition two_shells : option (BackendActor (D := Local (St := FsObjectStore))) := backend_run shell_events (backend_start "1.0" local_start).

Lemma local_start_ok : daemon_ok local_start.
Proof. exact (engine_store_inv _ engine1_inv). Qed.

Lemma desktop_shells_correct_witness :
  ∃ b sh, two_shells = Some b ∧ bk_terminal_tx b = Some 1%nat ∧ bk_shells b !! 0%nat = Some sh ∧
    sh_peer sh = "peer" ∧ sh_queue sh = [Close] ∧ closing sh.
Proof.
  assert (match two_shells with
          | Some b => bool_decide (bk_terminal_tx b = Some 1%nat) &&
              match bk_shells b !! 0%nat with
              | Some sh => bool_decide (sh_ticket sh = the_ticket ∧ sh_peer sh = "peer" ∧ sh_queue sh = [Close])
              | None => false
              end
          | None => false
          end = true) as Hrun by (vm_compute; reflexivity).
  destruct two_shells as [b|] eqn:E; [|discriminate Hrun].
  destruct (desktop_shells_correct "1.0" local_start shell_events b local_start_ok E) as (Hsh & _ & _).
  destruct (bk_shells b !! 0%nat) as [sh|] eqn:H0; [|by rewrite andb_false_r in Hrun].
  apply andb_true_iff in Hrun as [Ht Hsh0]. apply bool_decide_eq_true in Ht, Hsh0. destruct Hsh0 as (_ & Hp & Hq).
  destruct (Hsh 0%nat sh H0) as (_ & _ & Hc).
  exists b, sh. split; [reflexivity|]. split; [exact Ht|]. split; [exact H0|]. split; [exact Hp|]. split; [exact Hq|].
  apply Hc. rewrite Ht. discriminate.
Defined.

Lemma replaced_shell_speaks_witness :
  ∃ b b', two_shells ≫= backend_run late_events = Some b ∧ backend_step (BkEnd 0) b = Some b' ∧
    bk_terminal_tx b' = Some 1%nat ∧
    dk_reading <$> (bk_shells b' !! 1%nat ≫= sh_session) = Some true ∧
    sv_connected (ui_terminal (shows_after blank_window (bk_events b'))) = false.
Proof.
  assert (match two_shells ≫= backend_run late_events with
          | Some b => bool_decide (bk_terminal_tx b = Some 1%nat) &&
              bool_decide (dk_reading <$> (bk_shells b !! 1%nat ≫= sh_session) = Some true) &&
              match backend_step (BkEnd 0) b with Some _ => true | None => false end
          | None => false
          end = true) as Hrun by (vm_compute; reflexivity).
  destruct (two_shells ≫= backend_run late_events) as [b|] eqn:E; [|discriminate Hrun].
  destruct (backend_step (BkEnd 0) b) as [b'|] eqn:Hstep; [|by rewrite andb_false_r in Hrun].
  rewrite andb_true_r in Hrun. apply andb_true_iff in Hrun as [Ht Hr]. apply bool_decide_eq_true in Ht, Hr.
  destruct (replaced_shell_speaks b blank_window) as [_ Hs].
  destruct (Hs 0%nat 1%nat b' Ht (λ H, match H with end)) as [He _].
  destruct (He Hstep) as (Ht' & Hsame & Hc).
  exists b, b'. split; [reflexivity|]. split; [exact Hstep|]. split; [exact Ht'|]. split; [rewrite Hsame; exact Hr|exact Hc].
Defined.
