(* ===== verification/Cli.v ===== *)
(** The command line ([apps/fortiq-cli/src/{main,ipc}.rs]): each command as what it asks of the
    service and what it prints, and its shell, one command or interactive. *)

From stdpp Require Import pretty.
From S2P Require Import Prelude Text Object Concrete Ticket Event Graph GraphSort.
From S2P Require Import Reducer Authority Store Engine Codec Stream Config Shell Session Mnemonic Wire Sync.
From S2P Require Import Peers Admission Transfer Client Node Service Screen Terminal Desktop Local.

(** ** Text *)

(** What depends on the tables of Unicode: [str::to_uppercase] and [{:?}] of a string. On ASCII
    the first is the map of letters. *)
Class UnicodeText := { to_uppercase : string → string; str_debug : string → string }.

Definition ascii_upper (b : byte) : byte :=
  if between 97 122 b then byte_of_N (Byte.to_N b - 32) else b.

Class UnicodeTextLaws `{UnicodeText} := {
  to_uppercase_ascii s :
    Forall (λ b, Byte.to_N b < 128) (as_bytes s) → to_uppercase s = from_bytes (ascii_upper <$> as_bytes s)
}.

Definition line_end : string := from_bytes line_feed.

Definition char_count (s : string) : nat := length (filter (λ b, is_cont b = false) (as_bytes s)).

(** [{:<n}], and [{:-<n}] of the empty string. *)
Definition pad_right (n : nat) (s : string) : string := s +:+ from_bytes (replicate (n - char_count s) x20).
Definition dashes (n : nat) : string := from_bytes (replicate n x2d).

Fixpoint columns (l : list string) : string :=
  match l with
  | [] => ""
  | [s] => s
  | s :: l => s +:+ " " +:+ columns l
  end.

(** [{:?}] of an optional string. *)
Definition option_debug `{UnicodeText} (o : option string) : string :=
  match o with Some s => "Some(" +:+ str_debug s +:+ ")" | None => "None" end.

(** ** Requests ([ipc.rs]) *)

(** An error of the system or of JSON, or a message. *)
Inductive CliError := CliSystem (e : IpcClientError) | Bail (message : string).

Section requests.
Context `{JQ : Json IpcRequest, JR : Json IpcResponse}.

Definition cli_send_command (connected : bool) (req : IpcRequest) : StateM duplex CliError IpcResponse :=
  let! _ := slift (if connected then Ok tt else Err (Bail "Cannot connect to FORTIQ service via Unix Socket")) in
  let! _ := smap_err CliSystem (write_line (json_to_vec req)) in
  let! line := smap_err (CliSystem ∘ IpcIo) (on_reader (read_text_line (S MAX_IPC_LINE_BYTES))) in
  if bool_decide (line = "") then sfail (Bail "FORTIQ service closed the IPC connection unexpectedly") else
  if (MAX_IPC_LINE_BYTES <? length (as_bytes line))%nat
  then sfail (Bail "IPC response exceeded maximum limit (64 KB)") else
  slift (ok_or (json_from_str (trim line)) (Bail ("Failed to parse daemon IPC response: " +:+ trim line))).
End requests.

(** ** Commands *)

Inductive TicketCommand :=
| TcList (state : option string)
| TcShow (ticket_id : string)
| TcCreate (title description priority : string)
| TcMessage (ticket_id body : string)
| TcSendFile (ticket_id : string) (path : PathBuf)
| TcSetStatus (ticket_id state : string)
| TcStatus.

(** All commands but the shell, whose streams are below. *)
Inductive Commands :=
| CcStatus
| CcId
| CcPeers
| CcTickets (state : option string)
| CcTicket (action : TicketCommand).

(** The service as the command line sees it. *)
Class CliService (W : Type) := { cli_request : IpcRequest → StateM W CliError IpcResponse }.

(** What the disk answers while a file is staged: the copy can fail after some bytes. *)
Record cli_io := mkCliIo {
  ci_env : environment;
  ci_staging : staging_io;
  ci_uuid : string;
  ci_copy : option nat
}.

Section commands.
Context `{UT : UnicodeText, SHA : Sha256} {W : Type} `{CS : !CliService W}.

Record CliState := mkCli {
  cl_service : W;
  cl_out : string;                   (** what was printed *)
  cl_files : gmap PathBuf bytes      (** the files of the user and the spool *)
}.

Abbreviation CliM := (StateM CliState CliError).

Definition println (line : string) : CliM unit := λ c,
  (Ok tt, mkCli (cl_service c) (cl_out c +:+ line +:+ line_end) (cl_files c)).
Definition bail {A} (message : string) : CliM A := sfail (Bail message).
Definition cli_ask (req : IpcRequest) : CliM IpcResponse := λ c,
  let '(r, w) := cli_request req (cl_service c) in (r, mkCli w (cl_out c) (cl_files c)).

Fixpoint print_all (l : list string) : CliM unit :=
  match l with
  | [] => sret tt
  | line :: l => let! _ := println line in print_all l
  end.

Definition get_daemon_status : CliM DaemonStatus :=
  let! response := cli_ask GetStatus in
  match response with
  | RStatus status => sret status
  | RError err => bail ("Daemon error: " +:+ err)
  | _ => bail "Unexpected response from daemon"
  end.

Definition cmd_status : CliM unit :=
  let! status := get_daemon_status in
  let! _ := println (ds_product status +:+ " " +:+ ds_version status +:+ line_end) in
  let! _ := println ("PeerId:     " +:+ ds_peer_id status) in
  let! _ := println ("State:      " +:+ to_uppercase (ds_agent_state status)) in
  let! _ := println match ds_active_ticket status with
                    | Some t => "Ticket:     " +:+ TicketState_debug (ts_state t) +:+ " (" +:+ ts_id t +:+ ")"
                    | None => "Ticket:     NONE"
                    end in
  let! _ := println (line_end +:+ "Listen Addresses:") in
  match ds_listen_addresses status with
  | [] => println "  (none)"
  | addresses => print_all ((λ a, "  - " +:+ a) <$> addresses)
  end.

Definition cmd_id : CliM unit :=
  let! status := get_daemon_status in
  println ("PeerId: " +:+ ds_peer_id status).

Definition peer_columns (id host os transport status : string) : string :=
  columns [pad_right 54 id; pad_right 18 host; pad_right 10 os; pad_right 12 transport; pad_right 10 status].

Definition cmd_peers : CliM unit :=
  let! response := cli_ask Config.ListPeers in
  match response with
  | RPeers [] => println "No active or discovered peers."
  | RPeers peers =>
      let! _ := println (peer_columns "PEER ID" "HOST" "OS" "TRANSPORT" "STATUS") in
      let! _ := println (columns [dashes 54; dashes 18; dashes 10; dashes 12; dashes 10]) in
      print_all ((λ p, peer_columns (ps_peer_id p) (ps_hostname p) (ps_os p) (ps_transport p) (ps_status p)) <$> peers)
  | RError err => bail ("Daemon error: " +:+ err)
  | _ => bail "Unexpected response from daemon"
  end.

Definition ticket_columns (id state priority title : string) : string :=
  columns [pad_right 16 id; pad_right 12 state; pad_right 8 priority; pad_right 32 title].

(** [state_filter.and_then(parse)]: a state that is not known is no filter. *)
Definition parse_filter (state_filter : option string) : option TicketState :=
  s ← state_filter; TicketState_parse_str (to_uppercase s).

Definition cmd_tickets_list (state_filter : option string) : CliM unit :=
  let! response := cli_ask (ListTickets (parse_filter state_filter)) in
  match response with
  | RTickets [] => println "Aucun ticket trouvé."
  | RTickets tickets =>
      let! _ := println (ticket_columns "ID" "STATUT" "PRIORITÉ" "TITRE") in
      let! _ := println (columns [dashes 16; dashes 12; dashes 8; dashes 32]) in
      print_all ((λ t, ticket_columns (tr_id t) (TicketState_as_str (tr_state t)) (TicketPriority_as_str (tr_priority t))
                         (tr_title t)) <$> tickets)
  | RError err => bail ("Erreur démon: " +:+ err)
  | _ => bail "Réponse inattendue du démon"
  end.

Definition detail_rule : string := from_bytes (replicate 60 x3d).

(** The lines of a ticket with its messages, files, sessions and journal. *)
Definition detail_lines (d : TicketDetail) : list string :=
  let t := td_ticket d in
  [detail_rule; "Ticket:        " +:+ tr_id t; "Titre:         " +:+ tr_title t] ++
  (if bool_decide (tr_description t = "") then [] else ["Description:   " +:+ tr_description t]) ++
  ["Statut:        " +:+ TicketState_as_str (tr_state t);
   "Priorité:      " +:+ TicketPriority_as_str (tr_priority t);
   "Client:        " +:+ tr_client_peer_id t;
   "Créé le:       " +:+ pretty (tr_created_at t) +:+ " (timestamp)"] ++
  match tr_closed_at t with
  | Some closed => ["Fermé le:      " +:+ pretty closed +:+ " (timestamp)"]
  | None => []
  end ++
  [detail_rule; line_end +:+ "--- Messages (" +:+ pretty (length (td_messages d)) +:+ ") ---"] ++
  ((λ m, "[" +:+ cm_delivery_state m +:+ "] " +:+ cm_sender_peer_id m +:+ ": " +:+ cm_body m) <$> td_messages d) ++
  [line_end +:+ "--- Fichiers joints (" +:+ pretty (length (td_attachments d)) +:+ ") ---"] ++
  ((λ a, "- " +:+ ar_filename a +:+ " (" +:+ pretty (ar_size_bytes a) +:+ " octets, SHA256: " +:+ ar_sha256 a +:+
         ") -> " +:+ ar_local_path a) <$> td_attachments d) ++
  [line_end +:+ "--- Sessions Shell (" +:+ pretty (length (td_shell_sessions d)) +:+ ") ---"] ++
  ((λ s, "Session " +:+ ss_id s +:+ " par " +:+ ss_operator_peer_id s +:+ " (" +:+ ss_transport s +:+ ") - Résultat: " +:+
         option_debug (ss_result s)) <$> td_shell_sessions d) ++
  [line_end +:+ "--- Journal d'activité (" +:+ pretty (length (td_events d)) +:+ ") ---"] ++
  ((λ e, "[" +:+ pretty (er_timestamp e) +:+ "] " +:+ er_kind e +:+ ": " +:+ default "" (er_metadata e)) <$> td_events d).

Definition cmd_ticket_show (ticket_id : string) : CliM unit :=
  let! response := cli_ask (GetTicket ticket_id) in
  match response with
  | RTicketDetail (Some detail) => print_all (detail_lines detail)
  | RTicketDetail None => bail ("Ticket introuvable: " +:+ ticket_id)
  | RError err => bail ("Erreur démon: " +:+ err)
  | _ => bail "Réponse inattendue du démon"
  end.

Definition cmd_ticket_create (title description priority_str : string) : CliM unit :=
  let priority := TicketPriority_parse_str (to_uppercase priority_str) in
  let! response := cli_ask (CreateTicket title description priority) in
  match response with
  | RTicketCreated ticket =>
      print_all ["Ticket créé avec succès !"; "ID:            " +:+ tr_id ticket; "Titre:         " +:+ tr_title ticket;
        "Statut:        " +:+ TicketState_as_str (tr_state ticket);
        "Priorité:      " +:+ TicketPriority_as_str (tr_priority ticket)]
  | RError err => bail ("Échec de création du ticket: " +:+ err)
  | _ => bail "Réponse inattendue du démon"
  end.

Definition cmd_ticket_message (ticket_id body : string) : CliM unit :=
  let! response := cli_ask (Config.SendChatMessage ticket_id body) in
  match response with
  | RMessageSent msg =>
      print_all ["Message envoyé avec succès !"; "ID:      " +:+ cm_id msg; "Statut:  " +:+ cm_delivery_state msg]
  | RError err => bail ("Échec d'envoi du message: " +:+ err)
  | _ => bail "Réponse inattendue du démon"
  end.

Definition remove_staged (staged_path : PathBuf) : CliM unit := λ c,
  (Ok tt, mkCli (cl_service c) (cl_out c) (delete staged_path (cl_files c))).

(** [tokio::fs::copy]. *)
Definition copy_file (from to : PathBuf) (failure : option nat) : StateM CliState io_kind unit := λ c,
  match cl_files c !! from with
  | None => (Err OtherIo, c)
  | Some content =>
      match failure with
      | None => (Ok tt, mkCli (cl_service c) (cl_out c) (<[to := content]> (cl_files c)))
      | Some n => (Err OtherIo, mkCli (cl_service c) (cl_out c) (<[to := take n content]> (cl_files c)))
      end
  end.

Definition sent_lines (att : AttachmentRecord) : list string :=
  ["Fichier transféré avec succès !"; "Nom:     " +:+ ar_filename att;
   "Taille:  " +:+ pretty (ar_size_bytes att) +:+ " octets"; "SHA256:  " +:+ ar_sha256 att; "ID:      " +:+ ar_id att].

Definition cmd_ticket_send_file (io : cli_io) (ticket_id : string) (path : PathBuf) : CliM unit :=
  let! exists_ := sget (λ c, bool_decide (is_Some (cl_files c !! path))) in
  if negb exists_ then bail ("Fichier introuvable: " +:+ path_display path) else
  let! staged_path := slift (map_err (CliSystem ∘ IpcIo)
    (new_upload_staging_path (ci_env io) (ci_staging io) (ci_uuid io) path []).1) in
  let! _ := smap_err (λ _, Bail ("Impossible de préparer " +:+ path_display path))
    (copy_file path staged_path (ci_copy io)) in
  λ c,
    match cli_ask (Config.SendFile ticket_id (path_display staged_path)) c with
    | (Err error, c) => (let! _ := remove_staged staged_path in sfail error) c
    | (Ok response, c) =>
        match response with
        | RFileSent att => print_all (sent_lines att) c
        | RError err =>
            (let! _ := remove_staged staged_path in bail ("Échec du transfert de fichier: " +:+ err)) c
        | _ => (let! _ := remove_staged staged_path in bail "Réponse inattendue du démon") c
        end
    end.

Definition cmd_ticket_set_status (ticket_id state_str : string) : CliM unit :=
  let! state := slift (ok_or (TicketState_parse_str (to_uppercase state_str))
    (Bail ("Statut invalide: " +:+ state_str +:+ ". Valeurs acceptées: OPEN, IN_PROGRESS, RESOLVED, CLOSED"))) in
  let! response := cli_ask (UpdateTicketStatus ticket_id state) in
  match response with
  | RTicketUpdated (Some ticket) =>
      println ("Statut du ticket " +:+ tr_id ticket +:+ " mis à jour: " +:+ TicketState_as_str (tr_state ticket) +:+ ".")
  | RTicketUpdated None => bail ("Ticket introuvable: " +:+ ticket_id)
  | RError err => bail ("Échec: " +:+ err)
  | _ => bail "Réponse inattendue du démon"
  end.

Definition cmd_ticket_status : CliM unit :=
  let! status := get_daemon_status in
  match ds_active_ticket status with
  | Some ticket => print_all ["Ticket ID:    " +:+ ts_id ticket; "Ticket State: " +:+ TicketState_debug (ts_state ticket)]
  | None => println "No active ticket."
  end.

Definition cli_main (io : cli_io) (command : Commands) : CliM unit :=
  match command with
  | CcStatus => cmd_status
  | CcId => cmd_id
  | CcPeers => cmd_peers
  | CcTickets state => cmd_tickets_list state
  | CcTicket action =>
      match action with
      | TcList state => cmd_tickets_list state
      | TcShow ticket_id => cmd_ticket_show ticket_id
      | TcCreate title description priority => cmd_ticket_create title description priority
      | TcMessage ticket_id body => cmd_ticket_message ticket_id body
      | TcSendFile ticket_id path => cmd_ticket_send_file io ticket_id path
      | TcSetStatus ticket_id state => cmd_ticket_set_status ticket_id state
      | TcStatus => cmd_ticket_status
      end
  end.
End commands.

(** ** The shell *)

Definition FRAME_CHANNEL : nat := 128.
Definition STDIN_BUFFER : nat := 1024.

Section shell.
Context `{JI : Json TerminalSessionInit, JH : Json HandshakeResp}.

(** What [cmd_shell] does before it sends or takes a frame. *)
Definition cli_handshake (init : TerminalSessionInit) : StateM duplex CliError unit :=
  let! _ := smap_err CliSystem (write_line (json_to_vec init)) in
  let! status_line := smap_err (λ _, Bail "Failed to read terminal handshake response from daemon")
    (on_reader (λ r, read_text_line (S (length (rd_data r))) r)) in
  let! resp := slift (ok_or (json_from_str (T := HandshakeResp) (trim status_line))
    (Bail ("Invalid terminal handshake from daemon: " +:+ trim status_line))) in
  if negb (bool_decide (hr_status resp = "ok"))
  then sfail (Bail (default "Terminal connection denied by daemon" (hr_message resp)))
  else sret tt.

(** *** One command *)

Fixpoint one_shot_frames (frames : list ShellFrame) : StateM outputs io_kind unit :=
  match frames with
  | [] => sret tt
  | frame :: frames =>
      let! _ := match frame with
                | Data payload => print_bytes payload
                | Ping => to_stream (ShellFrame_write_to Pong)
                | _ => sret tt
                end in
      one_shot_frames frames
  end.

(** [frames_of]: the frames read until the stream ends or does not read as a frame. *)
Definition one_shot (command : bytes) (r : reader) : StateM outputs io_kind unit :=
  let! _ := to_stream (ShellFrame_write_to (Data (command ++ crlf ++ as_bytes "exit" ++ crlf))) in
  one_shot_frames (frames_of r).
End shell.

(** *** Interactive *)

(** The three tasks, and the end of the session, which drops them. *)
Record CliShell := mkCliShell {
  cs_in : bytes;                    (** what arrived and no completed read took *)
  cs_stdout : writer;
  cs_queue : list ShellFrame;       (** the channel to [send_task] *)
  cs_out : writer;
  cs_receiving : bool;              (** [recv_task] runs *)
  cs_typing : bool;                 (** [stdin_task] runs *)
  cs_sending : bool;                (** [send_task] runs *)
  cs_closed : bool
}.

Definition cli_shell_start (stdout out : writer) : CliShell := mkCliShell [] stdout [] out true true true false.

Inductive cli_event :=
| CsArrives (l : bytes)
| CsFrame                                 (** [recv_task] reads a frame *)
| CsEnd (e : option io_kind)              (** the stream ends or fails *)
| CsStdin (read : option (option bytes))  (** some bytes, the end, or an error of standard input *)
| CsSend                                  (** [send_task] writes a frame *)
| CsClose.                                (** [select!]: one of the two tasks has ended *)

Definition cs_set_in (l : bytes) (s : CliShell) : CliShell :=
  mkCliShell l (cs_stdout s) (cs_queue s) (cs_out s) (cs_receiving s) (cs_typing s) (cs_sending s) (cs_closed s).
Definition cs_set_stdout (w : writer) (receiving : bool) (s : CliShell) : CliShell :=
  mkCliShell (cs_in s) w (cs_queue s) (cs_out s) receiving (cs_typing s) (cs_sending s) (cs_closed s).
Definition cs_set_queue (q : list ShellFrame) (s : CliShell) : CliShell :=
  mkCliShell (cs_in s) (cs_stdout s) q (cs_out s) (cs_receiving s) (cs_typing s) (cs_sending s) (cs_closed s).
Definition cs_set_typing (typing : bool) (s : CliShell) : CliShell :=
  mkCliShell (cs_in s) (cs_stdout s) (cs_queue s) (cs_out s) (cs_receiving s) typing (cs_sending s) (cs_closed s).
Definition cs_set_out (w : writer) (sending : bool) (s : CliShell) : CliShell :=
  mkCliShell (cs_in s) (cs_stdout s) (cs_queue s) w (cs_receiving s) (cs_typing s) sending (cs_closed s).
Definition cs_close (s : CliShell) : CliShell :=
  mkCliShell (cs_in s) (cs_stdout s) (cs_queue s) (cs_out s) (cs_receiving s) (cs_typing s) (cs_sending s) true.

(** A frame given to [send_task]; the caller learns when that task has ended, and waits while
    the channel is full. *)
Definition cs_give (f : ShellFrame) (s : CliShell) : option (bool * CliShell) :=
  if negb (cs_sending s) then Some (false, s)
  else if (length (cs_queue s) <? FRAME_CHANNEL)%nat then Some (true, cs_set_queue (cs_queue s ++ [f]) s)
  else None.

Definition cs_frame (f : ShellFrame) (s : CliShell) : option CliShell :=
  match f with
  | Data payload =>
      Some match (let! _ := write_all payload in flush) (cs_stdout s) with
           | (Ok _, w) => cs_set_stdout w true s
           | (Err _, w) => cs_set_stdout w false s
           end
  | Ping => snd <$> cs_give Pong s
  | Pong | Resize _ _ => Some s
  end.

Definition cli_step (e : cli_event) (s : CliShell) : option CliShell :=
  if cs_closed s then None else
  match e with
  | CsArrives l => Some (cs_set_in (cs_in s ++ l) s)
  | CsFrame =>
      if negb (cs_receiving s) then None else
      match ShellFrame_read_from (mkReader (cs_in s) None) with
      | (Ok (Some f), r) => cs_frame f (cs_set_in (rd_data r) s)
      | (Err InvalidData, r) => Some (cs_set_stdout (cs_stdout s) false (cs_set_in (rd_data r) s))
      | _ => None
      end
  | CsEnd e =>
      if negb (cs_receiving s) then None else
      match ShellFrame_read_from (mkReader (cs_in s) e) with
      | (Ok (Some _), _) => None
      | (_, r) => Some (cs_set_stdout (cs_stdout s) false (cs_set_in (rd_data r) s))
      end
  | CsStdin read =>
      if negb (cs_typing s) then None else
      match read with
      | Some (Some chunk) =>
          if bool_decide (chunk = []) || (STDIN_BUFFER <? length chunk)%nat then None else
          '(taken, s) ← cs_give (Data chunk) s;
          Some (if (taken : bool) then s else cs_set_typing false s)
      | Some None | None => Some (cs_set_typing false s)
      end
  | CsSend =>
      if negb (cs_sending s) then None else
      match cs_queue s with
      | f :: q =>
          Some match ShellFrame_write_to f (cs_out s) with
               | (Ok _, w) => cs_set_out w true (cs_set_queue q s)
               | (Err _, w) => cs_set_out w false (cs_set_queue q s)
               end
      | [] => None
      end
  | CsClose => if cs_receiving s && cs_typing s then None else Some (cs_close s)
  end.

Fixpoint cli_run (l : list cli_event) (s : CliShell) : option CliShell :=
  match l with
  | [] => Some s
  | e :: l => s ← cli_step e s; cli_run l s
  end.

(** ** One command in a shell *)

(** On a stream that takes everything a pong is always sent, so it does not matter that one of the two
    looks at the result. *)
Lemma one_shot_frames_agree frames : ∀ out stdout,
  one_shot_frames frames (mkWriter out None, stdout) = answer_frames frames (mkWriter out None, stdout).
Proof.
  induction frames as [|f frames IH]; intros out stdout; [done|]. destruct f as [payload|c r| |]; simpl;
    unfold sbind, sret; try apply IH.
  destruct (print_bytes payload (mkWriter out None, stdout)) as [[[]|e] [w stdout']] eqn:E; [|done].
  assert (w = mkWriter out None) as ->; [|apply IH].
  unfold print_bytes, sbind, to_stdout in E. cbn [fst snd] in E.
  destruct (write_all payload stdout) as [[[]|e] w1]; cbn [fst snd] in E; [|congruence].
  destruct (flush w1). congruence.
Qed.

(** The shell of the command line and that of the library, with one command, do the same: on the
    same stream, once the library has read that it is authorized, they send the same bytes,
    print the same bytes and fail alike, whatever the stream holds and whatever standard
    output takes; and both refuse a command that does not fit a frame before anything is
    sent. *)
Theorem one_shot_agrees command data e out stdout :
  run_client (Some command) [] (mkReader (byte_of_N AUTHORIZED :: data) e) (mkWriter out None, stdout) =
    smap_err ClientIo (one_shot command (mkReader data e)) (mkWriter out None, stdout).
Proof.
  assert (read_exact 1 (mkReader (byte_of_N AUTHORIZED :: data) e) = (Ok [byte_of_N AUTHORIZED], mkReader data e)) as Er
    by (apply (read_exact_app 1 [byte_of_N AUTHORIZED]); done).
  unfold run_client, one_shot. rewrite Er.
  rewrite bool_decide_eq_true_2 by done. cbn [negb]. unfold smap_err, sbind, to_stream. cbn [fst snd].
  destruct (decide (blen (command ++ crlf ++ as_bytes "exit" ++ crlf) < u16_modulus)) as [Hl|Hl].
  - rewrite write_frame_Ok by done. by rewrite one_shot_frames_agree.
  - by rewrite write_frame_oversized by lia.
Qed.

(** ** The interactive shell *)

(** What arrived and what was typed. *)
Definition cs_arrived (l : list cli_event) : bytes :=
  concat (omap (λ e, match e with CsArrives b => Some b | _ => None end) l).
Definition cs_typed (l : list cli_event) : list ShellFrame :=
  omap (λ e, match e with CsStdin (Some (Some chunk)) => Some (Data chunk) | _ => None end) l.

(** What frames make standard output show. *)
Definition printed_by (l : list ShellFrame) : bytes :=
  concat (omap (λ f, match f with Data payload => Some payload | _ => None end) l).

Record cli_inv (sent : list ShellFrame) (events : list cli_event) (s : CliShell) (taken written : list ShellFrame)
    : Prop := {
  ci_taken : taken `prefix_of` sent;
  ci_input : cs_receiving s = true → cs_arrived events = concat (frame_bytes <$> taken) ++ cs_in s;
  ci_stdout : cs_stdout s = mkWriter (printed_by taken) None;
  ci_written : cs_out s = mkWriter (concat (frame_bytes <$> written)) None;
  ci_frames : Forall frame_ok (cs_queue s);
  ci_sending : cs_sending s = true;
  ci_typed : filter not_pong (written ++ cs_queue s) = cs_typed events;
  ci_pongs : occ Pong (written ++ cs_queue s) = occ Ping taken
}.

Lemma cs_arrived_snoc l e : cs_arrived (l ++ [e]) = cs_arrived l ++ match e with CsArrives b => b | _ => [] end.
Proof. unfold cs_arrived. rewrite omap_app, concat_app. f_equal. destruct e; simpl; by rewrite ?app_nil_r. Qed.

Lemma cs_typed_snoc l e :
  cs_typed (l ++ [e]) = cs_typed l ++ match e with CsStdin (Some (Some chunk)) => [Data chunk] | _ => [] end.
Proof. unfold cs_typed. rewrite omap_app. by destruct e as [| | |[[]|]| |]. Qed.

Lemma printed_by_snoc l f : printed_by (l ++ [f]) = printed_by l ++ match f with Data payload => payload | _ => [] end.
Proof. unfold printed_by. rewrite omap_app, concat_app. f_equal. destruct f; simpl; by rewrite ?app_nil_r. Qed.

Lemma cli_run_app l k s : cli_run (l ++ k) s = cli_run l s ≫= cli_run k.
Proof. revert s. induction l as [|e l IH]; intros s; simpl; [done|]. destruct (cli_step e s); simpl; auto. Qed.

Section cli_steps.
Context (sent : list ShellFrame) (Hsent : Forall frame_ok sent).
Abbreviation inv := (cli_inv sent).

(** A frame given to the sender. *)
Lemma cs_give_inv s f written s' taken' :
  cs_sending s = true → cs_give f s = Some (taken', s') →
  taken' = true ∧ s' = cs_set_queue (cs_queue s ++ [f]) s ∧ written ++ cs_queue s' = (written ++ cs_queue s) ++ [f].
Proof.
  intros Hs. unfold cs_give. rewrite Hs. simpl. destruct (_ <? _)%nat; [|done]. intros [= <- <-].
  split; [done|]. split; [done|]. simpl. by rewrite app_assoc.
Qed.

Lemma cs_frame_inv events s taken written more f r s' :
  inv events s taken written → cs_receiving s = true → cs_arrived events ++ more = concat (frame_bytes <$> sent) →
  ShellFrame_read_from (mkReader (cs_in s) None) = (Ok (Some f), r) →
  cs_frame f (cs_set_in (rd_data r) s) = Some s' → inv (events ++ [CsFrame]) s' (taken ++ [f]) written.
Proof.
  intros [] Hr Hmore Hread Hf. destruct ci_taken0 as [sent2 Hs]. rewrite (ci_input0 Hr), Hs, fmap_app, concat_app,
    <- app_assoc in Hmore. apply app_inv_head in Hmore. rewrite Hs in Hsent. apply Forall_app in Hsent as [_ Hs2].
  destruct (read_frame_next _ _ _ _ _ Hs2 Hmore Hread) as (sent' & -> & Hin).
  assert (taken ++ [f] `prefix_of` sent) as Hpre by (exists sent'; by rewrite Hs, <- app_assoc).
  assert (cs_arrived (events ++ [CsFrame]) = concat (frame_bytes <$> taken ++ [f]) ++ rd_data r) as Harr
    by (by rewrite cs_arrived_snoc, app_nil_r, (ci_input0 Hr), frames_bytes_snoc, <- app_assoc, <- Hin).
  destruct f as [payload|c n| |]; simpl in Hf.
  - rewrite ci_stdout0 in Hf. simpl in Hf. injection Hf as <-.
    split; simpl; rewrite ?cs_typed_snoc, ?app_nil_r, ?printed_by_snoc; try done.
    by rewrite occ_snoc, decide_False, Nat.add_0_r.
  - injection Hf as <-. split; simpl; rewrite ?cs_typed_snoc, ?app_nil_r, ?printed_by_snoc, ?app_nil_r; try done.
    by rewrite occ_snoc, decide_False, Nat.add_0_r.
  - destruct (cs_give Pong _) as [[b s1]|] eqn:Hg; [|done]. injection Hf as <-. simpl.
    destruct (cs_give_inv (cs_set_in (rd_data r) s) _ written _ _ ci_sending0 Hg) as (_ & -> & Hq). simpl in Hq.
    split; simpl; rewrite ?cs_typed_snoc, ?app_nil_r, ?printed_by_snoc, ?app_nil_r, ?Hq; try done.
    + apply Forall_app. by rewrite Forall_singleton.
    + rewrite filter_app, ci_typed0, filter_cons_False by (intros H; by apply H). by rewrite app_nil_r.
    + rewrite !occ_snoc, !decide_True by done. by rewrite ci_pongs0.
  - injection Hf as <-. split; simpl; rewrite ?cs_typed_snoc, ?app_nil_r, ?printed_by_snoc, ?app_nil_r; try done.
    by rewrite occ_snoc, decide_False, Nat.add_0_r.
Qed.

Lemma cli_step_inv events e s taken written more s' :
  inv events s taken written → cs_arrived (events ++ [e]) ++ more = concat (frame_bytes <$> sent) →
  cli_step e s = Some s' → ∃ taken' written', inv (events ++ [e]) s' taken' written'.
Proof.
  intros H Hmore Hstep. rewrite cs_arrived_snoc in Hmore. unfold cli_step in Hstep.
  destruct (cs_closed s); [done|]. destruct e as [b| |end_|read| |].
  - injection Hstep as <-. exists taken, written. destruct H.
    split; simpl; rewrite ?cs_typed_snoc, ?app_nil_r; try done. intros Hr. by rewrite cs_arrived_snoc, (ci_input0 Hr), app_assoc.
  - rewrite app_nil_r in Hmore. destruct (cs_receiving s) eqn:Hr; [|done]. simpl in Hstep.
    destruct (ShellFrame_read_from _) as [[[f|]|[]] r] eqn:Hread; try done.
    + exists (taken ++ [f]), written. by eapply cs_frame_inv.
    + injection Hstep as <-. exists taken, written. destruct H.
      split; simpl; rewrite ?cs_typed_snoc, ?app_nil_r; done.
  - destruct (cs_receiving s); [|done]. simpl in Hstep. exists taken, written. destruct H.
    destruct (ShellFrame_read_from _) as [[[f|]|err] r]; try done; injection Hstep as <-;
      (split; simpl; rewrite ?cs_typed_snoc, ?app_nil_r; done).
  - destruct (cs_typing s); [|done]. simpl in Hstep. exists taken, written. destruct H.
    destruct read as [[chunk|]|]; [|injection Hstep as <-; split; simpl; rewrite ?cs_typed_snoc, ?cs_arrived_snoc, ?app_nil_r; done..].
    destruct (bool_decide (chunk = []) || _) eqn:Hg; [done|]. apply orb_false_iff in Hg as [_ Hlen].
    destruct (cs_give (Data chunk) s) as [[b s1]|] eqn:Hgive; [|done]. simpl in Hstep.
    destruct (cs_give_inv _ _ written _ _ ci_sending0 Hgive) as (-> & -> & Hq). injection Hstep as <-. simpl in Hq.
    split; simpl; rewrite ?cs_typed_snoc, ?cs_arrived_snoc, ?app_nil_r, ?Hq; try done.
    + apply Forall_app. split; [done|]. rewrite Forall_singleton. simpl. apply Nat.ltb_ge in Hlen.
      unfold blen, u16_modulus, STDIN_BUFFER in *. lia.
    + rewrite filter_app, ci_typed0. by rewrite filter_cons_True.
    + by rewrite occ_snoc, decide_False, Nat.add_0_r.
  - destruct (cs_sending s) eqn:Hsend; [|done]. simpl in Hstep. destruct H.
    destruct (cs_queue s) as [|f q] eqn:Hq; [done|]. apply Forall_cons in ci_frames0 as [Hf Hfs].
    rewrite ci_written0, write_frame_Ok in Hstep by done. injection Hstep as <-.
    exists taken, (written ++ [f]). assert ((written ++ [f]) ++ q = written ++ f :: q) as E by (by rewrite <- app_assoc).
    split; simpl; rewrite ?cs_typed_snoc, ?cs_arrived_snoc, ?app_nil_r, ?E; try done. by rewrite frames_bytes_snoc.
  - destruct (_ && _); [done|]. injection Hstep as <-. exists taken, written. destruct H.
    split; simpl; rewrite ?cs_typed_snoc, ?cs_arrived_snoc, ?app_nil_r; done.
Qed.

Lemma cli_run_inv events more s :
  cs_arrived events ++ more = concat (frame_bytes <$> sent) →
  cli_run events (cli_shell_start writer_new writer_new) = Some s → ∃ taken written, inv events s taken written.
Proof.
  revert more s. induction events as [|e events IH] using rev_ind; intros more s Hmore Hrun.
  { injection Hrun as <-. exists [], []. split; simpl; try done. by apply prefix_nil. }
  rewrite cli_run_app in Hrun. destruct (cli_run events _) as [s1|] eqn:H1; [|done]. simpl in Hrun.
  destruct (cli_step e s1) as [s2|] eqn:H2; [|done]. injection Hrun as ->.
  destruct (IH (match e with CsArrives b => b | _ => [] end ++ more) s1) as (taken & written & Hinv); try done.
  { by rewrite cs_arrived_snoc, <- app_assoc in Hmore. }
  exact (cli_step_inv _ _ _ _ _ _ _ Hinv Hmore H2).
Qed.
End cli_steps.

(** The interactive shell. Standard output shows the data of the frames in their order, and the
    stream carries what was typed in its order with one answer to each ping, less what is
    still queued, whatever the order the three tasks run in. Once standard input
    ends nothing waits for the other tasks: the session can close at once, and then what was
    typed and is still queued is never sent and nothing that the shell answers is shown. *)
Theorem cli_shell_faithful sent events more s :
  Forall frame_ok sent → cs_arrived events ++ more = concat (frame_bytes <$> sent) →
  cli_run events (cli_shell_start writer_new writer_new) = Some s →
  (∃ taken written,
     taken `prefix_of` sent ∧ cs_stdout s = mkWriter (printed_by taken) None ∧
     cs_out s = mkWriter (concat (frame_bytes <$> written)) None ∧
     filter not_pong (written ++ cs_queue s) = cs_typed events ∧
     occ Pong (written ++ cs_queue s) = occ Ping taken) ∧
  (cs_closed s = false → cs_typing s = true →
   ∃ s', cli_run [CsStdin (Some None); CsClose] s = Some s' ∧
     cs_out s' = cs_out s ∧ cs_stdout s' = cs_stdout s ∧ cs_queue s' = cs_queue s ∧ ∀ e, cli_step e s' = None).
Proof.
  intros Hs Hmore Hrun. split.
  - destruct (cli_run_inv sent Hs events more s Hmore Hrun) as (taken & written & []). eauto 10.
  - intros Hc Ht. simpl. unfold cli_step. rewrite Hc, Ht. simpl. rewrite Hc, andb_false_r. by eexists.
Qed.

(** ** Commands on the service *)

Section local_commands.
Context `{CC : Crypto, HX : Hex, BC : BodyCodec, OC : ObjectCodec, SHA : Sha256, HK : Hkdf, UU : Uuid}.
Context `{LP : Libp2p, CB : Cbor OperatorSessionCertificate, ET : ErrorText, UT : UnicodeText}.
Context `{JQ : Json IpcRequest, JQL : !JsonLaws IpcRequest, JQT : !JsonText IpcRequest}.
Context `{JR : Json IpcResponse, JRL : !JsonLaws IpcResponse, JRT : !JsonText IpcResponse}.
Context {St : Type} `{OS : !ObjectStore St}.
Implicit Types (L : LocalHost (St := St)) (d : Local (St := St)).

(** The service of Local.v, as the command line reaches it. *)
Definition local_cli L : CliService (Local (St := St)) := {| cli_request req := λ d,
  let '(answer, d') := local_exchange L req d in
  ((cli_send_command (lh_connects L (lo_calls d)) req (reader_of answer, writer_new)).1, d') |}.

(** The two clients read an answer the same way. *)
Lemma cli_send_Ok connected req answer r :
  (cli_send_command connected req (reader_of answer, writer_new)).1 = Ok r →
  (send_request connected req (reader_of answer, writer_new)).1 = answered_as r.
Proof.
  unfold cli_send_command, send_request, sbind, slift, smap_err, on_reader. destruct connected; [|done].
  destruct (write_line (json_to_vec req) _) as [[u|e] [r1 w1]]; [|done]. cbn [map_err].
  destruct (read_text_line _ r1) as [[line|e] r2]; [|done]. cbn [map_err].
  case_bool_decide; [done|]. destruct (_ <? _)%nat; [done|].
  destruct (json_from_str (trim line)) as [resp|]; [|done]. simpl. intros [= <-]. by destruct resp.
Qed.

Lemma cli_request_run L req d r d' :
  cli_request (CliService := local_cli L) req d = (Ok r, d') → (∀ message, r ≠ RError message) →
  ∃ commands, process_request (lh_host L) (lh_ios L (lo_calls d) 0) req (reached L d) = (r, commands, lo_service d').
Proof.
  simpl. destruct (local_exchange L req d) as [answer d1] eqn:E. intros [= Hr <-] Hne. apply cli_send_Ok in Hr.
  assert (answered_as r = Ok r) as Ha by (destruct r; try done; by destruct (Hne message)).
  assert (local_request L req d = (Ok r, d1)) as Hl by (unfold local_request; by rewrite E, Hr, Ha).
  destruct (local_request_answer _ _ _ _ _ Hl) as (_ & commands & Hp & _). by exists commands.
Qed.

(** *** What a command that ends well has done and says *)

(** The request of a command: the file that is sent is the staged copy. *)
Definition asked (io : cli_io) (command : Commands) : option IpcRequest :=
  match command with
  | CcStatus | CcId | CcTicket TcStatus => Some GetStatus
  | CcPeers => Some Config.ListPeers
  | CcTickets state | CcTicket (TcList state) => Some (ListTickets (parse_filter state))
  | CcTicket (TcShow ticket_id) => Some (GetTicket ticket_id)
  | CcTicket (TcCreate title description priority) =>
      Some (CreateTicket title description (TicketPriority_parse_str (to_uppercase priority)))
  | CcTicket (TcMessage ticket_id body) => Some (Config.SendChatMessage ticket_id body)
  | CcTicket (TcSendFile ticket_id path) =>
      match (new_upload_staging_path (ci_env io) (ci_staging io) (ci_uuid io) path []).1 with
      | Ok staged => Some (Config.SendFile ticket_id (path_display staged))
      | Err _ => None
      end
  | CcTicket (TcSetStatus ticket_id state_str) =>
      UpdateTicketStatus ticket_id <$> TicketState_parse_str (to_uppercase state_str)
  end.

(** The lines that tell the user what came of it, for an answer that is a success of the command. *)
Definition told (command : Commands) (r : IpcResponse) : option (list string) :=
  match command, r with
  | CcStatus, RStatus s =>
      Some (["PeerId:     " +:+ ds_peer_id s; "State:      " +:+ to_uppercase (ds_agent_state s);
             "Ticket:     " +:+ match ds_active_ticket s with
                                | Some t => TicketState_debug (ts_state t) +:+ " (" +:+ ts_id t +:+ ")"
                                | None => "NONE"
                                end] ++ ((λ a, "  - " +:+ a) <$> ds_listen_addresses s))
  | CcId, RStatus s => Some ["PeerId: " +:+ ds_peer_id s]
  | CcTicket TcStatus, RStatus s =>
      Some match ds_active_ticket s with
           | Some t => ["Ticket ID:    " +:+ ts_id t; "Ticket State: " +:+ TicketState_debug (ts_state t)]
           | None => ["No active ticket."]
           end
  | CcPeers, RPeers [] => Some ["No active or discovered peers."]
  | CcPeers, RPeers peers =>
      Some ((λ p, columns [pad_right 54 (ps_peer_id p); pad_right 18 (ps_hostname p); pad_right 10 (ps_os p);
                           pad_right 12 (ps_transport p); pad_right 10 (ps_status p)]) <$> peers)
  | (CcTickets _ | CcTicket (TcList _)), RTickets [] => Some ["Aucun ticket trouvé."]
  | (CcTickets _ | CcTicket (TcList _)), RTickets tickets =>
      Some ((λ t, columns [pad_right 16 (tr_id t); pad_right 12 (TicketState_as_str (tr_state t));
                           pad_right 8 (TicketPriority_as_str (tr_priority t)); pad_right 32 (tr_title t)]) <$> tickets)
  | CcTicket (TcShow _), RTicketDetail (Some d) =>
      Some (["Ticket:        " +:+ tr_id (td_ticket d); "Titre:         " +:+ tr_title (td_ticket d);
             "Statut:        " +:+ TicketState_as_str (tr_state (td_ticket d));
             "Priorité:      " +:+ TicketPriority_as_str (tr_priority (td_ticket d));
             "Client:        " +:+ tr_client_peer_id (td_ticket d)] ++
            ((λ m, "[" +:+ cm_delivery_state m +:+ "] " +:+ cm_sender_peer_id m +:+ ": " +:+ cm_body m) <$> td_messages d) ++
            ((λ a, "- " +:+ ar_filename a +:+ " (" +:+ pretty (ar_size_bytes a) +:+ " octets, SHA256: " +:+ ar_sha256 a +:+
                   ") -> " +:+ ar_local_path a) <$> td_attachments d) ++
            ((λ s, "Session " +:+ ss_id s +:+ " par " +:+ ss_operator_peer_id s +:+ " (" +:+ ss_transport s +:+
                   ") - Résultat: " +:+ option_debug (ss_result s)) <$> td_shell_sessions d) ++
            ((λ e, "[" +:+ pretty (er_timestamp e) +:+ "] " +:+ er_kind e +:+ ": " +:+ default "" (er_metadata e)) <$> td_events d))
  | CcTicket (TcCreate _ _ _), RTicketCreated t =>
      Some ["ID:            " +:+ tr_id t; "Titre:         " +:+ tr_title t;
            "Statut:        " +:+ TicketState_as_str (tr_state t);
            "Priorité:      " +:+ TicketPriority_as_str (tr_priority t)]
  | CcTicket (TcMessage _ _), RMessageSent m => Some ["ID:      " +:+ cm_id m; "Statut:  " +:+ cm_delivery_state m]
  | CcTicket (TcSendFile _ _), RFileSent a =>
      Some ["Nom:     " +:+ ar_filename a; "Taille:  " +:+ pretty (ar_size_bytes a) +:+ " octets";
            "SHA256:  " +:+ ar_sha256 a; "ID:      " +:+ ar_id a]
  | CcTicket (TcSetStatus _ _), RTicketUpdated (Some t) =>
      Some ["Statut du ticket " +:+ tr_id t +:+ " mis à jour: " +:+ TicketState_as_str (tr_state t) +:+ "."]
  | _, _ => None
  end%list.

Fixpoint text_of (lines : list string) : string :=
  match lines with
  | [] => ""
  | line :: lines => line +:+ line_end +:+ text_of lines
  end.

#[local] Existing Instance local_cli.

Abbreviation state := (CliState (W := Local (St := St))).
Implicit Types c : state.

(** What a command that ends well has had the service do, told the user and left on the disk: the service
    ran its request on the state it had reached, with an answer that is a success; what was printed are
    lines, among them, in this order, those that tell that answer; and only the copy of a file
    that is sent was written. *)
Definition carried_out L io (command : Commands) c c' : Prop :=
  ∃ req r commands facts lines,
    asked io command = Some req ∧
    process_request (lh_host L) (lh_ios L (lo_calls (cl_service c)) 0) req (reached L (cl_service c)) =
      (r, commands, lo_service (cl_service c')) ∧
    told command r = Some facts ∧ facts `sublist_of` lines ∧ cl_out c' = cl_out c +:+ text_of lines ∧
    match command with
    | CcTicket (TcSendFile _ path) =>
        ∃ staged content, (new_upload_staging_path (ci_env io) (ci_staging io) (ci_uuid io) path []).1 = Ok staged ∧
          cl_files c !! path = Some content ∧ cl_files c' = <[staged := content]> (cl_files c)
    | _ => cl_files c' = cl_files c
    end.

(** Code that prints these lines and does nothing else. *)
Definition prints (m : StateM state CliError unit) (lines : list string) : Prop :=
  ∀ c, m c = (Ok tt, mkCli (cl_service c) (cl_out c +:+ text_of lines) (cl_files c)).

Lemma text_of_app l k : text_of (l ++ k) = text_of l +:+ text_of k.
Proof. induction l as [|x l IH]; [done|]. simpl. by rewrite IH, !string_app_assoc. Qed.

Lemma prints_println line : prints (println line) [line].
Proof. intros c. reflexivity. Qed.

Lemma prints_seq m k l l' : prints m l → prints k l' → prints (let! _ := m in k) (l ++ l').
Proof. intros Hm Hk c. unfold sbind. rewrite Hm, Hk, text_of_app. cbn [cl_service cl_out cl_files]. by rewrite string_app_assoc. Qed.

Lemma prints_nothing : prints (sret tt) [].
Proof. intros []. unfold sret. simpl. by rewrite string_app_nil. Qed.

Lemma prints_all l : prints (print_all l) l.
Proof. induction l as [|x l IH]; [apply prints_nothing|]. apply (prints_seq _ _ [x] l); [apply prints_println|done]. Qed.

Lemma asked_run L req c r c' :
  cli_ask (CS := local_cli L) req c = (Ok r, c') → (∀ message, r ≠ RError message) →
  (∃ commands, process_request (lh_host L) (lh_ios L (lo_calls (cl_service c)) 0) req (reached L (cl_service c)) =
    (r, commands, lo_service (cl_service c'))) ∧ cl_out c' = cl_out c ∧ cl_files c' = cl_files c.
Proof.
  unfold cli_ask. destruct (cli_request req (cl_service c)) as [r' w] eqn:E. intros [= -> <-] Hne.
  split; [|done]. exact (cli_request_run _ _ _ _ _ E Hne).
Qed.

(** The lines that an answer makes a command print. *)
Definition takes (command : Commands) (r : IpcResponse) (m : StateM state CliError unit) : Prop :=
  ∃ facts lines, told command r = Some facts ∧ facts `sublist_of` lines ∧ prints m lines.

Lemma asking_done L io command req k c c' :
  asked io command = Some req →
  (match command with CcTicket (TcSendFile _ _) => False | _ => True end) →
  (let! response := cli_ask (CS := local_cli L) req in k response) c = (Ok tt, c') →
  (∀ r c1, k r c1 = (Ok tt, c') → (∀ message, r ≠ RError message) ∧ takes command r (k r)) →
  carried_out L io command c c'.
Proof.
  intros Ha Hc. unfold sbind. destruct (cli_ask req c) as [[r|] c1] eqn:E; [|done]. intros H Hk.
  destruct (Hk r c1 H) as (Hne & facts & lines & Ht & Hs & Hp). destruct (asked_run _ _ _ _ _ E Hne) as ([commands Hrun] & Ho & Hf).
  rewrite Hp in H. injection H as <-. exists req, r, commands, facts, lines. simpl.
  do 4 (split; [done|]). split; [by rewrite Ho|]. destruct command as [| | | |[]]; done.
Qed.

(** Sublists of lines that are computed. *)
Ltac in_order :=
  repeat first
    [ apply sublist_nil_l | apply sublist_skip | reflexivity
    | apply sublist_app; [reflexivity|] | apply sublist_cons
    | apply sublist_inserts_l | apply sublist_inserts_r ].

Lemma status_done L io command k c c' :
  asked io command = Some GetStatus → (match command with CcTicket (TcSendFile _ _) => False | _ => True end) →
  (let! status := get_daemon_status (CS := local_cli L) in k status) c = (Ok tt, c') →
  (∀ status, takes command (RStatus status) (k status)) → carried_out L io command c c'.
Proof.
  intros Ha Hc H Hk. apply (asking_done L io command GetStatus (λ response,
    let! status := match response with
                   | RStatus status => sret status
                   | RError err => bail ("Daemon error: " +:+ err)
                   | _ => bail "Unexpected response from daemon"
                   end in k status)); [exact Ha|exact Hc| |].
  - unfold get_daemon_status, sbind in *. destruct (cli_ask GetStatus c) as [[r|] c1]; [|done]. by destruct r.
  - intros r c1. unfold sbind. by destruct r.
Qed.

Lemma status_takes s :
  takes CcStatus (RStatus s)
    (let! _ := println (ds_product s +:+ " " +:+ ds_version s +:+ line_end) in
     let! _ := println ("PeerId:     " +:+ ds_peer_id s) in
     let! _ := println ("State:      " +:+ to_uppercase (ds_agent_state s)) in
     let! _ := println match ds_active_ticket s with
                       | Some t => "Ticket:     " +:+ TicketState_debug (ts_state t) +:+ " (" +:+ ts_id t +:+ ")"
                       | None => "Ticket:     NONE"
                       end in
     let! _ := println (line_end +:+ "Listen Addresses:") in
     match ds_listen_addresses s with
     | [] => println "  (none)"
     | addresses => print_all ((λ a, "  - " +:+ a) <$> addresses)
     end).
Proof.
  eexists _, _. split; [reflexivity|].
  split; [|do 5 (eapply prints_seq; [apply prints_println|]);
    instantiate (1 := match ds_listen_addresses s with [] => ["  (none)"] | l => (λ a, "  - " +:+ a) <$> l end);
    destruct (ds_listen_addresses s); [apply prints_println|apply prints_all]].
  apply sublist_cons. simpl. do 2 apply sublist_skip. destruct (ds_active_ticket s); apply sublist_skip, sublist_cons;
    (destruct (ds_listen_addresses s); [apply sublist_nil_l|done]).
Qed.

Lemma detail_takes t (detail : TicketDetail) : takes (CcTicket (TcShow t)) (RTicketDetail (Some detail)) (print_all (detail_lines detail)).
Proof.
  eexists _, _. split; [reflexivity|]. split; [|apply prints_all]. unfold detail_lines.
  do 3 rewrite <- app_comm_cons. simpl. in_order.
Qed.

(** A command that prints the lines of its answer at once. *)
Lemma takes_all command r facts lines :
  told command r = Some facts → facts `sublist_of` lines → takes command r (print_all lines).
Proof. intros Ht Hs. exists facts, lines. eauto using prints_all. Qed.

Lemma takes_line command r line : told command r = Some [line] → takes command r (println line).
Proof. intros Ht. exists [line], [line]. eauto using prints_println. Qed.

Lemma takes_table command r head rule facts :
  told command r = Some facts →
  takes command r (let! _ := println head in let! _ := println rule in print_all facts).
Proof.
  intros Ht. exists facts, ([head] ++ [rule] ++ facts). split; [done|]. split; [by do 2 apply sublist_cons|].
  eauto using prints_seq, prints_println, prints_all.
Qed.

(** Each other answer is a failure. *)
Ltac taking := intros r c1; destruct r; try done; intros _; (split; [done|]).

Lemma tickets_done L io command state c c' :
  asked io command = Some (ListTickets (parse_filter state)) → (command = CcTickets state ∨ command = CcTicket (TcList state)) →
  cmd_tickets_list (CS := local_cli L) state c = (Ok tt, c') → carried_out L io command c c'.
Proof.
  intros Ha Hc H. eapply asking_done; [exact Ha|by destruct Hc as [-> | ->]|exact H|]. intros r c1.
  destruct r as [| |tickets| | | | | | | | | | |]; try done. intros _. split; [done|].
  destruct tickets; destruct Hc as [-> | ->]; first [by apply takes_line|by apply takes_table].
Qed.

(** Sending a file copies it, asks the service for the copy, and prints. *)
Lemma send_file_done L io t path c c' :
  cmd_ticket_send_file (CS := local_cli L) io t path c = (Ok tt, c') →
  carried_out L io (CcTicket (TcSendFile t path)) c c'.
Proof.
  unfold cmd_ticket_send_file, sbind, sget, slift, smap_err, copy_file, remove_staged.
  destruct (bool_decide _); cbn [negb]; [|done].
  destruct (new_upload_staging_path _ _ _ _ _).1 as [staged|] eqn:Hstaged; cbn [map_err]; [|done].
  destruct (cl_files c !! path) as [content|] eqn:Hfile; [|done]. destruct (ci_copy io); cbn [map_err]; [done|].
  match goal with |- context [cli_ask ?req ?c1] => destruct (cli_ask req c1) as [[r|] c2] eqn:E; [|done] end.
  destruct r as [| | | | | | | | |att| | | |]; try (cbv beta iota; done). rewrite prints_all. intros [= <-].
  destruct (asked_run _ _ _ _ _ E) as ([commands Hp] & Ho & Hf); [done|].
  eexists _, _, commands, _, (sent_lines att). split; [simpl; by rewrite Hstaged|]. split; [exact Hp|]. split; [reflexivity|].
  split; [unfold sent_lines; in_order|]. cbn [cl_out cl_files]. rewrite Ho, Hf. split; [done|]. eauto.
Qed.

(** C39. A command that ends well did what it says and says what it did. Whatever the connection, the
    limits of the answers and the state of the service: when the command line reports
    success the service ran the request of the command on the state it had reached, with an answer that
    is a success, and nothing after it; the ids, states and texts of that very answer are what was
    printed; and a file was sent from its copy in the spool, which holds what the
    user's file holds, and no other file was written. *)
Theorem cli_success_means_done L io command c c' :
  cli_main (CS := local_cli L) io command c = (Ok tt, c') → carried_out L io command c c'.
Proof.
  destruct command as [| | |state|[state|t|title description priority|t body|t path|t state|]]; cbn [cli_main]; intros H.
  - eapply status_done; [done|done|exact H|]. exact status_takes.
  - eapply status_done; [done|done|exact H|]. intros s. by apply takes_line.
  - eapply asking_done; [done|done|exact H|]. intros r c1. destruct r as [|peers| | | | | | | | | | | |]; try done.
    intros _. split; [done|]. destruct peers; first [by apply takes_line|by apply takes_table].
  - eapply tickets_done; eauto.
  - eapply tickets_done; eauto.
  - eapply asking_done; [done|done|exact H|]. intros r c1. destruct r as [| | |[d|]| | | | | | | | | |]; try done.
    intros _. split; [done|]. apply detail_takes.
  - eapply asking_done; [done|done|exact H|]. taking. eapply takes_all; [reflexivity|in_order].
  - eapply asking_done; [done|done|exact H|]. taking. eapply takes_all; [reflexivity|in_order].
  - exact (send_file_done _ _ _ _ _ _ H).
  - unfold cmd_ticket_set_status in H. destruct (TicketState_parse_str (to_uppercase state)) as [st|] eqn:Hst; [|done].
    eapply asking_done; [simpl; by rewrite Hst|done|exact H|]. intros r c1.
    destruct r as [| | | | |[ticket|]| | | | | | | |]; try done. intros _. split; [done|]. by apply takes_line.
  - eapply status_done; [done|done|exact H|]. intros s. cbv beta.
    destruct (ds_active_ticket s) eqn:Ht;
      [eapply takes_all; [simpl; by rewrite Ht|done]|apply takes_line; simpl; by rewrite Ht].
Qed.
End local_commands.

(** ** Staged files *)

Section staging.
Context `{UT : UnicodeText, SHA : Sha256} {W : Type} `{CS : !CliService W}.
Implicit Types c : CliState (W := W).

Lemma asked_files req c r c' : cli_ask req c = (r, c') → cl_files c' = cl_files c ∧ cl_out c' = cl_out c.
Proof. unfold cli_ask. destruct (cli_request req (cl_service c)). by intros [= _ <-]. Qed.

(** The copy of a file that is sent. Whatever the service answers, the command leaves no copy
    behind when it fails: the copy is made before the service is asked, stays for the service
    to take when the file was sent, and is removed otherwise. Only a copy that breaks off
    leaves its part in the spool; nothing at all is written for a file that is not there. *)
Theorem cli_staging_clean io t path c :
  let '(r, c') := cmd_ticket_send_file io t path c in
  match cl_files c !! path, (new_upload_staging_path (ci_env io) (ci_staging io) (ci_uuid io) path []).1 with
  | Some content, Ok staged =>
      match ci_copy io with
      | None => cl_files c' = if is_ok r then <[staged := content]> (cl_files c) else delete staged (cl_files c)
      | Some n => is_ok r = false ∧ cl_service c' = cl_service c ∧ cl_files c' = <[staged := take n content]> (cl_files c)
      end
  | _, _ => is_ok r = false ∧ c' = c
  end.
Proof.
  unfold cmd_ticket_send_file, sbind, sget, slift, smap_err, copy_file, remove_staged.
  destruct (cl_files c !! path) as [content|] eqn:Hfile;
    [rewrite bool_decide_eq_true_2 by eauto|rewrite bool_decide_eq_false_2 by (by intros [])]; cbn [negb]; [|done].
  destruct (new_upload_staging_path _ _ _ _ _).1 as [staged|]; cbn [map_err]; [|done]. rewrite Hfile.
  destruct (ci_copy io) as [n|]; cbn [map_err is_ok]; [by split|].
  match goal with |- context [cli_ask ?req ?c1] => destruct (cli_ask req c1) as [[r|e] c2] eqn:E end;
    destruct (asked_files _ _ _ _ E) as [Hf _]; simpl in Hf; [|by simpl; rewrite Hf, delete_insert_eq].
  destruct r; simpl; first [exact Hf|by rewrite Hf, delete_insert_eq].
Qed.
End staging.
