(* ===== verification/CliRuns.v ===== *)
(** Runs of the command line on the concrete service of WindowRuns.v: the hypotheses of the
    theorems of Cli.v hold there. *)

From S2P Require Import Prelude Text Object Concrete Ticket Event Graph GraphSort.
From S2P Require Import Reducer Authority Store Engine EngineRuns Codec Config Stream Shell Session Mnemonic Wire Sync Peers.
From S2P Require Import Admission Transfer Client SyncRuns Node Service ServiceRuns Screen Terminal TerminalRuns.
From S2P Require Import Desktop Local Window WindowRuns Cli.

#[local] Existing Instance toy_libp2p.
#[local] Existing Instance toy_cbor.
#[local] Existing Instance toy_sha256.
#[local] Existing Instance toy_uuid.
#[local] Existing Instance toy_error_text.
#[local] Existing Instance toy_hkdf.
#[local] Existing Instance window_request_json.
#[local] Existing Instance window_request_laws.
#[local] Existing Instance window_request_text.
#[local] Existing Instance window_response_json.
#[local] Existing Instance window_response_laws.
#[local] Existing Instance window_response_text.

(** The letters of ASCII, and a string in quotes. *)
#[local] Instance ascii_text : UnicodeText := {|
  to_uppercase s := from_bytes (ascii_upper <$> as_bytes s);
  str_debug s := from_bytes (x22 :: as_bytes s ++ [x22])
|}.

#[local] Instance ascii_text_laws : UnicodeTextLaws.
Proof. by split. Qed.

(** ** A ticket that is shown *)

Definition any_io : cli_io := mkCliIo (λ _, None) (mkStagingIo true true true) "u" None.

Definition prompt : CliState (W := Local (St := FsObjectStore)) := mkCli local_start "" ∅.

Definition show_the_ticket : Commands := CcTicket (TcShow the_ticket).

Definition shown : result CliError unit * CliState :=
  cli_main (CS := local_cli reachable) any_io show_the_ticket prompt.

Lemma cli_success_means_done_witness :
  shown.1 = Ok tt ∧ carried_out reachable any_io show_the_ticket prompt shown.2.
Proof.
  assert (is_ok shown.1 = true) as Hok by (vm_compute; reflexivity).
  destruct shown as [[[]|e] c'] eqn:E; [|discriminate Hok]. split; [reflexivity|].
  exact (cli_success_means_done reachable any_io show_the_ticket prompt c' E).
Defined.

(** ** A session that ends with its input *)

Definition cli_sent : list ShellFrame := [Data (as_bytes "$ "); Ping; Data (as_bytes "file")].

Definition cli_events : list cli_event :=
  [CsArrives (concat (frame_bytes <$> cli_sent)); CsFrame; CsStdin (Some (Some (as_bytes "ls"))); CsFrame; CsSend].

Lemma cli_shell_faithful_witness :
  ∃ s, cli_run cli_events (cli_shell_start writer_new writer_new) = Some s ∧
    wr_out (cs_stdout s) = as_bytes "$ " ∧ cs_queue s = [Pong] ∧
    ∃ s', cli_run [CsStdin (Some None); CsClose] s = Some s' ∧ cs_queue s' = [Pong] ∧ ∀ e, cli_step e s' = None.
Proof.
  assert (match cli_run cli_events (cli_shell_start writer_new writer_new) with
          | Some s => bool_decide (wr_out (cs_stdout s) = as_bytes "$ " ∧ cs_queue s = [Pong]) &&
              negb (cs_closed s) && cs_typing s
          | None => false
          end = true) as Hrun by (vm_compute; reflexivity).
  destruct (cli_run cli_events _) as [s|] eqn:E; [|discriminate Hrun].
  apply andb_true_iff in Hrun as [[Hb Hc]%andb_true_iff Ht]. apply bool_decide_eq_true in Hb as [Ho Hq].
  apply negb_true_iff in Hc.
  assert (Forall frame_ok cli_sent) as Hok by (repeat constructor; vm_compute; reflexivity).
  destruct (cli_shell_faithful cli_sent cli_events [] s Hok (app_nil_r _) E) as [_ He].
  destruct (He Hc Ht) as (s' & Hr & _ & _ & Hq' & Hs').
  exists s. split; [reflexivity|]. split; [exact Ho|]. split; [exact Hq|]. exists s'.
  split; [exact Hr|]. split; [rewrite Hq'; exact Hq|exact Hs'].
Defined.
