(* ===== verification/Machine.v ===== *)
(** The calls to the operating system that the programs of Startup.v make one by one, and
    processes that make them in any order: files, exclusive locks, commands. A program is a
    tree of calls; what it has learned is followed through the tree. *)

From S2P Require Import Prelude Text Config Transfer.

(** ** Calls *)

Inductive os_error := NotFound | AlreadyExists | WouldBlock | OtherOs.

Record file := mkFile { fl_mode : N; fl_content : bytes }.

(** Directories are not kept. A lock belongs to a process. *)
Record Machine := mkMachine { mc_files : gmap PathBuf file; mc_locks : gmap PathBuf nat }.

Abbreviation os_result := (result os_error).

Inductive call : Set → Type :=
| ReadFile (p : PathBuf) : call (os_result bytes)
| PathExists (p : PathBuf) : call bool
| Canonicalize (p : PathBuf) : call (option PathBuf)
| CreateDirAllOf (p : PathBuf) : call (os_result unit)
| CreateNew (p : PathBuf) (mode : N) : call (os_result unit)     (** [create_new(true)] *)
| AppendTo (p : PathBuf) (l : bytes) : call (os_result unit)     (** [write_all] on what was opened_file *)
| OpenOrCreate (p : PathBuf) : call (os_result unit)             (** [create(true).truncate(false)] *)
| WriteWhole (p : PathBuf) (l : bytes) : call (os_result unit)   (** [fs::write], as one step *)
| RemoveFile (p : PathBuf) : call (os_result unit)
| TryLock (p : PathBuf) : call (os_result unit)                  (** [try_lock_exclusive] *)
| RandomBytes : call (vec byte 32)
| Exec (program : string) (args : list string) : call (option bool) (** [Command::status] *)
| PrintLine (line : string) : call unit.

(** What the system adds: a call that fails, the bytes written before that, the random
    bytes, the canonical path, how a command ended. *)
Record reply := mkReply {
  rp_fails : bool;
  rp_written : option nat;    (** [None]: the file could not be opened *)
  rp_random : vec byte 32;
  rp_path : option PathBuf;
  rp_exit : option bool       (** [None]: it could not be started *)
}.

Definition DEFAULT_MODE : N := 420.

Definition set_file (p : PathBuf) (f : file) (m : Machine) : Machine :=
  mkMachine (<[p := f]> (mc_files m)) (mc_locks m).

Definition content_at (m : Machine) (p : PathBuf) : option bytes := fl_content <$> mc_files m !! p.

(** The file a call writes to, when it is there or can be made. *)
Definition opened_file (p : PathBuf) (m : Machine) : file := default (mkFile DEFAULT_MODE []) (mc_files m !! p).

Definition do_call (pid : nat) (rp : reply) {R : Set} (c : call R) : Machine → R * Machine :=
  match c in call R return Machine → R * Machine with
  | ReadFile p => λ m,
      (if rp_fails rp then Err OtherOs else ok_or (content_at m p) NotFound, m)
  | PathExists p => λ m, (bool_decide (is_Some (mc_files m !! p)), m)
  | Canonicalize p => λ m, (rp_path rp, m)
  | CreateDirAllOf p => λ m, (if rp_fails rp then Err OtherOs else Ok tt, m)
  | CreateNew p mode => λ m,
      if rp_fails rp then (Err OtherOs, m) else
      match mc_files m !! p with
      | Some _ => (Err AlreadyExists, m)
      | None => (Ok tt, set_file p (mkFile mode []) m)
      end
  | AppendTo p l => λ m,
      match mc_files m !! p with
      | None => (if rp_fails rp then Err OtherOs else Ok tt, m)
      | Some f =>
          if rp_fails rp
          then (Err OtherOs, set_file p (mkFile (fl_mode f) (fl_content f ++ take (default 0%nat (rp_written rp)) l)) m)
          else (Ok tt, set_file p (mkFile (fl_mode f) (fl_content f ++ l)) m)
      end
  | OpenOrCreate p => λ m, if rp_fails rp then (Err OtherOs, m) else (Ok tt, set_file p (opened_file p m) m)
  | WriteWhole p l => λ m,
      if rp_fails rp then
        (Err OtherOs,
         match rp_written rp with
         | Some n => set_file p (mkFile (fl_mode (opened_file p m)) (take n l)) m
         | None => m
         end)
      else (Ok tt, set_file p (mkFile (fl_mode (opened_file p m)) l) m)
  | RemoveFile p => λ m,
      if rp_fails rp then (Err OtherOs, m) else
      match mc_files m !! p with
      | None => (Err NotFound, m)
      | Some _ => (Ok tt, mkMachine (delete p (mc_files m)) (mc_locks m))
      end
  | TryLock p => λ m,
      match mc_locks m !! p with
      | Some _ => (Err WouldBlock, m)
      | None => if rp_fails rp then (Err OtherOs, m) else (Ok tt, mkMachine (mc_files m) (<[p := pid]> (mc_locks m)))
      end
  | RandomBytes => λ m, (rp_random rp, m)
  | Exec program args => λ m, (rp_exit rp, m)
  | PrintLine line => λ m, (tt, m)
  end.

(** ** Programs *)

Inductive prog (A : Type) : Type :=
| Ret (a : A)
| Ask {R : Set} (c : call R) (k : R → prog A).
Arguments Ret {A} a.
Arguments Ask {A R} c k.

Fixpoint prog_bind {A B} (p : prog A) (f : A → prog B) : prog B :=
  match p with
  | Ret a => f a
  | Ask c k => Ask c (λ r, prog_bind (k r) f)
  end.

Definition do_ {R : Set} (c : call R) : prog R := Ask c Ret.

Notation "'let*' x ':=' m 'in' k" := (prog_bind m (λ x, k))
  (at level 10, x pattern, m at level 100, k at level 200) : fortiq_scope.

(** A program that fails with an error, and its [?]. *)
Definition try_ {E A B} (m : prog (result E A)) (k : A → prog (result E B)) : prog (result E B) :=
  prog_bind m (λ r, match r with Ok a => k a | Err e => Ret (Err e) end).

Notation "'let*?' x ':=' m 'in' k" := (try_ m (λ x, k))
  (at level 10, x pattern, m at level 100, k at level 200) : fortiq_scope.

Definition or_fail {E} {R : Set} (c : call (os_result R)) (e : E) : prog (result E R) :=
  Ask c (λ r, Ret (map_err (λ _, e) r)).

(** Alone: the [i]th call gets the [i]th reply. *)
Fixpoint run_prog {A} (pid : nat) (rps : nat → reply) (i : nat) (p : prog A) (m : Machine) : A * Machine :=
  match p with
  | Ret a => (a, m)
  | Ask c k => let '(r, m) := do_call pid (rps i) c m in run_prog pid rps (S i) (k r) m
  end.

Lemma run_bind {A B} pid rps i (pr : prog A) (f : A → prog B) m :
  ∃ j, run_prog pid rps i (prog_bind pr f) m =
    run_prog pid rps j (f (run_prog pid rps i pr m).1) (run_prog pid rps i pr m).2.
Proof.
  revert i m. induction pr as [a|R c k IH]; intros i m; simpl; [by exists i|].
  destruct (do_call pid (rps i) c m) as [r m1]. apply IH.
Qed.

Lemma run_try {E A B} pid rps i (pr : prog (result E A)) (k : A → prog (result E B)) m r m1 :
  run_prog pid rps i pr m = (r, m1) →
  ∃ j, run_prog pid rps i (try_ pr k) m =
    match r with Ok a => run_prog pid rps j (k a) m1 | Err e => (Err e, m1) end.
Proof.
  intros E1. unfold try_.
  destruct (run_bind pid rps i pr (λ r, match r with Ok a => k a | Err e => Ret (Err e) end) m) as [j ->].
  rewrite E1. exists j. by destruct r.
Qed.

(** What a program can return when each of its calls is made on a machine of [P], whatever the system
    adds. *)
Fixpoint may_return {A} (P : Machine → Prop) (pr : prog A) (a : A) : Prop :=
  match pr with
  | Ret b => b = a
  | Ask c k => ∃ pid rp m, P m ∧ may_return P (k (do_call pid rp c m).1) a
  end.

Lemma may_bind {A B} P (pr : prog A) (f : A → prog B) b :
  may_return P (prog_bind pr f) b → ∃ a, may_return P pr a ∧ may_return P (f a) b.
Proof.
  induction pr as [a|R c k IH]; simpl; [eauto|]. intros (pid & rp & m & Hm & Hr).
  destruct (IH _ Hr) as (a & Ha & Hb). exists a. split; [|done]. by exists pid, rp, m.
Qed.

Lemma may_try {E A B} P (pr : prog (result E A)) (k : A → prog (result E B)) b :
  may_return P (try_ pr k) (Ok b) → ∃ a, may_return P pr (Ok a) ∧ may_return P (k a) (Ok b).
Proof. intros ([a|e] & Ha & Hb)%may_bind; [eauto|done]. Qed.

(** ** Processes *)

Section processes.
Context {A : Type}.

(** A program that has returned runs on until its process ends. *)
Record World := mkWorld { wo_machine : Machine; wo_procs : gmap nat (prog A) }.

Inductive world_event :=
| EvSpawn (pid : nat) (p : prog A)
| EvCall (pid : nat) (rp : reply)
| EvExit (pid : nat).            (** it ends, or is killed; its locks are released *)

Definition release (pid : nat) (m : Machine) : Machine :=
  mkMachine (mc_files m) (filter (λ l, l.2 ≠ pid) (mc_locks m)).

Definition world_step (e : world_event) (w : World) : option World :=
  match e with
  | EvSpawn pid p =>
      match wo_procs w !! pid with
      | Some _ => None
      | None => Some (mkWorld (wo_machine w) (<[pid := p]> (wo_procs w)))
      end
  | EvCall pid rp =>
      match wo_procs w !! pid with
      | Some (Ask c k) =>
          let '(r, m) := do_call pid rp c (wo_machine w) in Some (mkWorld m (<[pid := k r]> (wo_procs w)))
      | _ => None
      end
  | EvExit pid =>
      match wo_procs w !! pid with
      | Some _ => Some (mkWorld (release pid (wo_machine w)) (delete pid (wo_procs w)))
      | None => None
      end
  end.

Fixpoint world_run (l : list world_event) (w : World) : option World :=
  match l with
  | [] => Some w
  | e :: l => w ← world_step e w; world_run l w
  end.

Definition returned (w : World) (pid : nat) (a : A) : Prop := wo_procs w !! pid = Some (Ret a).

Definition world_start (files : gmap PathBuf file) : World := mkWorld (mkMachine files ∅) ∅.

(** A machine of the run: the one that some part of it, from its beginning, leaves. *)
Definition passed (l : list world_event) (w : World) (m : Machine) : Prop :=
  ∃ l1 l2 w1, l = l1 ++ l2 ∧ world_run l1 w = Some w1 ∧ m = wo_machine w1.

Lemma passed_cons e l w w1 m : world_step e w = Some w1 → passed l w1 m → passed (e :: l) w m.
Proof. intros E (l1 & l2 & w2 & -> & Hr & ->). exists (e :: l1), l2, w2. simpl. by rewrite E. Qed.

Lemma world_returns_from (P : Machine → Prop) l : ∀ w w',
  (∀ m, passed l w m → P m) → world_run l w = Some w' → ∀ pid pr, wo_procs w' !! pid = Some pr → ∃ pr0,
  (EvSpawn pid pr0 ∈ l ∨ wo_procs w !! pid = Some pr0) ∧ ∀ a, may_return P pr a → may_return P pr0 a.
Proof.
  induction l as [|e l IH]; intros w w' HP; simpl; [intros [= <-]; eauto|].
  destruct (world_step e w) as [w1|] eqn:E; [|done]. simpl. intros Hr pid pr Hp.
  destruct (IH w1 w' (λ m Hm, HP m (passed_cons _ _ _ _ _ E Hm)) Hr pid pr Hp) as (pr1 & [Hin|Hp1] & Hm);
    [exists pr1; split; [left; by right|done]|].
  destruct e as [pid' pr'|pid' rp|pid']; simpl in E.
  - destruct (wo_procs w !! pid') eqn:Hf; [done|]. injection E as <-. simpl in Hp1.
    destruct (decide (pid' = pid)) as [->|Hn].
    + rewrite lookup_insert_eq in Hp1. injection Hp1 as ->. exists pr1. split; [left; by left|done].
    + rewrite lookup_insert_ne in Hp1 by done. exists pr1. split; [by right|done].
  - destruct (wo_procs w !! pid') as [[|R c k]|] eqn:Hf; try done.
    destruct (do_call pid' rp c (wo_machine w)) as [r m] eqn:Hd. injection E as <-. simpl in Hp1.
    destruct (decide (pid' = pid)) as [->|Hn].
    + rewrite lookup_insert_eq in Hp1. injection Hp1 as <-. exists (Ask c k). split; [by right|]. intros b Hb.
      exists pid, rp, (wo_machine w). rewrite Hd. split; [|by apply Hm]. apply HP. by exists [], (EvCall pid rp :: l), w.
    + rewrite lookup_insert_ne in Hp1 by done. exists pr1. split; [by right|done].
  - destruct (wo_procs w !! pid'); [|done]. injection E as <-. simpl in Hp1. apply lookup_delete_Some in Hp1 as [_ Hp1].
    exists pr1. split; [by right|done].
Qed.

(** A process returns what the program it was started with can return on the machines of the run. *)
Lemma world_returns l files w pid a :
  world_run l (world_start files) = Some w → returned w pid a →
  ∃ pr, EvSpawn pid pr ∈ l ∧ may_return (passed l (world_start files)) pr a.
Proof.
  intros Hr Ha. destruct (world_returns_from _ _ _ _ (λ m Hm, Hm) Hr _ _ Ha) as (pr0 & [Hin|Hp] & Hm);
    [|simpl in Hp; by rewrite lookup_empty in Hp].
  exists pr0. split; [done|]. by apply Hm.
Qed.
End processes.
Arguments World A : clear implicits.
Arguments world_event A : clear implicits.

(** ** What a program knows

    One file is followed, which holds the encoding of a key. A program can know nothing of
    it, have created it and not yet written to it, or know the key that it decodes to. *)

Section knowledge.
Context {A K : Type} (p : PathBuf) (decode : bytes → option K) (encoded : bytes → Prop).
Context (Hprefix : ∀ l b, encoded b → l `prefix_of` b → l ≠ b → decode l = None).

Inductive knowledge := Nothing | Creating | Settled (k : K).

Definition learn {R : Set} (c : call R) : R → knowledge → knowledge :=
  match c in call R return R → knowledge → knowledge with
  | ReadFile q => λ r s,
      if bool_decide (q = p) then
        match s, r with
        | Nothing, Ok b => match decode b with Some k => Settled k | None => s end
        | _, _ => s
        end
      else s
  | CreateNew q mode => λ r s, if bool_decide (q = p) && is_ok r then Creating else s
  | AppendTo q l => λ r s,
      if bool_decide (q = p) then
        if is_ok r then match decode l with Some k => Settled k | None => Nothing end else Nothing
      else s
  | _ => λ _ s, s
  end.

(** The file is only written by the program that created it, and with one encoding. *)
Definition allowed {R : Set} (c : call R) (s : knowledge) : Prop :=
  match c with
  | AppendTo q l => q = p → s = Creating ∧ encoded l
  | OpenOrCreate q | WriteWhole q _ | RemoveFile q => q ≠ p
  | _ => True
  end.

Definition locked {R : Set} (c : call R) : R → gset PathBuf → gset PathBuf :=
  match c in call R return R → gset PathBuf → gset PathBuf with
  | TryLock q => λ r H, if is_ok r then {[q]} ∪ H else H
  | _ => λ _ H, H
  end.

Fixpoint sound {B} (Q : knowledge → gset PathBuf → B → Prop) (s : knowledge) (H : gset PathBuf) (pr : prog B) : Prop :=
  match pr with
  | Ret a => Q s H a
  | Ask c k => allowed c s ∧ ∀ r, sound Q (learn c r s) (locked c r H) (k r)
  end.

Definition holds (m : Machine) (s : knowledge) : Prop :=
  match s with
  | Nothing => True
  | Creating => content_at m p = Some []
  | Settled k => ∃ b, content_at m p = Some b ∧ decode b = Some k
  end.

Lemma sound_bind {B C} Q s H (pr : prog B) (f : B → prog C) :
  sound (λ s H a, sound Q s H (f a)) s H pr → sound Q s H (prog_bind pr f).
Proof. revert s H. induction pr as [a|R c k IH]; intros s H; simpl; [done|]. intros [Ha Hk]. split; [done|]. auto. Qed.

Lemma sound_mono {B} (Q Q' : knowledge → gset PathBuf → B → Prop) s H pr :
  (∀ s H a, Q s H a → Q' s H a) → sound Q s H pr → sound Q' s H pr.
Proof. intros HQ. revert s H. induction pr as [a|R c k IH]; intros s H; simpl; [auto|]. intros [Ha Hk]. split; auto. Qed.

Lemma content_set q f m : content_at (set_file q f m) p = if decide (q = p) then Some (fl_content f) else content_at m p.
Proof.
  unfold content_at, set_file. simpl. destruct (decide (q = p)) as [->|Hn]; [by rewrite lookup_insert_eq|].
  by rewrite lookup_insert_ne.
Qed.

Lemma content_other q f m : q ≠ p → content_at (set_file q f m) p = content_at m p.
Proof. intros Hn. rewrite content_set. by destruct (decide (q = p)). Qed.

Lemma content_file m f : mc_files m !! p = Some f → content_at m p = Some (fl_content f).
Proof. intros E. unfold content_at. by rewrite E. Qed.

(** What a call leaves of the file. *)
Lemma call_content {R : Set} pid rp (c : call R) s m r m' :
  do_call pid rp c m = (r, m') → allowed c s → holds m s →
  (content_at m' p = content_at m p ∧
     (learn c r s = s ∨ ∃ b k, content_at m p = Some b ∧ decode b = Some k ∧ learn c r s = Settled k)) ∨
  (learn c r s = Creating ∧ s ≠ Creating ∧ content_at m p = None ∧ content_at m' p = Some []) ∨
  (s = Creating ∧ learn c r s ≠ Creating ∧ ∃ l b, encoded b ∧ l `prefix_of` b ∧ content_at m' p = Some l ∧
     (learn c r s = Nothing ∨ l = b ∧ ∃ k, decode b = Some k ∧ learn c r s = Settled k)).
Proof.
  destruct c as [q|q|q|q|q mode|q l|q|q l|q|q| |prog args|line]; simpl; intros E Ha Hs;
    try (injection E as _ <-; left; by eauto).
  - injection E as <- <-. left. split; [done|]. case_bool_decide as Hq; [subst q|by left].
    destruct (rp_fails rp); [by left; destruct s|]. destruct (content_at m p) as [b|] eqn:Hb; [|by left; destruct s].
    simpl. destruct s; [|by left..]. destruct (decode b) as [k|] eqn:Hd; [right; by eauto|by left].
  - destruct (rp_fails rp); [injection E as <- <-; left; split; [done|]; left; by rewrite andb_false_r|].
    destruct (mc_files m !! q) as [f|] eqn:Hf; injection E as <- <-;
      [left; split; [done|]; left; by rewrite andb_false_r|].
    case_bool_decide as Hq; [subst q|left; split; [by apply content_other|by left]]. right. left. simpl.
    unfold content_at at 1. rewrite Hf. split; [done|]. split; [|split; [done|by rewrite content_set, decide_True]].
    intros ->. unfold holds, content_at in Hs. by rewrite Hf in Hs.
  - destruct (mc_files m !! q) as [f|] eqn:Hf.
    2: { destruct (decide (q = p)) as [->|Hn]; injection E as <- <-;
           [|left; rewrite bool_decide_eq_false_2 by done; split; [done|by left]].
         destruct (Ha eq_refl) as [-> _]. unfold holds, content_at in Hs. by rewrite Hf in Hs. }
    destruct (decide (q = p)) as [->|Hn].
    2: { left. rewrite bool_decide_eq_false_2 by done.
         split; [destruct (rp_fails rp); injection E as <- <-; by rewrite content_other|by left]. }
    destruct (Ha eq_refl) as [-> He]. right. right. simpl in Hs. rewrite (content_file _ _ Hf) in Hs. injection Hs as Hs.
    rewrite bool_decide_eq_true_2 by done. rewrite Hs in E. simpl in E. split; [done|].
    destruct (rp_fails rp); injection E as <- <-; simpl.
    + split; [done|]. exists (take (default 0%nat (rp_written rp)) l), l. split; [done|].
      split; [apply prefix_take|]. split; [by rewrite content_set, decide_True|]. by left.
    + split; [by destruct (decode l)|]. exists l, l. split; [done|]. split; [done|].
      split; [by rewrite content_set, decide_True|]. destruct (decode l) as [k|]; [|by left]. right. eauto.
  - left. split; [|by left]. destruct (rp_fails rp); injection E as <- <-; [done|]. by rewrite content_other.
  - left. split; [|by left].
    destruct (rp_fails rp); injection E as <- <-; [destruct (rp_written rp); [|done]|]; by rewrite content_other.
  - left. split; [|by left]. destruct (rp_fails rp); [by injection E as <- <-|].
    destruct (mc_files m !! q); injection E as <- <-; [|done]. unfold content_at. simpl. by rewrite lookup_delete_ne.
  - left. split; [|by left].
    destruct (mc_locks m !! q); [by injection E as <- <-|]. by destruct (rp_fails rp); injection E as <- <-.
Qed.

(** What the program knows after the call is true. *)
Lemma call_own {R : Set} pid rp (c : call R) s m r m' :
  do_call pid rp c m = (r, m') → allowed c s → holds m s → holds m' (learn c r s).
Proof.
  intros E Ha Hs. destruct (call_content _ _ _ _ _ _ _ E Ha Hs) as
    [(Hc & [->|(b & k & Hb & Hd & ->)])|[(-> & _ & _ & Hc)|(-> & _ & l & b & _ & _ & Hc & Hl)]].
  - destruct s; simpl in *; [done|by rewrite Hc|]. destruct Hs as (b & Hb & Hd). exists b. by rewrite Hc.
  - exists b. by rewrite Hc.
  - exact Hc.
  - destruct Hl as [->|(-> & k & Hd & ->)]; [done|]. by exists b.
Qed.

(** What another program knows stays true, and only one program creates the file. *)
Lemma call_other {R : Set} pid rp (c : call R) s t m r m' :
  do_call pid rp c m = (r, m') → allowed c s → holds m s → holds m t → (s = Creating → t ≠ Creating) →
  holds m' t ∧ (learn c r s = Creating → t ≠ Creating).
Proof.
  intros E Ha Hs Ht Hx. destruct (call_content _ _ _ _ _ _ _ E Ha Hs) as
    [(Hc & Hl)|[(-> & _ & Hn & Hc)|(-> & Hl & l & b & He & Hp & Hc & _)]].
  - split.
    + destruct t; simpl in *; [done|by rewrite Hc|]. destruct Ht as (b & Hb & Hd). exists b. by rewrite Hc.
    + destruct Hl as [->|(b & k & _ & _ & ->)]; done.
  - destruct t as [| |k]; simpl in *; [done|congruence|]. destruct Ht as (b & Hb & _). congruence.
  - split; [|done]. destruct t as [| |k]; simpl in *; [done|by destruct (Hx eq_refl)|].
    destruct Ht as (b' & Hb' & Hd). rewrite Hb' in Hs. injection Hs as ->.
    assert (b = []) as ->.
    { destruct (decide (b = [])) as [|Hn]; [done|]. rewrite (Hprefix [] b He) in Hd; [done|by apply prefix_nil|done]. }
    apply prefix_nil_inv in Hp as ->. by exists [].
Qed.

Lemma call_locks {R : Set} pid rp (c : call R) H m r m' :
  do_call pid rp c m = (r, m') →
  (∀ q, q ∈ H → mc_locks m !! q = Some pid) → ∀ q, q ∈ locked c r H → mc_locks m' !! q = Some pid.
Proof.
  destruct c as [q|q|q|q|q mode|q l|q|q l|q|q| |prog args|line]; simpl; intros E HH q' Hq';
    try (injection E as _ <-; by apply HH); try (case_matches; by apply HH).
  destruct (mc_locks m !! q) as [h|] eqn:Hl; [injection E as <- <-; by apply HH|].
  destruct (rp_fails rp); injection E as <- <-; [by apply HH|]. simpl in *.
  apply elem_of_union in Hq' as [->%elem_of_singleton|Hq']; [apply lookup_insert_eq|].
  destruct (decide (q = q')) as [->|Hn]; [apply lookup_insert_eq|]. rewrite lookup_insert_ne by done. by apply HH.
Qed.

Lemma call_locks_other {R : Set} pid rp (c : call R) m r m' q h :
  do_call pid rp c m = (r, m') → mc_locks m !! q = Some h → mc_locks m' !! q = Some h.
Proof.
  destruct c as [q'|q'|q'|q'|q' mode|q' l|q'|q' l|q'|q'| |prog args|line]; simpl; intros E Hq;
    try (injection E as _ <-; done); try (by case_matches).
  destruct (mc_locks m !! q') as [h'|] eqn:Hl; [by injection E as <- <-|].
  destruct (rp_fails rp); injection E as <- <-; [done|]. simpl.
  destruct (decide (q' = q)) as [->|Hn]; [congruence|]. by rewrite lookup_insert_ne.
Qed.

(** *** Many programs *)

Context (Q : knowledge → gset PathBuf → A → Prop).
Implicit Types w : World A.

Record world_inv (w : World A) (kn : nat → knowledge * gset PathBuf) : Prop := {
  wi_procs pid pr : wo_procs w !! pid = Some pr →
    sound Q (kn pid).1 (kn pid).2 pr ∧ holds (wo_machine w) (kn pid).1 ∧
    ∀ q, q ∈ (kn pid).2 → mc_locks (wo_machine w) !! q = Some pid;
  wi_creating i j pi pj : wo_procs w !! i = Some pi → wo_procs w !! j = Some pj →
    (kn i).1 = Creating → (kn j).1 = Creating → i = j
}.

(** The programs started are sound from nothing. *)
Definition starts (e : world_event A) : Prop :=
  match e with EvSpawn pid p => sound Q Nothing ∅ p | _ => True end.

Lemma world_step_inv e w w' kn :
  starts e → world_inv w kn → world_step e w = Some w' → ∃ kn', world_inv w' kn'.
Proof.
  intros Hst [Hp Hc] E. destruct e as [pid pr|pid rp|pid]; simpl in E.
  - destruct (wo_procs w !! pid) as [|] eqn:Hf; [done|]. injection E as <-.
    exists (λ i, if decide (i = pid) then (Nothing, ∅) else kn i). split; simpl.
    + intros i pi. destruct (decide (i = pid)) as [->|Hn].
      * rewrite lookup_insert_eq. intros [= <-]. split; [done|]. split; [done|]. simpl. set_solver.
      * rewrite lookup_insert_ne by done. apply Hp.
    + intros i j pi pj. destruct (decide (i = pid)), (decide (j = pid)); try done.
      rewrite !lookup_insert_ne by done. apply Hc.
  - destruct (wo_procs w !! pid) as [[|R c k]|] eqn:Hf; try done.
    destruct (do_call pid rp c (wo_machine w)) as [r m] eqn:Hd. injection E as <-.
    destruct (Hp _ _ Hf) as ([Ha Hk] & Hh & Hl).
    assert (∀ i pi, i ≠ pid → wo_procs w !! i = Some pi →
      holds m (kn i).1 ∧ (learn c r (kn pid).1 = Creating → (kn i).1 ≠ Creating)) as Hother.
    { intros i pi Hn Hi. destruct (Hp _ _ Hi) as (_ & Hhi & _).
      apply (call_other _ _ _ _ _ _ _ _ Hd Ha Hh Hhi). intros E1 E2. by destruct (Hn (Hc _ _ _ _ Hi Hf E2 E1)). }
    exists (λ i, if decide (i = pid) then (learn c r (kn pid).1, locked c r (kn pid).2) else kn i). split; simpl.
    + intros i pi. destruct (decide (i = pid)) as [->|Hn].
      * rewrite lookup_insert_eq. intros [= <-]. split; [apply Hk|]. split; [by eapply call_own|]. by eapply call_locks.
      * rewrite lookup_insert_ne by done. intros Hi. destruct (Hp _ _ Hi) as (Hsi & _ & Hli).
        split; [done|]. split; [by apply (Hother _ _ Hn Hi)|]. intros q Hq. eapply call_locks_other; [done|]. by apply Hli.
    + intros i j pi pj Hi Hj. destruct (decide (i = pid)) as [->|Hni], (decide (j = pid)) as [->|Hnj];
        rewrite ?lookup_insert_ne in * by done; [done| | |by eapply Hc].
      * intros E1 E2. by destruct (proj2 (Hother _ _ Hnj Hj) E1).
      * intros E1 E2. by destruct (proj2 (Hother _ _ Hni Hi) E2).
  - destruct (wo_procs w !! pid) as [pr|] eqn:Hf; [|done]. injection E as <-. exists kn. split; simpl.
    + intros i pi [Hn Hi]%lookup_delete_Some. destruct (Hp _ _ Hi) as (Hs & Hh & Hl). split; [done|].
      split; [by destruct ((kn i).1)|]. intros q Hq. apply map_lookup_filter_Some. split; [by apply Hl|]. simpl. congruence.
    + intros i j pi pj [_ Hi]%lookup_delete_Some [_ Hj]%lookup_delete_Some. by apply (Hc _ _ pi pj).
Qed.

Lemma world_run_inv l w w' kn :
  Forall starts l → world_inv w kn → world_run l w = Some w' → ∃ kn', world_inv w' kn'.
Proof.
  revert w kn. induction l as [|e l IH]; intros w kn Hl Hw; simpl; [intros [= <-]; eauto|].
  apply Forall_cons in Hl as [He Hl]. destruct (world_step e w) as [w1|] eqn:E; [|done]. simpl.
  destruct (world_step_inv _ _ _ _ He Hw E) as [kn1 H1]. by apply (IH w1 kn1).
Qed.

Lemma world_start_inv files : world_inv (world_start files) (λ _, (Nothing, ∅)).
Proof. split; simpl; [intros pid pr H|intros i j pi pj H]; by rewrite lookup_empty in H. Qed.

(** A key that the file holds stays. *)
Lemma world_step_settled e w w' kn k :
  starts e → world_inv w kn → holds (wo_machine w) (Settled k) → world_step e w = Some w' →
  holds (wo_machine w') (Settled k).
Proof.
  intros Hst [Hp Hc] Hk E. destruct e as [pid pr|pid rp|pid]; simpl in E.
  - destruct (wo_procs w !! pid); [done|]. by injection E as <-.
  - destruct (wo_procs w !! pid) as [[|R c kk]|] eqn:Hf; try done.
    destruct (do_call pid rp c (wo_machine w)) as [r m] eqn:Hd. injection E as <-.
    destruct (Hp _ _ Hf) as ([Ha _] & Hh & _). by apply (call_other _ _ _ _ _ _ _ _ Hd Ha Hh Hk).
  - destruct (wo_procs w !! pid); [|done]. by injection E as <-.
Qed.

Lemma world_run_settled l w w' kn k :
  Forall starts l → world_inv w kn → holds (wo_machine w) (Settled k) → world_run l w = Some w' →
  holds (wo_machine w') (Settled k).
Proof.
  revert w kn. induction l as [|e l IH]; intros w kn Hl Hw Hk; simpl; [by intros [= <-]|].
  apply Forall_cons in Hl as [He Hl]. destruct (world_step e w) as [w1|] eqn:E; [|done]. simpl.
  destruct (world_step_inv _ _ _ _ He Hw E) as [kn1 H1]. apply (IH w1 kn1); [done|done|].
  exact (world_step_settled _ _ _ _ _ He Hw Hk E).
Qed.

Lemma world_run_app (l l' : list (world_event A)) w : world_run (l ++ l') w = world_run l w ≫= world_run l'.
Proof. revert w. induction l as [|e l IH]; intros w; simpl; [done|]. destruct (world_step e w); simpl; auto. Qed.
End knowledge.

Arguments Nothing {K}.
Arguments Creating {K}.
Arguments Settled {K} k.
