(* ===== verification/Address.v ===== *)
(** The address a node listens on ([listen_multiaddr] of [apps/fortiq-service/src/main.rs]), with
    the socket addresses of Rust's standard library. *)

From stdpp Require Import pretty.
From S2P Require Import Prelude Text Ticket Config Transfer.

(** ** Addresses ([str::parse::<SocketAddr>], [listen_multiaddr]) *)

Inductive IpAddr := IpV4 (octets : list N) | IpV6 (groups : list N).
Record SocketAddr := mkSocketAddr { sa_ip : IpAddr; sa_port : N }.

Definition hex_digit_value (b : byte) : option N :=
  let n := Byte.to_N b in
  if between 48 57 b then Some (n - 48)
  else if between 97 102 b then Some (n - 87)
  else if between 65 70 b then Some (n - 55) else None.

Definition digit_value (radix : N) (b : byte) : option N :=
  match hex_digit_value b with Some d => if d <? radix then Some d else None | None => None end.

(** The digits at the front, and what follows them. *)
Fixpoint read_digits (radix : N) (l : bytes) : list N * bytes :=
  match l with
  | [] => ([], [])
  | b :: l' =>
      match digit_value radix b with
      | Some d => let '(ds, rest) := read_digits radix l' in (d :: ds, rest)
      | None => ([], l)
      end
  end.

Definition number_of (radix : N) (ds : list N) : N := foldl (λ n d, n * radix + d) 0 ds.

(** A parser takes what it reads from the front, or nothing. *)
Definition Parser (A : Type) : Type := bytes → option (A * bytes).

Definition read_radix (radix : N) (max_digits : option nat) (allow_zero_prefix : bool) (max : N) : Parser N := λ l,
  let '(ds, rest) := read_digits radix l in
  if bool_decide (ds = []) || match max_digits with Some n => (n <? length ds)%nat | None => false end ||
     (negb allow_zero_prefix && bool_decide (head ds = Some 0) && (1 <? length ds)%nat) || (max <? number_of radix ds)
  then None else Some (number_of radix ds, rest).

Definition read_given_char (c : byte) : Parser unit := λ l,
  match l with b :: l => if bool_decide (b = c) then Some (tt, l) else None | [] => None end.

(** What comes after a separator, except at the first place. *)
Definition read_separator {A} (sep : byte) (i : nat) (p : Parser A) : Parser A := λ l,
  match i with 0%nat => p l | S _ => '(_, l) ← read_given_char sep l; p l end.

Definition dot : byte := x2e.
Definition colon_byte : byte := x3a.

Definition read_octet (i : nat) : Parser N := read_separator dot i (read_radix 10 (Some 3%nat) false 255).

Definition read_ipv4_addr : Parser (list N) := λ l,
  '(a, l) ← read_octet 0 l; '(b, l) ← read_octet 1 l; '(c, l) ← read_octet 2 l; '(d, l) ← read_octet 3 l;
  Some ([a; b; c; d], l).

(** [read_groups] on a buffer of [limit] groups, from its [i]th: the groups read, whether they
    end with an IPv4 address, and what follows. *)
Fixpoint read_groups (slots i limit : nat) (l : bytes) : list N * bool * bytes :=
  match slots with
  | O => ([], false, l)
  | S slots =>
      match (if (i <? limit - 1)%nat then read_separator colon_byte i read_ipv4_addr l else None) with
      | Some ([a; b; c; d], l') => ([a * 256 + b; c * 256 + d], true, l')
      | _ =>
          match read_separator colon_byte i (read_radix 16 (Some 4%nat) true (u16_modulus - 1)) l with
          | Some (g, l') => let '(gs, v4, rest) := read_groups slots (S i) limit l' in (g :: gs, v4, rest)
          | None => ([], false, l)
          end
      end
  end.

Definition read_ipv6_addr : Parser (list N) := λ l,
  let '(head, head_ipv4, l) := read_groups 8 0 8 l in
  if (length head =? 8)%nat then Some (head, l) else
  if head_ipv4 then None else
  '(_, l) ← read_given_char colon_byte l; '(_, l) ← read_given_char colon_byte l;
  let limit := (8 - (length head + 1))%nat in
  let '(tail, _, l) := read_groups limit 0 limit l in
  Some ((head ++ replicate (8 - length head - length tail) 0 ++ tail)%list, l).

Definition read_port : Parser N := λ l,
  '(_, l) ← read_given_char colon_byte l; read_radix 10 None true (u16_modulus - 1) l.

Definition read_scope_id : Parser N := λ l,
  '(_, l) ← read_given_char x25 l; read_radix 10 None true (u32_modulus - 1) l.

Definition read_socket_addr : Parser SocketAddr := λ l,
  match ('(ip, l) ← read_ipv4_addr l; '(port, l) ← read_port l; Some (mkSocketAddr (IpV4 ip) port, l)) with
  | Some r => Some r
  | None =>
      '(_, l) ← read_given_char x5b l; '(ip, l) ← read_ipv6_addr l;
      let l := match read_scope_id l with Some (_, l) => l | None => l end in
      '(_, l) ← read_given_char x5d l; '(port, l) ← read_port l; Some (mkSocketAddr (IpV6 ip) port, l)
  end.

Definition parse_socket_addr (s : string) : option SocketAddr :=
  match read_socket_addr (as_bytes s) with Some (a, []) => Some a | _ => None end.

(** The protocols of the address, as they are pushed. *)
Inductive Protocol := Ip4 (octets : list N) | Ip6 (groups : list N) | Udp (port : N) | QuicV1.

Definition listen_multiaddr (value : string) : result string (list Protocol) :=
  let? socket := ok_or (parse_socket_addr value) ("network.listen_quic must be an IP socket address, got " +:+ value) in
  Ok [match sa_ip socket with IpV4 ip => Ip4 ip | IpV6 ip => Ip6 ip end; Udp (sa_port socket); QuicV1].

#[local] Arguments read_octet : simpl never.
#[local] Arguments read_ipv4_addr : simpl never.
#[local] Arguments read_ipv6_addr : simpl never.
#[local] Arguments read_radix : simpl never.
#[local] Arguments read_port : simpl never.
#[local] Arguments read_given_char : simpl never.

(** ** Decimal numbers *)

(** The text of a number is read back, and nothing of what follows. *)
Lemma read_digits_app radix l ds rest :
  read_digits radix l = (ds, []) → match rest with b :: _ => digit_value radix b = None | [] => True end →
  read_digits radix (l ++ rest) = (ds, rest).
Proof.
  revert ds. induction l as [|b l IH]; intros ds Hl Hr; simpl in *.
  - injection Hl as <-. destruct rest as [|b rest]; [done|]. simpl. by rewrite Hr.
  - destruct (digit_value radix b); [|done]. destruct (read_digits radix l) as [ds' r] eqn:E. injection Hl as <- ->.
    by rewrite (IH ds').
Qed.

Lemma number_of_snoc radix ds d : number_of radix (ds ++ [d]) = number_of radix ds * radix + d.
Proof. unfold number_of. by rewrite foldl_app. Qed.

Lemma digit_value_char x : x < 10 → digit_value 10 (Ascii.byte_of_ascii (pretty_N_char x)) = Some x.
Proof.
  intros H. assert (x = 0 ∨ x = 1 ∨ x = 2 ∨ x = 3 ∨ x = 4 ∨ x = 5 ∨ x = 6 ∨ x = 7 ∨ x = 8 ∨ x = 9) as Hx by lia.
  naive_solver.
Qed.

(** What the digits of a number are: none of the first is a zero, and there are few of them. *)
Definition digits_of (x : N) (ds : list N) : Prop :=
  number_of 10 ds = x ∧ head ds ≠ Some 0 ∧ ∀ k : nat, x < 10 ^ N.of_nat k → (length ds ≤ k)%nat.

Lemma digits_of_step x ds : 0 < x → digits_of (x / 10) ds → digits_of x (ds ++ [x mod 10]).
Proof.
  intros Hx (Hn & Hh & Hl). split; [|split].
  - rewrite number_of_snoc, Hn. pose proof (N.div_mod x 10). lia.
  - destruct ds as [|d ds]; [|done]. simpl in Hn. unfold number_of in Hn. simpl in Hn.
    intros [= E]. pose proof (N.div_mod x 10). lia.
  - intros [|k] Hk; [simpl in Hk; lia|]. rewrite length_app. simpl.
    specialize (Hl k). rewrite Nnat.Nat2N.inj_succ, N.pow_succ_r' in Hk.
    assert (x / 10 < 10 ^ N.of_nat k) as H by (apply N.Div0.div_lt_upper_bound; lia). specialize (Hl H). lia.
Qed.

Lemma read_pretty_go x : ∀ s ds, read_digits 10 (as_bytes s) = (ds, []) →
  ∃ pre, read_digits 10 (as_bytes (pretty_N_go x s)) = ((pre ++ ds)%list, []) ∧ digits_of x pre.
Proof.
  induction (N.lt_wf_0 x) as [x _ IH]; intros s ds Hs. destruct (decide (0 < x)) as [Hx|Hx].
  - rewrite pretty_N_go_step by done.
    destruct (IH (x / 10) ltac:(apply N.div_lt; lia) (String (pretty_N_char (x mod 10)) s) (x mod 10 :: ds)) as (pre & E & Hd).
    + change (as_bytes (String (pretty_N_char (x mod 10)) s)) with (Ascii.byte_of_ascii (pretty_N_char (x mod 10)) :: as_bytes s).
      simpl. rewrite digit_value_char by (by apply N.mod_lt). by rewrite Hs.
    + exists (pre ++ [x mod 10]). split; [by rewrite <- app_assoc|]. by apply digits_of_step.
  - assert (x = 0) as -> by lia. rewrite pretty_N_go_0. exists []. split; [done|]. split; [done|]. split; [done|]. simpl. lia.
Qed.

Lemma read_pretty n : ∃ ds, read_digits 10 (as_bytes (pretty n)) = (ds, []) ∧ ds ≠ [] ∧ number_of 10 ds = n ∧
  (head ds = Some 0 → length ds = 1%nat) ∧ ∀ k : nat, (0 < k)%nat → n < 10 ^ N.of_nat k → (length ds ≤ k)%nat.
Proof.
  unfold pretty, pretty_N. case_decide as Hn.
  - subst n. exists [0]. do 4 (split; [done|]). simpl. lia.
  - destruct (read_pretty_go n "" [] eq_refl) as (ds & E & Hv & Hh & Hl). rewrite app_nil_r in E.
    exists ds. split; [done|]. split; [intros ->; by unfold number_of in Hv|]. split; [done|]. split; [by intros Hz|]. auto.
Qed.

Lemma read_radix_pretty max_digits zero max n rest :
  n ≤ max → match max_digits with Some k => (0 < k)%nat ∧ n < 10 ^ N.of_nat k | None => True end →
  match rest with b :: _ => digit_value 10 b = None | [] => True end →
  read_radix 10 max_digits zero max (as_bytes (pretty n) ++ rest) = Some (n, rest).
Proof.
  intros Hn Hk Hr. destruct (read_pretty n) as (ds & E & Hne & Hv & Hz & Hl).
  unfold read_radix. rewrite (read_digits_app _ _ _ _ E Hr), Hv.
  rewrite bool_decide_eq_false_2 by done. rewrite (proj2 (N.ltb_ge _ _) Hn).
  assert (match max_digits with Some k => (k <? length ds)%nat | None => false end = false) as ->.
  { destruct max_digits as [k|]; [|done]. apply Nat.ltb_ge. destruct Hk. auto. }
  simpl. rewrite orb_false_r. case_bool_decide as Hh; [|by rewrite andb_false_r].
  rewrite (Hz Hh). by rewrite andb_false_r.
Qed.

(** ** The address *)

Definition ipv4_text (a b c d port : N) : string :=
  pretty a +:+ "." +:+ pretty b +:+ "." +:+ pretty c +:+ "." +:+ pretty d +:+ ":" +:+ pretty port.

Lemma read_octet_pretty i n rest :
  n ≤ 255 → match rest with b :: _ => digit_value 10 b = None | [] => True end →
  read_octet i ((match i with O => [] | S _ => [dot] end) ++ as_bytes (pretty n) ++ rest) = Some (n, rest).
Proof.
  intros Hn Hr. assert (read_radix 10 (Some 3%nat) false 255 (as_bytes (pretty n) ++ rest) = Some (n, rest)) as E.
  { apply read_radix_pretty; [done| |done]. split; [lia|]. simpl. lia. }
  destruct i as [|i]; unfold read_octet, read_separator; [exact E|]. simpl.
  by rewrite E.
Qed.

Lemma read_radix_max radix max_digits zero max l n rest : read_radix radix max_digits zero max l = Some (n, rest) → n ≤ max.
Proof.
  unfold read_radix. destruct (read_digits radix l) as [ds r]. destruct (_ || _) eqn:E; [done|]. intros [= <- _].
  apply orb_false_iff in E as [_ E]. by apply N.ltb_ge.
Qed.

Lemma read_octet_max i l n rest : read_octet i l = Some (n, rest) → n ≤ 255.
Proof.
  unfold read_octet, read_separator. destruct i; [by apply read_radix_max|].
  destruct (read_given_char dot l) as [[[] l']|]; simpl; [|done]. by apply read_radix_max.
Qed.

Lemma read_ipv4_octets l ip rest : read_ipv4_addr l = Some (ip, rest) → length ip = 4%nat ∧ Forall (λ n, n ≤ 255) ip.
Proof.
  unfold read_ipv4_addr.
  destruct (read_octet 0 l) as [[a l1]|] eqn:Ea; simpl; [|done].
  destruct (read_octet 1 l1) as [[b l2]|] eqn:Eb; simpl; [|done].
  destruct (read_octet 2 l2) as [[c l3]|] eqn:Ec; simpl; [|done].
  destruct (read_octet 3 l3) as [[d l4]|] eqn:Ed; simpl; [|done]. intros [= <- <-].
  split; [done|]. repeat constructor; by eapply read_octet_max.
Qed.

Lemma read_groups_bound slots : ∀ i limit l gs v4 rest, (i + slots = limit)%nat → read_groups slots i limit l = (gs, v4, rest) →
  (length gs ≤ slots)%nat ∧ Forall (λ n, n < u16_modulus) gs.
Proof.
  induction slots as [|slots IH]; intros i limit l gs v4 rest Hi; cbn [read_groups]; [by intros [= <- _ _]|].
  assert (∀ gs v4 rest,
    match read_separator colon_byte i (read_radix 16 (Some 4%nat) true (u16_modulus - 1)) l with
    | Some (g, l') => let '(gs, v4, rest) := read_groups slots (S i) limit l' in (g :: gs, v4, rest)
    | None => ([], false, l)
    end = (gs, v4, rest) → (length gs ≤ S slots)%nat ∧ Forall (λ n, n < u16_modulus) gs) as Hgroup.
  { intros gs' v4' rest'. destruct (read_separator _ _ _ _) as [[g l']|] eqn:Eg; [|intros [= <- _ _]; split; [simpl; lia|done]].
    destruct (read_groups slots (S i) limit l') as [[gs1 v1] r1] eqn:E1. intros [= <- _ _].
    destruct (IH (S i) limit l' gs1 v1 r1) as [Hl Hf]; [lia|done|]. simpl. split; [lia|]. constructor; [|done].
    assert (g ≤ u16_modulus - 1); [|unfold u16_modulus in *; lia]. unfold read_separator in Eg.
    destruct i; [by apply read_radix_max in Eg|].
    destruct (read_given_char colon_byte l) as [[[] l2]|]; simpl in Eg; [|done]. by apply read_radix_max in Eg. }
  destruct (i <? limit - 1)%nat eqn:Hlim; [|exact (Hgroup _ _ _)]. apply Nat.ltb_lt in Hlim.
  destruct (read_separator colon_byte i read_ipv4_addr l) as [[ip l']|] eqn:Ev; [|exact (Hgroup _ _ _)].
  assert (length ip = 4%nat ∧ Forall (λ n, n ≤ 255) ip) as [Hlen Hmax].
  { unfold read_separator in Ev. destruct i; [by apply read_ipv4_octets in Ev|].
    destruct (read_given_char colon_byte l) as [[[] l2]|]; simpl in Ev; [|done]. by apply read_ipv4_octets in Ev. }
  destruct ip as [|a [|b [|c [|d [|e ip]]]]]; try done. intros [= <- _ _]. simpl. split; [lia|].
  rewrite !Forall_cons in Hmax. destruct Hmax as (? & ? & ? & ? & _). unfold u16_modulus. repeat constructor; simpl; lia.
Qed.

Lemma read_ipv6_groups l ip rest : read_ipv6_addr l = Some (ip, rest) → length ip = 8%nat ∧ Forall (λ n, n < u16_modulus) ip.
Proof.
  unfold read_ipv6_addr. destruct (read_groups 8 0 8 l) as [[head v4] l1] eqn:Eh.
  destruct (read_groups_bound 8 0 8 l head v4 l1 eq_refl Eh) as [Hl Hf].
  destruct (length head =? 8)%nat eqn:H8; [intros [= <- _]; by apply Nat.eqb_eq in H8|]. apply Nat.eqb_neq in H8.
  destruct v4; [done|]. destruct (read_given_char _ l1) as [[[] l2]|]; simpl; [|done].
  destruct (read_given_char _ l2) as [[[] l3]|]; simpl; [|done].
  destruct (read_groups (8 - (length head + 1)) 0 _ l3) as [[tail v4'] l4] eqn:Et. intros [= <- _].
  destruct (read_groups_bound _ 0 _ l3 tail v4' l4 (eq_sym (Nat.add_0_l _) ) Et) as [Hl' Hf'].
  rewrite !length_app, length_replicate. split; [lia|]. apply Forall_app. split; [done|]. apply Forall_app. split; [|done].
  apply Forall_replicate. done.
Qed.

Lemma read_port_max l port rest : read_port l = Some (port, rest) → port < u16_modulus.
Proof.
  unfold read_port. destruct (read_given_char colon_byte l) as [[[] l1]|]; simpl; [|done].
  intros H%read_radix_max. unfold u16_modulus in *. lia.
Qed.

Lemma read_socket_addr_ok l ip port rest :
  read_socket_addr l = Some (mkSocketAddr ip port, rest) →
  match ip with
  | IpV4 octets => length octets = 4%nat ∧ Forall (λ n, n ≤ 255) octets
  | IpV6 groups => length groups = 8%nat ∧ Forall (λ n, n < u16_modulus) groups
  end ∧ port < u16_modulus.
Proof.
  unfold read_socket_addr. intros E.
  destruct ('(ip, l) ← read_ipv4_addr l; '(port, l) ← read_port l; Some (mkSocketAddr (IpV4 ip) port, l)) as [r|] eqn:E4.
  - injection E as ->. destruct (read_ipv4_addr l) as [[v4 l1]|] eqn:Ev; simpl in E4; [|done].
    destruct (read_port l1) as [[port' l2]|] eqn:Ep; simpl in E4; [|done]. injection E4 as <- <- <-.
    split; [by eapply read_ipv4_octets|by eapply read_port_max].
  - destruct (read_given_char x5b l) as [[[] l1]|]; simpl in E; [|done].
    destruct (read_ipv6_addr l1) as [[v6 l2]|] eqn:Ev; simpl in E; [|done].
    destruct (read_given_char x5d _) as [[[] l3]|]; simpl in E; [|done].
    destruct (read_port l3) as [[port' l4]|] eqn:Ep; simpl in E; [|done]. injection E as <- <- <-.
    split; [by eapply read_ipv6_groups|by eapply read_port_max].
Qed.

(** An address in the usual form gives the address to listen on, and whatever is accepted
    gives one IP address, one UDP port and QUIC. *)
Theorem listen_multiaddr_correct :
  (∀ a b c d port, a ≤ 255 → b ≤ 255 → c ≤ 255 → d ≤ 255 → port < u16_modulus →
     listen_multiaddr (ipv4_text a b c d port) = Ok [Ip4 [a; b; c; d]; Udp port; QuicV1]) ∧
  (∀ value l, listen_multiaddr value = Ok l →
     ∃ ip port, l = [ip; Udp port; QuicV1] ∧ port < u16_modulus ∧
       match ip with
       | Ip4 octets => length octets = 4%nat ∧ Forall (λ n, n ≤ 255) octets
       | Ip6 groups => length groups = 8%nat ∧ Forall (λ n, n < u16_modulus) groups
       | _ => False
       end).
Proof.
  split.
  - intros a b c d port Ha Hb Hc Hd Hp. unfold listen_multiaddr, parse_socket_addr, ipv4_text. rewrite !as_bytes_app.
    unfold read_socket_addr, read_ipv4_addr.
    change (as_bytes ".") with [dot]. change (as_bytes ":") with [colon_byte].
    pose proof (read_octet_pretty 0 a) as Ea. pose proof (read_octet_pretty 1 b) as Eb.
    pose proof (read_octet_pretty 2 c) as Ec. pose proof (read_octet_pretty 3 d) as Ed. simpl app in *.
    rewrite Ea by done. simpl. rewrite Eb by done. simpl. rewrite Ec by done. simpl. rewrite Ed by done. simpl.
    unfold read_port. simpl. rewrite <- (app_nil_r (as_bytes (pretty port))).
    rewrite read_radix_pretty by (try done; unfold u16_modulus in *; lia). done.
  - intros value l. unfold listen_multiaddr, parse_socket_addr.
    destruct (read_socket_addr (as_bytes value)) as [[[ip port] [|]]|] eqn:E; simpl; try done. intros [= <-].
    destruct (read_socket_addr_ok _ _ _ _ E) as [Hip Hp]. eexists _, port. split; [done|]. split; [done|].
    by destruct ip.
Qed.

Example socket_addresses :
  parse_socket_addr "[::1]:4001" = Some (mkSocketAddr (IpV6 [0; 0; 0; 0; 0; 0; 0; 1]) 4001) ∧
  parse_socket_addr "[fe80::a:0:1.2.3.4%3]:80" = Some (mkSocketAddr (IpV6 [65152; 0; 0; 0; 10; 0; 258; 772]) 80) ∧
  parse_socket_addr "0.0.0.0:04001" = Some (mkSocketAddr (IpV4 [0; 0; 0; 0]) 4001) ∧
  parse_socket_addr "127.0.0.01:4001" = None ∧ parse_socket_addr "127.0.0.256:4001" = None ∧
  parse_socket_addr "127.0.0.1:65536" = None ∧ parse_socket_addr "localhost:4001" = None ∧
  parse_socket_addr "127.0.0.1" = None ∧ parse_socket_addr "127.0.0.1:4001 " = None.
Proof. repeat split. Qed.
