(* ===== verification/Install.v ===== *)
(** Installing the node as a service on Unix ([apps/fortiq-service/src/service_manager.rs]), and
    what the desktop does at its start ([apps/fortiq-desktop/src/{instance_lock,settings}.rs]). *)

From S2P Require Import Prelude Text Stream Config Transfer Service Terminal Machine.

Fixpoint print_lines (l : list string) : prog unit :=
  match l with [] => Ret tt | line :: l => let* _ := do_ (PrintLine line) in print_lines l end.

(** ** Installing the service on Unix ([service_manager.rs]) *)

Definition SERVICE_DESCRIPTION : string :=
  "Peer service providing sovereign remote support and administration via encrypted P2P channels.".

Definition SYSTEMD_UNIT_PATH : string := "/etc/systemd/system/fortiq.service".

Definition exec_start : string := "ExecStart=".

Definition unit_lines (exe_path config_arg : PathBuf) : list string :=
  ["[Unit]"; "Description=" +:+ SERVICE_DESCRIPTION; "After=network.target network-online.target";
   "Wants=network-online.target"; ""; "[Service]"; "Type=simple";
   exec_start +:+ path_display exe_path +:+ " --config " +:+ path_display config_arg;
   "Restart=always"; "RestartSec=5s"; "LimitNOFILE=65536"; "StandardOutput=journal"; "StandardError=journal";
   "RuntimeDirectory=fortiq"; "RuntimeDirectoryMode=0770"; ""; "[Install]"; "WantedBy=multi-user.target"]%string.

Definition unit_content (exe_path config_arg : PathBuf) : bytes :=
  concat ((λ line, as_bytes line ++ [x0a]) <$> unit_lines exe_path config_arg).

Definition systemctl (args : list string) : call (option bool) := Exec "systemctl" args.

(** [exe] is what [current_exe] answers. *)
Definition install_service (exe : option PathBuf) (config_path : option PathBuf) : prog (result string unit) :=
  let*? exe_path := Ret (ok_or exe "Failed to get current executable path") in
  let config_arg := default system_service_default_path config_path in
  let*? _ := or_fail (WriteWhole (path SYSTEMD_UNIT_PATH) (unit_content exe_path config_arg))
    ("Failed to write systemd unit file to " +:+ SYSTEMD_UNIT_PATH +:+ " (root permissions required)") in
  let* _ := do_ (systemctl ["daemon-reload"]%string) in
  let* _ := do_ (systemctl ["enable"; "fortiq"]%string) in
  let* _ := print_lines ["systemd unit installed at " +:+ SYSTEMD_UNIT_PATH;
    "Service enabled. Start with: fortiq-service service start (or systemctl start fortiq)"]%string in
  Ret (Ok tt).

Definition uninstall_service : prog (result string unit) :=
  let* _ := do_ (systemctl ["disable"; "--now"; "fortiq"]%string) in
  let* found := do_ (PathExists (path SYSTEMD_UNIT_PATH)) in
  let*? _ := if (found : bool) then or_fail (RemoveFile (path SYSTEMD_UNIT_PATH)) ("Failed to remove " +:+ SYSTEMD_UNIT_PATH)
             else Ret (Ok tt) in
  let* _ := do_ (systemctl ["daemon-reload"]%string) in
  let* _ := print_lines ["Service uninstalled and systemd unit removed."]%string in
  Ret (Ok tt).

(** [systemctl start] and [systemctl stop]. *)
Definition control_service (verb done : string) : prog (result string unit) :=
  let* status := do_ (systemctl [verb; "fortiq"]%string) in
  match (status : option bool) with
  | None => Ret (Err ("Failed to invoke systemctl " +:+ verb +:+ " fortiq"))
  | Some true => let* _ := do_ (PrintLine ("Service 'fortiq' " +:+ done +:+ ".")) in Ret (Ok tt)
  | Some false => Ret (Err ("systemctl " +:+ verb +:+ " fortiq failed with exit status"))
  end.

Definition start_service : prog (result string unit) := control_service "start" "started".
Definition stop_service : prog (result string unit) := control_service "stop" "stopped".

Definition status_service : prog (result string unit) :=
  let* status := do_ (systemctl ["status"; "fortiq"]%string) in
  Ret (match (status : option bool) with
       | None => Err "Failed to invoke systemctl status fortiq"%string
       | Some _ => Ok tt
       end).

Inductive ServiceAction :=
| SvcInstall (config : option PathBuf)
| SvcUninstall
| SvcStart
| SvcStop
| SvcStatus.

Definition manage_service (exe : option PathBuf) (action : ServiceAction) : prog (result string unit) :=
  match action with
  | SvcInstall config => install_service exe config
  | SvcUninstall => uninstall_service
  | SvcStart => start_service
  | SvcStop => stop_service
  | SvcStatus => status_service
  end.

(** ** The desktop *)

Inductive InstanceLockError := AlreadyRunning | LockIo (p : PathBuf) (source : os_error).

Definition lock_file_path (env : environment) : PathBuf :=
  match env "XDG_RUNTIME_DIR" with
  | Some runtime_dir => path_join (path_of_bytes runtime_dir) (path "fortiq-desktop.lock")
  | None => path_join (temp_dir env) (path "fortiq-desktop.lock")
  end.

Definition InstanceLock_acquire (env : environment) : prog (result InstanceLockError PathBuf) :=
  let p := lock_file_path env in
  let* _ := match path_parent p with
            | Some parent => let* _ := do_ (CreateDirAllOf parent) in Ret tt
            | None => Ret tt
            end in
  let* opened := do_ (OpenOrCreate p) in
  match opened with
  | Err source => Ret (Err (LockIo p source))
  | Ok _ =>
      let* locked := do_ (TryLock p) in
      Ret match locked with
          | Ok _ => Ok p
          | Err WouldBlock => Err AlreadyRunning
          | Err e => Err (LockIo p e)
          end
  end.

Record DesktopSettings := mkDesktopSettings {
  refresh_interval_secs : N;
  theme_mode : string;
  terminal_font_size : N;
  last_ticket_id : option string;
  notifications_enabled : bool;
  daemon_pipe : option string;
  minimize_to_tray : bool
}.

Definition DesktopSettings_default : DesktopSettings := mkDesktopSettings 3 "system" 14 None true None true.

(** [toml] at [DesktopSettings]. *)
Class SettingsToml := {
  settings_from_str : string → option DesktopSettings;
  settings_to_string_pretty : DesktopSettings → option string
}.

Class SettingsTomlLaws `{SettingsToml} : Prop := {
  settings_text s text : settings_to_string_pretty s = Some text →
    settings_from_str text = Some s ∧ utf8_valid (as_bytes text) = true
}.

Section settings.
Context `{ST : SettingsToml}.

Definition settings_path (env : environment) : PathBuf :=
  match env_var env "HOME" with
  | Some home => path_join (path_join (path_join (path home) (path ".config")) (path "fortiq")) (path "desktop.toml")
  | None => path "/etc/fortiq/desktop.toml"
  end.

Definition DesktopSettings_load (env : environment) : prog DesktopSettings :=
  let* content := do_ (ReadFile (settings_path env)) in
  Ret match content with
      | Ok l => match to_str l with
                | Some content => default DesktopSettings_default (settings_from_str content)
                | None => DesktopSettings_default
                end
      | Err _ => DesktopSettings_default
      end.

(** The error of the system, or none when the settings cannot be written as TOML. *)
Definition DesktopSettings_save (env : environment) (s : DesktopSettings) : prog (result (option os_error) unit) :=
  let p := settings_path env in
  let*? _ := match path_parent p with
             | Some parent => let* r := do_ (CreateDirAllOf parent) in Ret (map_err Some r)
             | None => Ret (Ok tt)
             end in
  let*? serialized := Ret (ok_or (settings_to_string_pretty s) None) in
  let* r := do_ (WriteWhole p (as_bytes serialized)) in
  Ret (map_err Some r).
End settings.


(** *** Reaching the service ([apps/fortiq-desktop/src/ipc.rs]) *)

Record IpcClient := mkIpcClient { custom_endpoint : option string; custom_term_endpoint : option string }.

Definition endpoint (env : environment) (c : IpcClient) : string := default (unix_socket_path env) (custom_endpoint c).
Definition terminal_endpoint (env : environment) (c : IpcClient) : string :=
  default (unix_terminal_socket_path env) (custom_term_endpoint c).

(** The copy fails after some bytes, or does not; what it wrote stays. *)
Definition stage_file `{Sha256} (env : environment) (io : staging_io) (uuid : string) (failure : option nat)
    (source : PathBuf) : StateM (gmap PathBuf bytes) IpcClientError PathBuf := λ files,
  match (new_upload_staging_path env io uuid source []).1 with
  | Err e => (Err (IpcIo e), files)
  | Ok staging_path =>
      match files !! source, failure with
      | None, _ => (Err (IpcIo OtherIo), files)
      | Some content, None => (Ok staging_path, <[staging_path := content]> files)
      | Some content, Some n => (Err (IpcIo OtherIo), <[staging_path := take n content]> files)
      end
  end.

(** ** The unit *)

Fixpoint split_lines (l cur : bytes) : list bytes :=
  match l with
  | [] => if bool_decide (cur = []) then [] else [cur]
  | b :: l => if bool_decide (b = x0a) then cur :: split_lines l [] else split_lines l (cur ++ [b])
  end.

(** The commands of a unit file: the words of each [ExecStart] line, which systemd splits at
    white space. *)
Definition unit_commands (content : bytes) : list (list string) :=
  (λ line, split_whitespace (from_bytes (drop (length (as_bytes exec_start)) line))) <$>
  filter (λ line, as_bytes exec_start `prefix_of` line) (split_lines content []).

Lemma split_lines_app line rest cur :
  x0a ∉ line → split_lines (line ++ x0a :: rest) cur = (cur ++ line) :: split_lines rest [].
Proof.
  revert cur. induction line as [|b line IH]; intros cur Hn; simpl.
  - by rewrite app_nil_r.
  - rewrite bool_decide_eq_false_2 by set_solver. rewrite IH by set_solver. by rewrite <- app_assoc.
Qed.

Lemma split_lines_concat lines :
  Forall (λ line, x0a ∉ line) lines → split_lines (concat ((λ line, line ++ [x0a]) <$> lines)) [] = lines.
Proof.
  induction 1 as [|line lines Hl _ IH]; [done|]. rewrite fmap_cons. cbn [concat]. rewrite <- app_assoc. cbn [app].
  rewrite split_lines_app by done. by rewrite IH.
Qed.

Lemma word_no_newline w : is_word w → x0a ∉ w.
Proof. intros [_ Hw] Hin. rewrite Forall_forall in Hw. by specialize (Hw _ Hin). Qed.

Lemma exec_line exe_path config_arg :
  exec_start +:+ path_display exe_path +:+ " --config " +:+ path_display config_arg =
    exec_start +:+ join x20 [path_display exe_path; "--config"%string; path_display config_arg].
Proof.
  apply as_bytes_inj. unfold join. rewrite !as_bytes_app, as_from_bytes. cbn [fmap list_fmap join_bytes]. done.
Qed.

Lemma unit_lines_clean exe_path config_arg :
  is_word (as_bytes (path_display exe_path)) → is_word (as_bytes (path_display config_arg)) →
  Forall (λ line, x0a ∉ line) (as_bytes <$> unit_lines exe_path config_arg).
Proof.
  intros He Hc. apply Forall_fmap. unfold unit_lines. rewrite !Forall_cons.
  repeat split; try (apply (bool_decide_unpack _); reflexivity).
  simpl compose. rewrite !as_bytes_app, !not_elem_of_app. repeat split; try (apply (bool_decide_unpack _); reflexivity);
    by apply word_no_newline.
Qed.

Lemma unit_commands_words exe_path config_arg :
  is_word (as_bytes (path_display exe_path)) → is_word (as_bytes (path_display config_arg)) →
  unit_commands (unit_content exe_path config_arg) = [[path_display exe_path; "--config"%string; path_display config_arg]].
Proof.
  intros He Hc. unfold unit_commands, unit_content.
  replace ((λ line : string, as_bytes line ++ [x0a]) <$> unit_lines exe_path config_arg)
    with ((λ line, line ++ [x0a]) <$> (as_bytes <$> unit_lines exe_path config_arg)) by (by rewrite <- list_fmap_compose).
  rewrite split_lines_concat by (by apply unit_lines_clean). unfold unit_lines. rewrite exec_line. cbn [fmap list_fmap].
  repeat (rewrite filter_cons_False by (apply (bool_decide_unpack _); reflexivity)).
  rewrite filter_cons_True by (rewrite as_bytes_app; by apply prefix_app_r).
  repeat (rewrite filter_cons_False by (apply (bool_decide_unpack _); reflexivity)). rewrite filter_nil. cbn [fmap list_fmap].
  rewrite as_bytes_app, drop_app_length, from_as_bytes, split_whitespace_join; [done|].
  repeat constructor; try apply He; try apply Hc; done.
Qed.

(** ** Properties *)

(** Installing and removing the service. Installing succeeds exactly when the program knows its
    own path and the unit file can be written, whatever systemctl answers; the unit then runs
    this program with the configuration that was given, provided that neither path holds
    white space, which nothing quotes. Only the unit file is written, and a successful
    removal leaves none. *)
Theorem installed_unit_correct pid rps i m exe config :
  (let '(r, m') := run_prog pid rps i (install_service exe config) m in
   let config_arg := default system_service_default_path config in
   (is_ok r = true ↔ is_Some exe ∧ rp_fails (rps i) = false) ∧
   (∀ q, q ≠ path SYSTEMD_UNIT_PATH → mc_files m' !! q = mc_files m !! q) ∧
   ∀ exe_path, exe = Some exe_path → r = Ok tt →
     content_at m' (path SYSTEMD_UNIT_PATH) = Some (unit_content exe_path config_arg) ∧
     (is_word (as_bytes (path_display exe_path)) → is_word (as_bytes (path_display config_arg)) →
      unit_commands (unit_content exe_path config_arg) = [[path_display exe_path; "--config"%string; path_display config_arg]])) ∧
  (let '(r, m') := run_prog pid rps i uninstall_service m in
   (r = Ok tt → content_at m' (path SYSTEMD_UNIT_PATH) = None) ∧
   (is_ok r = false → m' = m)) ∧
  unit_commands (unit_content (path "/usr/bin/fortiq-service") (path "/etc/my node.toml")) =
    [["/usr/bin/fortiq-service"; "--config"; "/etc/my"; "node.toml"]%string].
Proof.
  split; [|split; [|reflexivity]].
  - unfold install_service, or_fail. destruct exe as [exe_path|]; simpl; [|by split; [split; [done|intros [[] _]]|]].
    destruct (rp_fails (rps i)) eqn:Hf; simpl.
    + split; [by split; [|intros [_ ?]]|]. split; [|done]. intros q Hq. destruct (rp_written (rps i)); [|done].
      simpl. by rewrite lookup_insert_ne.
    + split; [split; eauto|]. split; [intros q Hq; by rewrite lookup_insert_ne|].
      intros exe_path' [= <-] _. split; [unfold content_at; simpl; by rewrite lookup_insert_eq|]. apply unit_commands_words.
  - unfold uninstall_service, or_fail. simpl. destruct (mc_files m !! path SYSTEMD_UNIT_PATH) as [f|] eqn:Hu.
    + rewrite bool_decide_eq_true_2 by eauto. simpl. destruct (rp_fails _); simpl; [done|]. rewrite Hu. simpl.
      split; [|done]. intros _. unfold content_at. simpl. by rewrite lookup_delete_eq.
    + rewrite bool_decide_eq_false_2 by (by intros []). simpl. split; [|done]. intros _. unfold content_at. by rewrite Hu.
Qed.

(** The settings of the desktop. What is saved is read back; a file that is missing, that is not
    text or that does not parse gives the default settings; saving leaves the other files as they
    are. *)
Theorem settings_roundtrip `{ST : SettingsToml, STL : !SettingsTomlLaws} env s pid rps i m :
  let '(r, m') := run_prog pid rps i (DesktopSettings_save env s) m in
  (∀ q, q ≠ settings_path env → mc_files m' !! q = mc_files m !! q) ∧
  (r = Ok tt → ∀ pid' rps' i',
    run_prog pid' rps' i' (DesktopSettings_load env) m' =
      (if rp_fails (rps' i') then DesktopSettings_default else s, m')) ∧
  (content_at m (settings_path env) = None → ∀ pid' rps' i',
    run_prog pid' rps' i' (DesktopSettings_load env) m = (DesktopSettings_default, m)).
Proof.
  destruct (run_prog pid rps i (DesktopSettings_save env s) m) as [r m'] eqn:E.
  assert (content_at m (settings_path env) = None → ∀ pid' rps' i',
    run_prog pid' rps' i' (DesktopSettings_load env) m = (DesktopSettings_default, m)) as Hnone.
  { intros Hm pid' rps' i'. simpl. rewrite Hm. by destruct (rp_fails _). }
  unfold DesktopSettings_save in E.
  destruct (run_prog pid rps i match path_parent (settings_path env) with
     | Some parent => let* r := do_ (CreateDirAllOf parent) in Ret (map_err Some r)
     | None => Ret (Ok tt) end m) as [r1 m1] eqn:E1.
  assert (m1 = m) as -> by (destruct (path_parent _); simpl in E1; by injection E1).
  destruct (run_try _ _ _ _ (λ _, let*? serialized := Ret (ok_or (settings_to_string_pretty s) None) in
     let* r := do_ (WriteWhole (settings_path env) (as_bytes serialized)) in Ret (map_err Some r)) _ _ _ E1) as [j Ej].
  rewrite Ej in E. clear Ej E1. destruct r1 as [[]|e]; [|injection E as <- <-; by split].
  unfold try_ in E. simpl in E. destruct (settings_to_string_pretty s) as [text|] eqn:Ht; simpl in E; [|injection E as <- <-; by split].
  destruct (settings_text _ _ Ht) as [Hp Hu]. destruct (rp_fails (rps j)); simpl in E.
  - injection E as <- <-. split; [|by split]. intros q Hq. destruct (rp_written (rps j)); simpl; [by rewrite lookup_insert_ne|done].
  - injection E as <- <-. split; [intros q Hq; simpl; by rewrite lookup_insert_ne|]. split; [|done].
    set (m1 := set_file _ _ _). assert (content_at m1 (settings_path env) = Some (as_bytes text)) as Hc
      by (unfold content_at, m1; simpl; by rewrite lookup_insert_eq).
    intros _ pid' rps' i'. simpl. destruct (rp_fails _); [done|]. rewrite Hc. cbn [ok_or]. unfold to_str.
    by rewrite Hu, from_as_bytes, Hp.
Qed.
