(* ===== verification/Startup.v ===== *)
(** Starting a node ([apps/fortiq-service/src/main.rs]): the instance lock, the identity
    ([fortiq-p2p/src/identity.rs], [fortiq-core/src/identity/peer.rs]), the key of the store, the
    genesis, and what the process does with its arguments, as programs of Machine.v. *)

From stdpp Require Import pretty.
From S2P Require Import Prelude Text Object Concrete Ticket Event Graph GraphSort.
From S2P Require Import Reducer Authority Store Engine EngineRuns Codec Stream Config Shell Mnemonic Wire Sync.
From S2P Require Import Peers Admission Transfer Client Node Service Machine Address Install.

(** ** The instance lock *)

Record host_env := mkHostEnv { he_env : environment; he_root : bool }.

Section lock.
Context `{CC : Crypto, HX : Hex}.

Definition lock_dir (h : host_env) : PathBuf :=
  if he_root h then path "/run/fortiq" else
  match he_env h "XDG_RUNTIME_DIR" with
  | Some runtime_dir => path_join (path_of_bytes runtime_dir) (path "fortiq")
  | None => path_join (temp_dir (he_env h)) (path "fortiq")
  end.

Definition instance_lock_path (h : host_env) (config_path : PathBuf) : PathBuf :=
  let instance_id := hex_encode (vec_to_list (blake3_hash (as_bytes (path_display config_path)))) in
  path_join (lock_dir h) (path ("fortiq-service-" +:+ instance_id +:+ ".lock")).

Definition instance_lock_path_for (h : host_env) (config_path : PathBuf) : prog PathBuf :=
  let* canonical := do_ (Canonicalize config_path) in
  Ret (instance_lock_path h (default config_path canonical)).

(** The lock is kept as long as the process runs. *)
Definition acquire_instance_lock_at (p : PathBuf) : prog (result string unit) :=
  let*? _ := match path_parent p with
             | Some parent => or_fail (CreateDirAllOf parent) ("Failed to create FORTIQ runtime directory " +:+ path_display parent)
             | None => Ret (Ok tt)
             end in
  let*? _ := or_fail (OpenOrCreate p) ("Failed to open instance lock " +:+ path_display p) in
  or_fail (TryLock p) "Another FORTIQ service instance is already running on this operating system".

Definition acquire_instance_lock (h : host_env) (config_path : PathBuf) : prog (result string PathBuf) :=
  let* p := instance_lock_path_for h config_path in
  let*? _ := acquire_instance_lock_at p in
  Ret (Ok p).
End lock.

(** ** Identities *)

(** libp2p's key pairs and their protobuf encoding. *)
Class Keypairs `{Libp2p} := {
  Keypair : Type;
  generate_ed25519 : vec byte 32 → Keypair;
  to_protobuf_encoding : Keypair → option bytes;
  from_protobuf_encoding : bytes → option Keypair;
  keypair_peer_id : Keypair → PeerId
}.

(** An encoding reads back, and no part of it reads as a key: it ends with the key's bytes,
    whose length it gives. *)
Class KeypairsLaws `{Keypairs} : Prop := {
  protobuf_roundtrip k b : to_protobuf_encoding k = Some b → from_protobuf_encoding b = Some k;
  protobuf_prefix k b l : to_protobuf_encoding k = Some b → l `prefix_of` b → l ≠ b → from_protobuf_encoding l = None
}.

Inductive IdentityStatus := Loaded | Generated.

(** [Display] of a multiaddress. *)
Class MultiaddrText := { multiaddr_to_string : list Protocol → string }.

(** What the build fixes: the system and whether it is a Unix, the architecture and the version. *)
Record build := mkBuild { bd_os : string; bd_unix : bool; bd_arch : string; bd_version : string }.

Section identity.
Context `{KP : Keypairs}.

(** [path.parent().filter(|parent| !parent.as_os_str().is_empty())]. *)
Definition create_parent (p : PathBuf) (what : string) : prog (result string unit) :=
  match path_parent p with
  | Some (c :: parent) => or_fail (CreateDirAllOf (c :: parent)) (what +:+ path_display (c :: parent))
  | _ => Ret (Ok tt)
  end.

Definition PRIVATE_MODE : N := 384.

(** On a Unix the file must be new and is private; elsewhere what is there is replaced. *)
Definition write_private_file (unix : bool) (p : PathBuf) (l : bytes) : prog (result string unit) :=
  if unix then
    let*? _ := or_fail (CreateNew p PRIVATE_MODE) ("failed to create identity " +:+ path_display p) in
    or_fail (AppendTo p l) ""
  else or_fail (WriteWhole p l) ("failed to create identity " +:+ path_display p).

Definition invalid_identity : string := "identity file contains an invalid libp2p private key".

Definition load_or_create_identity (unix : bool) (p : PathBuf) : prog (result string (Keypair * IdentityStatus)) :=
  let* read := do_ (ReadFile p) in
  match read with
  | Ok bytes => Ret (let? keypair := ok_or (from_protobuf_encoding bytes) invalid_identity in Ok (keypair, Loaded))
  | Err NotFound =>
      let* random := do_ RandomBytes in
      let keypair := generate_ed25519 random in
      let*? encoded := Ret (ok_or (to_protobuf_encoding keypair) "failed to encode generated identity") in
      let*? _ := create_parent p "failed to create " in
      let*? _ := write_private_file unix p encoded in
      Ret (Ok (keypair, Generated))
  | Err _ => Ret (Err ("failed to read identity " +:+ path_display p))
  end.
End identity.

(** The identity of [fortiq-core]: a raw seed, which the service does not use. *)
Definition NodeIdentity_load_or_create `{Crypto} (p : PathBuf) : prog (result string (Ed25519Signer * IdentityStatus)) :=
  let* read := do_ (ReadFile p) in
  match read with
  | Ok bytes =>
      Ret (if (length bytes <? 32)%nat then Err "identity file is too short (must be at least 32 bytes)"
           else Ok (Ed25519Signer_from_bytes (vec32_of (take 32 bytes)), Loaded))
  | Err NotFound =>
      let*? _ := create_parent p "failed to create dir " in
      let* random_bytes := do_ RandomBytes in
      let generated_signer := Ed25519Signer_from_bytes random_bytes in
      let*? _ := or_fail (WriteWhole p (vec_to_list random_bytes)) ("failed to write identity " +:+ path_display p) in
      Ret (Ok (generated_signer, Generated))
  | Err _ => Ret (Err ("failed to read identity " +:+ path_display p))
  end.

(** ** The ticket store and the genesis *)

Section start.
Context `{CC : Crypto, HX : Hex, LP : Libp2p, KP : !Keypairs, TM : Toml, CG : Cbor Genesis, MT : MultiaddrText}.

Definition node_key_path (root : PathBuf) : PathBuf := path_join root (path "node.key").

Definition store_error : string := "Failed to open persistent ticket database".

(** The signer of [TicketEngine::try_new]: what is not written is not reported. *)
Definition open_store_key (root : PathBuf) : prog (result string Ed25519Signer) :=
  let key_file := node_key_path root in
  let* found := do_ (PathExists key_file) in
  if (found : bool) then
    let*? bytes := or_fail (ReadFile key_file) store_error in
    if (32 <=? length bytes)%nat then Ret (Ok (Ed25519Signer_from_bytes (vec32_of (take 32 bytes)))) else
    let* random := do_ RandomBytes in
    let s := Ed25519Signer_generate random in
    let* _ := do_ (WriteWhole key_file (vec_to_list (Ed25519Signer_to_bytes s))) in
    Ret (Ok s)
  else
    let* random := do_ RandomBytes in
    let s := Ed25519Signer_generate random in
    let* _ := do_ (CreateDirAllOf root) in
    let* _ := do_ (WriteWhole key_file (vec_to_list (Ed25519Signer_to_bytes s))) in
    Ret (Ok s).

(** [TicketDb::try_new]: the rest of opening is [engine_open] of Engine.v, which answers [opens]. *)
Definition open_ticket_db (root : PathBuf) (opens : bool) : prog (result string Ed25519Signer) :=
  let*? s := open_store_key root in
  Ret (if opens then Ok s else Err store_error).

Definition load_canonical_genesis (config : Config) : prog (result string (option Genesis)) :=
  let p := genesis_path config in
  let* read := do_ (ReadFile p) in
  Ret match read with
      | Ok bytes =>
          let? genesis := map_err (λ _, "Failed to decode Genesis " +:+ path_display p)
            (from_canonical_cbor bytes LIMITS_CONTROL) in
          let? _ := map_err (λ _, "Failed to verify Genesis " +:+ path_display p) (Genesis_verify genesis) in
          Ok (Some genesis)
      | Err NotFound => Ok None
      | Err _ => Err ("Failed to read Genesis " +:+ path_display p)
      end.

(** ** The service *)

(** What the event loop ([RunOptions], [local_info]) and the local interface ([IpcState]) are
    given, and the lock that is held. *)
Record Started := mkStarted {
  st_config : Config;
  st_lock : PathBuf;
  st_keypair : Keypair;
  st_signer : Ed25519Signer;
  st_listen : list Protocol;
  st_info : NodeInfo;
  st_host : service_host;
  st_session : option ActiveOperatorSession;
  st_dial : option Multiaddr;
  st_shell_peer : option PeerId;
  st_shell_command : option string
}.

Definition local_info (b : build) (config : Config) (keypair : Keypair) : NodeInfo :=
  let info := NodeInfo_local (bd_os b) (bd_arch b) (bd_version b) (keypair_peer_id keypair) (nc_name (cfg_node config)) in
  mkNodeInfo (ni_peer_id info) (ni_name info) (ni_os info) (ni_arch info) (ni_version info)
    (cc_relay (cfg_capabilities config)) (cc_rendezvous (cfg_capabilities config)).

Definition ipc_state (b : build) (config : Config) (keypair : Keypair) (genesis : option Genesis)
    (listen_address : list Protocol) : service_host :=
  mkHost (keypair_peer_id keypair) (bd_version b) [multiaddr_to_string listen_address] true
    (bootstrap_peer (cfg_network config)) genesis (ticket_path config).

Definition started (b : build) (config : Config) (lock : PathBuf) (keypair : Keypair) (signer : Ed25519Signer)
    (genesis : option Genesis) (listen_address : list Protocol)
    (dial : option Multiaddr) (shell : option PeerId) (command : option string) : Started :=
  mkStarted config lock keypair signer listen_address (local_info b config keypair)
    (ipc_state b config keypair genesis listen_address) None dial shell command.

(** What a process was started with: the file of the configuration as it is read, and what
    opening the store answers, with what its [get] answers then. *)
Record start_args := mkStartArgs {
  sa_host : host_env;
  sa_config_path : PathBuf;
  sa_contents : option string;
  sa_db_opens : bool;
  sa_ticket : option (string * TicketState)
}.

Definition config_failed : string := "Failed to load the configuration".

Definition load_config (a : start_args) : result string Config :=
  map_err (λ _, config_failed) (Config_load (sa_contents a)).

Definition run_daemon (b : build) (a : start_args) : prog (result string Started) :=
  let*? config := Ret (load_config a) in
  let*? lock := acquire_instance_lock (sa_host a) (sa_config_path a) in
  let*? signer := open_ticket_db (ticket_path config) (sa_db_opens a) in
  let*? (keypair, _) := load_or_create_identity (bd_unix b) (ic_path (cfg_identity config)) in
  let*? genesis := load_canonical_genesis config in
  let*? listen_address := Ret (listen_multiaddr (listen_quic (cfg_network config))) in
  Ret (Ok (started b config lock keypair signer genesis listen_address None None None)).

(** [Action::Ticket] has one action, its status. *)
Inductive Action := ActTicketStatus | ActService (action : ServiceAction).

Record Args := mkArgs {
  ag_config : option PathBuf;
  ag_dial : option Multiaddr;
  ag_shell : option PeerId;
  ag_shell_command : option string;
  ag_service_run : bool;
  ag_action : option Action
}.

Definition line_feed_text : string := from_bytes [x0a].

Definition identity_lines (version : string) (config : Config) (keypair : Keypair) (status : IdentityStatus) : list string :=
  ["FORTIQ " +:+ version +:+ line_feed_text; "Local PeerId:" +:+ line_feed_text +:+ peer_id_to_string (keypair_peer_id keypair) +:+ line_feed_text;
   "Identity: " +:+ match status with Generated => "generated" | Loaded => "loaded" end +:+
     " (" +:+ path_display (ic_path (cfg_identity config)) +:+ ")" +:+ line_feed_text] ++
  (if cc_rendezvous (cfg_capabilities config) then ["Rendezvous capability: ENABLED" +:+ line_feed_text] else []) ++
  (if cc_relay (cfg_capabilities config) then ["Circuit Relay v2 capability: ENABLED" +:+ line_feed_text] else []).

(** [None]: the command is done, and no service runs. *)
Definition async_main (b : build) (args : Args) (a : start_args) : prog (result string (option Started)) :=
  let*? config := Ret (load_config a) in
  let*? genesis := load_canonical_genesis config in
  let*? signer := open_ticket_db (ticket_path config) (sa_db_opens a) in
  match ag_action args with
  | Some ActTicketStatus =>
      let* _ := do_ (PrintLine match sa_ticket a with
                               | Some (i, state) => "Ticket " +:+ i +:+ ": " +:+ TicketState_as_str state
                               | None => "No ticket"
                               end) in
      Ret (Ok None)
  | _ =>
      let*? lock := acquire_instance_lock (sa_host a) (sa_config_path a) in
      let*? (keypair, identity_status) := load_or_create_identity (bd_unix b) (ic_path (cfg_identity config)) in
      let* _ := print_lines (identity_lines (bd_version b) config keypair identity_status) in
      let*? listen_address := Ret (listen_multiaddr (listen_quic (cfg_network config))) in
      Ret (Ok (Some (started b config lock keypair signer genesis listen_address
        (ag_dial args) (ag_shell args) (ag_shell_command args))))
  end.
End start.

(** ** The process *)

Section main.
Context `{CC : Crypto, HX : Hex, LP : Libp2p, KP : !Keypairs, TM : Toml, CG : Cbor Genesis, MT : MultiaddrText}.

Definition main_config_path (env : environment) (exists_ : PathBuf → bool) (args : Args) : PathBuf :=
  default (resolve_default_path env exists_) (ag_config args).

Definition fortiq_main (b : build) (exe : option PathBuf) (args : Args) (a : start_args)
    : prog (result string (option Started)) :=
  if ag_service_run args then let*? st := run_daemon b a in Ret (Ok (Some st)) else
  match ag_action args with
  | Some (ActService action) => let*? _ := manage_service exe action in Ret (Ok None)
  | _ => async_main b args a
  end.
End main.

(** ** What a start knows *)

Section start_sound.
Context `{CC : Crypto, HX : Hex, LP : Libp2p, KP : !Keypairs, KPL : !KeypairsLaws, TM : Toml, CG : Cbor Genesis, MT : MultiaddrText}.
Context (p : PathBuf).

Definition encoded_key (b : bytes) : Prop := ∃ k, to_protobuf_encoding k = Some b.

Abbreviation knows := (knowledge (K := Keypair)).
Abbreviation sound_ := (sound p from_protobuf_encoding encoded_key).
Implicit Types (s : knows) (H : gset PathBuf).

Lemma sound_try {E A B} Q s H (m : prog (result E A)) (k : A → prog (result E B)) :
  sound_ (λ s H r, match r with Ok a => sound_ Q s H (k a) | Err e => Q s H (Err e) end) s H m →
  sound_ Q s H (try_ m k).
Proof. intros Hm. apply sound_bind. eapply sound_mono; [|exact Hm]. by intros s' H' [a|e]. Qed.

(** A program that neither learns nor loses anything. *)
Definition quiet_prog {A} (m : prog A) : Prop := ∀ s H, sound_ (λ s' H' _, s' = s ∧ H' = H) s H m.

Lemma quiet_sound {A} Q s H (m : prog A) : quiet_prog m → (∀ a, Q s H a) → sound_ Q s H m.
Proof. intros Hm HQ. eapply sound_mono; [|apply Hm]. intros s' H' a [-> ->]. apply HQ. Qed.

Lemma quiet_try {E A B} (m : prog (result E A)) (k : A → prog (result E B)) :
  quiet_prog m → (∀ a, quiet_prog (k a)) → quiet_prog (try_ m k).
Proof. intros Hm Hk s H. apply sound_try, quiet_sound; [done|]. intros [a|e]; [apply Hk|done]. Qed.

Lemma quiet_bind {A B} (m : prog A) (k : A → prog B) :
  quiet_prog m → (∀ a, quiet_prog (k a)) → quiet_prog (prog_bind m k).
Proof. intros Hm Hk s H. apply sound_bind, quiet_sound; [done|]. intros a. apply Hk. Qed.

Lemma quiet_ret {A} (a : A) : quiet_prog (Ret a).
Proof. by split. Qed.

(** Calls that do not concern the file. *)
Definition quiet_call {R : Set} (c : call R) : Prop :=
  match c with
  | CreateNew q _ | AppendTo q _ | OpenOrCreate q | WriteWhole q _ | RemoveFile q | ReadFile q => q ≠ p
  | TryLock _ => False
  | _ => True
  end.

Lemma quiet_allowed {R : Set} (c : call R) s : quiet_call c → allowed p encoded_key c s.
Proof. by destruct c. Qed.

Lemma quiet_learn {R : Set} (c : call R) s r H :
  quiet_call c → learn p from_protobuf_encoding c r s = s ∧ locked c r H = H.
Proof. destruct c; simpl; intros Hq; rewrite ?bool_decide_eq_false_2 by done; done. Qed.

Lemma quiet_ask {A} {R : Set} (c : call R) (k : R → prog A) : quiet_call c → (∀ r, quiet_prog (k r)) → quiet_prog (Ask c k).
Proof.
  intros Hc Hk s H. simpl. split; [by apply quiet_allowed|]. intros r. destruct (quiet_learn c s r H Hc) as [-> ->]. apply Hk.
Qed.

Lemma quiet_do {R : Set} (c : call R) : quiet_call c → quiet_prog (do_ c).
Proof. intros Hc. apply quiet_ask; [done|]. intros r. apply quiet_ret. Qed.

Lemma quiet_or_fail {E} {R : Set} (c : call (os_result R)) (e : E) : quiet_call c → quiet_prog (or_fail c e).
Proof. intros Hc. apply quiet_ask; [done|]. intros r. apply quiet_ret. Qed.

Create HintDb quiet.
Hint Extern 1 (quiet_call _) => (simpl; done) : quiet.
Hint Resolve quiet_ret quiet_try quiet_bind quiet_do quiet_or_fail : quiet.

Lemma quiet_print l : quiet_prog (print_lines l).
Proof. induction l as [|x l IH]; [apply quiet_ret|]. apply quiet_bind; [by apply quiet_do|done]. Qed.

Lemma quiet_store_key root : node_key_path root ≠ p → quiet_prog (open_store_key root).
Proof.
  intros Hn. unfold open_store_key. apply quiet_bind; [by apply quiet_do|]. intros [].
  - apply quiet_try; [by apply quiet_or_fail|]. intros l. destruct (_ <=? _)%nat; auto with quiet.
  - auto 10 with quiet.
Qed.

Lemma quiet_open_db root opens : node_key_path root ≠ p → quiet_prog (open_ticket_db root opens).
Proof. intros Hn. apply quiet_try; [by apply quiet_store_key|]. intros x. apply quiet_ret. Qed.

Lemma quiet_manage exe action : path SYSTEMD_UNIT_PATH ≠ p → quiet_prog (manage_service exe action).
Proof.
  intros Hn. destruct action as [config| | | |]; simpl.
  - unfold install_service. apply quiet_try; [apply quiet_ret|]. intros exe_path.
    apply quiet_try; [by apply quiet_or_fail|]. intros _. do 2 (apply quiet_bind; [by apply quiet_do|]; intros _).
    apply quiet_bind; [apply quiet_print|]. intros _. apply quiet_ret.
  - unfold uninstall_service. apply quiet_bind; [by apply quiet_do|]. intros _. apply quiet_bind; [by apply quiet_do|].
    intros found. apply quiet_try; [destruct found; [by apply quiet_or_fail|apply quiet_ret]|]. intros _.
    apply quiet_bind; [by apply quiet_do|]. intros _. apply quiet_bind; [apply quiet_print|]. intros _. apply quiet_ret.
  - apply quiet_bind; [by apply quiet_do|]. intros [[]|]; auto with quiet.
  - apply quiet_bind; [by apply quiet_do|]. intros [[]|]; auto with quiet.
  - apply quiet_bind; [by apply quiet_do|]. intros r. apply quiet_ret.
Qed.

Lemma quiet_genesis config : genesis_path config ≠ p → quiet_prog (load_canonical_genesis config).
Proof. intros Hn. apply quiet_bind; [by apply quiet_do|]. intros r. apply quiet_ret. Qed.

Lemma lock_sound Q s H h config_path :
  (∀ c, instance_lock_path h c ≠ p) → (∀ e, Q s H (Err e)) →
  (∀ q, Q s ({[q]} ∪ H) (Ok q)) → sound_ Q s H (acquire_instance_lock h config_path).
Proof.
  intros Hp He Hq. unfold acquire_instance_lock, instance_lock_path_for. simpl. split; [done|]. intros canonical.
  set (q := instance_lock_path h (default config_path canonical)). apply sound_try.
  unfold acquire_instance_lock_at. apply sound_try. apply quiet_sound.
  { destruct (path_parent q); auto with quiet. }
  intros [[]|e]; [|apply He]. simpl. split; [apply Hp|]. intros [[]|e]; simpl; [|apply He].
  split; [done|]. intros [[]|e]; simpl; [apply Hq|apply He].
Qed.

(** With its own path a program that loads the identity ends up knowing it. *)
Lemma identity_sound unix Q s H q :
  (q = p → unix = true) →
  (∀ s' e, Q s' H (Err e)) → (q ≠ p → ∀ k status, Q s H (Ok (k, status))) →
  (q = p → s = Nothing → ∀ k status, Q (Settled k) H (Ok (k, status))) → s = Nothing →
  sound_ Q s H (load_or_create_identity unix q).
Proof.
  intros Hu He Hn Hs Es. subst s. unfold load_or_create_identity. simpl. split; [done|]. intros read.
  destruct (decide (q = p)) as [->|Hq].
  - rewrite (Hu eq_refl). rewrite bool_decide_eq_true_2 by done. destruct read as [b|[]]; simpl; try apply He.
    + destruct (from_protobuf_encoding b) as [k|]; simpl; [by apply Hs|apply He].
    + split; [done|]. intros random. destruct (to_protobuf_encoding (generate_ed25519 random)) as [b|] eqn:Hb; apply sound_try; simpl; [|apply He].
      apply sound_try, quiet_sound; [unfold create_parent; destruct (path_parent p) as [[]|]; auto with quiet|].
      intros [[]|e]; [|apply He]. apply sound_try, sound_try. simpl. split; [done|]. intros [[]|e]; simpl; [|rewrite andb_false_r; apply He].
      rewrite bool_decide_eq_true_2 by done. simpl. split; [intros _; split; [done|by eexists]|].
      intros [[]|e]; simpl; [|apply He]. rewrite (protobuf_roundtrip _ _ Hb). by apply Hs.
  - rewrite bool_decide_eq_false_2 by done. destruct read as [b|[]]; simpl; try apply He.
    + destruct (from_protobuf_encoding b) as [k|]; simpl; [by apply Hn|apply He].
    + split; [done|]. intros random. destruct (to_protobuf_encoding (generate_ed25519 random)) as [b|] eqn:Hb; apply sound_try; simpl; [|apply He].
      apply sound_try, quiet_sound; [unfold create_parent; destruct (path_parent q) as [[]|]; auto with quiet|].
      intros [[]|e]; [|apply He]. apply sound_try, quiet_sound; [|intros [[]|e]; [by apply Hn|apply He]].
      unfold write_private_file. destruct unix; auto with quiet.
Qed.

(** What is known of a service that runs. *)
Definition start_known s H (r : result string (option Started)) : Prop :=
  ∀ st, r = Ok (Some st) →
    st_lock st ∈ H ∧ (ic_path (cfg_identity (st_config st)) = p → s = Settled (st_keypair st)).

(** The file is no lock, no unit file, and neither the key of the store nor the genesis of
    this configuration; nor its identity, unless this is a Unix. *)
Definition apart (b : build) (a : start_args) : Prop :=
  (∀ c, instance_lock_path (sa_host a) c ≠ p) ∧ path SYSTEMD_UNIT_PATH ≠ p ∧
  ∀ config, load_config a = Ok config →
    node_key_path (ticket_path config) ≠ p ∧ genesis_path config ≠ p ∧
    (ic_path (cfg_identity config) = p → bd_unix b = true).

Lemma known_Err s H e : start_known s H (Err e).
Proof. by intros st. Qed.

Lemma known_None s H : start_known s H (Ok None).
Proof. by intros st. Qed.

Hint Resolve known_Err known_None : quiet.

Lemma daemon_sound b a : apart b a →
  sound_ (λ s H r, start_known s H (let? st := r in Ok (Some st))) Nothing ∅ (run_daemon b a).
Proof.
  intros (Hl & _ & Hk). unfold run_daemon. apply sound_try.
  destruct (load_config a) as [config|] eqn:Hc; cbn [sound]; [|auto with quiet]. destruct (Hk _ eq_refl) as (Hk1 & Hk2 & Hk3).
  apply sound_try, lock_sound; [done|auto with quiet|]. intros lock.
  apply sound_try, quiet_sound; [by apply quiet_open_db|]. intros [signer|]; [|auto with quiet].
  apply sound_try, identity_sound; [exact Hk3|auto with quiet| | |done].
  - intros Hn k status. apply sound_try, quiet_sound; [by apply quiet_genesis|]. intros [genesis|]; [|auto with quiet].
    apply sound_try. simpl. destruct (listen_multiaddr _); [|auto with quiet]. intros st [= <-]. simpl. split; [set_solver|]. by intros E.
  - intros _ _ k status. apply sound_try, quiet_sound; [by apply quiet_genesis|]. intros [genesis|]; [|auto with quiet].
    apply sound_try. simpl. destruct (listen_multiaddr _); [|auto with quiet]. intros st [= <-]. simpl. split; [set_solver|done].
Qed.

Lemma async_main_sound b args a : apart b a → sound_ start_known Nothing ∅ (async_main b args a).
Proof.
  intros (Hl & _ & Hk). unfold async_main. apply sound_try.
  destruct (load_config a) as [config|] eqn:Hc; cbn [sound]; [|auto with quiet]. destruct (Hk _ eq_refl) as (Hk1 & Hk2 & Hk3).
  apply sound_try, quiet_sound; [by apply quiet_genesis|]. intros [genesis|]; [|auto with quiet].
  apply sound_try, quiet_sound; [by apply quiet_open_db|]. intros [signer|]; [|auto with quiet].
  assert (∀ s H version config k status Q,
    (∀ s' H', s' = s → H' = H → Q s' H' tt) → sound_ Q s H (print_lines (identity_lines version config k status))) as Hprint
    by (intros ??????? HQ; apply quiet_sound; [apply quiet_print|intros []; by apply HQ]).
  assert (sound_ start_known Nothing ∅
    (let*? lock := acquire_instance_lock (sa_host a) (sa_config_path a) in
     let*? (keypair, identity_status) := load_or_create_identity (bd_unix b) (ic_path (cfg_identity config)) in
     let* _ := print_lines (identity_lines (bd_version b) config keypair identity_status) in
     let*? listen_address := Ret (listen_multiaddr (listen_quic (cfg_network config))) in
     Ret (Ok (Some (started b config lock keypair signer genesis listen_address
       (ag_dial args) (ag_shell args) (ag_shell_command args)))))) as Hmain.
  { apply sound_try, lock_sound; [done|auto with quiet|]. intros lock.
    apply sound_try, identity_sound; [exact Hk3|auto with quiet| | |done].
    - intros Hn k status. apply sound_bind, Hprint. intros ? ? -> ->. apply sound_try. simpl.
      destruct (listen_multiaddr _); [|auto with quiet]. intros st [= <-]. simpl. split; [set_solver|]. by intros E.
    - intros _ _ k status. apply sound_bind, Hprint. intros ? ? -> ->. apply sound_try. simpl.
      destruct (listen_multiaddr _); [|auto with quiet]. intros st [= <-]. simpl. split; [set_solver|done]. }
  destruct (ag_action args) as [[|]|]; [|exact Hmain..].
  simpl. split; [done|]. intros _. apply known_None.
Qed.

Lemma main_sound b exe args a : apart b a → sound_ start_known Nothing ∅ (fortiq_main b exe args a).
Proof.
  intros Ha. unfold fortiq_main. destruct (ag_service_run args).
  - apply sound_try. eapply sound_mono; [|by apply daemon_sound]. by intros s H [st|e].
  - destruct (ag_action args) as [[|action]|] eqn:Hact; [by apply async_main_sound| |by apply async_main_sound].
    apply sound_try, quiet_sound; [apply quiet_manage; apply Ha|]. intros [[]|e]; cbn [sound]; auto with quiet.
Qed.
End start_sound.

(** ** Properties *)

Section services.
Context `{CC : Crypto, HX : Hex, LP : Libp2p, KP : !Keypairs, KPL : !KeypairsLaws, TM : Toml, CG : Cbor Genesis, MT : MultiaddrText}.

(** Any processes of the program, started, stopped or killed at any time. *)
Definition main_event (p : PathBuf) (e : world_event (result string (option Started))) : Prop :=
  match e with
  | EvSpawn pid pr => ∃ b exe args a, pr = fortiq_main b exe args a ∧ apart p b a
  | _ => True
  end.

Definition runs (w : World (result string (option Started))) (pid : nat) (st : Started) : Prop :=
  returned w pid (Ok (Some st)).

Abbreviation inv p := (world_inv p from_protobuf_encoding encoded_key (start_known p)).

Lemma main_starts p l : Forall (main_event p) l → Forall (starts p from_protobuf_encoding encoded_key (start_known p)) l.
Proof.
  intros Hl. eapply Forall_impl; [exact Hl|]. intros [pid pr| |]; simpl; [|done..].
  intros (b & exe & args & a & -> & Ha). by apply main_sound.
Qed.

Lemma key_prefix l b : encoded_key b → l `prefix_of` b → l ≠ b → from_protobuf_encoding l = None.
Proof. intros [k Hk]. by apply protobuf_prefix with (k := k). Qed.

Lemma main_run_inv p files l w :
  Forall (main_event p) l → world_run l (world_start files) = Some w → ∃ kn, inv p w kn.
Proof.
  intros Hl E. exact (world_run_inv p _ _ key_prefix _ _ _ _ _ (main_starts _ _ Hl) (world_start_inv _ _ _ _ _) E).
Qed.

(** C21. One service runs with an instance lock. Over any interleaving of the system calls of any
    processes, with any failures, and whatever is killed, two services that run at the same
    time hold different locks; each holds its own. *)
Theorem instance_lock_exclusive p files l w i j si sj :
  Forall (main_event p) l → world_run l (world_start files) = Some w →
  runs w i si → runs w j sj →
  mc_locks (wo_machine w) !! st_lock si = Some i ∧ (st_lock si = st_lock sj → i = j).
Proof.
  intros Hl E Hi Hj. destruct (main_run_inv _ _ _ _ Hl E) as [kn [Hp _]].
  assert (∀ i si, runs w i si → mc_locks (wo_machine w) !! st_lock si = Some i) as Hlock.
  { intros i0 s0 H0. destruct (Hp _ _ H0) as (Hs & _ & Hq). apply Hq. by apply Hs. }
  split; [by apply Hlock|]. intros Hlk. pose proof (Hlock _ _ Hi) as H1. pose proof (Hlock _ _ Hj) as H2.
  rewrite Hlk in H1. congruence.
Qed.

(** C20. On a Unix a node keeps its identity. Every service that ever runs with an identity file has the key
    that the file holds, however many start at once while it does not exist yet and wherever
    they fail or are killed: only one of them makes it, and no other one starts with a key
    that is not kept. (Elsewhere it can be lost: [identity_race] of StartupRuns.v.) *)
Theorem node_identity_kept p files l l' w w' i j si sj :
  Forall (main_event p) l → Forall (main_event p) l' →
  world_run l (world_start files) = Some w → world_run l' w = Some w' →
  runs w i si → runs w' j sj → ic_path (cfg_identity (st_config si)) = p → ic_path (cfg_identity (st_config sj)) = p →
  st_keypair sj = st_keypair si ∧
  ∃ b, content_at (wo_machine w') p = Some b ∧ from_protobuf_encoding b = Some (st_keypair si).
Proof.
  intros Hl Hl' E E' Hi Hj Hpi Hpj. destruct (main_run_inv _ _ _ _ Hl E) as [kn Hw].
  assert (holds p from_protobuf_encoding (wo_machine w) (Settled (st_keypair si))) as Hk.
  { destruct (wi_procs _ _ _ _ _ _ Hw _ _ Hi) as (Hs & Hh & _). destruct (Hs si eq_refl) as [_ Ek]. by rewrite <- (Ek Hpi). }
  pose proof (world_run_settled p _ _ key_prefix _ _ _ _ _ _ (main_starts _ _ Hl') Hw Hk E') as Hk'.
  destruct Hk' as (b & Hb & Hd). split; [|eauto].
  destruct (world_run_inv p _ _ key_prefix _ _ _ _ _ (main_starts _ _ Hl') Hw E') as [kn' Hw'].
  destruct (wi_procs _ _ _ _ _ _ Hw' _ _ Hj) as (Hs & Hh & _). destruct (Hs sj eq_refl) as [_ Ek]. rewrite (Ek Hpj) in Hh.
  destruct Hh as (b' & Hb' & Hd'). congruence.
Qed.

(** ** One start *)

Lemma load_present unix pid rps i p m b :
  content_at m p = Some b →
  run_prog pid rps i (load_or_create_identity unix p) m =
    (if rp_fails (rps i) then Err ("failed to read identity " +:+ path_display p)
     else match from_protobuf_encoding b with Some k => Ok (k, Loaded) | None => Err invalid_identity end, m).
Proof.
  intros Hb. unfold load_or_create_identity. simpl. rewrite Hb. destruct (rp_fails (rps i)); [done|]. simpl.
  by destruct (from_protobuf_encoding b).
Qed.

(** Creating the directory leaves the files. *)
Lemma run_create_parent pid rps i p what m : (run_prog pid rps i (create_parent p what) m).2 = m.
Proof. unfold create_parent. by destruct (path_parent p) as [[|c l]|]. Qed.

Lemma run_write_private unix pid rps i p l m :
  mc_files m !! p = None →
  let '(r, m') := run_prog pid rps i (write_private_file unix p l) m in
  (∀ q, q ≠ p → mc_files m' !! q = mc_files m !! q) ∧
  match r with
  | Ok _ => mc_files m' !! p = Some (mkFile (if unix then PRIVATE_MODE else DEFAULT_MODE) l)
  | Err _ => m' = m ∨ ∃ l', l' `prefix_of` l ∧ content_at m' p = Some l'
  end.
Proof.
  intros Hn. unfold write_private_file. destruct unix; simpl; (destruct (rp_fails (rps i)); simpl).
  - by split; [|left].
  - rewrite Hn. simpl. rewrite lookup_insert_eq. destruct (rp_fails (rps (S i))); simpl.
    + split; [intros q Hq; by rewrite !lookup_insert_ne by done|]. right. eexists. split; [apply prefix_take|].
      unfold content_at. simpl. by rewrite lookup_insert_eq.
    + split; [intros q Hq; by rewrite !lookup_insert_ne by done|]. apply lookup_insert_eq.
  - destruct (rp_written (rps i)) as [n|]; [|by split; [|left]].
    split; [intros q Hq; by apply lookup_insert_ne|]. right. exists (take n l). split; [apply prefix_take|].
    unfold content_at. simpl. by rewrite lookup_insert_eq.
  - split; [intros q Hq; by apply lookup_insert_ne|]. rewrite lookup_insert_eq. unfold opened_file. by rewrite Hn.
Qed.

(** Each branch of loading the identity, alone: a file that is there is read and left as it is; otherwise
    a new key is written to a new file, private on a Unix, and read back from then on. A write that breaks
    off leaves a file that no later start can read, and none replaces. *)
Theorem load_or_create_identity_correct unix p pid rps i m :
  let '(r, m') := run_prog pid rps i (load_or_create_identity unix p) m in
  (∀ q, q ≠ p → mc_files m' !! q = mc_files m !! q) ∧
  match content_at m p with
  | Some b =>
      m' = m ∧ r = if rp_fails (rps i) then Err ("failed to read identity " +:+ path_display p)
                   else match from_protobuf_encoding b with Some k => Ok (k, Loaded) | None => Err invalid_identity end
  | None =>
      match r with
      | Ok (k, status) =>
          status = Generated ∧ k = generate_ed25519 (rp_random (rps (S i))) ∧
          (∃ b, to_protobuf_encoding k = Some b ∧ mc_files m' !! p = Some (mkFile (if unix then PRIVATE_MODE else DEFAULT_MODE) b)) ∧
          ∀ pid' rps' i', rp_fails (rps' i') = false →
            run_prog pid' rps' i' (load_or_create_identity unix p) m' = (Ok (k, Loaded), m')
      | Err _ =>
          m' = m ∨ ∃ b l, encoded_key b ∧ l `prefix_of` b ∧ content_at m' p = Some l ∧
            (l ≠ b → ∀ pid' rps' i', rp_fails (rps' i') = false →
               run_prog pid' rps' i' (load_or_create_identity unix p) m' = (Err invalid_identity, m'))
      end
  end.
Proof.
  destruct (run_prog pid rps i (load_or_create_identity unix p) m) as [r m'] eqn:E.
  destruct (content_at m p) as [b|] eqn:Hb; [rewrite (load_present _ _ _ _ _ _ _ Hb) in E; by injection E as <- <-|].
  unfold load_or_create_identity in E. simpl in E. rewrite Hb in E.
  destruct (rp_fails (rps i)); [injection E as <- <-; by split; [|left]|]. simpl in E.
  set (k := generate_ed25519 (rp_random (rps (S i)))) in *.
  destruct (to_protobuf_encoding k) as [b|] eqn:Hk; [|injection E as <- <-; by split; [|left]].
  assert (mc_files m !! p = None) as Hn by (unfold content_at in Hb; by destruct (mc_files m !! p)).
  unfold try_ at 1 in E. simpl in E.
  destruct (run_prog pid rps (S (S i)) (create_parent p "failed to create ") m) as [r1 m1] eqn:E1.
  pose proof (run_create_parent pid rps (S (S i)) p "failed to create " m) as E2. rewrite E1 in E2. simpl in E2. subst m1.
  destruct (run_try _ _ _ _ (λ _, let*? _ := write_private_file unix p b in Ret (Ok (k, Generated))) _ _ _ E1) as [j Ej].
  rewrite Ej in E. clear Ej. destruct r1 as [[]|e]; [|injection E as <- <-; by split; [|left]].
  destruct (run_prog pid rps j (write_private_file unix p b) m) as [r2 m2] eqn:E2.
  destruct (run_try _ _ _ _ (λ _, Ret (Ok (k, Generated))) _ _ _ E2) as [j' Ej]. rewrite Ej in E. clear Ej.
  pose proof (run_write_private unix pid rps j p b m Hn) as Hw. rewrite E2 in Hw. destruct Hw as [Hq Hw].
  destruct r2 as [[]|e]; injection E as <- <-; (split; [done|]).
  - split; [done|]. split; [done|]. split; [by exists b|]. intros pid' rps' i' Hf.
    rewrite (load_present _ _ _ _ _ _ b) by (unfold content_at; by rewrite Hw).
    by rewrite Hf, (protobuf_roundtrip _ _ Hk).
  - destruct Hw as [|(l & Hl & Hc)]; [by left|]. right. exists b, l. split; [by exists k|]. split; [done|]. split; [done|].
    intros Hne pid' rps' i' Hf. by rewrite (load_present _ _ _ _ _ _ _ Hc), Hf, (protobuf_prefix _ _ _ Hk Hl Hne).
Qed.
Lemma content_present m q b : content_at m q = Some b → is_Some (mc_files m !! q).
Proof. unfold content_at. destruct (mc_files m !! q); [eauto|done]. Qed.

Lemma content_absent m q : content_at m q = None → mc_files m !! q = None.
Proof. unfold content_at. by destruct (mc_files m !! q). Qed.

#[local] Arguments Nat.leb : simpl never.

Lemma store_key_present pid rps i root m b :
  content_at m (node_key_path root) = Some b → (32 ≤ length b)%nat →
  run_prog pid rps i (open_store_key root) m =
    (if rp_fails (rps (S i)) then Err store_error else Ok (Ed25519Signer_from_bytes (vec32_of (take 32 b))), m).
Proof.
  intros Hb Hl. unfold open_store_key. simpl. rewrite bool_decide_eq_true_2 by (by eapply content_present). simpl.
  rewrite Hb. destruct (rp_fails _); [done|]. simpl. by rewrite (proj2 (Nat.leb_le _ _) Hl).
Qed.

(** The key of the ticket store. Opening takes the key that [load_or_generate_key] of Engine.v
    gives for the file, and the next opening takes it again if it could be written; if it
    could not, opening still succeeds, and the key is lost with the process. *)
Theorem store_key_correct pid rps i root m :
  let key_file := node_key_path root in
  let random := rp_random (rps (if bool_decide (is_Some (mc_files m !! key_file)) then S (S i) else S i)) in
  let '(s, written) := load_or_generate_key (content_at m key_file) random in
  let '(r, m') := run_prog pid rps i (open_store_key root) m in
  (r = Ok s ∨ r = Err store_error ∧ is_Some (content_at m key_file) ∧ rp_fails (rps (S i)) = true ∧ m' = m) ∧
  (r = Ok s → content_at m' key_file = match written with Some _ => written | None => content_at m key_file end →
   ∀ pid' rps' i', rp_fails (rps' (S i')) = false → run_prog pid' rps' i' (open_store_key root) m' = (Ok s, m')) ∧
  (r = Ok s → is_Some written → rp_fails (rps (S (S (S i)))) = true → rp_written (rps (S (S (S i)))) = None → m' = m).
Proof.
  intros key_file random. unfold load_or_generate_key.
  assert (random = rp_random (rps (if bool_decide (is_Some (mc_files m !! key_file)) then S (S i) else S i))) as Hrand by done.
  clearbody random.
  assert (∀ s : Ed25519Signer, s = Ed25519Signer_generate random →
    ∀ m', content_at m' key_file = Some (vec_to_list (Ed25519Signer_to_bytes s)) → ∀ pid' rps' i', rp_fails (rps' (S i')) = false →
    run_prog pid' rps' i' (open_store_key root) m' = (Ok s, m')) as Hagain.
  { intros s -> m' Hc pid' rps' i' Hf. rewrite (store_key_present _ _ _ _ _ _ Hc), Hf by (rewrite length_vec_to_list; lia).
    rewrite take_ge by (rewrite length_vec_to_list; lia). by rewrite vec32_of_vec. }
  destruct (run_prog pid rps i (open_store_key root) m) as [r m'] eqn:E.
  assert (∀ b, r = Ok (Ed25519Signer_generate random) → run_prog pid rps (S (S (S i)))
      (let* _ := do_ (WriteWhole key_file (vec_to_list random)) in Ret (Ok (Ed25519Signer_generate random))) b = (r, m') →
    m' = b ∨ rp_fails (rps (S (S (S i)))) = false ∨ is_Some (rp_written (rps (S (S (S i)))))) as Hlost.
  { intros b _ Ew. simpl in Ew. destruct (rp_fails _); [|by right; left].
    destruct (rp_written _); [right; right; eauto|]. left. by injection Ew. }
  destruct (content_at m key_file) as [b|] eqn:Hb.
  - pose proof (content_present _ _ _ Hb) as Hs.
    destruct (32 <=? length b)%nat eqn:Hl.
    + rewrite (store_key_present _ _ _ _ _ _ Hb) in E by (by apply Nat.leb_le). injection E as <- <-.
      split; [destruct (rp_fails _); [right; by eauto|by left]|]. split; [|by intros _ []].
      intros Hr _ pid' rps' i' Hf. rewrite (store_key_present _ _ _ _ _ _ Hb), Hf by (by apply Nat.leb_le). done.
    + unfold open_store_key in E. simpl in E. fold key_file in E. rewrite bool_decide_eq_true_2 in E, Hrand by done. simpl in E.
      rewrite Hb in E. destruct (rp_fails (rps (S i))) eqn:Hf; [injection E as <- <-; split; [right; by eauto|by split]|].
      simpl in E. rewrite Hl in E. simpl in E. rewrite <- Hrand in E. assert (r = Ok (Ed25519Signer_generate random)) as Hr.
      { simpl in E. destruct (rp_fails (rps (S (S (S i))))); by injection E. }
      split; [by left|]. split; [intros _ Hc; by apply Hagain|]. intros _ _ Hw Hn.
      destruct (Hlost m Hr E) as [|[H|[x H]]]; [done|congruence..].
  - pose proof (content_absent _ _ Hb) as Hs. unfold open_store_key in E. simpl in E. fold key_file in E.
    rewrite bool_decide_eq_false_2 in E, Hrand by (rewrite Hs; by intros []). simpl in E. rewrite <- Hrand in E.
    assert (r = Ok (Ed25519Signer_generate random)) as Hr.
    { destruct (rp_fails (rps (S (S (S i))))); by injection E. }
    split; [by left|]. split; [intros _ Hc; by apply Hagain|]. intros _ _ Hw Hn.
    destruct (Hlost m Hr E) as [|[H|[x H]]]; [done|congruence..].
Qed.

(** ** What a service was started with *)

Definition start_checked (b : build) (a : start_args) (st : Started) : Prop :=
  Config_load (sa_contents a) = Ok (st_config st) ∧ sa_db_opens a = true ∧
  (∃ c, st_lock st = instance_lock_path (sa_host a) c) ∧
  listen_multiaddr (listen_quic (cfg_network (st_config st))) = Ok (st_listen st) ∧
  (∀ g, hs_genesis (st_host st) = Some g → Genesis_verify g = Ok tt ∧ ∃ l, from_canonical_cbor l LIMITS_CONTROL = Ok g) ∧
  signer_wf (st_signer st) ∧ hs_peer_id (st_host st) = keypair_peer_id (st_keypair st) ∧
  ni_peer_id (st_info st) = peer_id_to_string (keypair_peer_id (st_keypair st)) ∧ st_session st = None.

Lemma returns_lock P h cp lock : may_return P (acquire_instance_lock h cp) (Ok lock) → ∃ c, lock = instance_lock_path h c.
Proof.
  intros (p & Hp & H)%may_bind. apply may_bind in Hp as (c & _ & <-). apply may_try in H as (_ & _ & [= <-]). eauto.
Qed.

Lemma returns_db P root opens s : may_return P (open_ticket_db root opens) (Ok s) → opens = true ∧ signer_wf s.
Proof.
  intros (s' & Hs & H)%may_try. destruct opens; [|done]. injection H as ->. split; [done|].
  unfold open_store_key in Hs. apply may_bind in Hs as (found & _ & Hs). destruct found.
  - apply may_try in Hs as (l & _ & Hs). destruct (_ <=? _)%nat; [injection Hs as <-; apply signer_wf_from_bytes|].
    apply may_bind in Hs as (random & _ & Hs). apply may_bind in Hs as (_ & _ & [= <-]). apply signer_wf_from_bytes.
  - apply may_bind in Hs as (random & _ & Hs). apply may_bind in Hs as (_ & _ & Hs). apply may_bind in Hs as (_ & _ & [= <-]).
    apply signer_wf_from_bytes.
Qed.

(** What the file of the genesis holds, and what the service goes by. *)
Definition genesis_of (content : option bytes) (genesis : option Genesis) : Prop :=
  match content with
  | None => genesis = None
  | Some l => ∃ g, from_canonical_cbor l LIMITS_CONTROL = Ok g ∧ Genesis_verify g = Ok tt ∧ genesis = Some g
  end.

Lemma returns_genesis P config genesis :
  may_return P (load_canonical_genesis config) (Ok genesis) →
  ∃ m, P m ∧ genesis_of (content_at m (genesis_path config)) genesis.
Proof.
  unfold load_canonical_genesis. simpl. intros (pid & rp & m & Hm & H). exists m. split; [done|].
  destruct (rp_fails rp); [done|]. destruct (content_at m (genesis_path config)) as [l|]; simpl in *; [|by injection H].
  destruct (from_canonical_cbor l LIMITS_CONTROL) as [g|]; [|done]. simpl in H.
  destruct (Genesis_verify g) as [[]|] eqn:Ev; [|done]. injection H as <-. eauto.
Qed.

Lemma load_config_Ok a config : load_config a = Ok config → Config_load (sa_contents a) = Ok config.
Proof. unfold load_config. by destruct (Config_load _); simpl; [intros [= ->]|]. Qed.

(** A start checked, and the genesis of one of the machines. *)
Definition checked_on (P : Machine → Prop) (b : build) (a : start_args) (st : Started) : Prop :=
  start_checked b a st ∧
  ∃ m, P m ∧ genesis_of (content_at m (genesis_path (st_config st))) (hs_genesis (st_host st)).

Lemma started_checked P b a config lock k signer genesis listen dial shell command :
  load_config a = Ok config → may_return P (acquire_instance_lock (sa_host a) (sa_config_path a)) (Ok lock) →
  may_return P (open_ticket_db (ticket_path config) (sa_db_opens a)) (Ok signer) →
  may_return P (load_canonical_genesis config) (Ok genesis) → listen_multiaddr (listen_quic (cfg_network config)) = Ok listen →
  checked_on P b a (started b config lock k signer genesis listen dial shell command).
Proof.
  intros Hc Hl [Ho Hs]%returns_db (m & Hm & Hg)%returns_genesis Ha. split; [|by exists m].
  split; [by apply load_config_Ok|]. split; [done|]. split; [by eapply returns_lock|].
  split; [done|]. split; [|done]. simpl. intros g ->. unfold genesis_of in Hg.
  destruct (content_at m _) as [l|]; [|done]. destruct Hg as (g' & El & Ev & [= ->]). eauto.
Qed.

Lemma daemon_checked P b a st : may_return P (run_daemon b a) (Ok st) → checked_on P b a st.
Proof.
  intros (config & Hc & H)%may_try. apply may_try in H as (lock & Hl & H). apply may_try in H as (signer & Hs & H).
  apply may_try in H as ([k status] & _ & H). apply may_try in H as (genesis & Hg & H). apply may_try in H as (listen & Hm & [= <-]).
  by apply started_checked.
Qed.

Lemma async_checked P b args a st : may_return P (async_main b args a) (Ok (Some st)) → checked_on P b a st.
Proof.
  intros (config & Hc & H)%may_try. apply may_try in H as (genesis & Hg & H). apply may_try in H as (signer & Hs & H).
  assert (may_return P (let*? lock := acquire_instance_lock (sa_host a) (sa_config_path a) in
     let*? (keypair, identity_status) := load_or_create_identity (bd_unix b) (ic_path (cfg_identity config)) in
     let* _ := print_lines (identity_lines (bd_version b) config keypair identity_status) in
     let*? listen_address := Ret (listen_multiaddr (listen_quic (cfg_network config))) in
     Ret (Ok (Some (started b config lock keypair signer genesis listen_address
       (ag_dial args) (ag_shell args) (ag_shell_command args))))) (Ok (Some st))) as Hm
    by (destruct (ag_action args) as [[|]|]; [apply may_bind in H as (_ & _ & [=])|exact H..]).
  clear H. apply may_try in Hm as (lock & Hl & H). apply may_try in H as ([k status] & _ & H).
  apply may_bind in H as (_ & _ & H). apply may_try in H as (listen & Hm & [= <-]). by apply started_checked.
Qed.

(** C22. Every service that runs was started with a valid configuration, an address to listen on and a
    store that opened, and goes by the genesis of its disk: at some moment of the run either
    the file of the configuration was not there and it has none, or it held bytes that decode within
    the limits to a genesis that verifies, which is the one it has. A genesis that does not keeps the node from
    running. It presents the identity it loaded to its peers and to the local interface alike,
    and no operator session is open. *)
Theorem service_start_checked l files w i st :
  (∀ pid pr, EvSpawn pid pr ∈ l → ∃ b exe args a, pr = fortiq_main b exe args a) →
  world_run l (world_start files) = Some w → runs w i st →
  ∃ b exe args a, EvSpawn i (fortiq_main b exe args a) ∈ l ∧ start_checked b a st ∧
    ∃ m, passed l (world_start files) m ∧
      match content_at m (genesis_path (st_config st)) with
      | None => hs_genesis (st_host st) = None
      | Some bytes => ∃ g, from_canonical_cbor bytes LIMITS_CONTROL = Ok g ∧ Genesis_verify g = Ok tt ∧
                        hs_genesis (st_host st) = Some g
      end.
Proof.
  intros Hl E Hi. destruct (world_returns _ _ _ _ _ E Hi) as (pr & Hin & Hm).
  destruct (Hl _ _ Hin) as (b & exe & args & a & ->). exists b, exe, args, a. split; [done|].
  change (checked_on (passed l (world_start files)) b a st).
  unfold fortiq_main in Hm. destruct (ag_service_run args).
  - apply may_try in Hm as (st' & Hm & [= <-]). by apply daemon_checked.
  - destruct (ag_action args) as [[|action]|]; [by eapply async_checked| |by eapply async_checked].
    apply may_try in Hm as (u & _ & [=]).
Qed.
End services.
