(* ===== verification/StartupRuns.v ===== *)
(** Runs of Startup.v on concrete key pairs: the hypotheses of its theorems hold there, the
    key of the ticket store can be lost in a race, and so can the identity where files are
    not created exclusively. *)

From S2P Require Import Prelude Text Object Concrete Ticket Event Graph GraphSort.
From S2P Require Import Reducer Authority Store Engine EngineRuns Codec Config Stream Shell Mnemonic Wire Sync Peers.
From S2P Require Import Admission Transfer Client Node Service ServiceRuns Machine Address Install Startup.

#[local] Existing Instance toy_libp2p.
#[local] Existing Instance toy_toml.

(** ** Key pairs *)

(** A seed, after its length. *)
#[local] Instance toy_keypairs : Keypairs := {|
  Keypair := vec byte 32;
  generate_ed25519 random := random;
  to_protobuf_encoding k := Some (x20 :: vec_to_list k);
  from_protobuf_encoding l :=
    match l with x20 :: l => if (length l =? 32)%nat then Some (vec32_of l) else None | _ => None end;
  keypair_peer_id k := "peer"%string
|}.

#[local] Instance toy_keypairs_laws : KeypairsLaws.
Proof.
  split.
  - intros k b [= <-]. simpl. rewrite length_vec_to_list. simpl. by rewrite vec32_of_vec.
  - intros k b l [= <-] [rest Hl] Hne. simpl. destruct l as [|c l]; [done|]. injection Hl as <- Hl.
    destruct (Nat.eqb_spec (length l) 32) as [E|]; [|done]. destruct Hne. f_equal.
    apply (f_equal length) in Hl as Hlen. rewrite length_app, length_vec_to_list in Hlen.
    destruct rest; [by rewrite app_nil_r in Hl|simpl in Hlen; lia].
Qed.

(** One genesis, under the encoding of the number 1. *)
#[local] Instance toy_genesis : Cbor Genesis := {|
  cbor_write _ := None;
  cbor_read_value l := if bool_decide (l = [x01]) then Some (VOther 1) else None;
  cbor_read l := if bool_decide (l = [x01]) then Some owner_genesis else None
|}.

Lemma toy_genesis_read l g : from_canonical_cbor l LIMITS_CONTROL = Ok g → g = owner_genesis.
Proof.
  unfold from_canonical_cbor. destruct (_ <? _); [discriminate|].
  destruct (verify_definite_length_cbor l); [|discriminate]. simpl. destruct (bool_decide (l = [x01])); [|discriminate].
  simpl. by intros [= <-].
Qed.

(** ** Two services with one identity *)

Definition started_with (config_path : string) : start_args :=
  mkStartArgs (mkHostEnv (λ _, None) true) (path config_path) (Some ""%string) true None.

#[local] Instance no_multiaddr_text : MultiaddrText := {| multiaddr_to_string _ := ""%string |}.

Definition the_build : build := mkBuild "linux" true "x86_64" "0.1.0".

Definition no_args : Args := mkArgs None None None None true None.

Definition fortiq (config_path : string) : prog (result string (option Started)) :=
  fortiq_main the_build None no_args (started_with config_path).

Definition fine (b : byte) : reply := mkReply false None (vreplicate 32 b) None (Some true).

Definition calls (pid : nat) (b : byte) (n : nat) : list (world_event (result string (option Started))) :=
  replicate n (EvCall pid (fine b)).

Definition identity_file : PathBuf := ic_path (cfg_identity sample_config).

(** The second starts while the first is about to make the identity. *)
Definition first_start : list (world_event (result string (option Started))) :=
  [EvSpawn 1 (fortiq "/etc/a.toml"); EvSpawn 2 (fortiq "/etc/b.toml")] ++
  calls 1 x01 9 ++ calls 2 x02 6 ++ calls 1 x01 5.

Definition second_start : list (world_event (result string (option Started))) := calls 2 x02 2.

Definition the_start (w : World (result string (option Started))) (pid : nat) : option Started :=
  match wo_procs w !! pid with Some (Ret (Ok (Some st))) => Some st | _ => None end.

Lemma the_start_runs w pid st : the_start w pid = Some st → runs w pid st.
Proof.
  unfold the_start, runs, returned. destruct (wo_procs w !! pid) as [[[[s|]|]|]|]; try done. by intros [= ->].
Qed.

(** A name that starts with a letter is added to the path. *)
Lemma path_join_name p b l : is_sep b = false → Byte.to_N b ≠ 46 → ∃ q, path_join p (path_of_bytes (b :: l)) = (p ++ q)%list.
Proof.
  intros Hb Hdot. assert (∃ q, split_sep (b :: l) [] = q ∧ head q ≠ Some (as_bytes ".")) as (q & Hq & Hh).
  { eexists. split; [done|]. simpl. rewrite Hb. cbn [app]. intros Hh.
    assert (∀ l cur, cur ≠ [] → head cur = Some b → ∃ x r, split_sep l cur = x :: r ∧ head x = Some b) as Hhead.
    { clear. induction l as [|c l IH]; intros cur Hne Hc; simpl; [by eexists _, _|].
      destruct (is_sep c); [by eexists _, _|]. apply IH; [by destruct cur|by destruct cur]. }
    destruct (Hhead l [b]) as (x & r & E & Hx); [done|done|]. rewrite E in Hh. injection Hh as ->. simpl in Hx. by injection Hx as <-. }
  unfold path_of_bytes. rewrite Hb, Hq, bool_decide_eq_false_2 by done. cbn [app].
  assert (∀ q : list bytes, Forall (λ c, c ≠ RootDir ∧ c ≠ CurDir) (concat (part_component <$> q))) as Hc.
  { clear. induction q as [|x q IH]; [done|]. simpl. apply Forall_app. split; [|done]. unfold part_component.
    repeat case_bool_decide; by repeat constructor. }
  specialize (Hc q). destruct (concat (part_component <$> q)) as [|[| | |n] r]; try (by eexists);
    apply Forall_cons in Hc as [[? ?] _]; done.
Qed.

Lemma started_apart config_path : apart identity_file the_build (started_with config_path).
Proof.
  split; [|split; [by apply (bool_decide_unpack _); vm_compute|]].
  - intros c. unfold instance_lock_path, path. rewrite as_bytes_app.
    change (as_bytes "fortiq-service-") with (x66 :: as_bytes "ortiq-service-"). cbn [app].
    destruct (path_join_name (lock_dir (sa_host (started_with config_path))) x66
      (as_bytes "ortiq-service-" ++ as_bytes (hex_encode (blake3_hash (as_bytes (path_display c))) +:+ ".lock"))) as [q ->];
      [done|done|]. by vm_compute.
  - intros config [= <-]. split; [by apply (bool_decide_unpack _); vm_compute|].
    split; [by apply (bool_decide_unpack _); vm_compute|done].
Qed.

Lemma calls_main pid b n : Forall (main_event identity_file) (calls pid b n).
Proof. by apply Forall_replicate. Qed.

Lemma spawn_main pid config_path : main_event identity_file (EvSpawn pid (fortiq config_path)).
Proof. eexists _, _, _, _. split; [reflexivity|apply started_apart]. Qed.

Lemma starts_main : Forall (main_event identity_file) first_start ∧ Forall (main_event identity_file) second_start.
Proof.
  split; [|apply calls_main]. unfold first_start. rewrite !Forall_app, !Forall_cons.
  repeat split; try apply calls_main; try apply spawn_main. done.
Qed.

Definition with_identity (o : option Started) : option Started :=
  st ← o; if bool_decide (ic_path (cfg_identity (st_config st)) = identity_file) then Some st else None.

Lemma with_identity_Some o st : with_identity o = Some st → o = Some st ∧ ic_path (cfg_identity (st_config st)) = identity_file.
Proof. destruct o as [st'|]; simpl; [|done]. case_bool_decide; [|done]. by intros [= ->]. Qed.

Lemma both_run : ∃ w w' s1 s1' s2,
  world_run first_start (world_start ∅) = Some w ∧ world_run second_start w = Some w' ∧
  runs w 1 s1 ∧ runs w' 1 s1' ∧ runs w' 2 s2 ∧
  ic_path (cfg_identity (st_config s1)) = identity_file ∧ ic_path (cfg_identity (st_config s2)) = identity_file.
Proof.
  assert (match world_run first_start (world_start ∅) with
          | Some w =>
              match world_run second_start w with
              | Some w' => match with_identity (the_start w 1), the_start w' 1, with_identity (the_start w' 2) with
                           | Some _, Some _, Some _ => true | _, _, _ => false end
              | None => false
              end
          | None => false
          end = true) as Hrun by (vm_compute; reflexivity).
  destruct (world_run first_start (world_start ∅)) as [w|]; [|done].
  destruct (world_run second_start w) as [w'|] eqn:E'; [|done].
  destruct (with_identity (the_start w 1)) as [s1|] eqn:H1; [|done].
  destruct (the_start w' 1) as [s1'|] eqn:H1'; [|done].
  destruct (with_identity (the_start w' 2)) as [s2|] eqn:H2; [|done].
  apply with_identity_Some in H1 as [H1 Hp1], H2 as [H2 Hp2]. apply the_start_runs in H1, H1', H2.
  by exists w, w', s1, s1', s2.
Qed.

Lemma node_identity_kept_witness :
  ∃ w w' si sj, world_run first_start (world_start ∅) = Some w ∧ world_run second_start w = Some w' ∧
    runs w 1 si ∧ runs w' 2 sj ∧ st_keypair sj = st_keypair si.
Proof.
  destruct both_run as (w & w' & s1 & s1' & s2 & E & E' & H1 & _ & H2 & Hp1 & Hp2). exists w, w', s1, s2.
  split; [exact E|]. split; [exact E'|]. split; [exact H1|]. split; [exact H2|].
  exact (proj1 (node_identity_kept identity_file ∅ first_start second_start w w' 1 2 s1 s2
    (proj1 starts_main) (proj2 starts_main) E E' H1 H2 Hp1 Hp2)).
Defined.

Lemma instance_lock_exclusive_witness :
  ∃ w si sj, world_run (first_start ++ second_start) (world_start ∅) = Some w ∧
    runs w 1 si ∧ runs w 2 sj ∧ mc_locks (wo_machine w) !! st_lock si = Some 1%nat ∧ st_lock si ≠ st_lock sj.
Proof.
  destruct both_run as (w & w' & s1 & s1' & s2 & E & E' & _ & H1 & H2 & _ & _).
  assert (world_run (first_start ++ second_start) (world_start ∅) = Some w') as Er by (rewrite world_run_app, E; exact E').
  assert (Forall (main_event identity_file) (first_start ++ second_start)) as Hm
    by (apply Forall_app; exact starts_main).
  destruct (instance_lock_exclusive identity_file ∅ _ w' 1 2 s1' s2 Hm Er H1 H2) as [Hl Hne].
  exists w', s1', s2. split; [exact Er|]. split; [exact H1|]. split; [exact H2|]. split; [exact Hl|].
  intros He. specialize (Hne He). discriminate Hne.
Defined.

(** A start on a disk that holds the genesis. *)
Definition genesis_disk : gmap PathBuf file := {[genesis_path sample_config := mkFile DEFAULT_MODE [x01]]}.
Definition one_start : list (world_event (result string (option Started))) :=
  EvSpawn 1 (fortiq "/etc/a.toml") :: calls 1 x01 14.

Lemma genesis_run : ∃ w st g, world_run one_start (world_start genesis_disk) = Some w ∧ runs w 1 st ∧
  hs_genesis (st_host st) = Some g.
Proof.
  assert (match world_run one_start (world_start genesis_disk) with
          | Some w => match the_start w 1 with Some st => bool_decide (is_Some (hs_genesis (st_host st))) | None => false end
          | None => false
          end = true) as Hrun by (vm_compute; reflexivity).
  destruct (world_run one_start (world_start genesis_disk)) as [w|] eqn:E; [|done].
  destruct (the_start w 1) as [st|] eqn:H1; [|done]. apply the_start_runs in H1.
  apply bool_decide_eq_true in Hrun as [g Hg]. exists w, st, g. exact (conj eq_refl (conj H1 Hg)).
Qed.

Lemma service_start_checked_witness :
  ∃ w st, world_run one_start (world_start genesis_disk) = Some w ∧ runs w 1 st ∧
    hs_genesis (st_host st) = Some owner_genesis ∧ Genesis_verify owner_genesis = Ok tt ∧
    st_listen st = [Ip4 [0; 0; 0; 0]; Udp 4001; QuicV1] ∧ st_session st = None.
Proof.
  destruct genesis_run as (w & st & g & E & H1 & Hgen). exists w, st. split; [exact E|]. split; [exact H1|].
  destruct (service_start_checked one_start genesis_disk w 1 st) as (b & exe & args & a & Hin & (Hc & _ & _ & Hl & _ & _ & _ & _ & Hs) & m & _ & Hm).
  - intros pid pr Hin. apply elem_of_cons in Hin as [[= -> ->]|Hin]; [eexists _, _, _, _; reflexivity|].
    unfold calls in Hin. apply elem_of_replicate in Hin as [[=] _].
  - exact E.
  - exact H1.
  - assert (st_config st = sample_config) as Hcfg.
    { unfold Config_load in Hc. destruct (sa_contents a); [|discriminate Hc]. simpl in Hc. injection Hc as <-. reflexivity. }
    rewrite Hcfg in Hl. rewrite Hgen in Hm. destruct (content_at m (genesis_path (st_config st))) as [l|]; [|discriminate Hm].
    destruct Hm as (g' & Hd & Hv & Hg). injection Hg as <-. apply toy_genesis_read in Hd as ->.
    split; [exact Hgen|]. split; [exact Hv|]. split; [|exact Hs].
    assert (listen_multiaddr (listen_quic (cfg_network sample_config)) = Ok [Ip4 [0; 0; 0; 0]; Udp 4001; QuicV1]) as El
      by (vm_compute; reflexivity).
    rewrite El in Hl. injection Hl as <-. reflexivity.
Defined.

(** ** The key of the store, lost *)

Definition plain_args : Args := mkArgs None None None None false None.

Definition fortiq_plain : prog (result string (option Started)) :=
  fortiq_main the_build None plain_args (started_with "/etc/a.toml").

(** Both look for the key; the second writes its own over that of the first, and only then
    asks for the lock. *)
Definition two_starts : list (world_event (result string (option Started))) :=
  [EvSpawn 1 fortiq_plain; EvSpawn 2 fortiq_plain] ++ calls 1 x01 2 ++ calls 2 x02 2 ++ calls 1 x01 15 ++ calls 2 x02 7.

Definition restarted : list (world_event (result string (option Started))) :=
  [EvExit 1; EvSpawn 3 fortiq_plain] ++ calls 3 x03 11.

Definition another_running : string := "Another FORTIQ service instance is already running on this operating system".

(** The store is opened, and its key made, before the lock is asked for. Of two processes that
    start at once on a new node, the one that is refused can have replaced the key: the other
    goes on and signs with a key that is kept nowhere, and after a restart the same node, under
    the same peer identity, signs with another one. *)
Theorem store_key_race : ∃ w w' st st',
  world_run two_starts (world_start ∅) = Some w ∧ world_run restarted w = Some w' ∧
  runs w 1 st ∧ returned w 2 (Err another_running) ∧ runs w' 3 st' ∧
  st_keypair st' = st_keypair st ∧
  signer_public_key (st_signer st') ≠ signer_public_key (st_signer st).
Proof.
  assert (match world_run two_starts (world_start ∅) with
          | Some w =>
              match world_run restarted w with
              | Some w' =>
                  match the_start w 1, wo_procs w !! 2%nat, the_start w' 3 with
                  | Some st, Some (Ret (Err e)), Some st' =>
                      bool_decide (e = another_running ∧ vec_to_list (st_keypair st') = vec_to_list (st_keypair st) ∧
                        signer_public_key (st_signer st') ≠ signer_public_key (st_signer st))
                  | _, _, _ => false
                  end
              | None => false
              end
          | None => false
          end = true) as Hrun by (vm_compute; reflexivity).
  destruct (world_run two_starts (world_start ∅)) as [w|]; [|done].
  destruct (world_run restarted w) as [w'|] eqn:E'; [|done].
  destruct (the_start w 1) as [st|] eqn:H1; [|done].
  destruct (wo_procs w !! 2%nat) as [[[|e]|]|] eqn:H2; try done.
  destruct (the_start w' 3) as [st'|] eqn:H3; [|done].
  apply bool_decide_eq_true in Hrun as (-> & Hk & Hs). apply the_start_runs in H1, H3. exists w, w', st, st'.
  do 5 (split; [done|]). split; [by apply vec_to_list_inj2|done].
Qed.

(** ** The identity, lost *)

Definition other_build : build := mkBuild "windows" false "x86_64" "0.1.0".

Definition fortiq_other (config_path : string) : prog (result string (option Started)) :=
  fortiq_main other_build None no_args (started_with config_path).

(** Two services with their own configuration and lock look for the identity they share; each then
    makes one. *)
Definition shared_starts : list (world_event (result string (option Started))) :=
  [EvSpawn 1 (fortiq_other "/etc/a.toml"); EvSpawn 2 (fortiq_other "/etc/b.toml")] ++
  calls 1 x01 9 ++ calls 2 x02 7 ++ calls 1 x01 4 ++ calls 2 x02 4.

(** Where the file of the identity is not created exclusively, both run, under two identities, and the
    file holds that of the second: the first is lost with its process. *)
Theorem identity_race : ∃ w s1 s2,
  world_run shared_starts (world_start ∅) = Some w ∧ runs w 1 s1 ∧ runs w 2 s2 ∧
  ic_path (cfg_identity (st_config s1)) = identity_file ∧ ic_path (cfg_identity (st_config s2)) = identity_file ∧
  vec_to_list (st_keypair s1) ≠ vec_to_list (st_keypair s2) ∧
  content_at (wo_machine w) identity_file = to_protobuf_encoding (st_keypair s2).
Proof.
  assert (match world_run shared_starts (world_start ∅) with
          | Some w =>
              match with_identity (the_start w 1), with_identity (the_start w 2) with
              | Some s1, Some s2 =>
                  bool_decide (vec_to_list (st_keypair s1) ≠ vec_to_list (st_keypair s2) ∧
                    content_at (wo_machine w) identity_file = to_protobuf_encoding (st_keypair s2))
              | _, _ => false
              end
          | None => false
          end = true) as Hrun by (vm_compute; reflexivity).
  destruct (world_run shared_starts (world_start ∅)) as [w|]; [|done].
  destruct (with_identity (the_start w 1)) as [s1|] eqn:H1; [|done].
  destruct (with_identity (the_start w 2)) as [s2|] eqn:H2; [|done].
  apply bool_decide_eq_true in Hrun as [Hk Hc].
  apply with_identity_Some in H1 as [H1 Hp1], H2 as [H2 Hp2]. apply the_start_runs in H1, H2. by exists w, s1, s2.
Qed.

(** ** One start, one address *)

Lemma load_or_create_identity_correct_witness :
  let '(r, m) := run_prog 1 (λ _, fine x07) 0 (load_or_create_identity true identity_file) (mkMachine ∅ ∅) in
  r = Ok (vreplicate 32 x07, Generated) ∧
  run_prog 1 (λ _, fine x08) 0 (load_or_create_identity true identity_file) m = (Ok (vreplicate 32 x07, Loaded), m).
Proof.
  pose proof (load_or_create_identity_correct true identity_file 1 (λ _, fine x07) 0 (mkMachine ∅ ∅)) as H.
  assert (is_ok (run_prog 1 (λ _, fine x07) 0 (load_or_create_identity true identity_file) (mkMachine ∅ ∅)).1 = true) as Hok
    by (vm_compute; reflexivity).
  destruct (run_prog 1 (λ _, fine x07) 0 (load_or_create_identity true identity_file) (mkMachine ∅ ∅)) as [[[k status]|e] m];
    [|discriminate Hok].
  destruct H as [_ H]. change (content_at (mkMachine ∅ ∅) identity_file) with (@None bytes) in H.
  destruct H as (-> & -> & _ & H). split; [reflexivity|]. exact (H 1%nat (λ _, fine x08) 0%nat eq_refl).
Defined.

Lemma listen_multiaddr_correct_witness :
  listen_multiaddr "127.0.0.1:4001" = Ok [Ip4 [127; 0; 0; 1]; Udp 4001; QuicV1].
Proof.
  change "127.0.0.1:4001"%string with (ipv4_text 127 0 0 1 4001).
  apply (proj1 listen_multiaddr_correct); vm_compute; congruence || reflexivity.
Defined.
