(* ===== verification/Endpoint.v ===== *)
(** The endpoints of the local interface ([run_ipc_server] in
    [apps/fortiq-service/src/ipc_server.rs]): how the Unix sockets are opened, and the Windows
    named pipes, with who may use them. What is served on them is in Service.v. *)

From Stdlib Require Import Ascii.
From S2P Require Import Prelude Text Codec Stream Config Object Concrete Wire Transfer Service.

(** ** The Unix sockets *)

Inductive socket_op :=
| SoRemove (p : PathBuf)
| SoCreateDirs (p : PathBuf)
| SoSetMode (p : PathBuf) (mode : N)
| SoSetGroup (p : PathBuf) (gid : N)
| SoBind (p : PathBuf).

(** [gid]: that of the group [fortiq], when the system has it. *)
Definition setup_unix_socket_permissions_and_group (gid : option N) (p : PathBuf) (mode : N) : list socket_op :=
  SoSetMode p mode :: match gid with Some gid => [SoSetGroup p gid] | None => [] end.

Definition DIR_MODE : N := 504.      (** [0o770] *)
Definition SOCKET_MODE : N := 432.   (** [0o660] *)

Definition prepare_parent (gid : option N) (p : PathBuf) : list socket_op :=
  match path_parent p with
  | Some parent => SoCreateDirs parent :: setup_unix_socket_permissions_and_group gid parent DIR_MODE
  | None => []
  end.

(** [run_unix_socket] and [run_unix_terminal_socket] until they accept: all the calls. One that
    cannot bind stops there, and one that is dropped stops anywhere. *)
Definition open_unix_socket (gid : option N) (endpoint : string) : list socket_op :=
  let p := path endpoint in
  ([SoRemove p] ++ prepare_parent gid p ++ [SoBind p] ++ setup_unix_socket_permissions_and_group gid p SOCKET_MODE)%list.

(** Two tasks of one process, call by call. *)
Inductive interleave {A} : list A → list A → list A → Prop :=
| interleave_nil : interleave [] [] []
| interleave_left x l1 l2 l : interleave l1 l2 l → interleave (x :: l1) l2 (x :: l)
| interleave_right x l1 l2 l : interleave l1 l2 l → interleave l1 (x :: l2) (x :: l).

(** [try_join!] of the two: what they have done at some moment. *)
Definition run_ipc_server (env : environment) (config : Config) (gid : option N) (ops : list socket_op) : Prop :=
  ∃ l1 l2, l1 `prefix_of` open_unix_socket gid (ipc_endpoint env config) ∧
    l2 `prefix_of` open_unix_socket gid (terminal_ipc_endpoint env config) ∧ interleave l1 l2 ops.

(** Both accept. *)
Definition ipc_server_ready (env : environment) (config : Config) (gid : option N) (ops : list socket_op) : Prop :=
  interleave (open_unix_socket gid (ipc_endpoint env config)) (open_unix_socket gid (terminal_ipc_endpoint env config)) ops.

(** Modes of paths, and the sockets that are bound. [chmods]: the paths whose mode can be
    changed; [umask_mode]: that with which a socket is made. *)
Record sockets := mkSockets { so_modes : gmap PathBuf N; so_bound : gset PathBuf }.

Definition socket_step (chmods : PathBuf → bool) (umask_mode : N) (s : sockets) (op : socket_op) : sockets :=
  match op with
  | SoRemove p => mkSockets (delete p (so_modes s)) (so_bound s ∖ {[p]})
  | SoSetMode p mode => if chmods p then mkSockets (<[p := mode]> (so_modes s)) (so_bound s) else s
  | SoBind p => mkSockets (<[p := umask_mode]> (so_modes s)) ({[p]} ∪ so_bound s)
  | SoCreateDirs _ | SoSetGroup _ _ => s
  end.

Definition socket_steps (chmods : PathBuf → bool) (umask_mode : N) (ops : list socket_op) (s : sockets) : sockets :=
  foldl (socket_step chmods umask_mode) s ops.

(** ** The Windows pipes *)

(** [lookup] is [lookup_group_sid]: the text of the SID of a group of this computer. *)
Definition operators_sid (lookup : string → option string) : option string :=
  match lookup "FORTIQ Operators" with Some sid => Some sid | None => lookup "FORTIQ-Operators" end.

(** The security descriptor of [create_windows_pipe]; whether the pipe is the first instance or that of
    the terminals does not change it. *)
Definition pipe_descriptor (lookup : string → option string) : string :=
  match operators_sid lookup with
  | Some op_sid => "D:P(A;;GA;;;SY)(A;;GA;;;BA)(A;;GRGW;;;" +:+ op_sid +:+ ")"
  | None => "D:P(A;;GA;;;SY)(A;;GA;;;BA)"
  end.

(** How a descriptor reads: a list that is protected, of entries that allow rights to a
    trustee. Every other kind of entry is left out. *)
Record ace := mkAce { ac_rights : string; ac_trustee : string }.

(** The text up to a character, and what follows it. *)
Fixpoint until (c : Ascii.ascii) (s : string) : option (string * string) :=
  match s with
  | EmptyString => None
  | String a s =>
      if bool_decide (a = c) then Some (EmptyString, s)
      else '(l, r) ← until c s; Some (String a l, r)
  end.

Fixpoint strip_prefix (p s : string) : option string :=
  match p, s with
  | EmptyString, _ => Some s
  | String a p, String b s => if bool_decide (a = b) then strip_prefix p s else None
  | _, _ => None
  end.

(** [A;;rights;;;trustee)]. *)
Definition parse_ace (s : string) : option (ace * string) :=
  s ← strip_prefix "(A;;" s;
  '(rights, s) ← until ";"%char s;
  s ← strip_prefix ";;" s;
  '(trustee, s) ← until ")"%char s;
  Some (mkAce rights trustee, s).

Fixpoint parse_aces (fuel : nat) (s : string) : option (list ace) :=
  match fuel, s with
  | _, EmptyString => Some []
  | O, _ => None
  | S fuel, s => '(a, s) ← parse_ace s; l ← parse_aces fuel s; Some (a :: l)
  end.

Definition parse_descriptor (s : string) : option (list ace) :=
  s' ← strip_prefix "D:P" s; parse_aces (String.length s) s'.

(** The loop of [run_windows_pipe] and [run_windows_terminal_pipe]; an instance of the pipe has a
    number. Each turn has the answers of [connect] and of [create_windows_pipe]. *)
Inductive pipe_effect :=
| PipeCreate (id : nat) (first_instance : bool)
| PipeServe (id : nat)
| PipeDrop (id : nat).

Fixpoint pipe_loop (turns : list (bool * bool)) (server next : nat) : list pipe_effect * result string nat :=
  match turns with
  | [] => ([], Ok server)                      (** still waiting on this instance *)
  | (connected, created) :: turns =>
      if created then
        let '(effects, r) := pipe_loop turns next (S next) in
        (PipeCreate next false :: (if connected : bool then PipeServe server else PipeDrop server) :: effects, r)
      else ([PipeDrop server], Err "no pipe"%string)
  end.

Definition run_windows_pipe (created : bool) (turns : list (bool * bool)) : list pipe_effect * result string nat :=
  if created then let '(effects, r) := pipe_loop turns 0 1 in (PipeCreate 0 true :: effects, r)
  else ([], Err "no pipe"%string).

Definition served (effects : list pipe_effect) : list nat :=
  omap (λ e, match e with PipeServe id => Some id | _ => None end) effects.
Definition created_ids (effects : list pipe_effect) : list nat :=
  omap (λ e, match e with PipeCreate id _ => Some id | _ => None end) effects.

(** ** Lemmas *)

Lemma interleave_elem {A} (l1 l2 l : list A) x : interleave l1 l2 l → x ∈ l ↔ x ∈ l1 ∨ x ∈ l2.
Proof. induction 1; rewrite ?elem_of_nil, ?elem_of_cons in *; tauto. Qed.

Lemma interleave_filter {A} (P : A → Prop) `{∀ x, Decision (P x)} (l1 l2 l : list A) :
  interleave l1 l2 l → (∀ x, x ∈ l2 → ¬ P x) → filter P l = filter P l1.
Proof.
  induction 1 as [|x l1 l2 l Hi IH|x l1 l2 l Hi IH]; intros Hn; [done|..].
  - rewrite !filter_cons, IH by done. done.
  - rewrite filter_cons_False by (apply Hn; left). apply IH. intros y Hy. apply Hn. by right.
Qed.

Lemma interleave_swap {A} (l1 l2 l : list A) : interleave l1 l2 l → interleave l2 l1 l.
Proof. induction 1; by constructor. Qed.

Definition touches (p : PathBuf) (op : socket_op) : bool :=
  match op with
  | SoRemove q | SoSetMode q _ | SoBind q => bool_decide (q = p)
  | SoCreateDirs _ | SoSetGroup _ _ => false
  end.

Section steps.
Variables (chmods : PathBuf → bool) (umask_mode : N).
Abbreviation steps := (socket_steps chmods umask_mode).

Lemma steps_app l l' s : steps (l ++ l') s = steps l' (steps l s).
Proof. apply foldl_app. Qed.

Lemma step_other p op s : touches p op = false → so_modes (socket_step chmods umask_mode s op) !! p = so_modes s !! p.
Proof.
  destruct op as [q|q|q mode|q gid|q]; simpl; intros H; try apply bool_decide_eq_false in H; try done.
  - by apply lookup_delete_ne.
  - destruct (chmods q); simpl; [by apply lookup_insert_ne|done].
  - by apply lookup_insert_ne.
Qed.

(** What is known of one path: its mode, and whether a socket is bound there. *)
Definition agree (p : PathBuf) (s s' : sockets) : Prop :=
  so_modes s !! p = so_modes s' !! p ∧ (p ∈ so_bound s ↔ p ∈ so_bound s').

Lemma step_bound_other p op s :
  touches p op = false → p ∈ so_bound (socket_step chmods umask_mode s op) ↔ p ∈ so_bound s.
Proof.
  destruct op as [q|q|q mode|q gid|q]; simpl; intros H; try apply bool_decide_eq_false in H; try done; [set_solver| |set_solver].
  by destruct (chmods q).
Qed.

Lemma step_agree p op s s' :
  agree p s s' → agree p (socket_step chmods umask_mode s op) (socket_step chmods umask_mode s' op).
Proof.
  intros [Hm Hb]. destruct op as [q|q|q mode|q gid|q]; simpl; try done.
  - split; simpl; [|set_solver]. destruct (decide (q = p)) as [->|]; [by rewrite !lookup_delete_eq|by rewrite !lookup_delete_ne].
  - destruct (chmods q); [|done]. split; simpl; [|done].
    destruct (decide (q = p)) as [->|]; [by rewrite !lookup_insert_eq|by rewrite !lookup_insert_ne].
  - split; simpl; [|set_solver]. destruct (decide (q = p)) as [->|]; [by rewrite !lookup_insert_eq|by rewrite !lookup_insert_ne].
Qed.

(** It depends on the calls on this path alone. *)
Lemma steps_filter p l : ∀ s s', agree p s s' → agree p (steps l s) (steps (filter (λ op, touches p op = true) l) s').
Proof.
  induction l as [|op l IH]; intros s s' Hs; [done|]. rewrite filter_cons. destruct (decide (touches p op = true)) as [|Ht].
  - simpl. apply IH. by apply step_agree.
  - apply IH. apply not_true_is_false in Ht. destruct Hs as [Hm Hb].
    split; [by rewrite step_other|by rewrite step_bound_other].
Qed.

(** A path whose mode is only ever set to one value, and was. *)
Lemma steps_mode p mode l : ∀ s,
  chmods p = true → (∀ op, op ∈ l → touches p op = true → op = SoSetMode p mode) → SoSetMode p mode ∈ l →
  so_modes (steps l s) !! p = Some mode.
Proof.
  induction l as [|op l IH] using rev_ind; intros s Hc Hall Hin; [by apply elem_of_nil in Hin|].
  rewrite steps_app. simpl. destruct (touches p op) eqn:Ht.
  - rewrite (Hall op); [|apply elem_of_app; right; left|done]. simpl. rewrite Hc. apply lookup_insert_eq.
  - rewrite step_other by done. apply IH; [done|..].
    + intros op' Hop'. apply Hall. apply elem_of_app. by left.
    + apply elem_of_app in Hin as [|Hin]; [done|]. apply list_elem_of_singleton in Hin. subst op. simpl in Ht.
      by apply bool_decide_eq_false in Ht.
Qed.

Lemma steps_bound p l : ∀ s, p ∈ so_bound (steps l s) → p ∈ so_bound s ∨ SoBind p ∈ l.
Proof.
  induction l as [|op l IH]; intros s Hp; [by left|]. destruct (IH _ Hp) as [H|H]; [|right; by right].
  destruct op as [q|q|q mode|q gid|q]; simpl in H; [| |destruct (chmods q)| |]; try (left; set_solver).
  apply elem_of_union in H as [->%elem_of_singleton|H]; [right; left|by left].
Qed.
End steps.

Section opening.
Variable gid : option N.
Abbreviation ops e := (open_unix_socket gid e).

Lemma setup_elem p mode op :
  op ∈ setup_unix_socket_permissions_and_group gid p mode → op = SoSetMode p mode ∨ ∃ g, op = SoSetGroup p g.
Proof.
  unfold setup_unix_socket_permissions_and_group. rewrite elem_of_cons. intros [->|H]; [by left|right].
  destruct gid as [g|]; [|by apply elem_of_nil in H]. apply list_elem_of_singleton in H. eauto.
Qed.

Lemma parent_elem p op :
  op ∈ prepare_parent gid p → ∃ parent, path_parent p = Some parent ∧
    (op = SoCreateDirs parent ∨ op = SoSetMode parent DIR_MODE ∨ ∃ g, op = SoSetGroup parent g).
Proof.
  unfold prepare_parent. destruct (path_parent p) as [parent|]; [|by intros ?%elem_of_nil].
  rewrite elem_of_cons. intros [->|H%setup_elem]; exists parent; naive_solver.
Qed.

Lemma ops_elem e op :
  op ∈ ops e → op = SoRemove (path e) ∨ op = SoBind (path e) ∨ op = SoSetMode (path e) SOCKET_MODE ∨
    (∃ parent, path_parent (path e) = Some parent ∧ op = SoSetMode parent DIR_MODE) ∨ ∀ p, touches p op = false.
Proof.
  unfold open_unix_socket. rewrite !elem_of_app, !list_elem_of_singleton.
  intros [->|[(parent & Hp & [->|[->|[g ->]]])%parent_elem|[->|[->|[g ->]]%setup_elem]]]; eauto 10.
Qed.

(** A socket is bound after its directory has its mode. *)
Lemma bound_after_parent e l p :
  l `prefix_of` ops e → SoBind p ∈ l →
  p = path e ∧ ∀ parent, path_parent p = Some parent → SoSetMode parent DIR_MODE ∈ l.
Proof.
  intros Hl Hb. assert (p = path e) as ->.
  { destruct Hl as [k Hk]. assert (SoBind p ∈ ops e) as H by (rewrite Hk; apply elem_of_app; by left).
    apply ops_elem in H as [H|[H|[H|[(? & _ & H)|H]]]]; try congruence. specialize (H p). simpl in H.
    by apply bool_decide_eq_false in H. }
  split; [done|]. intros parent Hp.
  assert ([SoRemove (path e)] ++ prepare_parent gid (path e) `prefix_of` ops e) as Ha.
  { unfold open_unix_socket. rewrite app_assoc. by apply prefix_app_r. }
  destruct (prefix_weak_total _ _ _ Ha Hl) as [[k ->]|[k Hk]].
  - apply elem_of_app. left. apply elem_of_app. right. unfold prepare_parent. rewrite Hp.
    apply elem_of_cons. right. apply elem_of_cons. by left.
  - assert (SoBind (path e) ∈ [SoRemove (path e)] ++ prepare_parent gid (path e)) as H by (rewrite Hk; apply elem_of_app; by left).
    apply elem_of_app in H as [H%list_elem_of_singleton|(? & _ & [H|[H|[? H]]])%parent_elem]; congruence.
Qed.

(** The calls on the path of the socket itself. *)
Lemma ops_own e :
  path_parent (path e) ≠ Some (path e) →
  filter (λ op, touches (path e) op = true) (ops e) = [SoRemove (path e); SoBind (path e); SoSetMode (path e) SOCKET_MODE].
Proof.
  intros Hp. unfold open_unix_socket. rewrite !filter_app.
  assert (∀ op, op ∈ prepare_parent gid (path e) → touches (path e) op = false) as Hn.
  { intros op (q & Hq & [->|[->|[g ->]]])%parent_elem; try done. simpl. apply bool_decide_eq_false. congruence. }
  assert (filter (λ op, touches (path e) op = true) (prepare_parent gid (path e)) = []) as ->.
  { induction (prepare_parent _ _) as [|op l IH]; [done|]. rewrite filter_cons_False; [apply IH|].
    - intros op' Hop'. apply Hn. by right.
    - rewrite Hn by left. done. }
  unfold setup_unix_socket_permissions_and_group.
  rewrite !filter_cons_True by (by apply bool_decide_eq_true). by destruct gid.
Qed.
End opening.

(** Neither socket is at or above the other. *)
Definition endpoints_apart (e1 e2 : string) : Prop :=
  path e1 ≠ path e2 ∧
  ∀ e e', e ∈ [e1; e2] → e' ∈ [e1; e2] → path_parent (path e) ≠ Some (path e').

Lemma ops_touch gid e p op :
  op ∈ open_unix_socket gid e → touches p op = true →
  path e = p ∨ path_parent (path e) = Some p ∧ op = SoSetMode p DIR_MODE.
Proof.
  intros [->|[->|[->|[(q & Hq & ->)|H]]]]%ops_elem Ht; simpl in Ht; try (left; by apply bool_decide_eq_true in Ht).
  - apply bool_decide_eq_true in Ht as ->. by right.
  - by rewrite H in Ht.
Qed.

Section both.
Variables (gid : option N) (chmods : PathBuf → bool) (umask_mode : N) (e1 e2 : string) (l1 l2 ops : list socket_op).
Hypothesis apart : endpoints_apart e1 e2.
Hypothesis prefix1 : l1 `prefix_of` open_unix_socket gid e1.
Hypothesis prefix2 : l2 `prefix_of` open_unix_socket gid e2.
Hypothesis interleaved : interleave l1 l2 ops.

Lemma both_elem op : op ∈ ops → ∃ e, e ∈ [e1; e2] ∧ op ∈ open_unix_socket gid e.
Proof.
  intros [H|H]%(interleave_elem _ _ _ _ interleaved).
  - exists e1. split; [left|]. by eapply elem_of_prefix, prefix1.
  - exists e2. split; [right; left|]. by eapply elem_of_prefix, prefix2.
Qed.

Lemma both_bound p :
  SoBind p ∈ ops → (p = path e1 ∨ p = path e2) ∧ ∀ parent, path_parent p = Some parent → SoSetMode parent DIR_MODE ∈ ops.
Proof.
  intros [Hb|Hb]%(interleave_elem _ _ _ _ interleaved).
  - destruct (bound_after_parent _ _ _ _ prefix1 Hb) as [Hp H]. split; [by left|].
    intros parent Hq. apply (interleave_elem _ _ _ _ interleaved). left. by apply H.
  - destruct (bound_after_parent _ _ _ _ prefix2 Hb) as [Hp H]. split; [by right|].
    intros parent Hq. apply (interleave_elem _ _ _ _ interleaved). right. by apply H.
Qed.

(** The directory of a bound socket has its mode. *)
Lemma both_parent p parent s0 :
  SoBind p ∈ ops → path_parent p = Some parent → chmods parent = true →
  so_modes (socket_steps chmods umask_mode ops s0) !! parent = Some DIR_MODE.
Proof.
  intros Hb Hp Hc. destruct (both_bound p Hb) as [He Hpar]. apply steps_mode; [done| |by apply Hpar].
  assert (∃ e, e ∈ [e1; e2] ∧ path_parent (path e) = Some parent) as (e & Hin & Hq).
  { destruct He as [-> | ->]; [exists e1|exists e2]; set_solver. }
  intros op (e' & He' & Ho)%both_elem Ht. destruct (ops_touch _ _ _ _ Ho Ht) as [<-|[_ E]]; [|done].
  by destruct (proj2 apart e e' Hin He').
Qed.

(** No call is about any other path. *)
Lemma both_other q :
  (∀ e, e ∈ [e1; e2] → q ≠ path e ∧ path_parent (path e) ≠ Some q) → filter (λ op, touches q op = true) ops = [].
Proof.
  intros Hq. assert (∀ op, op ∈ ops → touches q op ≠ true) as Hn.
  { intros op (e & He & Ho)%both_elem Ht. destruct (Hq e He). destruct (ops_touch _ _ _ _ Ho Ht) as [E|[E _]]; congruence. }
  clear -Hn. induction ops as [|op l IH]; [done|].
  rewrite filter_cons_False by (apply Hn; left). apply IH. intros op' Hop'. apply Hn. by right.
Qed.
End both.

(** The calls on a socket, when both accept. *)
Lemma ready_own gid e1 e2 ops e :
  endpoints_apart e1 e2 → interleave (open_unix_socket gid e1) (open_unix_socket gid e2) ops → e ∈ [e1; e2] →
  filter (λ op, touches (path e) op = true) ops = [SoRemove (path e); SoBind (path e); SoSetMode (path e) SOCKET_MODE].
Proof.
  intros [Hne Hap] Hi He. rewrite <- (ops_own gid) by (by apply (Hap e e)).
  assert (∀ e', e' ∈ [e1; e2] → path e' ≠ path e → ∀ op, op ∈ open_unix_socket gid e' → ¬ touches (path e) op = true) as Hno.
  { intros e' He' Hd op Hop Ht. destruct (ops_touch _ _ _ _ Hop Ht) as [|[E _]]; [done|]. by apply (Hap e' e). }
  assert (e = e1 ∨ e = e2) as [->| ->] by set_solver.
  - apply (interleave_filter _ _ _ _ Hi). apply Hno; [set_solver|done].
  - apply (interleave_filter _ _ _ _ (interleave_swap _ _ _ Hi)). apply Hno; [set_solver|done].
Qed.

(** ** Properties *)

(** C40. The sockets of the service. At every moment while both are being opened, call by call and in
    any order of the two: a socket that is bound is one of the two, and the directory it is in
    has by then the mode that lets only the owner and the group in, if it can be changed, so
    that nobody else reaches the socket in the time before its own mode is set; nothing but the
    sockets and their directories changes mode. Once both accept, both are bound with mode 0660. *)
Theorem sockets_protected (env : environment) (config : Config) (gid : option N)
    (chmods : PathBuf → bool) (umask_mode : N) (ops : list socket_op) (s0 : sockets) :
  let e1 := ipc_endpoint env config in
  let e2 := terminal_ipc_endpoint env config in
  let s := socket_steps chmods umask_mode ops s0 in
  endpoints_apart e1 e2 → run_ipc_server env config gid ops →
  (∀ p, p ∈ so_bound s → p ∉ so_bound s0 →
     (p = path e1 ∨ p = path e2) ∧
     ∀ parent, path_parent p = Some parent → chmods parent = true → so_modes s !! parent = Some DIR_MODE) ∧
  (∀ q, q ≠ path e1 → q ≠ path e2 → path_parent (path e1) ≠ Some q → path_parent (path e2) ≠ Some q →
     so_modes s !! q = so_modes s0 !! q) ∧
  (ipc_server_ready env config gid ops → ∀ e, e ∈ [e1; e2] →
     path e ∈ so_bound s ∧ (chmods (path e) = true → so_modes s !! path e = Some SOCKET_MODE)).
Proof.
  intros e1 e2 s Hap (l1 & l2 & H1 & H2 & Hi). split; [|split].
  - intros p Hp Hn. assert (SoBind p ∈ ops) as Hb by (by destruct (steps_bound _ _ _ _ _ Hp)).
    split; [by apply (both_bound gid e1 e2 l1 l2 ops)|]. intros parent Hq Hc. by eapply both_parent.
  - intros q Hq1 Hq2 Hp1 Hp2. unfold s. rewrite (proj1 (steps_filter chmods umask_mode q ops s0 s0 ltac:(done))).
    rewrite (both_other gid e1 e2 l1 l2); [done..|]. intros e He. assert (e = e1 ∨ e = e2) as [->| ->] by set_solver; done.
  - intros Hr e He. destruct (steps_filter chmods umask_mode (path e) ops s0 s0 ltac:(done)) as [Hm Hb].
    fold s in Hm, Hb. rewrite (ready_own gid e1 e2) in Hm, Hb by done. simpl in Hm, Hb. split.
    + apply Hb. destruct (chmods (path e)); set_solver.
    + intros Hc. rewrite Hm, Hc. apply lookup_insert_eq.
Qed.

Lemma sockets_protected_witness :
  let config := sample_config in
  let ops := (open_unix_socket (Some 1000) DEFAULT_UNIX_SOCKET_PATH ++
              open_unix_socket (Some 1000) DEFAULT_UNIX_TERMINAL_SOCKET_PATH)%list in
  so_modes (socket_steps (λ _, true) 493 ops (mkSockets ∅ ∅)) !! path "/run/fortiq.sock" = Some SOCKET_MODE.
Proof.
  intros config ops.
  assert (ipc_server_ready (λ _, None) config (Some 1000) ops) as Hr.
  { unfold ipc_server_ready, ops. change (ipc_endpoint (λ _, None) config) with DEFAULT_UNIX_SOCKET_PATH.
    change (terminal_ipc_endpoint (λ _, None) config) with DEFAULT_UNIX_TERMINAL_SOCKET_PATH.
    generalize (open_unix_socket (Some 1000) DEFAULT_UNIX_TERMINAL_SOCKET_PATH) as l2.
    generalize (open_unix_socket (Some 1000) DEFAULT_UNIX_SOCKET_PATH) as l1.
    assert (∀ l : list socket_op, interleave [] l l) as Hr by (induction l; constructor; assumption).
    induction l1 as [|x l1 IH]; intros l2; simpl; [apply Hr|constructor; apply IH]. }
  destruct (sockets_protected (λ _, None) config (Some 1000) (λ _, true) 493 ops (mkSockets ∅ ∅)) as (_ & _ & H).
  - split; [vm_compute; discriminate|]. intros e e' He He'.
    repeat (apply elem_of_cons in He as [->|He]; [|]); try (by apply elem_of_nil in He);
      repeat (apply elem_of_cons in He' as [->|He']; [|]); try (by apply elem_of_nil in He'); vm_compute; discriminate.
  - eexists _, _. split; [reflexivity|]. split; [reflexivity|exact Hr].
  - exact (proj2 (H Hr DEFAULT_UNIX_SOCKET_PATH (list_elem_of_here _ _)) eq_refl).
Defined.

(** Where nothing else is configured the directory of the sockets is [/run] itself, which every
    program of the system uses: opening the sockets takes it from all but its owner and group. *)
Theorem default_sockets_close_run (env : environment) (config : Config) (gid : option N)
    (chmods : PathBuf → bool) (umask_mode : N) (ops : list socket_op) (s0 : sockets) :
  env_var env "FORTIQ_SOCK" = None → env_var env "FORTIQ_TERMINAL_SOCK" = None →
  ipc_sock (cfg_ipc config) = None → ipc_terminal_sock (cfg_ipc config) = None →
  ipc_server_ready env config gid ops → chmods (path "/run") = true →
  so_modes (socket_steps chmods umask_mode ops s0) !! path "/run" = Some DIR_MODE.
Proof.
  intros H1 H2 H3 H4 Hr Hc. unfold ipc_server_ready, ipc_endpoint, terminal_ipc_endpoint, unix_socket_path,
    unix_terminal_socket_path in Hr. rewrite H1, H2, H3, H4 in Hr. simpl in Hr.
  eapply (both_parent gid chmods umask_mode DEFAULT_UNIX_SOCKET_PATH DEFAULT_UNIX_TERMINAL_SOCKET_PATH _ _ ops)
    with (p := path DEFAULT_UNIX_SOCKET_PATH); [|reflexivity|reflexivity|exact Hr| |vm_compute; reflexivity|done].
  - split; [vm_compute; discriminate|]. intros e e' He He'.
    repeat (apply elem_of_cons in He as [->|He]; [|]); try (by apply elem_of_nil in He);
      repeat (apply elem_of_cons in He' as [->|He']; [|]); try (by apply elem_of_nil in He'); vm_compute; discriminate.
  - apply (interleave_elem _ _ _ _ Hr). left. unfold open_unix_socket. rewrite !elem_of_app. right. right. left. by left.
Qed.

Lemma default_sockets_close_run_witness :
  let ops := (open_unix_socket None DEFAULT_UNIX_SOCKET_PATH ++
              open_unix_socket None DEFAULT_UNIX_TERMINAL_SOCKET_PATH)%list in
  so_modes (socket_steps (λ _, true) 493 ops (mkSockets {[path "/run" := 493]} ∅)) !! path "/run" = Some 504.
Proof.
  intros ops. apply (default_sockets_close_run (λ _, None) sample_config None); try reflexivity.
  change (interleave (open_unix_socket None DEFAULT_UNIX_SOCKET_PATH)
    (open_unix_socket None DEFAULT_UNIX_TERMINAL_SOCKET_PATH) ops). unfold ops.
  generalize (open_unix_socket None DEFAULT_UNIX_TERMINAL_SOCKET_PATH) as l2.
  generalize (open_unix_socket None DEFAULT_UNIX_SOCKET_PATH) as l1.
  assert (∀ l : list socket_op, interleave [] l l) as Hn by (induction l; constructor; assumption).
  induction l1 as [|x l1 IH]; intros l2; simpl; [apply Hn|constructor; apply IH].
Defined.

(** ** The pipes *)

Fixpoint lacks (c : ascii) (s : string) : bool :=
  match s with EmptyString => true | String a s => bool_decide (a ≠ c) && lacks c s end.

Lemma until_app c s r : lacks c s = true → until c (s +:+ String c r) = Some (s, r).
Proof.
  induction s as [|a s IH]; simpl; intros H; [by rewrite bool_decide_eq_true_2|].
  apply andb_true_iff in H as [Ha%bool_decide_eq_true Hs]. rewrite bool_decide_eq_false_2 by done. by rewrite IH.
Qed.

Definition ace_ok (a : ace) : Prop := lacks ";" (ac_rights a) = true ∧ lacks ")" (ac_trustee a) = true.

Definition ace_text (a : ace) : string := "(A;;" +:+ ac_rights a +:+ ";;;" +:+ ac_trustee a +:+ ")".

Fixpoint aces_text (l : list ace) : string :=
  match l with [] => "" | a :: l => ace_text a +:+ aces_text l end.

Lemma parse_ace_text a r : ace_ok a → parse_ace (ace_text a +:+ r) = Some (a, r).
Proof.
  intros [Hr Ht]. destruct a as [rights trustee]. unfold ace_text, parse_ace. simpl in *.
  rewrite !string_app_assoc.
  cbn [strip_prefix mbind option_bind].
  change ("" +:+ rights +:+ ";;;" +:+ trustee +:+ ")" +:+ r) with (rights +:+ String ";" (";;" +:+ (trustee +:+ String ")" r))).
  rewrite (until_app _ _ _ Hr). simpl. change ("" +:+ ?x) with x. by rewrite (until_app _ _ _ Ht).
Qed.

Lemma parse_aces_text l : ∀ fuel, (length l ≤ fuel)%nat → Forall ace_ok l → parse_aces fuel (aces_text l) = Some l.
Proof.
  induction l as [|a l IH]; intros fuel Hf Hl; [by destruct fuel|]. apply Forall_cons in Hl as [Ha Hl].
  destruct fuel as [|fuel]; [simpl in Hf; lia|].
  assert (parse_aces (S fuel) (aces_text (a :: l)) =
    ('(a, s) ← parse_ace (ace_text a +:+ aces_text l); l ← parse_aces fuel s; Some (a :: l))) as -> by done.
  rewrite (parse_ace_text _ _ Ha). simpl. rewrite IH; [done|simpl in Hf; lia|done].
Qed.

(** Who may use the pipes. For any operator group there is or is not, the descriptor reads back as
    exactly these entries: the system and the administrators with every right, the members of
    the group with the right to read and write, and nobody else; the interactive users that the
    comment of [create_windows_pipe] names are not among them, on no node and no pipe. *)
Theorem pipe_access (lookup : string → option string) :
  (∀ name sid, lookup name = Some sid → lacks ")" sid = true ∧ sid ≠ "IU"%string) →
  ∃ l, parse_descriptor (pipe_descriptor lookup) = Some l ∧
    l = ([mkAce "GA" "SY"; mkAce "GA" "BA"] ++
         match operators_sid lookup with Some sid => [mkAce "GRGW" sid] | None => [] end)%list ∧
    "IU"%string ∉ ac_trustee <$> l.
Proof.
  intros Hl. assert (∀ sid, operators_sid lookup = Some sid → lacks ")" sid = true ∧ sid ≠ "IU"%string) as Ho.
  { intros sid. unfold operators_sid. destruct (lookup "FORTIQ Operators") eqn:E; [intros [= ->]|]; eauto. }
  eexists. split; [|split; [reflexivity|]].
  - unfold pipe_descriptor. destruct (operators_sid lookup) as [sid|]; [|vm_compute; reflexivity].
    destruct (Ho sid eq_refl) as [Hs _].
    assert ("D:P(A;;GA;;;SY)(A;;GA;;;BA)(A;;GRGW;;;" +:+ sid +:+ ")" =
      "D:P" +:+ aces_text [mkAce "GA" "SY"; mkAce "GA" "BA"; mkAce "GRGW" sid]) as ->.
    { simpl. unfold ace_text. simpl. by rewrite !string_app_assoc. }
    unfold parse_descriptor. change (strip_prefix "D:P" ("D:P" +:+ ?s)) with (Some s). simpl option_bind.
    apply parse_aces_text.
    + simpl. lia.
    + repeat constructor; try reflexivity; done.
  - destruct (operators_sid lookup) as [sid|]; simpl; [destruct (Ho sid eq_refl)|]; set_solver.
Qed.

Lemma pipe_access_witness :
  ∃ l, parse_descriptor (pipe_descriptor (λ name, if bool_decide (name = "FORTIQ-Operators"%string) then Some "S-1-5-32-1001"%string else None))
         = Some l ∧ length l = 3%nat ∧ "IU"%string ∉ ac_trustee <$> l.
Proof.
  destruct (pipe_access (λ name, if bool_decide (name = "FORTIQ-Operators"%string) then Some "S-1-5-32-1001"%string else None))
    as (l & Hl & -> & Hn).
  - intros name sid. destruct (bool_decide _); [|discriminate]. intros [= <-]. split; [vm_compute; reflexivity|discriminate].
  - eexists. split; [exact Hl|]. split; [vm_compute; reflexivity|exact Hn].
Defined.

(** The turns before the first pipe that could not be made. *)
Fixpoint turns_done (turns : list (bool * bool)) : nat :=
  match turns with (_, true) :: turns => S (turns_done turns) | _ => 0 end.

(** The instances whose turn ended with a client. *)
Fixpoint clients (n : nat) (turns : list (bool * bool)) : list nat :=
  match turns with
  | (connected, true) :: turns => ((if (connected : bool) then [n] else []) ++ clients (S n) turns)%list
  | _ => []
  end.

Definition makes_first (e : pipe_effect) : bool := match e with PipeCreate _ first => first | _ => false end.

Lemma pipe_loop_spec turns : ∀ n,
  let '(effects, r) := pipe_loop turns n (S n) in
  created_ids effects = seq (S n) (turns_done turns) ∧ served effects = clients n turns ∧
  Forall (λ e, makes_first e = false) effects ∧
  r = if (turns_done turns =? length turns)%nat then Ok (n + turns_done turns)%nat else Err "no pipe"%string.
Proof.
  induction turns as [|[connected []] turns IH]; intros n; simpl.
  - do 3 (split; [done|]). by rewrite Nat.add_0_r.
  - specialize (IH (S n)). destruct (pipe_loop turns (S n) (S (S n))) as [effects r]. destruct IH as (Hc & Hs & Hf & ->).
    split; [by destruct connected; simpl; rewrite <- Hc|]. split; [by destruct connected; simpl; rewrite <- Hs|].
    split; [by destruct connected; repeat constructor|]. destruct (_ =? _)%nat; [f_equal; lia|done].
  - do 2 (split; [done|]). split; [by repeat constructor|done].
Qed.

Lemma clients_bound turns : ∀ n i, i ∈ clients n turns → (n ≤ i < n + turns_done turns)%nat.
Proof.
  induction turns as [|[connected []] turns IH]; intros n i; simpl; try by intros ?%elem_of_nil.
  rewrite elem_of_app. intros [Hi|Hi%IH]; [|lia].
  destruct connected; [apply list_elem_of_singleton in Hi|by apply elem_of_nil in Hi]. lia.
Qed.

Lemma clients_NoDup turns : ∀ n, NoDup (clients n turns).
Proof.
  induction turns as [|[connected []] turns IH]; intros n; simpl; try constructor.
  destruct connected; simpl; [|apply IH]. constructor; [|apply IH]. intros Hi%clients_bound. lia.
Qed.

(** The clients of a pipe. Each instance is made once, the first alone as the first of its name;
    each client that connects is served on an instance of its own, and while the server runs
    one more instance waits, which serves nobody. It ends only when an instance cannot be made,
    and whoever had just connected is dropped. *)
Theorem pipe_clients_served (created : bool) (turns : list (bool * bool)) :
  let '(effects, r) := run_windows_pipe created turns in
  NoDup (created_ids effects) ∧ NoDup (served effects) ∧ served effects ⊆ created_ids effects ∧
  filter (λ e, makes_first e = true) effects = (if created then [PipeCreate 0 true] else []) ∧
  served effects = (if created then clients 0 turns else []) ∧
  match r with
  | Ok waiting => waiting ∈ created_ids effects ∧ ¬ (waiting ∈ served effects) ∧ Forall (λ t, t.2 = true) turns
  | Err _ => created = false ∨ ¬ Forall (λ t, t.2 = true) turns
  end.
Proof.
  unfold run_windows_pipe. destruct created; [|split; [constructor|split; [constructor|split; [done|naive_solver]]]].
  pose proof (pipe_loop_spec turns 0) as H. destruct (pipe_loop turns 0 1) as [effects r]. destruct H as (Hc & Hs & Hf & ->).
  assert (created_ids (PipeCreate 0 true :: effects) = seq 0 (S (turns_done turns))) as Hids by (simpl; by rewrite <- Hc).
  assert (served (PipeCreate 0 true :: effects) = clients 0 turns) as Hsv by (simpl; by rewrite <- Hs).
  rewrite Hids, Hsv. split; [apply NoDup_seq|]. split; [apply clients_NoDup|]. split; [|split; [|split; [done|]]].
  - intros i Hi%clients_bound. apply elem_of_seq. lia.
  - rewrite filter_cons_True by done. f_equal. clear -Hf. induction Hf as [|e l He Hl IH]; [done|].
    by rewrite filter_cons_False by (by rewrite He).
  - assert (turns_done turns = length turns ↔ Forall (λ t, t.2 = true) turns) as Hd.
    { clear. induction turns as [|[? []] turns IH]; simpl; [by split| |].
      - rewrite Forall_cons. simpl. rewrite <- IH. lia.
      - split; [lia|]. intros H%Forall_inv. done. }
    destruct (Nat.eqb_spec (turns_done turns) (length turns)) as [E|E].
    + split; [apply elem_of_seq; lia|]. split; [|by apply Hd]. intros Hi%clients_bound. lia.
    + right. by rewrite <- Hd.
Qed.
