(* ===== verification/Pty.v ===== *)
(** The process behind an admitted shell ([serve], [serve_with_revocation] and the beginning of
    [serve_pty] in [crates/fortiq-shell/src/lib.rs]), up to the banner with which the session of
    Session.v starts. The environment of the process is portable_pty's: here is what the command adds
    to it. The write of the banner is taken to succeed. *)

From S2P Require Import Prelude Text Object Ticket Concrete Codec Stream Config Shell Wire Session.

Inductive System := Linux | Windows | OtherSystem.

(** What the host answers: its files, its environment, the entries of [PATH], and whether each
    call to the pseudo-terminal succeeds. *)
Record pty_host := mkPtyHost {
  ph_system : System;
  ph_is_file : PathBuf → bool;
  ph_is_dir : PathBuf → bool;
  ph_env : environment;
  ph_path : option (list PathBuf);     (** [split_paths] of [PATH] *)
  ph_opens : bool;
  ph_spawns : bool;
  ph_clones : bool;
  ph_takes : bool
}.

(** [CommandBuilder], with the variables it adds. *)
Record shell_command := mkShellCommand {
  sc_program : PathBuf;
  sc_arguments : list string;
  sc_added : list (string * string)
}.

Inductive pty_error :=
| PtyNotOpened
| NoLinuxShell
| NoWindowsShell
| UnsupportedSystem
| UnreachableShell            (** [unreachable!] *)
| ShellNotSpawned (name : string)
| ReaderNotCloned
| WriterNotTaken.

Definition resolve_executable_in_path (h : pty_host) (program : string) : option PathBuf :=
  dirs ← ph_path h;
  head (filter (λ candidate, ph_is_file h candidate = true) ((λ directory, path_join directory (path program)) <$> dirs)).

Definition executable_in_path (h : pty_host) (program : string) : bool :=
  bool_decide (is_Some (resolve_executable_in_path h program)).

Definition detect_windows_shell (h : pty_host) : result pty_error ShellKind :=
  ok_or (detect_windows_shell_with (executable_in_path h)) NoWindowsShell.

Definition windows_command (h : pty_host) : result pty_error (ShellKind * shell_command) :=
  let? shell := detect_windows_shell h in
  let? program := ok_or (ShellKind_program shell) UnreachableShell in
  let? arguments := ok_or (ShellKind_arguments shell) UnreachableShell in
  Ok (shell, mkShellCommand (default (path program) (resolve_executable_in_path h program)) arguments []).

Definition linux_command (h : pty_host) : result pty_error (ShellKind * shell_command) :=
  let? shell := ok_or (detect_linux_shell (λ p, ph_is_file h (path p))) NoLinuxShell in
  let? program := ok_or (ShellKind_path shell) UnreachableShell in
  let home := if bool_decide (ph_env h "HOME" = None) && ph_is_dir h (path "/root") then [("HOME", "/root")]%string else [] in
  Ok (shell, mkShellCommand (path program) [] home).

Definition command_of (h : pty_host) : result pty_error (ShellKind * shell_command) :=
  match ph_system h with
  | Linux => linux_command h
  | Windows => windows_command h
  | OtherSystem => Err UnsupportedSystem
  end.

(** [serve_pty] until the select loop: what it runs, and the session that starts. *)
Definition serve_pty (h : pty_host) (info : NodeInfo) : result pty_error (shell_command * ServeState) :=
  let? _ := if ph_opens h then Ok tt else Err PtyNotOpened in
  let? (shell, cmd) := command_of h in
  let? _ := if ph_spawns h then Ok tt else Err (ShellNotSpawned (ShellKind_name shell)) in
  let? _ := if ph_clones h then Ok tt else Err ReaderNotCloned in
  let? _ := if ph_takes h then Ok tt else Err WriterNotTaken in
  Ok (cmd, serve_start info shell).

(** ** Lemmas *)

Lemma resolve_Some h program p :
  resolve_executable_in_path h program = Some p →
  ph_is_file h p = true ∧ ∃ dirs directory, ph_path h = Some dirs ∧ directory ∈ dirs ∧ p = path_join directory (path program).
Proof.
  unfold resolve_executable_in_path. destruct (ph_path h) as [dirs|]; [|done]. simpl.
  intros Hp. apply head_Some_elem_of in Hp. apply list_elem_of_filter in Hp as [Hf (d & -> & Hd)%list_elem_of_fmap]. eauto 6.
Qed.

Lemma windows_detected h shell :
  detect_windows_shell h = Ok shell →
  ∃ program arguments p, ShellKind_program shell = Some program ∧ ShellKind_arguments shell = Some arguments ∧
    resolve_executable_in_path h program = Some p.
Proof.
  unfold detect_windows_shell, detect_windows_shell_with. intros Hs%ok_or_Ok.
  destruct (head _) as [[program k]|] eqn:Hh; [|done]. injection Hs as <-.
  apply head_Some_elem_of, list_elem_of_filter in Hh as [He Hin]. simpl in He. unfold executable_in_path in He.
  apply bool_decide_eq_true in He as [p Hp].
  repeat (apply elem_of_cons in Hin as [[= -> ->]|Hin]; [simpl; eauto 6|]). by apply elem_of_nil in Hin.
Qed.

Lemma linux_command_Ok h shell cmd :
  linux_command h = Ok (shell, cmd) →
  ph_is_file h (sc_program cmd) = true ∧ ShellKind_path shell = Some (if ph_is_file h (path "/bin/bash") then "/bin/bash" else "/bin/sh")%string ∧
  sc_program cmd = path (if ph_is_file h (path "/bin/bash") then "/bin/bash" else "/bin/sh") ∧ sc_arguments cmd = [] ∧
  sc_added cmd = if bool_decide (ph_env h "HOME" = None) && ph_is_dir h (path "/root") then [("HOME", "/root")]%string else [].
Proof.
  unfold linux_command, detect_linux_shell. destruct (ph_is_file h (path "/bin/bash")) eqn:Hb; simpl; [by intros [= <- <-]|].
  destruct (ph_is_file h (path "/bin/sh")) eqn:Hs; simpl; [by intros [= <- <-]|done].
Qed.

Lemma windows_command_Ok h shell cmd :
  windows_command h = Ok (shell, cmd) →
  ph_is_file h (sc_program cmd) = true ∧ ShellKind_arguments shell = Some (sc_arguments cmd) ∧ sc_added cmd = [] ∧
  ∃ dirs directory program, ph_path h = Some dirs ∧ directory ∈ dirs ∧ ShellKind_program shell = Some program ∧
    sc_program cmd = path_join directory (path program).
Proof.
  unfold windows_command. destruct (detect_windows_shell h) as [k|] eqn:Hd; [|done]. simpl.
  destruct (windows_detected _ _ Hd) as (program & arguments & p & Hp & Ha & Hr). rewrite Hp, Ha. simpl. rewrite Hr.
  intros [= <- <-]. simpl. destruct (resolve_Some _ _ _ Hr) as (Hf & dirs & d & Hdirs & Hin & ->).
  split; [done|]. split; [done|]. split; [done|]. by exists dirs, d, program.
Qed.

Lemma command_reachable h : command_of h ≠ Err UnreachableShell.
Proof.
  unfold command_of. destruct (ph_system h); [| |done].
  - unfold linux_command, detect_linux_shell. by destruct (ph_is_file h (path "/bin/bash")), (ph_is_file h (path "/bin/sh")).
  - unfold windows_command. destruct (detect_windows_shell h) as [k|e] eqn:Hd; simpl.
    + destruct (windows_detected _ _ Hd) as (program & arguments & p & -> & -> & _). done.
    + unfold detect_windows_shell in Hd. destruct (detect_windows_shell_with _); simpl in Hd; congruence.
Qed.

(** ** Properties *)

(** C36. The process behind a shell. When a session starts, an existing shell runs: on Linux bash, or
    [/bin/sh] where there is none, without arguments; on Windows a program found in a directory of
    [PATH], by its full path and never by its bare name, with the arguments of its kind. To the
    environment the command adds one variable on Linux, the home of root, exactly where none is inherited and
    [/root] is a directory, and none on Windows. The session starts with the banner
    that names this shell. When none starts, the error is that of the first call of the host that
    failed, or that there is no shell: no arm that the code calls unreachable is reached. *)
Theorem shell_process_correct (h : pty_host) (info : NodeInfo) :
  match serve_pty h info with
  | Ok (cmd, s) =>
      ∃ shell, s = serve_start info shell ∧ ph_is_file h (sc_program cmd) = true ∧
        match ph_system h with
        | Linux =>
            shell = (if ph_is_file h (path "/bin/bash") then Bash else Sh) ∧
            sc_program cmd = path (if ph_is_file h (path "/bin/bash") then "/bin/bash" else "/bin/sh") ∧
            sc_arguments cmd = [] ∧
            (ph_env h "HOME" = None ∧ ph_is_dir h (path "/root") = true → sc_added cmd = [("HOME", "/root")]%string) ∧
            (is_Some (ph_env h "HOME") ∨ ph_is_dir h (path "/root") = false → sc_added cmd = [])
        | Windows =>
            ShellKind_arguments shell = Some (sc_arguments cmd) ∧ sc_added cmd = [] ∧
            ∃ dirs directory program, ph_path h = Some dirs ∧ directory ∈ dirs ∧ ShellKind_program shell = Some program ∧
              sc_program cmd = path_join directory (path program)
        | OtherSystem => False
        end
  | Err e =>
      e ≠ UnreachableShell ∧
      (ph_opens h = false ∧ e = PtyNotOpened ∨
       ph_opens h = true ∧ command_of h = Err e ∨
       ∃ shell cmd, ph_opens h = true ∧ command_of h = Ok (shell, cmd) ∧
         (ph_spawns h = false ∧ e = ShellNotSpawned (ShellKind_name shell) ∨
          ph_spawns h = true ∧ ph_clones h = false ∧ e = ReaderNotCloned ∨
          ph_spawns h = true ∧ ph_clones h = true ∧ ph_takes h = false ∧ e = WriterNotTaken))
  end.
Proof.
  unfold serve_pty. destruct (ph_opens h); simpl; [|by split; [|left]].
  destruct (command_of h) as [[shell cmd]|e] eqn:Hc; simpl;
    [|split; [intros ->; by apply (command_reachable h)|right; by left]].
  destruct (ph_spawns h); simpl; [|by split; [|right; right; eauto 10]].
  destruct (ph_clones h); simpl; [|by split; [|right; right; eauto 12]].
  destruct (ph_takes h); simpl; [|by split; [|right; right; eauto 14]]. exists shell. split; [done|].
  unfold command_of in Hc. destruct (ph_system h); [| |done].
  - destruct (linux_command_Ok _ _ _ Hc) as (Hf & Hs & Hp & Hargs & ->). split; [done|].
    split; [destruct (ph_is_file h (path "/bin/bash")), shell; simpl in Hs; congruence|].
    split; [done|]. split; [done|]. split; [by intros [-> ->]|].
    intros [[home ->]| ->]; [done|]. by rewrite andb_false_r.
  - destruct (windows_command_Ok _ _ _ Hc) as (Hf & Hargs & Ha & Hd). done.
Qed.
