(* ===== verification/WindowsService.v ===== *)
(** The node as a Windows service (the module [windows] of
    [apps/fortiq-service/src/service_manager.rs]): what is asked of the service manager to
    install, remove, start and stop it, and how the service runs under it. *)

From S2P Require Import Prelude Text Stream Config Transfer Service Terminal Machine Install.

(** ** The service manager *)

Definition SERVICE_NAME : string := "FortiqService".
Definition SERVICE_DISPLAY_NAME : string := "FORTIQ Sovereign Remote Administration Node".
Inductive ScmState := Stopped | StartPending | StopPending | RunningState | ContinuePending | PausePending | Paused.

Inductive ServiceAccess := AccessQueryStatus | AccessStart | AccessStop | AccessDelete | AccessChangeConfig.

(** [ServiceInfo]: its own process, started with the system, errors handled normally, no
    dependencies and no account of its own. *)
Record ServiceInfo := mkServiceInfo {
  si_name : string;
  si_display_name : string;
  si_auto_start : bool;
  si_executable_path : PathBuf;
  si_launch_arguments : list string;
  si_account : option string
}.

(** The calls; on the service that was opened or created last. *)
Inductive scm_call :=
| ScConnect (create_service : bool)
| ScCreateService (info : ServiceInfo)
| ScOpenService (name : string) (access : list ServiceAccess)
| ScSetDescription (description : string)
| ScQueryStatus
| ScStart
| ScStop
| ScDelete
| ScSleep (milliseconds : N)
| ScPrint (line : string).

(** [an_ok]: the call succeeds; [an_state]: the state a query finds. *)
Record scm_answer := mkAnswer { an_ok : bool; an_state : ScmState }.

Inductive scm (A : Type) :=
| Done (a : A)
| Ask (c : scm_call) (k : scm_answer → scm A).
Arguments Done {A} a.
Arguments Ask {A} c k.

(** A call whose failure ends the command. *)
Definition require {A} (c : scm_call) (message : string) (k : scm_answer → scm (result string A)) : scm (result string A) :=
  Ask c (λ a, if an_ok a then k a else Done (Err message)).

(** The calls that were made, and the result; [answers] gives the answer to each. *)
Fixpoint scm_run {A} (answers : nat → scm_answer) (i : nat) (m : scm A) : list scm_call * A :=
  match m with
  | Done a => ([], a)
  | Ask c k => let '(calls, a) := scm_run answers (S i) (k (answers i)) in (c :: calls, a)
  end.

Fixpoint scm_prints (lines : list string) : scm (result string unit) :=
  match lines with [] => Done (Ok tt) | line :: lines => Ask (ScPrint line) (λ _, scm_prints lines) end.

(** ** The commands *)

Section commands.
(** [current_exe], [system_service_default_path], and the text of a path on Windows. *)
Variables (exe : option PathBuf) (default_config : PathBuf) (path_text : PathBuf → string).

Definition service_info (exe_path config_arg : PathBuf) : ServiceInfo :=
  mkServiceInfo SERVICE_NAME SERVICE_DISPLAY_NAME true exe_path
    ["--service-run"; "--config"; path_text config_arg]%string None.

Definition manager_failed : string := "Failed to connect to Windows Service Manager".
Definition manager_failed_admin : string :=
  "Failed to connect to Windows Service Manager (Administrator rights required)".

Definition windows_install_service (config_path : option PathBuf) : scm (result string unit) :=
  match exe with
  | None => Done (Err "Failed to get current executable path"%string)
  | Some exe_path =>
      let config_arg := default default_config config_path in
      require (ScConnect true) manager_failed_admin (λ _,
      require (ScCreateService (service_info exe_path config_arg)) "Failed to create Windows service" (λ _,
      require (ScSetDescription SERVICE_DESCRIPTION) "Failed to set service description" (λ _,
      scm_prints ["Service '" +:+ SERVICE_NAME +:+ "' successfully installed."; "Display Name: " +:+ SERVICE_DISPLAY_NAME;
        "Config:       " +:+ path_text config_arg; "Start Type:   Automatic"; from_bytes [x0a] +:+
        "You can start the service with: fortiq-service service start"])))
  end.

Definition windows_uninstall_service : scm (result string unit) :=
  require (ScConnect false) manager_failed_admin (λ _,
  require (ScOpenService SERVICE_NAME [AccessStop; AccessDelete; AccessQueryStatus]) "Service is not installed or access denied" (λ _,
  let remove := require ScDelete "Failed to delete service" (λ _,
    scm_prints ["Service '" +:+ SERVICE_NAME +:+ "' successfully uninstalled."]) in
  Ask ScQueryStatus (λ status,
  if an_ok status && match an_state status with Stopped => false | _ => true end
  then Ask ScStop (λ _, Ask (ScSleep 500) (λ _, remove))
  else remove))).

Definition windows_start_service : scm (result string unit) :=
  require (ScConnect false) manager_failed (λ _,
  require (ScOpenService SERVICE_NAME [AccessStart]) "Failed to open service for start" (λ _,
  require ScStart "Failed to start service" (λ _,
  scm_prints ["Start request sent to service '" +:+ SERVICE_NAME +:+ "'."]))).

Definition windows_stop_service : scm (result string unit) :=
  require (ScConnect false) manager_failed (λ _,
  require (ScOpenService SERVICE_NAME [AccessStop]) "Failed to open service for stop" (λ _,
  require ScStop "Failed to stop service" (λ _,
  scm_prints ["Stop request sent to service '" +:+ SERVICE_NAME +:+ "'."]))).

Definition ScmState_str (s : ScmState) : string :=
  match s with
  | Stopped => "STOPPED" | StartPending => "START_PENDING" | StopPending => "STOP_PENDING" | RunningState => "RUNNING"
  | ContinuePending => "CONTINUE_PENDING" | PausePending => "PAUSE_PENDING" | Paused => "PAUSED"
  end.

Definition windows_status_service : scm (result string unit) :=
  require (ScConnect false) manager_failed (λ _,
  require (ScOpenService SERVICE_NAME [AccessQueryStatus])
    ("Service '" +:+ SERVICE_NAME +:+ "' is not installed or access denied") (λ _,
  require ScQueryStatus "Failed to query service status" (λ status,
  scm_prints ["Service '" +:+ SERVICE_NAME +:+ "': " +:+ ScmState_str (an_state status)]))).

Inductive WindowsAction := WinInstall (config : option PathBuf) | WinUninstall | WinStart | WinStop | WinStatus.

(** [install], [uninstall], [start], [stop] and [status] of the module above. *)
Definition manage_windows (action : WindowsAction) : scm (result string unit) :=
  match action with
  | WinInstall config => windows_install_service config
  | WinUninstall => windows_uninstall_service
  | WinStart => windows_start_service
  | WinStop => windows_stop_service
  | WinStatus => windows_status_service
  end.
End commands.

(** ** Running under the manager *)

Inductive ServiceControl := ControlStop | ControlShutdown | ControlInterrogate | ControlOther.
Inductive handler_result := NoError | NotImplemented.

(** The handler of [run_service]: whether it tells the loop to stop, and its answer. *)
Definition event_handler (c : ServiceControl) : bool * handler_result :=
  match c with
  | ControlStop | ControlShutdown => (true, NoError)
  | ControlInterrogate => (false, NoError)
  | ControlOther => (false, NotImplemented)
  end.

(** [ServiceStatus]: the state, the controls that are accepted, the exit code. *)
Record ServiceStatus := mkServiceStatus { ss_state : ScmState; ss_accepts_stop : bool; ss_exit_code : N }.

Definition running_status : ServiceStatus := mkServiceStatus RunningState true 0.
Definition stopped_status : ServiceStatus := mkServiceStatus Stopped false 0.

(** What happens while the service runs. *)
Inductive scm_event :=
| SeControl (c : ServiceControl)
| SeDaemonEnded (r : result string unit).

Inductive service_effect :=
| SfRegister (name : string)
| SfStatus (status : ServiceStatus)
| SfRunDaemon (config : PathBuf)
| SfAnswer (c : ServiceControl) (r : handler_result)
| SfLog (line : string).

(** The [select!]: until the daemon ends or a control tells it to stop. *)
Fixpoint service_wait (events : list scm_event) : list service_effect * bool :=
  match events with
  | [] => ([], false)
  | SeControl c :: events =>
      let '(stop, r) := event_handler c in
      if stop then ([SfAnswer c r; SfLog "Service stop signal received, shutting down daemon cleanly."], true)
      else let '(effects, ended) := service_wait events in (SfAnswer c r :: effects, ended)
  | SeDaemonEnded (Err e) :: _ => ([SfLog ("Daemon execution error: " +:+ e)], true)
  | SeDaemonEnded (Ok _) :: _ => ([], true)
  end.

(** What the system answers to the steps that can fail. *)
Record scm_host := mkServiceHost {
  sh_registers : bool;
  sh_sets_running : bool;
  sh_builds_runtime : bool;
  sh_sets_stopped : bool
}.

(** [CONFIG_PATH], or the path that is found. [None]: still running. *)
Definition windows_run_service (h : scm_host) (config_path : option PathBuf) (found : PathBuf) (events : list scm_event)
    : list service_effect * option (result string unit) :=
  if negb (sh_registers h) then ([SfRegister SERVICE_NAME], Some (Err "Failed to register service control handler"%string)) else
  if negb (sh_sets_running h) then
    ([SfRegister SERVICE_NAME; SfStatus running_status], Some (Err "Failed to set service status to RUNNING"%string)) else
  if negb (sh_builds_runtime h) then
    ([SfRegister SERVICE_NAME; SfStatus running_status], Some (Err "Failed to build Tokio runtime for service"%string)) else
  let '(effects, ended) := service_wait events in
  let started := ([SfRegister SERVICE_NAME; SfStatus running_status; SfRunDaemon (default found config_path)] ++ effects)%list in
  if ended then
    ((started ++ [SfStatus stopped_status])%list,
     Some (if sh_sets_stopped h then Ok tt else Err "Failed to set service status to STOPPED"%string))
  else (started, None).

(** [my_service_main]. *)
Definition my_service_main (h : scm_host) (config_path : option PathBuf) (found : PathBuf) (events : list scm_event)
    : list service_effect :=
  match windows_run_service h config_path found events with
  | (effects, Some (Err e)) => (effects ++ [SfLog ("Service failed: " +:+ e)])%list
  | (effects, _) => effects
  end.

(** ** Properties *)

(** The right that the manager wants for a call. *)
Definition needs (c : scm_call) : option ServiceAccess :=
  match c with
  | ScSetDescription _ => Some AccessChangeConfig
  | ScQueryStatus => Some AccessQueryStatus
  | ScStart => Some AccessStart
  | ScStop => Some AccessStop
  | ScDelete => Some AccessDelete
  | _ => None
  end.

#[export] Instance ServiceAccess_eq_dec : EqDecision ServiceAccess.
Proof. solve_decision. Defined.

(** Each call comes after the connection and the handle that allow it, and every right that
    is asked for is one of those. [manager]: what the connection allows, if there is one. *)
Fixpoint authorised (manager : option bool) (handle : list ServiceAccess) (calls : list scm_call) : bool :=
  match calls with
  | [] => true
  | ScConnect create :: calls => authorised (Some create) [] calls
  | ScCreateService _ :: calls =>
      match manager with Some true => authorised manager [AccessChangeConfig] calls | _ => false end
  | ScOpenService _ access :: calls =>
      match manager with Some _ => authorised manager access calls | None => false end
  | c :: calls =>
      match needs c with Some access => bool_decide (access ∈ handle) | None => true end && authorised manager handle calls
  end.

(** The commands on Windows. Whatever the manager answers, each call is made on a handle that was
    opened with the right it needs, and none is made after one that had to succeed failed.
    Installing ends well exactly when the service was made, as one that starts with the system
    and runs this program with the configuration given, and described; removing it ends well
    exactly when it was deleted, after it was asked to stop if it was not stopped. *)
Theorem windows_commands_correct exe default_config path_text answers :
  (∀ action, authorised None [] (scm_run answers 0 (manage_windows exe default_config path_text action)).1 = true) ∧
  (∀ config, let '(calls, r) := scm_run answers 0 (windows_install_service exe default_config path_text config) in
     (∃ info, ScCreateService info ∈ calls) → ∃ exe_path, exe = Some exe_path ∧
       ScCreateService (service_info path_text exe_path (default default_config config)) ∈ calls ∧
       (r = Ok tt ↔ an_ok (answers 1%nat) = true ∧ an_ok (answers 2%nat) = true)) ∧
  (let '(calls, r) := scm_run answers 0 windows_uninstall_service in
     (ScStop ∈ calls → ∃ status, status = answers 2%nat ∧ an_ok status = true ∧ an_state status ≠ Stopped) ∧
     (r = Ok tt → ScDelete ∈ calls) ∧
     (∀ e, r = Err e → e = "Failed to delete service"%string ∨ ScDelete ∉ calls)).
Proof.
  split; [|split].
  - intros [config| | | |]; simpl; unfold windows_install_service, windows_uninstall_service, windows_start_service, windows_stop_service, windows_status_service, require;
      [destruct exe; [|done]|..]; simpl;
      repeat match goal with |- context [an_ok (answers ?i)] => destruct (an_ok (answers i)); simpl; try done end.
    destruct (an_state _); simpl; repeat match goal with |- context [an_ok (answers ?i)] => destruct (an_ok (answers i)); simpl; try done end.
  - intros config. unfold windows_install_service, require. destruct exe as [exe_path|]; [|simpl; intros [? H]; by apply elem_of_nil in H].
    simpl. destruct (an_ok (answers 0%nat)); simpl; [|intros [? H]; set_solver].
    destruct (an_ok (answers 1%nat)) eqn:E1; simpl; [destruct (an_ok (answers 2%nat)) eqn:E2; simpl|];
      intros _; exists exe_path; (split; [done|]); (split; [set_solver|]); split; try done; by intros [].
  - unfold windows_uninstall_service, require. simpl. destruct (an_ok (answers 0%nat)); simpl; [|set_solver].
    destruct (an_ok (answers 1%nat)); simpl; [|set_solver].
    destruct (an_ok (answers 2%nat) && _) eqn:E; simpl.
    + apply andb_true_iff in E as [Eo Es]. assert (∃ status, status = answers 2%nat ∧ an_ok status = true ∧ an_state status ≠ Stopped) as Hs
        by (exists (answers 2%nat); split; [done|]; split; [done|]; by destruct (an_state _)).
      destruct (an_ok (answers 5%nat)); simpl; (split; [done|]); (split; [intros _; set_solver|]); set_solver.
    + destruct (an_ok (answers 3%nat)); simpl; (split; [set_solver|]); (split; [set_solver|]); set_solver.
Qed.

Definition reported (effects : list service_effect) : list ServiceStatus :=
  omap (λ e, match e with SfStatus s => Some s | _ => None end) effects.
Definition controls_answered (effects : list service_effect) : list (ServiceControl * handler_result) :=
  omap (λ e, match e with SfAnswer c r => Some (c, r) | _ => None end) effects.

(** What ends the service. *)
Definition ends (e : scm_event) : bool :=
  match e with SeControl c => (event_handler c).1 | SeDaemonEnded _ => true end.

(** The events up to the first that ends it, with that one. *)
Fixpoint up_to_end (events : list scm_event) : list scm_event :=
  match events with [] => [] | e :: events => e :: if ends e then [] else up_to_end events end.

Definition controls (events : list scm_event) : list ServiceControl :=
  omap (λ e, match e with SeControl c => Some c | _ => None end) events.

Lemma service_wait_spec events :
  let '(effects, ended) := service_wait events in
  ended = existsb ends events ∧ reported effects = [] ∧
  controls_answered effects = (λ c, (c, (event_handler c).2)) <$> controls (up_to_end events).
Proof.
  induction events as [|[c|[[]|e]] events IH]; simpl; try done.
  destruct c; simpl; try done;
    destruct (service_wait events) as [effects ended]; destruct IH as (-> & Hr & Ha);
    (split; [done|]); (split; [done|]); exact (f_equal (cons _) Ha).
Qed.

Lemma reported_app l l' : reported (l ++ l') = (reported l ++ reported l')%list.
Proof. apply omap_app. Qed.

Lemma answered_app l l' : controls_answered (l ++ l') = (controls_answered l ++ controls_answered l')%list.
Proof. apply omap_app. Qed.

(** The service under its manager. A service that could start reports that it runs before the node is
    started, and answers each control as it comes, with nothing left unanswered; it goes on
    until a stop, a shutdown or the end of the node, whichever is first, and then reports that
    it stopped, normally: of a node that failed the manager learns the same as of one that was
    told to stop. *)
Theorem service_status_reported (h : scm_host) (config_path : option PathBuf) (found : PathBuf)
    (events : list scm_event) :
  sh_registers h = true → sh_sets_running h = true → sh_builds_runtime h = true →
  let '(effects, r) := windows_run_service h config_path found events in
  take 3 effects = [SfRegister SERVICE_NAME; SfStatus running_status; SfRunDaemon (default found config_path)] ∧
  controls_answered effects = (λ c, (c, (event_handler c).2)) <$> controls (up_to_end events) ∧
  (r = None ↔ existsb ends events = false) ∧
  reported effects = (if existsb ends events then [running_status; stopped_status] else [running_status]) ∧
  (∀ r', r = Some r' → last effects = Some (SfStatus stopped_status) ∧ (r' = Ok tt ↔ sh_sets_stopped h = true)).
Proof.
  intros H1 H2 H3. unfold windows_run_service. rewrite H1, H2, H3. simpl negb. cbn iota.
  pose proof (service_wait_spec events) as Hw. destruct (service_wait events) as [effects ended]. destruct Hw as (-> & Hr & Ha).
  destruct (existsb ends events); simpl.
  - split; [done|]. split; [|split; [|split]].
    + unfold controls_answered in *. simpl. by rewrite omap_app, Ha, app_nil_r.
    + by destruct (sh_sets_stopped h).
    + unfold reported in *. simpl. by rewrite omap_app, Hr.
    + intros r' [= <-]. split; [|by destruct (sh_sets_stopped h)]. change (last (([SfRegister SERVICE_NAME; SfStatus running_status; SfRunDaemon (default found config_path)] ++ effects) ++
        [SfStatus stopped_status]) = Some (SfStatus stopped_status)). apply last_snoc.
  - split; [done|]. split; [|split; [done|split; [|done]]].
    + unfold controls_answered in *. simpl. by rewrite Ha.
    + unfold reported in *. simpl. by rewrite Hr.
Qed.

Lemma service_status_reported_witness :
  let h := mkServiceHost true true true true in
  reported (windows_run_service h None (path "a") [SeControl ControlInterrogate; SeDaemonEnded (Err "no address"%string)]).1 =
    [running_status; stopped_status].
Proof.
  intros h. pose proof (service_status_reported h None (path "a")
    [SeControl ControlInterrogate; SeDaemonEnded (Err "no address"%string)] eq_refl eq_refl eq_refl) as H.
  destruct (windows_run_service h None (path "a") _) as [effects r]. destruct H as (_ & _ & _ & H & _). exact H.
Defined.
