(* ===== verification/Launch.v ===== *)
(** What a started service launches: the swarm and the event loop of its node ([run] and the
    beginning of [event_loop] in [crates/fortiq-p2p/src/node.rs]), and the process of an
    admitted shell ([serve_pty] in [crates/fortiq-shell/src/lib.rs]). *)

From S2P Require Import Prelude Text Object Concrete Ticket Event Graph GraphSort.
From S2P Require Import Reducer Authority Store Engine EngineRuns Codec Stream Config Shell Mnemonic Wire Sync.
From S2P Require Import Peers Admission Transfer Client Node Service Machine Address Install Startup.

(** ** The behaviours of the swarm *)

(** [relay::Config], with what is allowed to one peer and to one address: how many in how many
    seconds. *)
Record relay_limits := mkRelayLimits {
  max_reservations : N;
  max_reservations_per_peer : N;
  reservation_duration : N;
  max_circuits : N;
  max_circuits_per_peer : N;
  max_circuit_duration : N;
  max_circuit_bytes : N;
  reservation_rate_per_peer : option (N * N);
  reservation_rate_per_ip : option (N * N);
  circuit_src_per_peer : option (N * N);
  circuit_src_per_ip : option (N * N)
}.

Definition relay_config (rate_limit : bool) : relay_limits :=
  let rate (x : N * N) := if rate_limit then Some x else None in
  mkRelayLimits 256 16 3600 256 16 (2 * 3600) (1024 * 1024 * 1024)
    (rate (60, 10)) (rate (120, 5)) (rate (60, 2)) (rate (120, 1)).

(** The optional parts of [Behaviour]. *)
Record Behaviour := mkBehaviour {
  rendezvous_server : bool;
  relay_server : option relay_limits;
  dcutr : bool
}.

Definition behaviour (c : CapabilitiesConfig) : Behaviour :=
  mkBehaviour (cc_rendezvous c) (if cc_relay c then Some (relay_config (cc_relay_rate_limit c)) else None) (cc_dcutr c).

(** ** The node *)

Section run.
Context `{CC : Crypto, LP : Libp2p, KP : !Keypairs, CG : Cbor Genesis}.
Context {St : Type} `{OS : !ObjectStore St}.
Implicit Types (en : TicketEngine St) (st : Started).

(** The calls to the swarm. *)
Inductive swarm_op :=
| SwListenQuic (address : list Protocol)
| SwExternal (address : Multiaddr)
| SwListen (address : Multiaddr)
| SwDial (address : Multiaddr)
| SwAccept (protocol : string).

Definition SHELL_PROTOCOL_V3 : string := "/fortiq/shell/3.0".
Definition FILE_PROTOCOL : string := "/fortiq/file/3.0".

(** A call that the swarm may refuse. *)
Definition swarm_call (accepts : swarm_op → bool) (op : swarm_op) (message : string)
    : StateM (list swarm_op) string unit :=
  λ ops, (if accepts op then Ok tt else Err message, (ops ++ [op])%list).

Definition legacy_shell : string := "legacy shell/1.0 is disabled; open a ticket-scoped shell through the service IPC".

(** The authority of the node: nothing when the genesis cannot be read or is not valid. *)
Definition load_authority (read : os_result bytes) : option AuthorityContext :=
  match read with
  | Ok bytes =>
      match from_canonical_cbor bytes LIMITS_CONTROL with
      | Ok genesis =>
          if is_ok (Genesis_verify genesis)
          then match AuthorityContext_from_genesis genesis with Ok ctx => Some ctx | Err _ => None end
          else None
      | Err _ => None
      end
  | Err _ => None
  end.

(** The tables with which [event_loop] starts. *)
Definition node_start en : NodeState St :=
  mkNode en PeerRegistry_new ∅ ∅ ∅ ∅ ∅ ∅ ∅ MAX_PARALLEL_FILES false [].

(** [run] until the loop: [en] is the store that was opened, [genesis] what reading the genesis
    gives now. *)
Definition node_run (accepts : swarm_op → bool) (genesis : os_result bytes) en st
    : StateM (list swarm_op) string (node_options * NodeState St) :=
  let network := cfg_network (st_config st) in
  let! _ := match st_shell_peer st with Some _ => sfail legacy_shell | None => sret tt end in
  let! _ := swarm_call accepts (SwListenQuic (st_listen st)) "failed to listen on QUIC address" in
  let! _ := match public_addr network with
            | Some text =>
                let! public_address := slift (ok_or (parse_multiaddr text) "network.public_addr is invalid"%string) in
                λ ops, (Ok tt, (ops ++ [SwExternal public_address])%list)
            | None => sret tt
            end in
  let! _ := match relay_peer network with
            | Some text =>
                let! relay_address := slift (ok_or (parse_multiaddr text) "network.relay_peer is invalid"%string) in
                swarm_call accepts (SwListen (push_circuit relay_address)) "failed to request relay reservation"
            | None => sret tt
            end in
  let! _ := match st_dial st with
            | Some address => swarm_call accepts (SwDial address) "failed to start dial"
            | None => sret tt
            end in
  let! _ := swarm_call accepts (SwAccept SHELL_PROTOCOL_V3) "shell next protocol already registered" in
  let! _ := swarm_call accepts (SwAccept FILE_PROTOCOL) "file protocol already registered" in
  sret (mkNodeOptions (st_info st) (keypair_peer_id (st_keypair st)) (relay_peer network) (load_authority genesis),
        node_start en).

(** What a start asks of the swarm, with the error of each call. *)
Definition swarm_plan st : list (swarm_op * option string) :=
  let network := cfg_network (st_config st) in
  [(SwListenQuic (st_listen st), Some "failed to listen on QUIC address")] ++
  match public_addr network ≫= parse_multiaddr with Some a => [(SwExternal a, None)] | None => [] end ++
  match relay_peer network ≫= parse_multiaddr with
  | Some a => [(SwListen (push_circuit a), Some "failed to request relay reservation")]
  | None => []
  end ++
  match st_dial st with Some a => [(SwDial a, Some "failed to start dial")] | None => [] end ++
  [(SwAccept SHELL_PROTOCOL_V3, Some "shell next protocol already registered");
   (SwAccept FILE_PROTOCOL, Some "file protocol already registered")]%list%string.

Fixpoint follow_plan (accepts : swarm_op → bool) (plan : list (swarm_op * option string))
    : StateM (list swarm_op) string unit :=
  match plan with
  | [] => sret tt
  | (op, None) :: plan => λ ops, follow_plan accepts plan (ops ++ [op])%list
  | (op, Some message) :: plan => let! _ := swarm_call accepts op message in follow_plan accepts plan
  end.
End run.

(** ** Turns of the loop, one after the other *)

Section turns.
Context `{CC : Crypto, HX : Hex, BC : BodyCodec, OC : ObjectCodec, OB : OutboxCodec}.
Context `{LP : Libp2p, CB : Cbor OperatorSessionCertificate, ET : ErrorText}.
Context `{JI : Json NodeInfo, JT : Json TicketSyncRequest, JP : Json FileSendOutboxPayload}.
Context `{JS : Json ShellNextHandshake}.
Context {St : Type} `{OS : !ObjectStore St}.
Implicit Types (s : NodeState St) (o : node_options) (io : loop_io).

Fixpoint event_loop o (l : list (loop_io * LoopEvent)) s : list NodeEffect * NodeState St :=
  match l with
  | [] => ([], s)
  | (io, event) :: l =>
      let '(effects, s) := event_loop_turn o io event s in
      let '(effects', s) := event_loop o l s in
      (effects ++ effects', s)%list
  end.

(** The callers that the events bring, each as the loop is when it comes. *)
Fixpoint brought o (l : list (loop_io * LoopEvent)) s : list Sender :=
  match l with
  | [] => []
  | (io, event) :: l => (new_callers io event s ++ brought o l (event_loop_turn o io event s).2)%list
  end.

(** No request id is given twice. *)
Fixpoint ids_distinct (l : list (loop_io * LoopEvent)) : Prop :=
  match l with
  | [] => True
  | (io, _) :: l =>
      Inj (=) (=) (li_request_id io) ∧
      Forall (λ t, ∀ k k', li_request_id t.1 k ≠ li_request_id io k') l ∧ ids_distinct l
  end.

(** Receptions that hold a permit, started and ended. *)
Definition takes_permit (e : NodeEffect) : bool :=
  match e with SpawnReceive _ true => true | _ => false end.
Definition ends_reception (t : loop_io * LoopEvent) : bool :=
  match t.2 with LeFileEnded => true | _ => false end.

Definition count {A} (f : A → bool) (l : list A) : nat := length (filter (λ x, f x = true) l).
End turns.

(** ** Lemmas *)

Lemma count_app {A} (f : A → bool) l l' : count f (l ++ l') = (count f l + count f l')%nat.
Proof. unfold count. by rewrite filter_app, length_app. Qed.

Lemma count_none {A} (f : A → bool) l : (∀ x, x ∈ l → f x = false) → count f l = 0%nat.
Proof.
  intros Hf. unfold count. induction l as [|x l IH]; [done|]. rewrite filter_cons_False.
  - apply IH. intros y Hy. apply Hf. by right.
  - rewrite Hf by left. done.
Qed.

Lemma count_map {A B} (f : B → bool) (g : A → B) l : (∀ x, f (g x) = false) → count f (g <$> l) = 0%nat.
Proof. intros Hf. apply count_none. intros y (x & -> & _)%list_elem_of_fmap. apply Hf. Qed.

Lemma count_imap {A B} (f : B → bool) (g : nat → A → B) l : (∀ k x, f (g k x) = false) → count f (imap g l) = 0%nat.
Proof. intros Hf. apply count_none. intros y (k & x & -> & _)%elem_of_lookup_imap. apply Hf. Qed.

Section turn_properties.
Context `{CC : Crypto, CL : !CryptoLaws, HX : Hex, BC : BodyCodec, BL : !BodyCodecLaws, OC : ObjectCodec}.
Context `{OB : OutboxCodec, OBL : !OutboxCodecLaws, LP : Libp2p, LL : !Libp2pLaws}.
Context `{CB : Cbor OperatorSessionCertificate, ET : ErrorText}.
Context `{JI : Json NodeInfo, JT : Json TicketSyncRequest, JTL : !JsonLaws TicketSyncRequest}.
Context `{JP : Json FileSendOutboxPayload, JPL : !JsonLaws FileSendOutboxPayload}.
Context `{JS : Json ShellNextHandshake}.
Context {St : Type} `{OS : !ObjectStore St, OL : !ObjectStoreLaws St}.
Implicit Types (s : NodeState St) (o : node_options) (io : loop_io).

(** An id that a turn does not give is not waited for because of it. *)
Definition adds_no_other io s s' : Prop :=
  ∀ i, (∀ k, li_request_id io k ≠ i) →
    (nd_sync_tickets s !! i = None → nd_sync_tickets s' !! i = None) ∧
    (nd_chat_messages s !! i = None → nd_chat_messages s' !! i = None).

Lemma send_tickets_other io peer l m i :
  (∀ k, li_request_id io k ≠ i) → (send_tickets io peer l m).2 !! i = m !! i.
Proof. intros Hi. apply foldl_insert_other. rewrite fmap_imap. intros (k & x & -> & _)%elem_of_lookup_imap. by apply (Hi k). Qed.

Lemma send_chats_other io peer l m i :
  (∀ k, li_request_id io k ≠ i) → (send_chats io peer l m).2 !! i = m !! i.
Proof. intros Hi. apply foldl_insert_other. rewrite fmap_imap. intros (k & x & -> & _)%elem_of_lookup_imap. by apply (Hi k). Qed.

Lemma same_requests io s s' :
  nd_sync_tickets s' = nd_sync_tickets s → nd_chat_messages s' = nd_chat_messages s → adds_no_other io s s'.
Proof. intros H1 H2 i _. by rewrite H1, H2. Qed.

Lemma forward_sync_other o io peer dial r s : adds_no_other io s (forward_sync o io peer dial r s).2.
Proof.
  unfold forward_sync. destruct (li_connected io peer); [|by apply same_requests].
  intros i Hi. pose proof (send_tickets_other io peer [r] (nd_sync_tickets s) i Hi) as H.
  destruct (send_tickets _ _ _ _). simpl in *. by rewrite H.
Qed.

Lemma command_other o io cmd s : adds_no_other io s (on_command o io cmd s).2.
Proof.
  destruct cmd as [to|? ? ? to|peer dial p|peer dial request to|peer dial m to|peer dial t f c k to]; simpl.
  1-2: by apply same_requests.
  - unfold on_open_shell_next. destruct (li_connected io peer); [by apply same_requests|].
    destruct (start_dial _ _ _ _ _) as [? [|]]; by apply same_requests.
  - unfold on_sync_tickets. destruct (is_ticket_mutation request); [|apply forward_sync_other].
    destruct (enqueue_json _ _ _ _ _) as [[i|] en]; [|by apply same_requests].
    exact (forward_sync_other o io peer dial _ (with_engine s en)).
  - unfold on_send_chat. destruct (li_connected io peer); [|by apply same_requests].
    intros i Hi. pose proof (send_chats_other io peer [(m, to)] (nd_chat_messages s) i Hi) as H.
    destruct (send_chats _ _ _ _). simpl in *. by rewrite H.
  - unfold on_send_file. destruct (enqueue_json _ _ _ _ _) as [[i|] en]; [|by apply same_requests].
    destruct (li_connected io peer); by apply same_requests.
Qed.

Lemma established_other o io peer addr is_dialer s :
  adds_no_other io s (on_established o io peer addr is_dialer s).2.
Proof.
  intros i Hi. unfold on_established.
  set (l1 := (taken peer (nd_sync_dials s) ++ _)%list). set (l2 := (taken peer (nd_chat_dials s) ++ _)%list).
  pose proof (send_tickets_other io peer l1 (nd_sync_tickets s) i Hi) as H1.
  pose proof (send_chats_other io peer l2 (nd_chat_messages s) i Hi) as H2.
  destruct (send_tickets _ _ _ _), (send_chats _ _ _ _). simpl in *. by rewrite H1, H2.
Qed.

Lemma delete_None `{Countable K} {A} (m : gmap K A) i j : m !! i = None → delete j m !! i = None.
Proof. intros Hi. destruct (decide (i = j)) as [->|]; [apply lookup_delete_eq|by rewrite lookup_delete_ne]. Qed.

Lemma turn_other o io event s : adds_no_other io s (event_loop_turn o io event s).2.
Proof.
  destruct event as [cmd|peer sio w|peer| | |addr|peer addr d|peer n|ev|nio ev|nio ev|regs| |peer v l ob lo pr|peer e|];
    simpl; try (by apply same_requests).
  - apply command_other.
  - destruct (handle_incoming_shell_next _ _ _ _ _ _). by apply same_requests.
  - destruct (nd_file_slots s); by apply same_requests.
  - exact (established_other o io peer addr d s).
  - destruct (handle_hello _ _ _ _). by apply same_requests.
  - intros i _. destruct ev as [p request channel|j response|j error|]; simpl; [| | |done].
    + by destruct (handle_ticket_request _ _ _ _ _ _).
    + destruct (nd_sync_tickets s !! j); simpl; [|done]. split; [apply delete_None|done].
    + destruct (nd_sync_tickets s !! j); simpl; [|done]. split; [apply delete_None|done].
  - intros i _. destruct ev as [p request channel|j response|j error|]; simpl; [| | |done].
    + by destruct (handle_chat_request _ _ _ _ _ _).
    + destruct (nd_chat_messages s !! j); simpl; [|done]. split; [done|apply delete_None].
    + destruct (nd_chat_messages s !! j); simpl; [|done]. split; [done|apply delete_None].
  - unfold handle_rendezvous_client. destruct (foldl _ _ _). by apply same_requests.
  - unfold on_identify. destruct (existsb _ _); by apply same_requests.
  - unfold on_outgoing_error. destruct peer; [|by apply same_requests]. destruct (li_connected _ _); by apply same_requests.
Qed.

(** What waits under an id of a later turn is not there yet. *)
Definition unissued (l : list (loop_io * LoopEvent)) s : Prop :=
  ∀ t k, t ∈ l → nd_sync_tickets s !! li_request_id t.1 k = None ∧ nd_chat_messages s !! li_request_id t.1 k = None.

Lemma unissued_step o io event l s :
  Forall (λ t, ∀ k k', li_request_id t.1 k ≠ li_request_id io k') l →
  unissued ((io, event) :: l) s → unissued l (event_loop_turn o io event s).2.
Proof.
  intros Hd Hu t k Ht. rewrite Forall_forall in Hd. destruct (Hu t k) as [H1 H2]; [by right|].
  destruct (turn_other o io event s (li_request_id t.1 k)) as [H3 H4]; [|auto].
  intros k' E. by apply (Hd t Ht k k').
Qed.

Lemma unissued_fresh io event l s : Inj (=) (=) (li_request_id io) → unissued ((io, event) :: l) s → fresh_ids io s.
Proof. intros Hi Hu. split; [done|..]; intros k; apply (Hu (io, event) k); left. Qed.

(** From one turn to all of them. *)
Lemma event_loop_accounted o l : ∀ s,
  parse_peer_id (ni_peer_id (no_local_info o)) = Some (no_local_peer o) → ids_distinct l → unissued l s →
  ((event_loop o l s).1 ≫= handled) ++ waiting_callers (event_loop o l s).2 ≡ₚ waiting_callers s ++ brought o l s.
Proof.
  induction l as [|[io event] l IH]; intros s Hl Hd Hu; [simpl; by rewrite app_nil_r|]. destruct Hd as (Hi & Hf & Hd). simpl.
  pose proof (callers_accounted o io event s Hl (unissued_fresh _ _ _ _ Hi Hu)) as Ht.
  specialize (IH _ Hl Hd (unissued_step o io event l s Hf Hu)).
  destruct (event_loop_turn o io event s) as [effects s1]. simpl in *.
  destruct (event_loop o l s1) as [effects' s2]. simpl in *. rewrite bind_app, <- app_assoc, IH, app_assoc, Ht.
  by rewrite app_assoc.
Qed.

(** What only a reception and a local identity that does not parse can cause. *)
Definition ordinary (e : NodeEffect) : bool :=
  match e with SpawnReceive _ _ | Panic => false | _ => true end.

Section effects.
Variables (o : node_options) (f : NodeEffect → bool).
Hypothesis f_ordinary : ∀ e, ordinary e = true → f e = false.
Hypothesis f_spawn : ∀ peer p, f (spawn_shell o peer p) = false.

(** No such effect, and the free permits as they were. *)
Definition no_reception (s : NodeState St) (turn : list NodeEffect * NodeState St) : Prop :=
  count f turn.1 = 0%nat ∧ nd_file_slots turn.2 = nd_file_slots s.

Lemma dial_quiet io peer dial s : count f (start_dial o io peer dial s).1 = 0%nat.
Proof.
  apply count_none. intros e. destruct dial; simpl.
  - intros ->%list_elem_of_singleton. by apply f_ordinary.
  - unfold dial_peer_candidates. destruct (dial_candidates _ _ _); simpl; [by intros ?%elem_of_nil|].
    intros ->%list_elem_of_singleton. by apply f_ordinary.
Qed.

Lemma map_quiet {B} (g : B → NodeEffect) l : (∀ x, ordinary (g x) = true) → count f (g <$> l) = 0%nat.
Proof. intros Hg. apply count_map. auto. Qed.

Lemma imap_quiet {B} (g : nat → B → NodeEffect) l : (∀ k x, ordinary (g k x) = true) → count f (imap g l) = 0%nat.
Proof. intros Hg. apply count_imap. auto. Qed.

Lemma one_quiet e : ordinary e = true → count f [e] = 0%nat.
Proof. intros He. exact (map_quiet (λ _ : unit, e) [()] (λ _, He)). Qed.

Ltac quiet_effects :=
  simpl; repeat first
    [ rewrite count_app | rewrite dial_quiet | rewrite map_quiet by done | rewrite imap_quiet by done
    | rewrite one_quiet by done ]; done.

Lemma spawn_quiet peer l : count f (spawn_shell o peer <$> l) = 0%nat.
Proof. by apply count_map. Qed.

Lemma forward_no_reception io peer dial r s : no_reception s (forward_sync o io peer dial r s).
Proof. unfold forward_sync. destruct (li_connected io peer); split; quiet_effects. Qed.

Lemma command_no_reception io cmd s : no_reception s (on_command o io cmd s).
Proof.
  destruct cmd as [to|? ? ? to|peer dial p|peer dial request to|peer dial m to|peer dial t g c k to]; simpl.
  - split; [|done]. unfold on_list_peers. quiet_effects.
  - split; quiet_effects.
  - unfold on_open_shell_next. destruct (li_connected io peer); [split; [exact (spawn_quiet peer [p])|done]|].
    pose proof (dial_quiet io peer dial s) as Hd. destruct (start_dial _ _ _ _ _) as [e [|]]; simpl in Hd; split; try done.
    simpl. by rewrite count_app, Hd, map_quiet.
  - unfold on_sync_tickets. destruct (is_ticket_mutation request); [|apply forward_no_reception].
    destruct (enqueue_json _ _ _ _ _) as [[i|] en]; [|split; quiet_effects].
    exact (forward_no_reception io peer dial _ (with_engine s en)).
  - unfold on_send_chat. destruct (li_connected io peer); split; quiet_effects.
  - unfold on_send_file. destruct (enqueue_json _ _ _ _ _) as [[i|] en]; [|split; quiet_effects].
    destruct (li_connected io peer); split; quiet_effects.
Qed.

Lemma established_no_reception io peer addr is_dialer s :
  no_reception s (on_established o io peer addr is_dialer s).
Proof.
  unfold on_established, send_tickets, send_chats. split; [|done]. simpl.
  rewrite !count_app, spawn_quiet, !imap_quiet, map_quiet by done. simpl. destruct is_dialer; [by rewrite one_quiet|done].
Qed.

Lemma registrations_quiet io target regs : ∀ effects registry,
  count f effects = 0%nat → count f (foldl (on_registration o io target) (effects, registry) regs).1 = 0%nat.
Proof.
  induction regs as [|[peer addresses] regs IH]; intros effects registry He; [done|]. simpl.
  destruct (bool_decide (peer = _)); [by apply IH|].
  destruct (bool_decide (Some peer = target)); [|destruct (li_connected io peer)]; simpl; apply IH; [|done|].
  - by rewrite count_app, He, map_quiet.
  - rewrite count_app, He. unfold dial_peer_candidates. destruct (dial_candidates _ _ _); [done|by apply one_quiet].
Qed.

Lemma tick_quiet io s : count f (on_discovery_tick io s) = 0%nat.
Proof.
  unfold on_discovery_tick. induction (filter _ _) as [|node l IH]; [done|]. simpl.
  change (RegisterAt node :: DiscoverAt node :: ?l) with ([RegisterAt node] ++ [DiscoverAt node] ++ l)%list.
  rewrite !count_app, !one_quiet by done. exact IH.
Qed.

(** Whether an event starts or ends a reception. *)
Definition about_files (event : LoopEvent) : bool :=
  match event with LeIncomingFile _ | LeFileEnded => true | _ => false end.

Lemma turn_no_reception io event s :
  about_files event = false → no_reception s (event_loop_turn o io event s).
Proof.
  destruct event as [cmd|peer sio w|peer| | |addr|peer addr d|peer n|ev|nio ev|nio ev|regs| |peer v l ob lo pr|peer e|];
    simpl; try done; intros _.
  - apply command_no_reception.
  - destruct (handle_incoming_shell_next _ _ _ _ _ _). split; quiet_effects.
  - split; [apply tick_quiet|done].
  - split; [|done]. simpl. unfold on_new_listen_addr, register_all. destruct (has_circuit addr); [|done].
    pose proof (count_app f [AddExternalAddress addr] (RegisterAt <$> elements (nd_rendezvous_nodes s))) as H.
    rewrite one_quiet, map_quiet in H by done. exact H.
  - apply established_no_reception.
  - destruct (handle_hello _ _ _ _) as [[[]|] ?]; split; quiet_effects.
  - destruct (handle_ticket_v2 _ _ _ _ _). split; quiet_effects.
  - destruct (handle_chat _ _ _ _ _). split; quiet_effects.
  - unfold handle_rendezvous_client. pose proof (registrations_quiet io None regs [] (nd_registry s) eq_refl) as H.
    destruct (foldl _ _ _). by split.
  - split; [by apply map_quiet|done].
  - unfold on_identify. destruct (negb lo && _), (existsb _ _); split; try done; apply count_none;
      intros e He; apply f_ordinary; simpl in He; repeat (apply elem_of_cons in He as [->|He]; [done|]);
      by apply elem_of_nil in He.
  - unfold on_outgoing_error. destruct peer as [peer|]; [|by split]. destruct (li_connected io peer); [by split|].
    split; quiet_effects.
Qed.
End effects.

Lemma no_permit_ordinary e : ordinary e = true → takes_permit e = false.
Proof. by destruct e. Qed.

(** A permit is taken with each reception that has one and given back when it ends. *)
Lemma turn_permits o io event s :
  (nd_file_slots (event_loop_turn o io event s).2 + count takes_permit (event_loop_turn o io event s).1 =
   nd_file_slots s + count ends_reception [(io, event)])%nat.
Proof.
  destruct (about_files event) eqn:Hf.
  - destruct event; try done; simpl; [|unfold count; simpl; lia].
    destruct (nd_file_slots s) eqn:E; unfold count; simpl; rewrite ?E; simpl; lia.
  - destruct (turn_no_reception o takes_permit no_permit_ordinary) with io event s as [-> ->]; [|done|].
    + intros peer p. unfold spawn_shell. by destruct (parse_peer_id _).
    + by destruct event.
Qed.

Definition panics (e : NodeEffect) : bool := match e with Panic => true | _ => false end.

(** [expect("local PeerId")] holds for a node that knows its own name. *)
Lemma turn_no_panic o io event s :
  parse_peer_id (ni_peer_id (no_local_info o)) = Some (no_local_peer o) →
  count panics (event_loop_turn o io event s).1 = 0%nat.
Proof.
  intros Hl. destruct (about_files event) eqn:Hf.
  - destruct event; try done. simpl. by destruct (nd_file_slots s).
  - apply turn_no_reception; [by intros []|intros peer p; unfold spawn_shell; by rewrite Hl|done].
Qed.

Lemma event_loop_no_panic o l : ∀ s,
  parse_peer_id (ni_peer_id (no_local_info o)) = Some (no_local_peer o) → count panics (event_loop o l s).1 = 0%nat.
Proof.
  induction l as [|[io event] l IH]; intros s Hl; [done|]. simpl. pose proof (turn_no_panic o io event s Hl) as Ht.
  destruct (event_loop_turn o io event s) as [e s1]. specialize (IH s1 Hl). destruct (event_loop o l s1). simpl in *.
  by rewrite count_app, Ht, IH.
Qed.

Lemma count_zero {A} (f : A → bool) l x : count f l = 0%nat → x ∈ l → f x = false.
Proof.
  intros Hl Hx. destruct (f x) eqn:E; [|done]. apply nil_length_inv in Hl.
  assert (x ∈ filter (λ x, f x = true) l) as H by (by apply list_elem_of_filter). rewrite Hl in H. by apply elem_of_nil in H.
Qed.

Lemma unissued_start l (en : TicketEngine St) : unissued l (node_start en).
Proof. intros t k _. split; apply lookup_empty. Qed.

Lemma event_loop_permits o l : ∀ s,
  (nd_file_slots (event_loop o l s).2 + count takes_permit (event_loop o l s).1 =
   nd_file_slots s + count ends_reception l)%nat.
Proof.
  induction l as [|[io event] l IH]; intros s; [simpl; unfold count; simpl; lia|]. simpl.
  pose proof (turn_permits o io event s) as Ht. destruct (event_loop_turn o io event s) as [e s1].
  specialize (IH s1). destruct (event_loop o l s1) as [e' s2]. simpl in *. rewrite count_app.
  change ((io, event) :: l) with ([(io, event)] ++ l)%list. rewrite count_app. lia.
Qed.
End turn_properties.

(** ** Properties *)

Section launch.
Context `{CC : Crypto, CL : !CryptoLaws, HX : Hex, BC : BodyCodec, BL : !BodyCodecLaws, OC : ObjectCodec}.
Context `{OB : OutboxCodec, OBL : !OutboxCodecLaws, LP : Libp2p, LL : !Libp2pLaws, KP : !Keypairs, TM : Toml}.
Context `{CG : Cbor Genesis, MT : MultiaddrText, CB : Cbor OperatorSessionCertificate, ET : ErrorText}.
Context `{JI : Json NodeInfo, JT : Json TicketSyncRequest, JTL : !JsonLaws TicketSyncRequest}.
Context `{JP : Json FileSendOutboxPayload, JPL : !JsonLaws FileSendOutboxPayload}.
Context `{JS : Json ShellNextHandshake}.
Context {St : Type} `{OS : !ObjectStore St, OL : !ObjectStoreLaws St}.
Implicit Types (s : NodeState St) (o : node_options) (en : TicketEngine St) (st : Started).

(** What a started service knows of its configuration. *)
Lemma checked_addresses b a st :
  start_checked b a st →
  (∀ text, relay_peer (cfg_network (st_config st)) = Some text → is_Some (parse_multiaddr text)) ∧
  (∀ text, public_addr (cfg_network (st_config st)) = Some text → is_Some (parse_multiaddr text)).
Proof. by intros [(? & _ & _ & _ & _ & ? & ?)%config_load_Ok _]. Qed.

(** The swarm of a started service. Unless an old remote shell was asked for, which is refused
    before anything is done, the calls are those of the plan in its order, up to the first
    that is refused, whose error is reported; no address of the configuration can turn out
    to be invalid here. *)
Lemma run_follows_plan b a accepts genesis en st :
  start_checked b a st →
  node_run accepts genesis en st [] =
    match st_shell_peer st with
    | Some _ => (Err legacy_shell, [])
    | None =>
        match follow_plan accepts (swarm_plan st) [] with
        | (Ok _, ops) =>
            (Ok (mkNodeOptions (st_info st) (keypair_peer_id (st_keypair st)) (relay_peer (cfg_network (st_config st)))
                   (load_authority genesis), node_start en), ops)
        | (Err e, ops) => (Err e, ops)
        end
    end.
Proof.
  intros [Hr Hp]%checked_addresses. unfold node_run, swarm_plan, sbind.
  destruct (st_shell_peer st); [done|].
  destruct (public_addr _) as [pt|]; [destruct (Hp pt eq_refl) as [pa Epa]|];
    (destruct (relay_peer _) as [rt|]; [destruct (Hr rt eq_refl) as [ra Era]|]);
    (destruct (st_dial st) as [d|]); simpl; rewrite ?Epa, ?Era; simpl; unfold sbind, swarm_call, slift, sret; simpl;
    repeat match goal with |- context [accepts ?op] => destruct (accepts op); simpl; try done end.
Qed.

(** A node that was launched: what it was given, and nobody waits yet. *)
Lemma launched_Ok b a accepts genesis en st o s ops :
  start_checked b a st → node_run accepts genesis en st [] = (Ok (o, s), ops) →
  st_shell_peer st = None ∧
  o = mkNodeOptions (st_info st) (keypair_peer_id (st_keypair st)) (relay_peer (cfg_network (st_config st)))
        (load_authority genesis) ∧
  s = node_start en ∧ parse_peer_id (ni_peer_id (no_local_info o)) = Some (no_local_peer o).
Proof.
  intros Hc. rewrite (run_follows_plan _ _ _ _ _ _ Hc). destruct (st_shell_peer st); [done|].
  destruct (follow_plan _ _ _) as [[]]; [|done]. intros [= <- <- _]. do 3 (split; [done|]). simpl.
  destruct Hc as (_ & _ & _ & _ & _ & _ & _ & -> & _). apply parse_peer_id_to_string.
Qed.

(** C6. What a launched node owes its callers. Over any events and answers of the swarm, as long as no
    request id is given twice, those who asked the loop for something are those it answered
    or handed to a task, together with those who still wait: none is lost and none is
    answered twice. The loop never panics over its own name, and of the files it accepts at
    most two are received at a time. *)
Theorem launched_node_answers b a accepts genesis en st o s ops l :
  start_checked b a st → node_run accepts genesis en st [] = (Ok (o, s), ops) → ids_distinct l →
  let '(effects, s') := event_loop o l s in
  (effects ≫= handled) ++ waiting_callers s' ≡ₚ brought o l s ∧
  (NoDup (brought o l s) → NoDup (effects ≫= handled)) ∧
  ¬ Panic ∈ effects ∧
  (count takes_permit effects ≤ MAX_PARALLEL_FILES + count ends_reception l)%nat.
Proof.
  intros Hc Hr Hd. destruct (launched_Ok _ _ _ _ _ _ _ _ _ Hc Hr) as (_ & _ & -> & Hl).
  pose proof (event_loop_accounted o l (node_start en) Hl Hd (unissued_start _ _)) as Ha.
  pose proof (event_loop_no_panic o l (node_start en) Hl) as Hp.
  pose proof (event_loop_permits o l (node_start en)) as Hf. simpl in Hf.
  destruct (event_loop o l (node_start en)) as [effects s']. simpl in *. split; [exact Ha|]. split; [|split].
  - intros Hn. rewrite <- Ha in Hn. by apply NoDup_app in Hn as (? & _ & _).
  - intros Hin. discriminate (count_zero panics effects Panic Hp Hin).
  - lia.
Qed.

(** The authority of the node is that of the genesis the service started with, when the
    file still holds it; a node that cannot read it runs without one. *)
Theorem launched_authority b a accepts genesis en st o s ops :
  start_checked b a st → node_run accepts genesis en st [] = (Ok (o, s), ops) →
  match genesis with
  | Ok bytes =>
      ∀ g, from_canonical_cbor bytes LIMITS_CONTROL = Ok g → hs_genesis (st_host st) = Some g →
        no_authority o = match AuthorityContext_from_genesis g with Ok ctx => Some ctx | Err _ => None end
  | Err _ => no_authority o = None
  end.
Proof.
  intros Hc Hr. destruct (launched_Ok _ _ _ _ _ _ _ _ _ Hc Hr) as (_ & -> & _ & _).
  destruct genesis as [bytes|]; [|done]. intros g Hb Hg. simpl. rewrite Hb.
  destruct Hc as (_ & _ & _ & _ & Hv & _). by destruct (Hv g Hg) as [-> _].
Qed.

(** C7. A request that waits in the outbox, over any run of the loop and whatever the disk refuses
    meanwhile: as long as no final answer to it has come, it is still there at the end, and every
    connection of its peer during the run sent it again, if the outbox could then be listed and its file
    read. A connection that could not loses nothing: the next one that can sends it. *)
Theorem queued_request_sent o l s name b record request peer :
  outbox_inv (nd_engine s) → Forall (λ t, Inj (=) (=) (li_request_id t.1) ∧ name ≠ outbox_name (li_uuid t.1)) l →
  en_outbox (nd_engine s) !! name = Some b → path_extension name = Some "json"%string →
  decode_outbox b = Some record → ob_kind record = "TICKET_SYNC"%string →
  ob_peer_id record = peer_id_to_string peer → json_from_str (ob_payload record) = Some request →
  (∀ l1 t l2, l = (l1 ++ t :: l2)%list → ¬ settled t.2 (event_loop o l1 s).2 (ob_id record)) →
  let '(effects, s') := event_loop o l s in
  en_outbox (nd_engine s') !! name = Some b ∧
  ∀ io addr d, (io, LeConnectionEstablished peer addr d) ∈ l → reads_file (li_ticket_list io) name →
    ∃ k, SendTicket peer (li_request_id io k) request ∈ effects.
Proof.
  intros Hi Hl Hb Hext Hd Hk Hp Hj. revert s Hi Hb. induction Hl as [|[io event] l [Hinj Hn] Hl IH]; intros s Hi Hb Hs.
  - split; [done|]. by intros io addr d ?%elem_of_nil.
  - pose proof (outbox_at_least_once o io event s name b record request peer Hi Hinj Hb Hext Hd Hk Hp Hj Hn) as Ht. simpl.
    destruct (event_loop_turn o io event s) as [e s1] eqn:E. destruct Ht as (Hi1 & Hkept & Hsent & _).
    specialize (IH s1 Hi1). destruct Hkept as [Hkept|Hsettled]; [|by destruct (Hs [] (io, event) l)].
    specialize (IH Hkept). destruct (event_loop o l s1) as [e' s2].
    destruct IH as [H2 Hc].
    { intros l1 t l2 ->. specialize (Hs ((io, event) :: l1) t l2 eq_refl). simpl in Hs. rewrite E in Hs.
      by destruct (event_loop o l1 s1). }
    split; [done|]. intros io' addr d [[= -> <-]|Hin]%elem_of_cons Hr.
    + destruct (Hsent addr d eq_refl Hr) as (k & _ & Hk' & _). exists k. apply elem_of_app. by left.
    + destruct (Hc io' addr d Hin Hr) as [k Hk']. exists k. apply elem_of_app. by right.
Qed.
End launch.
