(* ===== verification/LaunchRuns.v ===== *)
(** A concrete node, launched: the hypotheses of Launch.v hold there. *)

From S2P Require Import Prelude Text Object Concrete Ticket Event Graph GraphSort.
From S2P Require Import Reducer Authority Store Engine EngineRuns Codec Stream Config Shell Mnemonic Wire Sync.
From S2P Require Import Peers Admission Transfer SyncRuns Client Node NodeRuns Service Machine Address Install Startup StartupRuns.
From S2P Require Import Launch.

#[local] Open Scope string_scope.

#[local] Existing Instance toy_libp2p.
#[local] Existing Instance toy_libp2p_laws.
#[local] Existing Instance toy_toml.
#[local] Existing Instance toy_cbor.
#[local] Existing Instance toy_keypairs.
#[local] Existing Instance toy_genesis.
#[local] Existing Instance no_multiaddr_text.
#[local] Existing Instance request_json.
#[local] Existing Instance request_json_laws.
#[local] Existing Instance info_json.
#[local] Existing Instance file_json.
#[local] Existing Instance shell_json.
#[local] Existing Instance toy_outbox.
#[local] Existing Instance toy_outbox_laws.

Definition sample_start : Started :=
  started the_build sample_config (instance_lock_path (sa_host (started_with "/etc/a.toml")) (path "/etc/a.toml"))
    (vreplicate 32 x07) (Ed25519Signer_generate (vreplicate 32 x01)) None [Ip4 [0; 0; 0; 0]; Udp 4001; QuicV1] None None None.

Lemma sample_checked : start_checked the_build (started_with "/etc/a.toml") sample_start.
Proof.
  split; [reflexivity|]. split; [reflexivity|]. split; [eexists; reflexivity|]. split; [vm_compute; reflexivity|].
  split; [discriminate|]. split; [apply signer_wf_from_bytes|]. repeat split.
Qed.

(** Nothing is connected; the ids of the first turn are even, those of the second odd. *)
Definition numbered_io (first : N) : loop_io :=
  mkLoopIo (λ _, false) (λ _, true) (λ _, DialStarted) (λ k, 2 * N.of_nat k + first) (λ k, N.of_nat (100 + k)) 500 "o1"
    None one_file one_file (λ _, RmRemoved).

(** A request to a node, and the connection that fails. *)
Definition asked_and_refused : list (loop_io * LoopEvent) :=
  [(numbered_io 0, ask_sync); (numbered_io 1, LeOutgoingConnectionError (Some "op") "refused")].

Lemma asked_ids : ids_distinct asked_and_refused.
Proof.
  split; [intros i j H; simpl in H; lia|]. split; [|split; [intros i j H; simpl in H; lia|split; [constructor|exact I]]].
  constructor; [|constructor]. intros k k' H. simpl in H. lia.
Qed.

Definition launched : result string (node_options * NodeState FsObjectStore) * list swarm_op :=
  node_run (λ _, true) (Err NotFound) engine0 sample_start [].

Lemma launched_node_answers_witness :
  match launched with
  | (Ok (o, s), ops) =>
      length ops = 4%nat ∧
      let '(effects, s') := event_loop o asked_and_refused s in
      (effects ≫= handled) ++ waiting_callers s' ≡ₚ [9] ∧ effects ≫= handled = [9]
  | (Err _, _) => False
  end.
Proof.
  destruct launched as [[[o s]|e] ops] eqn:E; [|discriminate E].
  assert (length ops = 4%nat) as Hops by (unfold launched in E; injection E as _ _ <-; reflexivity).
  split; [exact Hops|].
  pose proof (launched_node_answers the_build (started_with "/etc/a.toml") (λ _, true) (Err NotFound) engine0 sample_start
    o s ops asked_and_refused sample_checked E asked_ids) as H.
  injection E as <- <- _.
  match type of H with context [event_loop ?o ?l ?s] =>
    assert ((event_loop o l s).1 ≫= handled = [9]) as Hh by (vm_compute; reflexivity);
    assert (brought o l s = [9]) as Hb by (vm_compute; reflexivity)
  end.
  destruct (event_loop _ _ _) as [effects s']. destruct H as (H & _). rewrite Hb in H. split; [exact H|exact Hh].
Defined.

Lemma launched_authority_witness :
  match launched with (Ok (o, _), _) => no_authority o = None | (Err _, _) => False end.
Proof.
  destruct launched as [[[o s]|e] ops] eqn:E; [|discriminate E].
  exact (launched_authority the_build (started_with "/etc/a.toml") (λ _, true) (Err NotFound) engine0 sample_start
    o s ops sample_checked E).
Defined.

(** The outbox cannot be listed during a turn. *)
Definition blind_io : loop_io :=
  mkLoopIo (λ _, true) (λ _, true) (λ _, DialStarted) N.of_nat (λ k, N.of_nat (100 + k)) 600 "o2"
    (Some EnqDir) no_list no_list (λ _, RmRefused).

(** The peer of a stored request connects while the outbox cannot be listed, and its connection is
    lost and made again. *)
Definition connected_again : list (loop_io * LoopEvent) :=
  [(blind_io, LeConnectionEstablished "op" "q1" false); (next_io, LeConnectionClosed "op" 0);
   (next_io, LeConnectionEstablished "op" "q2" false)].

(** The first connection sends what waits in the queue of the dial alone, the second the stored
    request. *)
Definition sends (l : list (loop_io * LoopEvent)) : nat :=
  count (λ e, match e with SendTicket _ _ _ => true | _ => false end) (event_loop node_settings l queued_node).1.

Lemma queued_request_sent_witness :
  let '(effects, s') := event_loop node_settings connected_again queued_node in
  en_outbox (nd_engine s') !! "o1.json" = Some [x01] ∧
  (∃ k, SendTicket "op" (N.of_nat k) queued_request ∈ effects) ∧
  sends (take 2 connected_again) = 1%nat ∧ sends connected_again = 2%nat.
Proof.
  pose proof (queued_request_sent node_settings connected_again queued_node "o1.json" [x01] queued_record queued_request "op") as H.
  destruct (event_loop node_settings connected_again queued_node) as [effects s'].
  destruct H as [Hb Hc].
  - exact queued_inv.
  - repeat (constructor; [split; [intros i j Hij; exact (Nat2N.inj _ _ Hij)|vm_compute; discriminate]|]). constructor.
  - rewrite queued_outbox. reflexivity.
  - vm_compute. reflexivity.
  - vm_compute. reflexivity.
  - reflexivity.
  - reflexivity.
  - vm_compute. reflexivity.
  - intros l1 t l2 Hl (nio & id & response & p & Hev & _).
    assert (t ∈ connected_again) as Ht by (rewrite Hl; apply elem_of_app; right; left).
    repeat (apply elem_of_cons in Ht as [->|Ht]; [discriminate Hev|]). by apply elem_of_nil in Ht.
  - split; [exact Hb|]. destruct (Hc next_io "q2" false ltac:(right; right; left) one_file_read) as [k Hk].
    split; [exists k; exact Hk|]. split; vm_compute; reflexivity.
Defined.
